(* ===== verification/_CoqProject ===== *)
-Q . S2P
Prelude.v
Tables.v
Simulation.v
Codec.v
JsonText.v
GoTime.v
JsonTree.v
JsonUtf8.v
TimeText.v
Sha256.v
Models.v
Merkle.v
Crypto.v
Storage.v
Cache.v
Redis.v
Broker.v
Wire.v
WireSize.v
Rabbit.v
RabbitRuns.v
Chatlog.v
LogFacts.v
LogReads.v
LogContract.v
Service.v
RateLimit.v
Api.v
ApiContract.v
ApiJson.v
Scylla.v
ScyllaLog.v
Faults.v
Concurrency.v
FaultRuns.v
FaultProofs.v
Readings.v
Nodes.v
Interleaved.v
FaultReads.v
Requests.v
RequestRuns.v
FaultRequests.v
Feed.v
Streams.v
Dispatch.v
Main.v
ScyllaNode.v
