(* ===== verification/Prelude.v ===== *)
(** * A verified model of the decentralized messenger

    The program (Go, module [decentralized-messenger]) is a messaging node: a
    client signs a message, the node appends it to an append-only log of the
    chat, every entry carrying the hash of the one before it, every hundred
    entries sealed by a Merkle root, and serves history, proofs and
    verification over HTTP.  This library models the Go code under
    [src/internal] and [src/cmd] as executable definitions over an explicit
    state and proves what they guarantee.

    ** Parts, and the files that model them

    - [internal/models]: [Models] has the message, entry and snapshot records,
      [NewMessage], [SigningPayload] (a [json.Marshal] of a string map),
      [formatUint] with its buffer, and [ComputeHash]; [Wire] has the JSON of
      these records, written and read, and [WireSize] its length.
    - [internal/crypto]: [Crypto] has [keys.go] and [encrypt.go] over two
      interfaces, [Ed25519] and [AESGCM].
    - [internal/merkle]: [Merkle] has [Root], [Proof] and [VerifyProof] with
      their loops.
    - [internal/storage]: [Storage] has the port (a class with laws) and the
      in-memory store; [Scylla] the ScyllaDB adapter over an interface with one
      operation per CQL statement, whose tables are [Tables].
    - [internal/cache]: [Cache] has the port, the no-op and the in-memory
      cache, with the heap of byte slices it shares with its callers; [Redis]
      the Redis adapter over an interface for the client library.
    - [internal/broker]: [Broker] has the port, the no-op and the in-memory
      broker with its buffered channels and its runs; [Rabbit] the RabbitMQ
      adapter over an interface for the AMQP library, [RabbitRuns] its runs,
      with the goroutine of each subscription.
    - [internal/chatlog]: [Chatlog] has the log over these ports, mutexes
      included; [LogFacts], [LogReads] and [LogContract] its theory;
      [Concurrency] cuts [Append] at its port calls and lets calls interleave,
      [Nodes] those of several nodes over one database; [Readings] cuts the
      reading calls in the same way, and [Interleaved] has what they answer
      while appends go on.
    - Stores that fail: [Faults] says what is left to rely on, and wraps any
      store into one whose calls fail by a plan; [FaultRuns], [FaultProofs],
      [FaultReads] and [FaultRequests] have appends, proofs, reading calls and
      whole requests over such a store.
    - [internal/service], [internal/ratelimit], [internal/api]: [Service],
      [RateLimit] and [Api]; [ApiContract] has the theorems about requests,
      [ApiJson] the bytes of the responses and what a client reads from them;
      [Requests] cuts a request at the calls its goroutine makes of what all
      goroutines share, and [RequestRuns] has concurrent requests; [Feed] and
      [Streams] follow an entry from [Append] to the channel of a stream.
    - [cmd/messenger]: [Main] has the selection of the adapters, the body
      limit, the life of the server and the demonstration; [Dispatch] the
      interface values that hold one of two adapters.

    What the program takes from the Go standard library is modelled where the
    program's guarantees rest on it: [Codec] (hexadecimal, decimal, base64),
    [JsonText] (UTF-8 validity and JSON strings), [JsonTree] and [JsonUtf8]
    ([encoding/json]'s scanner, the texts of strings and numbers, and that
    decoded strings are UTF-8), [GoTime] and [TimeText] (instants, RFC 3339
    written and read), [Sha256] (FIPS 180-4, executable, with the published
    test vectors).  The curve, the cipher, the rate limiter of
    [golang.org/x/time], the AMQP and Redis clients and the database cluster
    are classes; their laws are documented behaviour, and each has a small
    instance at which the theorems are run.

    ** How they interact

    [Main.main] picks a store, a cache and a broker and puts a [Server]
    together; [Main.serve] cuts bodies at the limit and calls [Api.Handler],
    which takes a request to a response over the [Server]: the limiter of
    [RateLimit], then a handler, which decodes the body by [Wire] and calls
    [Service], which calls [Chatlog].  A [Chatlog.Log] holds a storage, a cache
    and a broker, any types with an instance of the classes [Storage],
    [Cache], [Broker], and the table of per-chat mutexes.  The theorems about
    the log are proved against [StorageLaws], [CacheLaws] and [BrokerLaws];
    the in-memory adapters discharge them, Redis and RabbitMQ the laws of
    their ports over the laws of their clients, and [Dispatch] the choice
    between two.  [Scylla] does not satisfy [append_gap] of [StorageLaws] (it
    accepts gaps) and cuts times; so [ScyllaLog] and [ScyllaNode] run the log and
    the server over it side by side with the same code over a lawful store, by
    the rules of [Simulation], and carry the theorems over.  Where the store may
    fail, or other nodes write to it, the theorems are proved against the weaker
    [SharedLaws] (the entries), [SnapshotLaws] and [ReadLaws], which ScyllaDB and
    the in-memory store discharge, and [Flaky] for any store that does.

    ** Conventions

    A method with receiver state [S] is a [M S A]: a function from the state to
    an [outcome] ([Ok], [Err], a [Panic], or [Block] for a call that does not
    return) and a state, which survives errors.  [zoom] runs the method of a
    part.  Integers are [Z]; [uint64] and [int64] conversions are written
    [u64] and [i64].  Each reading of the clock and each read of randomness is
    an argument.  A Go string is a [string] of bytes, a byte slice a list of
    bytes, except in [Cache] and [Redis], where slices are references because
    sharing matters there.  A slice of entries that is written as JSON is a
    [Slice]: nil, written as [null], or [made] of a list; a store says by
    [EntriesSince] which it returns.  Whether a message's empty content is nil,
    which only its JSON tells, is an argument of the encoders.  Each method of an adapter holds a
    mutex from beginning to end, or is one statement to a server, and is one
    step; the goroutine of a RabbitMQ subscription takes one step a turn, since
    only the channel it fills is shared with the subscriber.  [Append] makes
    several port calls under the chat's mutex, which is part of the state:
    [Chatlog.Append] is the call as a whole, and [Concurrency.advance] its steps
    ([PWait] does not step while another call holds the mutex).  The reading calls take no
    mutex: [Readings.reading_of] is a reading call as a tree of port calls,
    [at_once] performs it at one moment ([reading_at_once]: as [Chatlog] does),
    [read_step] one port call of it.  A [Requests.visit_step] is one step of a
    request: the limiter, the routing, then the steps of [Append], of a reading
    call, or of a stream; [visit_alone_is_handler] relates visits to
    [Api.Handler].  Failures of the store are executable as well: a [Flaky]
    store has a plan, which says of each call to come whether it goes well, is
    lost on the way, or has its effect and loses the answer.

    Loops whose end is not structural have fuel: [root_loop] and [proof_loop]
    one turn per leaf ([root_total] and [proof_complete] show that they end),
    [formatUint_loop] one per byte of its buffer ([format_uint_roundtrip]).
    The JSON scanner has two turns per byte and one more, which [scan_fuel]
    shows to be as good as any larger number.
    [walk] is the loop of a client that pages through a chat; the theorem gives
    the fuel that suffices.

    ** What the theorems show

    - The chain ([LogContract]): reachable logs are hash chains with one
      snapshot per hundred entries; [Append] on every branch; the log refines
      "the acceptable messages of each chat, in order"; two verified logs with
      the same last hash are the same log unless SHA-256 collides on the bytes
      they hashed; [Verify] decides the chain and agrees with [VerifyEntry].
    - Concurrent appends ([Concurrency]): in every interleaving the chains
      hold, one call at a time is in a chat's critical section, every call
      returns after a bounded number of steps, and the logs end up with each
      acceptable message exactly once.
    - Readers beside appends ([Interleaved]): every reading call but [Sync] is
      linearizable; no reader is told of tampering, waits or takes more than
      three calls of the store; the bundle of [Sync] has parts of different
      moments, and can have the hash of an entry it lacks.
    - Concurrent requests ([Requests], [RequestRuns]): each is answered as its
      handler would at one moment of its life, or with an entry that is its own
      and in the log; nothing deadlocks, and every request is answered.
    - A store that fails ([FaultRuns], [FaultProofs], [FaultReads],
      [FaultRequests]): whatever calls of it fail, with or without effect, the
      chains hold, acknowledged messages are in them, no mutex stays held and
      every request is answered; a reader is told the store's error or what is
      right, never of a gap or a forgery; proofs that are given are right, but
      one snapshot that is not made ends them for the rest of the chat.
    - Events ([Feed], [Streams]): in every interleaving the events of a chat are
      published in the order of its log, each after its entry is stored; over the
      in-memory broker a stream's channel has those since it subscribed.
    - Several nodes over one database, which may fail ([Nodes]): the conditional
      insert keeps one chain per chat although no mutex is common, but a snapshot
      can get the root of too many entries.
    - Snapshots and proofs ([Merkle], [LogContract]): proofs are produced for
      exactly the covered sequences and verify; an accepted proof is for a
      covered entry, and equal roots mean equal windows, unless there is a
      collision; and where the construction is weaker than one might expect
      (the repeated last leaf, the shape [VerifyProof] does not check).
    - What is signed ([Models], [Crypto]): the payload and the entry hash
      determine the fields; identifiers that are not UTF-8 are the exception,
      and [ApiJson] shows that a message that came in as JSON has none.
    - Ports ([Storage], [Cache], [Redis], [Broker], [RabbitRuns], [Scylla]):
      contiguity, copying and sharing of keys, answers that were set, first-in
      first-out delivery without panics, goroutines that end, connections that
      are not leaked, round trips through the database and what a millisecond
      column loses.
    - One call that fails ([LogContract]): what a refused entry and an unsaved
      snapshot leave behind; the mutex is freed on every return.
    - The interface ([ApiContract], [RateLimit], [Service]): every request is
      answered and keeps the invariant, only [POST] writes, a message is bound
      to the chat of its path, pages add up to the log, streams carry their
      chat, caps apply to what is sent; clients have separate budgets, each of
      one limiter per session between evictions, and of one limiter altogether
      when buckets fill within the idle time.
    - The bytes on the wire ([ApiJson], [Wire], [WireSize]): what a client
      posts as JSON it reads back as the entry it became, pages are read back
      whole, stored messages are well typed whatever the bodies were, every
      allowed attachment fits the body limit; and a timestamp with no text
      empties the page it is on.
    - The node ([Main]): it answers every request whatever cache and broker
      are selected, stops when it is told to, and its demonstration succeeds.
    - The node on ScyllaDB ([ScyllaLog], [ScyllaNode]): for messages whose times
      the database keeps and pages that start within 63 bits, it sends the
      responses of the node in memory but for two differences, the time of a
      snapshot and the [null] for a page or bundle without entries, and leaves a
      database that holds its logs; what else is different for times finer than
      a millisecond and for sequences beyond 63 bits.

    Collisions are never assumed away: a theorem that needs their absence
    concludes "or these byte strings contain a collision", with the byte
    strings named ([collides]).  What is said of JSON texts and of payloads
    supposes UTF-8 texts and times that JSON can write; what is said of stores
    that fail or are shared, messages the store keeps; each theorem's comment
    says so.

    ** What is not modelled

    The sockets of [net/http] and the WebSocket handshake (its outcome is read
    from the surroundings, and so are the turns of a stream's loop; which events
    its channel has for them is the matter of [Streams] and [RabbitRuns]); the
    parsing of flags and URLs, and log lines; fairness of Go's scheduler.  Within
    one node all interleavings of requests are modelled, over a store that fails
    as well, across nodes those of [Append].  A failing store returns errors; one
    that answers wrongly is not modelled.  The ticks that evict idle
    buckets interleave with requests for the limiter ([RateLimit.decisions]), not
    with the port calls of [RequestRuns], whose theorems leave open whom the
    limiter turns away.  The TypeScript client under [src/web] is outside the
    model. *)
From Stdlib Require Export ZArith Lia ZifyNat Strings.Byte String.
From stdpp Require Export base tactics list strings gmap fin_maps.

(** Arithmetic on constants such as [2^64] must stay folded. *)
#[global] Open Scope Z_scope.

(** ** Bytes and strings *)

#[global] Instance byte_eq_dec : EqDecision byte := Byte.byte_eq_dec.

(** The unsigned value of a byte, and the byte holding [z mod 256]. *)
Definition byteZ (b : byte) : Z := Z.of_N (Byte.to_N b).
Definition Zbyte (z : Z) : byte :=
  match Byte.of_N (Z.to_N (z mod 256)) with Some b => b | None => x00 end.

Lemma byteZ_range b : 0 <= byteZ b < 256.
Proof. unfold byteZ. pose proof (Byte.to_N_bounded b). lia. Qed.

Lemma byteZ_Zbyte z : byteZ (Zbyte z) = z mod 256.
Proof.
  unfold Zbyte, byteZ. pose proof (Z.mod_pos_bound z 256).
  destruct (Byte.of_N (Z.to_N (z mod 256))) as [b|] eqn:E.
  - apply Byte.to_of_N in E. lia.
  - apply Byte.of_N_None_iff in E. lia.
Qed.

Lemma Zbyte_byteZ b : Zbyte (byteZ b) = b.
Proof.
  unfold Zbyte, byteZ. rewrite Z.mod_small by (pose proof (byteZ_range b); done).
  rewrite N2Z.id, Byte.of_to_N. done.
Qed.

#[global] Instance byteZ_inj : Inj (=) (=) byteZ.
Proof. intros a b E. rewrite <-(Zbyte_byteZ a), <-(Zbyte_byteZ b). by f_equal. Qed.

(** ** Slices

    Go tells the nil slice from an empty one only by comparison with [nil]; but
    [encoding/json] writes the one as [null] and the other as an empty array.
    Where a list is written to a client the model keeps the difference. *)

Inductive Slice (A : Type) :=
  | nil_slice
  | made (l : list A).   (**r by [make], or a literal *)
Arguments nil_slice {A}.
Arguments made {A} l.

Definition elems {A} (s : Slice A) : list A := match s with nil_slice => [] | made l => l end.
Coercion elems : Slice >-> list.

(** [var out []A], and an [append] for each element. *)
Definition appended {A} (l : list A) : Slice A := match l with [] => nil_slice | _ => made l end.

(** [s[:n]] *)
Definition reslice {A} (n : nat) (s : Slice A) : Slice A :=
  match s with nil_slice => nil_slice | made l => made (take n l) end.

Lemma elems_appended {A} (l : list A) : elems (appended l) = l.
Proof. by destruct l. Qed.

Lemma elems_reslice {A} n (s : Slice A) : elems (reslice n s) = take n (elems s).
Proof. destruct s; [by destruct n|done]. Qed.

(** ** Errors and outcomes

    A Go call returns a value, returns a non-nil [error], panics, or blocks
    for ever (a lock nobody will release).  Sentinel errors are [errors.New]
    values compared by identity; the repository's sentinels have pairwise
    different texts, so the text is the identity here. *)

Inductive error :=
  | New (msg : string)                      (**r [errors.New], [fmt.Errorf] without [%w] *)
  | Wrapf (prefix : string) (cause : error) (**r [fmt.Errorf("prefix: %w", cause)] *)
  | External (what : string).               (**r an error a library returned *)

#[global] Instance error_eq_dec : EqDecision error.
Proof. solve_decision. Defined.

(** [err.Error()] *)
Fixpoint Error (e : error) : string :=
  match e with
  | New msg => msg
  | Wrapf p c => p ++ ": " ++ Error c
  | External w => w
  end.

(** [errors.Is(err, target)]: [err] or something it wraps is [target]. *)
Fixpoint errors_is (e target : error) : bool :=
  bool_decide (e = target) ||
  match e with Wrapf _ c => errors_is c target | _ => false end.

Lemma errors_is_refl e : errors_is e e = true.
Proof. destruct e; cbn; by rewrite bool_decide_eq_true_2. Qed.

Inductive outcome (A : Type) :=
  | Ok (a : A)
  | Err (e : error)
  | Panic (why : string)
  | Block.
Arguments Ok {A} a.
Arguments Err {A} e.
Arguments Panic {A} why.
Arguments Block {A}.

#[global] Instance outcome_eq_dec `{EqDecision A} : EqDecision (outcome A).
Proof. solve_decision. Defined.

(** The call returns, with a value or with an error. *)
Definition settled {A} (o : outcome A) : Prop := (exists a, o = Ok a) \/ exists e, o = Err e.

#[global] Instance outcome_ret : MRet outcome := @Ok.
#[global] Instance outcome_bind : MBind outcome := fun A B k o =>
  match o with Ok a => k a | Err e => Err e | Panic w => Panic w | Block => Block end.

(** ** The state-and-outcome monad

    A method with receiver state [S] is a [M S A].  The state survives an
    error: what was written before a failing call stays written. *)

Definition M (S A : Type) : Type := S -> outcome A * S.

#[global] Instance M_ret S : MRet (M S) := fun A a s => (Ok a, s).
#[global] Instance M_bind S : MBind (M S) := fun A B k m s =>
  match m s with
  | (Ok a, s') => k a s'
  | (Err e, s') => (Err e, s')
  | (Panic w, s') => (Panic w, s')
  | (Block, s') => (Block, s')
  end.

Section MonadOps.
Context {S : Type}.

Definition throw {A} (e : error) : M S A := fun s => (Err e, s).
Definition panic {A} (w : string) : M S A := fun s => (Panic w, s).
Definition block {A} : M S A := fun s => (Block, s).
Definition gets {A} (f : S -> A) : M S A := fun s => (Ok (f s), s).
Definition modify (f : S -> S) : M S unit := fun s => (Ok tt, f s).
Definition lift {A} (o : outcome A) : M S A := fun s => (o, s).

(** [v, err := m()] with both results kept, for code that inspects [err]. *)
Definition try {A} (m : M S A) : M S (A + error) := fun s =>
  match m s with
  | (Ok a, s') => (Ok (inl a), s')
  | (Err e, s') => (Ok (inr e), s')
  | (Panic w, s') => (Panic w, s')
  | (Block, s') => (Block, s')
  end.

(** [defer d] around [m]: [d] runs when [m] returns or panics, not when it
    never returns. *)
Definition deferring {A} (d : S -> S) (m : M S A) : M S A := fun s =>
  match m s with
  | (Block, s') => (Block, s')
  | (o, s') => (o, d s')
  end.
End MonadOps.

(** Running a component's method on the part of a larger state it owns. *)
Definition zoom {S T A} (get : S -> T) (put : T -> S -> S) (m : M T A) : M S A :=
  fun s => let '(o, t) := m (get s) in (o, put t s).

(** Wrapping the error of a call: [fmt.Errorf("prefix: %w", err)]. *)
Definition wrapping {S A} (prefix : string) (m : M S A) : M S A := fun s =>
  match m s with
  | (Err e, s') => (Err (Wrapf prefix e), s')
  | r => r
  end.

(** Evaluation rules of the monad, used by rewriting in every component. *)
Section MonadLemmas.
Context {S : Type}.
Implicit Types s : S.

Lemma mret_run {A} (a : A) s : (mret a : M S A) s = (Ok a, s).
Proof. done. Qed.
Lemma bind_ok {A B} (m : M S A) (k : A -> M S B) s a s' :
  m s = (Ok a, s') -> (m ≫= k) s = k a s'.
Proof. intros E. unfold mbind, M_bind. by rewrite E. Qed.
Lemma bind_err {A B} (m : M S A) (k : A -> M S B) s e s' :
  m s = (Err e, s') -> (m ≫= k) s = (Err e, s').
Proof. intros E. unfold mbind, M_bind. by rewrite E. Qed.
Lemma bind_assoc_run {A B D} (m : M S A) (k : A -> M S B) (k' : B -> M S D) s :
  (a ← m; k a ≫= k') s = ((a ← m; k a) ≫= k') s.
Proof. unfold mbind, M_bind. by destruct (m s) as [[a|e|w|] s']. Qed.
Lemma try_ok {A} (m : M S A) s a s' :
  m s = (Ok a, s') -> try m s = (Ok (inl a), s').
Proof. intros E. unfold try. by rewrite E. Qed.
Lemma try_err {A} (m : M S A) s e s' :
  m s = (Err e, s') -> try m s = (Ok (inr e), s').
Proof. intros E. unfold try. by rewrite E. Qed.
Lemma wrapping_ok {A} p (m : M S A) s a s' :
  m s = (Ok a, s') -> wrapping p m s = (Ok a, s').
Proof. intros E. unfold wrapping. by rewrite E. Qed.
Lemma wrapping_err {A} p (m : M S A) s e s' :
  m s = (Err e, s') -> wrapping p m s = (Err (Wrapf p e), s').
Proof. intros E. unfold wrapping. by rewrite E. Qed.
Lemma zoom_run {T A} (get : S -> T) put (m : M T A) s o t :
  m (get s) = (o, t) -> zoom get put m s = (o, put t s).
Proof. intros E. unfold zoom. by rewrite E. Qed.
End MonadLemmas.

(** ** Machine integers *)

(** [uint64(z)], and [int64(z)] / [int(z)] on a 64-bit node. *)
Definition u64 (z : Z) : Z := z mod 2 ^ 64.
Definition i64 (z : Z) : Z := (z + 2 ^ 63) mod 2 ^ 64 - 2 ^ 63.
Definition is_u64 (z : Z) : Prop := 0 <= z < 2 ^ 64.

Lemma u64_range z : is_u64 (u64 z).
Proof. apply Z.mod_pos_bound. done. Qed.
Lemma u64_id z : is_u64 z -> u64 z = z.
Proof. apply Z.mod_small. Qed.
Lemma i64_id z : - 2 ^ 63 <= z < 2 ^ 63 -> i64 z = z.
Proof. intros. unfold i64. rewrite Z.mod_small; lia. Qed.

(** The lemmas that close the development's routine goals. *)
Create HintDb messenger.

(** [lia] with quotients and remainders by constants. *)
Ltac div_lia := zify; Z.to_euclidean_division_equations; lia.

(** Parts of a list that lies in another. *)
Lemma subseteq_app_l {A} (l m k : list A) : l ++ m ⊆ k -> l ⊆ k.
Proof. intros E x Hx. apply E, elem_of_app. by left. Qed.
Lemma subseteq_app_r {A} (l m k : list A) : l ++ m ⊆ k -> m ⊆ k.
Proof. intros E x Hx. apply E, elem_of_app. by right. Qed.

Lemma mod2_odd n : (n mod 2 = if Nat.odd n then 1 else 0)%nat.
Proof. pose proof (Nat.div2_odd n) as E. destruct (Nat.odd n); unfold Nat.b2n in E; div_lia. Qed.
