(* ===== verification/Tables.v ===== *)
(** * Tables: rows under an integer clustering key

    A partition of a CQL table whose clustering key is a [bigint] is a finite
    map from the key to the row; a select with [ORDER BY] lists its rows by
    ascending key.  [ordered] is that list, [rows_from] the part of it from a
    key on.  A list stored at the keys 0, 1, 2, ... is read back as it is. *)
From stdpp Require Import sorting.
From S2P Require Import Prelude.

Section Tables.
Context {R : Type}.
Implicit Types (m : gmap Z R) (l : list R).

Definition by_key (a b : Z * R) : Prop := a.1 <= b.1.
#[local] Instance by_key_dec a b : Decision (by_key a b) := decide (a.1 <= b.1).
#[local] Instance by_key_total : Total by_key.
Proof. intros a b. unfold by_key. lia. Qed.
#[local] Instance by_key_trans : Transitive by_key.
Proof. intros a b c. unfold by_key. lia. Qed.

(** The rows by ascending key. *)
Definition ordered m : list R := (merge_sort by_key (map_to_list m)).*2.
Definition rows_from (q : Z) m : list R := ordered (filter (fun kr => q <= kr.1) m).

(** Rows listed by strictly ascending key are the rows of the map in order. *)
Lemma ordered_unique m (ks : list (Z * R)) : StronglySorted (fun a b => a.1 < b.1) ks ->
  (forall k r, (k, r) ∈ ks <-> m !! k = Some r) -> ordered m = ks.*2.
Proof.
  intros So El. unfold ordered. f_equal. apply (StronglySorted_unique_strong by_key).
  - intros [j x] [k y] Hx Hy J K. unfold by_key in J, K. cbn in J, K.
    rewrite merge_sort_Permutation, elem_of_map_to_list in Hx. apply El in Hy.
    assert (j = k) as -> by lia. congruence.
  - apply Sorted_StronglySorted; [apply _|]. apply Sorted_merge_sort, _.
  - clear El. induction So as [|a ks _ IH F]; constructor; [done|].
    eapply Forall_impl; [exact F|]. unfold by_key. cbn. lia.
  - rewrite merge_sort_Permutation. apply NoDup_Permutation; [apply NoDup_map_to_list| |].
    + clear El. induction So as [|a ks _ IH F]; constructor; [|done].
      intros Ha. rewrite Forall_forall in F. specialize (F a Ha). cbn in F. lia.
    + intros [k r]. by rewrite elem_of_map_to_list, El.
Qed.

(** ** A list as a table *)

(** [m] holds [l] at the keys from zero on, and nothing else. *)
Definition table_of l m : Prop := forall k, m !! k = if decide (0 <= k) then l !! Z.to_nat k else None.

Lemma table_of_nil : table_of [] ∅.
Proof. intros k. by case_decide. Qed.

Lemma table_of_lookup l m (k : nat) : table_of l m -> m !! Z.of_nat k = l !! k.
Proof. intros T. by rewrite T, decide_True, Nat2Z.id by lia. Qed.

Lemma table_of_ext l m m' : (forall k, m' !! k = m !! k) -> table_of l m -> table_of l m'.
Proof. intros E T k. by rewrite E. Qed.

Lemma table_of_snoc l m r : table_of l m -> table_of (l ++ [r]) (<[Z.of_nat (length l) := r]> m).
Proof.
  intros T k. destruct (decide (k = Z.of_nat (length l))) as [->|N].
  - rewrite lookup_insert_eq, decide_True, Nat2Z.id by lia. by rewrite lookup_app_r, Nat.sub_diag by lia.
  - rewrite lookup_insert_ne, T by done. case_decide; [|done].
    destruct (decide (k < Z.of_nat (length l))).
    + by rewrite lookup_app_l by lia.
    + rewrite !lookup_ge_None_2; [done|rewrite length_app; cbn; lia|lia].
Qed.

Definition keyed (n : nat) l : list (Z * R) := imap (fun i r => (Z.of_nat (n + i), r)) l.

Lemma keyed_rows n l : (keyed n l).*2 = l.
Proof.
  apply list_eq. intros i. unfold keyed. rewrite list_lookup_fmap, list_lookup_imap. by destruct (l !! i).
Qed.

Lemma keyed_elem n l k r : (k, r) ∈ keyed n l <-> Z.of_nat n <= k /\ l !! (Z.to_nat k - n)%nat = Some r.
Proof.
  unfold keyed. rewrite list_elem_of_lookup. split.
  - intros (i & E). rewrite list_lookup_imap in E. destruct (l !! i) eqn:L; [|done]. cbn in E. injection E as <- <-.
    split; [lia|]. by replace (Z.to_nat (Z.of_nat (n + i)) - n)%nat with i by lia.
  - intros [P L]. exists (Z.to_nat k - n)%nat. rewrite list_lookup_imap, L. cbn. do 2 f_equal. lia.
Qed.

Lemma keyed_sorted n l : StronglySorted (fun a b => a.1 < b.1) (keyed n l).
Proof.
  revert n. induction l as [|r l IH]; intros n; [constructor|].
  unfold keyed. rewrite imap_cons.
  assert (imap ((fun i x => (Z.of_nat (n + i), x)) ∘ S) l = keyed (S n) l) as ->.
  { apply imap_ext. intros i x _. cbn. do 2 f_equal. lia. }
  constructor; [apply IH|]. apply Forall_forall. intros [k x] E.
  apply keyed_elem in E as [E _]. cbn. lia.
Qed.

Lemma rows_from_table q l m : table_of l m -> rows_from q m = drop (Z.to_nat q) l.
Proof.
  intros T. rewrite <-(keyed_rows (Z.to_nat q) (drop (Z.to_nat q) l)). apply ordered_unique; [apply keyed_sorted|].
  intros k r. rewrite keyed_elem, map_lookup_filter_Some, T, lookup_drop. cbn.
  split.
  - intros [P L]. rewrite decide_True by lia.
    replace (Z.to_nat q + (Z.to_nat k - Z.to_nat q))%nat with (Z.to_nat k) in L by lia. split; [done|lia].
  - intros [L P]. case_decide; [|done].
    split; [lia|]. by replace (Z.to_nat q + (Z.to_nat k - Z.to_nat q))%nat with (Z.to_nat k) by lia.
Qed.

Lemma ordered_table l m : table_of l m -> ordered m = l.
Proof.
  intros T. etrans; [|exact (rows_from_table 0 l m T)]. unfold rows_from. f_equal. symmetry.
  apply map_filter_id. cbn. intros k r E. rewrite T in E. by case_decide.
Qed.
End Tables.
