(* ===== verification/Simulation.v ===== *)
(** * Simulation: relating two runs of the same code

    Two copies of a component over different adapters run the same program on
    different states.  [sim] relates a call on each: the outcomes match, values
    by a relation of their own and errors and panics exactly, and the states
    are related again.  There is one rule per construct of the monad, so that a
    simulation of an operation follows its text. *)
From S2P Require Import Prelude.

(** Outcomes that match. *)
Definition osim {A1 A2} (V : A1 -> A2 -> Prop) (o1 : outcome A1) (o2 : outcome A2) : Prop :=
  match o1, o2 with
  | Ok a1, Ok a2 => V a1 a2
  | Err e1, Err e2 => e1 = e2
  | Panic w1, Panic w2 => w1 = w2
  | Block, Block => True
  | _, _ => False
  end.

Lemma osim_eq {A} (o1 o2 : outcome A) : osim eq o1 o2 <-> o1 = o2.
Proof. destruct o1, o2; cbn; naive_solver. Qed.

Lemma osim_mono {A1 A2} (V W : A1 -> A2 -> Prop) o1 o2 :
  (forall a1 a2, V a1 a2 -> W a1 a2) -> osim V o1 o2 -> osim W o1 o2.
Proof. destruct o1, o2; cbn; auto. Qed.

(** What [try] gives for related calls. *)
Definition tried {A1 A2} (V : A1 -> A2 -> Prop) (r1 : A1 + error) (r2 : A2 + error) : Prop :=
  match r1, r2 with
  | inl a1, inl a2 => V a1 a2
  | inr e1, inr e2 => e1 = e2
  | _, _ => False
  end.

Section Simulation.
Context {S1 S2 : Type} (R : S1 -> S2 -> Prop).

Definition sim {A1 A2} (V : A1 -> A2 -> Prop) (m1 : M S1 A1) (m2 : M S2 A2) (s1 : S1) (s2 : S2) : Prop :=
  osim V (m1 s1).1 (m2 s2).1 /\ R (m1 s1).2 (m2 s2).2.

Section Rules.
Context {A1 A2 : Type} (V : A1 -> A2 -> Prop).

Lemma sim_runs (m1 : M S1 A1) (m2 : M S2 A2) s1 s2 o1 o2 s1' s2' : m1 s1 = (o1, s1') -> m2 s2 = (o2, s2') ->
  osim V o1 o2 -> R s1' s2' -> sim V m1 m2 s1 s2.
Proof. intros E1 E2 O Rs. unfold sim. by rewrite E1, E2. Qed.

Lemma sim_ret a1 a2 s1 s2 : V a1 a2 -> R s1 s2 -> sim V (mret a1) (mret a2) s1 s2.
Proof. by split. Qed.

Lemma sim_throw e s1 s2 : R s1 s2 -> sim V (throw e) (throw e) s1 s2.
Proof. by split. Qed.

Lemma sim_block s1 s2 : R s1 s2 -> sim V block block s1 s2.
Proof. by split. Qed.

Lemma sim_lift o1 o2 s1 s2 : osim V o1 o2 -> R s1 s2 -> sim V (lift o1) (lift o2) s1 s2.
Proof. by split. Qed.

Lemma sim_mono (W : A1 -> A2 -> Prop) (m1 : M S1 A1) (m2 : M S2 A2) s1 s2 :
  (forall a1 a2, W a1 a2 -> V a1 a2) -> sim W m1 m2 s1 s2 -> sim V m1 m2 s1 s2.
Proof. intros I [O Rs]. split; [by eapply osim_mono|done]. Qed.

(** The continuations may use what the first calls returned. *)
Lemma sim_bind {B1 B2} (W : B1 -> B2 -> Prop) (m1 : M S1 A1) (m2 : M S2 A2) (k1 : A1 -> M S1 B1) (k2 : A2 -> M S2 B2) s1 s2 :
  sim V m1 m2 s1 s2 ->
  (forall a1 a2 s1' s2', m1 s1 = (Ok a1, s1') -> m2 s2 = (Ok a2, s2') -> V a1 a2 -> R s1' s2' ->
    sim W (k1 a1) (k2 a2) s1' s2') ->
  sim W (m1 ≫= k1) (m2 ≫= k2) s1 s2.
Proof.
  intros [O Rs] K. unfold sim, mbind, M_bind. destruct (m1 s1) as [[]], (m2 s2) as [[]]; cbn in *; try done.
  by apply K.
Qed.

Lemma sim_ext (m1 m1' : M S1 A1) (m2 m2' : M S2 A2) s1 s2 :
  m1 s1 = m1' s1 -> m2 s2 = m2' s2 -> sim V m1' m2' s1 s2 -> sim V m1 m2 s1 s2.
Proof. unfold sim. by intros -> ->. Qed.

(** Calls whose results are known. *)
Lemma sim_step {B1 B2} (W : B1 -> B2 -> Prop) (m1 : M S1 A1) (m2 : M S2 A2) (k1 : A1 -> M S1 B1)
    (k2 : A2 -> M S2 B2) s1 s2 a1 a2 s1' s2' :
  m1 s1 = (Ok a1, s1') -> m2 s2 = (Ok a2, s2') -> sim W (k1 a1) (k2 a2) s1' s2' ->
  sim W (m1 ≫= k1) (m2 ≫= k2) s1 s2.
Proof. intros E1 E2 K. unfold sim. by rewrite (bind_ok _ _ _ _ _ E1), (bind_ok _ _ _ _ _ E2). Qed.

Lemma sim_bind_block {B1 B2} (W : B1 -> B2 -> Prop) (m1 : M S1 A1) (m2 : M S2 A2) (k1 : A1 -> M S1 B1)
    (k2 : A2 -> M S2 B2) s1 s2 s1' s2' :
  m1 s1 = (Block, s1') -> m2 s2 = (Block, s2') -> R s1' s2' -> sim W (m1 ≫= k1) (m2 ≫= k2) s1 s2.
Proof. intros E1 E2 Rs. unfold sim, mbind, M_bind. by rewrite E1, E2. Qed.

Lemma sim_try (m1 : M S1 A1) (m2 : M S2 A2) s1 s2 : sim V m1 m2 s1 s2 -> sim (tried V) (try m1) (try m2) s1 s2.
Proof. intros [O Rs]. unfold sim, try. by destruct (m1 s1) as [[]], (m2 s2) as [[]]. Qed.

Lemma sim_wrapping p (m1 : M S1 A1) (m2 : M S2 A2) s1 s2 : sim V m1 m2 s1 s2 -> sim V (wrapping p m1) (wrapping p m2) s1 s2.
Proof.
  intros [O Rs]. unfold sim, wrapping. destruct (m1 s1) as [[]], (m2 s2) as [[]]; cbn in *; try done. by subst.
Qed.

Lemma sim_deferring (d1 : S1 -> S1) (d2 : S2 -> S2) (m1 : M S1 A1) (m2 : M S2 A2) s1 s2 :
  (forall t1 t2, R t1 t2 -> R (d1 t1) (d2 t2)) -> sim V m1 m2 s1 s2 ->
  sim V (deferring d1 m1) (deferring d2 m2) s1 s2.
Proof.
  intros D [O Rs]. unfold sim, deferring. destruct (m1 s1) as [[]], (m2 s2) as [[]]; cbn in *; try done; auto.
Qed.
End Rules.
End Simulation.

(** Calls on related parts of related states. *)
Lemma sim_zoom {S1 S2 T1 T2 A1 A2} (R : S1 -> S2 -> Prop) (Q : T1 -> T2 -> Prop) (V : A1 -> A2 -> Prop)
    get1 put1 get2 put2 (m1 : M T1 A1) (m2 : M T2 A2) s1 s2 :
  (forall t1 t2, Q t1 t2 -> R (put1 t1 s1) (put2 t2 s2)) -> sim Q V m1 m2 (get1 s1) (get2 s2) ->
  sim R V (zoom get1 put1 m1) (zoom get2 put2 m2) s1 s2.
Proof.
  intros P [O Rs]. unfold sim, zoom. destruct (m1 (get1 s1)), (m2 (get2 s2)); cbn in *. auto.
Qed.

(** The same call on the same part. *)
Lemma sim_zoom_same {S1 S2 T A} (R : S1 -> S2 -> Prop)
    get1 put1 get2 put2 (m : M T A) (s1 : S1) (s2 : S2) :
  (forall t, R (put1 t s1) (put2 t s2)) -> get1 s1 = get2 s2 ->
  sim R eq (zoom get1 put1 m) (zoom get2 put2 m) s1 s2.
Proof.
  intros P E. apply (sim_zoom _ eq); [by intros ? ? ->|]. rewrite E. split; [by apply osim_eq|done].
Qed.
