(* ===== verification/Codec.v ===== *)
(** * Codec: byte and text encodings of the Go standard library

    [encoding/hex], [encoding/base64] and the decimal formats of [strconv]
    and [time], as the models package uses them, each with its decoder and
    the round trip that makes it injective. *)
From S2P Require Import Prelude.

(** ** Go strings are byte sequences *)

Definition bytes (s : string) : list byte := list_byte_of_string s.
Definition text (l : list byte) : string := string_of_list_byte l.

Lemma text_bytes s : text (bytes s) = s.
Proof. apply string_of_list_byte_of_string. Qed.
Lemma bytes_text l : bytes (text l) = l.
Proof. apply list_byte_of_string_of_list_byte. Qed.

#[global] Instance bytes_inj : Inj (=) (=) bytes.
Proof. intros a b E. rewrite <-(text_bytes a), <-(text_bytes b). by f_equal. Qed.
#[global] Instance text_inj : Inj (=) (=) text.
Proof. intros a b E. rewrite <-(bytes_text a), <-(bytes_text b). by f_equal. Qed.

Lemma bytes_app a b : bytes (a ++ b)%string = bytes a ++ bytes b.
Proof.
  unfold bytes, list_byte_of_string. rewrite <-map_app. f_equal.
  induction a as [|c a IH]; [done|]. cbn. by rewrite <-IH.
Qed.

(** Two concatenations split at the same place. *)
Lemma app_split_l {A} (a b c d : list A) :
  length a = length b -> a ++ c = b ++ d -> a = b /\ c = d.
Proof. intros L E. by apply app_inj_1. Qed.
Lemma app_split_r {A} (a b c d : list A) :
  length c = length d -> a ++ c = b ++ d -> a = b /\ c = d.
Proof. intros L E. by apply app_inj_2. Qed.

(** Splitting at the first [x] when the parts before it avoid [x]. *)
Lemma app_split_at {A} (x : A) a b c d :
  x ∉ a -> x ∉ b -> a ++ x :: c = b ++ x :: d -> a = b /\ c = d.
Proof.
  revert b. induction a as [|y a IH]; intros [|z b] Ha Hb E; cbn in *; simplify_eq.
  - done.
  - destruct Hb. by left.
  - destruct Ha. by left.
  - rewrite not_elem_of_cons in Ha, Hb. destruct (IH b) as [-> ->]; tauto.
Qed.

(** ** Hexadecimal: [hex.EncodeToString] *)
Module Hex.
Definition hextable (n : Z) : byte := Zbyte (if n <? 10 then 48 + n else 87 + n).

Definition encode_byte (b : byte) : list byte :=
  [hextable (byteZ b / 16); hextable (byteZ b mod 16)].

Definition encode (l : list byte) : list byte := l ≫= encode_byte.

Definition EncodeToString (l : list byte) : string := text (encode l).

Definition unhex (c : byte) : Z := let v := byteZ c in if v <? 58 then v - 48 else v - 87.

Fixpoint decode (l : list byte) : list byte :=
  match l with
  | h :: o :: r => Zbyte (unhex h * 16 + unhex o) :: decode r
  | _ => []
  end.

Lemma hex_roundtrip l : decode (encode l) = l.
Proof.
  induction l as [|b l IH]; [done|]. change (encode (b :: l)) with (encode_byte b ++ encode l).
  cbn [encode_byte app decode]. rewrite IH. f_equal. by destruct b.
Qed.

Lemma encode_length l : length (encode l) = (2 * length l)%nat.
Proof. induction l as [|b l IH]; [done|]. change (encode (b :: l)) with (encode_byte b ++ encode l).
  rewrite length_app, IH. cbn. lia. Qed.

#[global] Instance encode_inj : Inj (=) (=) encode.
Proof. intros a b E. by rewrite <-(hex_roundtrip a), <-(hex_roundtrip b), E. Qed.
#[global] Instance EncodeToString_inj : Inj (=) (=) EncodeToString.
Proof. intros a b E. by apply text_inj, encode_inj in E. Qed.
End Hex.

(** ** Decimal numbers *)
Module Dec.
Definition digit (d : Z) : byte := Zbyte (48 + d).
Definition undigit (b : byte) : Z := byteZ b - 48.
Definition is_digit (b : byte) : Prop := 48 <= byteZ b <= 57.

Lemma byteZ_digit d : 0 <= d < 10 -> byteZ (digit d) = 48 + d.
Proof. intros. unfold digit. rewrite byteZ_Zbyte, Z.mod_small; lia. Qed.
Lemma undigit_digit d : 0 <= d < 10 -> undigit (digit d) = d.
Proof. intros. unfold undigit. rewrite byteZ_digit; lia. Qed.
Lemma digit_is_digit d : 0 <= d < 10 -> is_digit (digit d).
Proof. intros. unfold is_digit. rewrite byteZ_digit; lia. Qed.

(** Shortest decimal form of a non-negative number; [Z.log2] divisions by
    ten reach a single digit. *)
Fixpoint shortest (fuel : nat) (v : Z) : list byte :=
  match fuel with
  | O => [digit (v mod 10)]
  | S f => if v <? 10 then [digit (v mod 10)]
           else shortest f (v / 10) ++ [digit (v mod 10)]
  end.
Definition decimal (v : Z) : list byte := shortest (Z.to_nat (Z.log2 v)) v.

(** [strconv.Itoa] *)
Definition Itoa (v : Z) : string :=
  text (if v <? 0 then x2d :: decimal (- v) else decimal v).

(** Fixed width with leading zeros ([time]'s [appendInt]). *)
Fixpoint padded (w : nat) (v : Z) : list byte :=
  match w with
  | O => []
  | S w' => padded w' (v / 10) ++ [digit (v mod 10)]
  end.

Definition value (l : list byte) : Z := foldl (fun a b => a * 10 + undigit b) 0 l.

Lemma value_snoc l b : value (l ++ [b]) = value l * 10 + undigit b.
Proof. unfold value. by rewrite foldl_app. Qed.

Lemma mod10 v : 0 <= v mod 10 < 10.
Proof. apply Z.mod_pos_bound. lia. Qed.

Lemma value_shortest f v : 0 <= v < 2 ^ (Z.of_nat f + 1) -> value (shortest f v) = v.
Proof.
  revert v. induction f as [|f IH]; intros v Hv; cbn [shortest].
  - unfold value. cbn [foldl]. rewrite undigit_digit by apply mod10.
    rewrite Z.mod_small; cbn in Hv; lia.
  - destruct (Z.ltb_spec v 10) as [L|L].
    + unfold value; cbn [foldl]. rewrite undigit_digit by apply mod10.
      rewrite Z.mod_small; lia.
    + rewrite value_snoc, undigit_digit by apply mod10. rewrite IH.
      * pose proof (Z.div_mod v 10). lia.
      * replace (Z.of_nat (S f) + 1) with (Z.succ (Z.of_nat f + 1)) in Hv by lia.
        rewrite Z.pow_succ_r in Hv by lia.
        split; [apply Z.div_pos; lia|apply Z.div_lt_upper_bound; lia].
Qed.

Lemma value_decimal v : 0 <= v -> value (decimal v) = v.
Proof.
  intros H. unfold decimal. apply value_shortest. rewrite Z2Nat.id by apply Z.log2_nonneg.
  destruct (decide (v = 0)) as [->|]; [done|]. pose proof (Z.log2_spec v). lia.
Qed.

Lemma shortest_fuel f g v : 0 <= v < 2 ^ (Z.of_nat f + 1) -> v < 2 ^ (Z.of_nat g + 1) ->
  shortest f v = shortest g v.
Proof.
  assert (forall n k, k < 2 ^ (Z.of_nat (S n) + 1) -> k / 10 < 2 ^ (Z.of_nat n + 1)) as D.
  { intros n k. replace (Z.of_nat (S n) + 1) with (Z.succ (Z.of_nat n + 1)) by lia.
    rewrite Z.pow_succ_r by lia. intros. apply Z.div_lt_upper_bound; lia. }
  revert g v. induction f as [|f IH]; intros [|g] v Hf Hg; cbn [shortest]; [done|..];
    destruct (Z.ltb_spec v 10); try done.
  - cbn in Hf. lia.
  - cbn in Hg. lia.
  - f_equal. apply IH; [split; [apply Z.div_pos; lia|]|]; apply D; lia.
Qed.

Lemma decimal_step v : 10 <= v -> decimal v = decimal (v / 10) ++ [digit (v mod 10)].
Proof.
  intros H. pose proof (Z.log2_spec v) as L. pose proof (Z.log2_nonneg v).
  assert (0 < v / 10) by (apply Z.div_str_pos; lia).
  pose proof (Z.log2_spec (v / 10)) as L'. pose proof (Z.log2_nonneg (v / 10)).
  unfold decimal at 1. rewrite (shortest_fuel _ (S (Z.to_nat (Z.log2 v)))).
  - cbn [shortest]. rewrite (proj2 (Z.ltb_ge v 10)) by lia. f_equal.
    apply shortest_fuel; rewrite Z2Nat.id by done; [|lia].
    split; [lia|]. apply Z.div_lt_upper_bound; lia.
  - rewrite Z2Nat.id by done. lia.
  - rewrite Nat2Z.inj_succ, Z2Nat.id by done. eapply Z.lt_le_trans; [apply L; lia|].
    apply Z.pow_le_mono_r; lia.
Qed.

Lemma decimal_small v : 0 <= v < 10 -> decimal v = [digit v].
Proof.
  intros H. unfold decimal. destruct (Z.to_nat (Z.log2 v)); cbn [shortest];
    rewrite ?(proj2 (Z.ltb_lt v 10)), Z.mod_small by lia; done.
Qed.

Lemma value_padded w v : value (padded w v) = v mod 10 ^ Z.of_nat w.
Proof.
  revert v. induction w as [|w IH]; intros v; cbn [padded].
  - by rewrite Z.mod_1_r.
  - rewrite value_snoc, IH, undigit_digit by apply mod10.
    rewrite Nat2Z.inj_succ, Z.pow_succ_r by lia. pose proof (Z.pow_pos_nonneg 10 (Z.of_nat w)).
    rewrite Z.rem_mul_r by lia. lia.
Qed.

Lemma padded_length w v : length (padded w v) = w.
Proof. revert v. induction w; intros; cbn; [done|]. rewrite length_app, IHw. cbn. lia. Qed.

Lemma padded_digits w v : Forall is_digit (padded w v).
Proof.
  revert v. induction w; intros; cbn; [done|].
  rewrite Forall_app, Forall_singleton. eauto using digit_is_digit, mod10.
Qed.
Lemma shortest_digits f v : Forall is_digit (shortest f v).
Proof.
  revert v. induction f; intros v; cbn; [|case_match];
    rewrite ?Forall_app, ?Forall_singleton; eauto using digit_is_digit, mod10.
Qed.
Lemma decimal_digits v : Forall is_digit (decimal v).
Proof. apply shortest_digits. Qed.

Lemma decimal_length n v : (0 < n)%nat -> 0 <= v < 10 ^ Z.of_nat n -> (length (decimal v) <= n)%nat.
Proof.
  revert v. induction n as [|n IH]; intros v N V; [lia|].
  destruct (decide (v < 10)); [by rewrite decimal_small by lia; cbn; lia|].
  rewrite Nat2Z.inj_succ, Z.pow_succ_r in V by lia.
  destruct n as [|n]; [cbn in V; lia|].
  rewrite decimal_step, length_app by lia. cbn [length].
  enough (length (decimal (v / 10)) <= S n)%nat by lia.
  apply IH; [lia|]. split; [apply Z.div_pos; lia|apply Z.div_lt_upper_bound; lia].
Qed.

Lemma decimal_nonempty v : decimal v <> [].
Proof.
  unfold decimal. destruct (Z.to_nat _); cbn; [done|]. case_match; [done|].
  intros E. by apply app_eq_nil in E as [_ ?].
Qed.

Lemma decimal_inj v w : 0 <= v -> 0 <= w -> decimal v = decimal w -> v = w.
Proof. intros Hv Hw E. by rewrite <-(value_decimal v), <-(value_decimal w), E. Qed.

Lemma digits_avoid b l : Forall is_digit l -> ~ is_digit b -> b ∉ l.
Proof. rewrite Forall_forall. naive_solver. Qed.

Lemma not_digit b : (byteZ b <? 48) || (57 <? byteZ b) = true -> ~ is_digit b.
Proof. unfold is_digit. lia. Qed.

#[global] Instance Itoa_inj : Inj (=) (=) Itoa.
Proof.
  assert (forall l w, x2d :: l <> decimal w) as NE.
  { intros l w E. assert (x2d ∉ decimal w) as []; [|rewrite <-E; by left].
    by apply digits_avoid, not_digit; [apply decimal_digits|]. }
  intros v w E. apply text_inj in E.
  destruct (Z.ltb_spec v 0), (Z.ltb_spec w 0); simplify_eq.
  - apply decimal_inj in E; lia.
  - by apply NE in E.
  - symmetry in E. by apply NE in E.
  - apply decimal_inj in E; lia.
Qed.
End Dec.

(** ** Base64: [base64.StdEncoding.EncodeToString] *)
Module Base64.
Definition alphabet (n : Z) : byte :=
  Zbyte (if n <? 26 then 65 + n else if n <? 52 then 71 + n
         else if n <? 62 then n - 4 else if n =? 62 then 43 else 47).

Definition pad : byte := x3d.

Fixpoint encode (l : list byte) : list byte :=
  match l with
  | [] => []
  | [a] =>
      let v := byteZ a * 65536 in
      [alphabet (v / 262144); alphabet (v / 4096 mod 64); pad; pad]
  | [a; b] =>
      let v := byteZ a * 65536 + byteZ b * 256 in
      [alphabet (v / 262144); alphabet (v / 4096 mod 64); alphabet (v / 64 mod 64); pad]
  | a :: b :: c :: r =>
      let v := byteZ a * 65536 + byteZ b * 256 + byteZ c in
      alphabet (v / 262144) :: alphabet (v / 4096 mod 64) ::
      alphabet (v / 64 mod 64) :: alphabet (v mod 64) :: encode r
  end.

Definition EncodeToString (l : list byte) : string := text (encode l).

Definition unalphabet (b : byte) : Z :=
  let v := byteZ b in
  if v =? 43 then 62 else if v =? 47 then 63 else if v <? 58 then v + 4
  else if v <? 91 then v - 65 else v - 71.

Fixpoint decode (l : list byte) : list byte :=
  match l with
  | p :: q :: r :: s :: t =>
      let v := unalphabet p * 262144 + unalphabet q * 4096 in
      if bool_decide (r = pad) then [Zbyte (v / 65536)]
      else let v := v + unalphabet r * 64 in
        if bool_decide (s = pad) then [Zbyte (v / 65536); Zbyte (v / 256)]
        else let v := v + unalphabet s in
          Zbyte (v / 65536) :: Zbyte (v / 256) :: Zbyte v :: decode t
  | _ => []
  end.

Lemma sextet_ok n : 0 <= n < 64 -> unalphabet (alphabet n) = n /\ alphabet n <> pad.
Proof.
  intros H. assert (forallb (fun k => bool_decide
    (unalphabet (alphabet (Z.of_nat k)) = Z.of_nat k /\ alphabet (Z.of_nat k) <> pad)) (seq 0 64)
    = true) as A by done.
  rewrite List.forallb_forall in A. specialize (A (Z.to_nat n)).
  rewrite List.in_seq, bool_decide_eq_true, Z2Nat.id in A by lia. apply A. lia.
Qed.
Lemma unalphabet_alphabet n : 0 <= n < 64 -> unalphabet (alphabet n) = n.
Proof. apply sextet_ok. Qed.
Lemma alphabet_pad n : 0 <= n < 64 -> bool_decide (alphabet n = pad) = false.
Proof. intros. by apply bool_decide_eq_false, sextet_ok. Qed.

Lemma Zbyte_eq z b : z mod 256 = byteZ b -> Zbyte z = b.
Proof. intros E. apply byteZ_inj. by rewrite byteZ_Zbyte. Qed.

Ltac sextets :=
  repeat match goal with b : byte |- _ =>
    lazymatch goal with H : 0 <= byteZ b < 256 |- _ => fail | _ => idtac end;
    pose proof (byteZ_range b) end;
  rewrite ?unalphabet_alphabet, ?alphabet_pad by (Z.div_mod_to_equations; lia);
  rewrite ?bool_decide_eq_true_2 by done.

Lemma base64_roundtrip l : decode (encode l) = l.
Proof.
  assert (forall n k, length k = n -> decode (encode k) = k) as A; [|by eapply A].
  intros n. induction (lt_wf n) as [n _ IH]. intros k Hk.
  destruct k as [|a [|b [|c r]]]; cbn [encode decode]; [done|..]; sextets;
    repeat first [apply (f_equal2 cons) | apply Zbyte_eq; Z.div_mod_to_equations; lia | done].
  eapply IH; [|done]. subst n; cbn; lia.
Qed.

#[global] Instance encode_inj : Inj (=) (=) encode.
Proof. intros a b E. by rewrite <-(base64_roundtrip a), <-(base64_roundtrip b), E. Qed.
#[global] Instance EncodeToString_inj : Inj (=) (=) EncodeToString.
Proof. intros a b E. by apply text_inj, encode_inj in E. Qed.
End Base64.
