(* ===== verification/JsonText.v ===== *)
(** * JsonText: UTF-8 and the JSON text of a [map[string]string]

    What [json.Marshal] of Go 1.24 writes for a string and for a
    [map[string]string] (keys sorted, HTML characters escaped, invalid UTF-8
    replaced), and the proof that the text determines the map whenever its
    values are valid UTF-8. *)
From stdpp Require Import sorting.
From S2P Require Import Prelude Codec.

Module Utf8.
Definition within (lo hi : Z) (b : byte) : bool := (lo <=? byteZ b) && (byteZ b <=? hi).
Definition cont : byte -> bool := within 128 191.

(** [utf8.DecodeRune] at the head of [l]: the number of bytes of a valid
    encoding, or [None] for [RuneError] (one byte is then skipped). *)
Definition rune_size (l : list byte) : option nat :=
  match l with
  | [] => None
  | b0 :: r =>
      let c := byteZ b0 in
      if c <? 128 then Some 1%nat
      else if c <? 194 then None
      else if c <? 224 then
        match r with b1 :: _ => if cont b1 then Some 2%nat else None | _ => None end
      else if c <? 240 then
        match r with
        | b1 :: b2 :: _ =>
            if within (if c =? 224 then 160 else 128) (if c =? 237 then 159 else 191) b1
               && cont b2 then Some 3%nat else None
        | _ => None end
      else if c <? 245 then
        match r with
        | b1 :: b2 :: b3 :: _ =>
            if within (if c =? 240 then 144 else 128) (if c =? 244 then 143 else 191) b1
               && cont b2 && cont b3 then Some 4%nat else None
        | _ => None end
      else None
  end.

(** [utf8.Valid] *)
Fixpoint valid_upto (fuel : nat) (l : list byte) : bool :=
  match fuel, l with
  | _, [] => true
  | O, _ => false
  | S f, _ => match rune_size l with
              | Some n => valid_upto f (drop n l)
              | None => false
              end
  end.
Definition Valid (l : list byte) : bool := valid_upto (length l) l.
Definition ValidString (s : string) : bool := Valid (bytes s).

(** A list that is exactly one valid rune. *)
Definition is_rune (r : list byte) : Prop := rune_size r = Some (length r).

Ltac rune_cases l :=
  unfold rune_size; destruct l as [|? [|? [|? [|? ?]]]]; cbn [length app]; repeat case_match.

Lemma rune_size_app r t : is_rune r -> rune_size (r ++ t) = Some (length r).
Proof.
  unfold is_rune. rune_cases r; intros; simplify_eq; cbn [app] in *; simplify_eq; try done.
  all: repeat case_match; simplify_eq; try done; by f_equal; lia.
Qed.

Lemma rune_size_split l n : rune_size l = Some n ->
  is_rune (take n l) /\ l = take n l ++ drop n l /\ (0 < n)%nat.
Proof.
  intros E. split; [|split; [by rewrite take_drop|]].
  - unfold rune_size in E. destruct l as [|? [|? [|? [|? ?]]]]; cbn [length] in E;
      repeat case_match; simplify_eq; cbn [take]; unfold is_rune, rune_size;
      repeat (case_match; try congruence); done.
  - revert E. rune_cases l; intros; simplify_eq; lia.
Qed.

Lemma is_rune_cons r : is_rune r -> exists b t, r = b :: t.
Proof. destruct r; [done|eauto]. Qed.

(** A valid byte sequence is a concatenation of runes. *)
Lemma Valid_runes l : Valid l = true -> exists rs, l = concat rs /\ Forall is_rune rs.
Proof.
  unfold Valid. generalize (length l) as f. intros f. revert l.
  induction f as [|f IH]; intros [|b l] V; cbn [valid_upto] in V; try done;
    try by (exists []; split; [done|constructor]).
  destruct (rune_size (b :: l)) as [n|] eqn:E; [|done].
  apply rune_size_split in E as (R & D & _). destruct (IH _ V) as (rs & C & F).
  exists (take n (b :: l) :: rs). split; [|by constructor]. cbn [concat]. by rewrite <-C.
Qed.

Lemma ascii_valid l : Forall (fun b => byteZ b < 128) l -> Valid l = true.
Proof.
  unfold Valid. induction 1 as [|b l H _ IH]; [done|]. cbn [length valid_upto].
  unfold rune_size. by rewrite (proj2 (Z.ltb_lt _ _) H).
Qed.
End Utf8.

Module Json.
Definition hex4 (b : byte) : list byte :=   (* \u00XY *)
  [x5c; x75; x30; x30; Hex.hextable (byteZ b / 16); Hex.hextable (byteZ b mod 16)].

(** Bytes below 128: [htmlSafeSet] members stay, the others are escaped. *)
Definition escape_ascii (b : byte) : list byte :=
  match b with
  | x5c => [x5c; x5c] | x22 => [x5c; x22]
  | x08 => [x5c; x62] | x0c => [x5c; x66] | x0a => [x5c; x6e]
  | x0d => [x5c; x72] | x09 => [x5c; x74]
  | x3c | x3e | x26 => hex4 b
  | _ => if byteZ b <? 32 then hex4 b else [b]
  end.

(** U+2028 and U+2029 are escaped, other multi-byte runes are copied. *)
Definition escape_wide (r : list byte) : list byte :=
  if bool_decide (r = [xe2; x80; xa8]) then [x5c; x75; x32; x30; x32; x38]
  else if bool_decide (r = [xe2; x80; xa9]) then [x5c; x75; x32; x30; x32; x39]
  else r.

Definition escape_rune (r : list byte) : list byte :=
  match r with
  | [b] => escape_ascii b
  | _ => escape_wide r
  end.

(** The replacement written for an invalid byte: [\ufffd]. *)
Definition replacement : list byte := [x5c; x75; x66; x66; x66; x64].

(** The loop of [appendString]: one rune, or one invalid byte, a turn. *)
Fixpoint escape_upto (fuel : nat) (l : list byte) : list byte :=
  match fuel, l with
  | S f, _ :: t =>
      match Utf8.rune_size l with
      | Some n => escape_rune (take n l) ++ escape_upto f (drop n l)
      | None => replacement ++ escape_upto f t
      end
  | _, _ => []
  end.
Definition escape (l : list byte) : list byte := escape_upto (length l) l.

Definition quote (s : string) : list byte := x22 :: escape (bytes s) ++ [x22].

(** [json.Marshal] of a [map[string]string] whose entries the map iteration
    yields in the order of [m]: keys are sorted before they are written. *)
Definition key_le (p q : string * string) : Prop := String.leb p.1 q.1 = true.
#[global] Instance key_le_dec p q : Decision (key_le p q).
Proof. unfold key_le. apply _. Defined.

Definition member (p : string * string) : list byte := quote p.1 ++ x3a :: quote p.2.

Fixpoint members (l : list (string * string)) : list byte :=
  match l with
  | [] => []
  | [p] => member p
  | p :: r => member p ++ x2c :: members r
  end.

Definition Marshal (m : list (string * string)) : list byte :=
  x7b :: members (merge_sort key_le m) ++ [x7d].

(** *** Reading an escaped string back, one rune at a time *)
Definition simple_unescape (b : byte) : byte :=
  match b with
  | x62 => x08 | x66 => x0c | x6e => x0a | x72 => x0d | x74 => x09 | _ => b
  end.
Definition encode_rune (v : Z) : list byte :=
  if v <? 128 then [Zbyte v]
  else [Zbyte (224 + v / 4096); Zbyte (128 + v / 64 mod 64); Zbyte (128 + v mod 64)].

Definition unescape1 (l : list byte) : option (list byte * list byte) :=
  match l with
  | x22 :: _ => None
  | x5c :: x75 :: a :: b :: c :: d :: t =>
      Some (encode_rune (((Hex.unhex a * 16 + Hex.unhex b) * 16 + Hex.unhex c) * 16
                         + Hex.unhex d), t)
  | x5c :: k :: t => Some ([simple_unescape k], t)
  | _ => match Utf8.rune_size l with Some n => Some (take n l, drop n l) | None => None end
  end.

Lemma is_rune_one b : Utf8.is_rune [b] -> byteZ b < 128.
Proof. unfold Utf8.is_rune, Utf8.rune_size. repeat case_match; intros; simplify_eq; lia. Qed.

Lemma is_rune_wide b c r : Utf8.is_rune (b :: c :: r) -> 194 <= byteZ b.
Proof. unfold Utf8.is_rune, Utf8.rune_size. repeat case_match; intros; simplify_eq; cbn in *; lia. Qed.

Lemma unescape1_raw b l : 194 <= byteZ b ->
  unescape1 (b :: l) =
    match Utf8.rune_size (b :: l) with Some n => Some (take n (b :: l), drop n (b :: l)) | None => None end.
Proof. intros H. destruct b; try done; exfalso; revert H; cbn; lia. Qed.

Lemma unescape1_escape r t : Utf8.is_rune r ->
  unescape1 (escape_rune r ++ t) = Some (r, t).
Proof.
  intros R. destruct r as [|b [|c r]]; [done|..].
  - apply is_rune_one in R. cbn [escape_rune].
    destruct b; try reflexivity; exfalso; revert R; cbn; lia.
  - pose proof (is_rune_wide _ _ _ R) as W. cbn [escape_rune]. unfold escape_wide.
    case_bool_decide as E1; [by rewrite E1|]. case_bool_decide as E2; [by rewrite E2|].
    pose proof (Utf8.rune_size_app _ t R) as RS. cbn [app] in *.
    rewrite unescape1_raw, RS by done. cbn [length take drop app].
    by rewrite take_app_length, drop_app_length.
Qed.

(** The escaped text of valid input is the escape of its runes. *)
Lemma escape_runes rs : Forall Utf8.is_rune rs ->
  escape (concat rs) = concat (map escape_rune rs).
Proof.
  intros F. unfold escape.
  assert (forall f, (length (concat rs) <= f)%nat ->
    escape_upto f (concat rs) = concat (map escape_rune rs)) as A; [|by apply A].
  induction F as [|r rs R F IH]; intros f L; [by destruct f|].
  cbn [concat map] in *. rewrite length_app in L.
  destruct (Utf8.is_rune_cons _ R) as (b & r' & ->). cbn [length] in L.
  destruct f as [|f]; [lia|]. cbn [app]. cbn [escape_upto].
  change (b :: r' ++ concat rs) with ((b :: r') ++ concat rs).
  rewrite Utf8.rune_size_app by done.
  rewrite take_app_length, drop_app_length, IH by lia. done.
Qed.

Lemma runes_split rs1 rs2 x y :
  Forall Utf8.is_rune rs1 -> Forall Utf8.is_rune rs2 ->
  concat (map escape_rune rs1) ++ x22 :: x = concat (map escape_rune rs2) ++ x22 :: y ->
  rs1 = rs2 /\ x = y.
Proof.
  intros F1. revert rs2. induction F1 as [|r1 rs1 R1 F1 IH]; intros rs2 F2 E;
    destruct F2 as [|r2 rs2 R2 F2]; cbn [map concat] in E; rewrite <-?(assoc_L (++)) in E.
  - cbn in E. by simplify_eq.
  - apply (f_equal unescape1) in E. by rewrite unescape1_escape in E.
  - apply (f_equal unescape1) in E. by rewrite unescape1_escape in E.
  - pose proof (f_equal unescape1 E) as U. rewrite !unescape1_escape in U by done.
    simplify_eq. destruct (IH rs2) as [-> ->]; done.
Qed.

(** A quoted valid string can be read back off the front of any text. *)
Lemma quote_split a b x y :
  Utf8.ValidString a = true -> Utf8.ValidString b = true ->
  quote a ++ x = quote b ++ y -> a = b /\ x = y.
Proof.
  intros (rs1 & C1 & F1)%Utf8.Valid_runes (rs2 & C2 & F2)%Utf8.Valid_runes E.
  unfold quote in E. rewrite C1, C2, !escape_runes in E by done. cbn [app] in E.
  rewrite <-!(assoc_L (++)) in E. apply (inj (cons x22)) in E.
  apply runes_split in E as [-> ->]; [|done..]. split; [|done].
  apply bytes_inj. congruence.
Qed.

(** Entries whose key and value are valid UTF-8. *)
Definition valid_entry (p : string * string) : Prop :=
  Utf8.ValidString p.1 = true /\ Utf8.ValidString p.2 = true.

Lemma member_split p q x y :
  valid_entry p -> valid_entry q -> member p ++ x = member q ++ y -> p = q /\ x = y.
Proof.
  intros [? ?] [? ?] E. unfold member in E. rewrite <-!(assoc_L (++)) in E. cbn [app] in E.
  apply quote_split in E as [E1 E]; [|done..]. apply (inj (cons x3a)) in E.
  apply quote_split in E as [E2 ->]; [|done..]. destruct p, q; by simplify_eq/=.
Qed.

Lemma members_cons p q l : members (p :: q :: l) = member p ++ x2c :: members (q :: l).
Proof. done. Qed.

Lemma members_split l1 l2 x y :
  Forall valid_entry l1 -> Forall valid_entry l2 ->
  l1.*1 = l2.*1 -> members l1 ++ x = members l2 ++ y -> l1 = l2 /\ x = y.
Proof.
  intros F1. revert l2. induction F1 as [|p l1 V1 F1 IH]; intros l2 F2 K E;
    destruct F2 as [|q l2 V2 F2]; try discriminate K; [done|].
  injection K as K1 K2.
  destruct F1 as [|p' l1 V1' F1], F2 as [|q' l2 V2' F2]; try discriminate K2.
  - by apply member_split in E as [-> ->].
  - rewrite !members_cons, <-!(assoc_L (++)) in E.
    apply member_split in E as [-> E]; [|done..].
    apply (inj (cons x2c)) in E. apply IH in E as [-> ->]; [done|by constructor|done].
Qed.

(** *** Key order *)
Lemma leb_trans a b c : String.leb a b = true -> String.leb b c = true -> String.leb a c = true.
Proof.
  unfold String.leb. revert b c. induction a as [|x a IH]; intros [|y b] [|z c]; cbn; try done.
  unfold Ascii.compare.
  destruct (N.compare_spec (Ascii.N_of_ascii x) (Ascii.N_of_ascii y)) as [E1|L1|L1],
    (N.compare_spec (Ascii.N_of_ascii y) (Ascii.N_of_ascii z)) as [E2|L2|L2]; try done; intros ??.
  - rewrite E1, E2, N.compare_refl. by eapply IH.
  - rewrite E1, (proj2 (N.compare_lt_iff _ _)) by done. done.
  - rewrite <-E2, (proj2 (N.compare_lt_iff _ _)) by done. done.
  - rewrite (proj2 (N.compare_lt_iff _ _)) by lia. done.
Qed.

#[global] Instance key_le_trans : Transitive key_le.
Proof. intros p q r. apply leb_trans. Qed.
#[global] Instance key_le_total : Total key_le.
Proof. intros p q. apply String.leb_total. Qed.

(** The text does not depend on the order in which the map is iterated. *)
Lemma Marshal_perm m1 m2 : NoDup m1.*1 -> m1 ≡ₚ m2 -> Marshal m1 = Marshal m2.
Proof.
  intros N P. unfold Marshal. do 3 f_equal.
  eapply (Sorted_unique_strong key_le).
  - intros p q Hp Hq L1 L2. rewrite merge_sort_Permutation in Hp, Hq. rewrite <-P in Hq.
    pose proof (String.leb_antisym _ _ L1 L2) as K.
    apply list_elem_of_lookup in Hp as [i Hi], Hq as [j Hj].
    assert (i = j) as <-; [|congruence].
    apply (NoDup_lookup m1.*1 i j p.1 N); rewrite list_lookup_fmap.
    + by rewrite Hi.
    + by rewrite Hj, K.
  - apply Sorted_merge_sort, _.
  - apply Sorted_merge_sort, _.
  - by rewrite !merge_sort_Permutation.
Qed.
End Json.
