(* ===== verification/GoTime.v ===== *)
(** * GoTime: [time.Time] and its RFC 3339 text

    An instant counted in nanoseconds from the Unix epoch, with the offset of
    the location it is shown in; the operations the repository uses
    ([UTC], [Truncate], [Format(time.RFC3339Nano)] of a UTC value, [Add],
    [Before]) and the proof that the text determines the instant for the
    years 0000 to 9999 that RFC 3339 can express. *)
From S2P Require Import Prelude Codec.

Record Time := { t_nano : Z; t_offset : Z }.

#[global] Instance Time_eq_dec : EqDecision Time.
Proof. solve_decision. Defined.

Definition Second : Z := 1000000000.
Definition Millisecond : Z := 1000000.
Definition Minute : Z := 60 * Second.

Definition UTC (t : Time) : Time := {| t_nano := t_nano t; t_offset := 0 |}.
Definition Add (t : Time) (d : Z) : Time :=
  {| t_nano := t_nano t + d; t_offset := t_offset t |}.
Definition Before (t u : Time) : bool := t_nano t <? t_nano u.

(** The zero [Time], 1 January of year 1, is where [Truncate] counts from. *)
Definition zero_nano : Z := - 62135596800 * Second.
Definition Truncate (t : Time) (d : Z) : Time :=
  if d <=? 0 then t
  else {| t_nano := t_nano t - (t_nano t - zero_nano) mod d; t_offset := t_offset t |}.

(** Proleptic Gregorian date of a day number (day 0 is 1970-01-01): days are
    counted in 400-year eras from 1 March. *)
Definition day_of_era (z : Z) : Z := (z + 719468) mod 146097.
Definition era_of (z : Z) : Z := (z + 719468) / 146097.
Definition year_of_era (doe : Z) : Z := (doe - doe / 1460 + doe / 36524 - doe / 146096) / 365.
Definition days_before (yoe : Z) : Z := 365 * yoe + yoe / 4 - yoe / 100.
Definition shifted_month (doy : Z) : Z := (5 * doy + 2) / 153.

Definition civil (z : Z) : Z * Z * Z :=
  let doe := day_of_era z in
  let yoe := year_of_era doe in
  let doy := doe - days_before yoe in
  let mp := shifted_month doy in
  let d := doy - (153 * mp + 2) / 5 + 1 in
  let m := if mp <? 10 then mp + 3 else mp - 9 in
  (yoe + era_of z * 400 + (if m <=? 2 then 1 else 0), m, d).

Definition year_text (y : Z) : list byte :=
  let digits a := if a <? 10000 then Dec.padded 4 a else Dec.decimal a in
  if y <? 0 then x2d :: digits (- y) else digits y.

Fixpoint trim_zeros (l : list byte) : list byte :=
  match l with
  | [] => []
  | b :: r => match trim_zeros r with
              | [] => if decide (b = x30) then [] else [b]
              | r' => b :: r'
              end
  end.

(** [".999999999"]: the fraction of a second without trailing zeros. *)
Definition fraction_text (n : Z) : list byte :=
  match trim_zeros (Dec.padded 9 n) with [] => [] | d => x2e :: d end.

Definition Year (t : Time) : Z := (civil (t_nano t / Second / 86400)).1.1.

(** [t.UTC().Format(time.RFC3339Nano)] *)
Definition rfc3339nano (t : Time) : list byte :=
  let secs := t_nano t / Second in
  let '(y, m, d) := civil (secs / 86400) in
  let s := secs mod 86400 in
  year_text y ++ x2d :: Dec.padded 2 m ++ x2d :: Dec.padded 2 d ++
  x54 :: Dec.padded 2 (s / 3600) ++ x3a :: Dec.padded 2 (s / 60 mod 60) ++
  x3a :: Dec.padded 2 (s mod 60) ++ fraction_text (t_nano t mod Second) ++ [x5a].

Definition FormatRFC3339Nano (t : Time) : string := text (rfc3339nano t).

(** ** The date determines the day *)

Definition civil_inverse (y m d : Z) : Z :=
  let y' := if m <=? 2 then y - 1 else y in
  let era := y' / 400 in
  let mp := if m <=? 2 then m + 9 else m - 3 in
  era * 146097 + (days_before (y' - era * 400) + ((153 * mp + 2) / 5 + d - 1)) - 719468.

Lemma year_of_era_range doe : 0 <= doe < 146097 ->
  0 <= year_of_era doe < 400 /\ 0 <= doe - days_before (year_of_era doe) <= 365.
Proof.
  intros H. unfold days_before, year_of_era.
  Z.div_mod_to_equations. lia.
Qed.

Lemma month_range doy : 0 <= doy <= 365 ->
  0 <= shifted_month doy < 12 /\ 0 <= doy - (153 * shifted_month doy + 2) / 5 < 31.
Proof. intros. unfold shifted_month. Z.div_mod_to_equations. lia. Qed.

Lemma civil_range z y m d : civil z = (y, m, d) -> 1 <= m <= 12 /\ 1 <= d <= 31.
Proof.
  unfold civil. intros [= <- <- <-].
  assert (0 <= day_of_era z < 146097) as R by (apply Z.mod_pos_bound; lia).
  apply year_of_era_range in R as [_ R]. apply month_range in R.
  destruct (Z.ltb_spec (shifted_month (day_of_era z - days_before (year_of_era (day_of_era z)))) 10); lia.
Qed.

Lemma civil_inverse_civil z y m d : civil z = (y, m, d) -> civil_inverse y m d = z.
Proof.
  unfold civil. intros [= <- <- <-].
  assert (0 <= day_of_era z < 146097) as R by (apply Z.mod_pos_bound; lia).
  assert (era_of z * 146097 + day_of_era z = z + 719468) as E
    by (unfold era_of, day_of_era; pose proof (Z.div_mod (z + 719468) 146097); lia).
  destruct (year_of_era_range _ R) as [Y D]. apply month_range in D as [Mo Da].
  revert E Y Mo Da. generalize (era_of z) as era, (year_of_era (day_of_era z)) as yoe.
  intros era yoe. generalize (day_of_era z) as doe. intros doe.
  set (doy := doe - days_before yoe). generalize (shifted_month doy) as mp. intros mp E Y Mo Da.
  assert (forall k, (yoe + era * 400 + k - k) / 400 = era) as Q.
  { intros k. replace (yoe + era * 400 + k - k) with (yoe + era * 400) by lia.
    rewrite Z.div_add by lia. rewrite Z.div_small; lia. }
  unfold civil_inverse.
  assert (((if mp <? 10 then mp + 3 else mp - 9) <=? 2) = negb (mp <? 10)) as ->
    by (destruct (Z.ltb_spec mp 10); cbn; lia).
  destruct (Z.ltb_spec mp 10); cbn [negb].
  - specialize (Q 0). rewrite Z.add_0_r, Z.sub_0_r in Q. rewrite Z.add_0_r, Q.
    replace (yoe + era * 400 - era * 400) with yoe by lia.
    replace (mp + 3 - 3) with mp by lia. lia.
  - rewrite Q. replace (yoe + era * 400 + 1 - 1 - era * 400) with yoe by lia.
    replace (mp - 9 + 9) with mp by lia. lia.
Qed.

Lemma civil_inj z w : civil z = civil w -> z = w.
Proof.
  destruct (civil z) as [[y m] d] eqn:E, (civil w) as [[y' m'] d'] eqn:E'. intros [= -> -> ->].
  by rewrite <-(civil_inverse_civil _ _ _ _ E), <-(civil_inverse_civil _ _ _ _ E').
Qed.

(** ** The text determines the instant *)

Lemma padded_inj w a b : 0 <= a < 10 ^ Z.of_nat w -> 0 <= b < 10 ^ Z.of_nat w ->
  Dec.padded w a = Dec.padded w b -> a = b.
Proof.
  intros Ha Hb E. apply (f_equal Dec.value) in E. rewrite !Dec.value_padded in E.
  by rewrite !Z.mod_small in E.
Qed.

Lemma trim_zeros_pad l : exists k, l = trim_zeros l ++ replicate k x30.
Proof.
  induction l as [|b l [k IH]]; [by exists 0%nat|]. cbn.
  destruct (trim_zeros l) as [|c r].
  - case_decide as E; [exists (S k)|exists k]; cbn in *; congruence.
  - exists k. cbn in *. congruence.
Qed.

Lemma trim_zeros_inj l1 l2 :
  length l1 = length l2 -> trim_zeros l1 = trim_zeros l2 -> l1 = l2.
Proof.
  intros L E. destruct (trim_zeros_pad l1) as [k1 E1], (trim_zeros_pad l2) as [k2 E2].
  assert (k1 = k2) as ->; [|congruence].
  apply (f_equal length) in E1, E2. rewrite length_app, length_replicate in E1, E2.
  rewrite E in E1. lia.
Qed.

Lemma fraction_text_inj a b : 0 <= a < Second -> 0 <= b < Second ->
  fraction_text a = fraction_text b -> a = b.
Proof.
  intros Ha Hb E. apply (padded_inj 9); [done..|].
  apply trim_zeros_inj; [by rewrite !Dec.padded_length|].
  unfold fraction_text in E. repeat case_match; congruence.
Qed.

Definition rfc3339_year (t : Time) : Prop := 0 <= Year t <= 9999.

(** Reading one fixed-width number and the separator after it. *)
Lemma padded_field w sep a b x y : 0 <= a < 10 ^ Z.of_nat w -> 0 <= b < 10 ^ Z.of_nat w ->
  Dec.padded w a ++ sep :: x = Dec.padded w b ++ sep :: y -> a = b /\ x = y.
Proof.
  intros Ha Hb E. apply app_split_l in E as [E1 E2]; [|by rewrite !Dec.padded_length].
  apply padded_inj in E1; [|done..]. by simplify_eq.
Qed.

Lemma year_text_padded y : 0 <= y <= 9999 -> year_text y = Dec.padded 4 y.
Proof.
  intros H. unfold year_text. by rewrite (proj2 (Z.ltb_ge _ _)), (proj2 (Z.ltb_lt _ _)) by lia.
Qed.

Lemma sixty a : 0 <= a mod 60 < 60.
Proof. apply Z.mod_pos_bound. lia. Qed.

Lemma rfc3339nano_inj t u : rfc3339_year t -> rfc3339_year u ->
  rfc3339nano t = rfc3339nano u -> t_nano t = t_nano u.
Proof.
  unfold rfc3339_year, Year, rfc3339nano. intros Yt Yu E.
  destruct (civil (t_nano t / Second / 86400)) as [[y m] d] eqn:Ct.
  destruct (civil (t_nano u / Second / 86400)) as [[y' m'] d'] eqn:Cu. cbn in Yt, Yu.
  pose proof (civil_range _ _ _ _ Ct). pose proof (civil_range _ _ _ _ Cu).
  rewrite !year_text_padded in E by done.
  pose proof (Z.mod_pos_bound (t_nano t / Second) 86400).
  pose proof (Z.mod_pos_bound (t_nano u / Second) 86400).
  apply padded_field in E as [-> E]; [|cbn; lia..].
  apply padded_field in E as [-> E]; [|cbn; lia..].
  apply padded_field in E as [-> E]; [|cbn; lia..].
  apply padded_field in E as [Eh E]; [|cbn; Z.div_mod_to_equations; lia..].
  pose proof sixty. apply padded_field in E as [Em E]; [|cbn; Z.div_mod_to_equations; lia..].
  apply app_split_l in E as [Es E]; [|by rewrite !Dec.padded_length].
  apply padded_inj in Es; [|cbn; Z.div_mod_to_equations; lia..].
  apply app_inj_2 in E as [Ef _]; [|done].
  apply fraction_text_inj in Ef; [|apply Z.mod_pos_bound; done..].
  assert (t_nano t / Second / 86400 = t_nano u / Second / 86400) as Ed
    by (apply civil_inj; congruence).
  unfold Second in *. Z.div_mod_to_equations. lia.
Qed.

Example epoch_text : FormatRFC3339Nano {| t_nano := 0; t_offset := 0 |} = "1970-01-01T00:00:00Z"%string.
Proof. reflexivity. Qed.
Example leap_day_text :
  FormatRFC3339Nano {| t_nano := 1709251199123000000; t_offset := 0 |}
  = "2024-02-29T23:59:59.123Z"%string.
Proof. reflexivity. Qed.
