(* ===== verification/JsonTree.v ===== *)
(** * JsonTree: JSON documents, their scanner and their printer

    The documents [encoding/json] reads and writes.  A [json] keeps strings and
    numbers as they stand in the text (what Go's scanner hands on), [scan] is
    the scanner with its nesting limit, [print] writes a document without
    spaces.  What is printed is scanned back, the fuel of the scanner is never
    what stops it, and [unquote] undoes [Json.escape]. *)
From S2P Require Import Prelude Codec JsonText.

Inductive json :=
  | JNull
  | JBool (b : bool)
  | JNum (lit : list byte)
  | JStr (raw : list byte)                         (**r between the quotes, still escaped *)
  | JArr (l : list json)
  | JObj (l : list (list byte * json)).

(** ** Reading *)

Definition space (b : byte) : bool :=
  match b with x20 | x09 | x0a | x0d => true | _ => false end.
Fixpoint skip (l : list byte) : list byte :=
  match l with b :: r => if space b then skip r else l | [] => [] end.

Definition is_hex (b : byte) : bool :=
  let v := byteZ b in
  ((48 <=? v) && (v <=? 57)) || ((97 <=? v) && (v <=? 102)) || ((65 <=? v) && (v <=? 70)).
Definition escapable (b : byte) : bool :=
  match b with x22 | x5c | x2f | x62 | x66 | x6e | x72 | x74 => true | _ => false end.

(** The states [stateInString], [stateInStringEsc] and [stateInStringEscU…]:
    the text up to the closing quote, and what follows it. *)
Fixpoint scan_string (l : list byte) : option (list byte * list byte) :=
  match l with
  | [] => None
  | b :: r =>
      if Byte.eqb b x22 then Some ([], r)
      else if Byte.eqb b x5c then
        match r with
        | [] => None
        | k :: r1 =>
            if Byte.eqb k x75 then
              match r1 with
              | h1 :: h2 :: h3 :: h4 :: r2 =>
                  if is_hex h1 && is_hex h2 && is_hex h3 && is_hex h4
                  then '(s, t) ← scan_string r2; Some (b :: k :: h1 :: h2 :: h3 :: h4 :: s, t) else None
              | _ => None
              end
            else if escapable k then '(s, t) ← scan_string r1; Some (b :: k :: s, t) else None
        end
      else if byteZ b <? 32 then None
      else '(s, t) ← scan_string r; Some (b :: s, t)
  end.

Definition is_digit (b : byte) : bool := (48 <=? byteZ b) && (byteZ b <=? 57).
Fixpoint span (f : byte -> bool) (l : list byte) : list byte * list byte :=
  match l with
  | b :: r => if f b then let '(p, q) := span f r in (b :: p, q) else ([], l)
  | [] => ([], [])
  end.
(** At least one digit. *)
Definition scan_digits (l : list byte) : option (list byte * list byte) :=
  match span is_digit l with ([], _) => None | pq => Some pq end.
(** [0], or a digit that is not [0] and more of them. *)
Definition scan_integer (l : list byte) : option (list byte * list byte) :=
  match l with x30 :: r => Some ([x30], r) | _ => scan_digits l end.
Definition scan_fraction (l : list byte) : option (list byte * list byte) :=
  match l with
  | x2e :: r => '(d, t) ← scan_digits r; Some (x2e :: d, t)
  | _ => Some ([], l)
  end.
Definition scan_exponent (l : list byte) : option (list byte * list byte) :=
  match l with
  | e :: r =>
      if bool_decide (e = x65 \/ e = x45) then
        let '(s, r') := match r with
                        | x2b :: r' => ([x2b], r') | x2d :: r' => ([x2d], r') | _ => ([], r) end in
        '(d, t) ← scan_digits r'; Some (e :: s ++ d, t)
      else Some ([], l)
  | [] => Some ([], l)
  end.
Definition scan_number (l : list byte) : option (list byte * list byte) :=
  let '(sign, l1) := match l with x2d :: r => ([x2d], r) | _ => ([], l) end in
  '(i, l2) ← scan_integer l1;
  '(f, l3) ← scan_fraction l2;
  '(e, l4) ← scan_exponent l3;
  Some (sign ++ i ++ f ++ e, l4).

Definition scan_literal (lit : list byte) (v : json) (l : list byte) : option (json * list byte) :=
  if bool_decide (take (length lit) l = lit) then Some (v, drop (length lit) l) else None.

(** [maxNestingDepth] *)
Definition max_depth : Z := 10000.

(** What a value starts with. *)
Inductive start := SObj | SArr | SStr | SNull | STrue | SFalse | SNum.
Definition start_of (b : byte) : start :=
  match b with x7b => SObj | x5b => SArr | x22 => SStr | x6e => SNull | x74 => STrue | x66 => SFalse | _ => SNum end.

(** One value, its leading spaces skipped.  [depth] is how many more brackets
    may be opened.  [scan_elements] and [scan_members] are behind a bracket or
    a comma. *)
Fixpoint scan_value (fuel : nat) (depth : Z) (l : list byte) : option (json * list byte) :=
  match fuel, skip l with
  | S f, b :: r =>
      match start_of b with
      | SObj =>
          if depth <=? 0 then None
          else if bool_decide (head (skip r) = Some x7d) then Some (JObj [], tail (skip r))
          else '(ms, t) ← scan_members f (depth - 1) r; Some (JObj ms, t)
      | SArr =>
          if depth <=? 0 then None
          else if bool_decide (head (skip r) = Some x5d) then Some (JArr [], tail (skip r))
          else '(vs, t) ← scan_elements f (depth - 1) r; Some (JArr vs, t)
      | SStr => '(s, t) ← scan_string r; Some (JStr s, t)
      | SNull => scan_literal (bytes "null") JNull (b :: r)
      | STrue => scan_literal (bytes "true") (JBool true) (b :: r)
      | SFalse => scan_literal (bytes "false") (JBool false) (b :: r)
      | SNum => '(n, t) ← scan_number (b :: r); Some (JNum n, t)
      end
  | _, _ => None
  end
with scan_elements (fuel : nat) (depth : Z) (l : list byte) : option (list json * list byte) :=
  match fuel with
  | O => None
  | S f =>
      '(v, t) ← scan_value f depth l;
      match skip t with
      | b :: r =>
          if Byte.eqb b x2c then '(vs, u) ← scan_elements f depth r; Some (v :: vs, u)
          else if Byte.eqb b x5d then Some ([v], r) else None
      | [] => None
      end
  end
with scan_members (fuel : nat) (depth : Z) (l : list byte) : option (list (list byte * json) * list byte) :=
  match fuel, skip l with
  | S f, b :: r =>
      if negb (Byte.eqb b x22) then None else
      '(k, t) ← scan_string r;
      match skip t with
      | b' :: r' =>
          if negb (Byte.eqb b' x3a) then None else
          '(v, t') ← scan_value f depth r';
          match skip t' with
          | b'' :: r'' =>
              if Byte.eqb b'' x2c then '(ms, u) ← scan_members f depth r''; Some ((k, v) :: ms, u)
              else if Byte.eqb b'' x7d then Some ([(k, v)], r'') else None
          | [] => None
          end
      | [] => None
      end
  | _, _ => None
  end.

Definition scan (l : list byte) : option (json * list byte) := scan_value (2 * length l + 1) max_depth l.

(** [json.Unmarshal] wants nothing but spaces behind the value. *)
Definition scan_all (l : list byte) : option json :=
  '(v, t) ← scan l; if bool_decide (skip t = []) then Some v else None.

(** ** Writing *)

Definition sep_by (sep : byte) (ls : list (list byte)) : list byte :=
  match ls with [] => [] | x :: r => x ++ (r ≫= fun y => sep :: y) end.

Fixpoint print (v : json) : list byte :=
  match v with
  | JNull => bytes "null"
  | JBool true => bytes "true"
  | JBool false => bytes "false"
  | JNum n => n
  | JStr s => x22 :: s ++ [x22]
  | JArr vs => x5b :: sep_by x2c (map print vs) ++ [x5d]
  | JObj ms => x7b :: sep_by x2c (map (fun m => x22 :: m.1 ++ x22 :: x3a :: print m.2) ms) ++ [x7d]
  end.

(** ** The text of a string *)

Definition U_FFFD : list byte := [xef; xbf; xbd].

(** [utf8.EncodeRune] *)
Definition EncodeRune (v : Z) : list byte :=
  if v <? 128 then [Zbyte v]
  else if v <? 2048 then [Zbyte (192 + v / 64); Zbyte (128 + v mod 64)]
  else if v <? 65536 then [Zbyte (224 + v / 4096); Zbyte (128 + v / 64 mod 64); Zbyte (128 + v mod 64)]
  else [Zbyte (240 + v / 262144); Zbyte (128 + v / 4096 mod 64); Zbyte (128 + v / 64 mod 64); Zbyte (128 + v mod 64)].

Definition hexval (b : byte) : Z :=
  let v := byteZ b in if v <? 58 then v - 48 else if v <? 71 then v - 55 else v - 87.

(** [getu4], at the head of a list: the code unit of [\uXXXX]. *)
Definition getu4 (l : list byte) : option (Z * list byte) :=
  match l with
  | x5c :: x75 :: a :: b :: c :: d :: r =>
      if is_hex a && is_hex b && is_hex c && is_hex d
      then Some (((hexval a * 16 + hexval b) * 16 + hexval c) * 16 + hexval d, r) else None
  | _ => None
  end.

Definition high_surrogate (v : Z) : bool := (55296 <=? v) && (v <? 56320).
Definition low_surrogate (v : Z) : bool := (56320 <=? v) && (v <? 57344).

(** One turn of the loop of [unquoteBytes]: what it writes and what is left. *)
Definition unquote1 (l : list byte) : list byte * list byte :=
  match getu4 l with
  | Some (v, r) =>
      if high_surrogate v || low_surrogate v then
        match getu4 r with
        | Some (w, r') =>
            if high_surrogate v && low_surrogate w
            then (EncodeRune ((v - 55296) * 1024 + (w - 56320) + 65536), r') else (U_FFFD, r)
        | None => (U_FFFD, r)
        end
      else (EncodeRune v, r)
  | None =>
      match l with
      | [] => ([], [])
      | x5c :: k :: r => ([Json.simple_unescape k], r)
      | b :: r => match Utf8.rune_size l with Some n => (take n l, drop n l) | None => (U_FFFD, r) end
      end
  end.
Fixpoint unquote_upto (fuel : nat) (l : list byte) : list byte :=
  match fuel, l with
  | S f, _ :: _ => let '(w, r) := unquote1 l in w ++ unquote_upto f r
  | _, _ => []
  end.
Definition unquote (l : list byte) : list byte := unquote_upto (length l) l.

(** A string with every invalid byte replaced by U+FFFD. *)
Fixpoint replaced_upto (fuel : nat) (l : list byte) : list byte :=
  match fuel, l with
  | S f, _ :: t => match Utf8.rune_size l with
                   | Some n => take n l ++ replaced_upto f (drop n l)
                   | None => U_FFFD ++ replaced_upto f t
                   end
  | _, _ => []
  end.
Definition replaced (l : list byte) : list byte := replaced_upto (length l) l.

(** *** A string that is escaped is scanned whole and unescapes to itself *)

(** A stretch of escaped text that stands for [w]. *)
Record piece (p w : list byte) : Prop := {
  pc_scan t : scan_string (p ++ t) = '(s, u) ← scan_string t; Some (p ++ s, u);
  pc_unquote t : unquote1 (p ++ t) = (w, t);
  pc_long : (0 < length p)%nat;
}.

Lemma scan_wide b t : 128 <= byteZ b -> scan_string (b :: t) = '(s, u) ← scan_string t; Some (b :: s, u).
Proof. intros H. by destruct b; try (exfalso; revert H; cbn; lia). Qed.

Lemma unquote_wide b t : 128 <= byteZ b ->
  unquote1 (b :: t) = match Utf8.rune_size (b :: t) with
                      | Some n => (take n (b :: t), drop n (b :: t)) | None => (U_FFFD, t) end.
Proof. intros H. by destruct b; try (exfalso; revert H; cbn; lia). Qed.

Lemma piece_ascii b : byteZ b < 128 -> piece (Json.escape_ascii b) [b].
Proof.
  intros H. destruct b; try (exfalso; revert H; cbn; lia); (split; [intros t; done|intros t|cbn; lia]); done.
Qed.

Lemma piece_replacement : piece Json.replacement U_FFFD.
Proof. split; [done|done|cbn; lia]. Qed.

Lemma scan_rune r t : Forall (fun b => 128 <= byteZ b) r ->
  scan_string (r ++ t) = '(s, u) ← scan_string t; Some (r ++ s, u).
Proof.
  induction 1 as [|b r H _ IH]; [cbn [app]; by destruct (scan_string t) as [[]|]|].
  cbn [app]. rewrite scan_wide, IH by done. by destruct (scan_string t) as [[]|].
Qed.

Lemma wide_bytes b c r : Utf8.is_rune (b :: c :: r) -> Forall (fun b => 128 <= byteZ b) (b :: c :: r).
Proof.
  unfold Utf8.is_rune, Utf8.rune_size, Utf8.cont, Utf8.within.
  intros R. destruct r as [|d [|e [|? ?]]]; cbn [length] in R; repeat case_match; simplify_eq;
    repeat constructor; lia.
Qed.

Lemma piece_rune r : Utf8.is_rune r -> piece (Json.escape_rune r) r.
Proof.
  intros R. destruct r as [|b [|c r]]; [done|by apply piece_ascii, Json.is_rune_one|].
  pose proof (wide_bytes b c r R) as W. cbn [Json.escape_rune]. unfold Json.escape_wide.
  case_bool_decide as E1; [rewrite E1; split; [done|done|cbn; lia]|].
  case_bool_decide as E2; [rewrite E2; split; [done|done|cbn; lia]|].
  split; [intros t; by apply scan_rune| |cbn; lia]. intros t.
  pose proof (Utf8.rune_size_app _ t R) as RS. cbn [app] in *.
  rewrite unquote_wide, RS by by inversion W. cbn [length].
  change (b :: c :: r ++ t) with ((b :: c :: r) ++ t). cbn [take drop app].
  by rewrite take_app_length, drop_app_length.
Qed.

(** Text made of pieces: scanned as it is, unquoted piece by piece. *)
Lemma scan_pieces ps ws t : Forall2 piece ps ws ->
  scan_string (concat ps ++ x22 :: t) = Some (concat ps, t).
Proof.
  induction 1 as [|p w ps ws P _ IH]; [done|]. cbn [concat]. rewrite <-(assoc_L (++)).
  rewrite (pc_scan _ _ P), IH. done.
Qed.

Lemma unquote_pieces ps ws : Forall2 piece ps ws -> unquote (concat ps) = concat ws.
Proof.
  intros F. unfold unquote.
  enough (forall f, (length (concat ps) <= f)%nat -> unquote_upto f (concat ps) = concat ws) as A by by apply A.
  induction F as [|p w ps ws P F IH]; intros f L; [by destruct f|].
  cbn [concat] in *. rewrite length_app in L. pose proof (pc_long _ _ P).
  destruct f as [|f]; [lia|]. pose proof (pc_unquote _ _ P (concat ps)) as U.
  destruct (p ++ concat ps) as [|b q] eqn:E; [apply (f_equal length) in E; rewrite length_app in E; cbn in E; lia|].
  cbn [unquote_upto]. rewrite U. by rewrite IH by lia.
Qed.

Lemma escape_pieces f l : exists ps ws, Forall2 piece ps ws /\
  Json.escape_upto f l = concat ps /\ replaced_upto f l = concat ws.
Proof.
  revert l. induction f as [|f IH]; intros l; [by exists [], []|].
  destruct l as [|b l]; [by exists [], []|]. cbn [Json.escape_upto replaced_upto].
  destruct (Utf8.rune_size (b :: l)) as [n|] eqn:E.
  - destruct (Utf8.rune_size_split _ _ E) as (R & _ & _). destruct (IH (drop n (b :: l))) as (ps & ws & F & -> & ->).
    eexists (_ :: ps), (_ :: ws). split; [constructor; [by apply piece_rune|done]|done].
  - destruct (IH l) as (ps & ws & F & -> & ->).
    eexists (_ :: ps), (_ :: ws). split; [constructor; [apply piece_replacement|done]|done].
Qed.

(** A raw string the scanner takes whole. *)
Definition raw_ok (s : list byte) : Prop := forall t, scan_string (s ++ x22 :: t) = Some (s, t).

Lemma escape_raw l : raw_ok (Json.escape l).
Proof.
  unfold raw_ok, Json.escape. destruct (escape_pieces (length l) l) as (ps & ws & F & -> & _).
  intros t. by eapply scan_pieces.
Qed.

(** [json.Unmarshal] of a marshalled string: the string with every byte that is not UTF-8 replaced. *)
Lemma unquote_escape l : unquote (Json.escape l) = replaced l.
Proof.
  unfold Json.escape, replaced. destruct (escape_pieces (length l) l) as (ps & ws & F & -> & ->).
  by apply unquote_pieces.
Qed.

Lemma replaced_valid l : Utf8.Valid l = true -> replaced l = l.
Proof.
  unfold Utf8.Valid, replaced. generalize (length l) as f. intros f. revert l.
  induction f as [|f IH]; intros [|b l] V; try done. cbn [Utf8.valid_upto replaced_upto] in *.
  destruct (Utf8.rune_size (b :: l)) as [n|]; [|done]. rewrite IH by done. apply take_drop.
Qed.

(** ** The scanner consumes what it reads *)

Ltac scan_cases :=
  repeat match goal with
  | H : None = Some _ |- _ => discriminate H
  | H : Some _ = Some _ |- _ => injection H as <- <-
  | H : context [mbind _ ?o] |- _ => let E := fresh "E" in destruct o as [[? ?]|] eqn:E; cbn [mbind option_bind] in H
  | H : context [if ?c then _ else _] |- _ => let E := fresh "E" in destruct c eqn:E
  end.

Lemma skip_length l : (length (skip l) <= length l)%nat.
Proof. induction l as [|b l IH]; [done|]. cbn. destruct (space b); cbn; lia. Qed.

Lemma scan_string_shrinks l s t : scan_string l = Some (s, t) -> (length t < length l)%nat.
Proof.
  remember (length l) as n eqn:N. revert l s t N. induction (lt_wf n) as [n _ IH]. intros l s t -> E.
  destruct l as [|b r]; [done|]. cbn [scan_string] in E. cbn [length] in *.
  assert (forall r' s' t', scan_string r' = Some (s', t') -> (length r' <= length r)%nat -> (length t' < S (length r))%nat) as R.
  { intros r' s' t' E' L. pose proof (IH (length r') ltac:(lia) r' s' t' eq_refl E'). lia. }
  destruct (Byte.eqb b x22); [injection E as <- <-; lia|].
  destruct (Byte.eqb b x5c); [|scan_cases; by eapply R].
  destruct r as [|k r]; [done|]. destruct (Byte.eqb k x75); [|scan_cases; eapply R; [done|cbn; lia]].
  destruct r as [|h1 [|h2 [|h3 [|h4 r]]]]; try done. scan_cases. eapply R; [done|cbn; lia].
Qed.

Lemma span_length f l : (length (span f l).2 <= length l)%nat.
Proof. induction l as [|b l IH]; [done|]. cbn. destruct (f b); [destruct (span f l); cbn in *; lia|done]. Qed.

Lemma scan_digits_shrinks l d t : scan_digits l = Some (d, t) -> (length t < length l)%nat.
Proof.
  unfold scan_digits. destruct l as [|b l]; [done|]. cbn. destruct (is_digit b); [|done].
  pose proof (span_length is_digit l). destruct (span is_digit l). intros [= <- <-]. cbn in *. lia.
Qed.

Lemma scan_integer_shrinks l d t : scan_integer l = Some (d, t) -> (length t < length l)%nat.
Proof.
  unfold scan_integer. intros E. repeat case_match; try (by eapply scan_digits_shrinks).
  injection E as <- <-. cbn. lia.
Qed.

Lemma scan_fraction_length l d t : scan_fraction l = Some (d, t) -> (length t <= length l)%nat.
Proof.
  unfold scan_fraction. intros E. repeat case_match; scan_cases; try done.
  match goal with H : scan_digits _ = _ |- _ => apply scan_digits_shrinks in H end. cbn. lia.
Qed.

Lemma scan_exponent_length l d t : scan_exponent l = Some (d, t) -> (length t <= length l)%nat.
Proof.
  unfold scan_exponent. destruct l as [|e r]; [by intros [= <- <-]|]. case_bool_decide; [|by intros [= <- <-]].
  intros E. repeat case_match; simplify_eq; scan_cases;
    match goal with H : scan_digits _ = _ |- _ => apply scan_digits_shrinks in H end; cbn in *; lia.
Qed.

Lemma scan_number_shrinks l n t : scan_number l = Some (n, t) -> (length t < length l)%nat.
Proof.
  unfold scan_number. intros E.
  destruct (match l with x2d :: r => ([x2d], r) | _ => ([], l) end) as [sign l1] eqn:G.
  assert (length l1 <= length l)%nat by (repeat case_match; simplify_eq; cbn; lia). scan_cases.
  repeat match goal with
  | H : scan_integer _ = _ |- _ => apply scan_integer_shrinks in H
  | H : scan_fraction _ = _ |- _ => apply scan_fraction_length in H
  | H : scan_exponent _ = _ |- _ => apply scan_exponent_length in H
  end. lia.
Qed.

Lemma scan_literal_shrinks lit v l w t : scan_literal lit v l = Some (w, t) -> (0 < length lit)%nat ->
  (length t < length l)%nat.
Proof.
  unfold scan_literal. case_bool_decide as E; [|done]. intros [= _ <-] L. apply (f_equal length) in E.
  rewrite length_take in E. rewrite length_drop. lia.
Qed.

Lemma tail_length {A} (l : list A) : (length (tail l) <= length l)%nat.
Proof. destruct l; cbn; lia. Qed.

(** The lengths behind the calls a scan made, and behind skipped spaces. *)
Ltac lengths :=
  repeat match goal with
  | H : scan_string _ = Some _ |- _ => apply scan_string_shrinks in H
  | H : scan_number _ = Some _ |- _ => apply scan_number_shrinks in H
  | H : scan_literal _ _ _ = Some _ |- _ => apply scan_literal_shrinks in H; [|cbn; lia]
  | H : scan_value _ _ _ = Some _, R : forall d l v t, scan_value _ d l = _ -> _ |- _ => apply R in H
  | H : scan_elements _ _ _ = Some _, R : forall d l v t, scan_elements _ d l = _ -> _ |- _ => apply R in H
  | H : scan_members _ _ _ = Some _, R : forall d l v t, scan_members _ d l = _ -> _ |- _ => apply R in H
  end.
Ltac skipped l b r :=
  let K := fresh "K" in let L := fresh "L" in
  pose proof (skip_length l) as L; destruct (skip l) as [|b r] eqn:K; [done|]; cbn [length] in L.

Lemma scan_shrinks f :
  (forall d l v t, scan_value f d l = Some (v, t) -> (length t < length l)%nat) /\
  (forall d l v t, scan_elements f d l = Some (v, t) -> (length t < length l)%nat) /\
  (forall d l v t, scan_members f d l = Some (v, t) -> (length t < length l)%nat).
Proof.
  induction f as [|f (IV & IE & IM)]; [done|]. split_and!; intros d l v t E.
  - cbn [scan_value] in E. skipped l b r. pose proof (skip_length r). pose proof (tail_length (skip r)).
    destruct (start_of b); scan_cases; lengths; cbn [length] in *; lia.
  - cbn [scan_elements] in E. scan_cases.
    match type of E with context [skip ?l1] => skipped l1 b r end. scan_cases; lengths; lia.
  - cbn [scan_members] in E. skipped l b r. scan_cases.
    match type of E with context [skip ?l1] => skipped l1 b' r' end. scan_cases.
    match type of E with context [skip ?l2] => skipped l2 b'' r'' end. scan_cases; lengths; lia.
Qed.

(** Fuel beyond twice the length changes nothing. *)
Lemma scan_fuel f :
  (forall g d l, (2 * length l + 1 <= f)%nat -> (2 * length l + 1 <= g)%nat -> scan_value f d l = scan_value g d l) /\
  (forall g d l, (2 * length l + 2 <= f)%nat -> (2 * length l + 2 <= g)%nat -> scan_elements f d l = scan_elements g d l) /\
  (forall g d l, (2 * length l + 2 <= f)%nat -> (2 * length l + 2 <= g)%nat -> scan_members f d l = scan_members g d l).
Proof.
  induction f as [|f (IV & IE & IM)]; [split_and!; intros; lia|].
  split_and!; intros [|g] d l Lf Lg; try lia.
  - cbn [scan_value]. skipped l b r.
    rewrite (IM g), (IE g) by lia. done.
  - cbn [scan_elements]. rewrite (IV g) by lia. destruct (scan_value g d l) as [[v t]|] eqn:E; [|done].
    apply scan_shrinks in E. cbn [mbind option_bind]. skipped t b r. by rewrite (IE g) by lia.
  - cbn [scan_members]. skipped l b r. destruct (negb _); [done|].
    destruct (scan_string r) as [[k t]|] eqn:E; [|done]. apply scan_string_shrinks in E. cbn [mbind option_bind].
    skipped t b' r'. destruct (negb _); [done|].
    rewrite (IV g) by lia. destruct (scan_value g d r') as [[v t']|] eqn:E'; [|done]. apply scan_shrinks in E'.
    cbn [mbind option_bind]. skipped t' b'' r''. by rewrite (IM g) by lia.
Qed.

(** ** What is printed is scanned back *)

Definition number_char (b : byte) : bool :=
  is_digit b || Byte.eqb b x2e || Byte.eqb b x65 || Byte.eqb b x45.
(** Text that cannot go on with a number. *)
Definition stops (t : list byte) : Prop := match t with b :: _ => number_char b = false | [] => True end.

Record num_ok (n : list byte) : Prop := {
  nk_head : exists b r, n = b :: r /\ (is_digit b || Byte.eqb b x2d) = true;
  nk_scan t : stops t -> scan_number (n ++ t) = Some (n, t);
}.

(** A document whose parts are as the scanner takes them, of a nesting it accepts. *)
Fixpoint fits (v : json) (d : Z) {struct v} : Prop :=
  match v with
  | JNull | JBool _ => True
  | JNum n => num_ok n
  | JStr s => raw_ok s
  | JArr vs => 0 < d /\ foldr (fun v P => fits v (d - 1) /\ P) True vs
  | JObj ms => 0 < d /\ foldr (fun m P => (raw_ok m.1 /\ fits m.2 (d - 1)) /\ P) True ms
  end.

Definition fits_elements (vs : list json) (d : Z) : Prop := foldr (fun v P => fits v d /\ P) True vs.
Definition fits_members (ms : list (list byte * json)) (d : Z) : Prop :=
  foldr (fun m P => (raw_ok m.1 /\ fits m.2 d) /\ P) True ms.

(** Induction with the hypothesis for every element and member. *)
Lemma json_induction (P : json -> Prop) :
  P JNull -> (forall b, P (JBool b)) -> (forall n, P (JNum n)) -> (forall s, P (JStr s)) ->
  (forall vs, Forall P vs -> P (JArr vs)) -> (forall ms, Forall (fun m => P m.2) ms -> P (JObj ms)) ->
  forall v, P v.
Proof.
  intros Hn Hb Hd Hs Ha Ho. fix IH 1. intros [|b|n|s|vs|ms]; [done|done|done|done|apply Ha|apply Ho].
  - induction vs as [|v vs IHvs]; constructor; [apply IH|apply IHvs].
  - induction ms as [|[k v] ms IHms]; constructor; [apply IH|apply IHms].
Qed.

Lemma sep_by_cons s x y r : sep_by s (x :: y :: r) = x ++ s :: sep_by s (y :: r).
Proof. done. Qed.

(** A value starts with its own first byte, never a space or a closing bracket. *)
Lemma print_start v d : fits v d -> exists b r, print v = b :: r /\ space b = false /\ b <> x5d /\
  match v with
  | JNull => start_of b = SNull | JBool true => start_of b = STrue | JBool false => start_of b = SFalse
  | JNum _ => start_of b = SNum | JStr _ => start_of b = SStr
  | JArr _ => start_of b = SArr | JObj _ => start_of b = SObj
  end.
Proof.
  destruct v as [|[]|n|s|vs|ms]; cbn [print fits]; intros F; try by do 2 eexists.
  destruct F as [(b & r & -> & Hb) _]. exists b, r. split; [done|]. by destruct b.
Qed.

Lemma skip_start b l : space b = false -> skip (b :: l) = b :: l.
Proof. intros E. cbn. by rewrite E. Qed.

Definition reads_back (v : json) : Prop := forall d t, fits v d -> stops t ->
  exists n, forall f, (n <= f)%nat -> scan_value f d (print v ++ t) = Some (v, t).

Lemma scan_elements_print vs d t : vs <> [] -> Forall reads_back vs -> fits_elements vs d ->
  exists n, forall f, (n <= f)%nat ->
    scan_elements f d (sep_by x2c (map print vs) ++ x5d :: t) = Some (vs, t).
Proof.
  intros N R. induction R as [|v vs Rv _ IH]; [done|]. intros [Fv Fvs]. destruct vs as [|w vs].
  - destruct (Rv d (x5d :: t) Fv eq_refl) as [n Hn]. exists (S n). intros [|f] L; [lia|].
    cbn [map sep_by mbind list_bind scan_elements]. rewrite app_nil_r, Hn by lia. done.
  - destruct (IH ltac:(done) Fvs) as [m Hm].
    destruct (Rv d (x2c :: sep_by x2c (map print (w :: vs)) ++ x5d :: t) Fv eq_refl) as [n Hn].
    exists (S (max n m)). intros [|f] L; [lia|]. cbn [map] in *.
    rewrite sep_by_cons, <-(assoc_L (++)). cbn [app scan_elements]. rewrite Hn by lia.
    cbn [mbind option_bind skip space Byte.eqb]. by rewrite Hm by lia.
Qed.

Lemma scan_members_print ms d t : ms <> [] -> Forall (fun m => reads_back m.2) ms -> fits_members ms d ->
  exists n, forall f, (n <= f)%nat ->
    scan_members f d (sep_by x2c (map (fun m => x22 :: m.1 ++ x22 :: x3a :: print m.2) ms) ++ x7d :: t) = Some (ms, t).
Proof.
  intros N R. induction R as [|[k v] ms Rv _ IH]; [done|]. intros [[Rk Fv] Fms]. cbn [fst snd] in *. destruct ms as [|m ms].
  - destruct (Rv d (x7d :: t) Fv eq_refl) as [n Hn]. exists (S n). intros [|f] L; [lia|].
    cbn [map sep_by mbind list_bind fst snd]. rewrite app_nil_r. cbn [app].
    rewrite <-(assoc_L (++)). cbn [app scan_members skip space Byte.eqb negb]. rewrite Rk.
    cbn [mbind option_bind skip space]. cbn. rewrite Hn by lia. done.
  - destruct (IH ltac:(done) Fms) as [j Hj].
    destruct (Rv d (x2c :: sep_by x2c (map (fun m => x22 :: m.1 ++ x22 :: x3a :: print m.2) (m :: ms)) ++ x7d :: t) Fv eq_refl)
      as [n Hn].
    exists (S (max n j)). intros [|f] L; [lia|]. cbn [map] in *.
    rewrite sep_by_cons, <-(assoc_L (++)). cbn [app fst snd]. rewrite <-(assoc_L (++)).
    cbn [app scan_members skip space]. cbn [Byte.eqb negb]. cbn. rewrite Rk. cbn.
    rewrite Hn by lia. cbn. by rewrite Hj by lia.
Qed.

Lemma scan_print v : reads_back v.
Proof.
  induction v as [|b|n|s|vs IH|ms IH] using json_induction; intros d t F T;
    destruct (print_start _ _ F) as (b0 & r0 & Ep & Sp & Nb & St).
  - exists 1%nat. intros [|f] L; [lia|]. done.
  - exists 1%nat. intros [|f] L; [lia|]. by destruct b.
  - exists 1%nat. intros [|f] L; [lia|]. cbn [scan_value]. pose proof (nk_scan _ F t T) as E.
    cbn [print] in *. rewrite Ep in *. cbn [app] in *. rewrite skip_start, St by done. by rewrite E.
  - exists 1%nat. intros [|f] L; [lia|]. cbn [scan_value print app skip space start_of].
    rewrite <-(assoc_L (++)). cbn [app]. by rewrite F.
  - destruct F as [D F]. destruct vs as [|v vs].
    + exists 1%nat. intros [|f] L; [lia|]. cbn. by rewrite (proj2 (Z.leb_gt _ _)) by lia.
    + destruct (scan_elements_print (v :: vs) (d - 1) t ltac:(done) IH F) as [n Hn].
      exists (S n). intros [|f] L; [lia|]. cbn [scan_value print app skip space start_of].
      rewrite (proj2 (Z.leb_gt _ _)) by lia. rewrite <-(assoc_L (++)). cbn [app].
      rewrite Hn by lia. destruct F as [Fv _].
      destruct (print_start _ _ Fv) as (b & r & Eb & Sb & Nd & _). rewrite bool_decide_eq_false_2; [done|].
      assert (exists q, sep_by x2c (map print (v :: vs)) = b :: q) as [q ->].
      { cbn [map sep_by]. rewrite Eb. cbn [app]. by eexists. }
      cbn [app]. rewrite skip_start by done. cbn. congruence.
  - destruct F as [D F]. destruct ms as [|m ms].
    + exists 1%nat. intros [|f] L; [lia|]. cbn. by rewrite (proj2 (Z.leb_gt _ _)) by lia.
    + destruct (scan_members_print (m :: ms) (d - 1) t ltac:(done) IH F) as [n Hn].
      exists (S n). intros [|f] L; [lia|]. cbn [scan_value print app skip space start_of].
      rewrite (proj2 (Z.leb_gt _ _)) by lia. rewrite <-(assoc_L (++)). cbn [app].
      rewrite Hn by lia. by rewrite bool_decide_eq_false_2 by (by cbn [map]; destruct (map _ ms)).
Qed.

(** The scanner as it runs: at the head of any text that does not go on with the value. *)
Lemma scan_printed v t : fits v max_depth -> stops t -> scan (print v ++ t) = Some (v, t).
Proof.
  intros F T. destruct (scan_print v max_depth t F T) as [n Hn]. unfold scan.
  rewrite (proj1 (scan_fuel _) (max n (2 * length (print v ++ t) + 1)) _ _) by lia. apply Hn. lia.
Qed.

Lemma scan_all_printed v t : fits v max_depth -> skip t = [] -> stops t -> scan_all (print v ++ t) = Some v.
Proof. intros F K T. unfold scan_all. rewrite scan_printed by done. cbn. by rewrite K. Qed.

(** ** Integers as numbers *)

Lemma digit_dec b : Dec.is_digit b <-> is_digit b = true.
Proof. unfold Dec.is_digit, is_digit. lia. Qed.

Lemma span_digits d t : Forall Dec.is_digit d -> stops t -> span is_digit (d ++ t) = (d, t).
Proof.
  intros F T. induction F as [|b d D _ IH]; cbn [app].
  - destruct t as [|b t]; [done|]. cbn in *. unfold number_char in T. by destruct (is_digit b).
  - cbn. apply digit_dec in D. by rewrite D, IH.
Qed.

Lemma stops_no_fraction t : stops t -> scan_fraction t = Some ([], t) /\ scan_exponent t = Some ([], t).
Proof.
  unfold scan_fraction, scan_exponent. destruct t as [|b t]; [done|]. cbn. intros E.
  destruct b; try done.
Qed.

(** Without leading zeros: a single zero, or no zero in front. *)
Lemma decimal_head v : 0 < v -> exists b r, Dec.decimal v = b :: r /\ b <> x30 /\ is_digit b = true.
Proof.
  assert (forall n v, (Z.to_nat v <= n)%nat -> 0 < v ->
    exists b r, Dec.decimal v = b :: r /\ b <> x30 /\ is_digit b = true) as A; [|by apply (A (Z.to_nat v))].
  intros n. induction n as [|n IH]; intros w L P; [lia|]. destruct (Z_lt_ge_dec w 10) as [S|G].
  - rewrite Dec.decimal_small by lia. do 2 eexists. split; [done|]. split.
    + intros E. apply (f_equal byteZ) in E. rewrite Dec.byteZ_digit in E by lia. cbn in E. lia.
    + apply digit_dec, Dec.digit_is_digit. lia.
  - rewrite Dec.decimal_step by lia. destruct (IH (w / 10)) as (b & r & -> & N & D);
      [div_lia|div_lia|]. by exists b, (r ++ [Dec.digit (w mod 10)]).
Qed.

Lemma scan_integer_decimal v t : 0 <= v -> stops t -> scan_integer (Dec.decimal v ++ t) = Some (Dec.decimal v, t).
Proof.
  intros P T. destruct (decide (v = 0)) as [->|N]; [done|].
  destruct (decimal_head v) as (b & r & E & Nz & D); [lia|].
  unfold scan_integer, scan_digits. pose proof (span_digits _ t (Dec.decimal_digits v) T) as Sp.
  rewrite E in *. cbn [app] in *. rewrite Sp. by destruct b.
Qed.

Lemma num_decimal v : 0 <= v -> num_ok (Dec.decimal v).
Proof.
  intros P. assert (exists b r, Dec.decimal v = b :: r /\ is_digit b = true) as (b & r & E & D).
  { destruct (decide (v = 0)) as [->|N]; [by do 2 eexists|].
    destruct (decimal_head v) as (b & r & E & _ & D); [lia|]. by exists b, r. }
  split; [exists b, r; by rewrite E, D|]. intros t T. unfold scan_number.
  assert (match Dec.decimal v ++ t with x2d :: r => ([x2d], r) | _ => ([], Dec.decimal v ++ t) end
          = ([], Dec.decimal v ++ t)) as ->.
  { rewrite E. cbn [app]. by destruct b. }
  rewrite scan_integer_decimal by done. cbn [mbind option_bind].
  destruct (stops_no_fraction t T) as [-> X]. cbn [mbind option_bind]. rewrite X. cbn. by rewrite !app_nil_r.
Qed.

Definition int_text (v : Z) : list byte := bytes (Dec.Itoa v).

Lemma int_text_eq v : int_text v = if v <? 0 then x2d :: Dec.decimal (- v) else Dec.decimal v.
Proof. unfold int_text, Dec.Itoa. by rewrite bytes_text. Qed.

Lemma num_int v : num_ok (int_text v).
Proof.
  rewrite int_text_eq. destruct (Z.ltb_spec v 0) as [L|L]; [|by apply num_decimal].
  split; [by do 2 eexists|]. intros t T. unfold scan_number. cbn [app].
  rewrite scan_integer_decimal by (done || lia). cbn [mbind option_bind].
  destruct (stops_no_fraction t T) as [-> X]. cbn [mbind option_bind]. rewrite X. cbn. by rewrite !app_nil_r.
Qed.
