(* ===== verification/JsonUtf8.v ===== *)
(** * JsonUtf8: what is read from JSON is UTF-8

    The grammar of the text between two quotes, the proof that the scanner
    accepts exactly it, and that [unquote] makes valid UTF-8 of it whatever the
    bytes were.  So every string of a decoded message is valid. *)
From S2P Require Import Prelude Codec JsonText JsonTree.

(** ** The grammar of a string *)

Inductive raw : list byte -> Prop :=
  | raw_nil : raw []
  | raw_u a b c d r : is_hex a && is_hex b && is_hex c && is_hex d = true -> raw r ->
      raw (x5c :: x75 :: a :: b :: c :: d :: r)
  | raw_esc k r : escapable k = true -> raw r -> raw (x5c :: k :: r)
  | raw_char b r : 32 <= byteZ b -> b <> x22 -> b <> x5c -> raw r -> raw (b :: r).

Lemma eqb_byte a b : Byte.eqb a b = true -> a = b.
Proof. apply Byte.byte_dec_bl. Qed.
Lemma eqb_byte_ne a b : Byte.eqb a b = false -> a <> b.
Proof. intros E ->. by destruct b. Qed.

Lemma scan_string_sound l s t : scan_string l = Some (s, t) -> raw s /\ l = s ++ x22 :: t.
Proof.
  remember (length l) as n eqn:N. revert l s t N. induction (lt_wf n) as [n _ IH]. intros l s t -> E.
  destruct l as [|b r]; [done|]. cbn [scan_string] in E. cbn [length] in IH.
  assert (forall r' s' t', (length r' <= length r)%nat -> scan_string r' = Some (s', t') -> raw s' /\ r' = s' ++ x22 :: t') as R
    by (intros r' s' t' L E'; apply (IH (length r') ltac:(lia) r' s' t' eq_refl E')).
  clear IH. destruct (Byte.eqb b x22) eqn:Q; [apply eqb_byte in Q as ->; injection E as <- <-; split; [constructor|done]|].
  apply eqb_byte_ne in Q. destruct (Byte.eqb b x5c) eqn:Bs; [apply eqb_byte in Bs as ->|apply eqb_byte_ne in Bs].
  - destruct r as [|k r]; [done|]. destruct (Byte.eqb k x75) eqn:U.
    + apply eqb_byte in U as ->. destruct r as [|a [|b [|c [|d r]]]]; try done.
      destruct (_ && _) eqn:Hx; [|done]. destruct (scan_string r) as [[s' t']|] eqn:E'; [|done]. injection E as <- <-.
      apply R in E' as [Rs ->]; [|cbn; lia]. split; [by constructor|done].
    + destruct (escapable k) eqn:Ek; [|done]. destruct (scan_string r) as [[s' t']|] eqn:E'; [|done]. injection E as <- <-.
      apply R in E' as [Rs ->]; [|cbn; lia]. split; [by constructor|done].
  - destruct (byteZ b <? 32) eqn:Lo; [done|]. destruct (scan_string r) as [[s' t']|] eqn:E'; [|done]. injection E as <- <-.
    apply R in E' as [Rs ->]; [|lia]. split; [|done]. constructor; [lia|done..].
Qed.

(** ** UTF-8, rune by rune *)

Lemma valid_fuel f g l : (length l <= f)%nat -> (length l <= g)%nat -> Utf8.valid_upto f l = Utf8.valid_upto g l.
Proof.
  revert g l. induction f as [|f IH]; intros g l Lf Lg; [destruct l; [by destruct g|cbn in Lf; lia]|].
  destruct l as [|b l]; [by destruct g|]. destruct g as [|g]; [cbn in Lg; lia|]. cbn [Utf8.valid_upto].
  destruct (Utf8.rune_size (b :: l)) as [n|] eqn:E; [|done].
  apply Utf8.rune_size_split in E as (_ & _ & P). apply IH; rewrite length_drop; cbn [length] in *; lia.
Qed.

Lemma valid_rune_app r t : Utf8.is_rune r -> Utf8.Valid t = true -> Utf8.Valid (r ++ t) = true.
Proof.
  intros R V. unfold Utf8.Valid in *. destruct r as [|b r]; [done|]. cbn [app length Utf8.valid_upto].
  pose proof (Utf8.rune_size_app _ t R) as E. cbn [app] in E. rewrite E.
  change (b :: r ++ t) with ((b :: r) ++ t). rewrite drop_app_length.
  rewrite (valid_fuel _ (length t)); [done|rewrite length_app; lia|lia].
Qed.

(** A code point UTF-8 encodes. *)
Definition scalar (v : Z) : Prop := 0 <= v < 55296 \/ 57344 <= v < 1114112.

Lemma rune_EncodeRune v : scalar v -> Utf8.is_rune (EncodeRune v).
Proof.
  intros S. unfold EncodeRune, Utf8.is_rune, Utf8.rune_size, Utf8.cont, Utf8.within.
  destruct (Z.ltb_spec v 128) as [L|L]; [|destruct (Z.ltb_spec v 2048); [|destruct (Z.ltb_spec v 65536)]];
    rewrite !byteZ_Zbyte, !Z.mod_small by (unfold scalar in S; div_lia); cbn [length].
  - by rewrite (proj2 (Z.ltb_lt _ _)).
  - repeat case_match; unfold scalar in S; try done; exfalso; div_lia.
  - repeat case_match; unfold scalar in S; try done; exfalso; div_lia.
  - repeat case_match; unfold scalar in S; try done; exfalso; div_lia.
Qed.

Lemma rune_FFFD : Utf8.is_rune U_FFFD.
Proof. done. Qed.

Lemma hexval_range b : is_hex b = true -> 0 <= hexval b < 16.
Proof. unfold is_hex, hexval. intros H. repeat case_match; lia. Qed.

Lemma getu4_spec l v r : getu4 l = Some (v, r) ->
  0 <= v < 65536 /\ (length r < length l)%nat /\ (raw l -> raw r) /\ exists p, l = p ++ r.
Proof.
  unfold getu4. intros E. repeat (case_match; try done). injection E as <- <-. simplify_eq.
  match goal with H : _ && _ && _ && _ = true |- _ => rename H into X end.
  pose proof X as X'. rewrite !andb_true_iff in X. destruct X as [[[Ha Hb] Hc] Hd].
  apply hexval_range in Ha, Hb, Hc, Hd. split_and!; [lia|lia|cbn; lia| |].
  - intros R. inversion R; simplify_eq; try done; by match goal with H : raw (_ :: _) |- _ => idtac end.
  - by eexists [_; _; _; _; _; _].
Qed.

Lemma raw_wide p r : Forall (fun b => 128 <= byteZ b) p -> raw (p ++ r) -> raw r.
Proof.
  induction 1 as [|b p H _ IH]; [done|]. cbn [app]. intros R. apply IH.
  inversion R; simplify_eq; try (exfalso; revert H; cbn; lia). done.
Qed.

Lemma unquote1_char b r : b <> x5c -> unquote1 (b :: r) =
  match Utf8.rune_size (b :: r) with Some n => (take n (b :: r), drop n (b :: r)) | None => (U_FFFD, r) end.
Proof. intros N. destruct b; first [reflexivity|by destruct N]. Qed.

Lemma unquote1_raw l : raw l -> l <> [] ->
  exists w r, unquote1 l = (w, r) /\ Utf8.is_rune w /\ raw r /\ (length r < length l)%nat.
Proof.
  intros R N. destruct (getu4 l) as [[v r]|] eqn:G.
  - unfold unquote1. rewrite G. destruct (getu4_spec l v r G) as (Rv & L & Rr & _). specialize (Rr R).
    destruct (high_surrogate v || low_surrogate v) eqn:Su.
    + destruct (getu4 r) as [[w r']|] eqn:G'; [|by exists U_FFFD, r].
      destruct (getu4_spec r w r' G') as (Rw & L' & Rr' & _). specialize (Rr' Rr).
      destruct (high_surrogate v && low_surrogate w) eqn:Hl; [|by exists U_FFFD, r].
      do 2 eexists. split; [done|]. split; [|split; [done|lia]]. apply rune_EncodeRune. right.
      unfold high_surrogate, low_surrogate in Hl. lia.
    + do 2 eexists. split; [done|]. split; [|done]. apply rune_EncodeRune.
      unfold high_surrogate, low_surrogate in Su. unfold scalar. lia.
  - destruct R as [|a b c d r X R|k r Ek R|b r Lo Nq Nb R]; [done| | |].
    + unfold getu4 in G. by rewrite X in G.
    + exists [Json.simple_unescape k], r. split; [unfold unquote1; by rewrite G|]. split; [by destruct k|]. split; [done|cbn; lia].
    + rewrite unquote1_char by done.
      destruct (Utf8.rune_size (b :: r)) as [n|] eqn:E; [|exists U_FFFD, r; split_and!; [done|done|done|cbn; lia]].
      destruct (Utf8.rune_size_split _ _ E) as (Ru & Sp & P). do 2 eexists. split; [done|]. split; [done|].
      split; [|rewrite length_drop; cbn [length]; lia].
      destruct (take n (b :: r)) as [|b' [|c p]] eqn:T; [done| |].
      * destruct n as [|[|n]]; [lia|done|]. by destruct r.
      * pose proof (wide_bytes _ _ _ Ru) as W. apply (raw_wide (b' :: c :: p)); [done|].
        rewrite <-Sp. by constructor.
Qed.

(** [unquote] of what the scanner accepts is valid UTF-8. *)
Lemma unquote_valid l : raw l -> Utf8.Valid (unquote l) = true.
Proof.
  unfold unquote. generalize (length l) at 1 as f. intros f. revert l.
  induction f as [|f IH]; intros l R; [done|]. destruct l as [|b l]; [done|]. cbn [unquote_upto].
  destruct (unquote1_raw (b :: l) R) as (w & r & -> & Rw & Rr & _); [done|].
  apply valid_rune_app; [done|]. by apply IH.
Qed.

(** ** Documents the scanner returns *)

Fixpoint texts_raw (v : json) : Prop :=
  match v with
  | JStr s => raw s
  | JArr vs => foldr (fun v P => texts_raw v /\ P) True vs
  | JObj ms => foldr (fun m P => (raw m.1 /\ texts_raw m.2) /\ P) True ms
  | _ => True
  end.

Lemma scan_texts f :
  (forall d l v t, scan_value f d l = Some (v, t) -> texts_raw v) /\
  (forall d l vs t, scan_elements f d l = Some (vs, t) -> foldr (fun v P => texts_raw v /\ P) True vs) /\
  (forall d l ms t, scan_members f d l = Some (ms, t) -> foldr (fun m P => (raw m.1 /\ texts_raw m.2) /\ P) True ms).
Proof.
  induction f as [|f (IV & IE & IM)]; [done|].
  assert (forall lit w l v t, scan_literal lit w l = Some (v, t) -> v = w) as Lit
    by (intros lit w l v t; unfold scan_literal; case_bool_decide; [by intros [= <- _]|done]).
  split_and!; intros d l v t E.
  - cbn [scan_value] in E. destruct (skip l) as [|b r]; [done|].
    destruct (start_of b); scan_cases; cbn [texts_raw]; try done; try by apply Lit in E as ->.
    + by eapply IM.
    + by eapply IE.
    + by eapply scan_string_sound.
  - cbn [scan_elements] in E. scan_cases. destruct (skip _); [done|]. scan_cases; cbn [foldr]; split_and!; try done;
      first [by eapply IV|by eapply IE].
  - cbn [scan_members] in E. destruct (skip l); [done|]. scan_cases. destruct (skip _); [done|]. scan_cases.
    destruct (skip _); [done|].
    scan_cases; cbn [foldr fst snd]; split_and!; try done;
      first [by eapply scan_string_sound|by eapply IV|by eapply IM].
Qed.

Lemma scan_texts_raw l v t : scan l = Some (v, t) -> texts_raw v.
Proof. apply scan_texts. Qed.
