(* ===== verification/TimeText.v ===== *)
(** * TimeText: [time.Time] as JSON

    [MarshalJSON] writes an instant in the zone it is shown in, [UnmarshalJSON]
    is [Parse(RFC3339, …)] as Go 1.24 runs it: with the leniencies it has (a
    comma before the fraction, an hour of one digit, offsets of 24 hours or 60
    minutes).  What is written is read back. *)
From S2P Require Import Prelude Codec JsonText GoTime JsonTree.

(** ** Writing *)

(** The date and the time of day of a number of nanoseconds. *)
Definition date_time (n : Z) : list byte :=
  let secs := n / Second in
  let '(y, m, d) := civil (secs / 86400) in
  let s := secs mod 86400 in
  year_text y ++ x2d :: Dec.padded 2 m ++ x2d :: Dec.padded 2 d ++
  x54 :: Dec.padded 2 (s / 3600) ++ x3a :: Dec.padded 2 (s / 60 mod 60) ++
  x3a :: Dec.padded 2 (s mod 60) ++ fraction_text (n mod Second).

(** The zone: [Z], or a sign, hours and minutes; seconds are dropped. *)
Definition zone_text (offset : Z) : list byte :=
  if offset =? 0 then [x5a]
  else let zone := Z.quot offset 60 in
    (if zone <? 0 then x2d else x2b) :: Dec.padded 2 (Z.abs zone / 60) ++ x3a :: Dec.padded 2 (Z.abs zone mod 60).

(** The instant as the clock of its own zone shows it. *)
Definition shown (t : Time) : Z := t_nano t + t_offset t * Second.

Definition local_year (t : Time) : Z := (civil (shown t / Second / 86400)).1.1.

(** [Time.MarshalJSON]: an error for a year RFC 3339 has no text for, or an
    offset of a day and more. *)
Definition MarshalTime (t : Time) : option (list byte) :=
  if (0 <=? local_year t) && (local_year t <=? 9999) && (Z.abs (Z.quot (t_offset t) 60) <? 1440)
  then Some (date_time (shown t) ++ zone_text (t_offset t)) else None.

(** ** Reading *)

Definition leap (y : Z) : bool := (y mod 4 =? 0) && (negb (y mod 100 =? 0) || (y mod 400 =? 0)).
Definition daysIn (m y : Z) : Z :=
  if m =? 2 then (if leap y then 29 else 28)
  else if (m =? 4) || (m =? 6) || (m =? 9) || (m =? 11) then 30 else 31.

Definition literal (b : byte) (l : list byte) : option (list byte) :=
  match l with c :: r => if Byte.eqb b c then Some r else None | [] => None end.

(** [getnum]: two digits, or one unless [fixed]. *)
Definition getnum (fixed : bool) (l : list byte) : option (Z * list byte) :=
  match l with
  | a :: r =>
      if negb (is_digit a) then None else
      match r with
      | b :: r' => if is_digit b then Some (Dec.undigit a * 10 + Dec.undigit b, r')
                   else if fixed then None else Some (Dec.undigit a, r)
      | [] => if fixed then None else Some (Dec.undigit a, r)
      end
  | [] => None
  end.

Definition getyear (l : list byte) : option (Z * list byte) :=
  if (4 <=? length l)%nat && forallb is_digit (take 4 l) then Some (Dec.value (take 4 l), drop 4 l) else None.

(** The fraction of a second, if there is one: at most nine digits count. *)
Definition getfraction (l : list byte) : Z * list byte :=
  match l with
  | c :: r =>
      if Byte.eqb c x2e || Byte.eqb c x2c then
        match span is_digit r with
        | ([], _) => (0, l)
        | (d, t) => (Dec.value (take 9 d) * 10 ^ (9 - Z.of_nat (length (take 9 d))), t)
        end
      else (0, l)
  | [] => (0, l)
  end.

Definition getzone (l : list byte) : option (Z * list byte) :=
  match l with
  | [] => None
  | c :: r =>
      if Byte.eqb c x5a then Some (0, r) else
      '(hr, r1) ← getnum true r;
      r2 ← literal x3a r1;
      '(mm, r3) ← getnum true r2;
      if (24 <? hr) || (60 <? mm) then None
      else if Byte.eqb c x2b then Some ((hr * 60 + mm) * 60, r3)
      else if Byte.eqb c x2d then Some (- ((hr * 60 + mm) * 60), r3) else None
  end.

(** [Parse(RFC3339, l)] *)
Definition ParseRFC3339 (l : list byte) : option Time :=
  '(y, l) ← getyear l; l ← literal x2d l;
  '(m, l) ← getnum true l; l ← literal x2d l;
  '(d, l) ← getnum true l; l ← literal x54 l;
  '(h, l) ← getnum false l; l ← literal x3a l;
  '(mi, l) ← getnum true l; l ← literal x3a l;
  '(s, l) ← getnum true l;
  let '(ns, l) := getfraction l in
  '(offset, l) ← getzone l;
  if (1 <=? m) && (m <=? 12) && (1 <=? d) && (d <=? daysIn m y)
     && (h <? 24) && (mi <? 60) && (s <? 60) && bool_decide (l = [])
  then Some {| t_nano := (civil_inverse y m d * 86400 + h * 3600 + mi * 60 + s - offset) * Second + ns;
               t_offset := offset |}
  else None.

(** [Time.UnmarshalJSON] of a string, the text between the quotes. *)
Definition UnmarshalTime : list byte -> option Time := ParseRFC3339.

(** ** What is written is read back *)

Lemma rfc3339nano_date_time t : rfc3339nano t = date_time (t_nano t) ++ [x5a].
Proof.
  unfold rfc3339nano, date_time. destruct (civil _) as [[y m] d].
  rewrite <-!(assoc_L (++)). cbn [app]. rewrite <-!(assoc_L (++)). cbn [app]. rewrite <-!(assoc_L (++)). cbn [app].
  rewrite <-!(assoc_L (++)). cbn [app]. rewrite <-!(assoc_L (++)). cbn [app]. by rewrite <-!(assoc_L (++)).
Qed.

Lemma literal_cons b l : literal b (b :: l) = Some l.
Proof. cbn. by destruct b. Qed.

Lemma getnum_padded fixed a t : 0 <= a < 100 -> getnum fixed (Dec.padded 2 a ++ t) = Some (a, t).
Proof.
  intros H. cbn [Dec.padded app getnum].
  rewrite !(proj1 (digit_dec _) (Dec.digit_is_digit _ (Dec.mod10 _))). cbn [negb].
  rewrite !Dec.undigit_digit by apply Dec.mod10. do 2 f_equal. div_lia.
Qed.

Lemma getyear_padded y t : 0 <= y <= 9999 -> getyear (Dec.padded 4 y ++ t) = Some (y, t).
Proof.
  intros H. unfold getyear. rewrite length_app, Dec.padded_length.
  rewrite take_app_length', drop_app_length' by by rewrite Dec.padded_length.
  assert (forallb is_digit (Dec.padded 4 y) = true) as ->.
  { apply List.forallb_forall. intros b I%list_elem_of_In. pose proof (Dec.padded_digits 4 y) as D.
    rewrite Forall_forall in D. by apply digit_dec, D. }
  rewrite Dec.value_padded, Z.mod_small by (cbn; lia). done.
Qed.

Lemma value_zeros d k : Dec.value (d ++ replicate k x30) = Dec.value d * 10 ^ Z.of_nat k.
Proof.
  induction k as [|k IH]; [rewrite app_nil_r; cbn; lia|].
  replace (d ++ replicate (S k) x30) with ((d ++ replicate k x30) ++ [x30])
    by (rewrite <-(assoc_L (++)), <-replicate_cons_app; done).
  rewrite Dec.value_snoc, IH. replace (Dec.undigit x30) with 0 by done.
  rewrite Nat2Z.inj_succ, Z.pow_succ_r by lia. lia.
Qed.

(** What may follow a fraction. *)
Definition zone_start (t : list byte) : Prop :=
  match t with b :: _ => is_digit b = false /\ b <> x2e /\ b <> x2c | [] => False end.

Lemma zone_text_start o : zone_start (zone_text o).
Proof. unfold zone_text. repeat case_match; done. Qed.

Lemma getfraction_text n t : 0 <= n < Second -> zone_start t -> getfraction (fraction_text n ++ t) = (n, t).
Proof.
  intros Hn Z. unfold fraction_text. destruct (trim_zeros_pad (Dec.padded 9 n)) as [k E].
  pose proof (f_equal Dec.value E) as V. rewrite value_zeros, Dec.value_padded, Z.mod_small in V by done.
  pose proof (f_equal length E) as L. rewrite length_app, length_replicate, Dec.padded_length in L.
  pose proof (Dec.padded_digits 9 n) as D. rewrite E in D. apply Forall_app in D as [D _].
  destruct (trim_zeros (Dec.padded 9 n)) as [|b d] eqn:T.
  - cbn [app]. cbn in V. unfold getfraction. destruct t as [|c t]; [done|]. destruct Z as (_ & N1 & N2).
    assert (Byte.eqb c x2e || Byte.eqb c x2c = false) as -> by (by destruct c). by rewrite V.
  - assert (span is_digit ((b :: d) ++ t) = (b :: d, t)) as Sp.
    { clear -D Z. induction D as [|c u Hc _ IH]; cbn [app].
      - destruct t as [|c t]; [done|]. cbn. by rewrite (proj1 Z).
      - cbn. by rewrite (proj1 (digit_dec c) Hc), IH. }
    unfold getfraction. cbn [app Byte.eqb orb] in *. change (Byte.eqb x2e x2e || Byte.eqb x2e x2c) with true.
    cbv iota. rewrite Sp. rewrite take_ge by (cbn in *; lia). f_equal.
    replace (9 - Z.of_nat (length (b :: d))) with (Z.of_nat k) by (cbn in *; lia). lia.
Qed.

Lemma getzone_text o : (exists k, o = k * 60) -> Z.abs (Z.quot o 60) < 1440 ->
  getzone (zone_text o) = Some (o, []).
Proof.
  intros [k ->] R. rewrite Z.quot_mul in R by lia. unfold zone_text. destruct (Z.eqb_spec (k * 60) 0) as [E|N].
  - by rewrite E.
  - rewrite Z.quot_mul by lia. unfold getzone.
    assert (Byte.eqb (if k <? 0 then x2d else x2b) x5a = false) as -> by (by destruct (k <? 0)).
    rewrite getnum_padded by div_lia. cbn [mbind option_bind]. rewrite literal_cons. cbn [mbind option_bind].
    rewrite <-(app_nil_r (Dec.padded 2 (Z.abs k mod 60))), getnum_padded by div_lia. cbn [mbind option_bind].
    assert ((24 <? Z.abs k / 60) || (60 <? Z.abs k mod 60) = false) as -> by div_lia.
    destruct (Z.ltb_spec k 0); cbn; do 2 f_equal; div_lia.
Qed.

(** *** The days of a month *)

Fixpoint all_from (n : nat) (z : Z) (f : Z -> bool) : bool :=
  match n with O => true | S k => f z && all_from k (z + 1) f end.

Lemma all_from_spec n f z : all_from n 0 f = true -> 0 <= z < Z.of_nat n -> f z = true.
Proof.
  assert (forall n a, all_from n a f = true -> a <= z < a + Z.of_nat n -> f z = true) as A.
  { clear n. intros n. induction n as [|n IH]; intros a E H; [lia|]. cbn in E.
    apply andb_true_iff in E as [E1 E2]. destruct (decide (a = z)) as [->|]; [done|]. apply (IH (a + 1)); [done|lia]. }
  intros E H. apply (A n 0 E). lia.
Qed.

Lemma leap_period y k : leap (y + k * 400) = leap y.
Proof.
  unfold leap. rewrite Z_mod_plus by lia.
  replace (y + k * 400) with (y + k * 4 * 100) at 2 by lia. rewrite Z_mod_plus by lia.
  replace (y + k * 400) with (y + k * 100 * 4) by lia. by rewrite Z_mod_plus by lia.
Qed.

(** A year of an era starts on its own first day. *)
Definition year_check (y : Z) : bool := year_of_era (days_before y) =? y.
Lemma year_checked : all_from 400 0 year_check = true.
Proof. reflexivity. Qed.

(** The month and the day of a day of a (shifted) year; only the 366th needs a leap year. *)
Definition day_check (doy : Z) : bool :=
  let mp := shifted_month doy in
  let d := doy - (153 * mp + 2) / 5 + 1 in
  let m := if mp <? 10 then mp + 3 else mp - 9 in
  (d <=? daysIn m 0) && ((d <=? daysIn m 1) || (doy =? 365)).
Lemma day_checked : all_from 366 0 day_check = true.
Proof. reflexivity. Qed.

Lemma daysIn_leap m y : daysIn m y = daysIn m (if leap y then 0 else 1).
Proof. unfold daysIn. by destruct (leap y). Qed.

Lemma last_day_leap doe (yoe := year_of_era doe) : 0 <= doe < 146097 -> doe - days_before yoe = 365 ->
  leap (yoe + 1) = true.
Proof.
  intros R E. destruct (year_of_era_range doe R) as [Y _]. fold yoe in Y.
  destruct (leap (yoe + 1)) eqn:L; [done|exfalso]. unfold leap in L.
  assert (yoe <> 399) as N9 by (intros ->; vm_compute in L; done).
  assert (days_before (yoe + 1) = doe) as Q.
  { unfold days_before in *. clear R. clearbody yoe.
    destruct (Z.eqb_spec ((yoe + 1) mod 4) 0), (Z.eqb_spec ((yoe + 1) mod 100) 0); try done; div_lia. }
  assert (0 <= yoe + 1 < Z.of_nat 400) as Rg.
  { change (Z.of_nat 400) with 400. lia. }
  pose proof (all_from_spec 400 _ (yoe + 1) year_checked Rg) as C. unfold year_check in C. rewrite Q in C.
  fold yoe in C. lia.
Qed.

Lemma civil_days z y m d : civil z = (y, m, d) -> d <= daysIn m y.
Proof.
  unfold civil. intros [= <- <- <-]. assert (0 <= day_of_era z < 146097) as R by (apply Z.mod_pos_bound; lia).
  destruct (year_of_era_range _ R) as [_ D]. 
  pose proof (all_from_spec 366 _ (day_of_era z - days_before (year_of_era (day_of_era z))) day_checked ltac:(lia)) as C.
  pose proof (last_day_leap _ R) as L. unfold day_check in C. rewrite daysIn_leap.
  revert D C L. generalize (day_of_era z) as doe, (era_of z) as era. intros doe era. cbv zeta.
  set (doy := doe - days_before (year_of_era doe)). set (mp := shifted_month doy). intros D C L.
  set (m := if mp <? 10 then mp + 3 else mp - 9) in *.
  replace (year_of_era doe + era * 400 + (if m <=? 2 then 1 else 0))
    with (year_of_era doe + (if m <=? 2 then 1 else 0) + era * 400) by lia.
  rewrite leap_period. apply andb_true_iff in C as [C0 C1].
  destruct (leap (year_of_era doe + (if m <=? 2 then 1 else 0))) eqn:Lp; [lia|]. apply orb_true_iff in C1 as [C1|C1]; [lia|].
  assert (doy = 365) as E by lia. assert (m = 2) as Em by (subst m mp; rewrite E; reflexivity).
  rewrite Em in Lp. cbn [Z.leb Z.compare Pos.compare Pos.compare_cont] in Lp. rewrite L in Lp by done. done.
Qed.

(** A time that [MarshalTime] writes with nothing lost: its year has a text
    and its offset is a number of minutes, less than a day. *)
Record writable (t : Time) : Prop := {
  wr_year : 0 <= local_year t <= 9999;
  wr_zone : exists k, t_offset t = k * 60;
  wr_day : Z.abs (Z.quot (t_offset t) 60) < 1440;
}.

Lemma MarshalTime_writable t : writable t -> MarshalTime t = Some (date_time (shown t) ++ zone_text (t_offset t)).
Proof. intros [[? ?] _ ?]. unfold MarshalTime. by rewrite !(proj2 (Z.leb_le _ _)), (proj2 (Z.ltb_lt _ _)). Qed.

Lemma parse_shown t : writable t -> ParseRFC3339 (date_time (shown t) ++ zone_text (t_offset t)) = Some t.
Proof.
  intros [Y Zo Zd]. unfold local_year in Y. unfold date_time, ParseRFC3339.
  destruct (civil (shown t / Second / 86400)) as [[y m] d] eqn:Ci. cbn [fst] in Y.
  pose proof (civil_range _ _ _ _ Ci) as [Rm Rd]. pose proof (civil_days _ _ _ _ Ci) as Rdd.
  pose proof (civil_inverse_civil _ _ _ _ Ci) as Inv.
  set (s := (shown t / Second) mod 86400). assert (0 <= s < 86400) as Rs by (apply Z.mod_pos_bound; lia).
  rewrite year_text_padded by done.
  repeat (rewrite <-(assoc_L (++)); cbn [app]).
  rewrite getyear_padded by done. cbn [mbind option_bind]. rewrite literal_cons. cbn [mbind option_bind].
  rewrite getnum_padded by lia. cbn [mbind option_bind]. rewrite literal_cons. cbn [mbind option_bind].
  rewrite getnum_padded by lia. cbn [mbind option_bind]. rewrite literal_cons. cbn [mbind option_bind].
  rewrite getnum_padded by div_lia. cbn [mbind option_bind]. rewrite literal_cons. cbn [mbind option_bind].
  rewrite getnum_padded by div_lia. cbn [mbind option_bind]. rewrite literal_cons. cbn [mbind option_bind].
  rewrite getnum_padded by div_lia. cbn [mbind option_bind].
  rewrite getfraction_text by (apply zone_text_start || apply Z.mod_pos_bound; done). cbv iota beta.
  rewrite getzone_text by done. cbn [mbind option_bind]. rewrite Inv.
  rewrite bool_decide_eq_true_2 by done.
  assert ((1 <=? m) && (m <=? 12) && (1 <=? d) && (d <=? daysIn m y) && (s / 3600 <? 24) && (s / 60 mod 60 <? 60)
    && (s mod 60 <? 60) && true = true) as -> by (rewrite !andb_true_iff; split_and!; div_lia).
  f_equal. destruct t as [n o]. cbn in *. f_equal. unfold shown in s. cbn in s. subst s. clear -n o. unfold shown. cbn.
  unfold Second. div_lia.
Qed.
