(* ===== verification/Sha256.v ===== *)
(** * Sha256: the digest of [crypto/sha256] (FIPS 180-4), executable

    [Sum256] on byte lists, checked against the published test vectors, and
    the interface [HashFunction] through which the other components use a
    digest: their theorems hold for every function with 32-byte results, and
    [go_sha256] is the instance the program runs with. *)
From S2P Require Import Prelude Codec.

Module Fips180.
Definition w32 (z : Z) : Z := Z.land z 4294967295.
Definition add32 (a b : Z) : Z := w32 (a + b).
Definition rotr (n x : Z) : Z := w32 (Z.lor (Z.shiftr x n) (Z.shiftl x (32 - n))).
Definition shr (n x : Z) : Z := Z.shiftr x n.
Definition not32 (x : Z) : Z := Z.lxor x 4294967295.

Definition Ch x y z := Z.lxor (Z.land x y) (Z.land (not32 x) z).
Definition Maj x y z := Z.lxor (Z.lxor (Z.land x y) (Z.land x z)) (Z.land y z).
Definition Sigma0 x := Z.lxor (Z.lxor (rotr 2 x) (rotr 13 x)) (rotr 22 x).
Definition Sigma1 x := Z.lxor (Z.lxor (rotr 6 x) (rotr 11 x)) (rotr 25 x).
Definition sigma0 x := Z.lxor (Z.lxor (rotr 7 x) (rotr 18 x)) (shr 3 x).
Definition sigma1 x := Z.lxor (Z.lxor (rotr 17 x) (rotr 19 x)) (shr 10 x).

(** The round constants and the initial state, by their definition in the
    standard: 32 bits of the fractional parts of the cube and square roots of
    the first primes. *)
Definition is_prime (n : nat) : bool := forallb (fun d => negb (n mod d =? 0)%nat) (seq 2 (n - 2)).
Definition primes : list Z := map Z.of_nat (List.filter is_prime (seq 2 310)).

(** The largest [r] with [r^3 <= z], bit by bit from bit [n - 1] down. *)
Fixpoint cube_root (n : nat) (r z : Z) : Z :=
  match n with
  | O => r
  | S n' => let c := r + 2 ^ Z.of_nat n' in cube_root n' (if c * c * c <=? z then c else r) z
  end.

Definition K : list Z :=
  Eval vm_compute in map (fun p => w32 (cube_root 40 0 (p * 2 ^ 96))) primes.

Definition state : Type := Z * Z * Z * Z * Z * Z * Z * Z.
Definition initial : state :=
  Eval vm_compute in
    match map (fun p => w32 (Z.sqrt (p * 2 ^ 64))) primes with
    | a :: b :: c :: d :: e :: f :: g :: h :: _ => (a, b, c, d, e, f, g, h)
    | _ => (0, 0, 0, 0, 0, 0, 0, 0)
    end.

Definition be32 (a b c d : byte) : Z :=
  ((byteZ a * 256 + byteZ b) * 256 + byteZ c) * 256 + byteZ d.
Definition be_bytes (n : nat) (v : Z) : list byte :=
  map (fun i => Zbyte (Z.shiftr v (8 * Z.of_nat i))) (rev (seq 0 n)).

(** One [1] bit, zeros, and the bit length on 64 bits, to a multiple of 64 bytes. *)
Definition pad (m : list byte) : list byte :=
  let n := Z.of_nat (length m) in
  m ++ x80 :: repeat x00 (Z.to_nat ((55 - n) mod 64)) ++ be_bytes 8 (8 * n).

Fixpoint words (l : list byte) : list Z :=
  match l with
  | a :: b :: c :: d :: r => be32 a b c d :: words r
  | _ => []
  end.

(** Sixty-four rounds over a 16-word window: the head is [W_t], and the word
    [W_(t+16)] enters at the back. *)
Definition next_word (w : list Z) : Z :=
  add32 (add32 (sigma1 (nth 14 w 0)) (nth 9 w 0)) (add32 (sigma0 (nth 1 w 0)) (nth 0 w 0)).

Definition round (st : state) (k w : Z) : state :=
  let '(a, b, c, d, e, f, g, h) := st in
  let t1 := add32 (add32 h (Sigma1 e)) (add32 (Ch e f g) (add32 k w)) in
  let t2 := add32 (Sigma0 a) (Maj a b c) in
  (add32 t1 t2, a, b, c, add32 d t1, e, f, g).

Fixpoint rounds (ks : list Z) (w : list Z) (st : state) : state :=
  match ks, w with
  | k :: ks', w0 :: w' => rounds ks' (w' ++ [next_word w]) (round st k w0)
  | _, _ => st
  end.

Definition add_state (s t : state) : state :=
  let '(a, b, c, d, e, f, g, h) := s in let '(a', b', c', d', e', f', g', h') := t in
  (add32 a a', add32 b b', add32 c c', add32 d d', add32 e e', add32 f f', add32 g g', add32 h h').

Fixpoint blocks (n : nat) (ws : list Z) (st : state) : state :=
  match n with
  | O => st
  | S n' => blocks n' (drop 16 ws) (add_state st (rounds K (take 16 ws) st))
  end.

Definition Sum256 (m : list byte) : list byte :=
  let ws := words (pad m) in
  let '(a, b, c, d, e, f, g, h) := blocks (length ws / 16)%nat ws initial in
  [a; b; c; d; e; f; g; h] ≫= be_bytes 4.

Lemma Sum256_length m : length (Sum256 m) = 32%nat.
Proof. unfold Sum256. by destruct (blocks _ _ _) as [[[[[[[a b] c] d] e] f] g] h]. Qed.

Example vector_empty : Hex.EncodeToString (Sum256 []) =
  "e3b0c44298fc1c149afbf4c8996fb92427ae41e4649b934ca495991b7852b855"%string.
Proof. vm_compute. reflexivity. Qed.
Example vector_abc : Hex.EncodeToString (Sum256 (bytes "abc")) =
  "ba7816bf8f01cfea414140de5dae2223b00361a396177a9cb410ff61f20015ad"%string.
Proof. vm_compute. reflexivity. Qed.
Example vector_two_blocks :
  Hex.EncodeToString (Sum256 (bytes "abcdbcdecdefdefgefghfghighijhijkijkljklmklmnlmnomnopnopq")) =
  "248d6a61d20638b8e5c026930c3e6039a33ce45964ff2167f6ecedd419db06c1"%string.
Proof. vm_compute. reflexivity. Qed.
End Fips180.

(** ** The digest as an interface *)

Class HashFunction := {
  Sum256 : list byte -> list byte;
  Sum256_length : forall m, length (Sum256 m) = 32%nat;
}.

#[global] Instance go_sha256 : HashFunction :=
  { Sum256 := Fips180.Sum256; Sum256_length := Fips180.Sum256_length }.

(** [hex.EncodeToString(sum[:])] of the digest of some bytes. *)
Definition hexdigest `{HashFunction} (m : list byte) : string := Hex.EncodeToString (Sum256 m).

(** Two different inputs with one digest. *)
Definition collision `{HashFunction} (x y : list byte) : Prop := x <> y /\ Sum256 x = Sum256 y.

(** Among the byte strings in [l] there is a collision. *)
Definition collides `{HashFunction} (l : list (list byte)) : Prop :=
  exists x y, x ∈ l /\ y ∈ l /\ collision x y.

Section Digest.
Context `{HashFunction}.

Lemma hexdigest_length m : length (bytes (hexdigest m)) = 64%nat.
Proof. unfold hexdigest, Hex.EncodeToString. by rewrite bytes_text, Hex.encode_length, Sum256_length. Qed.

(** Equal digests: equal inputs, or a collision in any list holding both. *)
Lemma hexdigest_eq l x y :
  hexdigest x = hexdigest y -> x ∈ l -> y ∈ l -> x = y \/ collides l.
Proof.
  intros E Hx Hy. unfold hexdigest in E. apply (inj Hex.EncodeToString) in E.
  destruct (decide (x = y)) as [|N]; [by left|right]. by exists x, y.
Qed.

Lemma collides_mono l k : l ⊆ k -> collides l -> collides k.
Proof. intros S (x & y & Hx & Hy & C). exists x, y. auto. Qed.
End Digest.
#[export] Hint Resolve collides_mono : messenger.
