(* ===== verification/Models.v ===== *)
(** * Models: messages, log entries and snapshots ([internal/models])

    The data types of [message.go] and [id.go], the canonical signing payload
    and the chained entry hash, with what each binds: the payload determines
    every signed field, and the entry hash the sequence, the previous hash,
    the message and the signature, unless two hashed inputs collide. *)
From stdpp Require Import sorting.
From S2P Require Import Prelude Codec JsonText GoTime Sha256.

Definition GenesisHash : string :=
  "0000000000000000000000000000000000000000000000000000000000000000"%string.
Definition SnapshotInterval : Z := 100.
Definition ContentTypeText : string := "text/plain"%string.
Definition CurrentSchemaVersion : Z := 1.

Record SignedMessage := {
  SchemaVersion : Z;
  MessageID : string;
  ChatID : string;
  SenderID : string;
  Content : list byte;
  ContentType : string;
  Filename : string;
  Encrypted : bool;
  Timestamp : Time;
  PublicKey : list byte;
  Signature : list byte;
}.

#[global] Instance SignedMessage_eq_dec : EqDecision SignedMessage.
Proof. solve_decision. Defined.

(** [NewMessageID]: the 16 bytes [rand.Read] filled in, in hexadecimal. *)
Definition NewMessageID (b : list byte) : string := Hex.EncodeToString b.

(** [NewMessage]; [b] are the random bytes of the identifier, [now] is
    [time.Now()].  The signature is left empty. *)
Definition NewMessage (b : list byte) (now : Time) (chatID senderID : string)
    (publicKey content : list byte) (contentType filename : string) (encrypted : bool)
    : SignedMessage := {|
  SchemaVersion := CurrentSchemaVersion;
  MessageID := NewMessageID b;
  ChatID := chatID;
  SenderID := senderID;
  Content := content;
  ContentType := contentType;
  Filename := filename;
  Encrypted := encrypted;
  Timestamp := Truncate (UTC now) Millisecond;
  PublicKey := publicKey;
  Signature := [];
|}.

(** The map literal [payload] of [SigningPayload]. *)
Definition payload (m : SignedMessage) : list (string * string) := [
  ("schema_version", Dec.Itoa (SchemaVersion m));
  ("message_id", MessageID m);
  ("chat_id", ChatID m);
  ("sender_id", SenderID m);
  ("content", Base64.EncodeToString (Content m));
  ("content_type", ContentType m);
  ("filename", Filename m);
  ("encrypted", if Encrypted m then "true" else "false");
  ("timestamp", FormatRFC3339Nano (UTC (Timestamp m)));
  ("public_key", Base64.EncodeToString (PublicKey m))
]%string.

Definition SigningPayload (m : SignedMessage) : list byte := Json.Marshal (payload m).

Record LogEntry := {
  Sequence : Z;
  Message : SignedMessage;
  PrevHash : string;
  EntryHash : string;
}.

#[global] Instance LogEntry_eq_dec : EqDecision LogEntry.
Proof. solve_decision. Defined.

(** [formatUint]: digits are stored from the end of a 20-byte buffer.  The
    write [buf[-1]] would panic; more than [fuel] turns would be a loop that
    does not end. *)
Fixpoint formatUint_loop (fuel : nat) (buf : list byte) (i : nat) (v : Z)
    : outcome (list byte * nat) :=
  if 0 <? v then
    match fuel, i with
    | O, _ => Block
    | _, O => Panic "index out of range"
    | S f, S i' => formatUint_loop f (<[i' := Dec.digit (v mod 10)]> buf) i' (v / 10)
    end
  else Ok (buf, i).

Definition formatUint (v : Z) : outcome string :=
  if v =? 0 then Ok "0"%string
  else '(buf, i) ← formatUint_loop 20 (replicate 20 x00) 20 v; Ok (text (drop i buf)).

(** The string [formatUint] returns; [formatUint_total] shows it always does. *)
Definition formatUintS (v : Z) : string :=
  match formatUint v with Ok s => s | _ => ""%string end.

(** The two byte strings [ComputeHash] hashes, and the hash. *)
Definition message_bytes (e : LogEntry) : list byte :=
  SigningPayload (Message e) ++ Signature (Message e).

Definition chained_bytes `{HashFunction} (e : LogEntry) : list byte :=
  bytes (formatUintS (Sequence e) ++ ":" ++
         (PrevHash e ++ ":" ++ hexdigest (message_bytes e)))%string.

Definition ComputeHash `{HashFunction} (e : LogEntry) : string := hexdigest (chained_bytes e).

Record MerkleSnapshot := {
  snap_ChatID : string;
  SnapshotIndex : Z;
  FromSequence : Z;
  ToSequence : Z;
  MerkleRoot : string;
  LastEntryHash : string;
  CreatedAt : Time;
}.

#[global] Instance MerkleSnapshot_eq_dec : EqDecision MerkleSnapshot.
Proof. solve_decision. Defined.

(** ** [formatUint] is the decimal form, and stays inside its buffer *)

Lemma drop_store {A} (l : list A) i x : (i < length l)%nat ->
  drop i (<[i := x]> l) = x :: drop (S i) l.
Proof.
  intros H. rewrite (drop_S _ x) by by apply list_lookup_insert_eq.
  f_equal. apply drop_insert_lt. lia.
Qed.

Lemma formatUint_loop_spec f : forall buf i v,
  0 < v < 10 ^ Z.of_nat i -> (i <= f)%nat -> (i <= length buf)%nat ->
  exists buf' i', formatUint_loop f buf i v = Ok (buf', i') /\
    drop i' buf' = Dec.decimal v ++ drop i buf.
Proof.
  induction f as [|f IH]; intros buf i v Hv Hf Hb;
    (destruct i as [|i]; [cbn in Hv; lia|]); [lia|].
  cbn [formatUint_loop]. rewrite (proj2 (Z.ltb_lt 0 v)) by lia.
  assert (drop i (<[i := Dec.digit (v mod 10)]> buf) = Dec.digit (v mod 10) :: drop (S i) buf)
    as D by (apply drop_store; lia).
  destruct (Z.ltb_spec v 10) as [Lt|L].
  - rewrite Z.div_small by lia. eexists _, i. split; [by destruct f|].
    rewrite D, Dec.decimal_small, Z.mod_small by lia. done.
  - rewrite Nat2Z.inj_succ, Z.pow_succ_r in Hv by lia.
    destruct (IH (<[i := Dec.digit (v mod 10)]> buf) i (v / 10)) as (buf' & i' & E & Q).
    + split; [apply Z.div_str_pos; lia|apply Z.div_lt_upper_bound; lia].
    + lia.
    + rewrite length_insert. lia.
    + exists buf', i'. split; [done|].
      rewrite Q, D, (Dec.decimal_step v), <-(assoc_L (++)) by done. done.
Qed.

(** C: [formatUint] writes the decimal digits of every [uint64]; no index
    leaves the 20-byte buffer and the loop ends. *)
Lemma formatUint_total v : is_u64 v -> formatUint v = Ok (text (Dec.decimal v)).
Proof.
  intros [H0 H]. unfold formatUint. destruct (Z.eqb_spec v 0) as [->|N]; [done|].
  destruct (formatUint_loop_spec 20 (replicate 20 x00) 20 v) as (buf & i & E & D).
  - split; [lia|]. eapply Z.lt_trans; [exact H|]. done.
  - done.
  - by rewrite length_replicate.
  - rewrite E. cbn [mbind outcome_bind]. rewrite D, drop_replicate. cbn [Nat.sub replicate]. by rewrite app_nil_r.
Qed.

Lemma formatUintS_decimal v : is_u64 v -> bytes (formatUintS v) = Dec.decimal v.
Proof. intros H. unfold formatUintS. by rewrite formatUint_total, bytes_text. Qed.

(** ** The signing payload *)

(** Messages that agree on everything a signature covers: the time only as an
    instant, whatever the location it is shown in. *)
Record same_signed (m n : SignedMessage) : Prop := {
  same_SchemaVersion : SchemaVersion m = SchemaVersion n;
  same_MessageID : MessageID m = MessageID n;
  same_ChatID : ChatID m = ChatID n;
  same_SenderID : SenderID m = SenderID n;
  same_Content : Content m = Content n;
  same_ContentType : ContentType m = ContentType n;
  same_Filename : Filename m = Filename n;
  same_Encrypted : Encrypted m = Encrypted n;
  same_Timestamp : t_nano (Timestamp m) = t_nano (Timestamp n);
  same_PublicKey : PublicKey m = PublicKey n;
}.

#[export] Instance same_signed_equivalence : Equivalence same_signed.
Proof.
  split.
  - by intros m.
  - intros m n []. by split.
  - intros m n k [] []. split; congruence.
Qed.

(** What the canonical form needs to be unambiguous: text fields in UTF-8
    (JSON writes one replacement for any invalid byte) and a year RFC 3339
    can express. *)
Record well_formed (m : SignedMessage) : Prop := {
  wf_MessageID : Utf8.ValidString (MessageID m) = true;
  wf_ChatID : Utf8.ValidString (ChatID m) = true;
  wf_SenderID : Utf8.ValidString (SenderID m) = true;
  wf_ContentType : Utf8.ValidString (ContentType m) = true;
  wf_Filename : Utf8.ValidString (Filename m) = true;
  wf_Timestamp : rfc3339_year (Timestamp m);
}.

#[global] Instance rfc3339_year_dec t : Decision (rfc3339_year t).
Proof. unfold rfc3339_year. apply _. Defined.

Definition well_formed_b (m : SignedMessage) : bool :=
  Utf8.ValidString (MessageID m) && Utf8.ValidString (ChatID m) &&
  Utf8.ValidString (SenderID m) && Utf8.ValidString (ContentType m) &&
  Utf8.ValidString (Filename m) && bool_decide (rfc3339_year (Timestamp m)).

Lemma well_formed_b_ok m : well_formed_b m = true -> well_formed m.
Proof.
  unfold well_formed_b. rewrite !andb_true_iff, bool_decide_eq_true.
  intros [[[[[? ?] ?] ?] ?] ?]. by split.
Qed.

#[export] Instance SigningPayload_proper : Proper (same_signed ==> (=)) SigningPayload.
Proof.
  intros m n E. unfold SigningPayload, payload, UTC.
  by rewrite (same_SchemaVersion _ _ E), (same_MessageID _ _ E), (same_ChatID _ _ E),
    (same_SenderID _ _ E), (same_Content _ _ E), (same_ContentType _ _ E), (same_Filename _ _ E),
    (same_Encrypted _ _ E), (same_Timestamp _ _ E), (same_PublicKey _ _ E).
Qed.


(** The entries in the order [json.Marshal] writes them. *)
Definition sorted_payload (m : SignedMessage) : list (string * string) := [
  ("chat_id", ChatID m);
  ("content", Base64.EncodeToString (Content m));
  ("content_type", ContentType m);
  ("encrypted", if Encrypted m then "true" else "false");
  ("filename", Filename m);
  ("message_id", MessageID m);
  ("public_key", Base64.EncodeToString (PublicKey m));
  ("schema_version", Dec.Itoa (SchemaVersion m));
  ("sender_id", SenderID m);
  ("timestamp", FormatRFC3339Nano (UTC (Timestamp m)))
]%string.

Lemma payload_sorted m : merge_sort Json.key_le (payload m) = sorted_payload m.
Proof.
  unfold payload, sorted_payload.
  generalize (Dec.Itoa (SchemaVersion m)) as v0, (Base64.EncodeToString (Content m)) as v1,
    (Base64.EncodeToString (PublicKey m)) as v2, (FormatRFC3339Nano (UTC (Timestamp m))) as v3,
    (if Encrypted m then "true" else "false")%string as v4, (ChatID m) as v5, (ContentType m) as v6,
    (Filename m) as v7, (MessageID m) as v8, (SenderID m) as v9.
  intros. vm_compute. reflexivity.
Qed.

(** *** The values are valid UTF-8 *)

Definition ascii (b : byte) : Prop := byteZ b < 128.

Lemma ascii_string l : Forall ascii l -> Utf8.ValidString (text l) = true.
Proof. intros F. unfold Utf8.ValidString. rewrite bytes_text. by apply Utf8.ascii_valid. Qed.

Lemma digits_ascii l : Forall Dec.is_digit l -> Forall ascii l.
Proof. intros F. eapply Forall_impl; [done|]. unfold Dec.is_digit, ascii. intros; cbn in *; lia. Qed.

Lemma Zbyte_ascii z : 0 <= z < 128 -> ascii (Zbyte z).
Proof. intros. unfold ascii. rewrite byteZ_Zbyte, Z.mod_small; lia. Qed.

Lemma alphabet_ascii n : 0 <= n < 64 -> ascii (Base64.alphabet n).
Proof. intros. apply Zbyte_ascii. repeat case_match; lia. Qed.

Lemma base64_ascii l : Forall ascii (Base64.encode l).
Proof.
  assert (forall n k, length k = n -> Forall ascii (Base64.encode k)) as A; [|by eapply A].
  intros n. induction (lt_wf n) as [n _ IH]. intros k Hk.
  assert (ascii Base64.pad) by done.
  destruct k as [|a [|b [|c r]]]; cbn [Base64.encode];
    repeat (constructor || (apply alphabet_ascii; Base64.sextets; Z.div_mod_to_equations; lia));
    try done.
  eapply IH; [|done]. subst n; cbn; lia.
Qed.

Lemma rfc3339nano_ascii t : rfc3339_year t -> Forall ascii (rfc3339nano t).
Proof.
  unfold rfc3339_year, Year, rfc3339nano. intros Y.
  destruct (civil (t_nano t / Second / 86400)) as [[y m] d]. cbn in Y.
  rewrite year_text_padded by done.
  assert (forall w v, Forall ascii (Dec.padded w v)) as P
    by (intros; apply digits_ascii, Dec.padded_digits).
  assert (Forall ascii (fraction_text (t_nano t mod Second))) as Fr.
  { unfold fraction_text. specialize (P 9%nat (t_nano t mod Second)).
    destruct (trim_zeros_pad (Dec.padded 9 (t_nano t mod Second))) as [k E].
    rewrite E, Forall_app in P. destruct P as [P _]. by case_match; [|constructor]. }
  repeat rewrite ?Forall_app, ?Forall_cons. repeat split; auto.
Qed.

Lemma Itoa_ascii v : Utf8.ValidString (Dec.Itoa v) = true.
Proof.
  unfold Dec.Itoa. case_match; apply ascii_string; [constructor; [done|]|];
    apply digits_ascii, Dec.decimal_digits.
Qed.

Lemma sorted_payload_valid m : well_formed m -> Forall Json.valid_entry (sorted_payload m).
Proof.
  intros [W1 W2 W3 W4 W5 W6]. unfold sorted_payload, Json.valid_entry.
  repeat (constructor; [cbn [fst snd]; split; [done|try done]|]).
  - apply ascii_string, base64_ascii.
  - by destruct (Encrypted m).
  - apply ascii_string, base64_ascii.
  - apply Itoa_ascii.
  - by apply ascii_string, rfc3339nano_ascii.
  - constructor.
Qed.

(** Payload and whatever follows it can be told apart, and the payload
    determines the signed fields. *)
Lemma SigningPayload_split m n x y : well_formed m -> well_formed n ->
  SigningPayload m ++ x = SigningPayload n ++ y -> same_signed m n /\ x = y.
Proof.
  intros Wm Wn E. unfold SigningPayload, Json.Marshal in E. rewrite !payload_sorted in E.
  cbn [app] in E. apply (inj (cons x7b)) in E. rewrite <-!(assoc_L (++)) in E. cbn [app] in E.
  apply Json.members_split in E as [E Exy]; [|by apply sorted_payload_valid..|done].
  split; [|by apply (inj (cons x7d)) in Exy]. clear Exy. unfold sorted_payload in E. injection E as E0 E1 E2 E3 E4 E5 E6 E7 E8 E9.
  split; try done.
  - by apply (inj Dec.Itoa).
  - by apply (inj Base64.EncodeToString).
  - by destruct (Encrypted m), (Encrypted n).
  - apply (inj text) in E9. apply rfc3339nano_inj in E9; [done|apply Wm|apply Wn].
  - by apply (inj Base64.EncodeToString).
Qed.

(** ** The entry hash *)

Section EntryHash.
Context `{HashFunction}.

(** Entries that agree on everything [ComputeHash] covers. *)
Record same_entry (e f : LogEntry) : Prop := {
  same_Sequence : Sequence e = Sequence f;
  same_PrevHash : PrevHash e = PrevHash f;
  same_Message : same_signed (Message e) (Message f);
  same_Signature : Signature (Message e) = Signature (Message f);
}.

#[export] Instance same_entry_equivalence : Equivalence same_entry.
Proof.
  split.
  - by intros e.
  - intros e f []. by split.
  - intros e f g [] []. split; by etrans.
Qed.

#[export] Instance ComputeHash_proper : Proper (same_entry ==> (=)) ComputeHash.
Proof.
  intros e f []. unfold ComputeHash, chained_bytes, message_bytes.
  rewrite (SigningPayload_proper _ _ same_Message0). congruence.
Qed.

(** The byte strings hashed to obtain an entry's hash. *)
Definition hashed_bytes (e : LogEntry) : list (list byte) := [message_bytes e; chained_bytes e].

Lemma chained_bytes_eq e : is_u64 (Sequence e) ->
  chained_bytes e = Dec.decimal (Sequence e) ++ x3a ::
    (bytes (PrevHash e) ++ x3a :: bytes (hexdigest (message_bytes e))).
Proof.
  intros U. unfold chained_bytes. rewrite !bytes_app, formatUintS_decimal by done. done.
Qed.

Lemma colon_not_digit v : x3a ∉ Dec.decimal v.
Proof. apply Dec.digits_avoid; [apply Dec.decimal_digits|by apply Dec.not_digit]. Qed.

Lemma chained_bytes_split e f : is_u64 (Sequence e) -> is_u64 (Sequence f) ->
  chained_bytes e = chained_bytes f ->
  Sequence e = Sequence f /\ PrevHash e = PrevHash f /\
  hexdigest (message_bytes e) = hexdigest (message_bytes f).
Proof.
  intros Ue Uf E. rewrite !chained_bytes_eq in E by done.
  apply app_split_at in E as [E1 E]; [|apply colon_not_digit..].
  apply app_split_r in E as [E2 E3]; [|cbn; by rewrite !hexdigest_length].
  apply (inj (cons x3a)), (inj bytes) in E3. apply (inj bytes) in E2.
  apply Dec.decimal_inj in E1; [done|apply Ue|apply Uf].
Qed.

Lemma hashed_message e : message_bytes e ∈ hashed_bytes e.
Proof. left. Qed.
Lemma hashed_chained e : chained_bytes e ∈ hashed_bytes e.
Proof. right. left. Qed.

Lemma ComputeHash_binds_in l e f :
  well_formed (Message e) -> well_formed (Message f) ->
  is_u64 (Sequence e) -> is_u64 (Sequence f) ->
  hashed_bytes e ⊆ l -> hashed_bytes f ⊆ l ->
  ComputeHash e = ComputeHash f -> same_entry e f \/ collides l.
Proof.
  intros We Wf Ue Uf Se Sf E.
  apply (hexdigest_eq l) in E as [E|]; [|by right|apply Se, hashed_chained|apply Sf, hashed_chained].
  apply chained_bytes_split in E as (Es & Ep & E); [|done..].
  apply (hexdigest_eq l) in E as [E|]; [|by right|apply Se, hashed_message|apply Sf, hashed_message].
  unfold message_bytes in E. apply SigningPayload_split in E as [Em Eg]; [|done..]. by left.
Qed.
End EntryHash.

(** ** The properties *)

(** C29: a signature binds every signed field.  On messages whose text fields
    are valid UTF-8 and whose year RFC 3339 can express, the canonical signing
    payloads are equal exactly when the messages agree on every field but the
    signature, the timestamp being compared as an instant. *)
Theorem signing_payload_binds m n : well_formed m -> well_formed n ->
  SigningPayload m = SigningPayload n <-> same_signed m n.
Proof.
  intros Wm Wn. split; [|apply SigningPayload_proper]. intros E.
  apply (SigningPayload_split m n [] []); [done|done|]. by rewrite E.
Qed.

(** The payload does not depend on the iteration order of the Go map it is
    marshalled from: any order of its ten entries gives the same bytes. *)
Theorem signing_payload_order m l : l ≡ₚ payload m -> Json.Marshal l = SigningPayload m.
Proof.
  intros P. apply Json.Marshal_perm; [|done]. rewrite P.
  change (payload m).*1 with (payload {|
    SchemaVersion := 0; MessageID := ""; ChatID := ""; SenderID := ""; Content := []; ContentType := "";
    Filename := ""; Encrypted := false; Timestamp := UTC (Truncate {| t_nano := 0; t_offset := 0 |} 1);
    PublicKey := []; Signature := [] |}).*1.
  apply (bool_decide_unpack _). vm_compute. exact I.
Qed.

(** C30: the entry hash binds the entry.  Two entries with well-formed messages
    and 64-bit sequences have the same [ComputeHash] exactly when they agree on
    sequence, previous hash, every signed field and the signature, unless the
    four byte strings hashed contain a collision. *)
Theorem entry_hash_binds `{HashFunction} e f :
  well_formed (Message e) -> well_formed (Message f) -> is_u64 (Sequence e) -> is_u64 (Sequence f) ->
  (same_entry e f -> ComputeHash e = ComputeHash f) /\
  (ComputeHash e = ComputeHash f -> same_entry e f \/ collides (hashed_bytes e ++ hashed_bytes f)).
Proof.
  intros We Wf Ue Uf. split; [apply ComputeHash_proper|].
  apply ComputeHash_binds_in; try done; [by apply list_subseteq_app_l|by apply list_subseteq_app_r].
Qed.

(** [formatUint] terminates inside its 20-byte buffer on every [uint64],
    and what it writes reads back as the number: at least one and at most
    twenty decimal digits. *)
Theorem format_uint_roundtrip v : is_u64 v ->
  exists s, formatUint v = Ok s /\ Dec.value (bytes s) = v /\ Forall Dec.is_digit (bytes s) /\
    (length (bytes s) <= 20)%nat.
Proof.
  intros U. exists (text (Dec.decimal v)). rewrite bytes_text. split_and!.
  - by apply formatUint_total.
  - apply Dec.value_decimal, U.
  - apply Dec.decimal_digits.
  - apply Dec.decimal_length; [lia|]. split; [apply U|]. eapply Z.lt_trans; [apply U|done].
Qed.

(** [NewMessage] makes an unsigned message of the current schema version
    whose timestamp is UTC, on a whole millisecond, at most one millisecond
    before [now]; truncating it to milliseconds again, as a store that keeps
    milliseconds does, gives the same time back. *)
Theorem new_message_timestamp b now chat sender key content ctype file enc
    (m := NewMessage b now chat sender key content ctype file enc) :
  SchemaVersion m = CurrentSchemaVersion /\ Signature m = [] /\ t_offset (Timestamp m) = 0 /\
  0 <= t_nano now - t_nano (Timestamp m) < Millisecond /\
  t_nano (Timestamp m) mod Millisecond = 0 /\
  Truncate (Timestamp m) Millisecond = Timestamp m.
Proof.
  split_and!; try done; unfold m, NewMessage, Truncate, UTC; cbn [Timestamp t_nano t_offset];
    change (Millisecond <=? 0) with false; cbn [t_nano t_offset]; unfold Millisecond, zero_nano, Second.
  - div_lia.
  - div_lia.
  - div_lia.
  - f_equal. div_lia.
Qed.

(** ** Concrete inputs *)

Module ModelSample.
Definition noon : Time := {| t_nano := 1709251199123000000; t_offset := 0 |}.
Definition hello : SignedMessage := {|
  SchemaVersion := 1; MessageID := NewMessageID (replicate 16 x01); ChatID := "c1"; SenderID := "alice";
  Content := bytes "hello"; ContentType := ContentTypeText; Filename := ""; Encrypted := false;
  Timestamp := noon; PublicKey := replicate 32 x41; Signature := [] |}.
(** The same message with its time shown two hours east. *)
Definition hello_east : SignedMessage := {|
  SchemaVersion := 1; MessageID := NewMessageID (replicate 16 x01); ChatID := "c1"; SenderID := "alice";
  Content := bytes "hello"; ContentType := ContentTypeText; Filename := ""; Encrypted := false;
  Timestamp := {| t_nano := 1709251199123000000; t_offset := 7200 |};
  PublicKey := replicate 32 x41; Signature := [] |}.
Definition twelfth : LogEntry :=
  {| Sequence := 12; Message := hello; PrevHash := GenesisHash; EntryHash := "" |}.

Lemma hello_well_formed : well_formed hello.
Proof. apply well_formed_b_ok. vm_compute. reflexivity. Qed.
Lemma hello_east_well_formed : well_formed hello_east.
Proof. apply well_formed_b_ok. vm_compute. reflexivity. Qed.

(** The value Go computes for this entry. *)
Example twelfth_hash : ComputeHash twelfth =
  "d72da0525c4bbf7bde4d968659b0b63dc225911e6ff6d5962ef4adb4ff50e620"%string.
Proof. vm_compute. reflexivity. Qed.
End ModelSample.

Lemma signing_payload_binds_witness :
  SigningPayload ModelSample.hello = SigningPayload ModelSample.hello_east <->
  same_signed ModelSample.hello ModelSample.hello_east.
Proof.
  exact (signing_payload_binds _ _ ModelSample.hello_well_formed ModelSample.hello_east_well_formed).
Defined.

Lemma signing_payload_order_witness :
  Json.Marshal (reverse (payload ModelSample.hello)) = SigningPayload ModelSample.hello.
Proof. apply (signing_payload_order ModelSample.hello). apply reverse_Permutation. Defined.

Lemma entry_hash_binds_witness : is_u64 12 /\
  (ComputeHash ModelSample.twelfth = ComputeHash ModelSample.twelfth ->
   same_entry ModelSample.twelfth ModelSample.twelfth \/
   collides (hashed_bytes ModelSample.twelfth ++ hashed_bytes ModelSample.twelfth)).
Proof.
  assert (is_u64 12) as U by (unfold is_u64; lia). split; [exact U|].
  exact (proj2 (entry_hash_binds ModelSample.twelfth ModelSample.twelfth
    ModelSample.hello_well_formed ModelSample.hello_well_formed U U)).
Defined.

Lemma format_uint_roundtrip_witness :
  exists s, formatUint 18446744073709551615 = Ok s /\ Dec.value (bytes s) = 18446744073709551615.
Proof.
  destruct (format_uint_roundtrip 18446744073709551615) as (s & E & V & _); [unfold is_u64; lia|].
  exists s. split; [exact E|exact V].
Defined.
