(* ===== verification/Merkle.v ===== *)
(** * Merkle: roots and inclusion proofs ([internal/merkle/tree.go])

    [Root], [Proof] and [VerifyProof] with their loops, and what they
    guarantee: the loops end, a produced proof verifies against the root, an
    accepted proof of the right length proves membership, and the root
    determines the leaves of a given number, each unless two hashed inputs
    collide.  The duplication of the last node of an odd layer, and a
    concatenation without lengths, are shown to matter. *)
From S2P Require Import Prelude Codec Sha256.

Record ProofNode := { Hash : string; IsLeft : bool }.

#[global] Instance ProofNode_eq_dec : EqDecision ProofNode.
Proof. solve_decision. Defined.

Section Tree.
Context `{HashFunction}.

Definition hashPair (left right : string) : string := hexdigest (bytes (left ++ right)%string).

(** [layer = append(layer, layer[len(layer)-1])] for an odd layer. *)
Definition pad_layer (layer : list string) : list string :=
  if Nat.odd (length layer)
  then match last layer with Some x => layer ++ [x] | None => layer end
  else layer.

(** [next]: the hashes of the pairs [layer[i], layer[i+1]]. *)
Fixpoint hash_pairs (layer : list string) : list string :=
  match layer with
  | a :: b :: r => hashPair a b :: hash_pairs r
  | _ => []
  end.

Definition next_layer (layer : list string) : list string := hash_pairs (pad_layer layer).

(** The loop of [Root]; [Block] is a loop that has not ended. *)
Fixpoint root_loop (fuel : nat) (layer : list string) : outcome string :=
  if (1 <? length layer)%nat then
    match fuel with
    | O => Block
    | S f => root_loop f (next_layer layer)
    end
  else match layer with x :: _ => Ok x | [] => Panic "index out of range" end.

Definition RootRun (leaves : list string) : outcome string :=
  match leaves with
  | [] => Ok ""%string
  | _ => root_loop (length leaves) leaves
  end.

(** The string [Root] returns; [RootRun_total] shows it always does. *)
Definition Root (leaves : list string) : string :=
  match RootRun leaves with Ok r => r | _ => ""%string end.

(** The loop of [Proof]: the sibling of the running index, then one layer up. *)
Fixpoint proof_loop (fuel : nat) (layer : list string) (idx : nat) (proof : list ProofNode)
    : outcome (list ProofNode * string) :=
  if (1 <? length layer)%nat then
    match fuel with
    | O => Block
    | S f =>
        let padded := pad_layer layer in
        let '(sibling, on_left) := if Nat.even idx then (S idx, false) else (pred idx, true) in
        match padded !! sibling with
        | Some h => proof_loop f (hash_pairs padded) (idx / 2)
                      (proof ++ [{| Hash := h; IsLeft := on_left |}])
        | None => Panic "index out of range"
        end
    end
  else match layer with x :: _ => Ok (proof, x) | [] => Panic "index out of range" end.

Definition ProofRun (leaves : list string) (index : Z) : outcome (list ProofNode * string) :=
  if (index <? 0) || (Z.of_nat (length leaves) <=? index) then Ok ([], ""%string)
  else proof_loop (length leaves) leaves (Z.to_nat index) [].

Definition Proof (leaves : list string) (index : Z) : list ProofNode * string :=
  match ProofRun leaves index with Ok r => r | _ => ([], ""%string) end.

(** One turn of the loop of [VerifyProof], and the whole of it. *)
Definition combine (running : string) (node : ProofNode) : string :=
  if IsLeft node then hashPair (Hash node) running else hashPair running (Hash node).

Definition run_proof (leaf : string) (proof : list ProofNode) : string :=
  foldl combine leaf proof.

Definition VerifyProof (leaf : string) (proof : list ProofNode) (root : string) : bool :=
  bool_decide (run_proof leaf proof = root).

(** ** Layers *)

Lemma last_lookup_pred (l : list string) : last l = l !! pred (length l).
Proof. apply last_lookup. Qed.

Lemma pad_layer_length l : length (pad_layer l) = (length l + length l mod 2)%nat.
Proof.
  unfold pad_layer. pose proof (mod2_odd (length l)) as O.
  destruct (Nat.odd (length l)); rewrite O; [|lia].
  destruct (last l) as [x|] eqn:E; [by rewrite length_app|].
  apply last_None in E. by subst l.
Qed.

Lemma pad_layer_prefix l : exists t, pad_layer l = l ++ t /\ t ⊆ l.
Proof.
  unfold pad_layer. destruct (Nat.odd (length l)); [|by exists []; rewrite app_nil_r; split; [|apply list_subseteq_nil]].
  destruct (last l) as [x|] eqn:E; [|by exists []; rewrite app_nil_r; split; [|apply list_subseteq_nil]].
  exists [x]. split; [done|]. apply last_Some_elem_of in E.
  intros y Hy. by apply list_elem_of_singleton in Hy as ->.
Qed.

Lemma pad_layer_subset l : pad_layer l ⊆ l.
Proof.
  destruct (pad_layer_prefix l) as (t & -> & S). intros x [?|?]%elem_of_app; [done|by apply S].
Qed.

Lemma hash_pairs_length l : length (hash_pairs l) = (length l / 2)%nat.
Proof.
  assert (forall n k, length k = n -> length (hash_pairs k) = (length k / 2)%nat) as A; [|by eapply A].
  intros n. induction (lt_wf n) as [n _ IH]. intros [|a [|b r]] L; [done..|].
  cbn [hash_pairs length] in *. rewrite (IH (length r)) by (done || lia).
  div_lia.
Qed.

Lemma next_layer_length l : length (next_layer l) = ((length l + length l mod 2) / 2)%nat.
Proof. unfold next_layer. by rewrite hash_pairs_length, pad_layer_length. Qed.

Lemma next_layer_shrinks l : (1 < length l)%nat -> (0 < length (next_layer l) < length l)%nat.
Proof. rewrite next_layer_length. intros L. div_lia. Qed.

(** Two adjacent nodes and the hash above them. *)
Lemma hash_pairs_lookup l i a b :
  l !! (2 * i)%nat = Some a -> l !! S (2 * i) = Some b -> hash_pairs l !! i = Some (hashPair a b).
Proof.
  revert i. assert (forall n k, length k = n -> forall i, k !! (2 * i)%nat = Some a ->
    k !! S (2 * i) = Some b -> hash_pairs k !! i = Some (hashPair a b)) as A; [|by eapply A].
  intros n. induction (lt_wf n) as [n _ IH]. intros [|x [|y r]] L [|i] E1 E2; cbn in *; simplify_eq;
    try done.
  replace (i + S (i + 0))%nat with (S (2 * i)) in * by lia. cbn in *.
  eapply IH; [|done..]. lia.
Qed.

Lemma hash_pairs_elem l x : x ∈ hash_pairs l ->
  exists a b, a ∈ l /\ b ∈ l /\ x = hashPair a b.
Proof.
  assert (forall n k, length k = n -> x ∈ hash_pairs k ->
    exists a b, a ∈ k /\ b ∈ k /\ x = hashPair a b) as A; [|by eapply A].
  intros n. induction (lt_wf n) as [n _ IH].
  intros [|a [|b r]] L E; cbn in E; [by inversion E..|].
  apply elem_of_cons in E as [->|E].
  - exists a, b. split_and!; [left|right; left|done].
  - destruct (IH (length r) ltac:(cbn in L; lia) r eq_refl E) as (c & d & ? & ? & ->).
    exists c, d. split_and!; [by do 2 right..|done].
Qed.

Lemma next_layer_nonempty l : (1 < length l)%nat -> next_layer l <> [].
Proof. intros L E. pose proof (next_layer_shrinks l L). rewrite E in *. cbn in *. lia. Qed.

(** Induction along the layers of a tree. *)
Lemma layer_ind (P : list string -> Prop) :
  (forall x, P [x]) -> (forall l, (1 < length l)%nat -> P (next_layer l) -> P l) ->
  forall l, l <> [] -> P l.
Proof.
  intros P1 Pn. assert (forall n l, length l = n -> l <> [] -> P l) as A; [|by intros; eapply A].
  intros n. induction (lt_wf n) as [n _ IH]. intros l L N.
  destruct l as [|x [|y r]]; [done|apply P1|]. apply Pn; [cbn; lia|].
  pose proof (next_layer_shrinks (x :: y :: r) ltac:(cbn; lia)) as S.
  eapply IH; [|done|by apply next_layer_nonempty; cbn; lia]. lia.
Qed.

(** ** The loops end *)

Lemma root_loop_fuel l : l <> [] -> exists r, forall f, (length l <= S f)%nat -> root_loop f l = Ok r.
Proof.
  revert l. apply layer_ind.
  - intros x. exists x. intros [|f] _; done.
  - intros l L [r IH]. exists r. intros f F. destruct f as [|f]; [lia|]. cbn [root_loop].
    rewrite (proj2 (Nat.ltb_lt _ _) L). apply IH. pose proof (next_layer_shrinks l L). lia.
Qed.

Lemma root_loop_Root l f : l <> [] -> (length l <= S f)%nat -> root_loop f l = Ok (Root l).
Proof.
  intros N F. destruct (root_loop_fuel l N) as [r R]. unfold Root, RootRun.
  destruct l as [|x l']; [done|]. by rewrite (R f F), (R (length (x :: l'))) by lia.
Qed.

Lemma RootRun_Root l : RootRun l = Ok (Root l).
Proof. destruct l as [|x l]; [done|]. apply root_loop_Root; [done|lia]. Qed.

Lemma Root_one x : Root [x] = x.
Proof. done. Qed.

(** A layer and the next one have the same root. *)
Lemma Root_next l : (1 < length l)%nat -> Root l = Root (next_layer l).
Proof.
  intros L. pose proof (next_layer_shrinks l L). assert (l <> []) by (by intros ->; cbn in L; lia).
  pose proof (root_loop_Root l (length l) ltac:(done) ltac:(lia)) as E.
  destruct (length l) as [|n] eqn:Ln; [lia|]. cbn [root_loop] in E.
  rewrite Ln, (proj2 (Nat.ltb_lt _ _) L), root_loop_Root in E;
    [congruence|apply next_layer_nonempty|]; lia.
Qed.

(** Layers above [n] leaves: the length of every inclusion proof. *)
Definition depth (n : nat) : nat := Nat.log2_up n.

Lemma depth_next l : (1 < length l)%nat -> depth (length l) = S (depth (length (next_layer l))).
Proof.
  rewrite next_layer_length. generalize (length l) as n. intros n L. unfold depth.
  set (h := ((n + n mod 2) / 2)%nat).
  assert (2 * h = n + n mod 2 /\ n mod 2 < 2)%nat as [Eh Hm] by (unfold h; div_lia).
  apply Nat.log2_up_unique; [lia|]. rewrite Nat.pred_succ, Nat.pow_succ_r'.
  destruct (decide (h = 1%nat)) as [->|]; [cbn; lia|].
  pose proof (Nat.log2_up_spec h ltac:(lia)) as [Lo Hi].
  split; [|lia]. destruct (Nat.log2_up h) as [|k] eqn:K; [cbn in *; lia|].
  rewrite Nat.pred_succ in Lo. rewrite Nat.pow_succ_r'. lia.
Qed.

(** ** Produced proofs verify *)

Lemma proof_step l idx x (i := (idx / 2)%nat) : (1 < length l)%nat -> l !! idx = Some x ->
  exists node,
    pad_layer l !! (if Nat.even idx then S idx else pred idx) = Some (Hash node) /\
    IsLeft node = negb (Nat.even idx) /\
    next_layer l !! i = Some (combine x node).
Proof.
  intros L E. destruct (pad_layer_prefix l) as (t & P & _).
  assert (pad_layer l !! idx = Some x) as E' by (rewrite P; by apply lookup_app_l_Some).
  apply lookup_lt_Some in E. pose proof (pad_layer_length l) as PL.
  pose proof (Nat.negb_even idx) as V. pose proof (mod2_odd idx) as O.
  destruct (Nat.even idx) eqn:Ev; cbn in V; rewrite <-V in O.
  - destruct (lookup_lt_is_Some_2 (pad_layer l) (S idx)) as [h Hh]; [rewrite PL; div_lia|].
    exists {| Hash := h; IsLeft := false |}. split_and!; [done..|].
    replace idx with (2 * i)%nat in E', Hh by (unfold i; div_lia).
    by apply hash_pairs_lookup.
  - destruct (lookup_lt_is_Some_2 (pad_layer l) (pred idx)) as [h Hh]; [rewrite PL; div_lia|].
    exists {| Hash := h; IsLeft := true |}. split_and!; [done..|].
    replace idx with (S (2 * i)) in E', Hh by (unfold i; div_lia).
    by apply hash_pairs_lookup.
Qed.

Lemma proof_loop_spec l : l <> [] -> forall f idx acc x,
  (length l <= S f)%nat -> l !! idx = Some x ->
  exists p, proof_loop f l idx acc = Ok (acc ++ p, Root l) /\
    run_proof x p = Root l /\ length p = depth (length l).
Proof.
  revert l. apply (layer_ind (fun l => forall f idx acc x, _ -> _ -> exists p, _)).
  - intros y f idx acc x _ E. apply list_lookup_singleton_Some in E as [-> <-].
    exists []. rewrite app_nil_r. by destruct f.
  - intros l L IH f idx acc x F E. destruct f as [|f]; [lia|]. cbn [proof_loop].
    rewrite (proj2 (Nat.ltb_lt _ _) L).
    destruct (proof_step l idx x L E) as ([h b] & S1 & S2 & S3). cbn in S1, S2. subst b.
    pose proof (next_layer_shrinks l L).
    edestruct (IH f (idx / 2)%nat (acc ++ [{| Hash := h; IsLeft := negb (Nat.even idx) |}]))
      as (p & R1 & R2 & R3); [lia|exact S3|].
    exists ({| Hash := h; IsLeft := negb (Nat.even idx) |} :: p).
    rewrite Root_next, depth_next, <-R3 by done. split_and!; [|done..].
    unfold next_layer in R1. rewrite <-(assoc_L (++)) in R1. cbn [app] in R1.
    destruct (Nat.even idx); cbn [negb] in *; rewrite S1; exact R1.
Qed.
End Tree.

(** ** What an accepted proof means *)

Section Soundness.
Context `{HashFunction}.

(** A node as [hashPair] and [ComputeHash] produce them: 64 hexadecimal
    digits.  [VerifyProof] does not check it; without it the concatenation
    inside [hashPair] has several readings. *)
Definition node_hash (s : string) : Prop := length (bytes s) = 64%nat.

Lemma hashPair_node a b : node_hash (hashPair a b).
Proof. apply hexdigest_length. Qed.

Definition pair_bytes (a b : string) : list byte := bytes (a ++ b)%string.

(** The byte strings hashed while computing [Root l]. *)
Fixpoint layer_inputs (l : list string) : list (list byte) :=
  match l with
  | a :: b :: r => pair_bytes a b :: layer_inputs r
  | _ => []
  end.
Fixpoint tree_inputs_upto (fuel : nat) (l : list string) : list (list byte) :=
  match fuel with
  | O => []
  | S f => if (1 <? length l)%nat
           then layer_inputs (pad_layer l) ++ tree_inputs_upto f (next_layer l) else []
  end.
Definition tree_inputs (l : list string) : list (list byte) := tree_inputs_upto (length l) l.

(** The byte strings hashed while running a proof. *)
Definition node_input (running : string) (n : ProofNode) : list byte :=
  if IsLeft n then pair_bytes (Hash n) running else pair_bytes running (Hash n).
Fixpoint proof_inputs (leaf : string) (p : list ProofNode) : list (list byte) :=
  match p with
  | [] => []
  | n :: r => node_input leaf n :: proof_inputs (combine leaf n) r
  end.

Lemma combine_digest s n : combine s n = hexdigest (node_input s n).
Proof. unfold combine, node_input. by destruct (IsLeft n). Qed.

Lemma pair_bytes_split a b c d : node_hash a -> node_hash c ->
  pair_bytes a b = pair_bytes c d -> a = c /\ b = d.
Proof.
  unfold pair_bytes, node_hash. rewrite !bytes_app. intros Ha Hc E.
  apply app_split_l in E as [E1 E2]; [|congruence]. by apply (inj bytes) in E1, E2.
Qed.

Lemma tree_inputs_fuel f g l : (length l <= S f)%nat -> (length l <= S g)%nat ->
  tree_inputs_upto f l = tree_inputs_upto g l.
Proof.
  revert g l. induction f as [|f IH]; intros [|g] l Hf Hg; [done|..];
    cbn [tree_inputs_upto]; destruct (Nat.ltb_spec 1 (length l)); try done; try lia.
  pose proof (next_layer_shrinks l). f_equal. apply IH; lia.
Qed.

Lemma tree_inputs_next l : (1 < length l)%nat ->
  tree_inputs l = layer_inputs (pad_layer l) ++ tree_inputs (next_layer l).
Proof.
  intros L. pose proof (next_layer_shrinks l L). unfold tree_inputs.
  destruct (length l) as [|n] eqn:E; [lia|]. cbn [tree_inputs_upto].
  rewrite E, (proj2 (Nat.ltb_lt _ _) L). f_equal. apply tree_inputs_fuel; lia.
Qed.

Lemma hash_pairs_input l x : x ∈ hash_pairs l ->
  exists a b, a ∈ l /\ b ∈ l /\ x = hashPair a b /\ pair_bytes a b ∈ layer_inputs l.
Proof.
  assert (forall n k, length k = n -> x ∈ hash_pairs k -> exists a b, a ∈ k /\ b ∈ k /\
    x = hashPair a b /\ pair_bytes a b ∈ layer_inputs k) as A; [|by eapply A].
  intros n. induction (lt_wf n) as [n _ IH].
  intros [|a [|b r]] L E; cbn in E; [by inversion E..|].
  apply elem_of_cons in E as [->|E].
  - exists a, b. split_and!; [left|right; left|done|left].
  - destruct (IH (length r) ltac:(cbn in L; lia) r eq_refl E) as (c & d & ? & ? & -> & ?).
    exists c, d. split_and!; [by do 2 right..|done|by right].
Qed.

Lemma hash_pairs_nodes l : Forall node_hash (hash_pairs l).
Proof.
  rewrite Forall_forall. intros x Hx.
  apply hash_pairs_elem in Hx as (a & b & _ & _ & ->). apply hashPair_node.
Qed.

Lemma pad_layer_nodes l : Forall node_hash l -> Forall node_hash (pad_layer l).
Proof. rewrite !Forall_forall. intros F x Hx. by apply F, pad_layer_subset. Qed.

(** An accepted proof of the tree's depth starts from a leaf of the tree. *)
Lemma run_proof_member l : l <> [] -> forall leaf p,
  Forall node_hash l -> node_hash leaf -> Forall (fun n => node_hash (Hash n)) p ->
  length p = depth (length l) -> run_proof leaf p = Root l ->
  leaf ∈ l \/ collides (tree_inputs l ++ proof_inputs leaf p).
Proof.
  revert l. apply (layer_ind (fun l => forall leaf p, _ -> _ -> _ -> _ -> _ -> _)).
  - intros x leaf p _ _ _ Lp E. destruct p; [|done]. left. cbn in E. rewrite E. left.
  - intros l L IH leaf p Fl Hleaf Fp Lp E. rewrite depth_next in Lp by done.
    destruct p as [|n p]; [done|]. apply Forall_cons in Fp as [Hn Fp].
    rewrite Root_next in E by done. cbn [proof_inputs]. rewrite tree_inputs_next by done.
    destruct (IH (combine leaf n) p) as [M|C]; [apply hash_pairs_nodes| |done|by injection Lp|done|..].
    + rewrite combine_digest. apply hexdigest_length.
    + apply hash_pairs_input in M as (a & b & Ha & Hb & E' & I). rewrite combine_digest in E'.
      apply (hexdigest_eq ((layer_inputs (pad_layer l) ++ tree_inputs (next_layer l)) ++
        node_input leaf n :: proof_inputs (combine leaf n) p)) in E' as [E'|C];
        [|by right|apply elem_of_app; right; left|apply elem_of_app; left; apply elem_of_app; by left].
      left. apply pad_layer_subset.
      pose proof (pad_layer_nodes l Fl) as Fl'. rewrite Forall_forall in Fl'.
      unfold node_input in E'.
      destruct (IsLeft n); apply pair_bytes_split in E' as [? ?]; auto; by subst.
    + right. eapply collides_mono; [|exact C]. set_solver.
Qed.

(** ** The root determines the leaves, for a given number of them *)

Lemma hash_pairs_binds k l m : Forall node_hash l -> Forall node_hash m ->
  Nat.even (length l) = true -> length l = length m ->
  layer_inputs l ⊆ k -> layer_inputs m ⊆ k ->
  hash_pairs l = hash_pairs m -> l = m \/ collides k.
Proof.
  assert (forall n l m, length l = n -> Forall node_hash l -> Forall node_hash m ->
    Nat.even (length l) = true -> length l = length m ->
    layer_inputs l ⊆ k -> layer_inputs m ⊆ k ->
    hash_pairs l = hash_pairs m -> l = m \/ collides k) as A; [|by eapply A].
  intros n. induction (lt_wf n) as [n _ IH].
  intros [|a [|b l']] [|c [|d m']] Ln Fl Fm Ev Lm Sl Sm E; try done; [by left|].
  cbn [hash_pairs layer_inputs length] in *. injection E as E1 E2.
  apply Forall_cons in Fl as [Ha Fl], Fm as [Hc Fm].
  apply Forall_cons in Fl as [Hb Fl], Fm as [Hd Fm].
  apply (hexdigest_eq k) in E1 as [E1|]; [|by right|apply Sl; left|apply Sm; left].
  apply pair_bytes_split in E1 as [-> ->]; [|done..].
  destruct (IH (length l') ltac:(lia) l' m') as [->|]; [done..|lia| | |done|by left|by right].
  - intros x Hx. apply Sl. by right.
  - intros x Hx. apply Sm. by right.
Qed.

Lemma pad_layer_even l : Nat.even (length (pad_layer l)) = true.
Proof.
  rewrite pad_layer_length, Nat.even_spec. exists ((length l + length l mod 2) / 2)%nat. div_lia.
Qed.

Lemma pad_layer_inj l m : length l = length m -> pad_layer l = pad_layer m -> l = m.
Proof.
  intros L E. destruct (pad_layer_prefix l) as (t & El & _), (pad_layer_prefix m) as (u & Em & _).
  rewrite El, Em in E. by apply app_split_l in E as [].
Qed.

Lemma Root_binds_in l : l <> [] -> forall m, length l = length m ->
  Forall node_hash l -> Forall node_hash m -> Root l = Root m ->
  l = m \/ collides (tree_inputs l ++ tree_inputs m).
Proof.
  revert l. apply (layer_ind (fun l => forall m, _ -> _ -> _ -> _ -> _)).
  - intros x [|y [|z m]] Lm _ _ E; try done. left. by rewrite !Root_one in E; subst.
  - intros l L IH m Lm Fl Fm E. assert (1 < length m)%nat as L' by lia.
    rewrite (Root_next l), (Root_next m) in E by done.
    rewrite (tree_inputs_next l), (tree_inputs_next m) by done.
    destruct (IH (next_layer m)) as [Q|C]; [|apply hash_pairs_nodes..|done| |].
    + by rewrite !next_layer_length, Lm.
    + apply (hash_pairs_binds ((layer_inputs (pad_layer l) ++ tree_inputs (next_layer l)) ++
        layer_inputs (pad_layer m) ++ tree_inputs (next_layer m))) in Q as [Q|C]; [|by right| | | | | |].
      * left. by apply pad_layer_inj.
      * by apply pad_layer_nodes.
      * by apply pad_layer_nodes.
      * apply pad_layer_even.
      * by rewrite !pad_layer_length, Lm.
      * set_solver.
      * set_solver.
    + right. eapply collides_mono; [|exact C]. set_solver.
Qed.

(** The nodes of a produced proof come from the layers of the tree. *)
Lemma proof_loop_nodes f : forall l idx acc p r, Forall node_hash l ->
  Forall (fun n => node_hash (Hash n)) acc -> proof_loop f l idx acc = Ok (p, r) ->
  Forall (fun n => node_hash (Hash n)) p.
Proof.
  induction f as [|f IH]; intros l idx acc p r Fl Fa; cbn [proof_loop].
  - destruct (1 <? length l)%nat; [done|]. destruct l; [done|]. by intros [= <- _].
  - destruct (1 <? length l)%nat; [|destruct l; [done|]; by intros [= <- _]].
    pose proof (pad_layer_nodes l Fl) as Fp. rewrite Forall_lookup in Fp.
    destruct (if Nat.even idx then (S idx, false) else (pred idx, true)) as [sib side].
    destruct (pad_layer l !! sib) as [h|] eqn:E; [|done].
    apply IH; [apply hash_pairs_nodes|]. apply Forall_app. split; [done|].
    constructor; [by eapply Fp|constructor].
Qed.

Lemma Proof_nodes l i : Forall node_hash l -> Forall (fun n => node_hash (Hash n)) (Proof l i).1.
Proof.
  intros F. unfold Proof, ProofRun.
  destruct (_ || _); [constructor|].
  destruct (proof_loop _ _ _ _) as [[p r]|?|?|] eqn:E; [|constructor..].
  by eapply proof_loop_nodes.
Qed.
End Soundness.

(** ** The properties *)

Section Properties.
Context `{HashFunction}.

(** [Root] terminates on every list of leaves and returns the root:
    the empty string for no leaf, the leaf itself for one, and the root of the
    next layer, which is half as long (rounded up), for more. *)
Theorem root_total l :
  RootRun l = Ok (Root l) /\ Root [] = ""%string /\ (forall x, Root [x] = x) /\
  ((1 < length l)%nat -> Root l = Root (next_layer l) /\ length (next_layer l) = ((length l + 1) / 2)%nat).
Proof.
  split_and!; [apply RootRun_Root|done|done|]. intros L. split; [by apply Root_next|].
  rewrite next_layer_length. div_lia.
Qed.

(** C31: proofs are complete.  For every index inside the leaves [Proof]
    terminates without leaving a layer, returns the root [Root] computes and a
    proof with one node per layer, the binary logarithm of the number of leaves
    rounded up, which [VerifyProof] accepts for that leaf and root. *)
Theorem proof_complete l i x : l !! Z.to_nat i = Some x -> 0 <= i ->
  exists p, ProofRun l i = Ok (p, Root l) /\ Proof l i = (p, Root l) /\
    VerifyProof x p (Root l) = true /\ length p = Nat.log2_up (length l).
Proof.
  intros E I. pose proof (lookup_lt_Some _ _ _ E) as L. assert (l <> []) as N by (by intros ->).
  destruct (proof_loop_spec l N (length l) (Z.to_nat i) [] x ltac:(lia) E) as (p & R & V & D).
  exists p. unfold Proof, ProofRun. rewrite (proj2 (Z.ltb_ge _ _)), (proj2 (Z.leb_gt _ _)) by lia.
  cbn [orb]. rewrite R. split_and!; [done..|by apply bool_decide_eq_true|done].
Qed.

(** An index outside the leaves, negative ones included, gives an empty
    proof and the empty string for a root, not a panic. *)
Theorem proof_out_of_range l i : i < 0 \/ Z.of_nat (length l) <= i -> ProofRun l i = Ok ([], ""%string).
Proof.
  intros I. unfold ProofRun.
  destruct (Z.ltb_spec i 0); [done|]. by rewrite (proj2 (Z.leb_le _ _)) by lia.
Qed.

(** Proofs are sound.  If [VerifyProof] accepts, against the root of some
    non-empty list of 64-digit leaves, a proof of the tree's depth made of
    64-digit hashes for a 64-digit hash, that hash is one of the leaves, or the
    bytes hashed on the two sides contain a collision. *)
Theorem proof_sound l leaf p : l <> [] -> Forall node_hash l -> node_hash leaf ->
  Forall (fun n => node_hash (Hash n)) p -> length p = Nat.log2_up (length l) ->
  VerifyProof leaf p (Root l) = true -> leaf ∈ l \/ collides (tree_inputs l ++ proof_inputs leaf p).
Proof. intros N Fl Hl Fp Lp V. apply bool_decide_eq_true in V. by apply run_proof_member. Qed.

(** The root commits to the leaves.  Two lists of 64-digit leaves of the
    same length with the same root are equal, or the bytes hashed in the two
    trees contain a collision. *)
Theorem root_binds l m : length l = length m -> Forall node_hash l -> Forall node_hash m ->
  Root l = Root m -> l = m \/ collides (tree_inputs l ++ tree_inputs m).
Proof.
  intros L Fl Fm E. destruct l as [|x l]; [by destruct m; [left|]|]. by apply Root_binds_in.
Qed.

(** The root does not commit to the number of leaves.  Repeating the last
    leaf of a layer of odd length (of three or more) gives the same root, so a
    snapshot of [n] entries and one with the last entry twice look the same. *)
Theorem root_duplicate_last l x : Nat.odd (length (l ++ [x])) = true -> l <> [] ->
  Root (l ++ [x; x]) = Root (l ++ [x]).
Proof.
  intros O N. assert (1 < length (l ++ [x]))%nat as L
    by (rewrite length_app; destruct l; [done|cbn; lia]).
  rewrite (Root_next (l ++ [x])) by done. rewrite (Root_next (l ++ [x; x])) by (rewrite length_app in *; cbn in *; lia).
  f_equal. unfold next_layer. f_equal. unfold pad_layer. rewrite O, last_snoc, <-(assoc_L (++)).
  rewrite !length_app in *. cbn [length] in *.
  replace (length l + 2)%nat with (S (length l + 1)) by lia. by rewrite Nat.odd_succ, <-Nat.negb_odd, O.
Qed.

(** [VerifyProof] does not check the shape of what it is given.  It accepts
    the empty proof for the root itself as a leaf; and when the first sibling
    is on the right, moving a prefix of the sibling to the end of the leaf makes
    no difference, so an accepted proof gives accepted proofs for strings that
    are not 64-digit hashes. *)
Theorem verify_proof_shape leaf a h p root :
  VerifyProof root [] root = true /\
  (VerifyProof (leaf ++ a) ({| Hash := h; IsLeft := false |} :: p) root =
   VerifyProof leaf ({| Hash := a ++ h; IsLeft := false |} :: p) root)%string.
Proof.
  split; [by apply bool_decide_eq_true|]. unfold VerifyProof, run_proof. cbn [foldl combine IsLeft Hash].
  unfold hashPair. assert (forall x y z : string, (x ++ y) ++ z = x ++ (y ++ z))%string as A.
  { intros x y z. apply (inj bytes). by rewrite !bytes_app, (assoc_L (++)). }
  by rewrite A.
Qed.
End Properties.

Section PropertyWitnesses.
Let leaf (s : string) : string := hexdigest (bytes s).
Let five : list string := map leaf ["a"; "b"; "c"; "d"; "e"]%string.

Lemma proof_complete_witness : exists p,
  ProofRun five 4 = Ok (p, Root five) /\ VerifyProof (leaf "e") p (Root five) = true /\ length p = 3%nat.
Proof.
  destruct (proof_complete five 4 (leaf "e") eq_refl ltac:(lia)) as (p & R & _ & V & L).
  exists p. split; [exact R|split; [exact V|exact L]].
Defined.

Lemma proof_out_of_range_witness : ProofRun five (-1) = Ok ([], ""%string) /\ ProofRun five 5 = Ok ([], ""%string).
Proof.
  split; [apply (proof_out_of_range five); left; lia|apply (proof_out_of_range five); right; cbn; lia].
Defined.

Lemma five_nodes : Forall node_hash five.
Proof. repeat constructor; apply hexdigest_length. Qed.

Lemma proof_sound_witness : exists p, VerifyProof (leaf "b") p (Root five) = true /\
  (leaf "b" ∈ five \/ collides (tree_inputs five ++ proof_inputs (leaf "b") p)).
Proof.
  destruct (proof_loop_spec five ltac:(done) 5 1 [] (leaf "b") ltac:(cbn; lia) eq_refl) as (p & R & V & L).
  assert (VerifyProof (leaf "b") p (Root five) = true) as A by (apply bool_decide_eq_true; exact V).
  exists p. split; [exact A|]. apply proof_sound; [done|exact five_nodes|apply hexdigest_length| |exact L|exact A].
  eapply (proof_loop_nodes 5 five 1 []); [exact five_nodes|constructor|exact R].
Defined.

Lemma root_binds_witness : five = five \/ collides (tree_inputs five ++ tree_inputs five).
Proof. exact (root_binds five five eq_refl five_nodes five_nodes eq_refl). Defined.

Lemma root_duplicate_last_witness :
  Root (map leaf ["a"; "b"; "c"; "c"]%string) = Root (map leaf ["a"; "b"; "c"]%string).
Proof. exact (root_duplicate_last (map leaf ["a"; "b"]%string) (leaf "c") eq_refl ltac:(done)). Defined.
End PropertyWitnesses.
