(* ===== verification/Crypto.v ===== *)
(** * Crypto: keys, signatures and content encryption ([internal/crypto])

    [keys.go] and [encrypt.go] over two interfaces: [Ed25519] for
    [crypto/ed25519] and [AESGCM] for [crypto/aes] with [crypto/cipher].  The
    curve and the cipher themselves are not modelled: the laws are the
    documented behaviour the repository relies on.  Random bytes are an
    argument: the outcome of the read. *)
From S2P Require Import Prelude Codec JsonText GoTime Sha256 Models.

(** ** Interfaces *)

Definition PrivateKeySize : nat := 64.
Definition PublicKeySize : nat := 32.
Definition SeedSize : nat := 32.

(** [crypto/ed25519]: a seed gives (private, public). *)
Class Ed25519 := {
  ed_keys : list byte -> list byte * list byte;
  ed_sign : list byte -> list byte -> list byte;
  ed_verify : list byte -> list byte -> list byte -> bool;
}.

Class Ed25519Laws (E : Ed25519) : Prop := {
  ed_private_size seed : length seed = SeedSize -> length (ed_keys seed).1 = PrivateKeySize;
  ed_public_size seed : length seed = SeedSize -> length (ed_keys seed).2 = PublicKeySize;
  ed_signature_size priv data : length priv = PrivateKeySize -> length (ed_sign priv data) = 64%nat;
  ed_correct seed data : length seed = SeedSize ->
    ed_verify (ed_keys seed).2 data (ed_sign (ed_keys seed).1 data) = true;
}.

Definition NonceSize : nat := 12.
Definition Overhead : nat := 16.

(** AES-256-GCM without additional data: key, nonce, text. *)
Class AESGCM := {
  gcm_seal : list byte -> list byte -> list byte -> list byte;
  gcm_open : list byte -> list byte -> list byte -> option (list byte);
}.

Class AESGCMLaws (A : AESGCM) : Prop := {
  gcm_open_seal key nonce p : length key = 32%nat -> length nonce = NonceSize ->
    gcm_open key nonce (gcm_seal key nonce p) = Some p;
  gcm_seal_length key nonce p : length key = 32%nat -> length nonce = NonceSize ->
    length (gcm_seal key nonce p) = (length p + Overhead)%nat;
}.

(** ** keys.go *)

Section Keys.
Context `{Ed25519}.

(** [seed] is what [ed25519.GenerateKey] read from [rand.Reader]. *)
Definition GenerateKeyPair (seed : outcome (list byte)) : outcome (list byte * list byte) :=
  s ← seed; Ok (ed_keys s).

(** [ed25519.Sign] panics on a private key of the wrong size. *)
Definition Sign (privateKey data : list byte) : outcome (list byte) :=
  if bool_decide (length privateKey = PrivateKeySize)
  then Ok (ed_sign privateKey data)
  else Panic "ed25519: bad private key length".

Definition Verify (publicKey data sig : list byte) : bool :=
  if negb (bool_decide (length publicKey = PublicKeySize)) then false
  else ed_verify publicKey data sig.

Definition with_signature (m : SignedMessage) (sig : list byte) : SignedMessage := {|
  SchemaVersion := SchemaVersion m; MessageID := MessageID m; ChatID := ChatID m;
  SenderID := SenderID m; Content := Content m; ContentType := ContentType m;
  Filename := Filename m; Encrypted := Encrypted m; Timestamp := Timestamp m;
  PublicKey := PublicKey m; Signature := sig |}.

Definition SignMessage (msg : SignedMessage) (privateKey : list byte) : outcome SignedMessage :=
  sig ← Sign privateKey (SigningPayload msg); Ok (with_signature msg sig).

Definition VerifyMessage (msg : SignedMessage) : bool :=
  if (length (Signature msg) =? 0)%nat then false
  else Verify (PublicKey msg) (SigningPayload msg) (Signature msg).
End Keys.

(** ** encrypt.go *)

Definition ContentKeySize : nat := 32.
Definition ErrInvalidKey : error := New "crypto: content key must be 32 bytes".
Definition ErrMalformedCiphertext : error := New "crypto: malformed ciphertext".

(** [rnd]: the outcome of filling a 32-byte slice from [rand.Read]. *)
Definition NewContentKey (rnd : outcome (list byte)) : outcome (list byte) :=
  key ← rnd; Ok key.

(** The check of [newGCM]; the AEAD it returns is the key. *)
Definition newGCM (key : list byte) : outcome (list byte) :=
  if negb (bool_decide (length key = ContentKeySize)) then Err ErrInvalidKey else Ok key.

Section Encrypt.
Context `{AESGCM}.

(** [rnd]: the outcome of reading the nonce with [io.ReadFull]. *)
Definition Encrypt (rnd : outcome (list byte)) (key plaintext : list byte) : outcome (list byte) :=
  gcm ← newGCM key;
  nonce ← rnd;
  Ok (nonce ++ gcm_seal gcm nonce plaintext).

Definition Decrypt (key blob : list byte) : outcome (list byte) :=
  gcm ← newGCM key;
  if (length blob <? NonceSize)%nat then Err ErrMalformedCiphertext
  else match gcm_open gcm (take NonceSize blob) (drop NonceSize blob) with
       | Some p => Ok p
       | None => Err (External "cipher: message authentication failed")
       end.
End Encrypt.

(** ** Facts shared by the clients *)

Section KeyFacts.
Context `{Ed25519Laws}.

Lemma with_signature_signed m sig : same_signed (with_signature m sig) m.
Proof. by split. Qed.

(** Signing with a generated key and verifying under it. *)
Lemma SignMessage_verifies seed m : length seed = SeedSize -> PublicKey m = (ed_keys seed).2 ->
  exists m', SignMessage m (ed_keys seed).1 = Ok m' /\ same_signed m' m /\ VerifyMessage m' = true.
Proof.
  intros L P. pose proof (ed_private_size seed L) as Lp.
  unfold SignMessage, Sign. rewrite bool_decide_eq_true_2 by done. cbn [mbind outcome_bind].
  eexists. split_and!; [done|apply with_signature_signed|].
  unfold VerifyMessage, Verify. cbn [Signature PublicKey with_signature].
  rewrite (ed_signature_size _ _ Lp), P, bool_decide_eq_true_2 by by apply ed_public_size.
  rewrite (SigningPayload_proper _ _ (with_signature_signed _ _)). by apply ed_correct.
Qed.
End KeyFacts.

Section VerifyFacts.
Context `{Ed25519}.

(** Verification only sees the signed fields and the signature. *)
Lemma VerifyMessage_same m n : same_signed m n -> Signature m = Signature n ->
  VerifyMessage m = VerifyMessage n.
Proof.
  intros E S. unfold VerifyMessage.
  by rewrite S, (SigningPayload_proper _ _ E), (same_PublicKey _ _ E).
Qed.

Lemma VerifyMessage_shape m : VerifyMessage m = true ->
  Signature m <> [] /\ length (PublicKey m) = PublicKeySize /\
  ed_verify (PublicKey m) (SigningPayload m) (Signature m) = true.
Proof.
  unfold VerifyMessage, Verify. destruct (Signature m); [done|]. cbn [length Nat.eqb].
  case_bool_decide; [|done]. done.
Qed.
End VerifyFacts.

(** ** Small instances, for evaluating the model *)

Module Sample.
(** A rolling checksum of the data on [n] bytes. *)
Definition checksum (n : nat) (data : list byte) : list byte :=
  Fips180.be_bytes n (foldl (fun a b => Z.land (a * 257 + byteZ b + 1) 0xffffffffffffffffffffffffffffffff) 7 data).

Lemma checksum_length n data : length (checksum n data) = n.
Proof.
  unfold checksum, Fips180.be_bytes.
  by rewrite List.length_map, List.length_rev, List.length_seq.
Qed.

#[global] Instance checksum_hash : HashFunction | 100 :=
  { Sum256 := checksum 32; Sum256_length := checksum_length 32 }.

#[global] Instance checksum_signature : Ed25519 | 100 := {|
  ed_keys seed := (seed ++ seed, seed);
  ed_sign priv data := take 32 (drop 32 priv) ++ checksum 32 data;
  ed_verify pub data sig := bool_decide (sig = pub ++ checksum 32 data);
|}.

#[global] Instance checksum_signature_laws : Ed25519Laws checksum_signature.
Proof.
  split; cbn -[checksum]; unfold SeedSize, PrivateKeySize, PublicKeySize.
  - intros seed L. rewrite length_app. lia.
  - done.
  - intros priv data L. rewrite length_app, length_take, length_drop, checksum_length. lia.
  - intros seed data L. apply bool_decide_eq_true. f_equal.
    rewrite drop_app_length' by done. by rewrite take_ge by lia.
Qed.

#[global] Instance copy_cipher : AESGCM | 100 := {|
  gcm_seal key nonce p := p ++ take 16 key;
  gcm_open key nonce c :=
    let n := (length c - 16)%nat in
    if decide (drop n c = take 16 key) then Some (take n c) else None;
|}.

#[global] Instance copy_cipher_laws : AESGCMLaws copy_cipher.
Proof.
  split; cbn; intros key nonce p Lk _.
  - rewrite length_app, length_take.
    replace (length p + 16 `min` length key - 16)%nat with (length p) by lia.
    rewrite drop_app_length, take_app_length. by rewrite decide_True.
  - rewrite length_app, length_take. unfold Overhead. lia.
Qed.
End Sample.

(** ** The properties *)

Section Properties.
Context `{EL : Ed25519Laws} `{AL : AESGCMLaws}.

(** Signing and verifying agree.  With a key pair generated from any
    32-byte seed, [SignMessage] on a message that carries the public key
    succeeds, changes nothing but the signature, and [VerifyMessage] accepts
    the result, also after anyone shows its time in another location. *)
Theorem sign_verify seed priv pub m :
  length seed = SeedSize -> GenerateKeyPair (Ok seed) = Ok (priv, pub) -> PublicKey m = pub ->
  exists m', SignMessage m priv = Ok m' /\ same_signed m' m /\
    forall n, same_signed n m' -> Signature n = Signature m' -> VerifyMessage n = true.
Proof.
  intros L G P. assert ((priv, pub) = ed_keys seed) as K by (by injection G).
  destruct (SignMessage_verifies seed m L) as (m' & R & S & V); [by rewrite <-K|].
  rewrite <-K in R. exists m'. split_and!; [done..|]. intros n Sn Sg. by rewrite (VerifyMessage_same n m').
Qed.

(** [VerifyMessage] accepts only a non-empty signature under a public key
    of 32 bytes that the signature scheme accepts for the canonical payload;
    any other key size or a missing signature is refused without calling the
    scheme, and [Sign] panics on a private key that is not 64 bytes long. *)
Theorem verify_message_iff m priv data :
  (VerifyMessage m = true <->
   Signature m <> [] /\ length (PublicKey m) = 32%nat /\
   ed_verify (PublicKey m) (SigningPayload m) (Signature m) = true) /\
  (if decide (length priv = 64%nat) then Sign priv data = Ok (ed_sign priv data)
   else exists why, Sign priv data = Panic why).
Proof.
  split.
  - split; [apply VerifyMessage_shape|]. intros (N & L & V). unfold VerifyMessage, Verify.
    destruct (Signature m); [done|]. cbn [length Nat.eqb]. by rewrite bool_decide_eq_true_2.
  - unfold Sign, PrivateKeySize. case_decide; [by rewrite bool_decide_eq_true_2|].
    rewrite bool_decide_eq_false_2 by done. by eexists.
Qed.

(** A signature does not bind identifiers that are not valid UTF-8.  The
    payload writes the same replacement for any invalid byte, so a signature
    made for chat ["\xff"] is accepted for chat ["\xfe"] and the other way
    round: such a message can be replayed into another chat. *)
Theorem signature_replay_invalid_utf8 m :
  let for_chat c := {|
    SchemaVersion := SchemaVersion m; MessageID := MessageID m; ChatID := c;
    SenderID := SenderID m; Content := Content m; ContentType := ContentType m;
    Filename := Filename m; Encrypted := Encrypted m; Timestamp := Timestamp m;
    PublicKey := PublicKey m; Signature := Signature m |} in
  let ff := text [xff] in let fe := text [xfe] in
  ff <> fe /\ VerifyMessage (for_chat ff) = VerifyMessage (for_chat fe).
Proof.
  cbv zeta. split; [done|]. unfold VerifyMessage. cbn [Signature PublicKey].
  enough (SigningPayload {|
    SchemaVersion := SchemaVersion m; MessageID := MessageID m; ChatID := text [xff];
    SenderID := SenderID m; Content := Content m; ContentType := ContentType m;
    Filename := Filename m; Encrypted := Encrypted m; Timestamp := Timestamp m;
    PublicKey := PublicKey m; Signature := Signature m |} = SigningPayload {|
    SchemaVersion := SchemaVersion m; MessageID := MessageID m; ChatID := text [xfe];
    SenderID := SenderID m; Content := Content m; ContentType := ContentType m;
    Filename := Filename m; Encrypted := Encrypted m; Timestamp := Timestamp m;
    PublicKey := PublicKey m; Signature := Signature m |}) as -> by done.
  unfold SigningPayload, Json.Marshal. rewrite !payload_sorted. unfold sorted_payload.
  by cbn [ChatID SenderID MessageID Content ContentType Filename Encrypted Timestamp PublicKey SchemaVersion Json.members].
Qed.

(** What [Encrypt] produces under a 32-byte key and a 12-byte nonce is 28
    bytes longer than the plaintext, and [Decrypt] under the same key gives the
    plaintext back. *)
Theorem encrypt_decrypt key nonce p : length key = ContentKeySize -> length nonce = NonceSize ->
  exists blob, Encrypt (Ok nonce) key p = Ok blob /\ length blob = (length p + 28)%nat /\
    Decrypt key blob = Ok p.
Proof.
  intros Lk Ln. unfold Encrypt, Decrypt, newGCM. rewrite bool_decide_eq_true_2 by done.
  cbn [negb mbind outcome_bind]. eexists. split; [done|].
  rewrite length_app, gcm_seal_length, Ln by done. split; [unfold NonceSize, Overhead; lia|].
  rewrite (proj2 (Nat.ltb_ge _ _)) by lia.
  by rewrite take_app_length', drop_app_length', gcm_open_seal by done.
Qed.

(** The errors of [Encrypt] and [Decrypt].  A key that is not 32 bytes long
    gives [ErrInvalidKey] from both, before any randomness is used or the blob
    looked at; a blob shorter than the nonce gives [ErrMalformedCiphertext];
    one the cipher does not authenticate gives the cipher's error; a failed
    read of randomness is passed on. *)
Theorem encrypt_errors rnd key p blob :
  (length key <> ContentKeySize ->
     Encrypt rnd key p = Err ErrInvalidKey /\ Decrypt key blob = Err ErrInvalidKey) /\
  (length key = ContentKeySize ->
     (forall e, rnd = Err e -> Encrypt rnd key p = Err e) /\
     ((length blob < 12)%nat -> Decrypt key blob = Err ErrMalformedCiphertext) /\
     ((12 <= length blob)%nat -> gcm_open key (take 12 blob) (drop 12 blob) = None ->
        exists w, Decrypt key blob = Err (External w))).
Proof.
  unfold Encrypt, Decrypt, newGCM. split; intros L;
    [by rewrite bool_decide_eq_false_2|rewrite bool_decide_eq_true_2 by done].
  cbn [negb mbind outcome_bind]. split_and!.
  - by intros e ->.
  - intros Lb. by rewrite (proj2 (Nat.ltb_lt _ _)).
  - intros Lb O. rewrite (proj2 (Nat.ltb_ge _ _)) by done. unfold NonceSize. rewrite O. by eexists.
Qed.
End Properties.

Lemma sign_verify_witness : exists m',
  SignMessage ModelSample.hello (replicate 64 x41) = Ok m' /\ VerifyMessage m' = true.
Proof.
  destruct (sign_verify (replicate 32 x41) (replicate 64 x41) (replicate 32 x41) ModelSample.hello)
    as (m' & E & _ & V); [done|done|done|].
  exists m'. split; [exact E|]. by apply V.
Defined.

Lemma encrypt_decrypt_witness : exists blob,
  Encrypt (Ok (replicate 12 x00)) (replicate 32 x41) (bytes "attack at dawn") = Ok blob /\
  Decrypt (replicate 32 x41) blob = Ok (bytes "attack at dawn").
Proof.
  destruct (encrypt_decrypt (replicate 32 x41) (replicate 12 x00) (bytes "attack at dawn") eq_refl eq_refl)
    as (b & E & _ & D).
  exists b. split; [exact E|exact D].
Defined.

Lemma encrypt_errors_witness :
  Decrypt (replicate 31 x41) [] = Err ErrInvalidKey /\
  Decrypt (replicate 32 x41) [x00] = Err ErrMalformedCiphertext.
Proof.
  split.
  - refine (proj2 (proj1 (encrypt_errors (Ok []) (replicate 31 x41) [] []) _)).
    rewrite length_replicate. unfold ContentKeySize. lia.
  - refine (proj1 (proj2 (proj2 (encrypt_errors (Ok []) (replicate 32 x41) [] [x00]) eq_refl)) _). cbn. lia.
Defined.
