(* ===== verification/Storage.v ===== *)
(** * Storage: the persistence port and the in-memory store
      ([internal/storage/storage.go])

    [Storage] is the port, [StorageLaws] what a reliable implementation
    promises in terms of an abstract per-chat log and per-chat list of
    snapshots, and [InMemoryStorage] the implementation that discharges it.
    The mutex of the in-memory store makes each method one atomic step. *)
From S2P Require Import Prelude Codec JsonText GoTime Sha256 Models.

Definition ErrNotFound : error := New "storage: not found".
Definition ErrSequenceGap : error := New "storage: non-contiguous sequence".

(** ** The port *)

Class Storage (S : Type) := {
  AppendEntry : string -> LogEntry -> M S unit;
  LastEntry : string -> M S LogEntry;
  Entry : string -> Z -> M S LogEntry;
  EntriesSince : string -> Z -> M S (Slice LogEntry);
  SaveSnapshot : MerkleSnapshot -> M S unit;
  LatestSnapshot : string -> M S MerkleSnapshot;
  SnapshotAt : string -> Z -> M S MerkleSnapshot;
}.

(** [Ok] of a value that is there, [ErrNotFound] otherwise. *)
Definition found {A} (o : option A) : outcome A :=
  match o with Some a => Ok a | None => Err ErrNotFound end.

Class StorageLaws (S : Type) `{Storage S} := {
  log_of : S -> string -> list LogEntry;
  snaps_of : S -> string -> list MerkleSnapshot;

  append_contiguous c e s :
    Sequence e = Z.of_nat (length (log_of s c)) ->
    exists s', AppendEntry c e s = (Ok tt, s') /\
      (forall d, log_of s' d = if decide (d = c) then log_of s c ++ [e] else log_of s d) /\
      (forall d, snaps_of s' d = snaps_of s d);
  append_gap c e s :
    Sequence e <> Z.of_nat (length (log_of s c)) -> AppendEntry c e s = (Err ErrSequenceGap, s);
  last_entry c s : LastEntry c s = (found (last (log_of s c)), s);
  entry_at c q s : 0 <= q -> Entry c q s = (found (log_of s c !! Z.to_nat q), s);
  entries_since c q s : 0 <= q -> EntriesSince c q s = (Ok (made (drop (Z.to_nat q) (log_of s c))), s);
  save_snapshot n s :
    exists s', SaveSnapshot n s = (Ok tt, s') /\
      (forall d, snaps_of s' d =
         if decide (d = snap_ChatID n) then snaps_of s d ++ [n] else snaps_of s d) /\
      (forall d, log_of s' d = log_of s d);
  latest_snapshot c s : LatestSnapshot c s = (found (last (snaps_of s c)), s);
  snapshot_at c i s : 0 <= i -> SnapshotAt c i s = (found (snaps_of s c !! Z.to_nat i), s);
}.

(** ** The in-memory store *)

Record InMemoryStorage := {
  entries : gmap string (list LogEntry);
  snapshots : gmap string (list MerkleSnapshot);
}.

Definition NewInMemoryStorage : InMemoryStorage := {| entries := ∅; snapshots := ∅ |}.

(** Indexing a Go map of slices: an absent key is the nil slice. *)
Definition slice {A} (m : gmap string (list A)) (c : string) : list A := default [] (m !! c).

(** [uint64(len(l))]: a length is below [2^63]. *)
Definition ulen {A} (l : list A) : Z := Z.of_nat (length l).

Definition mem_AppendEntry (chatID : string) (entry : LogEntry) : M InMemoryStorage unit := fun s =>
  let existing := slice (entries s) chatID in
  if negb (ulen existing =? Sequence entry) then (Err ErrSequenceGap, s)
  else (Ok tt, {| entries := <[chatID := existing ++ [entry]]> (entries s);
                  snapshots := snapshots s |}).

Definition mem_LastEntry (chatID : string) : M InMemoryStorage LogEntry := fun s =>
  let existing := slice (entries s) chatID in
  if (length existing =? 0)%nat then (Err ErrNotFound, s)
  else match existing !! (length existing - 1)%nat with
       | Some e => (Ok e, s)
       | None => (Panic "index out of range", s)
       end.

Definition mem_Entry (chatID : string) (sequence : Z) : M InMemoryStorage LogEntry := fun s =>
  let existing := slice (entries s) chatID in
  if ulen existing <=? sequence then (Err ErrNotFound, s)
  else match existing !! Z.to_nat sequence with
       | Some e => (Ok e, s)
       | None => (Panic "index out of range", s)
       end.

(** The [copy] into a fresh slice of [len(existing) - int(fromSequence)]. *)
Definition mem_EntriesSince (chatID : string) (fromSequence : Z)
    : M InMemoryStorage (Slice LogEntry) := fun s =>
  let existing := slice (entries s) chatID in
  if ulen existing <=? fromSequence then (Ok (made []), s)
  else (Ok (made (take (Z.to_nat (ulen existing - fromSequence))
                    (drop (Z.to_nat fromSequence) existing))), s).

Definition mem_SaveSnapshot (snap : MerkleSnapshot) : M InMemoryStorage unit := fun s =>
  (Ok tt, {| entries := entries s;
             snapshots := <[snap_ChatID snap := slice (snapshots s) (snap_ChatID snap) ++ [snap]]>
                            (snapshots s) |}).

Definition mem_LatestSnapshot (chatID : string) : M InMemoryStorage MerkleSnapshot := fun s =>
  let snaps := slice (snapshots s) chatID in
  if (length snaps =? 0)%nat then (Err ErrNotFound, s)
  else match snaps !! (length snaps - 1)%nat with
       | Some n => (Ok n, s)
       | None => (Panic "index out of range", s)
       end.

Definition mem_SnapshotAt (chatID : string) (index : Z) : M InMemoryStorage MerkleSnapshot := fun s =>
  let snaps := slice (snapshots s) chatID in
  if ulen snaps <=? index then (Err ErrNotFound, s)
  else match snaps !! Z.to_nat index with
       | Some n => (Ok n, s)
       | None => (Panic "index out of range", s)
       end.

#[global] Instance mem_storage : Storage InMemoryStorage := {
  AppendEntry := mem_AppendEntry;
  LastEntry := mem_LastEntry;
  Entry := mem_Entry;
  EntriesSince := mem_EntriesSince;
  SaveSnapshot := mem_SaveSnapshot;
  LatestSnapshot := mem_LatestSnapshot;
  SnapshotAt := mem_SnapshotAt;
}.

(** ** The in-memory store implements the port *)

Lemma slice_insert {A} (m : gmap string (list A)) c l d :
  slice (<[c := l]> m) d = if decide (d = c) then l else slice m d.
Proof.
  unfold slice. destruct (decide (d = c)) as [->|N].
  - by rewrite lookup_insert_eq.
  - by rewrite lookup_insert_ne by done.
Qed.

(** The guarded last element and the guarded index of a slice. *)
Lemma guarded_last {A S} (l : list A) (s : S) :
  (if (length l =? 0)%nat then (Err ErrNotFound, s)
   else match l !! (length l - 1)%nat with
        | Some e => (Ok e, s) | None => (Panic "index out of range", s) end)
  = (found (last l), s).
Proof.
  rewrite last_lookup, <-Nat.sub_1_r. destruct l as [|x l]; [done|].
  destruct (lookup_lt_is_Some_2 (x :: l) (length (x :: l) - 1)) as [y ->]; [cbn; lia|done].
Qed.

Lemma guarded_index {A S} (l : list A) q (s : S) : 0 <= q ->
  (if ulen l <=? q then (Err ErrNotFound, s)
   else match l !! Z.to_nat q with
        | Some e => (Ok e, s) | None => (Panic "index out of range", s) end)
  = (found (l !! Z.to_nat q), s).
Proof.
  intros Q. unfold ulen. destruct (Z.leb_spec (Z.of_nat (length l)) q) as [L|L].
  - by rewrite lookup_ge_None_2 by lia.
  - destruct (lookup_lt_is_Some_2 l (Z.to_nat q)) as [y ->]; [lia|done].
Qed.

#[global] Program Instance mem_storage_laws : StorageLaws InMemoryStorage := {
  log_of s c := slice (entries s) c;
  snaps_of s c := slice (snapshots s) c;
}.
Next Obligation.
  intros c e s E. unfold AppendEntry, mem_storage, mem_AppendEntry.
  rewrite (proj2 (Z.eqb_eq _ _)) by (symmetry; exact E). eexists. split; [done|].
  split; intros d; cbn; [apply slice_insert|done].
Qed.
Next Obligation.
  intros c e s E. unfold AppendEntry, mem_storage, mem_AppendEntry.
  by rewrite (proj2 (Z.eqb_neq _ _)) by (intros E'; by apply E).
Qed.
Next Obligation. intros c s. apply guarded_last. Qed.
Next Obligation. intros c q s Q. by apply guarded_index. Qed.
Next Obligation.
  intros c q s Q. cbn. unfold mem_EntriesSince, ulen.
  destruct (Z.leb_spec (Z.of_nat (length (slice (entries s) c))) q).
  - by rewrite drop_ge by lia.
  - rewrite take_ge; [done|]. rewrite length_drop. lia.
Qed.
Next Obligation.
  intros n s. eexists. split; [done|]. split; intros d; cbn; [|done].
  rewrite slice_insert. by destruct (decide (d = snap_ChatID n)) as [->|].
Qed.
Next Obligation. intros c s. apply guarded_last. Qed.
Next Obligation. intros c i s Q. by apply guarded_index. Qed.

(** ** The properties *)

(** The writes a client can ask of the store. *)
Inductive write_call := CAppend (chatID : string) (e : LogEntry) | CSave (snap : MerkleSnapshot).

Definition do_write (w : write_call) (s : InMemoryStorage) : InMemoryStorage :=
  match w with
  | CAppend c e => (mem_AppendEntry c e s).2
  | CSave n => (mem_SaveSnapshot n s).2
  end.

(** Every chat is numbered from zero without gaps, and every snapshot is filed
    under its own chat. *)
Definition store_ok (s : InMemoryStorage) : Prop :=
  (forall c k e, slice (entries s) c !! k = Some e -> Sequence e = Z.of_nat k) /\
  (forall c, Forall (fun n => snap_ChatID n = c) (slice (snapshots s) c)).

Lemma do_write_ok w s : store_ok s -> store_ok (do_write w s).
Proof.
  intros [Ke Ks]. destruct w as [c e|n]; cbn.
  - unfold mem_AppendEntry. destruct (Z.eqb_spec (ulen (slice (entries s) c)) (Sequence e)) as [E|]; [|by split].
    split; [|done]. cbn. intros d k f. rewrite slice_insert. case_decide as D; [subst d|apply Ke].
    intros [[_ L]|[-> <-]]%lookup_snoc_Some; [by eapply Ke|done].
  - split; [done|]. intros d. cbn. rewrite slice_insert. case_decide as D; [|apply Ks].
    subst d. apply Forall_app. by split; [apply Ks|constructor].
Qed.

(** The in-memory store never has a gap.  After any sequence of
    [AppendEntry] and [SaveSnapshot] calls on an empty store, with entries of
    any sequence for any chats, the entry at position [k] of a chat has
    sequence [k], and a chat's snapshots are its own. *)
Theorem memory_store_contiguous ws : store_ok (foldl (fun s w => do_write w s) NewInMemoryStorage ws).
Proof.
  assert (store_ok NewInMemoryStorage) as K by (by split).
  revert K. generalize NewInMemoryStorage. induction ws as [|w ws IH]; intros s K; [done|].
  apply IH. by apply do_write_ok.
Qed.

(** [AppendEntry] of the in-memory store, on both branches: an entry whose
    sequence is not the chat's length is refused with [ErrSequenceGap] and
    nothing changes; otherwise it becomes the chat's last entry, and neither
    other chats nor snapshots change. *)
Theorem memory_append_contract c e s :
  if decide (Sequence e = Z.of_nat (length (slice (entries s) c)))
  then exists s', mem_AppendEntry c e s = (Ok tt, s') /\ snapshots s' = snapshots s /\
    (forall d, slice (entries s') d = if decide (d = c) then slice (entries s) c ++ [e] else slice (entries s) d) /\
    mem_LastEntry c s' = (Ok e, s') /\ mem_Entry c (Sequence e) s' = (Ok e, s')
  else mem_AppendEntry c e s = (Err ErrSequenceGap, s).
Proof.
  unfold mem_AppendEntry, ulen. case_decide as D; [|by rewrite (proj2 (Z.eqb_neq _ _))].
  rewrite (proj2 (Z.eqb_eq _ _)) by done. eexists. split; [done|]. split; [done|].
  assert (forall d, slice (<[c := slice (entries s) c ++ [e]]> (entries s)) d =
    if decide (d = c) then slice (entries s) c ++ [e] else slice (entries s) d) as L by (intros; apply slice_insert).
  split; [exact L|]. specialize (L c). rewrite decide_True in L by done. split.
  - etransitivity; [apply guarded_last|]. cbn. rewrite L, last_snoc. done.
  - etransitivity; [apply guarded_index; lia|]. cbn. rewrite L, D, Nat2Z.id.
    rewrite lookup_app_r, Nat.sub_diag by lia. done.
Qed.

(** The reads of the in-memory store agree on one list per chat: [Entry]
    and [SnapshotAt] index it and return [ErrNotFound] beyond its end,
    [LastEntry] and [LatestSnapshot] return its last element, [ErrNotFound]
    when there is none, [EntriesSince] its tail (beyond the end it is empty, and
    never the nil slice); none of
    them panics or changes the store. *)
Theorem memory_reads_contract c q s : 0 <= q ->
  let es := slice (entries s) c in let ns := slice (snapshots s) c in
  mem_Entry c q s = (found (es !! Z.to_nat q), s) /\
  mem_LastEntry c s = (found (last es), s) /\
  mem_EntriesSince c q s = (Ok (made (drop (Z.to_nat q) es)), s) /\
  mem_SnapshotAt c q s = (found (ns !! Z.to_nat q), s) /\
  mem_LatestSnapshot c s = (found (last ns), s).
Proof.
  intros Q. split_and!; [by apply guarded_index|apply guarded_last| |by apply guarded_index|apply guarded_last].
  exact (entries_since (StorageLaws := mem_storage_laws) c q s Q).
Qed.

Lemma memory_reads_contract_witness :
  mem_Entry "c" 7 NewInMemoryStorage = (Err ErrNotFound, NewInMemoryStorage) /\
  mem_EntriesSince "c" 7 NewInMemoryStorage = (Ok (made []), NewInMemoryStorage).
Proof.
  destruct (memory_reads_contract "c" 7 NewInMemoryStorage ltac:(lia)) as (A & _ & B & _).
  split; [exact A|exact B].
Defined.
