(* ===== verification/Cache.v ===== *)
(** * Cache: the cache port and its in-memory and no-op implementations
      ([internal/cache/cache.go])

    Public keys are Go slices, that is references: the in-memory cache copies
    the caller's slice on [SetPublicKey] and hands out its own slice on
    [GetPublicKey].  The model keeps the heap of slices, so the copy and the
    aliasing are visible. *)
From S2P Require Import Prelude Codec.

(** ** Slices in a heap *)

Definition ref : Type := nat.
Abbreviation heap := (gmap ref (list byte)).

Definition contents (h : heap) (r : ref) : list byte := default [] (h !! r).

(** [make] and [copy] into a slice nobody else holds. *)
Definition alloc (h : heap) (v : list byte) : ref * heap :=
  let r := fresh (dom h) in (r, <[r := v]> h).

(** A write [s[i] = b] through one reference. *)
Definition write (r : ref) (i : nat) (b : byte) (h : heap) : heap :=
  <[r := <[i := b]> (contents h r)]> h.

(** ** The port *)

Class Cache (C : Type) := {
  SetMerkleRoot : string -> string -> M C unit;
  GetMerkleRoot : string -> M C (option string);
  SetPublicKey : string -> ref -> M C unit;
  GetPublicKey : string -> M C (option ref);
}.

(** The two setters return nothing to the caller: they cannot fail. *)
Class CacheLaws (C : Type) `{Cache C} : Prop := {
  set_root_returns c r s : exists s', SetMerkleRoot c r s = (Ok tt, s');
  set_key_returns u k s : exists s', SetPublicKey u k s = (Ok tt, s');
}.

(** ** Noop *)

Inductive NoopCache := NoopC.

Definition noop_SetMerkleRoot (_ _ : string) : M NoopCache unit := mret tt.
Definition noop_GetMerkleRoot (_ : string) : M NoopCache (option string) := mret None.
Definition noop_SetPublicKey (_ : string) (_ : ref) : M NoopCache unit := mret tt.
Definition noop_GetPublicKey (_ : string) : M NoopCache (option ref) := mret None.

#[global] Instance noop_cache : Cache NoopCache := {
  SetMerkleRoot := noop_SetMerkleRoot;
  GetMerkleRoot := noop_GetMerkleRoot;
  SetPublicKey := noop_SetPublicKey;
  GetPublicKey := noop_GetPublicKey;
}.

#[global] Instance noop_cache_laws : CacheLaws NoopCache.
Proof. split; intros; by eexists. Qed.

(** ** In memory *)

Record InMemoryCache := {
  roots : gmap string string;
  keys : gmap string ref;
  slices : heap;   (**r the heap the cache and its callers share *)
}.

Definition NewInMemoryCache (h : heap) : InMemoryCache := {| roots := ∅; keys := ∅; slices := h |}.

Definition mem_SetMerkleRoot (chatID root : string) : M InMemoryCache unit :=
  modify (fun s => {| roots := <[chatID := root]> (roots s); keys := keys s; slices := slices s |}).

Definition mem_GetMerkleRoot (chatID : string) : M InMemoryCache (option string) :=
  gets (fun s => roots s !! chatID).

Definition mem_SetPublicKey (userID : string) (publicKey : ref) : M InMemoryCache unit :=
  modify (fun s =>
    let '(cp, h) := alloc (slices s) (contents (slices s) publicKey) in
    {| roots := roots s; keys := <[userID := cp]> (keys s); slices := h |}).

Definition mem_GetPublicKey (userID : string) : M InMemoryCache (option ref) :=
  gets (fun s => keys s !! userID).

#[global] Instance mem_cache : Cache InMemoryCache := {
  SetMerkleRoot := mem_SetMerkleRoot;
  GetMerkleRoot := mem_GetMerkleRoot;
  SetPublicKey := mem_SetPublicKey;
  GetPublicKey := mem_GetPublicKey;
}.

#[global] Instance mem_cache_laws : CacheLaws InMemoryCache.
Proof. split; intros; by eexists. Qed.

(** A caller writes through a slice it holds. *)
Definition caller_write (r : ref) (i : nat) (b : byte) (s : InMemoryCache) : InMemoryCache :=
  {| roots := roots s; keys := keys s; slices := write r i b (slices s) |}.

(** The bytes a lookup of a public key shows at this moment. *)
Definition key_bytes (userID : string) (s : InMemoryCache) : option (list byte) :=
  contents (slices s) <$> keys s !! userID.

(** Every cached key is an allocated slice. *)
Definition cache_ok (s : InMemoryCache) : Prop :=
  map_Forall (fun _ r => is_Some (slices s !! r)) (keys s).

Lemma alloc_fresh h v r h' : alloc h v = (r, h') -> h !! r = None /\ h' = <[r := v]> h.
Proof.
  unfold alloc. intros [= <- <-]. split; [|done].
  apply not_elem_of_dom, is_fresh.
Qed.

Lemma contents_write r i b h q :
  contents (write r i b h) q = if decide (q = r) then <[i := b]> (contents h r) else contents h q.
Proof.
  unfold contents, write. destruct (decide (q = r)) as [->|N].
  - by rewrite lookup_insert_eq.
  - by rewrite lookup_insert_ne by done.
Qed.

Lemma key_bytes_write u r i b s : keys s !! u <> Some r ->
  key_bytes u (caller_write r i b s) = key_bytes u s.
Proof.
  intros N. unfold key_bytes, caller_write. cbn. destruct (keys s !! u) as [q|]; [|done].
  cbn. rewrite contents_write. case_decide; congruence.
Qed.

Lemma set_key_bytes u k s s' : mem_SetPublicKey u k s = (Ok tt, s') ->
  key_bytes u s' = Some (contents (slices s) k) /\
  (forall r, is_Some (slices s !! r) -> keys s' !! u <> Some r) /\
  (cache_ok s -> forall v, v <> u -> key_bytes v s' = key_bytes v s).
Proof.
  unfold mem_SetPublicKey, modify.
  destruct (alloc (slices s) (contents (slices s) k)) as [cp h] eqn:A.
  apply alloc_fresh in A as [F ->]. intros [= <-]. unfold key_bytes, contents. cbn. split_and!.
  - rewrite lookup_insert_eq. cbn. by rewrite lookup_insert_eq.
  - intros r [x Hx]. rewrite lookup_insert_eq. congruence.
  - intros K v N. rewrite lookup_insert_ne by done.
    destruct (keys s !! v) as [q|] eqn:Q; [|done]. cbn.
    apply K in Q as [y Hy]. rewrite lookup_insert_ne; [done|]. congruence.
Qed.

(** ** The properties *)

(** The cache returns the last root set for the chat and nothing for a chat
    without one; setting a root changes no other chat's root and no key; the
    no-op cache never returns anything. *)
Theorem cache_roots_contract c root s :
  exists s', mem_SetMerkleRoot c root s = (Ok tt, s') /\ keys s' = keys s /\ slices s' = slices s /\
    (forall d, mem_GetMerkleRoot d s' = (Ok (if decide (d = c) then Some root else roots s !! d), s')) /\
    mem_GetMerkleRoot c (NewInMemoryCache (slices s)) = (Ok None, NewInMemoryCache (slices s)) /\
    forall n, noop_GetMerkleRoot c (noop_SetMerkleRoot c root n).2 = (Ok None, n).
Proof.
  eexists. split; [done|]. split_and!; try done.
  - intros d. unfold mem_GetMerkleRoot, gets. cbn. do 2 f_equal.
    case_decide; [subst; apply lookup_insert_eq|by apply lookup_insert_ne].
Qed.

(** A cached public key is a copy.  After [SetPublicKey] the lookup shows
    the bytes the slice had then, and no later write through a slice the caller
    held before the call, the argument included, changes them; other users'
    keys stay. *)
Theorem cached_key_is_copied u k s s' : cache_ok s -> mem_SetPublicKey u k s = (Ok tt, s') ->
  key_bytes u s' = Some (contents (slices s) k) /\
  (forall r i b, is_Some (slices s !! r) -> key_bytes u (caller_write r i b s') = Some (contents (slices s) k)) /\
  (forall v, v <> u -> key_bytes v s' = key_bytes v s).
Proof.
  intros K E. destruct (set_key_bytes u k s s' E) as (B & F & O). split_and!; [done| |by apply O].
  intros r i b R. rewrite key_bytes_write; [done|by apply F].
Qed.

(** The slice [GetPublicKey] hands out is the cache's own: a caller that
    writes to it changes the key the next lookup shows. *)
Theorem cached_key_is_shared u r i b s : mem_GetPublicKey u s = (Ok (Some r), s) ->
  key_bytes u (caller_write r i b s) = (fun v => <[i := b]> v) <$> key_bytes u s.
Proof.
  unfold mem_GetPublicKey, gets, key_bytes, caller_write. intros [= E]. cbn. rewrite E. cbn.
  by rewrite contents_write, decide_True.
Qed.

(** One key set from a slice the caller keeps. *)
Definition one_key : InMemoryCache :=
  (mem_SetPublicKey "alice" 0%nat (NewInMemoryCache {[ 0%nat := [x01; x02] ]})).2.

Lemma cached_key_is_copied_witness :
  key_bytes "alice" (caller_write 0%nat 0%nat xff one_key) = Some [x01; x02].
Proof.
  refine (proj1 (proj2 (cached_key_is_copied "alice" 0%nat (NewInMemoryCache {[ 0%nat := [x01; x02] ]}) one_key _ eq_refl))
    0%nat 0%nat xff _); [|by eexists].
  apply map_Forall_empty.
Defined.

Lemma cached_key_is_shared_witness :
  key_bytes "alice" (caller_write 1%nat 0%nat xff one_key) = Some [xff; x02].
Proof. exact (cached_key_is_shared "alice" 1%nat 0%nat xff one_key eq_refl). Defined.
