(* ===== verification/Redis.v ===== *)
(** * Redis: the Redis adapter of the cache port ([internal/cache/redis.go])

    Two families of keys in one key-value server, values with a time to live,
    and errors nobody sees.  The client is a class; its laws say what a server
    may hold after a [SET].  The adapter cannot fail its callers, never mixes
    chats with users, and answers with a value that was set; the last one, as
    long as the writes reach the server. *)
From S2P Require Import Prelude Codec GoTime Cache.

(** ** The client library *)

Class RedisClient (W : Type) := {
  (** [redis.NewClient]: a pool, which connects when it is used. *)
  NewClient (addr password : string) (db : Z) : M W nat;
  PingServer (client : nat) : M W unit;
  CloseClient (client : nat) : M W unit;
  (** [SET] with an expiration; zero is none. *)
  SetValue (client : nat) (timeout : Z) (key : string) (value : list byte) (expiration : Z) : M W unit;
  (** [GET]: an absent key is an error too. *)
  GetValue (client : nat) (timeout : Z) (key : string) : M W (list byte);
}.

(** What the documentation promises.  Values may go at any time: they expire,
    are evicted, or the server restarts. *)
Class RedisLaws (W : Type) `{RedisClient W} := {
  data : W -> gmap string (list byte);
  new_client_returns a p db w : exists c w', NewClient a p db w = (Ok c, w');
  set_cases c t k v e w : exists w',
    (SetValue c t k v e w = (Ok tt, w') /\ data w' ⊆ <[k := v]> (data w)) \/
    exists err, SetValue c t k v e w = (Err err, w') /\ (data w' ⊆ data w \/ data w' ⊆ <[k := v]> (data w));
  get_cases c t k w : exists w', data w' ⊆ data w /\
    ((exists v, GetValue c t k w = (Ok v, w') /\ data w !! k = Some v) \/
     exists err, GetValue c t k w = (Err err, w'));
  elapse : W -> W -> Prop;
  elapse_data w w' : elapse w w' -> data w' ⊆ data w;
}.

(** ** The adapter *)

Record Redis := { client : nat; ttl : Z }.

(** The adapter of a node, the server, and the heap of byte slices. *)
Record redis_node (W : Type) := RedisNode { redis : Redis; server : W; slices : heap }.
Arguments RedisNode {W}. Arguments redis {W}. Arguments server {W}. Arguments slices {W}.

Section Adapter.
Context {W : Type} `{RedisClient W}.

Definition NewRedis (addr password : string) (db : Z) (ttl : Z) : M W Redis :=
  c ← NewClient addr password db; mret {| client := c; ttl := ttl |}.
Definition Ping (r : Redis) : M W unit := PingServer (client r).
Definition redis_Close (r : Redis) : M W unit := CloseClient (client r).

(** The deadline of [ctx]. *)
Definition redis_ctx : Z := 2 * Second.

Definition root_key (chatID : string) : string := "merkle_root:" ++ chatID.
Definition user_key (userID : string) : string := "pubkey:" ++ userID.

Definition on_server {A} (m : Redis -> M W A) : M (redis_node W) A := fun s =>
  let '(o, w) := m (redis s) (server s) in (o, RedisNode (redis s) w (slices s)).

(** The result of [Set] is not looked at. *)
Definition set_value (key : string) (value : list byte) : M (redis_node W) unit :=
  try (on_server (fun r => SetValue (client r) redis_ctx key value (ttl r)));; mret tt.
(** Every error of [Get] is a miss. *)
Definition get_value (key : string) : M (redis_node W) (option (list byte)) :=
  x ← try (on_server (fun r => GetValue (client r) redis_ctx key));
  mret match x with inl v => Some v | inr _ => None end.

Definition redis_SetMerkleRoot (chatID root : string) : M (redis_node W) unit :=
  set_value (root_key chatID) (bytes root).
Definition redis_GetMerkleRoot (chatID : string) : M (redis_node W) (option string) :=
  v ← get_value (root_key chatID); mret (text <$> v).
Definition redis_SetPublicKey (userID : string) (publicKey : ref) : M (redis_node W) unit :=
  v ← gets (fun s => contents (slices s) publicKey); set_value (user_key userID) v.
(** The bytes that came over the network, in a slice of their own. *)
Definition new_slice (v : list byte) : M (redis_node W) ref := fun s =>
  let '(r, h) := alloc (slices s) v in (Ok r, RedisNode (redis s) (server s) h).
Definition redis_GetPublicKey (userID : string) : M (redis_node W) (option ref) :=
  v ← get_value (user_key userID);
  match v with
  | None => mret None
  | Some v => r ← new_slice v; mret (Some r)
  end.

#[global] Instance redis_cache : Cache (redis_node W) := {
  SetMerkleRoot := redis_SetMerkleRoot;
  GetMerkleRoot := redis_GetMerkleRoot;
  SetPublicKey := redis_SetPublicKey;
  GetPublicKey := redis_GetPublicKey;
}.
End Adapter.

(** ** Keys *)

#[global] Instance root_key_inj : Inj (=) (=) root_key.
Proof. intros a b E. by injection E. Qed.
#[global] Instance user_key_inj : Inj (=) (=) user_key.
Proof. intros a b E. by injection E. Qed.
Lemma keys_apart c u : root_key c <> user_key u.
Proof. discriminate. Qed.

(** ** Runs *)

Section Runs.
Context {W : Type} `{RL : RedisLaws W}.
Implicit Types s : redis_node W.

Lemma set_value_cases k v s : exists ok w',
  set_value k v s = (Ok tt, RedisNode (redis s) w' (slices s)) /\
  ok = bool_decide ((SetValue (client (redis s)) redis_ctx k v (ttl (redis s)) (server s)).1 = Ok tt) /\
  (data w' ⊆ <[k := v]> (data (server s)) \/ ok = false /\ data w' ⊆ data (server s)).
Proof.
  unfold set_value, on_server. destruct (set_cases (client (redis s)) redis_ctx k v (ttl (redis s)) (server s))
    as (w' & [[E D]|(err & E & D)]); eexists _, w'; unfold try, mbind, M_bind; rewrite E; cbn;
    (split; [done|split; [done|]]); [by left|].
  rewrite bool_decide_eq_false_2 by done. destruct D as [D|D]; [by right|by left].
Qed.

Lemma get_value_cases k s : exists o w',
  get_value k s = (Ok o, RedisNode (redis s) w' (slices s)) /\ data w' ⊆ data (server s) /\
  forall v, o = Some v -> data (server s) !! k = Some v.
Proof.
  unfold get_value, on_server. destruct (get_cases (client (redis s)) redis_ctx k (server s))
    as (w' & D & [(v & E & L)|(err & E)]); eexists _, w'; unfold try, mbind, M_bind; rewrite E; cbn;
    (split; [done|split; [done|]]); [by intros ? [= <-]|done].
Qed.

#[global] Instance redis_cache_laws : CacheLaws (redis_node W).
Proof.
  split.
  - intros c r s. destruct (set_value_cases (root_key c) (bytes r) s) as (ok & w & E & _). by eexists.
  - intros u k s. destruct (set_value_cases (user_key u) (contents (slices s) k) s) as (ok & w & E & _). eexists.
    cbn. unfold redis_SetPublicKey. by erewrite bind_ok by done.
Qed.

(** A write, and whether the server confirmed it; or something else. *)
Inductive klabel := KSet (key : string) (value : list byte) (ok : bool) | KQuiet.

Definition confirms s k v : bool :=
  bool_decide ((SetValue (client (redis s)) redis_ctx k v (ttl (redis s)) (server s)).1 = Ok tt).

Inductive kstep s : klabel -> redis_node W -> Prop :=
  | kstep_root c r s' : redis_SetMerkleRoot c r s = (Ok tt, s') ->
      kstep s (KSet (root_key c) (bytes r) (confirms s (root_key c) (bytes r))) s'
  | kstep_key u p s' : redis_SetPublicKey u p s = (Ok tt, s') ->
      kstep s (KSet (user_key u) (contents (slices s) p) (confirms s (user_key u) (contents (slices s) p))) s'
  | kstep_get_root c o s' : redis_GetMerkleRoot c s = (Ok o, s') -> kstep s KQuiet s'
  | kstep_get_key u o s' : redis_GetPublicKey u s = (Ok o, s') -> kstep s KQuiet s'
  | kstep_elapse w' h : elapse (server s) w' -> kstep s KQuiet (RedisNode (redis s) w' h).

Inductive ktrace s0 : list klabel -> redis_node W -> Prop :=
  | ktrace_start : ktrace s0 [] s0
  | ktrace_step t s l s' : ktrace s0 t s -> kstep s l s' -> ktrace s0 (t ++ [l]) s'.

(** The values a key may have: the last one that was confirmed, and what was
    tried since; before the first confirmation also what was there. *)
Definition may_step (k : string) (vs : list (list byte)) (l : klabel) : list (list byte) :=
  match l with
  | KSet k' v ok => if decide (k' = k) then (if ok then [v] else v :: vs) else vs
  | KQuiet => vs
  end.
Definition may_hold s0 (k : string) (t : list klabel) : list (list byte) :=
  foldl (may_step k) (option_list (data (server s0) !! k)) t.

Lemma may_hold_snoc s0 k t l : may_hold s0 k (t ++ [l]) = may_step k (may_hold s0 k t) l.
Proof. unfold may_hold. by rewrite foldl_app. Qed.

Lemma ktrace_data s0 t s : ktrace s0 t s -> forall k v, data (server s) !! k = Some v -> v ∈ may_hold s0 k t.
Proof.
  induction 1 as [|t s l s' T IH St]; intros k v L.
  - unfold may_hold. cbn. rewrite L. by left.
  - rewrite may_hold_snoc.
    assert (forall w', data w' ⊆ data (server s) -> data w' !! k = Some v -> v ∈ may_hold s0 k t) as Old
      by (intros w' D Lw; apply IH; by eapply lookup_weaken).
    assert (forall k' v' w', server s' = w' -> (data w' ⊆ <[k' := v']> (data (server s)) \/
        confirms s k' v' = false /\ data w' ⊆ data (server s)) ->
        v ∈ may_step k (may_hold s0 k t) (KSet k' v' (confirms s k' v'))) as New.
    { intros k' v' w' <- D. cbn. case_decide as Dk; [subst k'|].
      - destruct D as [D|[-> D]]; [|right; by apply (Old _ D)].
        assert (v' = v) as -> by (pose proof (lookup_weaken _ _ _ _ L D) as X; rewrite lookup_insert_eq in X; congruence).
        destruct (confirms s k v); by left.
      - destruct D as [D|[_ D]]; [|by apply (Old _ D)].
        pose proof (lookup_weaken _ _ _ _ L D) as X. rewrite lookup_insert_ne in X by done. by apply IH. }
    destruct St as [c r s' E|u p s' E|c o s' E|u o s' E|w' h E].
    + destruct (set_value_cases (root_key c) (bytes r) s) as (ok & w & E2 & -> & D).
      unfold redis_SetMerkleRoot in E. rewrite E in E2. injection E2 as ->. by apply (New _ _ w).
    + destruct (set_value_cases (user_key u) (contents (slices s) p) s) as (ok & w & E2 & -> & D).
      unfold redis_SetPublicKey in E. erewrite bind_ok in E by done. rewrite E in E2. injection E2 as ->. by apply (New _ _ w).
    + destruct (get_value_cases (root_key c) s) as (o2 & w & E2 & D & _).
      unfold redis_GetMerkleRoot in E. rewrite (bind_ok _ _ _ _ _ E2) in E. injection E as _ <-. by apply (Old w).
    + destruct (get_value_cases (user_key u) s) as (o2 & w & E2 & D & _).
      unfold redis_GetPublicKey in E. rewrite (bind_ok _ _ _ _ _ E2) in E. destruct o2 as [v2|]; [|injection E as _ <-; by apply (Old w)].
      cbn in E. injection E as _ <-. by apply (Old w).
    + by apply (Old w'); [apply elapse_data|].
Qed.

(** ** The properties *)

(** C38: what the Redis cache promises.  In every run, with a server that loses
    values, fails and comes back: setting never fails the caller, and a lookup
    answers nothing or a value that was set under that very chat or user, the
    last one if the server confirmed it; a public key comes in a slice nobody
    else holds. *)
Theorem redis_cache_contract s0 t s : ktrace s0 t s ->
  (forall c r, exists s', SetMerkleRoot c r s = (Ok tt, s') /\
     kstep s (KSet (root_key c) (bytes r) (confirms s (root_key c) (bytes r))) s') /\
  (forall u p, exists s', SetPublicKey u p s = (Ok tt, s') /\
     kstep s (KSet (user_key u) (contents (slices s) p) (confirms s (user_key u) (contents (slices s) p))) s') /\
  (forall c, exists o s', GetMerkleRoot c s = (Ok o, s') /\
     forall r, o = Some r -> bytes r ∈ may_hold s0 (root_key c) t) /\
  (forall u, exists o s', GetPublicKey u s = (Ok o, s') /\
     forall r, o = Some r -> contents (slices s') r ∈ may_hold s0 (user_key u) t /\ slices s !! r = None).
Proof.
  intros T. pose proof (ktrace_data _ _ _ T) as D. split_and!.
  - intros c r. destruct (set_root_returns c r s) as [s' E]. exists s'. split; [exact E|by constructor].
  - intros u p. destruct (set_key_returns u p s) as [s' E]. exists s'. split; [exact E|by constructor].
  - intros c. destruct (get_value_cases (root_key c) s) as (o & w & E & _ & L).
    do 2 eexists. split; [cbn; unfold redis_GetMerkleRoot; by rewrite (bind_ok _ _ _ _ _ E)|].
    intros r. destruct o as [v|]; [|done]. intros [= <-]. rewrite bytes_text. by apply D, L.
  - intros u. destruct (get_value_cases (user_key u) s) as (o & w & E & _ & L).
    cbn. unfold redis_GetPublicKey. rewrite (bind_ok _ _ _ _ _ E). destruct o as [v|]; [|by do 2 eexists].
    unfold new_slice, mbind, M_bind. cbn [slices]. destruct (alloc (slices s) v) as [r h] eqn:A.
    do 2 eexists. split; [done|]. intros ? [= <-]. apply alloc_fresh in A as [F ->]. cbn [slices].
    split; [|done]. unfold contents. rewrite lookup_insert_eq. by apply D, L.
Qed.
End Runs.

(** ** A server that can be away *)

Module RedisSample.
Record kv := { up : bool; values : gmap string (list byte) }.

#[global] Instance kv_client : RedisClient kv := {
  NewClient _ _ _ w := (Ok 0%nat, w);
  PingServer _ w := (if up w then Ok tt else Err (External "timeout"), w);
  CloseClient _ w := (Ok tt, w);
  SetValue _ _ k v _ w :=
    if up w then (Ok tt, {| up := true; values := <[k := v]> (values w) |}) else (Err (External "timeout"), w);
  GetValue _ _ k w :=
    if up w then (match values w !! k with Some v => Ok v | None => Err (External "redis: nil") end, w)
    else (Err (External "timeout"), w);
}.

#[global] Program Instance kv_laws : RedisLaws kv := {
  data := values;
  elapse w w' := values w' ⊆ values w;
}.
Next Obligation. intros a p db w. by do 2 eexists. Qed.
Next Obligation.
  intros c t k v e w. cbn. destruct (up w); eexists; [by left|right]. eexists. split; [done|]. by left.
Qed.
Next Obligation.
  intros c t k w. cbn. exists w. split; [done|]. destruct (up w); [|right; by eexists].
  destruct (values w !! k) as [v|]; [left; by exists v|right; by eexists].
Qed.
Next Obligation. done. Qed.

Definition idle : redis_node kv :=
  RedisNode {| client := 0%nat; ttl := 3600 * Second |} {| up := true; values := ∅ |} ∅.
Definition flip (s : redis_node kv) : redis_node kv :=
  RedisNode (redis s) {| up := negb (up (server s)); values := values (server s) |} (slices s).
(** A root set, the server away while the next is set, and back. *)
Definition set1 : redis_node kv := (redis_SetMerkleRoot "c" "r1" idle).2.
Definition set2 : redis_node kv := flip (redis_SetMerkleRoot "c" "r2" (flip set1)).2.
Definition labels : list klabel :=
  [KSet (root_key "c") (bytes "r1") true; KQuiet; KSet (root_key "c") (bytes "r2") false; KQuiet].

Lemma flips t s : ktrace idle t s -> ktrace idle (t ++ [KQuiet]) (flip s).
Proof. intros T. eapply ktrace_step; [exact T|]. apply kstep_elapse. cbn. done. Qed.

Lemma step_root s c r s' ok : redis_SetMerkleRoot c r s = (Ok tt, s') -> confirms s (root_key c) (bytes r) = ok ->
  kstep s (KSet (root_key c) (bytes r) ok) s'.
Proof. intros E <-. by apply kstep_root. Qed.

Lemma lost_write_trace : ktrace idle labels set2.
Proof.
  apply (flips [KSet (root_key "c") (bytes "r1") true; KQuiet; KSet (root_key "c") (bytes "r2") false]).
  apply (ktrace_step idle [KSet (root_key "c") (bytes "r1") true; KQuiet] (flip set1)).
  - apply (flips [KSet (root_key "c") (bytes "r1") true]).
    apply (ktrace_step idle [] idle); [constructor|].
    apply step_root; vm_compute; reflexivity.
  - apply step_root; vm_compute; reflexivity.
Qed.
End RedisSample.

Lemma redis_cache_contract_witness :
  redis_GetMerkleRoot "c" RedisSample.set2 = (Ok (Some "r1"%string), RedisSample.set2) /\
  bytes "r1" ∈ may_hold RedisSample.idle (root_key "c") RedisSample.labels.
Proof.
  assert (redis_GetMerkleRoot "c" RedisSample.set2 = (Ok (Some "r1"%string), RedisSample.set2)) as G by (vm_compute; reflexivity).
  split; [exact G|].
  destruct (redis_cache_contract _ _ _ RedisSample.lost_write_trace) as (_ & _ & R & _). destruct (R "c"%string) as (o & s' & E & M).
  change (redis_GetMerkleRoot "c" RedisSample.set2 = (Ok o, s')) in E. rewrite G in E. injection E as <- _.
  exact (M "r1"%string eq_refl).
Defined.
