(* ===== verification/Broker.v ===== *)
(** * Broker: the event port and its in-memory and no-op implementations
      ([internal/broker/broker.go])

    The in-memory broker owns one buffered channel per subscription.  A
    channel outlives its subscription: the receiver can still drain it.  The
    operations are the steps of a machine; its invariant excludes the panics
    of Go channels, and its traces give what a subscriber receives. *)
From S2P Require Import Prelude Codec.

(** A string type with two constants; an event read off the wire may carry any other text. *)
Definition EventKind : Type := string.
Definition EntryAppended : EventKind := "entry_appended"%string.
Definition SnapshotCreated : EventKind := "snapshot_created"%string.

Record Event := { Kind : EventKind; ev_ChatID : string; ev_Sequence : Z; ev_EntryHash : string }.
#[global] Instance Event_eq_dec : EqDecision Event.
Proof. solve_decision. Defined.

(** ** The port: a subscription is named by the channel it receives from *)

Class Broker (B : Type) := {
  Publish : Event -> M B unit;
  Subscribe : M B nat;
  Cancel : nat -> M B unit;
}.

(** What its callers rely on: while [broker_inv] holds, every operation
    returns, and keeps it.  Cancelling is promised to return for a subscription
    that is [live], that is not cancelled yet. *)
Class BrokerLaws (B : Type) `{Broker B} := {
  broker_inv : B -> Prop;
  live : nat -> B -> Prop;
  publish_returns ev b : broker_inv b ->
    exists b', broker_inv b' /\
      (Publish ev b = (Ok tt, b') \/ exists e, Publish ev b = (Err e, b'));
  subscribe_returns b : broker_inv b ->
    exists b', broker_inv b' /\
      ((exists id, Subscribe b = (Ok id, b') /\ live id b') \/ exists e, Subscribe b = (Err e, b'));
  cancel_returns id b : broker_inv b -> live id b -> exists b', broker_inv b' /\ Cancel id b = (Ok tt, b');
  cancel_keeps id b : broker_inv b -> broker_inv (Cancel id b).2;
  cancel_ends id b : broker_inv b -> (Cancel id b).1 <> Block;
}.

Section LawFacts.
Context {B : Type} `{BL : BrokerLaws B}.

Lemma subscribe_keeps b : broker_inv b -> broker_inv (Subscribe b).2.
Proof. intros I. by destruct (subscribe_returns b I) as (b' & I' & [(id & -> & _)|[e ->]]). Qed.
End LawFacts.

(** ** Noop *)

Inductive NoopBroker := NoopB.

Definition noop_Publish (_ : Event) : M NoopBroker unit := mret tt.
(** A channel nobody sends on. *)
Definition noop_Subscribe : M NoopBroker nat := mret 0%nat.
Definition noop_Cancel (_ : nat) : M NoopBroker unit := mret tt.

#[global] Instance noop_broker : Broker NoopBroker :=
  { Publish := noop_Publish; Subscribe := noop_Subscribe; Cancel := noop_Cancel }.

#[global] Program Instance noop_broker_laws : BrokerLaws NoopBroker :=
  { broker_inv _ := True; live _ _ := True }.
Next Obligation. intros ev b _. exists b. by split; [|left]. Qed.
Next Obligation. intros b _. exists b. split; [done|left]. by eexists. Qed.
Next Obligation. intros id b _ _. by exists b. Qed.
Next Obligation. done. Qed.
Next Obligation. done. Qed.

(** ** In memory *)

Definition capacity : nat := 64.

Record chan := { buffer : list Event; closed : bool }.

(** Subscription [id] and its channel carry the same number: both are created
    once, by the same call. *)
Record InMemoryBroker := {
  nextID : nat;
  subscribers : gset nat;
  channels : gmap nat chan;
}.

Definition NewInMemoryBroker : InMemoryBroker :=
  {| nextID := 0; subscribers := ∅; channels := ∅ |}.

Definition mem_Subscribe : M InMemoryBroker nat := fun b =>
  let id := nextID b in
  (Ok id, {| nextID := S id;
             subscribers := {[id]} ∪ subscribers b;
             channels := <[id := {| buffer := []; closed := false |}]> (channels b) |}).

(** The [cancel] closure of subscription [id]; closing a closed channel panics. *)
Definition mem_Cancel (id : nat) : M InMemoryBroker unit := fun b =>
  if decide (id ∈ subscribers b) then
    let b' ch := {| nextID := nextID b; subscribers := subscribers b ∖ {[id]};
                    channels := <[id := ch]> (channels b) |} in
    match channels b !! id with
    | Some ch =>
        if closed ch
        then (Panic "close of closed channel", b' ch)
        else (Ok tt, b' {| buffer := buffer ch; closed := true |})
    | None => (Panic "close of nil channel", b)
    end
  else (Ok tt, b).

(** [select { case ch <- event: default: }] *)
Definition send (ev : Event) (ch : chan) : outcome chan :=
  if closed ch then Panic "send on closed channel"
  else if (length (buffer ch) <? capacity)%nat
       then Ok {| buffer := buffer ch ++ [ev]; closed := false |}
       else Ok ch.

(** The [range] over the subscribers, in the order of [ids]. *)
Fixpoint deliver (ev : Event) (ids : list nat) (chs : gmap nat chan) : outcome (gmap nat chan) :=
  match ids with
  | [] => Ok chs
  | id :: r =>
      match chs !! id with
      | Some ch => ch' ← send ev ch; deliver ev r (<[id := ch']> chs)
      | None => deliver ev r chs   (* a nil channel is never ready: [default] *)
      end
  end.

Definition publish_in (ids : list nat) (ev : Event) : M InMemoryBroker unit := fun b =>
  match deliver ev ids (channels b) with
  | Ok chs => (Ok tt, {| nextID := nextID b; subscribers := subscribers b; channels := chs |})
  | Err e => (Err e, b)
  | Panic w => (Panic w, b)
  | Block => (Block, b)
  end.

Definition mem_Publish (ev : Event) : M InMemoryBroker unit := fun b =>
  publish_in (elements (subscribers b)) ev b.

#[global] Instance mem_broker : Broker InMemoryBroker :=
  { Publish := mem_Publish; Subscribe := mem_Subscribe; Cancel := mem_Cancel }.

(** [evt, ok := <-ch] by the holder of the channel: [None] once it is closed
    and drained, and a wait while it is open and empty. *)
Definition receive (id : nat) : M InMemoryBroker (option Event) := fun b =>
  match channels b !! id with
  | None => (Block, b)
  | Some ch =>
      match buffer ch with
      | ev :: r => (Ok (Some ev),
                    {| nextID := nextID b; subscribers := subscribers b;
                       channels := <[id := {| buffer := r; closed := closed ch |}]> (channels b) |})
      | [] => if closed ch then (Ok None, b) else (Block, b)
      end
  end.

(** ** The invariant *)

Record broker_ok (b : InMemoryBroker) : Prop := {
  ok_subscribers id : id ∈ subscribers b ->
    exists ch, channels b !! id = Some ch /\ closed ch = false;
  ok_channels id ch : channels b !! id = Some ch ->
    (id < nextID b)%nat /\ (length (buffer ch) <= capacity)%nat /\
    (closed ch = false -> id ∈ subscribers b);
}.

Lemma broker_ok_new : broker_ok NewInMemoryBroker.
Proof. split; cbn; intros ?; [set_solver|by rewrite lookup_empty]. Qed.

(** One event on one channel. *)
Definition push (ev : Event) (ch : chan) : chan :=
  if (length (buffer ch) <? capacity)%nat
  then {| buffer := buffer ch ++ [ev]; closed := closed ch |} else ch.

Lemma send_open ev ch : closed ch = false -> send ev ch = Ok (push ev ch).
Proof. intros C. unfold send, push. rewrite C. by case_match. Qed.

Lemma push_closed ev ch : closed (push ev ch) = closed ch.
Proof. unfold push. by case_match. Qed.

Lemma push_capacity ev ch : (length (buffer ch) <= capacity)%nat ->
  (length (buffer (push ev ch)) <= capacity)%nat.
Proof.
  unfold push. destruct (Nat.ltb_spec (length (buffer ch)) capacity); [|done].
  cbn. rewrite length_app. cbn. lia.
Qed.

(** The range delivers to every listed channel once, and to no other. *)
Lemma deliver_open ev ids chs : NoDup ids ->
  (forall id, id ∈ ids -> exists ch, chs !! id = Some ch /\ closed ch = false) ->
  exists chs', deliver ev ids chs = Ok chs' /\
    forall id, chs' !! id = if decide (id ∈ ids) then push ev <$> chs !! id else chs !! id.
Proof.
  intros N. revert chs. induction N as [|id ids Hid N IH]; intros chs O; [by eexists|].
  destruct (O id ltac:(left)) as (ch & Hch & Cl). cbn [deliver].
  rewrite Hch, send_open by done. cbn [mbind outcome_bind].
  destruct (IH (<[id := push ev ch]> chs)) as (chs' & E & L).
  - intros j Hj. rewrite lookup_insert_ne by (intros ->; done). apply O. by right.
  - exists chs'. split; [done|]. intros j. rewrite L. destruct (decide (j = id)) as [->|Nj].
    + rewrite decide_False, decide_True, lookup_insert_eq, Hch by (done || by left). done.
    + rewrite lookup_insert_ne by done. by repeat case_decide; set_solver.
Qed.

Lemma publish_in_open ev b ids : broker_ok b -> NoDup ids -> (forall id, id ∈ ids <-> id ∈ subscribers b) ->
  exists chs', publish_in ids ev b =
    (Ok tt, {| nextID := nextID b; subscribers := subscribers b; channels := chs' |}) /\
    forall id, chs' !! id =
      if decide (id ∈ subscribers b) then push ev <$> channels b !! id else channels b !! id.
Proof.
  intros K N I. destruct (deliver_open ev ids (channels b) N) as (chs' & E & L).
  - intros id Hid. by apply K, I.
  - exists chs'. unfold publish_in. rewrite E. split; [done|]. intros id. rewrite L.
    by repeat case_decide; set_solver.
Qed.

Lemma publish_open ev b : broker_ok b ->
  exists chs', mem_Publish ev b =
    (Ok tt, {| nextID := nextID b; subscribers := subscribers b; channels := chs' |}) /\
    forall id, chs' !! id =
      if decide (id ∈ subscribers b) then push ev <$> channels b !! id else channels b !! id.
Proof.
  intros K. apply publish_in_open; [done|apply NoDup_elements|]. intros id. apply elem_of_elements.
Qed.

(** ** Operations preserve the invariant and do not panic *)

Lemma subscribe_ok b id b' : broker_ok b -> mem_Subscribe b = (Ok id, b') ->
  broker_ok b' /\ channels b !! id = None /\ id ∈ subscribers b'.
Proof.
  intros [Ks Kc]. unfold mem_Subscribe. intros [= <- <-]. split_and!.
  - split; cbn.
    + intros j Hj. destruct (decide (j = nextID b)) as [->|N].
      * rewrite lookup_insert_eq. by eexists.
      * rewrite lookup_insert_ne by done. apply Ks. set_solver.
    + intros j ch. destruct (decide (j = nextID b)) as [->|N].
      * rewrite lookup_insert_eq. intros [= <-]. cbn. split_and!; [lia|lia|set_solver].
      * rewrite lookup_insert_ne by done. intros (?&?&?)%Kc. split_and!; [lia|done|set_solver].
  - destruct (channels b !! nextID b) eqn:E; [|done]. apply Kc in E as [? _]. lia.
  - cbn. set_solver.
Qed.

Lemma cancel_ok b id : broker_ok b ->
  exists b', mem_Cancel id b = (Ok tt, b') /\ broker_ok b' /\ subscribers b' = subscribers b ∖ {[id]} /\
    forall j, channels b' !! j =
      if decide (j = id /\ id ∈ subscribers b)
      then (fun ch => {| buffer := buffer ch; closed := true |}) <$> channels b !! j
      else channels b !! j.
Proof.
  intros [Ks Kc]. unfold mem_Cancel. destruct (decide (id ∈ subscribers b)) as [Hid|Hid].
  - destruct (Ks id Hid) as (ch & E & C). rewrite E, C. eexists. split; [done|].
    split_and!; [split; cbn|done|].
    + intros j Hj. rewrite lookup_insert_ne by set_solver. apply Ks. set_solver.
    + intros j ch'. destruct (decide (j = id)) as [->|N].
      * rewrite lookup_insert_eq. intros [= <-]. cbn. by apply Kc in E as (?&?&?).
      * rewrite lookup_insert_ne by done. intros (?&?&?)%Kc. split_and!; [done|done|set_solver].
    + intros j. cbn. destruct (decide (j = id)) as [->|N].
      * by rewrite lookup_insert_eq, decide_True, E by done.
      * by rewrite lookup_insert_ne, decide_False by naive_solver.
  - exists b. split_and!; [done|by split|set_solver|].
    intros j. by rewrite decide_False by naive_solver.
Qed.

Lemma published_ok b ev chs : broker_ok b ->
  (forall id, chs !! id = if decide (id ∈ subscribers b) then push ev <$> channels b !! id else channels b !! id) ->
  broker_ok {| nextID := nextID b; subscribers := subscribers b; channels := chs |}.
Proof.
  intros [Ks Kc] L. split; cbn; intros id.
  - intros Hid. destruct (Ks id Hid) as (ch & E & C). rewrite L, decide_True, E by done.
    eexists. split; [done|]. by rewrite push_closed.
  - intros ch. rewrite L. case_decide as Hid; [|by intros ?%Kc].
    destruct (channels b !! id) as [ch0|] eqn:E; [|done]. cbn. intros [= <-].
    apply Kc in E as (?&?&?). by split_and!; [|apply push_capacity|rewrite push_closed].
Qed.

#[global] Program Instance mem_broker_laws : BrokerLaws InMemoryBroker :=
  { broker_inv := broker_ok; live _ _ := True }.
Next Obligation.
  intros ev b K. destruct (publish_open ev b K) as (chs & E & L).
  eexists. split; [by eapply published_ok|]. by left.
Qed.
Next Obligation.
  intros b K. eexists. split; [by eapply (subscribe_ok b)|left]. by eexists.
Qed.
Next Obligation. intros id b K _. destruct (cancel_ok b id K) as (b' & E & K' & _). by exists b'. Qed.
Next Obligation. intros id b K. cbn. destruct (cancel_ok b id K) as (b' & E & K' & _). by rewrite E. Qed.
Next Obligation. intros id b K. cbn. destruct (cancel_ok b id K) as (b' & E & K' & _). by rewrite E. Qed.

Lemma receive_ok b id ev b' : broker_ok b -> receive id b = (Ok (Some ev), b') ->
  broker_ok b' /\ subscribers b' = subscribers b /\
  exists ch, channels b !! id = Some ch /\ buffer ch = ev :: tail (buffer ch) /\
    channels b' = <[id := {| buffer := tail (buffer ch); closed := closed ch |}]> (channels b).
Proof.
  intros [Ks Kc]. unfold receive. destruct (channels b !! id) as [ch|] eqn:E; [|done].
  destruct (buffer ch) as [|ev' r] eqn:B; [by destruct (closed ch)|]. intros [= <- <-].
  split_and!; [|done|by exists ch; rewrite B].
  split; cbn; intros j.
  - intros Hj. destruct (Ks j Hj) as (ch' & E' & C'). destruct (decide (j = id)) as [->|N].
    + rewrite lookup_insert_eq. simplify_eq. by eexists.
    + rewrite lookup_insert_ne by done. eauto.
  - intros ch'. destruct (decide (j = id)) as [->|N].
    + rewrite lookup_insert_eq. intros [= <-]. cbn. apply Kc in E as (?&L&?). rewrite B in L.
      cbn in L. split_and!; [done|lia|done].
    + rewrite lookup_insert_ne by done. apply Kc.
Qed.

(** ** Traces *)

Inductive label :=
  | LSubscribe (id : nat)
  | LCancel (id : nat)
  | LPublish (ev : Event)
  | LReceive (id : nat) (ev : Event).

(** The subscribers map is ranged over in any order. *)
Inductive step (b : InMemoryBroker) : label -> InMemoryBroker -> Prop :=
  | step_subscribe id b' : mem_Subscribe b = (Ok id, b') -> step b (LSubscribe id) b'
  | step_cancel id b' : mem_Cancel id b = (Ok tt, b') -> step b (LCancel id) b'
  | step_publish ids ev b' : ids ≡ₚ elements (subscribers b) ->
      publish_in ids ev b = (Ok tt, b') -> step b (LPublish ev) b'
  | step_receive id ev b' : receive id b = (Ok (Some ev), b') -> step b (LReceive id ev) b'.

Inductive trace : list label -> InMemoryBroker -> Prop :=
  | trace_new : trace [] NewInMemoryBroker
  | trace_step t b l b' : trace t b -> step b l b' -> trace (t ++ [l]) b'.

(** The events received from channel [id]. *)
Definition received (id : nat) (t : list label) : list Event :=
  t ≫= fun l => match l with LReceive j ev => if decide (j = id) then [ev] else [] | _ => [] end.

(** Whether [id] is subscribed, and the events published while it was. *)
Definition window_step (id : nat) (w : bool * list Event) (l : label) : bool * list Event :=
  match l with
  | LSubscribe j => if decide (j = id) then (true, w.2) else w
  | LCancel j => if decide (j = id) then (false, w.2) else w
  | LPublish ev => (w.1, if w.1 then w.2 ++ [ev] else w.2)
  | LReceive _ _ => w
  end.
Definition window (id : nat) (t : list label) : bool * list Event :=
  foldl (window_step id) (false, []) t.

Definition published (id : nat) (t : list label) : list Event := (window id t).2.

Lemma received_snoc id t l : received id (t ++ [l]) = received id t ++ received id [l].
Proof. unfold received. by rewrite bind_app. Qed.
Lemma received_one id i ev : received id [LReceive i ev] = if decide (i = id) then [ev] else [].
Proof. unfold received. cbn. apply app_nil_r. Qed.
Lemma window_snoc id t l : window id (t ++ [l]) = window_step id (window id t) l.
Proof. unfold window. by rewrite foldl_app. Qed.

(** What a trace has left in channel [id]. *)
Definition channel_inv (t : list label) (b : InMemoryBroker) (id : nat) : Prop :=
  match channels b !! id with
  | None => received id t = [] /\ window id t = (false, [])
  | Some ch =>
      (window id t).1 = bool_decide (id ∈ subscribers b) /\
      received id t ++ buffer ch `sublist_of` published id t /\
      ((length (published id t) <= capacity)%nat -> received id t ++ buffer ch = published id t)
  end.

Lemma sublist_snoc {A} (l k : list A) x : l `sublist_of` k -> l `sublist_of` k ++ [x].
Proof. intros S. by apply sublist_inserts_r. Qed.

Lemma channel_inv_publish t b id ev chs : broker_ok b -> channel_inv t b id ->
  chs !! id = (if decide (id ∈ subscribers b) then push ev <$> channels b !! id else channels b !! id) ->
  channel_inv (t ++ [LPublish ev]) {| nextID := nextID b; subscribers := subscribers b; channels := chs |} id.
Proof.
  intros [Ks Kc] I E. unfold channel_inv, published in *. cbn. rewrite E, received_snoc, window_snoc.
  cbn. rewrite app_nil_r. case_decide as Hid.
  - destruct (Ks id Hid) as (ch & Ech & C). rewrite Ech in I |- *. destruct I as (W & S & Q).
    cbn. rewrite W, bool_decide_eq_true_2 by done. cbn. split; [done|].
    rewrite length_app. cbn. unfold push. destruct (Nat.ltb_spec (length (buffer ch)) capacity) as [L|L].
    + cbn. rewrite (assoc_L (++)). split; [by apply sublist_app|]. intros Le. by rewrite Q by lia.
    + split; [by apply sublist_snoc|]. intros Le.
      apply sublist_length in S. rewrite length_app in S. lia.
  - destruct (channels b !! id) as [ch|] eqn:Ech.
    + destruct I as (W & S & Q). rewrite W, bool_decide_eq_false_2 by done. done.
    + destruct I as [R W]. by rewrite W.
Qed.

Lemma channel_inv_subscribe t b id i b' : broker_ok b -> mem_Subscribe b = (Ok i, b') ->
  channel_inv t b id -> channel_inv (t ++ [LSubscribe i]) b' id.
Proof.
  intros K E I. destruct (subscribe_ok _ _ _ K E) as (_ & F & Hi).
  unfold mem_Subscribe in E. injection E as <- <-.
  unfold channel_inv, published in *. rewrite received_snoc, window_snoc. cbn. rewrite app_nil_r.
  destruct (decide (id = nextID b)) as [->|N].
  - rewrite F in I. destruct I as [R W]. rewrite lookup_insert_eq, decide_True, R, W by done.
    cbn. by rewrite bool_decide_eq_true_2 by set_solver.
  - rewrite lookup_insert_ne, decide_False by done.
    destruct (channels b !! id); [|done]. destruct I as (W & S & Q).
    split_and!; [|done..]. rewrite W. apply bool_decide_ext. set_solver.
Qed.

Lemma channel_inv_cancel t b id i b' : broker_ok b -> mem_Cancel i b = (Ok tt, b') ->
  channel_inv t b id -> channel_inv (t ++ [LCancel i]) b' id.
Proof.
  intros K E I. destruct (cancel_ok b i K) as (b2 & E2 & _ & Sb & L).
  rewrite E in E2. injection E2 as <-.
  unfold channel_inv, published in *. rewrite received_snoc, window_snoc. cbn.
  rewrite app_nil_r, L. destruct (channels b !! id) as [ch|] eqn:Ech.
  - destruct I as (W & S & Q). destruct (decide (i = id)) as [->|N].
    + destruct (decide (id ∈ subscribers b)) as [Hid|Hid].
      * rewrite decide_True by done. cbn. by rewrite Sb, bool_decide_eq_false_2 by set_solver.
      * rewrite decide_False by naive_solver. by rewrite Sb, bool_decide_eq_false_2 by set_solver.
    + rewrite decide_False by naive_solver. split_and!; [|done..].
      rewrite W, Sb. apply bool_decide_ext. set_solver.
  - destruct I as [R W]. destruct (decide (id = i /\ i ∈ subscribers b)); cbn;
      (split; [done|]); rewrite W; by destruct (decide (i = id)).
Qed.

Lemma channel_inv_receive t b id i ev b' : broker_ok b -> receive i b = (Ok (Some ev), b') ->
  channel_inv t b id -> channel_inv (t ++ [LReceive i ev]) b' id.
Proof.
  intros K E I. destruct (receive_ok b i ev b' K E) as (_ & Sb & ch & Ech & B & C').
  unfold channel_inv, published in *.
  rewrite received_snoc, window_snoc, received_one, C', Sb. cbn [window_step].
  destruct (decide (i = id)) as [->|N].
  - rewrite lookup_insert_eq. rewrite Ech, B in I. destruct I as (W & S & Q).
    cbn [buffer]. by rewrite <-(assoc_L (++)).
  - rewrite lookup_insert_ne by done. by rewrite app_nil_r.
Qed.

Lemma trace_inv t b : trace t b -> broker_ok b /\ forall id, channel_inv t b id.
Proof.
  induction 1 as [|t b l b' T [K I] S].
  - split; [apply broker_ok_new|]. intros id. unfold channel_inv. cbn. by rewrite lookup_empty.
  - destruct S as [i b' E|i b' E|ids ev b' P E|i ev b' E].
    + split; [by apply (subscribe_ok _ _ _ K E)|]. intros id. by eapply channel_inv_subscribe.
    + destruct (cancel_ok b i K) as (b2 & E2 & K2 & _). rewrite E in E2. injection E2 as <-.
      split; [done|]. intros id. by apply (channel_inv_cancel _ b).
    + destruct (publish_in_open ev b ids K) as (chs & E2 & L).
      { rewrite P. apply NoDup_elements. }
      { intros id. rewrite P. apply elem_of_elements. }
      rewrite E in E2. injection E2 as ->.
      split; [by eapply published_ok|]. intros id. by apply channel_inv_publish.
    + split; [by eapply receive_ok|]. intros id. by eapply channel_inv_receive.
Qed.

(** ** The properties *)

(** C32: what a subscriber gets.  In every run of the broker, the events
    received from a channel, followed by the ones still buffered in it, are a
    subsequence, in order and without repetition of positions, of the events
    published between its subscription and its cancellation; all of them while
    no more than 64 were published, and the buffer never holds more than 64. *)
Theorem subscriber_fifo t b id ch : trace t b -> channels b !! id = Some ch ->
  received id t ++ buffer ch `sublist_of` published id t /\
  ((length (published id t) <= 64)%nat -> received id t ++ buffer ch = published id t) /\
  (length (buffer ch) <= 64)%nat.
Proof.
  intros T E. destruct (trace_inv t b T) as [[_ Kc] I]. specialize (I id). unfold channel_inv in I.
  rewrite E in I. destruct I as (_ & S & Q). split_and!; [done..|]. by apply (Kc id ch E).
Qed.

(** The broker does not panic or block.  In every state a run reaches,
    [Publish] returns nil for any event, in whatever order the subscribers are
    ranged over and with the same result; [Subscribe] returns a channel not
    used before; [Cancel] of any subscription, also a second time, returns and
    leaves it out of the subscribers. *)
Theorem broker_never_panics t b : trace t b ->
  (forall ev, exists b', mem_Publish ev b = (Ok tt, b') /\
     forall ids, ids ≡ₚ elements (subscribers b) -> publish_in ids ev b = (Ok tt, b')) /\
  (exists id b', mem_Subscribe b = (Ok id, b') /\ channels b !! id = None) /\
  (forall id, exists b', mem_Cancel id b = (Ok tt, b') /\ id ∉ subscribers b' /\
     mem_Cancel id b' = (Ok tt, b')).
Proof.
  intros T. destruct (trace_inv t b T) as [K _]. split_and!.
  - intros ev. destruct (publish_open ev b K) as (chs & E & L). eexists. split; [exact E|].
    intros ids P. destruct (publish_in_open ev b ids K) as (chs' & E' & L');
      [rewrite P; apply NoDup_elements|intros id; rewrite P; apply elem_of_elements|].
    rewrite E'. repeat f_equal. apply map_eq. intros id. by rewrite L, L'.
  - destruct (mem_Subscribe b) as [o b'] eqn:E.
    assert (exists id, o = Ok id) as [id ->] by (unfold mem_Subscribe in E; injection E as <- _; by eexists).
    exists id, b'. split; [done|]. by apply (subscribe_ok _ _ _ K E).
  - intros id. destruct (cancel_ok b id K) as (b' & E & _ & Sb & _). exists b'. split; [done|].
    assert (id ∉ subscribers b') as N by (rewrite Sb; set_solver). split; [done|].
    unfold mem_Cancel. by rewrite decide_False.
Qed.

(** One [Publish] appends the event to the buffer of every subscriber that
    has room, drops it for a subscriber whose 64 places are taken, and touches
    no other channel. *)
Theorem publish_effect t b ev : trace t b ->
  exists b', mem_Publish ev b = (Ok tt, b') /\ subscribers b' = subscribers b /\
    forall id, channels b' !! id =
      if decide (id ∈ subscribers b)
      then (fun ch => if (length (buffer ch) <? 64)%nat
                      then {| buffer := buffer ch ++ [ev]; closed := closed ch |} else ch) <$> channels b !! id
      else channels b !! id.
Proof.
  intros T. destruct (trace_inv t b T) as [K _]. destruct (publish_open ev b K) as (chs & E & L).
  eexists. split; [exact E|]. split; [done|]. exact L.
Qed.

Module BrokerSample.
Definition ev (n : Z) : Event := {| Kind := EntryAppended; ev_ChatID := "c"; ev_Sequence := n; ev_EntryHash := "" |}.
Definition open1 : InMemoryBroker := (mem_Subscribe NewInMemoryBroker).2.
Definition sent1 : InMemoryBroker := (mem_Publish (ev 0) open1).2.

Lemma open1_trace : trace [LSubscribe 0] open1.
Proof. apply (trace_step [] NewInMemoryBroker); [constructor|by constructor]. Qed.
Lemma sent1_trace : trace [LSubscribe 0; LPublish (ev 0)] sent1.
Proof.
  apply (trace_step [LSubscribe 0] open1); [apply open1_trace|].
  apply (step_publish _ (elements (subscribers open1))); [done|]. vm_compute. reflexivity.
Qed.
End BrokerSample.

Lemma subscriber_fifo_witness : exists ch, channels BrokerSample.sent1 !! 0%nat = Some ch /\
  received 0 [LSubscribe 0; LPublish (BrokerSample.ev 0)] ++ buffer ch = [BrokerSample.ev 0].
Proof.
  eexists. split; [vm_compute; reflexivity|].
  refine (proj1 (proj2 (subscriber_fifo _ BrokerSample.sent1 0%nat _ BrokerSample.sent1_trace _)) _);
    [vm_compute; reflexivity|vm_compute; lia].
Defined.

Lemma broker_never_panics_witness : exists b', mem_Cancel 0 BrokerSample.sent1 = (Ok tt, b').
Proof.
  destruct (proj2 (proj2 (broker_never_panics _ _ BrokerSample.sent1_trace)) 0%nat) as (b' & E & _).
  by exists b'.
Defined.

Lemma publish_effect_witness : exists b', mem_Publish (BrokerSample.ev 1) BrokerSample.sent1 = (Ok tt, b') /\
  subscribers b' = subscribers BrokerSample.sent1.
Proof.
  destruct (publish_effect _ _ (BrokerSample.ev 1) BrokerSample.sent1_trace) as (b' & E & S & _).
  exists b'. by split.
Defined.
