(* ===== verification/Wire.v ===== *)
(** * Wire: the JSON of the repository's types

    [encoding/json] on the structs of [models], [broker], [chatlog] and
    [merkle]: the documents [Marshal] writes, by the tags of the fields, and
    what [Unmarshal] stores in a struct, with its rules for unknown keys, case,
    repeated keys, [null] and byte slices.  Written messages and events are
    read back, up to the bytes of a string that are not UTF-8. *)
From S2P Require Import Prelude Codec JsonText GoTime JsonTree JsonUtf8 TimeText Sha256 Models Broker.

(** ** Writing *)

Definition jstring (s : string) : json := JStr (Json.escape (bytes s)).
Definition jint (v : Z) : json := JNum (int_text v).
Definition jtime (t : Time) : option json := JStr <$> MarshalTime t.
(** A byte slice: base64, or [null] when it is nil, which an empty list may stand for. *)
Definition jbytes (is_nil : bool) (l : list byte) : json :=
  if is_nil && (length l =? 0)%nat then JNull else JStr (Base64.encode l).
Definition key (s : string) (v : json) : list byte * json := (bytes s, v).

(** [SignedMessage], its content nil or not when it is empty, and the text of its timestamp. *)
Definition message_doc (nil_content : bool) (m : SignedMessage) (t : json) : json :=
  JObj (
    [key "schema_version" (jint (SchemaVersion m));
     key "message_id" (jstring (MessageID m));
     key "chat_id" (jstring (ChatID m));
     key "sender_id" (jstring (SenderID m));
     key "content" (jbytes nil_content (Content m));
     key "content_type" (jstring (ContentType m))] ++
    (if bool_decide (Filename m = ""%string) then [] else [key "filename" (jstring (Filename m))]) ++
    [key "encrypted" (JBool (Encrypted m));
     key "timestamp" t;
     key "public_key" (jbytes false (PublicKey m));
     key "signature" (jbytes false (Signature m))]).
Definition encode_message (nil_content : bool) (m : SignedMessage) : option json :=
  message_doc nil_content m <$> jtime (Timestamp m).

Definition encode_entry (nil_content : bool) (e : LogEntry) : option json :=
  m ← encode_message nil_content (Message e);
  Some (JObj [key "sequence" (jint (Sequence e)); key "message" m;
              key "prev_hash" (jstring (PrevHash e)); key "entry_hash" (jstring (EntryHash e))]).

Definition encode_event (ev : Event) : json :=
  JObj [key "kind" (jstring (Kind ev)); key "chat_id" (jstring (ev_ChatID ev));
        key "sequence" (jint (ev_Sequence ev)); key "entry_hash" (jstring (ev_EntryHash ev))].

(** ** Reading *)

(** [foldName]: letters in upper case; the two letters outside ASCII that fold
    into it (the long s and the Kelvin sign) as well. *)
Fixpoint foldName (l : list byte) : list byte :=
  match l with
  | xc5 :: xbf :: r => x53 :: foldName r
  | xe2 :: x84 :: xaa :: r => x4b :: foldName r
  | b :: r => (if (97 <=? byteZ b) && (byteZ b <=? 122) then Zbyte (byteZ b - 32) else b) :: foldName r
  | [] => []
  end.

(** The field a key stands for: the one of that name, else the one that differs in case only. *)
Definition target (names : list string) (k : list byte) : option string :=
  match List.find (fun n => bool_decide (bytes n = k)) names with
  | Some n => Some n
  | None => List.find (fun n => bool_decide (foldName (bytes n) = foldName k)) names
  end.

(** The members for one field, in order: each is stored over the one before. *)
Fixpoint read_field {A} (names : list string) (name : string) (store : json -> A -> option A) (old : A)
    (ms : list (list byte * json)) : option A :=
  match ms with
  | [] => Some old
  | (k, v) :: r =>
      if bool_decide (target names (unquote k) = Some name)
      then a ← store v old; read_field names name store a r
      else read_field names name store old r
  end.

Definition as_string (v : json) (old : string) : option string :=
  match v with JNull => Some old | JStr s => Some (text (unquote s)) | _ => None end.
Definition as_bool (v : json) (old : bool) : option bool :=
  match v with JNull => Some old | JBool b => Some b | _ => None end.
Definition as_time (v : json) (old : Time) : option Time :=
  match v with JNull => Some old | JStr s => UnmarshalTime s | _ => None end.

(** [strconv.ParseInt] and [ParseUint] of a number of the JSON grammar, 64 bits. *)
Definition digits_value (d : list byte) : option Z :=
  if (0 <? length d)%nat && forallb is_digit d then Some (Dec.value d) else None.
Definition parse_int (lit : list byte) : option Z :=
  match lit with
  | x2d :: d => v ← digits_value d; if v <=? 2 ^ 63 then Some (- v) else None
  | d => v ← digits_value d; if v <? 2 ^ 63 then Some v else None
  end.
Definition parse_uint (lit : list byte) : option Z :=
  v ← digits_value lit; if v <? 2 ^ 64 then Some v else None.
Definition as_int (v : json) (old : Z) : option Z :=
  match v with JNull => Some old | JNum n => parse_int n | _ => None end.
Definition as_uint (v : json) (old : Z) : option Z :=
  match v with JNull => Some old | JNum n => parse_uint n | _ => None end.

(** [base64.StdEncoding.Decode]: line breaks are skipped, the padding must be right. *)
Definition sextet_char (b : byte) : bool :=
  let v := byteZ b in
  ((65 <=? v) && (v <=? 90)) || ((97 <=? v) && (v <=? 122)) || ((48 <=? v) && (v <=? 57)) || (v =? 43) || (v =? 47).
Fixpoint padded_right (l : list byte) : bool :=
  match l with
  | [] => true
  | p :: q :: r :: s :: t =>
      sextet_char p && sextet_char q &&
      (if sextet_char r then
         if sextet_char s then padded_right t else Byte.eqb s Base64.pad && (length t =? 0)%nat
       else Byte.eqb r Base64.pad && Byte.eqb s Base64.pad && (length t =? 0)%nat)
  | _ => false
  end.
Definition line_break (b : byte) : bool := Byte.eqb b x0d || Byte.eqb b x0a.
Definition DecodeBase64 (l : list byte) : option (list byte) :=
  let l := List.filter (fun b => negb (line_break b)) l in
  if padded_right l then Some (Base64.decode l) else None.

(** A byte slice from an array: the numbers of its elements; [null] leaves the
    byte the slice had there. *)
Fixpoint as_octets (vs : list json) (old : list byte) : option (list byte) :=
  match vs with
  | [] => Some []
  | v :: r =>
      b ← match v with
          | JNull => Some (default x00 (head old))
          | JNum n => z ← parse_uint n; if z <? 256 then Some (Zbyte z) else None
          | _ => None
          end;
      bs ← as_octets r (tail old); Some (b :: bs)
  end.
Definition as_bytes (v : json) (old : list byte) : option (list byte) :=
  match v with
  | JNull => Some []
  | JStr s => DecodeBase64 (unquote s)
  | JArr vs => as_octets vs old
  | _ => None
  end.

Definition message_fields : list string :=
  ["schema_version"; "message_id"; "chat_id"; "sender_id"; "content"; "content_type"; "filename";
   "encrypted"; "timestamp"; "public_key"; "signature"]%string.

Definition zero_time : Time := {| t_nano := zero_nano; t_offset := 0 |}.
Definition zero_message : SignedMessage := {|
  SchemaVersion := 0; MessageID := ""; ChatID := ""; SenderID := ""; Content := []; ContentType := "";
  Filename := ""; Encrypted := false; Timestamp := zero_time; PublicKey := []; Signature := [] |}.

(** The value a document stores in a [SignedMessage]; [None] is an error of [Unmarshal]. *)
Definition decode_message (v : json) (old : SignedMessage) : option SignedMessage :=
  match v with
  | JNull => Some old
  | JObj ms =>
      let read {A} n (st : json -> A -> option A) (o : A) := read_field message_fields n st o ms in
      version ← read "schema_version"%string as_int (SchemaVersion old);
      id ← read "message_id"%string as_string (MessageID old);
      chat ← read "chat_id"%string as_string (ChatID old);
      sender ← read "sender_id"%string as_string (SenderID old);
      content ← read "content"%string as_bytes (Content old);
      ctype ← read "content_type"%string as_string (ContentType old);
      file ← read "filename"%string as_string (Filename old);
      enc ← read "encrypted"%string as_bool (Encrypted old);
      stamp ← read "timestamp"%string as_time (Timestamp old);
      pub ← read "public_key"%string as_bytes (PublicKey old);
      sig ← read "signature"%string as_bytes (Signature old);
      Some {| SchemaVersion := version; MessageID := id; ChatID := chat; SenderID := sender; Content := content;
              ContentType := ctype; Filename := file; Encrypted := enc; Timestamp := stamp;
              PublicKey := pub; Signature := sig |}
  | _ => None
  end.

Definition entry_fields : list string := ["sequence"; "message"; "prev_hash"; "entry_hash"]%string.
Definition decode_entry (v : json) (old : LogEntry) : option LogEntry :=
  match v with
  | JNull => Some old
  | JObj ms =>
      let read {A} n (st : json -> A -> option A) (o : A) := read_field entry_fields n st o ms in
      q ← read "sequence"%string as_uint (Sequence old);
      m ← read "message"%string decode_message (Message old);
      p ← read "prev_hash"%string as_string (PrevHash old);
      h ← read "entry_hash"%string as_string (EntryHash old);
      Some {| Sequence := q; Message := m; PrevHash := p; EntryHash := h |}
  | _ => None
  end.

Definition event_fields : list string := ["kind"; "chat_id"; "sequence"; "entry_hash"]%string.
Definition zero_event : Event := {| Kind := ""%string; ev_ChatID := ""; ev_Sequence := 0; ev_EntryHash := "" |}.
Definition decode_event (v : json) (old : Event) : option Event :=
  match v with
  | JNull => Some old
  | JObj ms =>
      let read {A} n (st : json -> A -> option A) (o : A) := read_field event_fields n st o ms in
      k ← read "kind"%string as_string (Kind old);
      c ← read "chat_id"%string as_string (ev_ChatID old);
      q ← read "sequence"%string as_uint (ev_Sequence old);
      h ← read "entry_hash"%string as_string (ev_EntryHash old);
      Some {| Kind := k; ev_ChatID := c; ev_Sequence := q; ev_EntryHash := h |}
  | _ => None
  end.

(** *** Whole texts *)

(** [json.Marshal] and [json.Unmarshal] of an event. *)
Definition MarshalEvent (ev : Event) : list byte := print (encode_event ev).
Definition UnmarshalEvent (l : list byte) : option Event := v ← scan_all l; decode_event v zero_event.

(** [json.NewDecoder(r).Decode(&msg)]: the first value of the stream.  [cut] says
    that reading past the end of [l] fails, as when the body was too large:
    then only a bracketed value is known to have ended. *)
Definition self_delimiting (v : json) : bool :=
  match v with JArr _ | JObj _ => true | _ => false end.
Definition DecodeMessage (cut : bool) (l : list byte) : option SignedMessage :=
  '(v, t) ← scan l;
  if cut && negb (self_delimiting v) && (length t =? 0)%nat then None
  else decode_message v zero_message.

(** ** Texts without escapes *)

Definition plain (b : byte) : Prop := 32 <= byteZ b < 128 /\ b <> x22 /\ b <> x5c.
#[global] Instance plain_dec b : Decision (plain b).
Proof. unfold plain. apply _. Defined.

Lemma piece_plain b : plain b -> piece [b] [b].
Proof.
  intros (R & Nq & Nb). destruct b; try done; try (exfalso; revert R; cbn; lia); (split; [intros t; done|intros t|cbn; lia]); done.
Qed.

Lemma plain_pieces l : Forall plain l -> Forall2 piece (map (fun b => [b]) l) (map (fun b => [b]) l).
Proof. induction 1; constructor; [by apply piece_plain|done]. Qed.

Lemma concat_singles {A} (l : list A) : concat (map (fun b => [b]) l) = l.
Proof. induction l as [|b l IH]; [done|]. cbn. by rewrite IH. Qed.

Lemma plain_raw l : Forall plain l -> raw_ok l.
Proof.
  intros P t. pose proof (scan_pieces _ _ t (plain_pieces l P)) as E. by rewrite concat_singles in E.
Qed.

Lemma plain_unquote l : Forall plain l -> unquote l = l.
Proof. intros P. pose proof (unquote_pieces _ _ (plain_pieces l P)) as E. by rewrite concat_singles in E. Qed.

Lemma plain_digits l : Forall Dec.is_digit l -> Forall plain l.
Proof.
  intros F. eapply Forall_impl; [exact F|]. unfold Dec.is_digit, plain. intros b H. split; [lia|].
  split; intros ->; cbn in H; lia.
Qed.

(** *** Base64 *)

Lemma alphabet_chars n : 0 <= n < 64 ->
  sextet_char (Base64.alphabet n) = true /\ plain (Base64.alphabet n) /\ line_break (Base64.alphabet n) = false.
Proof.
  intros H. assert (forallb (fun k => bool_decide (sextet_char (Base64.alphabet (Z.of_nat k)) = true /\
    plain (Base64.alphabet (Z.of_nat k)) /\ line_break (Base64.alphabet (Z.of_nat k)) = false)) (seq 0 64) = true) as A by done.
  rewrite List.forallb_forall in A. specialize (A (Z.to_nat n)).
  rewrite List.in_seq, bool_decide_eq_true, Z2Nat.id in A by lia. apply A. lia.
Qed.

Record base64_text (l : list byte) : Prop := {
  b64_padded : padded_right l = true;
  b64_plain : Forall plain l;
  b64_unbroken : Forall (fun b => line_break b = false) l;
}.

Lemma pad_plain : plain Base64.pad.
Proof. split; [cbn; lia|done]. Qed.

Ltac each := repeat (apply Forall_cons; split; [done|]); first [done | by constructor].

Lemma b64_quantum p q r s t : 0 <= p < 64 -> 0 <= q < 64 -> 0 <= r < 64 -> 0 <= s < 64 -> base64_text t ->
  base64_text (map Base64.alphabet [p; q; r; s] ++ t).
Proof.
  intros (Sp & Pp & Lp)%alphabet_chars (Sq & Pq & Lq)%alphabet_chars (Sr & Pr & Lr)%alphabet_chars
    (Ss & Ps & Ls)%alphabet_chars [T1 T2 T3].
  split; [cbn; by rewrite Sp, Sq, Sr, Ss|cbn; pose proof pad_plain; each..].
Qed.
Lemma b64_three p q r : 0 <= p < 64 -> 0 <= q < 64 -> 0 <= r < 64 ->
  base64_text (map Base64.alphabet [p; q; r] ++ [Base64.pad]).
Proof.
  intros (Sp & Pp & Lp)%alphabet_chars (Sq & Pq & Lq)%alphabet_chars (Sr & Pr & Lr)%alphabet_chars.
  split; [cbn; by rewrite Sp, Sq, Sr|cbn; pose proof pad_plain; each..].
Qed.
Lemma b64_two p q : 0 <= p < 64 -> 0 <= q < 64 ->
  base64_text (map Base64.alphabet [p; q] ++ [Base64.pad; Base64.pad]).
Proof.
  intros (Sp & Pp & Lp)%alphabet_chars (Sq & Pq & Lq)%alphabet_chars.
  split; [cbn; by rewrite Sp, Sq|cbn; pose proof pad_plain; each..].
Qed.

Lemma encode_base64_text l : base64_text (Base64.encode l).
Proof.
  remember (length l) as n eqn:N. revert l N. induction (lt_wf n) as [n _ IH]. intros l ->.
  destruct l as [|a [|b [|c r]]]; [by split|..]; cbn [Base64.encode]; cbv zeta;
    repeat match goal with b : byte |- _ =>
      lazymatch goal with H : 0 <= byteZ b < 256 |- _ => fail | _ => pose proof (byteZ_range b) end end.
  - apply (b64_two (byteZ a * 65536 / 262144) (byteZ a * 65536 / 4096 mod 64)); div_lia.
  - set (v := byteZ a * 65536 + byteZ b * 256).
    apply (b64_three (v / 262144) (v / 4096 mod 64) (v / 64 mod 64)); subst v; div_lia.
  - set (v := byteZ a * 65536 + byteZ b * 256 + byteZ c).
    apply (b64_quantum (v / 262144) (v / 4096 mod 64) (v / 64 mod 64) (v mod 64)); try (subst v; div_lia).
    eapply IH; [|done]. cbn. lia.
Qed.

Lemma DecodeBase64_encode l : DecodeBase64 (Base64.encode l) = Some l.
Proof.
  unfold DecodeBase64. destruct (encode_base64_text l) as [P _ U].
  assert (List.filter (fun b => negb (line_break b)) (Base64.encode l) = Base64.encode l) as ->.
  { clear P. induction U as [|b k E _ IH]; [done|]. cbn [List.filter]. rewrite E. cbn [negb]. by rewrite IH. }
  by rewrite P, Base64.base64_roundtrip.
Qed.

(** *** Times *)

Ltac plain_byte := by apply (bool_decide_unpack _).

Lemma padded_plain w v : Forall plain (Dec.padded w v).
Proof. apply plain_digits, Dec.padded_digits. Qed.

Lemma fraction_plain n : Forall plain (fraction_text n).
Proof.
  unfold fraction_text. destruct (trim_zeros_pad (Dec.padded 9 n)) as [k E].
  pose proof (padded_plain 9 n) as D. rewrite E in D. apply Forall_app in D as [D _].
  destruct (trim_zeros (Dec.padded 9 n)); [constructor|]. constructor; [plain_byte|done].
Qed.

Lemma MarshalTime_plain t l : MarshalTime t = Some l -> Forall plain l.
Proof.
  unfold MarshalTime, local_year. destruct (_ && _) eqn:G; [|done]. intros [= <-].
  apply andb_true_iff in G as [G _]. apply andb_true_iff in G as [Y1 Y2].
  apply Forall_app. split.
  - unfold date_time. destruct (civil _) as [[y m] d]. cbn [fst] in *. rewrite year_text_padded by lia.
    repeat (apply Forall_app; split; [apply padded_plain|]; constructor; [plain_byte|]).
    apply Forall_app; split; [apply padded_plain|apply fraction_plain].
  - unfold zone_text. destruct (_ =? 0); [constructor; [plain_byte|constructor]|].
    constructor; [destruct (_ <? 0); plain_byte|]. apply Forall_app; split; [apply padded_plain|].
    constructor; [plain_byte|apply padded_plain].
Qed.

(** ** Encoded values are documents, and are stored as they were *)

Lemma fits_jstring s d : fits (jstring s) d.
Proof. apply escape_raw. Qed.
Lemma fits_jint v d : fits (jint v) d.
Proof. apply num_int. Qed.
Lemma fits_jbytes n l d : fits (jbytes n l) d.
Proof. unfold jbytes. destruct (_ && _); [done|]. apply plain_raw, encode_base64_text. Qed.
Lemma fits_jtime t v d : jtime t = Some v -> fits v d.
Proof.
  unfold jtime. destruct (MarshalTime t) eqn:E; [|done]. intros [= <-]. by eapply plain_raw, MarshalTime_plain.
Qed.

(** What is left of a string after a trip: bytes that are not UTF-8 are replaced. *)
Definition carried (s : string) : string := text (replaced (bytes s)).

Lemma carried_valid s : Utf8.ValidString s = true -> carried s = s.
Proof. intros V. unfold carried. by rewrite replaced_valid, text_bytes. Qed.

Lemma as_string_jstring s old : as_string (jstring s) old = Some (carried s).
Proof. cbn. by rewrite unquote_escape. Qed.

Lemma as_bytes_jbytes n l old : as_bytes (jbytes n l) old = Some l.
Proof.
  unfold jbytes. destruct (n && _) eqn:E; cbn [as_bytes].
  - apply andb_true_iff in E as [_ E%Nat.eqb_eq%nil_length_inv]. by subst.
  - rewrite plain_unquote by apply encode_base64_text. apply DecodeBase64_encode.
Qed.

Lemma digits_value_decimal v : 0 <= v -> digits_value (Dec.decimal v) = Some v.
Proof.
  intros P. unfold digits_value. rewrite Dec.value_decimal by done.
  assert (forallb is_digit (Dec.decimal v) = true) as ->.
  { apply List.forallb_forall. intros b I%list_elem_of_In. pose proof (Dec.decimal_digits v) as D.
    rewrite Forall_forall in D. by apply digit_dec, D. }
  pose proof (Dec.decimal_nonempty v). by destruct (Dec.decimal v).
Qed.

Lemma decimal_not_minus v r : 0 <= v -> Dec.decimal v <> x2d :: r.
Proof. intros P E. destruct (num_decimal v P) as [(b & q & E' & D) _]. pose proof (Dec.decimal_digits v) as F.
  rewrite E in F. inversion F as [|? ? Dg _]. unfold Dec.is_digit in Dg. cbn in Dg. lia. Qed.

Lemma as_uint_jint v old : is_u64 v -> as_uint (jint v) old = Some v.
Proof.
  intros [P L]. cbn. unfold parse_uint. rewrite int_text_eq, (proj2 (Z.ltb_ge _ _)) by done.
  rewrite digits_value_decimal by done. cbn [mbind option_bind]. by rewrite (proj2 (Z.ltb_lt _ _)).
Qed.

Lemma parse_int_unsigned l : head l <> Some x2d ->
  parse_int l = (v ← digits_value l; if v <? 2 ^ 63 then Some v else None).
Proof. intros N. destruct l as [|b l]; [done|]. by destruct b. Qed.

Lemma as_int_jint v old : - 2 ^ 63 <= v < 2 ^ 63 -> as_int (jint v) old = Some v.
Proof.
  intros R. cbn [as_int jint]. rewrite int_text_eq. destruct (Z.ltb_spec v 0) as [N|P].
  - unfold parse_int. rewrite digits_value_decimal by lia. cbn [mbind option_bind].
    rewrite (proj2 (Z.leb_le _ _)) by lia. f_equal. lia.
  - assert (head (Dec.decimal v) <> Some x2d) as H.
    { destruct (Dec.decimal v) as [|b r] eqn:E; [done|]. cbn. intros [= ->]. by apply decimal_not_minus in E. }
    rewrite parse_int_unsigned, digits_value_decimal by done. cbn [mbind option_bind]. by rewrite (proj2 (Z.ltb_lt _ _)) by lia.
Qed.

Lemma as_time_jtime t v old : writable t -> jtime t = Some v -> as_time v old = Some t.
Proof.
  intros W. unfold jtime. rewrite MarshalTime_writable by done. intros [= <-]. by apply parse_shown.
Qed.

(** Which members a field takes, by their keys alone. *)
Fixpoint hits (names : list string) (name : string) (i : nat) (ks : list (list byte)) : list nat :=
  match ks with
  | [] => []
  | k :: r => (if bool_decide (target names (unquote k) = Some name) then [i] else []) ++ hits names name (S i) r
  end.

Lemma hits_later names name i ks j : j ∈ hits names name i ks -> (i <= j)%nat.
Proof.
  revert i. induction ks as [|k ks IH]; intros i; cbn; [by intros ?%elem_of_nil|].
  intros [H|H%IH]%elem_of_app; [|lia]. case_bool_decide; [|by apply elem_of_nil in H].
  apply list_elem_of_singleton in H. lia.
Qed.

Lemma read_none {A} names name (store : json -> A -> option A) old ms i :
  hits names name i (map fst ms) = [] -> read_field names name store old ms = Some old.
Proof.
  revert i. induction ms as [|[k v] ms IH]; intros i E; [done|]. cbn [map fst hits read_field] in *.
  case_bool_decide; [done|]. by apply (IH (S i)).
Qed.

Lemma read_one {A} names name (store : json -> A -> option A) old ms i j kv :
  hits names name i (map fst ms) = [j] -> ms !! (j - i)%nat = Some kv ->
  read_field names name store old ms = store kv.2 old.
Proof.
  revert i. induction ms as [|[k v] ms IH]; intros i E L; [done|]. cbn [map fst hits read_field] in *. case_bool_decide.
  - injection E as -> E. rewrite Nat.sub_diag in L. injection L as <-. cbn [snd].
    destruct (store v old) as [a|]; [|done]. cbn [mbind option_bind]. by eapply read_none.
  - assert (S i <= j)%nat as Le by (apply (hits_later names name (S i) (map fst ms)); cbn [app] in E; rewrite E; by left).
    apply (IH (S i)); [done|]. by replace (j - i)%nat with (S (j - S i)) in L by lia.
Qed.

Lemma some_bind {A B} (o : option A) (k : A -> option B) a b : o = Some a -> k a = Some b -> (o ≫= k) = Some b.
Proof. by intros ->. Qed.

(** One field after another: its member is found, its value stored. *)
Ltac read_member := etrans; [eapply (read_one _ _ _ _ _ 0); [cbn [map fst]; vm_compute; reflexivity|reflexivity]|cbn [snd]].
Ltac no_member := eapply (read_none _ _ _ _ _ 0); cbn [map fst]; vm_compute; reflexivity.

(** The parts of a document, one by one. *)
Lemma key_raw k : bool_decide (Forall plain (bytes k)) = true -> raw_ok (bytes k).
Proof. intros H%bool_decide_eq_true. by apply plain_raw. Qed.

Ltac fit_parts :=
  repeat match goal with
  | |- _ /\ _ => split
  | |- True => exact I
  | |- raw_ok (bytes _) => apply key_raw; vm_compute; reflexivity
  | |- fits (jstring _) _ => apply fits_jstring
  | |- fits (jint _) _ => apply fits_jint
  | |- fits (jbytes _ _) _ => apply fits_jbytes
  | |- fits (JBool _) _ => exact I
  end.

(** A message as it arrives. *)
Definition arrived (m : SignedMessage) : SignedMessage := {|
  SchemaVersion := SchemaVersion m; MessageID := carried (MessageID m); ChatID := carried (ChatID m);
  SenderID := carried (SenderID m); Content := Content m; ContentType := carried (ContentType m);
  Filename := carried (Filename m); Encrypted := Encrypted m; Timestamp := Timestamp m;
  PublicKey := PublicKey m; Signature := Signature m |}.

Record sendable (m : SignedMessage) : Prop := {
  sd_version : - 2 ^ 63 <= SchemaVersion m < 2 ^ 63;
  sd_time : writable (Timestamp m);
}.

Lemma encode_message_fits n m v d : encode_message n m = Some v -> 0 < d -> fits v d.
Proof.
  unfold encode_message. destruct (jtime (Timestamp m)) as [t|] eqn:T; [|done]. intros [= <-] D.
  unfold message_doc. split; [done|]. case_bool_decide; cbn [app foldr key fst snd]; fit_parts; by eapply fits_jtime.
Qed.

Ltac stored := first [apply as_string_jstring|apply as_bytes_jbytes|by apply as_int_jint|by apply as_uint_jint
  |by eapply as_time_jtime|reflexivity].

Lemma decode_encode_message n m old v : sendable m -> encode_message n m = Some v ->
  (Filename m = ""%string -> Filename old = ""%string) ->
  decode_message v old = Some (arrived m).
Proof.
  intros [V W]. unfold encode_message. destruct (jtime (Timestamp m)) as [t|] eqn:T; [|done]. intros [= <-] Fo.
  unfold message_doc. cbn [decode_message]. unfold key. case_bool_decide as Fn; cbn [app].
  all: repeat (eapply some_bind; [first [read_member; stored|no_member]|]).
  - unfold arrived. rewrite Fo, Fn by done. done.
  - done.
Qed.

Lemma encode_message_some n m : sendable m -> exists v, encode_message n m = Some v.
Proof.
  intros [_ W]. unfold encode_message, jtime. rewrite MarshalTime_writable by done. by eexists.
Qed.

(** Identifiers that are UTF-8 arrive as they were. *)
Lemma arrived_well_formed m : well_formed m -> arrived m = m.
Proof.
  intros [V1 V2 V3 V4 V5 _]. unfold arrived. rewrite !carried_valid by done. by destruct m.
Qed.

Lemma encode_entry_fits n e v d : encode_entry n e = Some v -> 1 < d -> fits v d.
Proof.
  unfold encode_entry. destruct (encode_message n (Message e)) as [m|] eqn:E; [|done]. intros [= <-] D.
  split; [lia|]. cbn [foldr key fst snd]. fit_parts. eapply encode_message_fits; [done|lia].
Qed.

Definition arrived_entry (e : LogEntry) : LogEntry := {|
  Sequence := Sequence e; Message := arrived (Message e);
  PrevHash := carried (PrevHash e); EntryHash := carried (EntryHash e) |}.

Lemma decode_encode_entry n e old v : is_u64 (Sequence e) -> sendable (Message e) -> encode_entry n e = Some v ->
  Filename (Message old) = ""%string -> decode_entry v old = Some (arrived_entry e).
Proof.
  intros U Sd. unfold encode_entry. destruct (encode_message n (Message e)) as [m|] eqn:E; [|done].
  intros [= <-] Fo. cbn [decode_entry]. unfold key.
  repeat (eapply some_bind; [read_member; first [stored|by eapply decode_encode_message]|]). done.
Qed.

Lemma encode_event_fits ev d : 0 < d -> fits (encode_event ev) d.
Proof. intros D. split; [done|]. cbn [foldr key fst snd]. fit_parts. Qed.

Definition arrived_event (ev : Event) : Event := {|
  Kind := carried (Kind ev); ev_ChatID := carried (ev_ChatID ev); ev_Sequence := ev_Sequence ev;
  ev_EntryHash := carried (ev_EntryHash ev) |}.

Lemma decode_encode_event ev old : is_u64 (ev_Sequence ev) -> decode_event (encode_event ev) old = Some (arrived_event ev).
Proof.
  intros U. cbn [decode_event encode_event]. unfold key.
  repeat (eapply some_bind; [read_member; stored|]). done.
Qed.

(** *** Over the text *)

(** An event through the broker: [Marshal] and [Unmarshal]. *)
Lemma UnmarshalEvent_MarshalEvent ev : is_u64 (ev_Sequence ev) -> UnmarshalEvent (MarshalEvent ev) = Some (arrived_event ev).
Proof.
  intros U. unfold UnmarshalEvent, MarshalEvent. rewrite <-(app_nil_r (print _)).
  rewrite scan_all_printed by (done || by apply encode_event_fits). by apply decode_encode_event.
Qed.

(** A request body: the document, and anything that does not go on with it. *)
Lemma DecodeMessage_encoded cut n m v rest : sendable m -> encode_message n m = Some v -> stops rest ->
  DecodeMessage cut (print v ++ rest) = Some (arrived m).
Proof.
  intros Sd E St. unfold DecodeMessage.
  rewrite scan_printed; [|by eapply encode_message_fits|done].
  cbn [mbind option_bind].
  assert (self_delimiting v = true) as ->.
  { revert E. unfold encode_message. destruct (jtime _); [|done]. by intros [= <-]. }
  rewrite andb_false_r. cbn [andb]. by eapply decode_encode_message.
Qed.

(** *** What was read *)

Lemma read_field_inv {A} (P : A -> Prop) names name (store : json -> A -> option A) ms : forall old a,
  foldr (fun m P => (raw m.1 /\ texts_raw m.2) /\ P) True ms ->
  (forall v a a', texts_raw v -> P a -> store v a = Some a' -> P a') ->
  P old -> read_field names name store old ms = Some a -> P a.
Proof.
  induction ms as [|[k v] ms IH]; intros old a T St O E; [by injection E as <-|].
  cbn [foldr fst snd read_field] in *. destruct T as [[_ Tv] T]. case_bool_decide; [|by eapply IH].
  destruct (store v old) as [b|] eqn:Eb; [|done]. cbn [mbind option_bind] in E. eapply IH; [done|done| |done].
  by eapply St.
Qed.

Definition utf8 (s : string) : Prop := Utf8.ValidString s = true.

Lemma as_string_utf8 v a a' : texts_raw v -> utf8 a -> as_string v a = Some a' -> utf8 a'.
Proof.
  destruct v; cbn; try done; [by intros _ ? [= <-]|]. intros R _ [= <-]. unfold utf8, Utf8.ValidString.
  rewrite bytes_text. by apply unquote_valid.
Qed.

Lemma digits_value_nonneg d v : digits_value d = Some v -> 0 <= v.
Proof.
  unfold digits_value. destruct (_ && _) eqn:G; [|done]. intros [= <-]. apply andb_true_iff in G as [_ D].
  unfold Dec.value. assert (forall a, 0 <= a -> 0 <= foldl (fun a b => a * 10 + Dec.undigit b) a d) as P; [|by apply P].
  induction d as [|b d IH]; intros a Ha; [done|]. cbn in *. apply andb_true_iff in D as [Db D].
  apply IH; [done|]. unfold is_digit in Db. unfold Dec.undigit. lia.
Qed.

Definition int64 (v : Z) : Prop := - 2 ^ 63 <= v < 2 ^ 63.

Lemma as_int_range v a a' : texts_raw v -> int64 a -> as_int v a = Some a' -> int64 a'.
Proof.
  destruct v as [| |n| | |]; cbn; try done; [by intros _ ? [= <-]|]. intros _ _. unfold int64.
  destruct (decide (head n = Some x2d)) as [H|H].
  - destruct n as [|b n]; [done|]. injection H as ->. cbn. destruct (digits_value n) as [v|] eqn:D; [|done].
    apply digits_value_nonneg in D. cbn. destruct (Z.leb_spec v (2 ^ 63)); [|done]. intros [= <-]. lia.
  - rewrite parse_int_unsigned by done. destruct (digits_value n) as [v|] eqn:D; [|done].
    apply digits_value_nonneg in D. cbn [mbind option_bind]. destruct (Z.ltb_spec v (2 ^ 63)); [|done]. intros [= <-]. lia.
Qed.

(** The fields of a message that came in. *)
Record received (m : SignedMessage) : Prop := {
  rc_version : int64 (SchemaVersion m);
  rc_MessageID : utf8 (MessageID m);
  rc_ChatID : utf8 (ChatID m);
  rc_SenderID : utf8 (SenderID m);
  rc_ContentType : utf8 (ContentType m);
  rc_Filename : utf8 (Filename m);
}.

Lemma zero_received : received zero_message.
Proof. split; [split; cbn; lia|done..]. Qed.

Lemma decode_message_received v old m : texts_raw v -> received old -> decode_message v old = Some m -> received m.
Proof.
  intros T [V1 V2 V3 V4 V5 V6]. destruct v; try done; [by intros [= <-]|]. cbn [decode_message texts_raw] in *.
  intros E. repeat match type of E with context [mbind _ ?o] =>
    let Q := fresh "Q" in destruct o eqn:Q; [cbn [mbind option_bind] in E|done] end.
  injection E as <-.
  split; cbn; (eapply read_field_inv; [exact T| | |eassumption]); eauto using as_string_utf8, as_int_range.
Qed.

Lemma DecodeMessage_received cut l m : DecodeMessage cut l = Some m -> received m.
Proof.
  unfold DecodeMessage. destruct (scan l) as [[v t]|] eqn:Sc; [|done]. cbn [mbind option_bind].
  destruct (_ && _); [done|]. apply scan_texts_raw in Sc. by apply decode_message_received, zero_received.
Qed.
