(* ===== verification/WireSize.v ===== *)
(** * WireSize: how long the JSON of a message can be

    Base64 takes four bytes for three, a byte of a string at most six, a
    timestamp at most thirty-five: the length of the body a client posts is
    bounded by the lengths of the fields of its message. *)
From S2P Require Import Prelude Codec JsonText GoTime JsonTree JsonUtf8 TimeText Sha256 Models Broker Wire.

(** ** Texts *)

Lemma escape_rune_length r : r <> [] -> (length (Json.escape_rune r) <= 6 * length r)%nat.
Proof.
  intros N. destruct r as [|b [|c r]]; [done| |].
  - destruct b; cbn; lia.
  - unfold Json.escape_rune, Json.escape_wide. repeat case_bool_decide; cbn; lia.
Qed.

Lemma escape_length l : (length (Json.escape l) <= 6 * length l)%nat.
Proof.
  unfold Json.escape. assert (forall f k, (length (Json.escape_upto f k) <= 6 * length k)%nat) as A; [|done].
  induction f as [|f IH]; intros k; [cbn; lia|]. destruct k as [|b k]; [cbn; lia|].
  cbn [Json.escape_upto]. destruct (Utf8.rune_size (b :: k)) as [n|] eqn:E.
  - apply Utf8.rune_size_split in E as (_ & D & P). rewrite length_app. specialize (IH (drop n (b :: k))).
    pose proof (escape_rune_length (take n (b :: k))) as R. pose proof (f_equal length D) as DL. rewrite length_app in DL.
    destruct n as [|n]; [cbn in P; lia|]. specialize (R ltac:(done)). lia.
  - rewrite length_app. specialize (IH k). cbn. lia.
Qed.

Lemma base64_length l : Z.of_nat (length (Base64.encode l)) = 4 * ((Z.of_nat (length l) + 2) / 3).
Proof.
  remember (length l) as n eqn:N. revert l N. induction (lt_wf n) as [n _ IH]. intros l ->.
  destruct l as [|a [|b [|c r]]]; [done..|]. cbn [Base64.encode length].
  rewrite !Nat2Z.inj_succ. rewrite (IH (length r) ltac:(cbn; lia) r eq_refl). div_lia.
Qed.

Lemma trim_zeros_length l : (length (trim_zeros l) <= length l)%nat.
Proof. destruct (trim_zeros_pad l) as [k E]. rewrite E at 2. rewrite length_app. lia. Qed.

Lemma MarshalTime_length t l : MarshalTime t = Some l -> (length l <= 35)%nat.
Proof.
  unfold MarshalTime, local_year. destruct (_ && _) eqn:G; [|done]. intros [= <-].
  apply andb_true_iff in G as [G _]. apply andb_true_iff in G as [Y1 Y2].
  assert (forall n, length (fraction_text n) <= 10)%nat as F.
  { intros n. unfold fraction_text. pose proof (trim_zeros_length (Dec.padded 9 n)) as L. rewrite Dec.padded_length in L.
    destruct (trim_zeros (Dec.padded 9 n)); cbn in *; lia. }
  assert (forall o, length (zone_text o) <= 6)%nat as Z.
  { intros o. unfold zone_text. case_match; [cbn; lia|]. cbn [length]. rewrite length_app. cbn [length].
    rewrite !Dec.padded_length. lia. }
  rewrite length_app. unfold date_time. destruct (civil _) as [[y m] d]. cbn [fst] in *. rewrite year_text_padded by lia.
  repeat (rewrite length_app; cbn [length]). rewrite !Dec.padded_length.
  pose proof (F (shown t mod Second)). pose proof (Z (t_offset t)). lia.
Qed.

Lemma int_text_length v : int64 v -> (length (int_text v) <= 20)%nat.
Proof.
  intros R. unfold int64 in R. rewrite int_text_eq. destruct (Z.ltb_spec v 0); cbn [length].
  - pose proof (Dec.decimal_length 19 (- v)). lia.
  - pose proof (Dec.decimal_length 19 v). lia.
Qed.

(** ** Documents *)

Lemma sep_by_length b ls : (length (sep_by b ls) <= list_sum (map (fun l => length l + 1) ls))%nat.
Proof.
  induction ls as [|l [|k ls] IH]; [done|cbn; rewrite app_nil_r; lia|].
  rewrite sep_by_cons, length_app. cbn [length map list_sum foldr] in *. lia.
Qed.

Lemma print_object_length ms :
  (length (print (JObj ms)) <= 2 + list_sum (map (fun m => 4 + length m.1 + length (print m.2)) ms))%nat.
Proof.
  cbn [print]. rewrite length_cons, length_app. cbn [length].
  pose proof (sep_by_length x2c (map (fun m => x22 :: m.1 ++ x22 :: x3a :: print m.2) ms)) as L.
  rewrite map_map in L. enough (list_sum (map (fun m : list byte * json => length (x22 :: m.1 ++ x22 :: x3a :: print m.2) + 1) ms) =
    list_sum (map (fun m => 4 + length m.1 + length (print m.2)) ms))%nat as E by lia.
  clear L. unfold list_sum in *. induction ms as [|m ms IH]; [done|]. cbn [map fold_right]. rewrite IH. f_equal.
  rewrite length_cons, length_app. cbn [length]. lia.
Qed.

Lemma print_jstring_length s : (length (print (jstring s)) <= 2 + 6 * length (bytes s))%nat.
Proof. cbn. rewrite length_app. cbn. pose proof (escape_length (bytes s)). lia. Qed.

Lemma print_jbytes_length n l : Z.of_nat (length (print (jbytes n l))) <= 4 + 4 * ((Z.of_nat (length l) + 2) / 3).
Proof.
  unfold jbytes. destruct (_ && _); cbn [print]; [change (length (bytes "null")) with 4%nat; div_lia|].
  rewrite length_cons, length_app. cbn [length]. pose proof (base64_length l). lia.
Qed.

(** The bytes of the five texts of a message. *)
Definition texts_length (m : SignedMessage) : Z :=
  Z.of_nat (length (bytes (MessageID m)) + length (bytes (ChatID m)) + length (bytes (SenderID m)) +
            length (bytes (ContentType m)) + length (bytes (Filename m))).

Definition encoded_length (l : list byte) : Z := 4 * ((Z.of_nat (length l) + 2) / 3).

Lemma encode_message_length n m v : int64 (SchemaVersion m) -> encode_message n m = Some v ->
  Z.of_nat (length (print v)) <=
    239 + 6 * texts_length m + encoded_length (Content m) + encoded_length (PublicKey m) + encoded_length (Signature m).
Proof.
  intros V. unfold encode_message, jtime. destruct (MarshalTime (Timestamp m)) as [t|] eqn:T; [|done]. intros [= <-].
  apply MarshalTime_length in T.
  pose proof (print_jbytes_length n (Content m)) as Lc. pose proof (print_jbytes_length false (PublicKey m)) as Lp.
  pose proof (print_jbytes_length false (Signature m)) as Ls.
  pose proof (print_jstring_length (MessageID m)). pose proof (print_jstring_length (ChatID m)).
  pose proof (print_jstring_length (SenderID m)). pose proof (print_jstring_length (ContentType m)).
  pose proof (print_jstring_length (Filename m)).
  assert (length (print (JBool (Encrypted m))) <= 5)%nat as Lb by (destruct (Encrypted m); cbn; lia).
  assert (length (print (JStr t)) <= 37)%nat as Lt by (cbn; rewrite length_app; cbn; lia).
  assert (length (print (jint (SchemaVersion m))) <= 20)%nat as Lv by apply (int_text_length _ V).
  unfold message_doc, encoded_length, texts_length. case_bool_decide; cbn [app].
  all: match goal with |- Z.of_nat (length (print (JObj ?ms))) <= _ => pose proof (print_object_length ms) as L end.
  all: unfold list_sum in L; cbn [map fold_right key fst snd] in L.
  all: repeat match type of L with context [length (bytes (String ?a ?s))] =>
    let k := eval vm_compute in (length (bytes (String a s))) in change (length (bytes (String a s))) with k in L end.
  all: lia.
Qed.
