(* ===== verification/Rabbit.v ===== *)
(** * Rabbit: the RabbitMQ adapter of the event port ([internal/broker/rabbitmq.go])

    The client library and the server are a class with one operation per call
    of the adapter; its laws are the documented behaviour of a topic exchange,
    told as what was routed to each consumer.  [Subscribe] starts a goroutine
    that moves deliveries to the subscriber's channel: [loop_turn] is one turn
    of it.  The adapter keeps the contract of the port; its runs are in
    [RabbitRuns]. *)
From S2P Require Import Prelude Codec GoTime JsonTree Broker Wire.

(** ** The client library *)

Record Publishing := {
  pub_ContentType : string;
  pub_DeliveryMode : Z;
  pub_Timestamp : Time;
  pub_Body : list byte;
}.

(** [amqp.Persistent] *)
Definition Persistent : Z := 2.

(** Connections, channels and channels of deliveries are handles. *)
Class AMQP (W : Type) := {
  Dial (url : string) : M W nat;
  OpenChannel (conn : nat) : M W nat;
  CloseConnection (conn : nat) : M W unit;
  CloseChannel (ch : nat) : M W unit;
  ExchangeDeclare (ch : nat) (name kind : string) (durable autoDelete internal noWait : bool) : M W unit;
  QueueDeclare (ch : nat) (name : string) (durable autoDelete exclusive noWait : bool) : M W string;
  QueueBind (ch : nat) (name key exchange : string) (noWait : bool) : M W unit;
  Consume (ch : nat) (queue consumer : string) (autoAck exclusive noLocal noWait : bool) : M W nat;
  CancelConsumer (ch : nat) (consumer : string) (noWait : bool) : M W unit;
  PublishWithContext (timeout : Z) (ch : nat) (exchange key : string) (mandatory immediate : bool)
    (p : Publishing) : M W unit;
  (** [d, ok := <-deliveries]: the body, or [None] when the channel is closed and drained. *)
  Delivery (deliveries : nat) : M W (option (list byte));
  Now : M W Time;
}.

(** *** What the documentation promises *)

(** One consumer: where its queue is bound, what was routed to it, and how
    many of these bodies the program took. *)
Record feed := {
  fd_channel : nat;
  fd_tag : string;
  fd_exchange : option string;
  fd_routed : list (list byte);
  fd_taken : nat;
  fd_cancelled : bool;   (**r [Cancel] was called for it *)
}.

Definition route (body : list byte) (f : feed) : feed := {|
  fd_channel := fd_channel f; fd_tag := fd_tag f; fd_exchange := fd_exchange f;
  fd_routed := fd_routed f ++ [body]; fd_taken := fd_taken f; fd_cancelled := fd_cancelled f |}.
Definition took (f : feed) : feed := {|
  fd_channel := fd_channel f; fd_tag := fd_tag f; fd_exchange := fd_exchange f;
  fd_routed := fd_routed f; fd_taken := S (fd_taken f); fd_cancelled := fd_cancelled f |}.
Definition matches_tag (ch : nat) (tag : string) (f : feed) : bool :=
  bool_decide (fd_channel f = ch /\ fd_tag f = tag).
Definition stop_feed (ch : nat) (tag : string) (f : feed) : feed := {|
  fd_channel := fd_channel f; fd_tag := fd_tag f; fd_exchange := fd_exchange f;
  fd_routed := fd_routed f; fd_taken := fd_taken f;
  fd_cancelled := fd_cancelled f || matches_tag ch tag f |}.

(** A call that comes back, with or without an error. *)
Definition returns {W A} (m : M W A) : Prop :=
  forall w, (exists a w', m w = (Ok a, w')) \/ (exists e w', m w = (Err e, w')).

Class AMQPLaws (W : Type) `{AMQP W} := {
  connections : W -> gset nat;
  channels : W -> gmap nat nat;              (**r channels not closed yet, and their connections *)
  feeds : W -> gmap nat feed;
  queued : string -> W -> list (list byte);  (**r waiting in a queue without consumer *)
  bound : string -> W -> option string;      (**r an exchange all of whose messages reach the queue *)
  intact : W -> Prop;                        (**r no connection has failed so far *)
  drift : W -> W -> Prop;                    (**r what others do, failures included *)

  dial_returns url : returns (Dial url);
  dial_ok url w c w' : Dial url w = (Ok c, w') ->
    c ∉ connections w /\ connections w' = {[c]} ∪ connections w /\ channels w' = channels w;
  dial_err url w e w' : Dial url w = (Err e, w') -> connections w' = connections w /\ channels w' = channels w;
  open_returns c : returns (OpenChannel c);
  open_ok c w h w' : OpenChannel c w = (Ok h, w') ->
    channels w !! h = None /\ channels w' = <[h := c]> (channels w) /\ connections w' = connections w;
  open_err c w e w' : OpenChannel c w = (Err e, w') -> connections w' = connections w /\ channels w' = channels w;
  channel_connected w h c : channels w !! h = Some c -> c ∈ connections w;
  close_channel_returns h : returns (CloseChannel h);
  close_channel_closes h w : connections (CloseChannel h w).2 = connections w /\
    channels (CloseChannel h w).2 = delete h (channels w);
  close_connection_returns c : returns (CloseConnection c);
  close_connection_closes c w : connections (CloseConnection c w).2 = connections w ∖ {[c]} /\
    channels (CloseConnection c w).2 = filter (fun hc => hc.2 <> c) (channels w);
  exchange_returns h n k d a i nw : returns (ExchangeDeclare h n k d a i nw);
  exchange_keeps h n k d a i nw w : connections (ExchangeDeclare h n k d a i nw w).2 = connections w /\
    channels (ExchangeDeclare h n k d a i nw w).2 = channels w;

  declare_returns h n d a e nw : returns (QueueDeclare h n d a e nw);
  declare_feeds h n d a e nw w : feeds (QueueDeclare h n d a e nw w).2 = feeds w;
  declare_new h d a e nw w q w' : QueueDeclare h "" d a e nw w = (Ok q, w') -> queued q w' = [];
  bind_returns h q k x nw : returns (QueueBind h q k x nw);
  bind_feeds h q k x nw w : feeds (QueueBind h q k x nw w).2 = feeds w;
  bind_all h q x nw w w' : QueueBind h q "#" x nw w = (Ok tt, w') ->
    bound q w' = Some x /\ queued q w' = queued q w;
  consume_returns h q t a e l nw : returns (Consume h q t a e l nw);
  consume_err h q t a e l nw w er w' : Consume h q t a e l nw w = (Err er, w') -> feeds w' = feeds w;
  (** A consumer tag is unique among the consumers of its channel. *)
  consume_ok h q t a e l nw w d w' : Consume h q t a e l nw w = (Ok d, w') ->
    feeds w !! d = None /\
    feeds w' = <[d := {| fd_channel := h; fd_tag := t; fd_exchange := bound q w; fd_routed := queued q w;
                         fd_taken := 0; fd_cancelled := false |}]> (feeds w) /\
    forall d' f, feeds w !! d' = Some f -> fd_channel f = h -> fd_tag f = t -> fd_cancelled f = true;
  cancel_consumer_returns h t nw : returns (CancelConsumer h t nw);
  cancel_consumer_feeds h t nw w : feeds (CancelConsumer h t nw w).2 = stop_feed h t <$> feeds w;
  publish_returns' t h x k m i p : returns (PublishWithContext t h x k m i p);
  (** Routed to a consumer at most once. *)
  publish_routes t h x k m i p w d : let w' := (PublishWithContext t h x k m i p w).2 in
    feeds w' !! d = feeds w !! d \/
    exists f, feeds w !! d = Some f /\ feeds w' !! d = Some (route (pub_Body p) f);
  (** And exactly once while the connections hold. *)
  publish_arrives t h x k m i p w w' d f : PublishWithContext t h x k m i p w = (Ok tt, w') -> intact w' ->
    feeds w !! d = Some f -> fd_exchange f = Some x -> fd_cancelled f = false ->
    feeds w' !! d = Some (route (pub_Body p) f);
  (** Deliveries come in the order of the queue. *)
  delivery_next d w body w' : Delivery d w = (Ok (Some body), w') ->
    exists f, feeds w !! d = Some f /\ fd_routed f !! fd_taken f = Some body /\ feeds w' = <[d := took f]> (feeds w);
  delivery_none d w o w' : Delivery d w = (o, w') -> (forall body, o <> Ok (Some body)) ->
    feeds w' = feeds w /\ (o = Ok None \/ o = Block);
  now_returns w : exists t, Now w = (Ok t, w);
  drift_feeds w w' : drift w w' -> feeds w ⊆ feeds w';
  intact_drift w w' : drift w w' -> intact w' -> intact w;
  intact_publish t h x k m i p w : intact (PublishWithContext t h x k m i p w).2 -> intact w;
  intact_declare h n d a e nw w : intact (QueueDeclare h n d a e nw w).2 -> intact w;
  intact_bind h q k x nw w : intact (QueueBind h q k x nw w).2 -> intact w;
  intact_consume h q t a e l nw w : intact (Consume h q t a e l nw w).2 -> intact w;
  intact_cancel h t nw w : intact (CancelConsumer h t nw w).2 -> intact w;
  intact_delivery d w : intact (Delivery d w).2 -> intact w;
}.

(** ** The adapter *)

Definition exchangeName : string := "messenger.log.events".

Record RabbitMQ := { conn : option nat; ch : option nat }.

(** A subscription: its consumer tag, the channel it fills, whether [cancel]
    closed [done], and whether its goroutine still runs.  The channel of
    deliveries and the channel of events are made by one call, once, and
    carry one number. *)
Record subscription := {
  consumerTag : string;
  out : chan;
  done_closed : bool;
  running : bool;
}.

(** A node that uses the broker, and the rest of the world. *)
Record node (W : Type) := Node {
  handle : RabbitMQ;
  subs : gmap nat subscription;
  world : W;
}.
Arguments Node {W}. Arguments handle {W}. Arguments subs {W}. Arguments world {W}.

Section Adapter.
Context {W : Type} `{AMQP W}.

Definition NewRabbitMQ (url : string) : M W RabbitMQ :=
  c ← Dial url;
  x ← try (OpenChannel c);
  match x with
  | inr err => try (CloseConnection c);; throw err
  | inl h =>
      y ← try (ExchangeDeclare h exchangeName "topic" true false false false);
      match y with
      | inr err => try (CloseChannel h);; try (CloseConnection c);; throw err
      | inl _ => mret {| conn := Some c; ch := Some h |}
      end
  end.

Definition rabbit_Close (r : RabbitMQ) : M W unit :=
  match ch r with Some h => try (CloseChannel h);; mret tt | None => mret tt end;;
  match conn r with Some c => CloseConnection c | None => mret tt end.

(** A method called through the channel pointer. *)
Definition on_channel {A} (r : RabbitMQ) (m : nat -> M W A) : M W A :=
  match ch r with Some h => m h | None => panic "invalid memory address or nil pointer dereference" end.

(** [json.Marshal] of an event, strings and a number, cannot fail. *)
Definition rabbit_send (r : RabbitMQ) (event : Event) : M W unit :=
  let body := MarshalEvent event in
  let routingKey := (Kind event ++ "." ++ ev_ChatID event)%string in
  now ← Now;
  on_channel r (fun h => PublishWithContext (5 * Second) h exchangeName routingKey false false
    {| pub_ContentType := "application/json"; pub_DeliveryMode := Persistent;
       pub_Timestamp := now; pub_Body := body |}).

Definition on_world {A} (m : M W A) : M (node W) A :=
  zoom world (fun w b => Node (handle b) (subs b) w) m.
Definition put_sub (id : nat) (s : subscription) : M (node W) unit :=
  modify (fun b => Node (handle b) (<[id := s]> (subs b)) (world b)).

Definition rabbit_Publish (event : Event) : M (node W) unit :=
  r ← gets handle; on_world (rabbit_send r event).

Definition rabbit_Subscribe : M (node W) nat :=
  r ← gets handle;
  q ← on_world (on_channel r (fun h => QueueDeclare h "" false true true false));
  on_world (on_channel r (fun h => QueueBind h q "#" exchangeName false));;
  let tag := ("messenger-sub-" ++ q)%string in
  deliveries ← on_world (on_channel r (fun h => Consume h q tag true true false false));
  put_sub deliveries {| consumerTag := tag; out := {| buffer := []; closed := false |};
                        done_closed := false; running := true |};;
  mret deliveries.

(** The closure of a subscription; there is none for another number. *)
Definition rabbit_Cancel (id : nat) : M (node W) unit :=
  r ← gets handle;
  s ← gets (fun b => subs b !! id);
  match s with
  | None => mret tt
  | Some s =>
      if done_closed s then panic "close of closed channel"
      else
        put_sub id {| consumerTag := consumerTag s; out := out s; done_closed := true; running := running s |};;
        try (on_world (on_channel r (fun h => CancelConsumer h (consumerTag s) false)));;
        mret tt
  end.

(** *** The goroutine *)

(** The ready case a [select] takes. *)
Inductive pick := PickDelivery | PickDone.

(** Leaving the loop runs the deferred [close(out)]. *)
Definition leave (id : nat) (s : subscription) : M (node W) unit :=
  if closed (out s) then panic "close of closed channel"
  else put_sub id {| consumerTag := consumerTag s; out := {| buffer := buffer (out s); closed := true |};
                     done_closed := done_closed s; running := false |}.

(** A delivery: skipped when it is no event, dropped when [out] is full. *)
Definition forward (id : nat) (s : subscription) (body : list byte) : M (node W) unit :=
  match UnmarshalEvent body with
  | None => mret tt
  | Some evt =>
      out' ← lift (send evt (out s));
      put_sub id {| consumerTag := consumerTag s; out := out'; done_closed := done_closed s; running := running s |}
  end.

(** One turn of the loop. *)
Definition loop_turn (id : nat) (p : pick) : M (node W) unit :=
  s ← gets (fun b => subs b !! id);
  match s with
  | None => block
  | Some s =>
      if negb (running s) then block else
      match p with
      | PickDelivery =>
          d ← on_world (Delivery id);
          match d with None => leave id s | Some body => forward id s body end
      | PickDone => if done_closed s then leave id s else block
      end
  end.

(** [evt, ok := <-out] by the subscriber. *)
Definition rabbit_receive (id : nat) : M (node W) (option Event) :=
  s ← gets (fun b => subs b !! id);
  match s with
  | None => block
  | Some s =>
      match buffer (out s) with
      | ev :: r =>
          put_sub id {| consumerTag := consumerTag s; out := {| buffer := r; closed := closed (out s) |};
                        done_closed := done_closed s; running := running s |};;
          mret (Some ev)
      | [] => if closed (out s) then mret None else block
      end
  end.

#[global] Instance rabbit_broker : Broker (node W) :=
  { Publish := rabbit_Publish; Subscribe := rabbit_Subscribe; Cancel := rabbit_Cancel }.
End Adapter.

#[local] Arguments UnmarshalEvent : simpl never.
#[local] Arguments MarshalEvent : simpl never.

(** ** The contract of the port *)

Section Contract.
Context {W : Type} `{AL : AMQPLaws W}.
Implicit Types b : node W.
Implicit Types w : W.

Lemma send_result r ev w : is_Some (ch r) -> exists w',
  rabbit_send r ev w = (Ok tt, w') \/ exists e, rabbit_send r ev w = (Err e, w').
Proof.
  intros [h E]. destruct (now_returns w) as [t T]. unfold rabbit_send, on_channel. rewrite (bind_ok _ _ _ _ _ T), E.
  destruct (publish_returns' (5 * Second) h exchangeName (Kind ev ++ "." ++ ev_ChatID ev) false false
    {| pub_ContentType := "application/json"; pub_DeliveryMode := Persistent; pub_Timestamp := t;
       pub_Body := MarshalEvent ev |} w) as [([] & w' & P)|(e & w' & P)]; exists w'; [by left|right; by exists e].
Qed.

(** One call on the world, in the node. *)
Lemma on_world_run {A} (m : M W A) b o w : m (world b) = (o, w) -> on_world m b = (o, Node (handle b) (subs b) w).
Proof. intros E. unfold on_world, zoom. by rewrite E. Qed.

Lemma on_channel_some {A} r h (m : nat -> M W A) : ch r = Some h -> on_channel r m = m h.
Proof. unfold on_channel. by intros ->. Qed.

(** [Subscribe] over a node with a channel: an error on the way, or a new consumer. *)
Lemma subscribe_cases b h : ch (handle b) = Some h ->
  (exists e w, rabbit_Subscribe b = (Err e, Node (handle b) (subs b) w) /\ feeds w = feeds (world b) /\
     (intact w -> intact (world b))) \/
  exists id q w f, rabbit_Subscribe b =
    (Ok id, Node (handle b) (<[id := {| consumerTag := "messenger-sub-" ++ q; out := {| buffer := []; closed := false |};
                                        done_closed := false; running := true |}]> (subs b)) w) /\
    feeds (world b) !! id = None /\ feeds w = <[id := f]> (feeds (world b)) /\
    f = {| fd_channel := h; fd_tag := "messenger-sub-" ++ q; fd_exchange := Some exchangeName; fd_routed := [];
           fd_taken := 0; fd_cancelled := false |} /\
    (intact w -> intact (world b)) /\
    (forall d f', feeds (world b) !! d = Some f' -> fd_channel f' = h -> fd_tag f' = fd_tag f -> fd_cancelled f' = true).
Proof.
  intros E. unfold rabbit_Subscribe. erewrite bind_ok by done. cbv beta. rewrite !(on_channel_some _ _ _ E).
  pose proof (declare_feeds h "" false true true false (world b)) as F1.
  pose proof (intact_declare h "" false true true false (world b)) as I1.
  destruct (declare_returns h "" false true true false (world b)) as [(q & w1 & D)|(e & w1 & D)]; rewrite D in F1, I1; cbn [snd] in F1, I1;
    [|left; exists e, w1; split; [by rewrite (bind_err _ _ _ _ _ (on_world_run _ _ _ _ D))|done]].
  rewrite (bind_ok _ _ _ _ _ (on_world_run _ _ _ _ D)). cbv beta. pose proof (declare_new _ _ _ _ _ _ _ _ D) as N1.
  pose proof (bind_feeds h q "#" exchangeName false w1) as F2. pose proof (intact_bind h q "#" exchangeName false w1) as I2.
  destruct (bind_returns h q "#" exchangeName false w1) as [([] & w2 & Bd)|(e & w2 & Bd)]; rewrite Bd in F2, I2; cbn [snd] in F2, I2;
    rewrite !(on_channel_some _ _ _ E);
    [|left; exists e, w2; split; [by rewrite (bind_err _ _ _ _ _ (on_world_run _ (Node _ _ w1) _ _ Bd))|by rewrite F2, F1; auto]].
  rewrite (bind_ok _ _ _ _ _ (on_world_run _ (Node _ _ w1) _ _ Bd)). apply bind_all in Bd as [Bx Bq]. cbv beta zeta.
  pose proof (intact_consume h q ("messenger-sub-" ++ q) true true false false w2) as I3.
  destruct (consume_returns h q ("messenger-sub-" ++ q) true true false false w2) as [(d & w3 & Cs)|(e & w3 & Cs)].
  - rewrite (bind_ok _ _ _ _ _ (on_world_run _ (Node _ _ w2) _ _ Cs)). rewrite Cs in I3.
    apply consume_ok in Cs as (Fr & Fe & Un). rewrite F2, F1 in Fe, Fr. rewrite Bx, Bq, N1 in Fe.
    right. eexists d, q, w3, _. split; [done|]. split; [done|]. split; [exact Fe|]. split; [done|].
    split; [cbn [snd] in I3; auto|]. rewrite F2, F1 in Un. exact Un.
  - left. exists e, w3. rewrite Cs in I3. split; [by rewrite (bind_err _ _ _ _ _ (on_world_run _ (Node _ _ w2) _ _ Cs))|].
    apply consume_err in Cs. rewrite Cs, F2, F1. cbn in *. auto.
Qed.

(** [cancel]: the second call panics. *)
Lemma cancel_cases b id h : ch (handle b) = Some h ->
  match subs b !! id with
  | None => rabbit_Cancel id b = (Ok tt, b)
  | Some s =>
      if done_closed s then rabbit_Cancel id b = (Panic "close of closed channel", b)
      else rabbit_Cancel id b =
        (Ok tt, Node (handle b) (<[id := {| consumerTag := consumerTag s; out := out s; done_closed := true;
                                            running := running s |}]> (subs b))
                     (CancelConsumer h (consumerTag s) false (world b)).2)
  end.
Proof.
  intros E. unfold rabbit_Cancel. erewrite bind_ok by done. cbv beta. erewrite bind_ok by done. cbv beta.
  destruct (subs b !! id) as [s|]; [|done]. destruct (done_closed s); [done|].
  erewrite bind_ok by done. rewrite (on_channel_some _ _ _ E).
  destruct (cancel_consumer_returns h (consumerTag s) false (world b)) as [([] & w & C)|(e & w & C)]; rewrite C.
  - by rewrite (bind_ok _ _ _ _ _ (try_ok _ _ _ _ (on_world_run _ (Node _ _ (world b)) _ _ C))).
  - by rewrite (bind_ok _ _ _ _ _ (try_err _ _ _ _ (on_world_run _ (Node _ _ (world b)) _ _ C))).
Qed.

(** Ignoring what a call returns. *)
Lemma ignored {A} (m : M W A) w : returns m -> exists x, try m w = (Ok x, (m w).2).
Proof. intros R. destruct (R w) as [(a & w' & E)|(e & w' & E)]; unfold try; rewrite E; by eexists. Qed.

(** [NewRabbitMQ] returns: an error, or an adapter with a channel. *)
Lemma new_rabbit_result url w : exists w', (exists e, NewRabbitMQ url w = (Err e, w')) \/
  exists r, NewRabbitMQ url w = (Ok r, w') /\ is_Some (ch r).
Proof.
  unfold NewRabbitMQ. destruct (dial_returns url w) as [(c & w1 & D)|(e & w1 & D)];
    [|exists w1; left; exists e; by rewrite (bind_err _ _ _ _ _ D)].
  rewrite (bind_ok _ _ _ _ _ D).
  destruct (open_returns c w1) as [(h & w2 & O)|(e & w2 & O)].
  2:{ rewrite (bind_ok _ _ _ _ _ (try_err _ _ _ _ O)).
      destruct (ignored (CloseConnection c) w2) as [x X]; [apply close_connection_returns|].
      eexists. left. exists e. by rewrite (bind_ok _ _ _ _ _ X). }
  rewrite (bind_ok _ _ _ _ _ (try_ok _ _ _ _ O)).
  destruct (exchange_returns h exchangeName "topic" true false false false w2) as [([] & w3 & X)|(e & w3 & X)].
  - rewrite (bind_ok _ _ _ _ _ (try_ok _ _ _ _ X)). eexists. right. eexists. split; [done|by eexists].
  - rewrite (bind_ok _ _ _ _ _ (try_err _ _ _ _ X)).
    destruct (ignored (CloseChannel h) w3) as [x Y]; [apply close_channel_returns|].
    destruct (ignored (CloseConnection c) (CloseChannel h w3).2) as [z Z]; [apply close_connection_returns|].
    eexists. left. exists e. by rewrite (bind_ok _ _ _ _ _ Y), (bind_ok _ _ _ _ _ Z).
Qed.

(** The port over RabbitMQ: everything [chatlog] and the handlers rely on. *)
#[global] Program Instance rabbit_broker_laws : BrokerLaws (node W) := {
  broker_inv b := is_Some (ch (handle b));
  live id b := exists s, subs b !! id = Some s /\ done_closed s = false;
}.
Next Obligation.
  intros ev b Hc. destruct (send_result (handle b) ev (world b) Hc) as (w & [P|[e P]]);
    exists (Node (handle b) (subs b) w); (split; [done|]).
  - left. cbn. unfold rabbit_Publish. erewrite bind_ok by done. by apply on_world_run.
  - right. exists e. cbn. unfold rabbit_Publish. erewrite bind_ok by done. by apply on_world_run.
Qed.
Next Obligation.
  intros b [h E]. destruct (subscribe_cases b h E) as [(e & w & S & _)|(id & q & w & f & S & _)]; eexists.
  - split; [|right; exists e; exact S]. by exists h.
  - split; [|left; exists id; split; [exact S|]]; [by exists h|]. eexists. cbn. by rewrite lookup_insert_eq.
Qed.
Next Obligation.
  intros id b [h E] (s & L & D). pose proof (cancel_cases b id h E) as C. rewrite L, D in C.
  eexists. split; [|exact C]. by exists h.
Qed.
Next Obligation.
  intros id b [h E]. pose proof (cancel_cases b id h E) as C. cbn. destruct (subs b !! id) as [s|]; [destruct (done_closed s)|];
    rewrite C; by exists h.
Qed.
Next Obligation.
  intros id b [h E]. pose proof (cancel_cases b id h E) as C. cbn. destruct (subs b !! id) as [s|]; [destruct (done_closed s)|];
    by rewrite C.
Qed.
End Contract.
