(* ===== verification/RabbitRuns.v ===== *)
(** * RabbitRuns: the RabbitMQ adapter at work

    The operations of the adapter, the turns of its goroutines, other
    publishers and the failures of the network, as the steps of one machine:
    events arrive in order, are dropped rather than waited for, the goroutines
    end, and connections are not leaked.  The last module is a small server
    that keeps the promises of [AMQPLaws]. *)
From S2P Require Import Prelude Codec GoTime JsonTree Broker Wire Rabbit.

#[local] Arguments UnmarshalEvent : simpl never.
#[local] Arguments MarshalEvent : simpl never.

(** ** Runs *)

Inductive rlabel :=
  | RSubscribe (id : nat)
  | RCancel (id : nat)
  | RSend (body : list byte) (ok : bool)   (**r a message published on the exchange *)
  | RReceive (id : nat) (ev : Event)
  | RQuiet.

(** The events received from subscription [id]. *)
Definition got (id : nat) (t : list rlabel) : list Event :=
  t ≫= fun l => match l with RReceive j ev => if decide (j = id) then [ev] else [] | _ => [] end.

(** What was published on the exchange since [id] subscribed, and whether the
    publisher was told that it was. *)
Definition since_step (id : nat) (w : bool * list (list byte * bool)) (l : rlabel) : bool * list (list byte * bool) :=
  match l with
  | RSubscribe j => if decide (j = id) then (true, w.2) else w
  | RSend body ok => (w.1, if w.1 then w.2 ++ [(body, ok)] else w.2)
  | _ => w
  end.
Definition since (id : nat) (t : list rlabel) : bool * list (list byte * bool) := foldl (since_step id) (false, []) t.
Definition sent (id : nat) (t : list rlabel) : list (list byte) := (since id t).2.*1.
Definition confirmed (id : nat) (t : list rlabel) : Prop := Forall (fun p => p.2 = true) (since id t).2.

(** The events among a list of bodies. *)
Definition events_of (l : list (list byte)) : list Event := omap UnmarshalEvent l.

Lemma got_snoc id t l : got id (t ++ [l]) = got id t ++ got id [l].
Proof. unfold got. by rewrite bind_app. Qed.
Lemma since_snoc id t l : since id (t ++ [l]) = since_step id (since id t) l.
Proof. unfold since. by rewrite foldl_app. Qed.
Lemma events_of_app l k : events_of (l ++ k) = events_of l ++ events_of k.
Proof. unfold events_of. apply omap_app. Qed.
Lemma events_of_sublist l k : l `sublist_of` k -> events_of l `sublist_of` events_of k.
Proof.
  induction 1 as [|x l k S IH|x l k S IH]; cbn; [done| |].
  - destruct (UnmarshalEvent x); [by constructor|done].
  - destruct (UnmarshalEvent x); [by constructor|done].
Qed.

(** Events that were published arrive. *)
Lemma events_of_marshalled evs : Forall (fun ev => is_u64 (ev_Sequence ev)) evs ->
  events_of (map MarshalEvent evs) = map arrived_event evs.
Proof. induction 1; cbn; [done|]. rewrite UnmarshalEvent_MarshalEvent by done. cbn. by f_equal. Qed.

Section Runs.
Context {W : Type} `{AL : AMQPLaws W}.
Implicit Types b : node W.
Implicit Types w : W.

Definition with_world w b : node W := Node (handle b) (subs b) w.

(** Another publisher on the exchange may send anything. *)
Inductive rstep b : rlabel -> node W -> Prop :=
  | rstep_subscribe id b' : rabbit_Subscribe b = (Ok id, b') -> rstep b (RSubscribe id) b'
  | rstep_subscribe_err e b' : rabbit_Subscribe b = (Err e, b') -> rstep b RQuiet b'
  | rstep_cancel id b' : rabbit_Cancel id b = (Ok tt, b') -> rstep b (RCancel id) b'
  | rstep_publish ev o b' : rabbit_Publish ev b = (o, b') ->
      rstep b (RSend (MarshalEvent ev) (bool_decide (o = Ok tt))) b'
  | rstep_other t h k m i p o w' : PublishWithContext t h exchangeName k m i p (world b) = (o, w') ->
      rstep b (RSend (pub_Body p) (bool_decide (o = Ok tt))) (with_world w' b)
  | rstep_turn id p b' : loop_turn id p b = (Ok tt, b') -> rstep b RQuiet b'
  | rstep_receive id ev b' : rabbit_receive id b = (Ok (Some ev), b') -> rstep b (RReceive id ev) b'
  | rstep_drift w' : drift (world b) w' -> rstep b RQuiet (with_world w' b).

(** From a node that has not subscribed to anything. *)
Inductive rtrace b0 : list rlabel -> node W -> Prop :=
  | rtrace_start : is_Some (ch (handle b0)) -> subs b0 = ∅ -> rtrace b0 [] b0
  | rtrace_step t b l b' : rtrace b0 t b -> rstep b l b' -> rtrace b0 (t ++ [l]) b'.

(** *** What holds of each subscription *)

(** The events the goroutine took so far. *)
Definition taken_events (f : feed) : list Event := events_of (take (fd_taken f) (fd_routed f)).

Record flow h t w id (s : subscription) (f : feed) : Prop := {
  fl_feed : feeds w !! id = Some f;
  fl_channel : fd_channel f = h;
  fl_tag : fd_tag f = consumerTag s;
  fl_exchange : fd_exchange f = Some exchangeName;
  fl_cancelled : fd_cancelled f = done_closed s;
  fl_since : (since id t).1 = true;
  fl_routed : fd_routed f `sublist_of` sent id t;
  fl_taken : (fd_taken f <= length (fd_routed f))%nat;
  fl_kept : got id t ++ buffer (out s) `sublist_of` taken_events f;
  fl_all : (length (taken_events f) <= capacity)%nat -> got id t ++ buffer (out s) = taken_events f;
  fl_room : (length (buffer (out s)) <= capacity)%nat;
  fl_closed : closed (out s) = negb (running s);
  fl_exact : intact w -> done_closed s = false -> confirmed id t -> fd_routed f = sent id t;
}.

Definition sub_inv h t b id : Prop :=
  match subs b !! id with
  | None => got id t = [] /\ since id t = (false, [])
  | Some s => exists f, flow h t (world b) id s f
  end.

(** Two subscriptions that are not cancelled have two tags. *)
Definition tags_differ b : Prop := forall i j si sj, subs b !! i = Some si -> subs b !! j = Some sj ->
  done_closed si = false -> done_closed sj = false -> consumerTag si = consumerTag sj -> i = j.

Record node_inv h t b : Prop := {
  ni_handle : ch (handle b) = Some h;
  ni_tags : tags_differ b;
  ni_subs id : sub_inv h t b id;
}.

(** A step that does not concern [id]. *)
Lemma flow_frame h t l w w' id s f : flow h t w id s f ->
  feeds w' !! id = Some f -> (intact w' -> intact w) ->
  got id [l] = [] -> since_step id (since id t) l = since id t -> flow h (t ++ [l]) w' id s f.
Proof.
  intros [] F I G S. unfold sent, confirmed in *. split; unfold sent, confirmed; rewrite ?since_snoc, ?S, ?got_snoc, ?G, ?app_nil_r; try done.
  auto.
Qed.

Lemma sub_inv_frame h t l b b' id : sub_inv h t b id -> subs b' !! id = subs b !! id ->
  (forall f, feeds (world b) !! id = Some f -> feeds (world b') !! id = Some f) ->
  (intact (world b') -> intact (world b)) ->
  got id [l] = [] -> since_step id (since id t) l = since id t -> sub_inv h (t ++ [l]) b' id.
Proof.
  unfold sub_inv. intros I E F In G S. rewrite E. destruct (subs b !! id) as [s|].
  - destruct I as [f Fl]. exists f. eapply flow_frame; try done. apply F, Fl.
  - by rewrite since_snoc, S, got_snoc, G, app_nil_r.
Qed.

Lemma subs_feed h t b id s : node_inv h t b -> subs b !! id = Some s -> exists f, flow h t (world b) id s f.
Proof. intros [_ _ I] E. specialize (I id). unfold sub_inv in I. by rewrite E in I. Qed.

(** *** Each step keeps it *)

Lemma inv_subscribe h t b id b' : node_inv h t b -> rabbit_Subscribe b = (Ok id, b') ->
  node_inv h (t ++ [RSubscribe id]) b'.
Proof.
  intros K E. pose proof K as [Kh Kt Ks].
  destruct (subscribe_cases b h Kh) as [(e & w & S & _)|(d & q & w & f & S & Fr & Fe & Ef & In & Un)];
    rewrite E in S; [done|]. injection S as <- ->.
  assert (subs b !! id = None) as N.
  { destruct (subs b !! id) eqn:Es; [|done]. by destruct (subs_feed _ _ _ _ _ K Es) as (f' & [Fl]); rewrite Fr in Fl. }
  split; [done| |].
  - intros i j si sj. cbn. intros Li Lj Di Dj T.
    apply lookup_insert_Some in Li as [[<- <-]|[Ni Li]], Lj as [[<- <-]|[Nj Lj]]; [done|..|by eapply Kt]; exfalso.
    + destruct (subs_feed _ _ _ _ _ K Lj) as (f' & [Fl Fc Ft _ Fd]). apply Un in Fl; [congruence|done|]. subst f. cbn in *. congruence.
    + destruct (subs_feed _ _ _ _ _ K Li) as (f' & [Fl Fc Ft _ Fd]). apply Un in Fl; [congruence|done|]. subst f. cbn in *. congruence.
  - intros i. destruct (decide (i = id)) as [->|Ni].
    + unfold sub_inv. cbn. rewrite lookup_insert_eq. specialize (Ks id). unfold sub_inv in Ks. rewrite N in Ks.
      destruct Ks as [G Sn]. exists f. subst f.
      split; unfold sent, confirmed, taken_events; rewrite ?since_snoc, ?got_snoc, ?G, ?Sn; cbn;
        rewrite ?decide_True by done; cbn; try done; try lia.
      by rewrite Fe, lookup_insert_eq.
    + apply (sub_inv_frame _ _ _ b); cbn; try done.
      * by rewrite lookup_insert_ne.
      * intros f' Fl. by rewrite Fe, lookup_insert_ne.
      * by rewrite decide_False.
Qed.

Lemma inv_cancel h t b id b' : node_inv h t b -> rabbit_Cancel id b = (Ok tt, b') ->
  node_inv h (t ++ [RCancel id]) b'.
Proof.
  intros K E. pose proof K as [Kh Kt Ks]. pose proof (cancel_cases b id h Kh) as C.
  destruct (subs b !! id) as [s|] eqn:L.
  2:{ rewrite E in C. injection C as ->. split; [done..|]. intros i. by apply (sub_inv_frame _ _ _ b). }
  destruct (done_closed s) eqn:D; rewrite E in C; [done|]. injection C as ->.
  split; [done| |].
  - intros i j si sj. cbn. intros Li Lj Di Dj.
    apply lookup_insert_Some in Li as [[<- <-]|[Ni Li]], Lj as [[<- <-]|[Nj Lj]]; [done..|by eapply Kt].
  - pose proof (cancel_consumer_feeds h (consumerTag s) false (world b)) as Fe.
    pose proof (intact_cancel h (consumerTag s) false (world b)) as In.
    intros i. unfold sub_inv. cbn [subs world]. destruct (decide (i = id)) as [->|Ni].
    + rewrite lookup_insert_eq. destruct (subs_feed _ _ _ _ _ K L) as (f & [Fl ? Ft ? Fd]).
      exists (stop_feed h (consumerTag s) f). unfold sent, confirmed, taken_events in *.
      split; unfold sent, confirmed, taken_events; rewrite ?since_snoc, ?got_snoc, ?app_nil_r; cbn; try done.
      * rewrite Fe, lookup_fmap, Fl. done.
      * unfold matches_tag. rewrite bool_decide_eq_true_2 by done. by rewrite orb_true_r.
    + rewrite lookup_insert_ne by done. specialize (Ks i). unfold sub_inv in Ks. destruct (subs b !! i) as [si|] eqn:Li.
      * destruct Ks as (f & Fl). exists f. eapply flow_frame; try done.
        rewrite Fe, lookup_fmap, (fl_feed _ _ _ _ _ _ Fl). cbn. f_equal. destruct Fl as [_ Fc Ft _ Fd].
        unfold stop_feed, matches_tag. destruct f. cbn in *. f_equal.
        destruct (done_closed si) eqn:Di; [by rewrite Fd|]. rewrite Fd. cbn. apply bool_decide_eq_false_2.
        intros [_ T]. apply Ni. eapply Kt; try done. congruence.
      * by rewrite since_snoc, got_snoc, app_nil_r.
Qed.

(** A message published on the exchange, by whichever node. *)
Lemma inv_send h t b tm hh k m i p o w' : node_inv h t b ->
  PublishWithContext tm hh exchangeName k m i p (world b) = (o, w') ->
  node_inv h (t ++ [RSend (pub_Body p) (bool_decide (o = Ok tt))]) (with_world w' b).
Proof.
  intros [Kh Kt Ks] E. split; [done..|]. intros id. specialize (Ks id). unfold sub_inv in *. cbn [subs world with_world].
  destruct (subs b !! id) as [s|] eqn:L.
  2:{ destruct Ks as [G Sn]. by rewrite since_snoc, got_snoc, G, Sn. }
  destruct Ks as [f Fl]. pose proof (publish_routes tm hh exchangeName k m i p (world b) id) as Rt.
  pose proof (intact_publish tm hh exchangeName k m i p (world b)) as In. rewrite E in Rt, In. cbn [snd] in Rt, In.
  pose proof (fl_feed _ _ _ _ _ _ Fl) as Ff. pose proof (fl_since _ _ _ _ _ _ Fl) as Sn.
  assert (forall f', feeds w' !! id = Some f' -> f' = f \/ f' = route (pub_Body p) f) as Cs.
  { intros f' F'. destruct Rt as [R|(f0 & R0 & R)]; [left|right]; congruence. }
  assert (exists f', feeds w' !! id = Some f') as [f' F'] by (destruct Rt as [R|(f0 & R0 & R)]; rewrite R; eauto).
  exists f'. apply Cs in F' as C. destruct Fl as [_ Fc Ft Fx Fd _ Fr Ftk Fk Fa Fm Fcl Fe].
  assert (take (fd_taken f') (fd_routed f') = take (fd_taken f) (fd_routed f)) as Tk.
  { destruct C as [->| ->]; [done|]. cbn. by rewrite take_app_le. }
  split; unfold sent, confirmed, taken_events in *; rewrite ?since_snoc, ?got_snoc, ?Tk, ?app_nil_r; cbn;
    rewrite ?Sn; cbn; rewrite ?fmap_app; cbn; try done.
  all: try (destruct C as [->| ->]; done).
  - destruct C as [->| ->]; [by apply sublist_snoc|]. cbn. by apply sublist_app.
  - destruct C as [->| ->]; [done|]. cbn. rewrite length_app. lia.
  - intros Iw D Cf. apply Forall_app in Cf as [Cf Co]. apply Forall_inv in Co. cbn in Co.
    apply bool_decide_eq_true in Co. subst o.
    assert (fd_routed f = (since id t).2.*1) as Er by auto. rewrite <-Er.
    pose proof (publish_arrives _ _ _ _ _ _ _ _ _ id f E Iw Ff Fx) as A. rewrite Fd, F' in A. specialize (A D).
    by injection A as ->.
Qed.

Lemma publish_is_send ev b o b' : is_Some (ch (handle b)) -> rabbit_Publish ev b = (o, b') ->
  exists tm hh k m i p w', pub_Body p = MarshalEvent ev /\ b' = with_world w' b /\
    PublishWithContext tm hh exchangeName k m i p (world b) = (o, w').
Proof.
  intros [h E]. unfold rabbit_Publish. erewrite bind_ok by done. unfold on_world, zoom, rabbit_send. cbv zeta.
  destruct (now_returns (world b)) as [t T]. rewrite (bind_ok _ _ _ _ _ T). rewrite (on_channel_some _ _ _ E).
  destruct (PublishWithContext _ _ _ _ _ _ _ _) as [o' w'] eqn:P. intros [= <- <-].
  do 7 eexists. split; [|split; [|exact P]]; done.
Qed.

(** Replacing one subscription's record, when its own invariant is shown. *)
Lemma node_inv_put h t l b b' id s s' : node_inv h t b -> subs b !! id = Some s ->
  subs b' = <[id := s']> (subs b) -> handle b' = handle b -> consumerTag s' = consumerTag s -> done_closed s' = done_closed s ->
  (forall i f, i <> id -> feeds (world b) !! i = Some f -> feeds (world b') !! i = Some f) ->
  (intact (world b') -> intact (world b)) ->
  (forall i, i <> id -> got i [l] = []) -> (forall i, i <> id -> since_step i (since i t) l = since i t) ->
  (exists f, flow h (t ++ [l]) (world b') id s' f) -> node_inv h (t ++ [l]) b'.
Proof.
  intros [Kh Kt Ks] L E Eh T D F In G Sn Fl. split; [by rewrite Eh| |].
  - intros i j si sj. rewrite E. intros Li Lj Di Dj Tg.
    apply lookup_insert_Some in Li as [[<- <-]|[Ni Li]], Lj as [[<- <-]|[Nj Lj]]; [done|..|by eapply Kt];
      eapply Kt; try done; congruence.
  - intros i. destruct (decide (i = id)) as [->|N].
    + unfold sub_inv. by rewrite E, lookup_insert_eq.
    + apply (sub_inv_frame _ _ _ b); auto. by rewrite E, lookup_insert_ne.
Qed.

(** The end of the goroutine. *)
Lemma flow_leave h t w w' id s f : flow h t w id s f -> running s = true ->
  feeds w' = feeds w -> (intact w' -> intact w) ->
  flow h (t ++ [RQuiet]) w' id {| consumerTag := consumerTag s; out := {| buffer := buffer (out s); closed := true |};
                                 done_closed := done_closed s; running := false |} f.
Proof.
  intros [] Rn F I. unfold sent, confirmed in *.
  split; unfold sent, confirmed; rewrite ?since_snoc, ?got_snoc, ?app_nil_r; cbn; try done; [by rewrite F|auto].
Qed.

(** One delivery taken: forwarded, dropped or skipped. *)
Lemma flow_take h t w w' id s f body s' : flow h t w id s f -> running s = true ->
  fd_routed f !! fd_taken f = Some body -> feeds w' = <[id := took f]> (feeds w) -> (intact w' -> intact w) ->
  consumerTag s' = consumerTag s -> done_closed s' = done_closed s -> running s' = running s ->
  out s' = match UnmarshalEvent body with Some evt => push evt (out s) | None => out s end ->
  flow h (t ++ [RQuiet]) w' id s' (took f).
Proof.
  intros [Fl Fc Ft Fx Fd Fs Fr Ftk Fk Fa Fm Fcl Fe] Rn Bd F I Et Ed Er Eo.
  assert (taken_events (took f) = taken_events f ++ match UnmarshalEvent body with Some evt => [evt] | None => [] end) as Te.
  { unfold taken_events. cbn. rewrite (take_S_r _ _ body) by done. by rewrite events_of_app. }
  pose proof (lookup_lt_Some _ _ _ Bd) as Lt. unfold sent, confirmed in *.
  split; unfold sent, confirmed; rewrite ?since_snoc, ?got_snoc;
    change (got id [RQuiet]) with (@nil Event); cbn [since_step]; rewrite ?app_nil_r, ?Te, ?Eo, ?Et, ?Ed; try done.
  - by rewrite F, lookup_insert_eq.
  - destruct (UnmarshalEvent body) as [evt|]; [|by rewrite app_nil_r].
    unfold push. case_match; cbn; [rewrite (assoc_L (++)); by apply sublist_app|by apply sublist_snoc].
  - destruct (UnmarshalEvent body) as [evt|]; [|rewrite app_nil_r; exact Fa].
    rewrite length_app. cbn. intros Le. unfold push. destruct (Nat.ltb_spec (length (buffer (out s))) capacity) as [G|G]; cbn.
    + rewrite (assoc_L (++)). f_equal. apply Fa. lia.
    + apply sublist_length in Fk. rewrite length_app in Fk. lia.
  - destruct (UnmarshalEvent body) as [evt|]; [by apply push_capacity|done].
  - rewrite Er. destruct (UnmarshalEvent body) as [evt|]; [by rewrite push_closed|done].
  - auto.
Qed.

Lemma turn_cases id p b : match subs b !! id with
  | None => loop_turn id p b = (Block, b)
  | Some s =>
      loop_turn id p b =
        if negb (running s) then (Block, b) else
        match p with
        | PickDone => if done_closed s then leave id s b else (Block, b)
        | PickDelivery =>
            match Delivery id (world b) with
            | (Ok (Some body), w) => forward id s body (with_world w b)
            | (Ok None, w) => leave id s (with_world w b)
            | (Err e, w) => (Err e, with_world w b)
            | (Panic y, w) => (Panic y, with_world w b)
            | (Block, w) => (Block, with_world w b)
            end
        end
  end.
Proof.
  unfold loop_turn. erewrite bind_ok by done. cbv beta. destruct (subs b !! id) as [s|]; [|done].
  destruct (negb (running s)); [done|]. destruct p; [|by destruct (done_closed s)].
  unfold mbind, M_bind, on_world, zoom. destruct (Delivery id (world b)) as [[[body|]|e|y|] w]; done.
Qed.

Lemma forward_run id s body b : closed (out s) = false ->
  forward id s body b = (Ok tt, match UnmarshalEvent body with
    | None => b
    | Some evt => Node (handle b) (<[id := {| consumerTag := consumerTag s; out := push evt (out s);
                                             done_closed := done_closed s; running := running s |}]> (subs b)) (world b)
    end).
Proof.
  intros C. unfold forward. destruct (UnmarshalEvent body) as [evt|]; [|done].
  rewrite send_open by done. by erewrite bind_ok by done.
Qed.

(** The deliveries a consumer has not taken yet, and the turns its goroutine has left. *)
Definition waiting id b : nat :=
  match feeds (world b) !! id with Some f => length (fd_routed f) - fd_taken f | None => 0 end.
Definition turns_left id b : nat :=
  match subs b !! id with Some s => if running s then S (waiting id b) else 0 | None => 0 end.

(** What a turn does: nothing as long as it has to wait, and never a panic. *)
Lemma inv_turn h t b id p : node_inv h t b ->
  (exists b', loop_turn id p b = (Ok tt, b') /\ node_inv h (t ++ [RQuiet]) b' /\
     (turns_left id b' < turns_left id b)%nat) \/
  exists w, loop_turn id p b = (Block, with_world w b).
Proof.
  intros K. pose proof (turn_cases id p b) as T. destruct (subs b !! id) as [s|] eqn:L.
  2:{ right. exists (world b). rewrite T. by destruct b. }
  destruct (subs_feed _ _ _ _ _ K L) as [f Fl]. rewrite T. destruct (running s) eqn:Rn; cbn [negb].
  2:{ right. exists (world b). by destruct b. }
  assert (closed (out s) = false) as Cl by by rewrite (fl_closed _ _ _ _ _ _ Fl), Rn.
  assert (forall w, feeds w = feeds (world b) -> (intact w -> intact (world b)) ->
    exists b', leave id s (with_world w b) = (Ok tt, b') /\ node_inv h (t ++ [RQuiet]) b' /\
      (turns_left id b' < turns_left id b)%nat) as Lv.
  { intros w F I. unfold leave. rewrite Cl. eexists. split; [done|].
    split; [|unfold turns_left; cbn; rewrite lookup_insert_eq, L, Rn; cbn; lia].
    eapply (node_inv_put _ _ _ b _ id s); try done; [intros i f' _; cbn; by rewrite F|].
    exists f. by apply (flow_leave _ _ (world b)). }
  destruct p.
  - pose proof (intact_delivery id (world b)) as In.
    destruct (Delivery id (world b)) as [o w] eqn:Dl. cbn [snd] in In.
    assert ((exists body, o = Ok (Some body)) \/ forall body, o <> Ok (Some body)) as [[body ->]|N]
      by (destruct o as [[?|]|?|?|]; [left; by eexists|right; by intros..]).
    + left. apply delivery_next in Dl as (f' & Ff & Bd & F). rewrite (fl_feed _ _ _ _ _ _ Fl) in Ff. injection Ff as <-.
      rewrite forward_run by done. eexists. split; [done|].
      assert (forall b', feeds (world b') = feeds w -> turns_left id b' < turns_left id b)%nat as Less.
      { intros b' Fb. apply lookup_lt_Some in Bd. unfold turns_left. rewrite L, Rn. unfold waiting.
        rewrite Fb, F, lookup_insert_eq, (fl_feed _ _ _ _ _ _ Fl). cbn.
        destruct (subs b' !! id) as [s'|]; [destruct (running s')|]; lia. }
      split; [|by apply Less; destruct (UnmarshalEvent body)].
      destruct (UnmarshalEvent body) as [evt|] eqn:U.
      * eapply (node_inv_put _ _ _ b _ id s); try done; [intros i f' Ni; cbn; rewrite F; by rewrite lookup_insert_ne|].
        exists (took f). eapply (flow_take _ _ (world b)); try done. by rewrite U.
      * eapply (node_inv_put _ _ _ b _ id s s); try done.
        -- cbn. by rewrite insert_id.
        -- intros i f' Ni. cbn. rewrite F. by rewrite lookup_insert_ne.
        -- exists (took f). eapply (flow_take _ _ (world b)); try done. by rewrite U.
    + destruct (delivery_none _ _ _ _ Dl N) as [F [-> | ->]].
      * left. by apply Lv.
      * right. by exists w.
  - destruct (done_closed s); [|right; exists (world b); by destruct b].
    left. destruct (Lv (world b) eq_refl) as (b' & E & K'); [done|]. exists b'. split; [|exact K']. rewrite <-E. by destruct b.
Qed.

Lemma inv_receive h t b id ev b' : node_inv h t b -> rabbit_receive id b = (Ok (Some ev), b') ->
  node_inv h (t ++ [RReceive id ev]) b'.
Proof.
  intros K. unfold rabbit_receive. erewrite bind_ok by done. cbv beta. destruct (subs b !! id) as [s|] eqn:L; [|done].
  destruct (buffer (out s)) as [|ev' r] eqn:Bu; [by destruct (closed (out s))|]. erewrite bind_ok by done. intros [= -> <-].
  destruct (subs_feed _ _ _ _ _ K L) as [f Fl].
  eapply (node_inv_put _ _ _ b _ id s); try done; [intros i N; cbn; by rewrite decide_False|].
  exists f. destruct Fl. rewrite Bu in *. unfold sent, confirmed in *.
  split; unfold sent, confirmed; rewrite ?since_snoc, ?got_snoc; cbn; rewrite ?decide_True, <-?(assoc_L (++)) by done; cbn in *; try done. lia.
Qed.

Lemma rtrace_inv b0 t b : rtrace b0 t b -> exists h, node_inv h t b.
Proof.
  induction 1 as [[h E] S|t b l b' T [h K] St].
  - exists h. split; [done|intros i j si sj; by rewrite S, lookup_empty|]. intros id. unfold sub_inv. by rewrite S, lookup_empty.
  - exists h. destruct St as [id b' E|e b' E|id b' E|ev o b' E|tm hh k m i p o w' E|id p b' E|id ev b' E|w' D].
    + by eapply inv_subscribe.
    + destruct (subscribe_cases b h (ni_handle _ _ _ K)) as [(e' & w & S & F & I)|(?&?&?&?&S&_)]; rewrite E in S; [|done].
      injection S as -> ->. destruct K as [Kh Kt Ks]. split; [done..|]. intros id.
      apply (sub_inv_frame _ _ _ b); try done. intros f. cbn. by rewrite F.
    + by eapply inv_cancel.
    + apply publish_is_send in E as (tm & hh & k & m & i & p & w' & <- & -> & P); [by eapply inv_send|].
      exists h. apply K.
    + by eapply inv_send.
    + destruct (inv_turn h t b id p K) as [(b2 & E2 & K2 & _)|[w E2]]; rewrite E in E2; [by injection E2 as <-|done].
    + by eapply inv_receive.
    + destruct K as [Kh Kt Ks]. split; [done..|]. intros id. apply (sub_inv_frame _ _ _ b); try done.
      * intros f Ff. cbn. eapply lookup_weaken; [done|]. by apply drift_feeds.
      * by apply intact_drift.
Qed.

(** ** The properties *)

(** C22: what a subscriber of the RabbitMQ adapter gets.  In every run, with any
    other publishers on the exchange, the events received, followed by the ones
    buffered, are in order a subsequence of the events among the bodies
    published since the subscription (other bodies are skipped), the buffer
    holds at most 64, and [out] is closed exactly when the goroutine ended.
    When the connections held, every publish was confirmed, at most 64 events
    came and none is waiting, nothing is missing. *)
Theorem rabbit_delivery b0 t b id s : rtrace b0 t b -> subs b !! id = Some s ->
  got id t ++ buffer (out s) `sublist_of` events_of (sent id t) /\
  (length (buffer (out s)) <= 64)%nat /\ closed (out s) = negb (running s) /\
  (intact (world b) -> done_closed s = false -> confirmed id t -> waiting id b = 0%nat ->
   (length (events_of (sent id t)) <= 64)%nat -> got id t ++ buffer (out s) = events_of (sent id t)).
Proof.
  intros T L. destruct (rtrace_inv _ _ _ T) as [h K]. destruct (subs_feed _ _ _ _ _ K L) as [f Fl].
  destruct Fl as [Fl _ _ _ _ _ Fr Ftk Fk Fa Fm Fcl Fe]. split_and!; [|done..|].
  - etrans; [exact Fk|]. apply events_of_sublist. etrans; [apply sublist_take|exact Fr].
  - intros I D C Q Le. unfold waiting in Q. rewrite Fl in Q.
    assert (taken_events f = events_of (sent id t)) as E.
    { unfold taken_events. rewrite take_ge by lia. by rewrite Fe. }
    rewrite <-E in *. by apply Fa.
Qed.

(** From one node to another.  When what was published on the exchange
    since the subscription are the events [evs] of nodes, what a subscriber
    holds is a subsequence of [evs], and all of it under the conditions above:
    sequence numbers as they were, texts too when they are UTF-8. *)
Theorem rabbit_events b0 t b id s evs : rtrace b0 t b -> subs b !! id = Some s ->
  sent id t = map MarshalEvent evs -> Forall (fun ev => is_u64 (ev_Sequence ev)) evs ->
  got id t ++ buffer (out s) `sublist_of` map arrived_event evs /\
  (intact (world b) -> done_closed s = false -> confirmed id t -> waiting id b = 0%nat ->
   (length evs <= 64)%nat -> got id t ++ buffer (out s) = map arrived_event evs).
Proof.
  intros T L E U. destruct (rtrace_inv _ _ _ T) as [h K]. destruct (subs_feed _ _ _ _ _ K L) as [f Fl].
  destruct Fl as [Fl _ _ _ _ _ Fr Ftk Fk Fa Fm Fcl Fe].
  pose proof (events_of_marshalled evs U) as Ev. rewrite <-E in Ev. split.
  - rewrite <-Ev. etrans; [exact Fk|]. apply events_of_sublist. etrans; [apply sublist_take|exact Fr].
  - intros I D C Q Le. unfold waiting in Q. rewrite Fl in Q.
    assert (taken_events f = map arrived_event evs) as Te.
    { unfold taken_events. rewrite take_ge by lia. by rewrite Fe. }
    rewrite <-Te. apply Fa. rewrite Te. by rewrite length_map.
Qed.

Definition turn (id : nat) b b' : Prop := exists p, loop_turn id p b = (Ok tt, b').

(** C23: the goroutine of a subscription ends.  It takes at most one turn more
    than there are deliveries waiting unless new ones come, no turn panics, and
    once [cancel] has been called leaving is always possible and closes the
    subscriber's channel. *)
Theorem forwarder_ends b0 t b id s : rtrace b0 t b -> subs b !! id = Some s ->
  (forall k b', nsteps (turn id) k b b' -> (k <= waiting id b + 1)%nat) /\
  (forall p why b', loop_turn id p b <> (Panic why, b')) /\
  (running s = true -> done_closed s = true -> exists b' s', loop_turn id PickDone b = (Ok tt, b') /\
     subs b' !! id = Some s' /\ running s' = false /\ out s' = {| buffer := buffer (out s); closed := true |}).
Proof.
  intros T L. destruct (rtrace_inv _ _ _ T) as [h K]. split_and!.
  - assert (forall k c c' u, node_inv h u c -> nsteps (turn id) k c c' -> (k <= turns_left id c)%nat) as M.
    { induction k as [|k IH]; intros c c' u Kc; [lia|]. inversion 1 as [|? ? c2 ? [p E] N]. subst.
      destruct (inv_turn h u c id p Kc) as [(c3 & E3 & K3 & Le)|[w E3]]; rewrite E in E3; [|done].
      injection E3 as <-. specialize (IH _ _ _ K3 N). lia. }
    intros k b' N. apply (M _ _ _ t K) in N. unfold turns_left in N. rewrite L in N. destruct (running s); lia.
  - intros p why b'. destruct (inv_turn h t b id p K) as [(c & E & _)|[c E]]; by rewrite E.
  - intros Rn D. destruct (subs_feed _ _ _ _ _ K L) as [f Fl].
    pose proof (turn_cases id PickDone b) as C. rewrite L, Rn, D in C. unfold leave in C.
    rewrite (fl_closed _ _ _ _ _ _ Fl), Rn in C. do 2 eexists. split; [exact C|]. cbn. by rewrite lookup_insert_eq.
Qed.

(** [cancel] may be called once.  On a live subscription it returns; a
    second call closes a closed channel and panics, although the in-memory
    broker, which promises the same contract, returns from every call. *)
Theorem rabbit_cancel_twice b id s : is_Some (ch (handle b)) -> subs b !! id = Some s -> done_closed s = false ->
  exists b', Cancel id b = (Ok tt, b') /\ Cancel id b' = (Panic "close of closed channel", b') /\
    forall t c, Broker.trace t c -> exists c', Cancel id c = (Ok tt, c') /\ Cancel id c' = (Ok tt, c').
Proof.
  intros [h E] L D. cbn. pose proof (cancel_cases b id h E) as C. rewrite L, D in C. eexists. split; [exact C|]. split.
  - pose proof (cancel_cases (snd (rabbit_Cancel id b)) id h) as C2. rewrite C in C2. cbn in C2.
    rewrite lookup_insert_eq in C2. by apply C2.
  - intros t c T. destruct (trace_inv t c T) as [K _]. destruct (cancel_ok c id K) as (c' & E1 & K' & S & _).
    exists c'. split; [done|]. unfold mem_Cancel. by rewrite decide_False by (rewrite S; set_solver).
Qed.

(** Closing a connection opened since, and its channel, closed or never opened. *)
Lemma close_undoes c v w : c ∉ connections w -> connections v = {[c]} ∪ connections w -> channels v = channels w ->
  connections (CloseConnection c v).2 = connections w /\ channels (CloseConnection c v).2 = channels w.
Proof.
  intros N Ec Eh. destruct (close_connection_closes c v) as [-> ->]. rewrite Ec, Eh. split; [set_solver|].
  apply map_filter_id. intros h' c' L. apply channel_connected in L. cbn. set_solver.
Qed.

Lemma close_both c h v w : c ∉ connections w -> connections v = {[c]} ∪ connections w ->
  channels w !! h = None -> channels v = <[h := c]> (channels w) ->
  connections (CloseConnection c (CloseChannel h v).2).2 = connections w /\
  channels (CloseConnection c (CloseChannel h v).2).2 = channels w.
Proof.
  intros N Ec Nh Eh. destruct (close_channel_closes h v) as [C1 C2]. apply close_undoes; [done|congruence|].
  rewrite C2, Eh. by apply delete_insert_id.
Qed.

(** [NewRabbitMQ] leaks nothing.  When dialling, opening the channel or
    declaring the exchange fails, the error is returned and every connection
    and channel it had opened is closed; when it succeeds it holds one new
    connection and one new channel, and [Close] closes both even when closing
    the channel fails. *)
Theorem new_rabbit_releases url w :
  (exists e w', NewRabbitMQ url w = (Err e, w') /\ connections w' = connections w /\ channels w' = channels w) \/
  exists r w' c h, NewRabbitMQ url w = (Ok r, w') /\ conn r = Some c /\ ch r = Some h /\
    c ∉ connections w /\ connections w' = {[c]} ∪ connections w /\
    channels w !! h = None /\ channels w' = <[h := c]> (channels w) /\
    connections (rabbit_Close r w').2 = connections w /\ channels (rabbit_Close r w').2 = channels w.
Proof.
  unfold NewRabbitMQ. destruct (dial_returns url w) as [(c & w1 & D)|(e & w1 & D)].
  2:{ left. exists e, w1. rewrite (bind_err _ _ _ _ _ D). by apply dial_err in D. }
  rewrite (bind_ok _ _ _ _ _ D). apply dial_ok in D as (Nc & Ec & Eh).
  destruct (open_returns c w1) as [(h & w2 & O)|(e & w2 & O)].
  2:{ left. rewrite (bind_ok _ _ _ _ _ (try_err _ _ _ _ O)). apply open_err in O as [Oc Oh].
      destruct (ignored (CloseConnection c) w2) as [x X]; [apply close_connection_returns|].
      eexists e, _. split; [by rewrite (bind_ok _ _ _ _ _ X)|]. apply close_undoes; congruence. }
  rewrite (bind_ok _ _ _ _ _ (try_ok _ _ _ _ O)). apply open_ok in O as (Nh & Oh & Oc).
  pose proof (exchange_keeps h exchangeName "topic" true false false false w2) as Xk.
  destruct (exchange_returns h exchangeName "topic" true false false false w2) as [([] & w3 & X)|(e & w3 & X)];
    rewrite X in Xk; destruct Xk as [Xc Xh]; cbn [snd] in Xc, Xh.
  - right. do 4 eexists. split; [by rewrite (bind_ok _ _ _ _ _ (try_ok _ _ _ _ X))|].
    assert (connections w3 = {[c]} ∪ connections w) as E1 by congruence.
    assert (channels w3 = <[h := c]> (channels w)) as E2 by congruence.
    rewrite Eh in Nh. split_and!; try done.
    all: unfold rabbit_Close; cbn [ch conn]; destruct (ignored (CloseChannel h) w3) as [x Y]; [apply close_channel_returns|].
    all: rewrite <-bind_assoc_run, (bind_ok _ _ _ _ _ Y); by apply close_both.
  - left. rewrite (bind_ok _ _ _ _ _ (try_err _ _ _ _ X)).
    destruct (ignored (CloseChannel h) w3) as [x Y]; [apply close_channel_returns|].
    destruct (ignored (CloseConnection c) (CloseChannel h w3).2) as [z Z]; [apply close_connection_returns|].
    eexists e, _. split; [by rewrite (bind_ok _ _ _ _ _ Y), (bind_ok _ _ _ _ _ Z)|]. apply close_both; congruence.
Qed.
End Runs.

(** ** A server that keeps the promises *)

Module RabbitSample.
Record server := {
  conns : gset nat;
  chans : gmap nat nat;
  consumers : gmap nat feed;
  queues : gmap string (option string * list (list byte));   (**r binding, and what waits *)
  declared : nat;
}.
Definition start : server := {| conns := ∅; chans := ∅; consumers := ∅; queues := ∅; declared := 0 |}.

Definition with_conns (s : server) c h : server :=
  {| conns := c; chans := h; consumers := consumers s; queues := queues s; declared := declared s |}.
Definition with_consumers (s : server) f q : server :=
  {| conns := conns s; chans := chans s; consumers := f; queues := q; declared := declared s |}.

Definition tag_free (h : nat) (t : string) (s : server) : Prop :=
  map_Forall (fun _ f => fd_channel f = h -> fd_tag f = t -> fd_cancelled f = true) (consumers s).
#[global] Instance tag_free_dec h t s : Decision (tag_free h t s).
Proof. unfold tag_free. apply _. Defined.

Definition fan_out (x : string) (body : list byte) (f : feed) : feed :=
  if bool_decide (fd_exchange f = Some x /\ fd_cancelled f = false) then route body f else f.

#[global] Instance server_amqp : AMQP server := {
  Dial url s := let c := fresh (conns s) in (Ok c, with_conns s ({[c]} ∪ conns s) (filter (fun hc => hc.2 ∈ conns s) (chans s)));
  OpenChannel c s :=
    if decide (c ∈ conns s) then let h := fresh (dom (chans s)) in (Ok h, with_conns s (conns s) (<[h := c]> (chans s)))
    else (Err (External "connection closed"), s);
  CloseConnection c s := (Ok tt, with_conns s (conns s ∖ {[c]}) (chans s));
  CloseChannel h s := (Ok tt, with_conns s (conns s) (delete h (chans s)));
  ExchangeDeclare _ _ _ _ _ _ _ s := (Ok tt, s);
  QueueDeclare _ n _ _ _ _ s :=
    let q := if bool_decide (n = ""%string) then ("amq.gen-" ++ Dec.Itoa (Z.of_nat (declared s)))%string else n in
    (Ok q, {| conns := conns s; chans := chans s; consumers := consumers s;
              queues := <[q := (None, [])]> (queues s); declared := S (declared s) |});
  QueueBind _ q k x _ s :=
    match queues s !! q with
    | Some (_, l) => (Ok tt, if bool_decide (k = "#"%string) then with_consumers s (consumers s) (<[q := (Some x, l)]> (queues s)) else s)
    | None => (Err (External "no queue"), s)
    end;
  Consume h q t _ _ _ _ s :=
    match queues s !! q with
    | Some (x, l) =>
        if decide (tag_free h t s) then
          let d := fresh (dom (consumers s)) in
          (Ok d, with_consumers s (<[d := {| fd_channel := h; fd_tag := t; fd_exchange := x; fd_routed := l;
                                             fd_taken := 0; fd_cancelled := false |}]> (consumers s)) (queues s))
        else (Err (External "tag in use"), s)
    | None => (Err (External "no queue"), s)
    end;
  CancelConsumer h t _ s := (Ok tt, with_consumers s (stop_feed h t <$> consumers s) (queues s));
  PublishWithContext _ _ x _ _ _ p s := (Ok tt, with_consumers s (fan_out x (pub_Body p) <$> consumers s) (queues s));
  Delivery d s :=
    match consumers s !! d with
    | Some f =>
        match fd_routed f !! fd_taken f with
        | Some body => (Ok (Some body), with_consumers s (<[d := took f]> (consumers s)) (queues s))
        | None => (if fd_cancelled f then Ok None else Block, s)
        end
    | None => (Block, s)
    end;
  Now s := (Ok zero_time, s);
}.

Lemma returned {A} (m : M server A) : (forall w, match (m w).1 with Ok _ | Err _ => True | _ => False end) -> returns m.
Proof. intros R w. specialize (R w). destruct (m w) as [[a|e| |] w']; [left|right|done..]; by do 2 eexists. Qed.

#[global] Program Instance server_laws : AMQPLaws server := {
  connections := conns;
  channels s := filter (fun hc => hc.2 ∈ conns s) (chans s);
  feeds := consumers;
  queued q s := default [] (snd <$> queues s !! q);
  bound q s := queues s !! q ≫= fst;
  intact _ := True;
  drift s s' := s = s';
}.
Solve Obligations with try (intros; exact I).
Next Obligation. intros. by apply returned. Qed.
Next Obligation.
  intros url w c w'. cbn. intros [= <- <-]. cbn. split; [apply is_fresh|]. split; [done|].
  apply map_filter_id. intros h c L. apply map_lookup_filter_Some in L as [_ L]. cbn in *. set_solver.
Qed.
Next Obligation. intros url w e w'. done. Qed.
Next Obligation. intros c. apply returned. intros w. cbn. by case_decide. Qed.
Next Obligation.
  intros c w h w'. cbn. case_decide as D; [|done]. intros [= <- <-]. cbn. split; [|split; [|done]].
  - apply map_lookup_filter_None. left. apply not_elem_of_dom, is_fresh.
  - by apply map_filter_insert_True.
Qed.
Next Obligation. intros c w e w'. cbn. case_decide; [done|]. by intros [= _ <-]. Qed.
Next Obligation. intros w h c L. by apply map_lookup_filter_Some in L as [_ L]. Qed.
Next Obligation. intros. by apply returned. Qed.
Next Obligation. intros h w. cbn. split; [done|]. apply map_filter_delete. Qed.
Next Obligation. intros. by apply returned. Qed.
Next Obligation.
  intros c w. cbn. split; [done|]. rewrite map_filter_filter. apply map_filter_ext. intros i x _. cbn. set_solver.
Qed.
Next Obligation. intros. by apply returned. Qed.
Next Obligation. done. Qed.
Next Obligation. intros. by apply returned. Qed.
Next Obligation. done. Qed.
Next Obligation. intros h d a e nw w q w'. cbn. intros [= <- <-]. cbn. by rewrite lookup_insert_eq. Qed.
Next Obligation. intros h q k x nw. apply returned. intros w. cbn. by destruct (queues w !! q) as [[? ?]|]. Qed.
Next Obligation. intros h q k x nw w. cbn. destruct (queues w !! q) as [[? ?]|]; [|done]. cbn. by case_bool_decide. Qed.
Next Obligation.
  intros h q x nw w w'. cbn. destruct (queues w !! q) as [[y l]|]; [|done]. intros [= <-]. cbn.
  by rewrite !lookup_insert_eq.
Qed.
Next Obligation. intros h q t a e l nw. apply returned. intros w. cbn. destruct (queues w !! q) as [[? ?]|]; [by case_decide|done]. Qed.
Next Obligation.
  intros h q t a e l nw w er w'. cbn. destruct (queues w !! q) as [[? ?]|]; [case_decide|]; [done|by intros [= _ <-]..].
Qed.
Next Obligation.
  intros h q t a e l nw w d w'. cbn. destruct (queues w !! q) as [[x k]|] eqn:Q; [|done]. case_decide as D; [|done].
  intros [= <- <-]. cbn. rewrite ?Q. split; [apply not_elem_of_dom, is_fresh|]. split; [done|]. intros d' f L.
  exact (D d' f L).
Qed.
Next Obligation. intros. by apply returned. Qed.
Next Obligation. done. Qed.
Next Obligation. intros. by apply returned. Qed.
Next Obligation.
  intros t h x k m i p w d. cbn. rewrite lookup_fmap. destruct (consumers w !! d) as [f|]; [|by left]. cbn.
  unfold fan_out. case_bool_decide; [right; by eexists|by left].
Qed.
Next Obligation.
  intros t h x k m i p w w' d f. cbn. intros [= <-] _ L X C. cbn. rewrite lookup_fmap, L. cbn.
  unfold fan_out. by rewrite bool_decide_eq_true_2.
Qed.
Next Obligation.
  intros d w body w'. cbn. destruct (consumers w !! d) as [f|]; [|done].
  destruct (fd_routed f !! fd_taken f) as [body'|] eqn:L; [|by destruct (fd_cancelled f)].
  intros [= -> <-]. by exists f.
Qed.
Next Obligation.
  intros d w o w'. cbn. destruct (consumers w !! d) as [f|]; [|intros [= <- <-]; by split; [|right]].
  destruct (fd_routed f !! fd_taken f); [intros [= <- <-] N; by destruct (N l)|].
  intros [= <- <-] _. split; [done|]. destruct (fd_cancelled f); [by left|by right].
Qed.
Next Obligation. intros w. by eexists. Qed.
Next Obligation. by intros w ? <-. Qed.

(** A node subscribes, publishes an event, and its goroutine takes it. *)
Definition dialled : outcome RabbitMQ * server := NewRabbitMQ "amqp://localhost" start.
Definition node0 : node server :=
  Node match dialled.1 with Ok r => r | _ => {| conn := None; ch := None |} end ∅ dialled.2.
Definition first : Event := {| Kind := EntryAppended; ev_ChatID := "c"; ev_Sequence := 7; ev_EntryHash := "ab" |}.
Definition node1 : node server := (rabbit_Subscribe node0).2.
Definition node2 : node server := (rabbit_Publish first node1).2.
Definition node3 : node server := (loop_turn 0 PickDelivery node2).2.
Definition labels : list rlabel := [RSubscribe 0; RSend (MarshalEvent first) true; RQuiet].

Lemma trace2 : rtrace node0 [RSubscribe 0; RSend (MarshalEvent first) true] node2.
Proof.
  apply (rtrace_step node0 [RSubscribe 0] node1).
  - apply (rtrace_step node0 [] node0); [constructor; [by eexists|done]|]. constructor. vm_compute. reflexivity.
  - apply (rstep_publish node1 first (Ok tt)). vm_compute. reflexivity.
Qed.
Lemma trace3 : rtrace node0 labels node3.
Proof.
  apply (rtrace_step node0 [RSubscribe 0; RSend (MarshalEvent first) true] node2); [exact trace2|].
  apply (rstep_turn node2 0 PickDelivery). vm_compute. reflexivity.
Qed.

Definition sub_of (b : node server) : subscription :=
  default {| consumerTag := ""; out := {| buffer := []; closed := false |}; done_closed := false; running := false |}
    (subs b !! 0%nat).
Lemma sub3 : subs node3 !! 0%nat = Some (sub_of node3).
Proof. vm_compute. reflexivity. Qed.
Lemma sub2 : subs node2 !! 0%nat = Some (sub_of node2).
Proof. vm_compute. reflexivity. Qed.
Lemma sub1 : subs node1 !! 0%nat = Some (sub_of node1).
Proof. vm_compute. reflexivity. Qed.
End RabbitSample.

Lemma rabbit_delivery_witness : exists s, subs RabbitSample.node3 !! 0%nat = Some s /\
  buffer (out s) = [RabbitSample.first].
Proof.
  exists (RabbitSample.sub_of RabbitSample.node3). split; [exact RabbitSample.sub3|].
  destruct (rabbit_delivery _ _ _ _ _ RabbitSample.trace3 RabbitSample.sub3) as (_ & _ & _ & All).
  etrans; [|etrans; [apply All|]]; vm_compute; first [reflexivity|exact I|repeat constructor|lia].
Defined.

Lemma rabbit_events_witness : exists s, subs RabbitSample.node3 !! 0%nat = Some s /\
  got 0 RabbitSample.labels ++ buffer (out s) `sublist_of` [RabbitSample.first].
Proof.
  exists (RabbitSample.sub_of RabbitSample.node3). split; [exact RabbitSample.sub3|].
  assert (map arrived_event [RabbitSample.first] = [RabbitSample.first]) as <- by (vm_compute; reflexivity).
  refine (proj1 (rabbit_events _ _ _ _ _ [RabbitSample.first] RabbitSample.trace3 RabbitSample.sub3 _ _));
    [vm_compute; reflexivity|by repeat constructor].
Defined.

Lemma forwarder_ends_witness : waiting 0 RabbitSample.node2 = 1%nat /\
  exists b', nsteps (turn 0) 1 RabbitSample.node2 b' /\ (1 <= waiting 0 RabbitSample.node2 + 1)%nat.
Proof.
  split; [vm_compute; reflexivity|]. exists RabbitSample.node3.
  assert (nsteps (turn 0) 1 RabbitSample.node2 RabbitSample.node3) as N.
  { eapply nsteps_l; [|constructor]. exists PickDelivery. vm_compute. reflexivity. }
  split; [exact N|]. exact (proj1 (forwarder_ends _ _ _ _ _ RabbitSample.trace2 RabbitSample.sub2) 1%nat _ N).
Defined.

Lemma rabbit_cancel_twice_witness : exists b', Cancel 0%nat RabbitSample.node1 = (Ok tt, b') /\
  Cancel 0%nat b' = (Panic "close of closed channel", b').
Proof.
  destruct (rabbit_cancel_twice RabbitSample.node1 0%nat (RabbitSample.sub_of RabbitSample.node1)) as (b' & E1 & E2 & _);
    [by eexists|exact RabbitSample.sub1|reflexivity|]. exists b'. split; [exact E1|exact E2].
Defined.

Lemma new_rabbit_releases_witness : (RabbitSample.conns (NewRabbitMQ "amqp://localhost" RabbitSample.start).2 = {[0%nat]}) /\
  exists w', (exists e, NewRabbitMQ "amqp://localhost" RabbitSample.start = (Err e, w')) \/
    exists r, NewRabbitMQ "amqp://localhost" RabbitSample.start = (Ok r, w') /\
      connections (rabbit_Close r w').2 = connections RabbitSample.start.
Proof.
  split; [vm_compute; reflexivity|].
  destruct (new_rabbit_releases "amqp://localhost" RabbitSample.start) as
    [(e & w' & E & _)|(r & w' & c & h & E & _ & _ & _ & _ & _ & _ & Q & _)]; exists w'.
  - left. exists e. exact E.
  - right. exists r. split; [exact E|exact Q].
Defined.
