(* ===== verification/Chatlog.v ===== *)
(** * Chatlog: the append-only log ([internal/chatlog/log.go])

    [Log] over the storage, cache and broker ports: appending with a chained
    hash and a snapshot every [SnapshotInterval] entries, inclusion proofs,
    history, verification of one entry and of the whole chain, and the
    catch-up bundle.  The per-chat mutexes of [locks] are part of the state.
    [time.Now()] is an argument of the operation that reads it. *)
From S2P Require Import Prelude Codec JsonText GoTime Sha256 Models Merkle Crypto Storage Cache Broker.

Definition ErrInvalidSignature : error := New "chatlog: invalid message signature".
Definition ErrUnsupportedVersion : error := New "chatlog: unsupported message schema version".
Definition ErrNotSnapshotted : error := New "chatlog: message not yet covered by a snapshot".

Definition supportedVersion (v : Z) : bool := v =? CurrentSchemaVersion.

(** ** State *)

Record Log (S C B : Type) := MkLog {
  store : S;
  cache : C;
  broker : B;
  locks : gmap string bool;   (**r chat -> whether its mutex is held *)
}.
Arguments MkLog {S C B} _ _ _ _.
Arguments store {S C B} _.
Arguments cache {S C B} _.
Arguments broker {S C B} _.
Arguments locks {S C B} _.

(** [New] with its options: each option replaces one adapter. *)
Definition NewLog {S} (s : S) : Log S NoopCache NoopBroker := MkLog s NoopC NoopB ∅.
Definition WithCache {S C B C'} (c : C') (l : Log S C B) : Log S C' B :=
  MkLog (store l) c (broker l) (locks l).
Definition WithBroker {S C B B'} (b : B') (l : Log S C B) : Log S C B' :=
  MkLog (store l) (cache l) b (locks l).

Record InclusionProof := {
  ip_ChatID : string;
  ip_Sequence : Z;
  ip_EntryHash : string;
  ip_SnapshotIndex : Z;
  ip_MerkleRoot : string;
  ip_Proof : list ProofNode;
}.

Record MessageVerification := { mv_Sequence : Z; mv_Valid : bool; mv_Reason : string }.

Record VerifyResult := { vr_Valid : bool; vr_Entries : Z; vr_Reason : string }.

Record SyncBundle := {
  Snapshot : option MerkleSnapshot;
  NewEntries : Slice LogEntry;
  CurrentHash : string;
}.

(** [%d] of an integer. *)
Definition fmt_d (z : Z) : string := Dec.Itoa z.

Section Chatlog.
Context {S C B : Type} `{Storage S} `{Cache C} `{Broker B} `{HashFunction} `{Ed25519}.

Abbreviation LogM := (M (Log S C B)).

Definition set_store (s : S) (l : Log S C B) : Log S C B := MkLog s (cache l) (broker l) (locks l).
Definition set_cache (c : C) (l : Log S C B) : Log S C B := MkLog (store l) c (broker l) (locks l).
Definition set_broker (b : B) (l : Log S C B) : Log S C B := MkLog (store l) (cache l) b (locks l).
Definition set_locks (k : gmap string bool) (l : Log S C B) : Log S C B :=
  MkLog (store l) (cache l) (broker l) k.

Definition on_store {A} : M S A -> LogM A := zoom store set_store.
Definition on_cache {A} : M C A -> LogM A := zoom cache set_cache.
Definition on_broker {A} : M B A -> LogM A := zoom broker set_broker.

(** [chatLock]: [LoadOrStore] of a fresh, unlocked mutex; then [Lock], which
    waits for ever on a mutex that is held, and [Unlock]. *)
Definition chatLock (chatID : string) : LogM unit := modify (fun l =>
  match locks l !! chatID with
  | Some _ => l
  | None => set_locks (<[chatID := false]> (locks l)) l
  end).
Definition Lock (chatID : string) : LogM unit := fun l =>
  match locks l !! chatID with
  | Some true => (Block, l)
  | _ => (Ok tt, set_locks (<[chatID := true]> (locks l)) l)
  end.
Definition Unlock (chatID : string) (l : Log S C B) : Log S C B :=
  set_locks (<[chatID := false]> (locks l)) l.

(** [snapshot]; [now] is [time.Now()]. *)
Definition snapshot (now : Time) (chatID : string) (tip : LogEntry) : LogM unit :=
  prev ← try (on_store (LatestSnapshot chatID));
  '(from, index) ←
    match prev with
    | inl p => mret (u64 (ToSequence p + 1), u64 (SnapshotIndex p + 1))
    | inr err => if errors_is err ErrNotFound then mret (0, 0) else throw err
    end;
  window ← on_store (EntriesSince chatID from);
  let leaves := map EntryHash (elems window) in
  let root := Root leaves in
  on_store (SaveSnapshot {|
    snap_ChatID := chatID; SnapshotIndex := index; FromSequence := from;
    ToSequence := Sequence tip; MerkleRoot := root; LastEntryHash := EntryHash tip;
    CreatedAt := UTC now |}) ;;
  on_cache (SetMerkleRoot chatID root) ;;
  try (on_broker (Publish {|
    Kind := SnapshotCreated; ev_ChatID := chatID;
    ev_Sequence := Sequence tip; ev_EntryHash := EntryHash tip |})) ;;
  mret tt.

(** The part of [Append] that runs under the chat's lock. *)
Definition append_locked (now : Time) (msg : SignedMessage) : LogM LogEntry :=
  tip ← try (on_store (LastEntry (ChatID msg)));
  '(prevHash, nextSeq) ←
    match tip with
    | inl last => mret (EntryHash last, u64 (Sequence last + 1))
    | inr err => if errors_is err ErrNotFound then mret (GenesisHash, 0)
                 else throw (Wrapf "read tip" err)
    end;
  let entry0 := {| Sequence := nextSeq; Message := msg; PrevHash := prevHash; EntryHash := "" |} in
  let entry := {| Sequence := nextSeq; Message := msg; PrevHash := prevHash;
                  EntryHash := ComputeHash entry0 |} in
  wrapping "append" (on_store (AppendEntry (ChatID msg) entry)) ;;
  try (on_broker (Publish {|
    Kind := EntryAppended; ev_ChatID := ChatID msg;
    ev_Sequence := Sequence entry; ev_EntryHash := EntryHash entry |})) ;;
  (if u64 (Sequence entry + 1) mod SnapshotInterval =? 0
   then wrapping "snapshot" (snapshot now (ChatID msg) entry)
   else mret tt) ;;
  mret entry.

Definition Append (now : Time) (msg : SignedMessage) : LogM LogEntry :=
  if negb (supportedVersion (SchemaVersion msg)) then throw ErrUnsupportedVersion
  else if negb (VerifyMessage msg) then throw ErrInvalidSignature
  else
    chatLock (ChatID msg) ;;
    Lock (ChatID msg) ;;
    deferring (Unlock (ChatID msg)) (append_locked now msg).

Definition LogSubscribe : LogM nat := on_broker Subscribe.

(** [make([]string, size)] and the copy of [size] hashes of the window. *)
Definition window_leaves (window : list LogEntry) (size : Z) : outcome (list string) :=
  if size <? 0 then Panic "makeslice: len out of range"
  else Ok (take (Z.to_nat size) (map EntryHash window)).

Definition index_string (l : list string) (i : Z) : outcome string :=
  if i <? 0 then Panic "index out of range"
  else match l !! Z.to_nat i with Some x => Ok x | None => Panic "index out of range" end.

Definition ProveInclusion (chatID : string) (sequence : Z) : LogM InclusionProof :=
  let snapIndex := sequence / SnapshotInterval in
  r ← try (on_store (SnapshotAt chatID snapIndex));
  match r with
  | inr err => if errors_is err ErrNotFound then throw ErrNotSnapshotted else throw err
  | inl snap =>
      window ← on_store (EntriesSince chatID (FromSequence snap));
      let size := i64 (u64 (ToSequence snap - FromSequence snap + 1)) in
      if Z.of_nat (length (elems window)) <? size
      then throw (New ("snapshot window incomplete: have " ++ fmt_d (Z.of_nat (length (elems window)))
                       ++ " of " ++ fmt_d size))
      else
        leaves ← lift (window_leaves (elems window) size);
        let localIdx := i64 (u64 (sequence - FromSequence snap)) in
        let '(proof, root) := Proof leaves localIdx in
        if negb (bool_decide (root = MerkleRoot snap))
        then throw (New "recomputed root does not match snapshot")
        else
          leaf ← lift (index_string leaves localIdx);
          mret {| ip_ChatID := chatID; ip_Sequence := sequence; ip_EntryHash := leaf;
                  ip_SnapshotIndex := snapIndex; ip_MerkleRoot := MerkleRoot snap;
                  ip_Proof := proof |}
  end.

Definition History (chatID : string) (from limit : Z) : LogM (Slice LogEntry) :=
  es ← on_store (EntriesSince chatID from);
  if (0 <? limit) && (limit <? Z.of_nat (length (elems es)))
  then mret (reslice (Z.to_nat limit) es) else mret es.

Definition LogEntryAt (chatID : string) (sequence : Z) : LogM LogEntry :=
  on_store (Entry chatID sequence).

Definition VerifyEntry (chatID : string) (sequence : Z) : LogM MessageVerification :=
  e ← on_store (Entry chatID sequence);
  let bad reason := {| mv_Sequence := sequence; mv_Valid := false; mv_Reason := reason |} in
  if negb (supportedVersion (SchemaVersion (Message e)))
  then mret (bad "unsupported schema version"%string)
  else if negb (bool_decide (ComputeHash e = EntryHash e))
  then mret (bad "tampered entry"%string)
  else if negb (VerifyMessage (Message e))
  then mret (bad "bad signature"%string)
  else
    expectedPrev ← (if 0 <? sequence
                    then prev ← on_store (Entry chatID (u64 (sequence - 1))); mret (EntryHash prev)
                    else mret GenesisHash);
    if negb (bool_decide (PrevHash e = expectedPrev))
    then mret (bad "broken chain link to previous entry"%string)
    else mret {| mv_Sequence := sequence; mv_Valid := true; mv_Reason := "" |}.

(** The loop of [Verify] from index [i]: the reason of the first failure. *)
Fixpoint verify_walk (i : Z) (prevHash : string) (es : list LogEntry) : option string :=
  match es with
  | [] => None
  | e :: r =>
      if negb (Sequence e =? u64 i) then Some ("sequence gap at " ++ fmt_d i)%string
      else if negb (bool_decide (PrevHash e = prevHash))
      then Some ("broken chain at seq " ++ fmt_d (Sequence e))%string
      else if negb (supportedVersion (SchemaVersion (Message e)))
      then Some ("unsupported schema version at seq " ++ fmt_d (Sequence e))%string
      else if negb (bool_decide (ComputeHash e = EntryHash e))
      then Some ("tampered entry at seq " ++ fmt_d (Sequence e))%string
      else if negb (VerifyMessage (Message e))
      then Some ("bad signature at seq " ++ fmt_d (Sequence e))%string
      else verify_walk (i + 1) (EntryHash e) r
  end.

Definition VerifyChain (chatID : string) : LogM VerifyResult :=
  es ← on_store (EntriesSince chatID 0);
  mret match verify_walk 0 GenesisHash (elems es) with
       | Some reason => {| vr_Valid := false; vr_Entries := 0; vr_Reason := reason |}
       | None => {| vr_Valid := true; vr_Entries := u64 (Z.of_nat (length (elems es))); vr_Reason := "" |}
       end.

Definition Sync (chatID : string) : LogM SyncBundle :=
  r ← try (on_store (LatestSnapshot chatID));
  '(snap, from) ←
    match r with
    | inl s => mret (Some s, u64 (ToSequence s + 1))
    | inr err => if errors_is err ErrNotFound then mret (None, 0) else throw err
    end;
  es ← on_store (EntriesSince chatID from);
  r ← try (on_store (LastEntry chatID));
  hash ←
    match r with
    | inl last => mret (EntryHash last)
    | inr err => if errors_is err ErrNotFound then mret GenesisHash else throw err
    end;
  mret {| Snapshot := snap; NewEntries := es; CurrentHash := hash |}.
End Chatlog.
