(* ===== verification/LogFacts.v ===== *)
(** * LogFacts: the chain invariant of the log

    What a well-formed chat log is, independently of the store ([chain],
    [snaps_ok], [chat_ok]); that the loop of [Verify] decides [chain]; and
    what [Append] does to a store that keeps its contract: the functional
    description on every branch and the preservation of the invariant. *)
From S2P Require Import Prelude Codec JsonText GoTime Sha256 Models Merkle Crypto Storage Cache Broker Chatlog.

(** ** Chains *)

Section Chain.
Context `{HashFunction} `{Ed25519}.

(** The entry at position [i] after an entry (or genesis) with hash [prev]. *)
Record entry_ok (i : Z) (prev : string) (e : LogEntry) : Prop := {
  eo_sequence : Sequence e = u64 i;
  eo_prev : PrevHash e = prev;
  eo_version : supportedVersion (SchemaVersion (Message e)) = true;
  eo_hash : ComputeHash e = EntryHash e;
  eo_signature : VerifyMessage (Message e) = true;
}.

Inductive chain : Z -> string -> list LogEntry -> Prop :=
  | chain_nil i p : chain i p []
  | chain_cons i p e es : entry_ok i p e -> chain (i + 1) (EntryHash e) es -> chain i p (e :: es).

(** The hash the next entry must carry. *)
Definition tip_from (p : string) (es : list LogEntry) : string :=
  match last es with Some e => EntryHash e | None => p end.
Definition tip_hash (es : list LogEntry) : string := tip_from GenesisHash es.

(** The loop of [Verify] finds no fault exactly on chains. *)
Lemma verify_walk_chain i p es : verify_walk i p es = None <-> chain i p es.
Proof.
  revert i p. induction es as [|e es IH]; intros i p; cbn; [by split; constructor|].
  destruct (Z.eqb_spec (Sequence e) (u64 i)); cbn; [|by split; [|inversion 1 as [|???? []]]].
  case_bool_decide; cbn; [|by split; [|inversion 1 as [|???? []]]].
  destruct (supportedVersion (SchemaVersion (Message e))) eqn:V; cbn;
    [|split; [done|inversion 1 as [|???? []]; congruence]].
  case_bool_decide; cbn; [|by split; [|inversion 1 as [|???? []]]].
  destruct (VerifyMessage (Message e)) eqn:Sg; cbn;
    [|split; [done|inversion 1 as [|???? []]; congruence]].
  rewrite IH. split; [by intros; constructor; [split|]|by inversion 1].
Qed.

Lemma tip_from_cons p e es : tip_from p (e :: es) = tip_from (EntryHash e) es.
Proof. unfold tip_from. rewrite last_cons. by destruct (last es). Qed.

Lemma tip_from_snoc p es e : tip_from p (es ++ [e]) = EntryHash e.
Proof. unfold tip_from. by rewrite last_snoc. Qed.

Lemma tip_from_app p es fs : tip_from p (es ++ fs) = tip_from (tip_from p es) fs.
Proof. revert p. induction es as [|e es IH]; intros p; [done|]. cbn [app]. by rewrite !tip_from_cons. Qed.

Lemma chain_app i p es fs :
  chain i p (es ++ fs) <-> chain i p es /\ chain (i + Z.of_nat (length es)) (tip_from p es) fs.
Proof.
  revert i p. induction es as [|e es IH]; intros i p; cbn [app length].
  - rewrite Z.add_0_r. split; [by split; [constructor|]|by intros [_ ?]].
  - rewrite tip_from_cons. replace (i + Z.of_nat (S (length es))) with (i + 1 + Z.of_nat (length es)) by lia.
    split.
    + inversion 1 as [|???? K T]; subst. apply IH in T as [T1 T2]. split; [by constructor|done].
    + intros [T1 T2]. inversion T1; subst. constructor; [done|]. by apply IH.
Qed.

Lemma chain_snoc i p es e :
  chain i p (es ++ [e]) <-> chain i p es /\ entry_ok (i + Z.of_nat (length es)) (tip_from p es) e.
Proof.
  rewrite chain_app. split; intros [? T]; split; try done; [by inversion T|].
  constructor; [done|constructor].
Qed.

Lemma chain_lookup i p es k e : chain i p es -> es !! k = Some e ->
  entry_ok (i + Z.of_nat k) (tip_from p (take k es)) e.
Proof.
  intros T E. rewrite <-(take_drop_middle _ _ _ E) in T. apply chain_app in T as [_ T].
  inversion T as [|???? K _]; subst. rewrite length_take in K.
  apply lookup_lt_Some in E. by replace (k `min` length es)%nat with k in K by lia.
Qed.

Lemma chain_sequence es k e : chain 0 GenesisHash es -> (Z.of_nat (length es) <= 2 ^ 64) ->
  es !! k = Some e -> Sequence e = Z.of_nat k.
Proof.
  intros T L E. rewrite (eo_sequence _ _ _ (chain_lookup _ _ _ _ _ T E)).
  apply lookup_lt_Some in E. apply u64_id. unfold is_u64. lia.
Qed.

(** The entry [Append] builds on top of [es]. *)
Definition new_entry (es : list LogEntry) (msg : SignedMessage) : LogEntry :=
  let q := Z.of_nat (length es) in
  {| Sequence := q; Message := msg; PrevHash := tip_hash es;
     EntryHash := ComputeHash {| Sequence := q; Message := msg; PrevHash := tip_hash es; EntryHash := "" |} |}.

Lemma new_entry_ok es msg : supportedVersion (SchemaVersion msg) = true -> VerifyMessage msg = true ->
  Z.of_nat (length es) < 2 ^ 64 ->
  entry_ok (0 + Z.of_nat (length es)) (tip_from GenesisHash es) (new_entry es msg).
Proof. intros V Sg L. split; cbn -[u64]; [|done..]. rewrite u64_id; [done|]. unfold is_u64. lia. Qed.

(** ** Snapshots *)

Definition interval : nat := 100.

Definition window (k : nat) (es : list LogEntry) : list LogEntry :=
  take interval (drop (interval * k) es).

Definition leaves_of (es : list LogEntry) : list string := map EntryHash es.

(** Snapshot number [k] of chat [c]. *)
Record snap_ok (c : string) (es : list LogEntry) (k : nat) (n : MerkleSnapshot) : Prop := {
  so_chat : snap_ChatID n = c;
  so_index : SnapshotIndex n = Z.of_nat k;
  so_from : FromSequence n = Z.of_nat (interval * k);
  so_to : ToSequence n = Z.of_nat (interval * k + 99);
  so_root : MerkleRoot n = Root (leaves_of (window k es));
  so_last : exists e, es !! (interval * k + 99)%nat = Some e /\ LastEntryHash n = EntryHash e;
}.

Record snaps_ok (c : string) (es : list LogEntry) (ns : list MerkleSnapshot) : Prop := {
  sn_count : length ns = (length es / interval)%nat;
  sn_each k n : ns !! k = Some n -> snap_ok c es k n;
}.

Record chat_ok (c : string) (es : list LogEntry) (ns : list MerkleSnapshot) : Prop := {
  co_chain : chain 0 GenesisHash es;
  co_chat : Forall (fun e => ChatID (Message e) = c) es;
  co_snaps : snaps_ok c es ns;
  co_room : Z.of_nat (length es) < 2 ^ 64;
}.

Lemma chat_ok_empty c : chat_ok c [] [].
Proof. split; [constructor|constructor| |done]. by split. Qed.

(** The snapshot taken when [es] has just reached [interval * S k] entries. *)
Definition new_snapshot (now : Time) (c : string) (es : list LogEntry) : MerkleSnapshot :=
  let k := (length es / interval - 1)%nat in
  {| snap_ChatID := c; SnapshotIndex := Z.of_nat k; FromSequence := Z.of_nat (interval * k);
     ToSequence := Z.of_nat (length es) - 1; MerkleRoot := Root (leaves_of (drop (interval * k) es));
     LastEntryHash := tip_hash es; CreatedAt := UTC now |}.

Definition snaps_after (now : Time) (c : string) (es : list LogEntry) (ns : list MerkleSnapshot)
    : list MerkleSnapshot :=
  if decide (length es mod interval = 0)%nat then ns ++ [new_snapshot now c es] else ns.

Lemma window_app k es fs : (interval * k + interval <= length es)%nat -> window k (es ++ fs) = window k es.
Proof.
  intros L. unfold window. rewrite drop_app_le by lia. rewrite take_app_le; [done|].
  rewrite length_drop. lia.
Qed.

Lemma snap_ok_app c es fs k n : (interval * k + interval <= length es)%nat ->
  snap_ok c es k n -> snap_ok c (es ++ fs) k n.
Proof.
  intros L [? ? ? ? ? (e & E & ?)]. split; try done; [by rewrite window_app|].
  exists e. split; [|done]. by apply lookup_app_l_Some.
Qed.

Lemma new_snapshot_ok now c es k : length es = (interval * k + interval)%nat ->
  snap_ok c es k (new_snapshot now c es).
Proof.
  intros L. assert (length es / interval - 1 = k)%nat as K by (unfold interval in *; div_lia).
  unfold new_snapshot. rewrite K.
  split; cbn [snap_ChatID SnapshotIndex FromSequence ToSequence MerkleRoot LastEntryHash]; try done.
  - unfold interval in *. lia.
  - unfold window. rewrite take_ge; [done|]. rewrite length_drop. lia.
  - unfold tip_hash, tip_from. rewrite last_lookup.
    replace (pred (length es)) with (interval * k + 99)%nat by (unfold interval in *; lia).
    destruct (lookup_lt_is_Some_2 es (interval * k + 99)) as [e E]; [unfold interval in *; lia|].
    rewrite E. by exists e.
Qed.

Lemma snaps_after_ok now c es e ns : snaps_ok c es ns ->
  snaps_ok c (es ++ [e]) (snaps_after now c (es ++ [e]) ns).
Proof.
  intros [N Each]. unfold snaps_after.
  assert (length (es ++ [e]) = S (length es)) as L by (rewrite length_app; cbn; lia).
  assert (forall k n, ns !! k = Some n -> snap_ok c (es ++ [e]) k n) as Old.
  { intros k n E. apply snap_ok_app; [|by apply Each].
    apply lookup_lt_Some in E. rewrite N in E. unfold interval in *. div_lia. }
  destruct (decide _) as [D|D]; rewrite L in D.
  - split.
    + rewrite length_app, L, N. cbn [length]. unfold interval in *. div_lia.
    + intros k n E. apply lookup_snoc_Some in E as [[_ E]|[-> <-]]; [by apply Old|].
      apply new_snapshot_ok. rewrite L, N. unfold interval in *. div_lia.
  - split; [|done]. rewrite L, N. unfold interval in *. div_lia.
Qed.

Lemma chat_ok_append now c es ns msg : chat_ok c es ns ->
  supportedVersion (SchemaVersion msg) = true -> VerifyMessage msg = true -> ChatID msg = c ->
  Z.of_nat (length es) + 1 < 2 ^ 64 ->
  chat_ok c (es ++ [new_entry es msg]) (snaps_after now c (es ++ [new_entry es msg]) ns).
Proof.
  intros [T Ch Sn R] V Sg Cm L. split.
  - apply chain_snoc. split; [done|]. apply new_entry_ok; [done..|lia].
  - apply Forall_app. by split; [|constructor].
  - by apply snaps_after_ok.
  - rewrite length_app. cbn [length]. lia.
Qed.
End Chain.

(** ** [Append] over ports that keep their contracts *)

Section Append.
Context {S C B : Type} `{SL : StorageLaws S} `{CL : CacheLaws C} `{BL : BrokerLaws B}.
Context `{HashFunction} `{Ed25519}.
Implicit Types l : Log S C B.

(** The log and the snapshots of a chat, seen through the storage contract. *)
Definition log_at l c : list LogEntry := log_of (store l) c.
Definition snaps_at l c : list MerkleSnapshot := snaps_of (store l) c.

Record log_ok l : Prop := {
  lo_chats c : chat_ok c (log_at l c) (snaps_at l c);
  lo_broker : broker_inv (broker l);
}.

(** The ports after a list of events, or of cached roots. *)
Definition published_all (evs : list Event) (b : B) : B := foldl (fun b ev => (Publish ev b).2) b evs.
Definition cached_all (c : string) (roots : list string) (s : C) : C :=
  foldl (fun s r => (SetMerkleRoot c r s).2) s roots.

(** [l'] is [l] with the log [es] and the snapshots [ns] for chat [c], the
    roots [rs] put in the cache and the events [evs] published, in order. *)
Record updated l l' c es ns rs evs : Prop := {
  up_log d : log_at l' d = if decide (d = c) then es else log_at l d;
  up_snaps d : snaps_at l' d = if decide (d = c) then ns else snaps_at l d;
  up_locks : locks l' = locks l;
  up_cache : cache l' = cached_all c rs (cache l);
  up_broker : broker l' = published_all evs (broker l);
}.

Lemma on_store_run {A} (m : M S A) l o s : m (store l) = (o, s) -> on_store m l = (o, set_store s l).
Proof. apply zoom_run. Qed.

Lemma set_store_id l : set_store (store l) l = l.
Proof. by destruct l. Qed.

(** A read leaves the state alone. *)
Lemma on_store_read {A} (m : M S A) l o : m (store l) = (o, store l) -> on_store m l = (o, l).
Proof. intros E. by rewrite (on_store_run _ _ _ _ E), set_store_id. Qed.

(** Publishing never fails a caller that ignores the error. *)
Lemma publish_ignored ev l : broker_inv (broker l) ->
  exists r, try (on_broker (Publish ev)) l = (Ok r, set_broker (published_all [ev] (broker l)) l) /\
    broker_inv (published_all [ev] (broker l)).
Proof.
  intros I. destruct (publish_returns ev (broker l) I) as (b & I' & [E|[e E]]);
    eexists; unfold try, on_broker, zoom; cbn; by rewrite E.
Qed.

Lemma cache_set c r l : on_cache (SetMerkleRoot c r) l = (Ok tt, set_cache (cached_all c [r] (cache l)) l).
Proof.
  destruct (set_root_returns c r (cache l)) as [s E].
  unfold on_cache, zoom. cbn. by rewrite E.
Qed.

Lemma errors_is_not_found : errors_is ErrNotFound ErrNotFound = true.
Proof. apply errors_is_refl. Qed.

(** The first sequence and the index of the next snapshot, from the last one. *)
Lemma next_window c es ns p : snaps_ok c es ns -> Z.of_nat (length es) + 1 < 2 ^ 64 -> last ns = Some p ->
  u64 (ToSequence p + 1) = Z.of_nat (interval * length ns) /\
  u64 (SnapshotIndex p + 1) = Z.of_nat (length ns).
Proof.
  intros [N Each] R L. assert (length ns <> 0%nat) as NZ by (by intros ->%nil_length_inv).
  rewrite last_lookup in L. apply Each in L. rewrite (so_to _ _ _ _ L), (so_index _ _ _ _ L).
  unfold interval in *. rewrite !u64_id; [lia|unfold is_u64; div_lia..].
Qed.

Definition snapshot_event (c : string) (e : LogEntry) : Event :=
  {| Kind := SnapshotCreated; ev_ChatID := c; ev_Sequence := Sequence e; ev_EntryHash := EntryHash e |}.
Definition entry_event (c : string) (e : LogEntry) : Event :=
  {| Kind := EntryAppended; ev_ChatID := c; ev_Sequence := Sequence e; ev_EntryHash := EntryHash e |}.

Lemma snapshot_run now c es0 tip l (es := es0 ++ [tip]) (ns := snaps_at l c) :
  log_at l c = es -> snaps_ok c es0 ns -> (length es mod interval = 0)%nat ->
  Z.of_nat (length es) < 2 ^ 64 -> Sequence tip = Z.of_nat (length es) - 1 -> broker_inv (broker l) ->
  let n := new_snapshot now c es in
  exists l', snapshot now c tip l = (Ok tt, l') /\
    updated l l' c es (ns ++ [n]) [MerkleRoot n] [snapshot_event c tip] /\ broker_inv (broker l').
Proof.
  intros El Sn D R Q Br. pose proof (sn_count _ _ _ Sn) as N.
  assert (length es = length es0 + 1)%nat as Le by (unfold es; by rewrite length_app).
  assert (length es / interval - 1 = length ns)%nat as K by (rewrite N; unfold interval in *; div_lia).
  assert (exists from index, from = Z.of_nat (interval * length ns) /\ index = Z.of_nat (length ns) /\
    forall k : Z * Z -> M (Log S C B) unit,
      (prev ← try (on_store (LatestSnapshot c));
       match prev with
       | inl p => mret (u64 (ToSequence p + 1), u64 (SnapshotIndex p + 1))
       | inr err => if errors_is err ErrNotFound then mret (0, 0) else throw err
       end ≫= k) l = k (from, index) l) as (from & index & -> & -> & Start).
  { destruct (last ns) as [p|] eqn:L.
    - destruct (next_window c es0 ns p Sn ltac:(lia) L) as [E1 E2].
      do 2 eexists. split_and!; [done..|]. intros k. erewrite bind_ok.
      2:{ apply try_ok, on_store_read. rewrite latest_snapshot. unfold ns, snaps_at in L. by rewrite L. }
      cbv beta iota. rewrite E1, E2. reflexivity.
    - apply last_None in L. rewrite L. exists 0, 0. split_and!; [done..|]. intros k. erewrite bind_ok.
      2:{ apply try_err, on_store_read. rewrite latest_snapshot. unfold ns, snaps_at in L. by rewrite L. }
      cbv beta iota. by rewrite errors_is_not_found. }
  eassert (snapshot now c tip l = _) as -> by (unfold snapshot; apply Start). cbv beta iota.
  erewrite bind_ok; [|apply on_store_read, entries_since; lia].
  rewrite Nat2Z.id. unfold log_at in El. rewrite El.
  match goal with |- context [SaveSnapshot ?n] => set (snap := n) end.
  assert (snap = new_snapshot now c es) as Esnap.
  { unfold snap, new_snapshot. rewrite K, Q. 
    assert (tip_hash es = EntryHash tip) as -> by apply tip_from_snoc. done. }
  destruct (save_snapshot snap (store l)) as (s1 & E1 & S1 & L1).
  erewrite bind_ok; [|by apply on_store_run].
  erewrite bind_ok by apply cache_set.
  match goal with |- context [try (on_broker (Publish ?ev))] => change ev with (snapshot_event c tip) end.
  match goal with |- context [(_ ≫= _) ?l1] =>
    destruct (publish_ignored (snapshot_event c tip) l1 Br) as (r & E3 & Br3) end.
  erewrite bind_ok by exact E3. eexists. split; [done|].
  split; [|done]. split; [intros d; cbn..|done| |done].
  - unfold log_at. cbn. rewrite L1. case_decide as Dd; [by subst|done].
  - unfold snaps_at. cbn. rewrite S1, Esnap. cbn [snap_ChatID new_snapshot].
    case_decide as Dd; [by subst|done].
  - by rewrite <-Esnap.
Qed.

(** The hash and the sequence [append_locked] reads off the tip. *)
Lemma read_tip c l (es := log_at l c) : chain 0 GenesisHash es -> Z.of_nat (length es) + 1 < 2 ^ 64 ->
  forall A (k : string * Z -> M (Log S C B) A),
    (tip ← try (on_store (LastEntry c));
     match tip with
     | inl e => mret (EntryHash e, u64 (Sequence e + 1))
     | inr err => if errors_is err ErrNotFound then mret (GenesisHash, 0)
                  else throw (Wrapf "read tip" err)
     end ≫= k) l = k (tip_hash es, Z.of_nat (length es)) l.
Proof.
  intros T R A k. unfold tip_hash, tip_from. destruct (last es) as [e|] eqn:L.
  - erewrite bind_ok.
    2:{ apply try_ok, on_store_read. rewrite last_entry. unfold es, log_at in L. by rewrite L. }
    cbv beta iota. rewrite last_lookup in L.
    assert (length es <> 0%nat) by (intros E%nil_length_inv; by rewrite E in L).
    rewrite (chain_sequence es _ e T) by (done || lia). rewrite u64_id by (unfold is_u64; lia).
    by replace (Z.of_nat (pred (length es)) + 1) with (Z.of_nat (length es)) by lia.
  - erewrite bind_ok.
    2:{ apply try_err, on_store_read. rewrite last_entry. unfold es, log_at in L. by rewrite L. }
    cbv beta iota. rewrite errors_is_not_found. apply last_None in L. by rewrite L.
Qed.

(** What an accepted message adds besides its entry. *)
Definition new_roots now c (es : list LogEntry) : list string :=
  if decide (length es mod interval = 0)%nat then [MerkleRoot (new_snapshot now c es)] else [].
Definition new_events c (es : list LogEntry) e : list Event :=
  entry_event c e :: if decide (length es mod interval = 0)%nat then [snapshot_event c e] else [].

Definition accepted now (msg : SignedMessage) l l' : Prop :=
  let c := ChatID msg in
  let e := new_entry (log_at l c) msg in
  let es := log_at l c ++ [e] in
  updated l l' c es (snaps_after now c es (snaps_at l c)) (new_roots now c es) (new_events c es e).

Lemma append_locked_run now msg l (c := ChatID msg) (es := log_at l c) (e := new_entry es msg) :
  chat_ok c es (snaps_at l c) -> Z.of_nat (length es) + 1 < 2 ^ 64 -> broker_inv (broker l) ->
  exists l', append_locked now msg l = (Ok e, l') /\ accepted now msg l l' /\ broker_inv (broker l').
Proof.
  intros [T Ch Sn _] R Br.
  eassert (append_locked now msg l = _) as -> by (unfold append_locked; by apply read_tip).
  cbv beta iota. fold c es. change (tip_hash es) with (PrevHash e).
  match goal with |- context [AppendEntry c ?x] => change x with e end.
  destruct (append_contiguous c e (store l)) as (s1 & E1 & L1 & S1); [done|].
  erewrite bind_ok; [|apply wrapping_ok, on_store_run; exact E1].
  match goal with |- context [try (on_broker (Publish ?ev))] => change ev with (entry_event c e) end.
  destruct (publish_ignored (entry_event c e) (set_store s1 l) Br) as (r & E2 & Br2).
  erewrite bind_ok by exact E2. clear E2. set (l2 := set_broker _ (set_store s1 l)) in *.
  cbn [Sequence e new_entry]. fold e.
  assert (log_at l2 c = es ++ [e]) as Ll by (unfold log_at; cbn; rewrite L1; by rewrite decide_True).
  assert (snaps_at l2 c = snaps_at l c) as Ls by apply S1.
  assert (length (es ++ [e]) = (length es + 1)%nat) as Le by (rewrite length_app; cbn; lia).
  rewrite u64_id by (unfold is_u64; lia). unfold accepted. fold c es e.
  unfold snaps_after, new_roots, new_events. rewrite Le.
  destruct (decide _) as [D|D].
  - rewrite (proj2 (Z.eqb_eq _ 0)) by (unfold SnapshotInterval, interval in *; div_lia).
    destruct (snapshot_run now c es e l2) as (l' & E3 & [U1 U2 U3 U4 U5] & Br3);
      [done|by rewrite Ls|by rewrite Le|rewrite Le; lia|rewrite Le; cbn; lia|done|].
    erewrite bind_ok; [|apply wrapping_ok; exact E3]. exists l'. split; [done|]. split; [|done].
    split; [intros d..|done|done|done].
    + rewrite U1. case_decide; [done|]. unfold log_at. cbn. by rewrite L1, decide_False.
    + rewrite U2, Ls. case_decide; [done|]. apply S1.
  - rewrite (proj2 (Z.eqb_neq _ 0)) by (unfold SnapshotInterval, interval in *; div_lia).
    exists l2. split; [done|]. split; [|done]. split; [intros d..|done|done|done].
    + apply L1.
    + unfold snaps_at. cbn. rewrite S1. case_decide as Dd; [by subst|done].
Qed.

(** *** [Append] on every branch *)

(** Creating the mutex and taking it, when it is free. *)
Lemma take_lock c l : locks l !! c <> Some true ->
  (chatLock c ;; Lock c) l = (Ok tt, set_locks (<[c := true]> (locks l)) l).
Proof.
  intros N. unfold chatLock, Lock, modify, mbind, M_bind. destruct (locks l !! c) as [[]|] eqn:E; [done| |].
  - by rewrite E.
  - cbn. rewrite lookup_insert_eq. cbn. unfold set_locks. cbn. by rewrite insert_insert_eq.
Qed.

Lemma Append_version now msg l : supportedVersion (SchemaVersion msg) = false ->
  Append now msg l = (Err ErrUnsupportedVersion, l).
Proof. intros V. unfold Append. by rewrite V. Qed.

Lemma Append_signature now msg l : supportedVersion (SchemaVersion msg) = true ->
  VerifyMessage msg = false -> Append now msg l = (Err ErrInvalidSignature, l).
Proof. intros V Sg. unfold Append. by rewrite V, Sg. Qed.

(** The mutex of the chat is held by someone else. *)
Lemma Append_blocked now msg l : supportedVersion (SchemaVersion msg) = true ->
  VerifyMessage msg = true -> locks l !! ChatID msg = Some true -> Append now msg l = (Block, l).
Proof.
  intros V Sg L. unfold Append. rewrite V, Sg. cbn [negb].
  erewrite bind_ok by done. unfold Lock. rewrite L. unfold mbind, M_bind. by rewrite L.
Qed.

Lemma accepted_set_locks now msg l l' k : accepted now msg (set_locks k l) l' ->
  accepted now msg l (set_locks (locks l) l').
Proof. intros []. by split. Qed.

Lemma Append_run now msg l (c := ChatID msg) : log_ok l ->
  supportedVersion (SchemaVersion msg) = true -> VerifyMessage msg = true -> locks l !! c <> Some true ->
  Z.of_nat (length (log_at l c)) + 1 < 2 ^ 64 ->
  exists l', Append now msg l = (Ok (new_entry (log_at l c) msg), set_locks (<[c := false]> (locks l)) l') /\
    accepted now msg l l' /\ broker_inv (broker l').
Proof.
  intros [K Br] V Sg N R. unfold Append. rewrite V, Sg. cbn [negb]. fold c.
  set (l1 := set_locks (<[c := true]> (locks l)) l).
  destruct (append_locked_run now msg l1 (K c) R Br) as (l' & E2 & A & Br2).
  exists (set_locks (locks l) l'). split; [|split; [by eapply accepted_set_locks|done]].
  rewrite (bind_assoc_run (chatLock c)), (bind_ok _ _ _ _ _ (take_lock c l N)). fold l1.
  unfold deferring. rewrite E2. unfold Unlock, set_locks. cbn.
  rewrite (up_locks _ _ _ _ _ _ _ A). cbn. by rewrite insert_insert_eq.
Qed.

Lemma accepted_ok now msg l l' : log_ok l -> accepted now msg l l' -> broker_inv (broker l') ->
  supportedVersion (SchemaVersion msg) = true -> VerifyMessage msg = true ->
  Z.of_nat (length (log_at l (ChatID msg))) + 1 < 2 ^ 64 -> log_ok l'.
Proof.
  intros [K _] [L N _ _ _] Br V Sg R. split; [|done]. intros d. rewrite L, N.
  destruct (decide (d = ChatID msg)) as [->|]; [|apply K]. by apply chat_ok_append.
Qed.
End Append.

(** ** The mutexes, over any ports *)

Section Locks.
Context {S C B : Type} `{Storage S} `{Cache C} `{Broker B} `{HashFunction} `{Ed25519}.
Implicit Types l : Log S C B.

(** An operation that leaves the mutexes alone. *)
Definition keeps_locks {A} (m : M (Log S C B) A) : Prop := forall l, locks (m l).2 = locks l.

Lemma keeps_ret {A} (a : A) : keeps_locks (mret a).
Proof. done. Qed.
Lemma keeps_throw {A} e : keeps_locks (throw e : M (Log S C B) A).
Proof. done. Qed.
Lemma keeps_bind {A D} (m : M (Log S C B) A) (k : A -> M (Log S C B) D) :
  keeps_locks m -> (forall a, keeps_locks (k a)) -> keeps_locks (m ≫= k).
Proof.
  intros Km Kk l. unfold mbind, M_bind. specialize (Km l).
  destruct (m l) as [[a|e|w|] l1]; cbn in *; [|done..]. by rewrite Kk.
Qed.
Lemma keeps_try {A} (m : M (Log S C B) A) : keeps_locks m -> keeps_locks (try m).
Proof. intros K l. unfold try. specialize (K l). by destruct (m l) as [[a|e|w|] l1]. Qed.
Lemma keeps_wrapping {A} p (m : M (Log S C B) A) : keeps_locks m -> keeps_locks (wrapping p m).
Proof. intros K l. unfold wrapping. specialize (K l). by destruct (m l) as [[a|e|w|] l1]. Qed.
Lemma keeps_on_store {A} (m : M S A) : keeps_locks (on_store m).
Proof. intros l. unfold on_store, zoom. by destruct (m _). Qed.
Lemma keeps_on_cache {A} (m : M C A) : keeps_locks (on_cache m).
Proof. intros l. unfold on_cache, zoom. by destruct (m _). Qed.
Lemma keeps_on_broker {A} (m : M B A) : keeps_locks (on_broker m).
Proof. intros l. unfold on_broker, zoom. by destruct (m _). Qed.

#[local] Hint Resolve keeps_ret keeps_throw keeps_bind keeps_try keeps_wrapping
  keeps_on_store keeps_on_cache keeps_on_broker : messenger.

Ltac keeps := repeat first
  [ progress cbv zeta | apply keeps_bind; [|intros ?] | case_match | solve [auto with messenger] ].

Lemma snapshot_keeps now c tip : keeps_locks (snapshot now c tip).
Proof. unfold snapshot. keeps. Qed.

Lemma append_locked_keeps now msg : keeps_locks (append_locked now msg).
Proof. pose proof snapshot_keeps. unfold append_locked. keeps. Qed.
End Locks.
