(* ===== verification/LogReads.v ===== *)
(** * LogReads: what the reading operations of the log return

    Over a store that keeps its contract: [History], [Verify], [VerifyEntry],
    [ProveInclusion] and [Sync] as functions of the chat's log and of its
    snapshots, each leaving the state as it is; and what two verified chains
    with the same last hash have in common. *)
From S2P Require Import Prelude Codec JsonText GoTime Sha256 Models Merkle Crypto Storage Cache Broker Chatlog LogFacts.

(** ** Chains and hashes *)

Section Binding.
Context `{HashFunction} `{Ed25519}.

(** The byte strings hashed to compute the entry hashes of a log. *)
Definition log_bytes (es : list LogEntry) : list (list byte) := es ≫= hashed_bytes.

Lemma log_bytes_elem e es : e ∈ es -> hashed_bytes e ⊆ log_bytes es.
Proof. intros E x Hx. unfold log_bytes. apply list_elem_of_bind. by exists e. Qed.

Lemma log_bytes_snoc es e : log_bytes (es ++ [e]) = log_bytes es ++ hashed_bytes e.
Proof. unfold log_bytes. by rewrite bind_app. Qed.

Lemma chain_hash es k e : chain 0 GenesisHash es -> es !! k = Some e -> ComputeHash e = EntryHash e.
Proof. intros T E. by eapply eo_hash, chain_lookup. Qed.

(** Two chains of the same length with the same last hash are the same log. *)
Lemma chain_binds k es fs : chain 0 GenesisHash es -> chain 0 GenesisHash fs ->
  Forall (fun e => well_formed (Message e)) es -> Forall (fun e => well_formed (Message e)) fs ->
  length es = length fs -> log_bytes es ⊆ k -> log_bytes fs ⊆ k ->
  tip_hash es = tip_hash fs -> Forall2 same_entry es fs \/ collides k.
Proof.
  revert fs. induction es as [|e es IH] using rev_ind; intros fs Te Tf We Wf L Se Sf E.
  - destruct fs; [by left; constructor|done].
  - destruct fs as [|f fs _] using rev_ind; [by rewrite length_app in L; cbn in L; lia|].
    rewrite !length_app in L. cbn in L. apply chain_snoc in Te as [Te Ke], Tf as [Tf Kf].
    apply Forall_app in We as [We [We1 _]%Forall_cons], Wf as [Wf [Wf1 _]%Forall_cons].
    rewrite log_bytes_snoc in Se, Sf. unfold tip_hash in E. rewrite !tip_from_snoc in E.
    rewrite <-(eo_hash _ _ _ Ke), <-(eo_hash _ _ _ Kf) in E.
    destruct (ComputeHash_binds_in k e f) as [[Q P M Sg]|]; [done|done| | |by eapply subseteq_app_r|by eapply subseteq_app_r|done| |by right].
    + rewrite (eo_sequence _ _ _ Ke). apply u64_range.
    + rewrite (eo_sequence _ _ _ Kf). apply u64_range.
    + pose proof P as P'. rewrite (eo_prev _ _ _ Ke), (eo_prev _ _ _ Kf) in P'.
      destruct (IH fs) as [F|]; try done; [lia|by eapply subseteq_app_l|by eapply subseteq_app_l|left|by right].
      apply Forall2_app; [done|]. by constructor; [split|constructor].
Qed.

(** Chains with the same last hash have the same length. *)
Lemma chain_length k es fs : chain 0 GenesisHash es -> chain 0 GenesisHash fs ->
  Forall (fun e => well_formed (Message e)) es -> Forall (fun e => well_formed (Message e)) fs ->
  es <> [] -> fs <> [] -> Z.of_nat (length es) <= 2 ^ 64 -> Z.of_nat (length fs) <= 2 ^ 64 ->
  log_bytes es ⊆ k -> log_bytes fs ⊆ k ->
  tip_hash es = tip_hash fs -> length es = length fs \/ collides k.
Proof.
  destruct es as [|e es _] using rev_ind; [done|]. destruct fs as [|f fs _] using rev_ind; [done|].
  intros Te Tf We Wf _ _ Le Lf Se Sf E. apply chain_snoc in Te as [Te Ke], Tf as [Tf Kf].
  apply Forall_app in We as [We [We1 _]%Forall_cons], Wf as [Wf [Wf1 _]%Forall_cons].
  rewrite log_bytes_snoc in Se, Sf. unfold tip_hash in E. rewrite !tip_from_snoc in E.
  rewrite <-(eo_hash _ _ _ Ke), <-(eo_hash _ _ _ Kf) in E. rewrite length_app in *. cbn [length] in *.
  pose proof (eo_sequence _ _ _ Ke) as Qe. pose proof (eo_sequence _ _ _ Kf) as Qf.
  rewrite u64_id in Qe, Qf by (unfold is_u64; lia).
  destruct (ComputeHash_binds_in k e f) as [[Q P M Sg]|]; [done|done| | |by eapply subseteq_app_r|by eapply subseteq_app_r|done| |by right].
  - rewrite Qe. unfold is_u64; lia.
  - rewrite Qf. unfold is_u64; lia.
  - left. rewrite length_app. cbn [length]. lia.
Qed.

(** Every leaf of a chain is a digest. *)
Lemma chain_nodes i p es : chain i p es -> Forall node_hash (leaves_of es).
Proof.
  induction 1 as [|i p e es K _ IH]; [constructor|]. cbn. constructor; [|done].
  rewrite <-(eo_hash _ _ _ K). apply hexdigest_length.
Qed.
End Binding.

(** ** Reads *)

Section Reads.
Context {S C B : Type} `{SL : StorageLaws S} `{CL : CacheLaws C} `{BL : BrokerLaws B}.
Context `{HashFunction} `{Ed25519}.
Implicit Types l : Log S C B.

Definition capped (limit : Z) (es : list LogEntry) : list LogEntry :=
  if 0 <? limit then take (Z.to_nat limit) es else es.

Lemma History_run c from limit l : 0 <= from ->
  History c from limit l = (Ok (made (capped limit (drop (Z.to_nat from) (log_at l c)))), l).
Proof.
  intros F. unfold History, capped.
  erewrite bind_ok; [|apply on_store_read, entries_since; done].
  cbn [elems reslice]. destruct (Z.ltb_spec 0 limit); [|done]. cbn [andb].
  destruct (Z.ltb_spec limit (Z.of_nat (length (drop (Z.to_nat from) (log_of (store l) c))))); [done|].
  by rewrite take_ge by (unfold log_at; lia).
Qed.

Lemma VerifyChain_run c l : VerifyChain c l =
  (Ok match verify_walk 0 GenesisHash (log_at l c) with
      | Some reason => {| vr_Valid := false; vr_Entries := 0; vr_Reason := reason |}
      | None => {| vr_Valid := true; vr_Entries := u64 (Z.of_nat (length (log_at l c))); vr_Reason := "" |}
      end, l).
Proof. unfold VerifyChain. erewrite bind_ok; [|by apply on_store_read, entries_since]. done. Qed.

Lemma VerifyChain_valid c l r : VerifyChain c l = (Ok r, l) ->
  vr_Valid r = true <-> chain 0 GenesisHash (log_at l c).
Proof.
  rewrite VerifyChain_run, <-verify_walk_chain. intros [= <-]. by destruct (verify_walk _ _ _).
Qed.

Lemma VerifyChain_chain c l : chain 0 GenesisHash (log_at l c) -> VerifyChain c l =
  (Ok {| vr_Valid := true; vr_Entries := u64 (Z.of_nat (length (log_at l c))); vr_Reason := "" |}, l).
Proof. intros T. rewrite VerifyChain_run. by rewrite (proj2 (verify_walk_chain _ _ _) T). Qed.

(** *** One entry *)

(** What [VerifyEntry] checks of the entry at position [k]. *)
Definition entry_checks (es : list LogEntry) (k : nat) (e : LogEntry) : Prop :=
  supportedVersion (SchemaVersion (Message e)) = true /\ ComputeHash e = EntryHash e /\
  VerifyMessage (Message e) = true /\ PrevHash e = tip_hash (take k es).

Lemma tip_hash_take es k e : es !! k = Some e -> tip_hash (take (Datatypes.S k) es) = EntryHash e.
Proof. intros E. rewrite (take_S_r _ _ _ E). apply tip_from_snoc. Qed.

Ltac verdict :=
  eexists; split; [reflexivity|split; [reflexivity|split; [|done]]]; cbn;
  (split; [done|intros (?&?&?&?); congruence]).

Lemma VerifyEntry_run c l k e : log_at l c !! k = Some e -> Z.of_nat (length (log_at l c)) < 2 ^ 64 ->
  exists r, VerifyEntry c (Z.of_nat k) l = (Ok r, l) /\ mv_Sequence r = Z.of_nat k /\
    (mv_Valid r = true <-> entry_checks (log_at l c) k e) /\ (mv_Reason r = "" <-> mv_Valid r = true)%string.
Proof.
  intros E R. pose proof (lookup_lt_Some _ _ _ E) as L. unfold VerifyEntry, entry_checks.
  assert (forall j, on_store (Entry c (Z.of_nat j)) l = (found (log_at l c !! j), l)) as G.
  { intros j. rewrite <-(Nat2Z.id j) at 2. apply on_store_read, entry_at. lia. }
  erewrite bind_ok by (rewrite G, E; done).
  destruct (supportedVersion (SchemaVersion (Message e))); [|by verdict].
  case_bool_decide; [|by verdict].
  destruct (VerifyMessage (Message e)); [|by verdict]. cbn [negb].
  erewrite (bind_ok _ _ l (tip_hash (take k (log_at l c)))).
  2:{ destruct k as [|k]; [done|]. rewrite (proj2 (Z.ltb_lt 0 _)) by lia.
      rewrite u64_id by (unfold is_u64; lia). replace (Z.of_nat (Datatypes.S k) - 1) with (Z.of_nat k) by lia.
      destruct (lookup_lt_is_Some_2 (log_at l c) k) as [p Hp]; [lia|].
      erewrite bind_ok by (rewrite G, Hp; done). by rewrite (tip_hash_take _ _ _ Hp). }
  case_bool_decide; cbn [negb]; by verdict.
Qed.

Lemma entry_ok_checks es k e : (k <= length es)%nat -> Z.of_nat k < 2 ^ 64 ->
  entry_ok (Z.of_nat k) (tip_from GenesisHash (take k es)) e <->
  Sequence e = Z.of_nat k /\ entry_checks es k e.
Proof.
  intros L R. unfold entry_checks, tip_hash. assert (u64 (Z.of_nat k) = Z.of_nat k) as U
    by (apply u64_id; unfold is_u64; lia).
  split; [intros []|intros (?&?&?&?&?)]; [by rewrite <-U|split; try done; by rewrite U].
Qed.

(** A chain is a list whose entries pass their checks one by one. *)
Lemma chain_checks es : Z.of_nat (length es) <= 2 ^ 64 ->
  chain 0 GenesisHash es <->
  forall k e, es !! k = Some e -> Sequence e = Z.of_nat k /\ entry_checks es k e.
Proof.
  intros R. split.
  - intros T k e E. pose proof (lookup_lt_Some _ _ _ E). apply entry_ok_checks; [lia..|].
    by apply (chain_lookup 0).
  - assert (forall n, (n <= length es)%nat ->
      (forall k e, es !! k = Some e -> Sequence e = Z.of_nat k /\ entry_checks es k e) ->
      chain 0 GenesisHash (take n es)) as A;
      [|intros F; rewrite <-(firstn_all es); by apply A].
    intros n L F. induction n as [|n IH]; [constructor|].
    destruct (lookup_lt_is_Some_2 es n) as [e E]; [lia|]. rewrite (take_S_r _ _ _ E).
    apply chain_snoc. split; [apply IH; lia|]. rewrite length_take.
    replace (0 + _) with (Z.of_nat n) by lia. apply entry_ok_checks; [lia..|by apply F].
Qed.

Lemma VerifyEntry_missing c l q : Z.of_nat (length (log_at l c)) <= q ->
  VerifyEntry c q l = (Err ErrNotFound, l).
Proof.
  intros L. unfold VerifyEntry. erewrite bind_err; [done|].
  apply on_store_read. rewrite entry_at by lia. unfold log_at in L. by rewrite lookup_ge_None_2 by lia.
Qed.

(** *** Windows *)

Lemma window_nodes i p j es : chain i p es -> Forall node_hash (leaves_of (window j es)).
Proof.
  intros T%chain_nodes. unfold leaves_of, window in *. rewrite !Forall_map in *.
  by apply Forall_take, Forall_drop.
Qed.

Lemma window_elem j es e : e ∈ window j es ->
  exists k, (interval * j <= k < interval * j + interval)%nat /\ es !! k = Some e.
Proof.
  unfold window. intros (i & Hi)%list_elem_of_lookup. apply lookup_take_Some in Hi as [Hi Li].
  rewrite lookup_drop in Hi. exists (interval * j + i)%nat. by split; [lia|].
Qed.

Lemma window_member j es h : h ∈ leaves_of (window j es) ->
  exists k e, (interval * j <= k < interval * j + interval)%nat /\ es !! k = Some e /\ EntryHash e = h.
Proof. unfold leaves_of. intros (e & -> & (k & ? & ?)%window_elem)%list_elem_of_fmap. by exists k, e. Qed.

(** Windows with the same leaves hold the same entries. *)
Lemma leaves_bind k j es fs : chain 0 GenesisHash es -> chain 0 GenesisHash fs ->
  Forall (fun e => well_formed (Message e)) es -> Forall (fun e => well_formed (Message e)) fs ->
  log_bytes es ⊆ k -> log_bytes fs ⊆ k ->
  leaves_of (window j es) = leaves_of (window j fs) ->
  Forall2 same_entry (window j es) (window j fs) \/ collides k.
Proof.
  intros Te Tf We Wf Se Sf. rewrite Forall_lookup in We, Wf.
  assert (forall e, e ∈ window j es -> e ∈ es /\ well_formed (Message e) /\ is_u64 (Sequence e) /\
    ComputeHash e = EntryHash e) as Ae.
  { intros e (i & _ & E)%window_elem. pose proof (chain_lookup _ _ _ _ _ Te E) as [Q _ _ Hh _].
    split_and!; [by eapply list_elem_of_lookup_2|by eapply We|rewrite Q; apply u64_range|done]. }
  assert (forall e, e ∈ window j fs -> e ∈ fs /\ well_formed (Message e) /\ is_u64 (Sequence e) /\
    ComputeHash e = EntryHash e) as Af.
  { intros e (i & _ & E)%window_elem. pose proof (chain_lookup _ _ _ _ _ Tf E) as [Q _ _ Hh _].
    split_and!; [by eapply list_elem_of_lookup_2|by eapply Wf|rewrite Q; apply u64_range|done]. }
  revert Ae Af. generalize (window j es) as es', (window j fs) as fs'.
  induction es' as [|e es' IH]; intros [|f fs'] Ae Af E; try done; [by left|].
  cbn in E. injection E as E1 E2.
  destruct (Ae e ltac:(left)) as (Ie & We' & Ue & He), (Af f ltac:(left)) as (If & Wf' & Uf & Hf).
  rewrite <-He, <-Hf in E1.
  destruct (ComputeHash_binds_in k e f) as [Q|]; try done; [|..|by right].
  - etrans; [by apply log_bytes_elem|done].
  - etrans; [by apply log_bytes_elem|done].
  - destruct (IH fs') as [F|]; [intros x Hx; apply Ae; by right|intros x Hx; apply Af; by right|done| |by right].
    left. by constructor.
Qed.
(** *** Inclusion proofs *)

Lemma Proof_spec ls i x : 0 <= i -> ls !! Z.to_nat i = Some x ->
  exists p, Proof ls i = (p, Root ls) /\ run_proof x p = Root ls /\ length p = depth (length ls).
Proof.
  intros I E. pose proof (lookup_lt_Some _ _ _ E) as L. assert (ls <> []) by (by intros ->).
  destruct (proof_loop_spec ls ltac:(done) (length ls) (Z.to_nat i) [] x ltac:(lia) E) as (p & R & V & D).
  exists p. unfold Proof, ProofRun. rewrite (proj2 (Z.ltb_ge _ _)), (proj2 (Z.leb_gt _ _)) by lia.
  cbn [orb]. by rewrite R.
Qed.

Lemma window_lookup j es i e : (i < interval)%nat -> es !! (interval * j + i)%nat = Some e ->
  leaves_of (window j es) !! i = Some (EntryHash e).
Proof.
  intros I E. unfold leaves_of, window. rewrite list_lookup_fmap, lookup_take_lt by done.
  by rewrite lookup_drop, E.
Qed.

Lemma window_leaves_run j es : (interval * j + interval <= length es)%nat ->
  window_leaves (drop (interval * j) es) 100 = Ok (leaves_of (window j es)) /\
  length (leaves_of (window j es)) = interval.
Proof.
  intros L. unfold window_leaves, leaves_of, window. cbn [Z.ltb Z.compare]. split.
  - f_equal. change (Z.to_nat 100) with interval. generalize (drop (interval * j) es).
    generalize interval. intros n l. revert n. by induction l as [|x l IH]; intros [|n]; cbn; [..|by rewrite IH].
  - rewrite length_map, length_take, length_drop. lia.
Qed.

(** A chain whose snapshots are of windows it has, but which may have a full
    window without one: a log at any moment of an [Append]. *)
Record sealed (c : string) (es : list LogEntry) (ns : list MerkleSnapshot) : Prop := {
  se_chain : chain 0 GenesisHash es;
  se_each k n : ns !! k = Some n -> snap_ok c es k n;
  se_room : Z.of_nat (length es) < 2 ^ 64;
}.

Lemma chat_sealed c es ns : chat_ok c es ns -> sealed c es ns.
Proof. intros [T _ [_ Each] R]. by split. Qed.

Lemma sealed_app c es fs ns : sealed c es ns -> chain 0 GenesisHash (es ++ fs) ->
  Z.of_nat (length (es ++ fs)) < 2 ^ 64 -> sealed c (es ++ fs) ns.
Proof.
  intros [_ Each _] T R. split; [done| |done]. intros k n E. apply snap_ok_app; [|by apply Each].
  destruct (so_last _ _ _ _ (Each k n E)) as (e & L & _). apply lookup_lt_Some in L. unfold interval in *. lia.
Qed.

Lemma prove_sealed c k l e n (es := log_at l c) (j := (k / interval)%nat) :
  sealed c es (snaps_at l c) -> es !! k = Some e -> snaps_at l c !! j = Some n ->
  exists p, ProveInclusion c (Z.of_nat k) l =
      (Ok {| ip_ChatID := c; ip_Sequence := Z.of_nat k; ip_EntryHash := EntryHash e;
             ip_SnapshotIndex := Z.of_nat j; ip_MerkleRoot := Root (leaves_of (window j es)); ip_Proof := p |}, l) /\
    VerifyProof (EntryHash e) p (Root (leaves_of (window j es))) = true /\ length p = 7%nat /\
    Forall (fun x => node_hash (Hash x)) p.
Proof.
  intros [T Each R] E Hn. pose proof (Each j n Hn) as [_ _ Fr To Ro (x & Lx & _)]. apply lookup_lt_Some in Lx.
  assert (interval * j + interval <= length es)%nat as W by (unfold interval in *; lia).
  unfold ProveInclusion. replace (Z.of_nat k / SnapshotInterval) with (Z.of_nat j)
    by (unfold j, SnapshotInterval, interval; div_lia).
  erewrite bind_ok; [|apply try_ok, on_store_read; rewrite snapshot_at by lia; rewrite Nat2Z.id;
    unfold snaps_at in Hn; by rewrite Hn].
  cbv beta iota. rewrite Fr, To.
  erewrite bind_ok; [|apply on_store_read, entries_since; lia]. rewrite Nat2Z.id. fold es.
  replace (Z.of_nat (interval * j + 99) - Z.of_nat (interval * j) + 1) with 100 by lia.
  change (u64 100) with 100.
  change (i64 100) with 100. change (log_of (store l) c) with es. cbn [elems].
  rewrite (proj2 (Z.ltb_ge _ _)) by (rewrite length_drop; unfold interval in *; lia).
  destruct (window_leaves_run j es W) as [E1 L1]. erewrite bind_ok by by rewrite E1.
  assert (exists i, (i < interval)%nat /\ k = (interval * j + i)%nat) as (i & Hi & Hk)
    by (exists (k mod interval)%nat; unfold j, interval; div_lia).
  replace (u64 (Z.of_nat k - Z.of_nat (interval * j))) with (Z.of_nat i)
    by (rewrite u64_id; [lia|unfold is_u64; lia]).
  rewrite i64_id by (unfold interval in *; lia). rewrite Hk in E. apply window_lookup in E; [|done].
  destruct (Proof_spec _ (Z.of_nat i) (EntryHash e) ltac:(lia)
    ltac:(rewrite Nat2Z.id; exact E)) as (p & E2 & V & D). rewrite E2, Ro.
  rewrite bool_decide_eq_true_2 by done. cbn [negb]. exists p. split.
  - erewrite bind_ok; [done|]. unfold lift, index_string.
    rewrite (proj2 (Z.ltb_ge _ _)) by lia. by rewrite Nat2Z.id, E.
  - split; [by apply bool_decide_eq_true|]. split; [by rewrite D, L1|].
    change p with (p, Root (leaves_of (window j es))).1. rewrite <-E2. apply Proof_nodes.
    by eapply window_nodes.
Qed.

Lemma prove_unsealed c k l : 0 <= k -> snaps_at l c !! Z.to_nat (k / 100) = None ->
  ProveInclusion c k l = (Err ErrNotSnapshotted, l).
Proof.
  intros P N. unfold ProveInclusion. erewrite bind_ok.
  2:{ apply try_err, on_store_read. rewrite snapshot_at by (unfold SnapshotInterval; div_lia).
      change (snaps_of (store l) c) with (snaps_at l c). change SnapshotInterval with 100. by rewrite N. }
  cbv beta iota. by rewrite errors_is_not_found.
Qed.

Lemma ProveInclusion_run c k l e (es := log_at l c) (j := (k / interval)%nat) :
  log_ok l -> es !! k = Some e -> (k < interval * (length es / interval))%nat ->
  exists p, ProveInclusion c (Z.of_nat k) l =
      (Ok {| ip_ChatID := c; ip_Sequence := Z.of_nat k; ip_EntryHash := EntryHash e;
             ip_SnapshotIndex := Z.of_nat j; ip_MerkleRoot := Root (leaves_of (window j es)); ip_Proof := p |}, l) /\
    VerifyProof (EntryHash e) p (Root (leaves_of (window j es))) = true /\ length p = 7%nat /\
    Forall (fun x => node_hash (Hash x)) p.
Proof.
  intros [K _] E L. destruct (lookup_lt_is_Some_2 (snaps_at l c) j) as [n Hn];
    [rewrite (sn_count _ _ _ (co_snaps _ _ _ (K c))); fold es; unfold j, interval in *; div_lia|].
  eapply prove_sealed; [by apply chat_sealed, K|done..].
Qed.

Lemma ProveInclusion_uncovered c k l (es := log_at l c) : log_ok l -> 0 <= k ->
  Z.of_nat (interval * (length es / interval)) <= k ->
  ProveInclusion c k l = (Err ErrNotSnapshotted, l).
Proof.
  intros [K _] P L. apply prove_unsealed; [done|]. apply lookup_ge_None_2.
  rewrite (sn_count _ _ _ (co_snaps _ _ _ (K c))). fold es. unfold interval in *. div_lia.
Qed.

(** *** The catch-up bundle *)

(** Entries already covered by a snapshot. *)
Definition covered (es : list LogEntry) : nat := (interval * (length es / interval))%nat.

Lemma read_snapshot c l : snaps_ok c (log_at l c) (snaps_at l c) -> Z.of_nat (length (log_at l c)) < 2 ^ 64 ->
  forall A (k : option MerkleSnapshot * Z -> M (Log S C B) A),
    (r ← try (on_store (LatestSnapshot c));
     match r with
     | inl s => mret (Some s, u64 (ToSequence s + 1))
     | inr err => if errors_is err ErrNotFound then mret (None, 0) else throw err
     end ≫= k) l = k (last (snaps_at l c), Z.of_nat (covered (log_at l c))) l.
Proof.
  intros [N Each] R A k. destruct (last (snaps_at l c)) as [n|] eqn:L.
  - erewrite bind_ok; [|apply try_ok, on_store_read; rewrite latest_snapshot;
      unfold snaps_at in L; by rewrite L]. cbv beta iota.
    rewrite last_lookup in L. rewrite (so_to _ _ _ _ (Each _ _ L)).
    assert (length (snaps_at l c) <> 0%nat) by (intros E%nil_length_inv; by rewrite E in L).
    replace (u64 _) with (Z.of_nat (covered (log_at l c))); [done|].
    rewrite u64_id by (unfold is_u64, interval in *; div_lia). unfold covered, interval in *. div_lia.
  - erewrite bind_ok; [|apply try_err, on_store_read; rewrite latest_snapshot;
      unfold snaps_at in L; by rewrite L]. cbv beta iota. rewrite errors_is_not_found.
    apply last_None in L. rewrite L in N. unfold covered. by rewrite <-N.
Qed.

Lemma read_hash c l : forall A (k : string -> M (Log S C B) A),
    (r ← try (on_store (LastEntry c));
     match r with
     | inl e => mret (EntryHash e)
     | inr err => if errors_is err ErrNotFound then mret GenesisHash else throw err
     end ≫= k) l = k (tip_hash (log_at l c)) l.
Proof.
  intros A k. unfold tip_hash, tip_from. destruct (last (log_at l c)) as [e|] eqn:L;
    unfold log_at in L.
  - erewrite bind_ok; [|apply try_ok, on_store_read; rewrite last_entry; by rewrite L]. done.
  - erewrite bind_ok; [|apply try_err, on_store_read; rewrite last_entry; by rewrite L].
    cbv beta iota. by rewrite errors_is_not_found.
Qed.

Lemma Sync_run c l (es := log_at l c) : log_ok l ->
  Sync c l = (Ok {| Snapshot := last (snaps_at l c); NewEntries := made (drop (covered es) es);
                    CurrentHash := tip_hash es |}, l).
Proof.
  intros [K _]. destruct (K c) as [_ _ Sn R].
  eassert (Sync c l = _) as -> by (unfold Sync; by apply read_snapshot). cbv beta iota.
  erewrite bind_ok; [|apply on_store_read, entries_since; lia]. rewrite Nat2Z.id. by rewrite read_hash.
Qed.

(** The last snapshot carries the hash of the last covered entry. *)
Lemma covered_tip c l (es := log_at l c) : log_ok l ->
  tip_hash (take (covered es) es) =
    match last (snaps_at l c) with Some n => LastEntryHash n | None => GenesisHash end.
Proof.
  intros [K _]. destruct (K c) as [T _ [N Each] R]. fold es in T, N, Each, R. unfold tip_hash.
  rewrite last_lookup. destruct (snaps_at l c !! pred (length (snaps_at l c))) as [n|] eqn:E.
  - pose proof (lookup_lt_Some _ _ _ E). destruct (so_last _ _ _ _ (Each _ _ E)) as (e & He & ->).
    unfold tip_from. rewrite last_lookup, length_take.
    replace (pred (covered es `min` length es)) with (interval * pred (length (snaps_at l c)) + 99)%nat
      by (unfold covered, interval in *; div_lia).
    rewrite lookup_take_lt by (unfold covered, interval in *; div_lia). by rewrite He.
  - apply lookup_ge_None in E. unfold covered. rewrite <-N.
    by replace (length (snaps_at l c)) with 0%nat by lia.
Qed.

(** The entries after the last snapshot continue the chain where it stops. *)
Lemma chain_from c l (es := log_at l c) : log_ok l ->
  chain (Z.of_nat (covered es))
    (match last (snaps_at l c) with Some n => LastEntryHash n | None => GenesisHash end) (drop (covered es) es).
Proof.
  intros K. rewrite <-(covered_tip c l K). destruct (lo_chats _ K c) as [T _ _ _]. fold es in T |- *.
  rewrite <-(take_drop (covered es) es) in T. apply chain_app in T as [_ T].
  rewrite length_take in T. by replace (0 + _) with (Z.of_nat (covered es)) in T
    by (unfold covered, interval in *; div_lia).
Qed.

Lemma tip_from_covered c l (es := log_at l c) : log_ok l ->
  tip_from (match last (snaps_at l c) with Some n => LastEntryHash n | None => GenesisHash end)
    (drop (covered es) es) = tip_hash es.
Proof.
  intros K. rewrite <-(covered_tip c l K). fold es. unfold tip_hash.
  by rewrite <-tip_from_app, take_drop.
Qed.

Lemma sync_start c l : log_ok l ->
  match last (snaps_at l c) with Some n => ToSequence n + 1 | None => 0 end = Z.of_nat (covered (log_at l c)).
Proof.
  intros [K _]. destruct (K c) as [_ _ [N Each] _]. unfold covered. rewrite <-N, last_lookup.
  destruct (snaps_at l c !! pred (length (snaps_at l c))) as [n|] eqn:E.
  - rewrite (so_to _ _ _ _ (Each _ _ E)). pose proof (lookup_lt_Some _ _ _ E). unfold interval. lia.
  - apply lookup_ge_None in E. lia.
Qed.

End Reads.
