(* ===== verification/LogContract.v ===== *)
(** * LogContract: the contract of the log

    The log as a machine: its reachable states, the abstract specification it
    refines (a list of accepted messages per chat), and the theorems about
    appending, verifying, proving inclusion, paging and catching up. *)
From S2P Require Import Prelude Codec JsonText GoTime Sha256 Models Merkle Crypto Storage Cache Broker Chatlog LogFacts LogReads.

Section Machine.
Context {S C B : Type} `{SL : StorageLaws S} `{CL : CacheLaws C} `{BL : BrokerLaws B}.
Context `{HashFunction} `{Ed25519}.
Implicit Types l : Log S C B.

(** ** The machine *)

Definition unlocked l : Prop := forall c, locks l !! c <> Some true.

(** No entry, no snapshot, no lock taken: the state [New] returns over an empty store. *)
Record fresh_log l : Prop := {
  fr_log c : log_at l c = [];
  fr_snaps c : snaps_at l c = [];
  fr_locks : unlocked l;
  fr_broker : broker_inv (broker l);
}.

(** A chat never reaches [2^64] entries. *)
Definition room l (n : nat) : Prop := forall c, Z.of_nat (length (log_at l c)) + Z.of_nat n < 2 ^ 64.

Inductive reachable l0 : Log S C B -> Prop :=
  | reach_start : reachable l0 l0
  | reach_append now msg l o l' : reachable l0 l -> room l 1 -> Append now msg l = (o, l') -> reachable l0 l'
  | reach_subscribe l o l' : reachable l0 l -> LogSubscribe l = (o, l') -> reachable l0 l'
  | reach_cancel id l o l' : reachable l0 l -> on_broker (Cancel id) l = (o, l') -> reachable l0 l'.

Definition acceptable (msg : SignedMessage) : bool :=
  supportedVersion (SchemaVersion msg) && VerifyMessage msg.

Lemma fresh_ok l : fresh_log l -> log_ok l.
Proof. intros [L N _ K]. split; [|done]. intros c. rewrite L, N. apply chat_ok_empty. Qed.

Lemma unlocked_insert l c : unlocked l -> unlocked (set_locks (<[c := false]> (locks l)) l).
Proof.
  intros U d. cbn. destruct (decide (d = c)) as [->|]; [by rewrite lookup_insert_eq|].
  by rewrite lookup_insert_ne.
Qed.

(** One append, whatever the message: refused and nothing changes, or accepted. *)
Lemma Append_cases now msg l : log_ok l -> unlocked l -> room l 1 ->
  exists l', Append now msg l =
    (if acceptable msg then Ok (new_entry (log_at l (ChatID msg)) msg)
     else Err (if supportedVersion (SchemaVersion msg) then ErrInvalidSignature else ErrUnsupportedVersion), l') /\
    log_ok l' /\ unlocked l' /\ (if acceptable msg then accepted now msg l (set_locks (locks l) l') else l' = l).
Proof.
  intros K U R. unfold acceptable.
  destruct (supportedVersion (SchemaVersion msg)) eqn:V; cbn [andb];
    [|exists l; by rewrite Append_version].
  destruct (VerifyMessage msg) eqn:Sg; [|exists l; by rewrite Append_signature].
  destruct (Append_run now msg l K V Sg (U _) (R _)) as (l' & E & A & Br).
  pose proof (accepted_ok now msg l l' K A Br V Sg (R _)) as K'.
  eexists. split; [exact E|]. split; [|split].
  - destruct K'. by split.
  - intros d. cbn. destruct (decide (d = ChatID msg)) as [->|]; [by rewrite lookup_insert_eq|].
    rewrite lookup_insert_ne by done. apply U.
  - destruct A. by split.
Qed.

Lemma reachable_ok l0 l : fresh_log l0 -> reachable l0 l -> log_ok l /\ unlocked l.
Proof.
  intros F R. induction R as [|now msg l o l' _ [K U] R E|l o l' _ [K U] E|id l o l' _ [K U] E].
  - split; [by apply fresh_ok|apply F].
  - destruct (Append_cases now msg l K U R) as (l2 & E2 & K2 & U2 & _). rewrite E in E2. by simplify_eq.
  - unfold LogSubscribe, on_broker, zoom in E. destruct K as [K Br].
    pose proof (subscribe_keeps _ Br) as Br2. destruct (Subscribe (broker l)) as [o2 b2].
    injection E as <- <-. by split.
  - unfold on_broker, zoom in E. destruct K as [K Br].
    pose proof (cancel_keeps id _ Br) as Br2. destruct (Cancel id (broker l)) as [o2 b2].
    injection E as <- <-. by split.
Qed.

(** ** The abstract specification *)

(** The messages of a chat, in order. *)
Definition messages_at l c : list SignedMessage := map Message (log_at l c).

Definition run (ms : list (Time * SignedMessage)) l : Log S C B :=
  foldl (fun l tm => (Append tm.1 tm.2 l).2) l ms.

(** What the clients of a chat agreed on: the acceptable messages, in the order they came. *)
Definition spec (ms : list (Time * SignedMessage)) (c : string) : list SignedMessage :=
  filter (fun m => acceptable m = true /\ ChatID m = c) (map snd ms).

Lemma room_weaken l n m : (m <= n)%nat -> room l n -> room l m.
Proof. intros L R c. specialize (R c). lia. Qed.

Lemma Append_messages now msg l l' o n : log_ok l -> unlocked l -> room l (Datatypes.S n) ->
  Append now msg l = (o, l') ->
  log_ok l' /\ unlocked l' /\ room l' n /\
  forall c, messages_at l' c = messages_at l c ++ spec [(now, msg)] c.
Proof.
  intros K U R E. destruct (Append_cases now msg l K U) as (l2 & E2 & K2 & U2 & A);
    [eapply room_weaken; [|done]; lia|]. rewrite E in E2. simplify_eq. split_and!; [done..| |].
  - destruct (acceptable msg); [|subst; eapply room_weaken; [|done]; lia].
    intros c. pose proof (up_log _ _ _ _ _ _ _ A c) as L. cbn in L. unfold log_at in *. cbn in L. rewrite L.
    specialize (R c). case_decide; subst; rewrite ?length_app; unfold log_at in *; cbn; lia.
  - intros c. unfold messages_at, spec. cbn [map snd]. destruct (acceptable msg) eqn:Ac.
    + pose proof (up_log _ _ _ _ _ _ _ A c) as L. unfold log_at in *. cbn in L. rewrite L.
      rewrite filter_cons. case_decide as D1; [subst c|].
      * rewrite decide_True by done. by rewrite map_app.
      * rewrite decide_False by (intros [_ ?]; done). by rewrite app_nil_r.
    + subst. rewrite filter_cons_False by (intros [? _]; congruence). by rewrite app_nil_r.
Qed.

Lemma run_messages ms l : log_ok l -> unlocked l -> room l (length ms) ->
  log_ok (run ms l) /\ unlocked (run ms l) /\
  forall c, messages_at (run ms l) c = messages_at l c ++ spec ms c.
Proof.
  revert l. induction ms as [|[now msg] ms IH]; intros l K U R; cbn [run foldl].
  - split_and!; [done..|]. intros c. by rewrite app_nil_r.
  - destruct (Append now msg l) as [o l'] eqn:E.
    destruct (Append_messages _ _ _ _ _ _ K U R E) as (K' & U' & R' & L). cbn [fst snd]. rewrite E.
    destruct (IH l' K' U' R') as (K2 & U2 & L2). split_and!; [done..|].
    intros c. unfold run in L2. rewrite L2, L, <-(assoc_L (++)). f_equal.
    unfold spec. cbn [map snd]. rewrite !filter_cons. by case_decide.
Qed.

Lemma run_reachable ms l0 l : reachable l0 l -> log_ok l -> unlocked l -> room l (length ms) ->
  reachable l0 (run ms l).
Proof.
  revert l. induction ms as [|[now msg] ms IH]; intros l Re K U R; [done|]. cbn [run foldl fst snd].
  destruct (Append now msg l) as [o l'] eqn:E.
  destruct (Append_messages _ _ _ _ _ _ K U R E) as (K' & U' & R' & _).
  apply IH; try done. eapply reach_append; [done| |done]. eapply room_weaken; [|done]. cbn. lia.
Qed.

Lemma log_at_length l c : length (log_at l c) = length (messages_at l c).
Proof. unfold messages_at. by rewrite length_map. Qed.
End Machine.

(** ** Appending *)

Section Theorems.
Context {S C B : Type} `{SL : StorageLaws S} `{CL : CacheLaws C} `{BL : BrokerLaws B}.
Context `{HashFunction} `{Ed25519}.
Implicit Types l : Log S C B.

(** C1: in every state a log reaches from an empty store by appends (accepted
    or refused), subscriptions and cancellations, the entries of every chat
    form one hash chain from the genesis hash, with contiguous sequences,
    supported versions, correct entry hashes and valid signatures, all for that
    chat; there is exactly one snapshot per 100 entries, the k-th covering
    [100k, 100k+99] with the Merkle root of those entries and the hash of the
    last; and no chat's mutex is held. *)
Theorem reachable_log_ok l0 l : fresh_log l0 -> reachable l0 l ->
  (forall c, chain 0 GenesisHash (log_at l c) /\
             Forall (fun e => ChatID (Message e) = c) (log_at l c) /\
             length (snaps_at l c) = (length (log_at l c) / 100)%nat /\
             forall k n, snaps_at l c !! k = Some n -> snap_ok c (log_at l c) k n) /\
  (forall c, locks l !! c <> Some true).
Proof.
  intros F R. destruct (reachable_ok l0 l F R) as [[K _] U]. split; [|done].
  intros c. destruct (K c) as [T Ch [N Each] _]. by split_and!.
Qed.

(** C2: [Append] on every branch.  An unsupported version and a bad signature
    are refused with their own error, version first, and change nothing; a held
    mutex blocks; otherwise the entry built on the tip is returned, and the log
    gets this entry, one snapshot exactly when its length becomes a multiple of
    100, the root of it in the cache, the events [EntryAppended] and then, with
    a snapshot, [SnapshotCreated], and a free mutex; other chats keep their
    entries and snapshots. *)
Theorem append_contract now msg l (c := ChatID msg) (es := log_at l c) (e := new_entry es msg) :
  log_ok l -> Z.of_nat (length es) + 1 < 2 ^ 64 ->
  if negb (supportedVersion (SchemaVersion msg)) then Append now msg l = (Err ErrUnsupportedVersion, l)
  else if negb (VerifyMessage msg) then Append now msg l = (Err ErrInvalidSignature, l)
  else if decide (locks l !! c = Some true) then Append now msg l = (Block, l)
  else exists l', Append now msg l = (Ok e, l') /\
    (forall d, log_at l' d = if decide (d = c) then es ++ [e] else log_at l d) /\
    (forall d, snaps_at l' d =
       if decide (d = c /\ (length es + 1) mod 100 = 0)%nat
       then snaps_at l c ++ [new_snapshot now c (es ++ [e])] else snaps_at l d) /\
    locks l' = <[c := false]> (locks l) /\
    cache l' = cached_all c (if decide ((length es + 1) mod 100 = 0)%nat
                             then [MerkleRoot (new_snapshot now c (es ++ [e]))] else []) (cache l) /\
    broker l' = published_all (entry_event c e ::
                  if decide ((length es + 1) mod 100 = 0)%nat then [snapshot_event c e] else []) (broker l).
Proof.
  intros K R. destruct (supportedVersion _) eqn:V; [|by apply Append_version].
  destruct (VerifyMessage msg) eqn:Sg; [|by apply Append_signature].
  case_decide as L; [by apply Append_blocked|]. cbn [negb].
  destruct (Append_run now msg l K V Sg L R) as (l' & E & [U1 U2 U3 U4 U5] & _).
  eexists. split; [exact E|]. unfold new_roots, new_events, snaps_after, interval in *.
  assert (length (es ++ [e]) = (length es + 1)%nat) as Le by (rewrite length_app; done).
  fold c es e in U1, U2, U4, U5. rewrite Le in U2, U4, U5.
  split_and!; [done| |done..]. intros d. etrans; [apply U2|]. fold c es e.
  destruct (decide (d = c)) as [->|].
  - destruct (decide ((length es + 1) mod 100 = 0)%nat).
    + by rewrite !decide_True.
    + by rewrite !decide_False by naive_solver.
  - by rewrite decide_False by naive_solver.
Qed.

(** C9: the log refines its specification.  After any sequence of appends, of
    good and bad messages for any chats in any order, the messages of each chat
    are the ones it had followed by the acceptable ones (supported version,
    valid signature) addressed to it, each once and in the order they came. *)
Theorem append_refines ms l c : log_ok l -> unlocked l -> room l (length ms) ->
  messages_at (run ms l) c = messages_at l c ++ spec ms c.
Proof. intros K U R. by apply run_messages. Qed.

(** ** Verifying *)

(** C27: [Verify] decides the chain: it returns valid with the number of entries
    on a hash chain from genesis, and invalid, with zero entries, on any other
    log, whatever was done to the store. *)
Theorem verify_decides_chain c l : Z.of_nat (length (log_at l c)) < 2 ^ 64 ->
  exists r, VerifyChain c l = (Ok r, l) /\
    (vr_Valid r = true <-> chain 0 GenesisHash (log_at l c)) /\
    vr_Entries r = (if vr_Valid r then Z.of_nat (length (log_at l c)) else 0).
Proof.
  intros R. eexists. split; [apply VerifyChain_run|]. split.
  - eapply VerifyChain_valid, VerifyChain_run.
  - destruct (verify_walk _ _ _); [done|]. cbn -[u64]. apply u64_id. unfold is_u64. lia.
Qed.

(** C7: the chain is tamper evident.  If two nodes verify their copies of a
    chat and report the same hash of the last entry, they hold the same
    messages with the same signatures in the same order (times as instants),
    or the bytes they hashed contain a collision of the hash function.  All
    messages of both copies must be well formed: UTF-8 in their text fields and
    a year RFC 3339 can express. *)
Theorem tamper_evidence c l l' r r' :
  VerifyChain c l = (Ok r, l) -> VerifyChain c l' = (Ok r', l') -> vr_Valid r = true -> vr_Valid r' = true ->
  Forall (fun e => well_formed (Message e)) (log_at l c) ->
  Forall (fun e => well_formed (Message e)) (log_at l' c) ->
  log_at l c <> [] -> log_at l' c <> [] ->
  Z.of_nat (length (log_at l c)) < 2 ^ 64 -> Z.of_nat (length (log_at l' c)) < 2 ^ 64 ->
  tip_hash (log_at l c) = tip_hash (log_at l' c) ->
  Forall2 same_entry (log_at l c) (log_at l' c) \/
  collides (log_bytes (log_at l c) ++ log_bytes (log_at l' c)).
Proof.
  intros E E' V V' W W' N N' L L' Et.
  apply (VerifyChain_valid _ _ _ E) in V. apply (VerifyChain_valid _ _ _ E') in V'.
  set (k := log_bytes _ ++ log_bytes _).
  assert (log_bytes (log_at l c) ⊆ k /\ log_bytes (log_at l' c) ⊆ k) as [S1 S2]
    by (split; unfold k; [by apply list_subseteq_app_l|by apply list_subseteq_app_r]).
  destruct (chain_length k (log_at l c) (log_at l' c)) as [Q|]; try done; [lia|lia| |by right].
  by destruct (chain_binds k (log_at l c) (log_at l' c)); [done..|left|right].
Qed.

(** [VerifyEntry] answers for every entry that exists, and says valid
    exactly when the entry has a supported version, its own hash, a valid
    signature and the hash of its predecessor; beyond the end it returns
    [ErrNotFound]. *)
Theorem verify_entry_contract c l q : 0 <= q -> Z.of_nat (length (log_at l c)) < 2 ^ 64 ->
  match log_at l c !! Z.to_nat q with
  | None => VerifyEntry c q l = (Err ErrNotFound, l)
  | Some e => exists r, VerifyEntry c q l = (Ok r, l) /\ mv_Sequence r = q /\
      (mv_Valid r = true <-> entry_checks (log_at l c) (Z.to_nat q) e)
  end.
Proof.
  intros Q R. destruct (log_at l c !! Z.to_nat q) as [e|] eqn:E.
  - destruct (VerifyEntry_run c l _ e E R) as (r & E1 & E2 & E3 & _).
    rewrite Z2Nat.id in E1, E2 by done. by exists r.
  - apply VerifyEntry_missing. apply lookup_ge_None in E. lia.
Qed.

(** The two verifications agree.  [Verify] says a chat is valid exactly
    when every entry sits at its own sequence and [VerifyEntry] says valid for
    each of them. *)
Theorem verify_chain_iff_entries c l r : Z.of_nat (length (log_at l c)) < 2 ^ 64 ->
  VerifyChain c l = (Ok r, l) ->
  vr_Valid r = true <->
  forall k e, log_at l c !! k = Some e -> Sequence e = Z.of_nat k /\
    exists v, VerifyEntry c (Z.of_nat k) l = (Ok v, l) /\ mv_Valid v = true.
Proof.
  intros R E. rewrite (VerifyChain_valid _ _ _ E). rewrite chain_checks by lia.
  split; intros A k e L; destruct (A k e L) as [Q V]; (split; [done|]);
    destruct (VerifyEntry_run c l k e L R) as (v & E1 & _ & E3 & _).
  - exists v. split; [done|]. by apply E3.
  - destruct V as (v' & E1' & V). rewrite E1 in E1'. injection E1' as <-. by apply E3.
Qed.

(** ** Inclusion *)

(** C8: [ProveInclusion] answers for exactly the sequences a snapshot covers.
    For those it returns the entry's hash, the root and index of the covering
    snapshot and a proof of seven 64-digit nodes that [VerifyProof] accepts; for every
    other sequence it returns [ErrNotSnapshotted]. *)
Theorem prove_inclusion_contract c q l : log_ok l -> 0 <= q ->
  if decide (q < Z.of_nat (covered (log_at l c)))
  then exists e n p, log_at l c !! Z.to_nat q = Some e /\ snaps_at l c !! Z.to_nat (q / 100) = Some n /\
    ProveInclusion c q l =
      (Ok {| ip_ChatID := c; ip_Sequence := q; ip_EntryHash := EntryHash e; ip_SnapshotIndex := q / 100;
             ip_MerkleRoot := MerkleRoot n; ip_Proof := p |}, l) /\
    VerifyProof (EntryHash e) p (MerkleRoot n) = true /\ length p = 7%nat /\
    Forall (fun x => node_hash (Hash x)) p
  else ProveInclusion c q l = (Err ErrNotSnapshotted, l).
Proof.
  intros K Q. case_decide as D; [|apply ProveInclusion_uncovered; [done..|unfold covered in D; lia]].
  unfold covered in D. set (k := Z.to_nat q). assert (q = Z.of_nat k) as Ek by (unfold k; lia).
  destruct (lookup_lt_is_Some_2 (log_at l c) k) as [e E]; [unfold interval in *; div_lia|].
  destruct (ProveInclusion_run c k l e K E) as (p & R & V & P & Pn); [unfold interval in *; lia|].
  destruct (lo_chats _ K c) as [_ _ [N Each] _].
  assert (Z.to_nat (q / 100) = (k / interval)%nat) as J by (unfold interval; div_lia).
  destruct (lookup_lt_is_Some_2 (snaps_at l c) (k / interval)) as [n Hn];
    [rewrite N; unfold interval in *; div_lia|].
  exists e, n, p. rewrite J, (so_root _ _ _ _ (Each _ _ Hn)). rewrite <-Ek in R. split_and!; try done.
  rewrite R. repeat f_equal. unfold interval. div_lia.
Qed.

(** C28: a light client that trusts a snapshot's root is not fooled.  If it
    accepts a proof of seven nodes, all 64-digit hashes, for a 64-digit hash,
    then that is the hash of an entry the snapshot covers, or the bytes hashed
    in the tree and in the proof contain a collision. *)
Theorem inclusion_sound c l j n h p : log_ok l -> snaps_at l c !! j = Some n ->
  node_hash h -> Forall (fun x => node_hash (Hash x)) p -> length p = 7%nat ->
  VerifyProof h p (MerkleRoot n) = true ->
  (exists k e, (100 * j <= k < 100 * j + 100)%nat /\ log_at l c !! k = Some e /\ EntryHash e = h) \/
  collides (tree_inputs (leaves_of (window j (log_at l c))) ++ proof_inputs h p).
Proof.
  intros [K _] E Hh Hp Lp V. destruct (K c) as [T _ [N Each] _].
  pose proof (lookup_lt_Some _ _ _ E) as L. rewrite N in L.
  rewrite (so_root _ _ _ _ (Each _ _ E)) in V. apply bool_decide_eq_true in V.
  destruct (window_leaves_run j (log_at l c)) as [_ Lw]; [unfold interval in *; div_lia|].
  destruct (run_proof_member (leaves_of (window j (log_at l c)))) with (leaf := h) (p := p) as [M|Cl]; try done.
  - by intros Nil; rewrite Nil in Lw.
  - by eapply window_nodes.
  - by rewrite Lw, Lp.
  - left. apply window_member in M as (k & e & ? & ? & ?). exists k, e. unfold interval in *. split; [lia|done].
  - by right.
Qed.

(** A snapshot commits to its window.  If two nodes whose logs keep the
    invariant hold a j-th snapshot of a chat with the same Merkle root, their
    100 entries of that window agree on sequence, previous hash, signed fields
    and signature, or the bytes they hashed contain a collision. *)
Theorem snapshot_root_binds c l l' j n n' : log_ok l -> log_ok l' ->
  snaps_at l c !! j = Some n -> snaps_at l' c !! j = Some n' ->
  Forall (fun e => well_formed (Message e)) (log_at l c) ->
  Forall (fun e => well_formed (Message e)) (log_at l' c) ->
  MerkleRoot n = MerkleRoot n' ->
  Forall2 same_entry (window j (log_at l c)) (window j (log_at l' c)) \/
  collides ((tree_inputs (leaves_of (window j (log_at l c))) ++ tree_inputs (leaves_of (window j (log_at l' c)))) ++
            log_bytes (log_at l c) ++ log_bytes (log_at l' c)).
Proof.
  intros [K _] [K' _] E E' W W' R. destruct (K c) as [T _ [N Each] Rm], (K' c) as [T' _ [N' Each'] Rm'].
  rewrite (so_root _ _ _ _ (Each _ _ E)), (so_root _ _ _ _ (Each' _ _ E')) in R.
  pose proof (lookup_lt_Some _ _ _ E) as L. pose proof (lookup_lt_Some _ _ _ E') as L'.
  destruct (window_leaves_run j (log_at l c)) as [_ Lw]; [unfold interval in *; div_lia|].
  destruct (window_leaves_run j (log_at l' c)) as [_ Lw']; [unfold interval in *; div_lia|].
  destruct (Root_binds_in (leaves_of (window j (log_at l c)))) with
    (m := leaves_of (window j (log_at l' c))) as [Q|Cl].
  - by intros Nil; rewrite Nil in Lw.
  - congruence.
  - by eapply window_nodes.
  - by eapply window_nodes.
  - done.
  - destruct (leaves_bind (log_bytes (log_at l c) ++ log_bytes (log_at l' c)) j (log_at l c) (log_at l' c))
      as [F|Cl]; try done; [by apply list_subseteq_app_l|by apply list_subseteq_app_r|by left|].
    right. eapply collides_mono; [|exact Cl]. by apply list_subseteq_app_r.
  - right. eapply collides_mono; [|exact Cl]. by apply list_subseteq_app_l.
Qed.

(** ** Paging and catching up *)

(** [History] returns the entries from [from] on, never the nil slice, at most [limit] of them
    when [limit] is positive; so the k-th entry returned is the one at position
    [from + k], and asking again from where a page ends misses nothing. *)
Theorem history_contract c from limit l : 0 <= from ->
  exists page, History c from limit l = (Ok (made page), l) /\
    (forall k, (k < length page)%nat -> page !! k = log_at l c !! (Z.to_nat from + k)%nat) /\
    drop (Z.to_nat from) (log_at l c) = page ++ drop (Z.to_nat from + length page) (log_at l c) /\
    (0 < limit -> Z.of_nat (length page) <= limit) /\
    (limit <= 0 -> page = drop (Z.to_nat from) (log_at l c)).
Proof.
  intros F. eexists. split; [by apply History_run|]. set (es := drop (Z.to_nat from) (log_at l c)).
  assert (exists n, capped limit es = take n es /\ (0 < limit -> Z.of_nat n <= limit) /\
    (limit <= 0 -> (length es <= n)%nat)) as (n & -> & B1 & B2).
  { unfold capped. destruct (Z.ltb_spec 0 limit); [exists (Z.to_nat limit)|exists (length es)];
      (split_and!; [|lia..]); [done|by rewrite firstn_all]. }
  split_and!.
  - intros k Lk. rewrite length_take in Lk. rewrite lookup_take_lt by lia. apply lookup_drop.
  - rewrite <-drop_drop. fold es. rewrite length_take.
    destruct (decide (n <= length es)%nat); [rewrite Nat.min_l by lia; by rewrite take_drop|].
    rewrite Nat.min_r, drop_all, app_nil_r, take_ge by lia. done.
  - intros P. rewrite length_take. specialize (B1 P). lia.
  - intros P. by apply take_ge, B2.
Qed.

(** The catch-up bundle is complete.  [Sync] returns the latest snapshot
    (none before the first), every entry after the ones snapshots cover, and
    the hash of the last entry; the entries continue the chain from the
    snapshot's last hash, at its next sequence, up to the current hash, so a
    client that has only the bundle can check them. *)
Theorem sync_contract c l : log_ok l ->
  exists b, Sync c l = (Ok b, l) /\ Snapshot b = last (snaps_at l c) /\
    let start := match Snapshot b with Some n => ToSequence n + 1 | None => 0 end in
    let link := match Snapshot b with Some n => LastEntryHash n | None => GenesisHash end in
    start = Z.of_nat (covered (log_at l c)) /\
    NewEntries b = made (drop (Z.to_nat start) (log_at l c)) /\
    chain start link (NewEntries b) /\ tip_from link (NewEntries b) = CurrentHash b /\
    CurrentHash b = tip_hash (log_at l c) /\ (length (NewEntries b) < 100)%nat.
Proof.
  intros K. eexists. split; [by apply Sync_run|]. split; [done|]. cbn -[covered].
  rewrite (sync_start c l K). rewrite Nat2Z.id. split_and!; try done.
  - by apply chain_from.
  - by apply tip_from_covered.
  - cbn [NewEntries elems]. rewrite length_drop. unfold covered, interval. div_lia.
Qed.
End Theorems.

(** ** Failing ports *)

Section Failures.
Context {S C B : Type} `{Storage S} `{Cache C} `{Broker B} `{HashFunction} `{Ed25519}.
Implicit Types l : Log S C B.

(** The entry [append_locked] builds on the tip a store reports. *)
Definition next_entry (tip : LogEntry) (msg : SignedMessage) : LogEntry :=
  let q := u64 (Sequence tip + 1) in
  {| Sequence := q; Message := msg; PrevHash := EntryHash tip;
     EntryHash := ComputeHash {| Sequence := q; Message := msg; PrevHash := EntryHash tip; EntryHash := "" |} |}.

Lemma Append_locked now msg l (c := ChatID msg) : acceptable msg = true -> locks l !! c <> Some true ->
  Append now msg l =
    deferring (Unlock c) (append_locked now msg) (set_locks (<[c := true]> (locks l)) l).
Proof.
  unfold acceptable, Append. intros [-> ->]%andb_true_iff N. cbn [negb].
  by rewrite (bind_assoc_run (chatLock _)), (bind_ok _ _ _ _ _ (take_lock _ l N)).
Qed.

(** Whatever the ports do, short of never returning, [Append] frees the
    mutex of its chat: after it returns or panics the mutexes are as before,
    with the chat's free (and untouched for a refused message). *)
Theorem append_releases_lock now msg l o l' : Append now msg l = (o, l') -> o <> Block ->
  locks l' = (if acceptable msg then <[ChatID msg := false]> (locks l) else locks l) /\
  (acceptable msg = true -> locks l !! ChatID msg <> Some true).
Proof.
  unfold acceptable, Append. destruct (supportedVersion _); cbn [negb andb]; [|by intros [= <- <-]].
  destruct (VerifyMessage msg); cbn [negb]; [|by intros [= <- <-]]. intros E N.
  set (c := ChatID msg) in *. set (l1 := set_locks (<[c := true]> (locks l)) l).
  assert (locks l !! c <> Some true) as F.
  { intros Hc. unfold chatLock, Lock, modify, mbind, M_bind in E. rewrite Hc, Hc in E. by injection E as <-. }
  split; [|done]. rewrite (bind_assoc_run (chatLock c)) in E.
  rewrite (bind_ok _ _ _ _ _ (take_lock c l F)) in E. unfold deferring in E.
  pose proof (append_locked_keeps now msg l1) as Kl. fold l1 in E.
  destruct (append_locked now msg l1) as [[e|e|w|] l2]; cbn in Kl; injection E as <- <-; try done;
    cbn; rewrite Kl; cbn; by rewrite insert_insert_eq.
Qed.

(** When the store refuses the entry, [Append] reports it as an [append]
    error; nothing is published or cached, no snapshot is attempted, and the
    mutex is free again. *)
Theorem append_store_error now msg l tip s1 s2 err (c := ChatID msg) :
  acceptable msg = true -> locks l !! c <> Some true ->
  LastEntry c (store l) = (Ok tip, s1) ->
  AppendEntry c (next_entry tip msg) s1 = (Err err, s2) ->
  Append now msg l = (Err (Wrapf "append" err),
    {| store := s2; cache := cache l; broker := broker l; locks := <[c := false]> (locks l) |}).
Proof.
  intros A N E1 E2. rewrite (Append_locked now msg l A N). unfold deferring, append_locked. fold c.
  erewrite bind_ok by (apply try_ok, on_store_run; exact E1). cbv beta iota.
  erewrite bind_ok by done. cbv beta iota.
  erewrite bind_err by (apply wrapping_err, on_store_run; exact E2).
  unfold Unlock, set_locks, set_store. cbn. by rewrite insert_insert_eq.
Qed.

(** When a due snapshot cannot be saved, [Append] returns a [snapshot]
    error although the entry has been stored and its event published: a client
    that retries appends the message a second time.  No root is cached, no
    [SnapshotCreated] is published, and the mutex is free again. *)
Theorem append_snapshot_error now msg l tip s1 s2 s3 s4 s5 b1 r w err (c := ChatID msg)
    (e := next_entry tip msg) :
  acceptable msg = true -> locks l !! c <> Some true ->
  LastEntry c (store l) = (Ok tip, s1) -> AppendEntry c e s1 = (Ok tt, s2) ->
  Publish (entry_event c e) (broker l) = (r, b1) -> r <> Block -> (forall why, r <> Panic why) ->
  u64 (Sequence e + 1) mod 100 = 0 ->
  LatestSnapshot c s2 = (Err ErrNotFound, s3) -> EntriesSince c 0 s3 = (Ok w, s4) ->
  SaveSnapshot {| snap_ChatID := c; SnapshotIndex := 0; FromSequence := 0; ToSequence := Sequence e;
                  MerkleRoot := Root (map EntryHash w); LastEntryHash := EntryHash e; CreatedAt := UTC now |} s4
    = (Err err, s5) ->
  Append now msg l = (Err (Wrapf "snapshot" err),
    {| store := s5; cache := cache l; broker := b1; locks := <[c := false]> (locks l) |}).
Proof.
  intros A N E1 E2 E3 R1 R2 D E4 E5 E6. rewrite (Append_locked now msg l A N).
  unfold deferring, append_locked. fold c.
  erewrite bind_ok by (apply try_ok, on_store_run; exact E1). cbv beta iota.
  erewrite bind_ok by done. cbv beta iota.
  erewrite bind_ok by (apply wrapping_ok, on_store_run; exact E2).
  match goal with |- context [try (on_broker (Publish ?ev))] => change ev with (entry_event c e) end.
  assert (forall k : Log S C B, broker k = broker l -> exists x,
    try (on_broker (Publish (entry_event c e))) k = (Ok x, set_broker b1 k)) as P.
  { intros k Hk. unfold try, on_broker, zoom. rewrite Hk, E3. destruct r; try done; [by eexists..|by destruct (R2 why)]. }
  match goal with |- context [(_ ≫= _) ?l1] => destruct (P l1 eq_refl) as [x Ex] end.
  erewrite bind_ok by exact Ex. rewrite (proj2 (Z.eqb_eq _ 0)) by exact D.
  erewrite bind_err; [|apply wrapping_err; unfold snapshot].
  2:{ erewrite bind_ok by (apply try_err, on_store_run; exact E4). cbv beta iota.
      rewrite errors_is_refl. erewrite bind_ok by done. cbv beta iota.
      erewrite bind_ok by (apply on_store_run; exact E5). erewrite bind_err; [done|].
      apply on_store_run; exact E6. }
  unfold Unlock, set_locks, set_store, set_broker. cbn. by rewrite insert_insert_eq.
Qed.
End Failures.

(** ** Concrete runs *)

Module LogSample.
Definition key : list byte := replicate 32 x41.
Definition epoch : Time := {| t_nano := 0; t_offset := 0 |}.

(** The [n]-th message of a chat, and the same signed with [key]. *)
Definition draft (c : string) (n : nat) : SignedMessage := {|
  SchemaVersion := CurrentSchemaVersion; MessageID := Dec.Itoa (Z.of_nat n); ChatID := c;
  SenderID := "alice"; Content := bytes "hello"; ContentType := ContentTypeText; Filename := "";
  Encrypted := false; Timestamp := epoch; PublicKey := key; Signature := [] |}.

Definition signed (c : string) (n : nat) : SignedMessage :=
  match SignMessage (draft c n) (ed_keys key).1 with Ok m => m | _ => draft c n end.

Definition start : Log InMemoryStorage InMemoryCache InMemoryBroker :=
  WithBroker NewInMemoryBroker (WithCache (NewInMemoryCache ∅) (NewLog NewInMemoryStorage)).

Definition script (c : string) (n : nat) : list (Time * SignedMessage) :=
  map (fun i => (epoch, signed c i)) (seq 0 n).

(** The log after [n] messages to chat [c]. *)
Definition after (c : string) (n : nat) := run (script c n) start.

Lemma signed_same c n : same_signed (signed c n) (draft c n) /\ VerifyMessage (signed c n) = true.
Proof.
  destruct (SignMessage_verifies key (draft c n)) as (m & E & S & V); [done..|].
  unfold signed. by rewrite E.
Qed.

Lemma signed_timestamp c n : Timestamp (signed c n) = epoch.
Proof. unfold signed, SignMessage. by destruct (Sign _ _). Qed.

Lemma signed_chat c n : ChatID (signed c n) = c.
Proof. apply (same_ChatID _ _ (proj1 (signed_same c n))). Qed.

Lemma signed_version c n : supportedVersion (SchemaVersion (signed c n)) = true.
Proof. by rewrite (same_SchemaVersion _ _ (proj1 (signed_same c n))). Qed.

Lemma signed_acceptable c n : acceptable (signed c n) = true.
Proof. unfold acceptable. by rewrite signed_version, (proj2 (signed_same c n)). Qed.

Lemma signed_well_formed c n : Utf8.ValidString c = true -> well_formed (signed c n).
Proof.
  intros V. destruct (signed_same c n) as [S _].
  split; rewrite ?(same_MessageID _ _ S), ?(same_ChatID _ _ S), ?(same_SenderID _ _ S),
    ?(same_ContentType _ _ S), ?(same_Filename _ _ S); try done. apply Itoa_ascii.
Qed.

Lemma start_fresh : fresh_log start.
Proof. split; [done|done|done|apply broker_ok_new]. Qed.

Lemma script_spec c n d : spec (script c n) d = if decide (d = c) then map (signed c) (seq 0 n) else [].
Proof.
  unfold spec, script. rewrite map_map. cbn [snd]. generalize (seq 0 n). intros l.
  induction l as [|i l IH]; [by case_decide|]. cbn [map]. rewrite filter_cons, IH, signed_chat.
  destruct (decide (d = c)) as [->|N].
  - by rewrite decide_True by (split; [apply signed_acceptable|done]).
  - by rewrite decide_False by (intros [_ ?]; congruence).
Qed.

Section After.
Context (c : string) (n : nat) (L : Z.of_nat n < 2 ^ 63).

Lemma small : room start (length (script c n)).
Proof. intros d. unfold script. rewrite length_map, length_seq. change (log_at start d) with (@nil LogEntry). cbn [length]. lia. Qed.

Lemma after_facts : log_ok (after c n) /\ unlocked (after c n) /\
  (forall d, messages_at (after c n) d = spec (script c n) d) /\ reachable start (after c n).
Proof.
  destruct (run_messages (script c n) start) as (K & U & E); [apply fresh_ok, start_fresh|apply start_fresh|
    apply small|]. split_and!; [done..| |].
  - intros d. unfold after. by rewrite E.
  - apply run_reachable; [constructor|apply fresh_ok, start_fresh|apply start_fresh|apply small].
Qed.

Lemma after_ok : log_ok (after c n).
Proof. apply after_facts. Qed.
Lemma after_unlocked : unlocked (after c n).
Proof. apply after_facts. Qed.
Lemma after_reachable : reachable start (after c n).
Proof. apply after_facts. Qed.

Lemma after_messages : messages_at (after c n) c = map (signed c) (seq 0 n).
Proof. destruct after_facts as (_ & _ & E & _). by rewrite E, script_spec, decide_True. Qed.

Lemma after_length : length (log_at (after c n) c) = n.
Proof. by rewrite log_at_length, after_messages, length_map, length_seq. Qed.

Lemma after_bound : Z.of_nat (length (log_at (after c n) c)) < 2 ^ 64.
Proof. rewrite after_length. lia. Qed.

Lemma after_well_formed : Utf8.ValidString c = true ->
  Forall (fun e => well_formed (Message e)) (log_at (after c n) c).
Proof.
  intros V. assert (Forall well_formed (messages_at (after c n) c)) as F; [|unfold messages_at in F; by rewrite List.Forall_map in F].
  rewrite after_messages. rewrite List.Forall_map. apply Forall_true. intros i. by apply signed_well_formed.
Qed.

Lemma after_valid : VerifyChain c (after c n) =
  (Ok {| vr_Valid := true; vr_Entries := Z.of_nat n; vr_Reason := "" |}, after c n).
Proof.
  destruct after_facts as (K & _). rewrite VerifyChain_chain by apply K. rewrite after_length.
  by rewrite u64_id by (unfold is_u64; lia).
Qed.

Lemma after_snaps : length (snaps_at (after c n) c) = (n / 100)%nat.
Proof.
  destruct after_facts as (K & _). destruct (lo_chats _ K c) as [_ _ [N _] _].
  by rewrite N, after_length.
Qed.
End After.
End LogSample.

(** A store that reports a tip at sequence 98 and refuses every entry, or
    takes entries and refuses every snapshot. *)
Module FailingStore.
Inductive refusing := RefuseEntries | RefuseSnapshots.

Definition broken : error := External "connection refused".
Definition tip : LogEntry :=
  {| Sequence := 98; Message := LogSample.draft "c" 98; PrevHash := GenesisHash; EntryHash := GenesisHash |}.

#[global] Instance refusing_storage : Storage refusing := {|
  AppendEntry _ _ s := (match s with RefuseEntries => Err broken | RefuseSnapshots => Ok tt end, s);
  LastEntry _ s := (Ok tip, s);
  Entry _ _ s := (Err ErrNotFound, s);
  EntriesSince _ _ s := (Ok (made []), s);
  SaveSnapshot _ s := (Err broken, s);
  LatestSnapshot _ s := (Err ErrNotFound, s);
  SnapshotAt _ _ s := (Err ErrNotFound, s);
|}.
End FailingStore.

Section Witnesses.
Import LogSample.
#[local] Opaque after signed.

Lemma reachable_log_ok_witness :
  reachable start (after "c" 250) /\ length (snaps_at (after "c" 250) "c") = 2%nat /\
  chain 0 GenesisHash (log_at (after "c" 250) "c").
Proof.
  split; [exact (after_reachable "c" 250 eq_refl)|]. split; [exact (after_snaps "c" 250 eq_refl)|].
  apply (reachable_log_ok start (after "c" 250) start_fresh (after_reachable "c" 250 eq_refl)).
Defined.

Lemma append_contract_witness : exists l',
  Append epoch (signed "c" 99) (after "c" 99) =
    (Ok (new_entry (log_at (after "c" 99) "c") (signed "c" 99)), l') /\
  length (snaps_at l' "c") = 1%nat /\ locks l' !! "c"%string = Some false.
Proof.
  generalize (after_ok "c" 99 eq_refl) (after_unlocked "c" 99 eq_refl) (after_length "c" 99 eq_refl)
    (after_snaps "c" 99 eq_refl) (signed_chat "c" 99) (signed_version "c" 99) (proj2 (signed_same "c" 99)).
  generalize (after "c" 99) (signed "c" 99). intros l m K U L N Cm V Sg.
  pose proof (append_contract epoch m l K) as T. cbv zeta in T. rewrite Cm, V, Sg in T. cbn [negb] in T.
  rewrite L, decide_False in T by apply U. destruct T as (l' & E & _ & N' & Lk & _); [done|].
  exists l'. split; [exact E|]. rewrite N', Lk, lookup_insert_eq, decide_True by done.
  split; [|done]. rewrite length_app, N. done.
Defined.

Lemma append_refines_witness :
  messages_at (run (script "a" 2 ++ (epoch, draft "a" 2) :: script "b" 1) start) "a" =
    [signed "a" 0; signed "a" 1].
Proof.
  etransitivity; [apply append_refines; [apply fresh_ok, start_fresh|apply start_fresh|]|].
  - intros c. change (log_at start c) with (@nil LogEntry). cbn. done.
  - vm_compute. reflexivity.
Defined.

Lemma verify_decides_chain_witness : exists r,
  VerifyChain "c" (after "c" 250) = (Ok r, after "c" 250) /\ vr_Valid r = true /\ vr_Entries r = 250.
Proof.
  generalize (after_bound "c" 250 eq_refl) (after_valid "c" 250 eq_refl) (after_length "c" 250 eq_refl).
  generalize (after "c" 250). intros l B V L.
  destruct (verify_decides_chain "c" l B) as (r & E & _ & N). exists r. rewrite N, L.
  rewrite V in E. injection E as <-. by split.
Defined.

Lemma tamper_evidence_witness :
  log_at (after "c" 3) "c" <> [] /\
  (Forall2 same_entry (log_at (after "c" 3) "c") (log_at (after "c" 3) "c") \/
   collides (log_bytes (log_at (after "c" 3) "c") ++ log_bytes (log_at (after "c" 3) "c"))).
Proof.
  generalize (after_bound "c" 3 eq_refl) (after_valid "c" 3 eq_refl) (after_length "c" 3 eq_refl)
    (after_well_formed "c" 3 eq_refl eq_refl).
  generalize (after "c" 3). intros l B V L W.
  assert (log_at l "c" <> []) as N by (intros E; by rewrite E in L). split; [done|].
  by apply (tamper_evidence "c" l l _ _ V V eq_refl eq_refl W W N N B B).
Defined.

Lemma verify_entry_contract_witness :
  (exists r, VerifyEntry "c" 1 (after "c" 3) = (Ok r, after "c" 3)) /\
  VerifyEntry "c" 3 (after "c" 3) = (Err ErrNotFound, after "c" 3).
Proof.
  generalize (after_bound "c" 3 eq_refl) (after_length "c" 3 eq_refl). generalize (after "c" 3). intros l B L.
  pose proof (verify_entry_contract "c" l 1 ltac:(done) B) as T1.
  pose proof (verify_entry_contract "c" l 3 ltac:(done) B) as T3.
  rewrite lookup_ge_None_2 in T3 by (rewrite L; done). split; [|done].
  destruct (lookup_lt_is_Some_2 (log_at l "c") (Z.to_nat 1)) as [e E]; [rewrite L; cbn; lia|].
  rewrite E in T1. destruct T1 as (r & T1 & _). by exists r.
Defined.

Lemma verify_chain_iff_entries_witness : exists e v, log_at (after "c" 3) "c" !! 1%nat = Some e /\
  Sequence e = 1 /\ VerifyEntry "c" 1 (after "c" 3) = (Ok v, after "c" 3) /\ mv_Valid v = true.
Proof.
  generalize (after_bound "c" 3 eq_refl) (after_valid "c" 3 eq_refl) (after_length "c" 3 eq_refl).
  generalize (after "c" 3). intros l B V L.
  destruct (lookup_lt_is_Some_2 (log_at l "c") 1) as [e E]; [rewrite L; lia|].
  destruct (proj1 (verify_chain_iff_entries "c" l _ B V) eq_refl 1%nat e E) as (Q & v & R & T).
  exists e, v. split; [exact E|split; [exact Q|split; [exact R|exact T]]].
Defined.

Lemma prove_inclusion_contract_witness :
  (exists p, ProveInclusion "c" 142 (after "c" 250) = (Ok p, after "c" 250) /\ length (ip_Proof p) = 7%nat) /\
  ProveInclusion "c" 200 (after "c" 250) = (Err ErrNotSnapshotted, after "c" 250).
Proof.
  generalize (after_ok "c" 250 eq_refl) (after_length "c" 250 eq_refl). generalize (after "c" 250). intros l K L.
  pose proof (prove_inclusion_contract "c" 142 l K ltac:(done)) as T1.
  pose proof (prove_inclusion_contract "c" 200 l K ltac:(done)) as T2.
  unfold covered in T1, T2. rewrite L in T1, T2.
  rewrite decide_True in T1 by done. rewrite decide_False in T2 by done. split; [|done].
  destruct T1 as (e & n & p & _ & _ & E & _ & Lp & _). eexists. by split; [exact E|].
Defined.

Lemma history_contract_witness : exists page,
  History "c" 2 2 (after "c" 5) = (Ok (made page), after "c" 5) /\ (Z.of_nat (length page) <= 2).
Proof.
  generalize (after "c" 5). intros l. destruct (history_contract "c" 2 2 l) as (page & E & _ & _ & L & _); [done|].
  exists page. split; [done|by apply L].
Defined.

Lemma sync_contract_witness : exists b n,
  Sync "c" (after "c" 250) = (Ok b, after "c" 250) /\ Snapshot b = Some n /\ ToSequence n = 199 /\
  length (NewEntries b) = 50%nat.
Proof.
  generalize (after_ok "c" 250 eq_refl) (after_length "c" 250 eq_refl). generalize (after "c" 250). intros l K L.
  destruct (sync_contract "c" l K) as (b & E & S & T & New & _).
  unfold covered in T. rewrite L in T. cbn in T.
  destruct (Snapshot b) as [n|] eqn:Sn; [|done]. exists b, n. split_and!; [done..|lia|].
  rewrite New. cbn [elems]. rewrite length_drop, L. lia.
Defined.

Lemma append_releases_lock_witness :
  locks (Append epoch (signed "c" 0) start).2 = {[ "c"%string := false ]}.
Proof.
  generalize (signed_chat "c" 0) (signed_version "c" 0) (signed_acceptable "c" 0) (proj2 (signed_same "c" 0)).
  generalize (signed "c" 0). intros m Cm V A Sg.
  destruct (Append epoch m start) as [o l'] eqn:E.
  destruct (append_releases_lock epoch m start o l' E) as [L _].
  - intros ->. destruct (Append_run epoch m start (fresh_ok _ start_fresh) V Sg) as (? & E' & _);
      [done|done|]. by rewrite E in E'.
  - cbn [snd]. rewrite L, A, Cm. done.
Defined.

Lemma inclusion_sound_witness : exists n h p,
  snaps_at (after "c" 250) "c" !! 1%nat = Some n /\ VerifyProof h p (MerkleRoot n) = true /\
  ((exists k e, (100 * 1 <= k < 100 * 1 + 100)%nat /\ log_at (after "c" 250) "c" !! k = Some e /\ EntryHash e = h) \/
   collides (tree_inputs (leaves_of (window 1 (log_at (after "c" 250) "c"))) ++ proof_inputs h p)).
Proof.
  generalize (after_ok "c" 250 eq_refl) (after_length "c" 250 eq_refl). generalize (after "c" 250). intros l K L.
  destruct (lookup_lt_is_Some_2 (log_at l "c") 142) as [e E]; [rewrite L; lia|].
  destruct (ProveInclusion_run "c" 142 l e K E) as (p & _ & V & Lp & Hp); [rewrite L; cbn; lia|].
  destruct (lo_chats _ K "c") as [T _ [N Each] _]. rewrite L in N.
  destruct (lookup_lt_is_Some_2 (snaps_at l "c") 1) as [n Hn]; [rewrite N; cbn; lia|].
  change (142 / interval)%nat with 1%nat in V. rewrite <-(so_root _ _ _ _ (Each 1%nat n Hn)) in V.
  exists n, (EntryHash e), p. split; [done|]. split; [done|].
  apply (inclusion_sound "c" l 1 n (EntryHash e) p K Hn); try done.
  rewrite <-(chain_hash _ _ _ T E). apply hexdigest_length.
Defined.

Lemma snapshot_root_binds_witness :
  Forall2 same_entry (window 0 (log_at (after "c" 100) "c")) (window 0 (log_at (after "c" 100) "c")) \/
  collides ((tree_inputs (leaves_of (window 0 (log_at (after "c" 100) "c"))) ++
             tree_inputs (leaves_of (window 0 (log_at (after "c" 100) "c")))) ++
            log_bytes (log_at (after "c" 100) "c") ++ log_bytes (log_at (after "c" 100) "c")).
Proof.
  generalize (after_ok "c" 100 eq_refl) (after_snaps "c" 100 eq_refl)
    (after_well_formed "c" 100 eq_refl eq_refl). generalize (after "c" 100). intros l K N W.
  destruct (lookup_lt_is_Some_2 (snaps_at l "c") 0) as [n Hn]; [rewrite N; cbn; lia|].
  exact (snapshot_root_binds "c" l l 0 n n K K Hn Hn W W eq_refl).
Defined.

Definition over (s : FailingStore.refusing) : Log FailingStore.refusing NoopCache NoopBroker := NewLog s.

Lemma append_store_error_witness :
  (Append epoch (signed "c" 0) (over FailingStore.RefuseEntries)).1 = Err (Wrapf "append" FailingStore.broken).
Proof.
  generalize (signed_acceptable "c" 0). generalize (signed "c" 0). intros m A.
  by rewrite (append_store_error epoch m (over FailingStore.RefuseEntries) FailingStore.tip _ _ _ A ltac:(done)
    eq_refl eq_refl).
Defined.

Lemma append_snapshot_error_witness :
  (Append epoch (signed "c" 0) (over FailingStore.RefuseSnapshots)).1 = Err (Wrapf "snapshot" FailingStore.broken).
Proof.
  generalize (signed_acceptable "c" 0). generalize (signed "c" 0). intros m A.
  by rewrite (append_snapshot_error epoch m (over FailingStore.RefuseSnapshots) FailingStore.tip _ _ _ _ _ _ _ _ _
    A ltac:(done) eq_refl eq_refl eq_refl ltac:(done) ltac:(done) eq_refl eq_refl eq_refl eq_refl).
Defined.
End Witnesses.
