(* ===== verification/Service.v ===== *)
(** * Service: the messenger facade ([internal/service/messenger.go])

    [Messenger] owns a log and forwards to it; [Submit] adds the cap on
    attachments, [DecryptContent] is the client's side of content encryption. *)
From S2P Require Import Prelude Codec JsonText GoTime Sha256 Models Merkle Crypto Storage Cache Broker Chatlog LogFacts LogReads LogContract.

(** [10 << 20] and [50 << 20]. *)
Definition MaxPhotoBytes : Z := Z.shiftl 10 20.
Definition MaxVideoBytes : Z := Z.shiftl 50 20.

Record Messenger (S C B : Type) := NewMessenger { log : Log S C B }.
Arguments NewMessenger {S C B} _.
Arguments log {S C B} _.

Section Service.
Context {S C B : Type} `{Storage S} `{Cache C} `{Broker B} `{HashFunction} `{Ed25519}.

Abbreviation MsgrM := (M (Messenger S C B)).

Definition on_log {A} : M (Log S C B) A -> MsgrM A := zoom log (fun l _ => NewMessenger l).

Definition Submit (now : Time) (msg : SignedMessage) (maxContentBytes : Z) : MsgrM LogEntry :=
  if (0 <? maxContentBytes) && (maxContentBytes <? Z.of_nat (length (Content msg)))
  then throw (New ("content exceeds " ++ fmt_d maxContentBytes ++ " bytes"))
  else on_log (Append now msg).

Definition DecryptContent `{AESGCM} (msg : SignedMessage) (contentKey : list byte) : outcome (list byte) :=
  if negb (Encrypted msg) then Ok (Content msg) else Decrypt contentKey (Content msg).

Definition MsgrHistory (chatID : string) (from limit : Z) : MsgrM (Slice LogEntry) :=
  on_log (History chatID from limit).
Definition MsgrMessage (chatID : string) (sequence : Z) : MsgrM LogEntry :=
  on_log (LogEntryAt chatID sequence).
Definition MsgrProveInclusion (chatID : string) (sequence : Z) : MsgrM InclusionProof :=
  on_log (ProveInclusion chatID sequence).
Definition MsgrVerifyMessage (chatID : string) (sequence : Z) : MsgrM MessageVerification :=
  on_log (VerifyEntry chatID sequence).
Definition MsgrVerify (chatID : string) : MsgrM VerifyResult := on_log (VerifyChain chatID).
Definition MsgrSync (chatID : string) : MsgrM SyncBundle := on_log (Sync chatID).
(** The channel; its number is also what [Cancel] takes. *)
Definition MsgrSubscribe : MsgrM nat := on_log LogSubscribe.
Definition MsgrCancel (id : nat) : MsgrM unit := on_log (on_broker (Cancel id)).

Lemma on_log_run {A} (m : M (Log S C B) A) s o l : m (log s) = (o, l) -> on_log m s = (o, NewMessenger l).
Proof. intros E. unfold on_log, zoom. by rewrite E. Qed.

Lemma on_log_read {A} (m : M (Log S C B) A) s o : m (log s) = (o, log s) -> on_log m s = (o, s).
Proof. intros E. rewrite (on_log_run _ _ _ _ E). by destruct s. Qed.

(** The attachment cap.  With a positive cap [Submit] refuses content that
    is longer, names the cap in the error and changes nothing, before any other
    check; content within the cap, and any content when the cap is not
    positive, goes to [Append]. *)
Theorem submit_contract now msg cap s :
  Submit now msg cap s =
    if decide (0 < cap < Z.of_nat (length (Content msg)))
    then (Err (New ("content exceeds " ++ Dec.Itoa cap ++ " bytes")), s)
    else let '(o, l) := Append now msg (log s) in (o, NewMessenger l).
Proof.
  unfold Submit, on_log, zoom, throw. case_decide as D.
  - by rewrite (proj2 (Z.ltb_lt _ _)), (proj2 (Z.ltb_lt _ _)) by lia.
  - destruct (Z.ltb_spec 0 cap); [|done]. by rewrite (proj2 (Z.ltb_ge _ _)) by lia.
Qed.
End Service.

Section Content.
Context `{AL : AESGCMLaws} {S C B : Type} `{Storage S} `{Cache C} `{Broker B} `{HashFunction} `{Ed25519}.

(** Client-side encryption through the service.  Content a client encrypted
    before signing decrypts to the plaintext, plain content is returned as it
    is; and since the cap is applied to what is sent, an encrypted attachment
    is refused as soon as its plaintext is longer than the cap less 28 bytes,
    although the cap is documented for the plaintext. *)
Theorem encrypted_content key nonce p m now cap (s : Messenger S C B) :
  length key = ContentKeySize -> length nonce = NonceSize ->
  Encrypt (Ok nonce) key p = Ok (Content m) -> 0 < cap ->
  DecryptContent m key = (if Encrypted m then Ok p else Ok (Content m)) /\
  (cap - 28 < Z.of_nat (length p) ->
   Submit now m cap s = (Err (New ("content exceeds " ++ Dec.Itoa cap ++ " bytes")), s)) /\
  (Z.of_nat (length p) <= cap - 28 ->
   Submit now m cap s = let '(o, l) := Append now m (log s) in (o, NewMessenger l)).
Proof.
  intros Lk Ln E P. unfold Encrypt, newGCM in E. rewrite bool_decide_eq_true_2 in E by done.
  cbn [negb mbind outcome_bind] in E. injection E as E.
  assert (length (Content m) = length p + 28)%nat as L.
  { rewrite <-E, length_app, gcm_seal_length, Ln by done. unfold NonceSize, Overhead. lia. }
  split.
  - unfold DecryptContent. destruct (Encrypted m); [|done]. cbn [negb]. unfold Decrypt, newGCM.
    rewrite bool_decide_eq_true_2, <-E by done. cbn [negb mbind outcome_bind].
    rewrite (proj2 (Nat.ltb_ge _ _)) by (rewrite length_app; lia).
    by rewrite take_app_length', drop_app_length', gcm_open_seal by done.
  - unfold Submit, on_log, zoom, throw. rewrite L, (proj2 (Z.ltb_lt 0 cap)) by done. cbn [andb].
    split; intros G; [by rewrite (proj2 (Z.ltb_lt _ _)) by lia|by rewrite (proj2 (Z.ltb_ge _ _)) by lia].
Qed.
End Content.

(** The sample message with its content encrypted. *)
Definition sealed_hello : SignedMessage := {|
  SchemaVersion := 1; MessageID := ""; ChatID := "c1"; SenderID := "alice";
  Content := replicate 12 x00 ++ gcm_seal (replicate 32 x41) (replicate 12 x00) (bytes "hello");
  ContentType := ContentTypeText; Filename := ""; Encrypted := true; Timestamp := ModelSample.noon;
  PublicKey := replicate 32 x41; Signature := [x00] |}.

Lemma encrypted_content_witness :
  DecryptContent sealed_hello (replicate 32 x41) = Ok (bytes "hello") /\
  (Submit ModelSample.noon sealed_hello 32 (NewMessenger LogSample.start)).1 =
    Err (New "content exceeds 32 bytes").
Proof.
  destruct (encrypted_content (replicate 32 x41) (replicate 12 x00) (bytes "hello") sealed_hello
    ModelSample.noon 32 (NewMessenger LogSample.start) eq_refl eq_refl eq_refl ltac:(lia)) as (D & Over & _).
  split; [exact D|]. rewrite Over by (cbn; lia). reflexivity.
Defined.
