(* ===== verification/RateLimit.v ===== *)
(** * RateLimit: token buckets per client ([internal/ratelimit/limiter.go])

    [Limiter] keeps one limiter of [golang.org/x/time/rate] per key and evicts
    the keys not used for a while.  The package [rate] is not modelled: a class
    gives its constructor and its [Allow].  The mutex makes each method one
    atomic step; a run is a sequence of requests and of ticks of the background
    goroutine ([decisions]), and what it decides for a key is stated by the
    key's [sessions].  That an evicted bucket had filled up again, so that
    eviction shows in no decision, needs what the package documents of a bucket
    left alone ([refills]); [BucketSample] is a bucket of which it holds. *)
From stdpp Require Import sorting.
From S2P Require Import Prelude GoTime.

(** [rate.NewLimiter] and [Allow] of a [rate.Limiter], which reads the clock. *)
Class RateLimiter := {
  rate_Limit : Type;
  rate_Limiter : Type;
  rate_NewLimiter : rate_Limit -> Z -> rate_Limiter;
  rate_Allow : Time -> rate_Limiter -> bool * rate_Limiter;
}.

Section Limiter.
Context `{RateLimiter}.

Record bucket := { limiter : rate_Limiter; lastSeen : Time }.

Record Limiter := {
  rps : rate_Limit;
  burst : Z;
  idle : Z;                       (**r a [time.Duration], in nanoseconds *)
  buckets : gmap string bucket;
  done_closed : bool;             (**r whether the channel [done] is closed *)
  looping : bool;                 (**r whether the goroutine of [New] still runs *)
}.

Definition set_buckets (b : gmap string bucket) (l : Limiter) : Limiter :=
  {| rps := rps l; burst := burst l; idle := idle l; buckets := b;
     done_closed := done_closed l; looping := looping l |}.

(** [New]; the goroutine it starts panics in [time.NewTicker] on an interval
    that is not positive, which ends the process. *)
Definition NewLimiter (r : rate_Limit) (b idleTimeout : Z) : outcome Limiter :=
  if idleTimeout <=? 0 then Panic "non-positive interval for NewTicker"
  else Ok {| rps := r; burst := b; idle := idleTimeout; buckets := ∅;
             done_closed := false; looping := true |}.

(** [now] is the [time.Now()] of [lastSeen], [now'] the one of the bucket. *)
Definition Allow (now now' : Time) (key : string) : M Limiter bool := fun l =>
  let b := default {| limiter := rate_NewLimiter (rps l) (burst l); lastSeen := now |} (buckets l !! key) in
  let '(ok, lim) := rate_Allow now' (limiter b) in
  (Ok ok, set_buckets (<[key := {| limiter := lim; lastSeen := now |}]> (buckets l)) l).

Definition Close : M Limiter unit := fun l =>
  if done_closed l then (Panic "close of closed channel", l)
  else (Ok tt, {| rps := rps l; burst := burst l; idle := idle l; buckets := buckets l;
                  done_closed := true; looping := looping l |}).

(** [for k, b := range l.buckets { if b.lastSeen.Before(cutoff) { delete } }] *)
Definition evictIdle (now : Time) : M Limiter unit := modify (fun l =>
  let cutoff := Add now (- idle l) in
  set_buckets (filter (fun kb => Before (lastSeen kb.2) cutoff = false) (buckets l)) l).

(** One turn of [evictLoop]: a tick, or the closed channel. *)
Inductive loop_step (l : Limiter) : Limiter -> Prop :=
  | loop_tick now : looping l = true -> loop_step l (evictIdle now l).2
  | loop_done : looping l = true -> done_closed l = true ->
      loop_step l {| rps := rps l; burst := burst l; idle := idle l; buckets := buckets l;
                     done_closed := true; looping := false |}.

(** ** Runs of the limiter

While the node serves, requests and the ticks of the goroutine of [New]
follow each other in any order; the mutex makes each of them one step.  A
tick reads its clock before it takes the mutex. *)

Record call := { c_now : Time; c_now' : Time; c_key : string }.

Definition allow (c : call) : M Limiter bool := Allow (c_now c) (c_now' c) (c_key c).

Inductive event :=
  | Asks (c : call)      (**r a request: [Allow] *)
  | Ticks (now : Time).  (**r a tick of [evictLoop]: [evictIdle] *)

(** The decisions of a run, and the state after it. *)
Fixpoint decisions (evs : list event) (l : Limiter) : list (string * bool) * Limiter :=
  match evs with
  | [] => ([], l)
  | Asks c :: r =>
      let '(o, l1) := allow c l in
      let '(ds, l2) := decisions r l1 in
      ((c_key c, match o with Ok b => b | _ => false end) :: ds, l2)
  | Ticks now :: r => decisions r (evictIdle now l).2
  end.

Definition decided (key : string) (evs : list event) (l : Limiter) : list bool :=
  (filter (fun d => d.1 = key) (decisions evs l).1).*2.

(** ** What a key should be told *)

(** The decisions of one bare [rate.Limiter] asked at the given times. *)
Fixpoint bare (ts : list Time) (b : rate_Limiter) : list bool :=
  match ts with
  | [] => []
  | t :: r => let '(ok, b') := rate_Allow t b in ok :: bare r b'
  end.

(** When the key asks. *)
Definition times_of (key : string) (evs : list event) : list Time :=
  evs ≫= fun ev => match ev with
    | Asks c => if decide (c_key c = key) then [c_now' c] else []
    | Ticks _ => []
    end.

(** Last seen at [seen], the key is idle for a tick at [now]. *)
Definition idle_at (idleTimeout : Z) (seen : option Time) (now : Time) : bool :=
  match seen with Some t => t_nano t <? t_nano now - idleTimeout | None => false end.

(** The times of a key, cut where a tick finds it idle; [seen] is when it was
    seen last, if it has a bucket. *)
Fixpoint sessions (key : string) (idleTimeout : Z) (seen : option Time) (evs : list event) : list (list Time) :=
  match evs with
  | [] => [[]]
  | Asks c :: r =>
      if decide (c_key c = key) then
        match sessions key idleTimeout (Some (c_now c)) r with
        | s :: ss => (c_now' c :: s) :: ss
        | [] => []
        end
      else sessions key idleTimeout seen r
  | Ticks now :: r =>
      if idle_at idleTimeout seen now then [] :: sessions key idleTimeout None r
      else sessions key idleTimeout seen r
  end.

(** When the key was seen last. *)
Definition last_seen (key : string) (evs : list event) : option Time :=
  last (evs ≫= fun ev => match ev with
    | Asks c => if decide (c_key c = key) then [c_now c] else []
    | Ticks _ => []
    end).

Lemma sessions_cons key i seen evs : exists s ss, sessions key i seen evs = s :: ss.
Proof.
  revert seen. induction evs as [|[c|now] evs IH]; intros seen; cbn [sessions]; [by do 2 eexists| |].
  - case_decide; [|apply IH]. destruct (IH (Some (c_now c))) as (s & ss & ->). by do 2 eexists.
  - case_match; [by do 2 eexists|apply IH].
Qed.

(** The sessions are the times of the key, in order. *)
Lemma concat_sessions key i seen evs : concat (sessions key i seen evs) = times_of key evs.
Proof.
  revert seen. induction evs as [|[c|now] evs IH]; intros seen; cbn [sessions]; [done| |].
  - unfold times_of. cbn. fold (times_of key evs). case_decide; [|apply IH]. rewrite <-(IH (Some (c_now c))).
    by destruct (sessions_cons key i (Some (c_now c)) evs) as (s & ss & ->).
  - case_match; cbn; apply IH.
Qed.

Lemma last_seen_snoc key evs c : c_key c = key -> last_seen key (evs ++ [Asks c]) = Some (c_now c).
Proof. intros E. unfold last_seen. rewrite bind_app. cbn. rewrite decide_True by done. cbn. by rewrite last_snoc. Qed.

Lemma last_seen_other key evs ev : (forall c, ev = Asks c -> c_key c <> key) -> last_seen key (evs ++ [ev]) = last_seen key evs.
Proof.
  intros N. unfold last_seen. rewrite bind_app. destruct ev as [c|now]; cbn; [|by rewrite app_nil_r].
  rewrite decide_False by exact (N c eq_refl). cbn. by rewrite app_nil_r.
Qed.

(** No tick finds the key idle. *)
Definition never_idle (key : string) (idleTimeout : Z) (evs : list event) : Prop :=
  forall pre now post, evs = pre ++ Ticks now :: post -> idle_at idleTimeout (last_seen key pre) now = false.

Lemma one_session key i pre evs : never_idle key i (pre ++ evs) ->
  sessions key i (last_seen key pre) evs = [times_of key evs].
Proof.
  revert pre. induction evs as [|[c|now] evs IH]; intros pre N; [done| |]; cbn [sessions].
  - specialize (IH (pre ++ [Asks c])). rewrite <-(assoc_L app) in IH. specialize (IH N).
    unfold times_of. cbn. fold (times_of key evs). case_decide as D.
    + rewrite last_seen_snoc in IH by done. by rewrite IH.
    + rewrite last_seen_other in IH by (by intros ? [= <-]). exact IH.
  - rewrite (N pre now evs eq_refl). rewrite <-(last_seen_other key pre (Ticks now)) by done.
    apply IH. by rewrite <-(assoc_L app).
Qed.

(** ** The limiter does that *)

Definition bucket_of (key : string) (l : Limiter) : rate_Limiter :=
  match buckets l !! key with Some b => limiter b | None => rate_NewLimiter (rps l) (burst l) end.
Definition seen_of (key : string) (l : Limiter) : option Time := lastSeen <$> buckets l !! key.

Record same_settings (l l' : Limiter) : Prop := {
  ss_rps : rps l' = rps l; ss_burst : burst l' = burst l; ss_idle : idle l' = idle l;
}.

Lemma allow_run c l : exists l',
  allow c l = (Ok (rate_Allow (c_now' c) (bucket_of (c_key c) l)).1, l') /\ same_settings l l' /\
  (forall k, bucket_of k l' =
     if decide (k = c_key c) then (rate_Allow (c_now' c) (bucket_of (c_key c) l)).2 else bucket_of k l) /\
  (forall k, seen_of k l' = if decide (k = c_key c) then Some (c_now c) else seen_of k l).
Proof.
  unfold allow, Allow, bucket_of, seen_of. destruct (buckets l !! c_key c) as [b|]; cbn;
    (destruct (rate_Allow _ _) as [ok lim]; eexists; split; [done|]; split; [done|];
     split; intros k; cbn; (destruct (decide (k = c_key c)) as [->|N];
       [by rewrite lookup_insert_eq|by rewrite lookup_insert_ne])).
Qed.

(** [evictIdle] forgets the bucket of a key exactly when it is idle. *)
Lemma evict_run now l : let l' := (evictIdle now l).2 in same_settings l l' /\ forall k,
  bucket_of k l' = (if idle_at (idle l) (seen_of k l) now then rate_NewLimiter (rps l) (burst l) else bucket_of k l) /\
  seen_of k l' = (if idle_at (idle l) (seen_of k l) now then None else seen_of k l).
Proof.
  split; [done|]. intros k. unfold bucket_of, seen_of. cbn. rewrite map_lookup_filter.
  destruct (buckets l !! k) as [b|]; [|done]. cbn. unfold Before, Add. cbn.
  replace (t_nano now + - idle l) with (t_nano now - idle l) by lia.
  destruct (_ <? _); [by rewrite option_guard_False by done|by rewrite option_guard_True by done].
Qed.

Lemma decided_sessions key evs l (fresh := rate_NewLimiter (rps l) (burst l)) :
  match sessions key (idle l) (seen_of key l) evs with
  | s :: ss => decided key evs l = bare s (bucket_of key l) ++ concat (map (fun ts => bare ts fresh) ss)
  | [] => False
  end.
Proof.
  subst fresh. revert l. unfold decided. induction evs as [|[c|now] evs IH]; intros l; [done| |]; cbn [sessions decisions].
  - destruct (allow_run c l) as (l1 & E & [Rp Bu Id] & B & Sn). rewrite E. specialize (IH l1).
    rewrite Rp, Bu, Id, B, Sn in IH. destruct (decisions evs l1) as [ds l2]. cbn [fst] in *.
    rewrite filter_cons. cbn [fst]. destruct (decide (c_key c = key)) as [<-|Ne].
    + rewrite !decide_True in IH by done. destruct (sessions _ _ _ _) as [|s ss]; [done|].
      cbn. rewrite IH. by destruct (rate_Allow _ _).
    + by rewrite !decide_False in IH by done.
  - destruct (evict_run now l) as [[Rp Bu Id] Ev]. specialize (IH (evictIdle now l).2). destruct (Ev key) as [Bk Sn].
    rewrite Rp, Bu, Id, Sn, Bk in IH. destruct (idle_at _ _ _); [|done].
    destruct (sessions _ _ None _) as [|s ss]; [done|]. by rewrite IH.
Qed.

Lemma new_limiter r b i l : NewLimiter r b i = Ok l ->
  rps l = r /\ burst l = b /\ idle l = i /\ forall k, seen_of k l = None /\ bucket_of k l = rate_NewLimiter r b.
Proof. unfold NewLimiter. destruct (i <=? 0); [done|]. by intros [= <-]. Qed.

Lemma decided_new r b i l key evs : NewLimiter r b i = Ok l ->
  decided key evs l = concat (map (fun ts => bare ts (rate_NewLimiter r b)) (sessions key i None evs)).
Proof.
  intros (<- & <- & <- & F)%new_limiter. destruct (F key) as [Sn Bk]. pose proof (decided_sessions key evs l) as D.
  rewrite Sn, Bk in D. by destruct (sessions _ _ _ _).
Qed.

(** C36: clients do not share a budget.  Let requests and the ticks of the
    eviction goroutine follow each other in any order.  The decisions for one
    key are, session by session, those of a single fresh [rate.Limiter] with
    the configured rate and burst, asked at that key's times, whatever the
    other keys do in between; the sessions are the key's requests in order, cut
    exactly at the ticks that find it not seen for more than the idle time; and
    when no tick does, one limiter decides all of them. *)
Theorem allow_per_key r b idleTimeout l evs key : NewLimiter r b idleTimeout = Ok l ->
  decided key evs l = concat (map (fun ts => bare ts (rate_NewLimiter r b)) (sessions key idleTimeout None evs)) /\
  concat (sessions key idleTimeout None evs) = times_of key evs /\
  (never_idle key idleTimeout evs -> decided key evs l = bare (times_of key evs) (rate_NewLimiter r b)).
Proof.
  intros N. split; [by apply decided_new|]. split; [apply concat_sessions|]. intros I.
  rewrite (decided_new _ _ _ _ _ _ N). assert (sessions key idleTimeout None evs = [times_of key evs]) as ->
    by exact (one_session key idleTimeout [] evs I). cbn. by rewrite app_nil_r.
Qed.

(** ** Eviction and the token bucket

[golang.org/x/time/rate] documents a limiter as a bucket that starts full
and is refilled at its rate: left alone for as long as it takes to fill, it
decides like a new one. *)

Definition no_later (t u : Time) : Prop := t_nano t <= t_nano u.
Definition apart (d : Z) (ts us : list Time) : Prop := forall t u, t ∈ ts -> u ∈ us -> t_nano t + d <= t_nano u.

Definition refills (r : rate_Limit) (b d : Z) : Prop := forall ts us,
  StronglySorted no_later (ts ++ us) -> apart d ts us ->
  bare (ts ++ us) (rate_NewLimiter r b) = bare ts (rate_NewLimiter r b) ++ bare us (rate_NewLimiter r b).

(** A run by one clock: a request reads it twice, at most [gap] apart and under
    the mutex; nothing that comes after a tick is asked before the tick's time. *)
Definition read_after (a b : event) : Prop :=
  match a, b with
  | Asks c, Asks d => no_later (c_now' c) (c_now d)
  | Ticks now, Asks d => no_later now (c_now d)
  | _, Ticks _ => True
  end.
Definition prompt (gap : Z) (ev : event) : Prop :=
  match ev with Asks c => t_nano (c_now c) <= t_nano (c_now' c) <= t_nano (c_now c) + gap | Ticks _ => True end.
Record clocked (gap : Z) (evs : list event) : Prop := {
  ck_order : StronglySorted read_after evs;
  ck_prompt : Forall (prompt gap) evs;
}.

Lemma times_of_elem key evs t : t ∈ times_of key evs -> exists c, Asks c ∈ evs /\ t = c_now' c.
Proof.
  unfold times_of. intros (ev & T & I)%list_elem_of_bind. destruct ev as [c|]; [|by apply elem_of_nil in T].
  case_decide; [|by apply elem_of_nil in T]. apply list_elem_of_singleton in T. by exists c.
Qed.

Lemma clocked_cons gap ev evs : clocked gap (ev :: evs) ->
  clocked gap evs /\ prompt gap ev /\ forall e, e ∈ evs -> read_after ev e /\ prompt gap e.
Proof.
  intros [[So F]%StronglySorted_inv [P Ps]%Forall_cons]. split; [done|]. split; [done|].
  rewrite Forall_forall in F, Ps. intros e I. split; [by apply F|by apply Ps].
Qed.

Lemma times_sorted gap key evs : clocked gap evs -> StronglySorted no_later (times_of key evs).
Proof.
  induction evs as [|[c|now] evs IH]; intros K; [constructor| |]; destruct (clocked_cons _ _ _ K) as (K' & P & A).
  - unfold times_of. cbn. fold (times_of key evs). case_decide; [|by apply IH]. constructor; [by apply IH|].
    apply Forall_forall. intros t (d & I & ->)%times_of_elem. destruct (A _ I) as [R Pd].
    unfold no_later in *. cbn in *. unfold no_later in *. lia.
  - by apply IH.
Qed.

(** What comes after the first cut is asked after the idle time. *)
Lemma after_cut gap key i t evs s ss : clocked gap evs -> (forall c, Asks c ∈ evs -> no_later t (c_now c)) ->
  sessions key i (Some t) evs = s :: ss -> forall u, u ∈ concat ss -> t_nano t + i < t_nano u.
Proof.
  revert t s ss. induction evs as [|[c|now] evs IH]; intros t s ss K A E u U; cbn [sessions] in E.
  - simplify_eq. by apply elem_of_nil in U.
  - destruct (clocked_cons _ _ _ K) as (K' & P & R). assert (forall d, Asks d ∈ evs -> no_later (c_now c) (c_now d)) as A'.
    { intros d I. destruct (R _ I) as [Rd _]. cbn in Rd, P. unfold no_later in *. lia. }
    case_decide; [|eapply (IH t); [done| |done|done]; intros d I; apply A; by right].
    destruct (sessions key i (Some (c_now c)) evs) as [|s' ss'] eqn:E'; [done|]. simplify_eq.
    pose proof (IH _ _ _ K' A' E' u U) as L. pose proof (A c (list_elem_of_here _ _)) as Tc. unfold no_later in Tc. lia.
  - destruct (clocked_cons _ _ _ K) as (K' & _ & R). cbn [idle_at] in E.
    destruct (Z.ltb_spec (t_nano t) (t_nano now - i)); [|eapply (IH t); [done| |done|done]; intros d I; apply A; by right].
    simplify_eq. rewrite concat_sessions in U. apply times_of_elem in U as (d & I & ->).
    destruct (R _ I) as [Rd Pd]. cbn in Rd, Pd. unfold no_later in Rd. lia.
Qed.

Fixpoint all_apart (d : Z) (ss : list (list Time)) : Prop :=
  match ss with [] => True | s :: r => apart d s (concat r) /\ all_apart d r end.

Lemma sessions_apart gap key i d seen evs : clocked gap evs -> d + gap <= i -> all_apart d (sessions key i seen evs).
Proof.
  intros K D. revert seen K. induction evs as [|[c|now] evs IH]; intros seen K; cbn [sessions].
  - split; [by intros t u T%elem_of_nil|done].
  - destruct (clocked_cons _ _ _ K) as (K' & P & R). case_decide; [|by apply IH].
    pose proof (IH (Some (c_now c)) K') as Ih. destruct (sessions key i (Some (c_now c)) evs) as [|s ss] eqn:E; [done|].
    destruct Ih as [Ap Aps]. split; [|done]. intros t u [->|T]%elem_of_cons U; [|by apply Ap].
    assert (forall e, Asks e ∈ evs -> no_later (c_now c) (c_now e)) as A.
    { intros e I. destruct (R _ I) as [Re _]. cbn in Re, P. unfold no_later in *. lia. }
    pose proof (after_cut gap key i _ _ _ _ K' A E u U). cbn in P. lia.
  - destruct (clocked_cons _ _ _ K) as (K' & _ & _). case_match; [|by apply IH].
    split; [by intros t u T%elem_of_nil|by apply IH].
Qed.

Lemma refilled r b d ss : refills r b d -> StronglySorted no_later (concat ss) -> all_apart d ss ->
  bare (concat ss) (rate_NewLimiter r b) = concat (map (fun ts => bare ts (rate_NewLimiter r b)) ss).
Proof.
  intros F. induction ss as [|s ss IH]; [done|]. cbn. intros So [Ap Aps]. rewrite F by done.
  rewrite IH; [done|by eapply StronglySorted_app_1_r|done].
Qed.

(** C37: eviction takes nothing and gives nothing away.  Let the bucket of
    [golang.org/x/time/rate] be full again when it is left alone for [d], as
    its documentation says with [d] the time that [burst] tokens take, and let
    the idle time be longer than [d], by at least the time between the two
    clock readings of a request.  Then in every run by one clock, with any
    requests of any keys and any ticks, the decisions for a key are those of one
    single [rate.Limiter] that is never evicted. *)
Theorem eviction_invisible r b idleTimeout d gap l evs key : NewLimiter r b idleTimeout = Ok l ->
  refills r b d -> d + gap <= idleTimeout -> clocked gap evs ->
  decided key evs l = bare (times_of key evs) (rate_NewLimiter r b).
Proof.
  intros N F D K. rewrite (decided_new _ _ _ _ _ _ N), <-(concat_sessions key idleTimeout None evs).
  symmetry. apply (refilled r b d); [done| |by apply (sessions_apart gap)].
  rewrite concat_sessions. by apply (times_sorted gap).
Qed.

(** Eviction.  [evictIdle] removes exactly the keys not used for more than
    the idle time; a key used within it keeps its bucket, and a removed one
    starts again with a full bucket. *)
Theorem evict_exact now l :
  exists l', evictIdle now l = (Ok tt, l') /\
    forall k, buckets l' !! k =
      match buckets l !! k with
      | Some b => if decide (t_nano (lastSeen b) < t_nano now - idle l) then None else Some b
      | None => None
      end.
Proof.
  eexists. split; [done|]. intros k. cbn. rewrite map_lookup_filter.
  destruct (buckets l !! k) as [b|]; [|done]. cbn. unfold Before, Add. cbn.
  destruct (Z.ltb_spec (t_nano (lastSeen b)) (t_nano now + - idle l)).
  - rewrite decide_True by lia. by rewrite option_guard_False by done.
  - rewrite decide_False by lia. by rewrite option_guard_True by done.
Qed.

(** The life of the goroutine.  A non-positive idle time panics at once;
    otherwise the loop runs until [Close], which succeeds once and panics the
    second time, and after it has ended nothing is evicted any more. *)
Theorem limiter_lifecycle r b idleTimeout :
  (idleTimeout <= 0 -> exists why, NewLimiter r b idleTimeout = Panic why) /\
  (0 < idleTimeout -> exists l, NewLimiter r b idleTimeout = Ok l /\ looping l = true /\ buckets l = ∅) /\
  (forall l l', loop_step l l' -> looping l = true /\ (looping l' = false -> done_closed l = true)) /\
  (forall l, done_closed l = false -> exists l' why,
     Close l = (Ok tt, l') /\ buckets l' = buckets l /\ Close l' = (Panic why, l')).
Proof.
  split_and!.
  - intros I. unfold NewLimiter. rewrite (proj2 (Z.leb_le _ _)) by done. by eexists.
  - intros I. unfold NewLimiter. rewrite (proj2 (Z.leb_gt _ _)) by done. by eexists.
  - intros l l' [now L|L D]; [|done]. split; [done|]. cbn. congruence.
  - intros l D. unfold Close. rewrite D. do 2 eexists. split; [done|]. by cbn.
Qed.
End Limiter.

(** ** A token bucket

    Tokens are counted in billionths; the rate is in whole tokens a second, so
    a nanosecond brings [r] of them. *)

Module BucketSample.
Definition token : Z := 10 ^ 9.

Record tokens := { tk_rate : Z; tk_full : Z; tk_left : Z; tk_last : Z }.

Definition refill (t : Time) (k : tokens) : Z :=
  Z.min (tk_full k) (tk_left k + Z.max 0 (t_nano t - tk_last k) * tk_rate k).

#[export] Instance token_bucket : RateLimiter := {|
  rate_Limit := Z; rate_Limiter := tokens;
  rate_NewLimiter r b := {| tk_rate := r; tk_full := b * token; tk_left := b * token; tk_last := 0 |};
  rate_Allow t k :=
    let left := refill t k in
    let ok := token <=? left in
    (ok, {| tk_rate := tk_rate k; tk_full := tk_full k; tk_left := if ok then left - token else left;
            tk_last := t_nano t |}) |}.

Fixpoint after (ts : list Time) (k : tokens) : tokens :=
  match ts with [] => k | t :: r => after r (rate_Allow t k).2 end.

Lemma bare_app ts us k : bare (ts ++ us) k = bare ts k ++ bare us (after ts k).
Proof. revert k. induction ts as [|t ts IH]; intros k; [done|]. cbn. by rewrite IH. Qed.

Record sane (r b : Z) (k : tokens) : Prop := {
  sn_rate : tk_rate k = r; sn_full : tk_full k = b * token; sn_left : 0 <= tk_left k;
}.

Lemma after_sane r b ts k : 0 <= r -> 0 <= b -> sane r b k -> sane r b (after ts k).
Proof.
  intros R B. revert k. induction ts as [|t ts IH]; intros k [Kr Kf Kl]; [done|]. cbn. apply IH.
  assert (0 <= refill t k) as P by (unfold refill, token in *; rewrite Kr, Kf; nia).
  split; cbn; [done..|]. destruct (Z.leb_spec token (refill t k)); lia.
Qed.

Lemma last_asked ts t k : tk_last (after (ts ++ [t]) k) = t_nano t.
Proof. revert k. induction ts as [|u ts IH]; intros k; [done|]. cbn. apply IH. Qed.

(** It is full again after [d] when [d] brings all its tokens. *)
Lemma bucket_refills r b d : 0 <= r -> 0 <= b -> b * token <= d * r -> 0 <= d ->
  refills r b d.
Proof.
  intros R B Full D ts us _ Ap. rewrite bare_app. f_equal.
  destruct us as [|u us]; [done|]. destruct ts as [|t ts _] using rev_ind; [done|].
  set (new := rate_NewLimiter (RateLimiter := token_bucket) r b). assert (sane r b new) as Sn by (split; cbn; unfold token; nia).
  pose proof (after_sane r b (ts ++ [t]) new R B Sn) as [Kr Kf Kl]. pose proof (last_asked ts t new) as La.
  assert (t_nano t + d <= t_nano u) as Far by (apply Ap; [apply elem_of_app; right|]; by left).
  set (k := after (ts ++ [t]) new) in *.
  assert (refill u k = b * token) as E1 by (unfold refill; rewrite Kr, Kf, La; nia).
  assert (refill u new = b * token) as E2 by (unfold refill, new; cbn; nia).
  cbn [bare]. cbn -[refill new]. rewrite E1, E2, Kr, Kf. done.
Qed.
End BucketSample.

Section Witnesses.
Import BucketSample.

Definition at_ms (n : Z) : Time := {| t_nano := n * Millisecond; t_offset := 0 |}.
Definition asks_at (key : string) (n : Z) : event := Asks {| c_now := at_ms n; c_now' := at_ms n; c_key := key |}.

(** Two tokens at one a second: both spent at once, the key is refused; after a
    tick that finds it idle it has two again. *)
Definition busy_minutes : list event :=
  [asks_at "a" 0; asks_at "b" 1; asks_at "a" 2; asks_at "a" 3; asks_at "b" 59000; Ticks (at_ms 60500);
   asks_at "a" 60501; asks_at "a" 60502; asks_at "a" 60503].

Lemma busy_minutes_clocked : clocked 0 busy_minutes.
Proof. split; repeat constructor; vm_compute; discriminate. Qed.

Lemma allow_per_key_witness : exists l, @NewLimiter token_bucket 1 2 Minute = Ok l /\
  decided "a" busy_minutes l = [true; true; false; true; true; false] /\
  map length (sessions "a" Minute None busy_minutes) = [3; 3]%nat /\
  map length (sessions "b" Minute None busy_minutes) = [2]%nat.
Proof.
  eexists. split; [reflexivity|]. split; [|split; vm_compute; reflexivity].
  rewrite (proj1 (@allow_per_key token_bucket 1 2 Minute _ busy_minutes "a" eq_refl)). vm_compute. reflexivity.
Defined.

(** It needs the idle time to be longer than the bucket takes to fill.  Of a
    hundred tokens at one a second, all spent, a minute brings sixty back; a
    tick in between brings all hundred. *)
Definition hundred (n : Z) : list event := replicate 100 (asks_at "a" n).
Definition granted (ds : list bool) : nat := length (filter (fun d => d = true) ds).

Lemma early_eviction : exists l, @NewLimiter token_bucket 1 100 Minute = Ok l /\
  let evs := hundred 0 ++ [Ticks (at_ms 60500)] ++ hundred 60501 in
  granted (decided "a" evs l) = 200%nat /\
  granted (bare (times_of "a" evs) (@rate_NewLimiter token_bucket 1 100)) = 160%nat.
Proof. eexists. split; [reflexivity|]. vm_compute. done. Qed.

(** The same run: two seconds fill the bucket, and it is left alone for a minute. *)
Lemma eviction_invisible_witness : exists l, @NewLimiter token_bucket 1 2 Minute = Ok l /\
  decided "a" busy_minutes l = bare (times_of "a" busy_minutes) (@rate_NewLimiter token_bucket 1 2).
Proof.
  eexists. split; [reflexivity|].
  apply (@eviction_invisible token_bucket 1 2 Minute (2 * Second) 0 _ busy_minutes "a" eq_refl);
    [apply bucket_refills; vm_compute; discriminate|vm_compute; discriminate|exact busy_minutes_clocked].
Defined.
End Witnesses.
