(* ===== verification/Api.v ===== *)
(** * Api: the HTTP handlers ([internal/api/server.go])

    Routing, the handlers and the middleware as functions from a request to a
    response over the server's state.  A request carries the bytes of its body,
    which [Wire] decodes; a response carries the value [json.Encoder] is given,
    which [ApiJson] turns into bytes.  The event stream is the loop of
    [handleStream] over the sequence of things its [select] sees. *)
From S2P Require Import Prelude Codec JsonText GoTime JsonTree JsonUtf8 TimeText Sha256 Models Merkle Crypto Storage Cache Broker Wire Chatlog LogFacts LogReads LogContract Service RateLimit.

Definition defaultHistoryLimit : Z := 50.
Definition maxHistoryLimit : Z := 200.

(** ** Text the handlers parse *)

(** [strconv.ParseUint(s, 10, 64)]; [None] is its error. *)
Definition ParseUint (s : string) : option Z := parse_uint (bytes s).

Definition last_index (x : byte) (l : list byte) : option nat :=
  match list_find (x =.) (reverse l) with
  | Some (i, _) => Some (length l - 1 - i)%nat
  | None => None
  end.
Definition index_byte (x : byte) (l : list byte) : option nat := fst <$> list_find (x =.) l.
Definition has (x : byte) (l : list byte) : bool := bool_decide (x ∈ l).

(** [net.SplitHostPort]: the host, or [None] for an error. *)
Definition SplitHost (hostport : string) : option string :=
  let l := bytes hostport in
  i ← last_index x3a l;
  match head l with
  | Some x5b =>
      e ← index_byte x5d l;
      if decide (e + 1 = i)%nat then
        if has x5b (drop 1 l) || has x5d (drop (e + 1) l) then None
        else Some (text (take (e - 1) (drop 1 l)))
      else None
  | _ =>
      let host := take i l in
      if has x3a host || has x5b l || has x5d l then None else Some (text host)
  end.

Definition clientIP (RemoteAddr : string) : string := default RemoteAddr (SplitHost RemoteAddr).

(** ** Requests and responses *)

Inductive method := GET | HEAD | POST | OtherMethod (name : string).
#[global] Instance method_eq_dec : EqDecision method.
Proof. solve_decision. Defined.

Record Request := {
  r_method : method;
  r_path : list string;                 (**r the segments of the cleaned URL path, decoded *)
  r_query : string -> string;           (**r [r.URL.Query().Get]: empty for an absent key *)
  r_body : list byte;                   (**r the bytes of the body that can be read *)
  r_cut : bool;                         (**r whether reading on fails, as at the limit of [MaxBytesHandler] *)
  r_remote : string;                    (**r [r.RemoteAddr] *)
}.

(** What [handleStream] writes on the WebSocket. *)
Inductive frame := FEvent (ev : Event) | FPing.

Record historyResponse := { Messages : Slice LogEntry; NextFrom : option Z }.

Record GenerateKeyPairResponse := { kp_PublicKey : list byte; kp_PrivateKey : list byte }.

Inductive reply :=
  | JError (msg : string)
  | JStatus (status : string)
  | JEntry (e : LogEntry)
  | JHistory (h : historyResponse)
  | JMessageVerification (v : MessageVerification)
  | JProof (p : InclusionProof)
  | JVerify (v : VerifyResult)
  | JSync (b : SyncBundle)
  | JContentKey (k : list byte)
  | JKeys (k : GenerateKeyPairResponse)
  | JFrames (fs : list frame)           (**r not JSON: what went over the upgraded connection *)
  | JNone.                              (**r a response [net/http] writes itself *)

Record Response := { status : Z; retry_after : bool; body : reply }.

Definition writeJSON (code : Z) (v : reply) : Response :=
  {| status := code; retry_after := false; body := v |}.
Definition writeError (code : Z) (msg : string) : Response := writeJSON code (JError msg).

(** ** Routes *)

Inductive route :=
  | RHealth | RKeys | RContentKey
  | RSend (chatID : string) | RHistory (chatID : string)
  | RMessage (chatID sequence : string) | RProof (chatID sequence : string)
  | RVerifyMessage (chatID sequence : string)
  | RPhoto (chatID : string) | RVideo (chatID : string)
  | RVerify (chatID : string) | RSync (chatID : string) | RStream (chatID : string).

(** The patterns of [Handler] for a path: method and handler. *)
#[local] Open Scope string_scope.
Definition chat_routes (c b : string) : list (method * route) :=
  if b =? "messages" then [(POST, RSend c); (GET, RHistory c)]
  else if b =? "photos" then [(POST, RPhoto c)]
  else if b =? "videos" then [(POST, RVideo c)]
  else if b =? "verify" then [(GET, RVerify c)]
  else if b =? "sync" then [(GET, RSync c)]
  else if b =? "ws" then [(GET, RStream c)]
  else [].

Definition message_routes (c q d : string) : list (method * route) :=
  if d =? "proof" then [(GET, RProof c q)]
  else if d =? "verify" then [(GET, RVerifyMessage c q)]
  else [].

Definition routes (path : list string) : list (method * route) :=
  match path with
  | [a] => if a =? "healthz" then [(GET, RHealth)] else if a =? "keys" then [(POST, RKeys)] else []
  | [a; b] => if (a =? "keys") && (b =? "content") then [(POST, RContentKey)] else []
  | [a; c; b] => if a =? "chats" then chat_routes c b else []
  | [a; c; b; q] => if (a =? "chats") && (b =? "messages") then [(GET, RMessage c q)] else []
  | [a; c; b; q; d] => if (a =? "chats") && (b =? "messages") then message_routes c q d else []
  | _ => []
  end.
#[local] Close Scope string_scope.

(** [net/http]: a [GET] pattern also matches [HEAD]. *)
Definition matches (pattern m : method) : bool :=
  bool_decide (pattern = m) || bool_decide (pattern = GET /\ m = HEAD).

(** The handler, or the status [ServeMux] answers with: 405 when the path is
    known under another method, else 404. *)
Definition find_route (m : method) (path : list string) : route + Z :=
  match List.find (fun p => matches p.1 m) (routes path), routes path with
  | Some (_, r), _ => inl r
  | None, [] => inr 404
  | None, _ => inr 405
  end.

(** ** Handlers *)

(** What one request reads from its surroundings: the clock of the limiter, of
    its bucket and of a snapshot, random bytes, the status with which the
    WebSocket upgrade failed if it did, and what the [select] of the stream
    sees, each with whether the write it causes succeeds. *)
Inductive stream_input := SDone | SEvent (ev : option Event) | STick.

Record Env := {
  e_seen : Time;
  e_allow : Time;
  e_now : Time;
  e_seed : outcome (list byte);
  e_random : outcome (list byte);
  e_upgrade : option Z;
  e_stream : list (stream_input * bool);
}.

(** [decodeSignedMessage]: the chat of the path replaces the one of the body. *)
Definition for_chat (chatID : string) (m : SignedMessage) : SignedMessage := {|
  SchemaVersion := SchemaVersion m; MessageID := MessageID m; ChatID := chatID;
  SenderID := SenderID m; Content := Content m; ContentType := ContentType m;
  Filename := Filename m; Encrypted := Encrypted m; Timestamp := Timestamp m;
  PublicKey := PublicKey m; Signature := Signature m |}.

Definition decodeSignedMessage (r : Request) (chatID : string) : SignedMessage + string :=
  match DecodeMessage (r_cut r) (r_body r) with
  | None => inr "invalid JSON body"
  | Some m =>
      if bool_decide (SenderID m = "") || (length (PublicKey m) =? 0)%nat || (length (Signature m) =? 0)%nat
      then inr "sender_id, public_key and signature are required"
      else inl (for_chat chatID m)
  end%string.

(** The loop of [handleStream]: the frames written, and whether it returned. *)
Fixpoint stream_loop (chatID : string) (inputs : list (stream_input * bool)) : list frame * bool :=
  match inputs with
  | [] => ([], false)
  | (SDone, _) :: _ => ([], true)
  | (SEvent None, _) :: _ => ([], true)
  | (SEvent (Some ev), written) :: r =>
      if negb (bool_decide (ev_ChatID ev = chatID)) then stream_loop chatID r
      else if negb written then ([], true)
      else let '(fs, e) := stream_loop chatID r in (FEvent ev :: fs, e)
  | (STick, written) :: r =>
      if negb written then ([], true)
      else let '(fs, e) := stream_loop chatID r in (FPing :: fs, e)
  end.

Section Api.
Context {S C B : Type} `{Storage S} `{Cache C} `{Broker B} `{HashFunction} `{Ed25519} `{RateLimiter}.

Record Server := { svc : Messenger S C B; s_limiter : option Limiter }.

Abbreviation ServerM := (M Server).

Definition NewServer (m : Messenger S C B) : Server := {| svc := m; s_limiter := None |}.
Definition WithRateLimit (l : Limiter) (s : Server) : Server := {| svc := svc s; s_limiter := Some l |}.

Definition on_svc {A} : M (Messenger S C B) A -> ServerM A :=
  zoom svc (fun m s => {| svc := m; s_limiter := s_limiter s |}).

Definition handleHealth : ServerM Response := mret (writeJSON 200 (JStatus "ok")).

(** [handleSend], [handleSendPhoto] and [handleSendVideo] differ in the cap. *)
Definition handleSubmit (cap : Z) (env : Env) (r : Request) (chatID : string) : ServerM Response :=
  match decodeSignedMessage r chatID with
  | inr e => mret (writeError 400 e)
  | inl msg =>
      x ← try (on_svc (Submit (e_now env) msg cap));
      mret match x with
           | inl entry => writeJSON 201 (JEntry entry)
           | inr err => writeError 422 (Error err)
           end
  end.

Definition handleSend : Env -> Request -> string -> ServerM Response := handleSubmit 0.
Definition handleSendPhoto : Env -> Request -> string -> ServerM Response := handleSubmit MaxPhotoBytes.
Definition handleSendVideo : Env -> Request -> string -> ServerM Response := handleSubmit MaxVideoBytes.

Definition parseUintQuery (r : Request) (key : string) (fallback : Z) : option Z :=
  if bool_decide (r_query r key = "")%string then Some fallback else ParseUint (r_query r key).

Definition handleHistory (r : Request) (chatID : string) : ServerM Response :=
  match parseUintQuery r "from" 0 with
  | None => mret (writeError 400 "invalid 'from' parameter")
  | Some from =>
      match parseUintQuery r "limit" defaultHistoryLimit with
      | None => mret (writeError 400 "invalid 'limit' parameter")
      | Some limit0 =>
          if limit0 =? 0 then mret (writeError 400 "invalid 'limit' parameter")
          else
            let limit := if maxHistoryLimit <? limit0 then maxHistoryLimit else limit0 in
            x ← try (on_svc (MsgrHistory chatID from (i64 limit)));
            mret match x with
                 | inr err => writeError 500 (Error err)
                 | inl es =>
                     writeJSON 200 (JHistory {|
                       Messages := es;
                       NextFrom :=
                         if (Z.of_nat (length es) =? limit) && (0 <? length es)%nat
                         then (fun e => u64 (Sequence e + 1)) <$> last es else None |})
                 end
      end
  end.

(** The [ParseUint] of the sequence, the call and the mapping of its errors
    that the handlers of one message share. *)
Definition with_sequence {A} (sequence : string) (call : Z -> M (Messenger S C B) A) (ok : A -> reply)
    (special : error -> option Response) : ServerM Response :=
  match ParseUint sequence with
  | None => mret (writeError 400 "sequence must be a non-negative integer")
  | Some q =>
      x ← try (on_svc (call q));
      mret match x with
           | inl a => writeJSON 200 (ok a)
           | inr err => default (writeError 500 (Error err)) (special err)
           end
  end.

Definition not_found (err : error) : option Response :=
  if errors_is err ErrNotFound then Some (writeError 404 "message not found") else None.
Definition not_snapshotted (err : error) : option Response :=
  if errors_is err ErrNotSnapshotted
  then Some (writeError 409 "no snapshot yet covers this message (snapshots seal every 100 messages)")
  else None.

Definition handleMessage (chatID sequence : string) : ServerM Response :=
  with_sequence sequence (MsgrMessage chatID) JEntry not_found.
Definition handleVerifyMessage (chatID sequence : string) : ServerM Response :=
  with_sequence sequence (MsgrVerifyMessage chatID) JMessageVerification not_found.
Definition handleProof (chatID sequence : string) : ServerM Response :=
  with_sequence sequence (MsgrProveInclusion chatID) JProof not_snapshotted.

Definition handleGenerateContentKey (env : Env) : ServerM Response :=
  x ← try (lift (NewContentKey (e_random env)));
  mret match x with inl k => writeJSON 200 (JContentKey k) | inr err => writeError 500 (Error err) end.

Definition handleVerify (chatID : string) : ServerM Response :=
  x ← try (on_svc (MsgrVerify chatID));
  mret match x with inl v => writeJSON 200 (JVerify v) | inr err => writeError 500 (Error err) end.

Definition handleSync (chatID : string) : ServerM Response :=
  x ← try (on_svc (MsgrSync chatID));
  mret match x with inl b => writeJSON 200 (JSync b) | inr err => writeError 500 (Error err) end.

Definition HandleGenerateKeys (env : Env) : ServerM Response :=
  x ← try (lift (GenerateKeyPair (e_seed env)));
  mret match x with
       | inl (priv, pub) => writeJSON 200 (JKeys {| kp_PublicKey := pub; kp_PrivateKey := priv |})
       | inr err => writeError 500 (Error err)
       end.

(** Subscribe, upgrade, loop; [cancel] is deferred, so it runs on every return. *)
Definition handleStream (env : Env) (chatID : string) : ServerM Response :=
  x ← try (on_svc MsgrSubscribe);
  match x with
  | inr err => mret (writeError 500 (Error err))
  | inl id =>
      match e_upgrade env with
      | Some code => on_svc (MsgrCancel id) ;; mret (writeJSON code JNone)
      | None =>
          let '(fs, returned) := stream_loop chatID (e_stream env) in
          if returned then on_svc (MsgrCancel id) ;; mret (writeJSON 101 (JFrames fs)) else block
      end
  end.

Definition handle (env : Env) (r : Request) (x : route) : ServerM Response :=
  match x with
  | RHealth => handleHealth
  | RKeys => HandleGenerateKeys env
  | RContentKey => handleGenerateContentKey env
  | RSend c => handleSend env r c
  | RHistory c => handleHistory r c
  | RMessage c q => handleMessage c q
  | RProof c q => handleProof c q
  | RVerifyMessage c q => handleVerifyMessage c q
  | RPhoto c => handleSendPhoto env r c
  | RVideo c => handleSendVideo env r c
  | RVerify c => handleVerify c
  | RSync c => handleSync c
  | RStream c => handleStream env c
  end.

Definition mux (env : Env) (r : Request) : ServerM Response :=
  match find_route (r_method r) (r_path r) with
  | inl x => handle env r x
  | inr code => mret (writeJSON code JNone)
  end.

(** [Handler], with [rateLimitMiddleware] when a limiter is configured. *)
Definition Handler (env : Env) (r : Request) : ServerM Response := fun s =>
  match s_limiter s with
  | None => mux env r s
  | Some l =>
      if bool_decide (r_path r = ["healthz"%string]) then mux env r s
      else match Allow (e_seen env) (e_allow env) (clientIP (r_remote r)) l with
           | (Ok true, l') => mux env r {| svc := svc s; s_limiter := Some l' |}
           | (_, l') =>
               (Ok {| status := 429; retry_after := true; body := JError "rate limit exceeded" |},
                {| svc := svc s; s_limiter := Some l' |})
           end
  end.
End Api.
Arguments Server S C B {_}.
