(* ===== verification/ApiContract.v ===== *)
(** * ApiContract: what the HTTP interface guarantees

    Over ports that keep their contracts: every request gets a response and
    keeps the invariant of the log, reads write nothing, a posted message is
    bound to the chat of its path, following [next_from] reads the whole log,
    a client over its budget is turned away, and a stream carries the events
    of its chat. *)
From S2P Require Import Prelude Codec JsonText GoTime JsonTree JsonUtf8 TimeText Sha256 Models Merkle Crypto Storage Cache Broker Wire Chatlog LogFacts LogReads LogContract Service RateLimit Api.

Section Facts.
Context {S C B : Type} `{SL : StorageLaws S} `{CL : CacheLaws C} `{BL : BrokerLaws B}.
Context `{HashFunction} `{Ed25519} `{RateLimiter}.
Implicit Types s : Server S C B.
Implicit Types l : Log S C B.

Definition log_in s : Log S C B := log (svc s).
Definition with_log (l : Log S C B) s : Server S C B :=
  {| svc := NewMessenger l; s_limiter := s_limiter s |}.

(** The invariant of a running server between two requests. *)
Record server_ok s : Prop := {
  sv_log : log_ok (log_in s);
  sv_unlocked : unlocked (log_in s);
}.

Lemma on_svc_run {A} (m : M (Log S C B) A) s o l :
  m (log_in s) = (o, l) -> on_svc (on_log m) s = (o, with_log l s).
Proof. intros E. unfold on_svc, on_log, zoom. unfold log_in in E. by rewrite E. Qed.

Lemma on_svc_read {A} (m : M (Log S C B) A) s o :
  m (log_in s) = (o, log_in s) -> on_svc (on_log m) s = (o, s).
Proof. intros E. rewrite (on_svc_run _ _ _ _ E). by destruct s as [[l] r]. Qed.

(** A call whose error is mapped to a response, when it only reads. *)
Lemma try_read {A} (m : M (Server S C B) A) (k : A + error -> Response) s (o : A + error) :
  m s = (match o with inl a => Ok a | inr e => Err e end, s) ->
  (x ← try m; mret (k x)) s = (Ok (k o), s).
Proof. intros E. unfold try, mbind, M_bind. rewrite E. by destruct o. Qed.

Lemma try_settled {A} (m : M (Server S C B) A) (k : A + error -> Response) s :
  settled (m s).1 -> (m s).2 = s -> exists v, (x ← try m; mret (k x)) s = (Ok v, s).
Proof.
  intros D E. unfold try, mbind, M_bind. destruct (m s) as [o s']. cbn in *. subst s'.
  destruct D as [[a ->]|[e ->]]; by eexists.
Qed.

(** *** The reads of the log settle and leave it alone *)

Definition reads {A} (m : M (Log S C B) A) (l : Log S C B) : Prop := settled (m l).1 /\ (m l).2 = l.

Lemma reads_ok {A} (m : M (Log S C B) A) l a : m l = (Ok a, l) -> reads m l.
Proof. intros E. unfold reads. rewrite E. split; [left; by eexists|done]. Qed.
Lemma reads_err {A} (m : M (Log S C B) A) l e : m l = (Err e, l) -> reads m l.
Proof. intros E. unfold reads. rewrite E. split; [right; by eexists|done]. Qed.

Lemma History_reads c from limit l : 0 <= from -> reads (History c from limit) l.
Proof. intros F. by eapply reads_ok, History_run. Qed.

Lemma LogEntryAt_run c q l : 0 <= q -> LogEntryAt c q l = (found (log_at l c !! Z.to_nat q), l).
Proof. intros Q. by apply on_store_read, entry_at. Qed.

Lemma LogEntryAt_reads c q l : 0 <= q -> reads (LogEntryAt c q) l.
Proof.
  intros Q. pose proof (LogEntryAt_run c q l Q) as E.
  destruct (log_at l c !! Z.to_nat q); [by eapply reads_ok|by eapply reads_err].
Qed.

Lemma VerifyEntry_reads c q l : log_ok l -> 0 <= q -> reads (VerifyEntry c q) l.
Proof.
  intros K Q. destruct (lo_chats _ K c) as [_ _ _ R].
  destruct (log_at l c !! Z.to_nat q) as [e|] eqn:E.
  - destruct (VerifyEntry_run c l _ e E R) as (r & V & _). rewrite Z2Nat.id in V by done. by eapply reads_ok.
  - apply lookup_ge_None in E. eapply reads_err, VerifyEntry_missing. lia.
Qed.

Lemma ProveInclusion_reads c q l : log_ok l -> 0 <= q -> reads (ProveInclusion c q) l.
Proof.
  intros K Q. destruct (decide (q < Z.of_nat (covered (log_at l c)))) as [D|D].
  - unfold covered in D. destruct (lookup_lt_is_Some_2 (log_at l c) (Z.to_nat q)) as [e E];
      [unfold interval in *; div_lia|].
    destruct (ProveInclusion_run c _ l e K E) as (p & R & _); [lia|].
    rewrite Z2Nat.id in R by done. by eapply reads_ok.
  - eapply reads_err, ProveInclusion_uncovered; [done..|]. unfold covered in D. lia.
Qed.

Lemma VerifyChain_reads c l : reads (VerifyChain c) l.
Proof. eapply reads_ok, VerifyChain_run. Qed.

Lemma Sync_reads c l : log_ok l -> reads (Sync c) l.
Proof. intros K. by eapply reads_ok, Sync_run. Qed.

Lemma svc_reads {A} (m : M (Log S C B) A) s (k : A + error -> Response) : reads m (log_in s) ->
  exists v, (x ← try (on_svc (on_log m)); mret (k x)) s = (Ok v, s).
Proof.
  intros [D E]. destruct (m (log_in s)) as [o l] eqn:R. cbn in *. subst l.
  apply on_svc_read in R. apply try_settled; by rewrite R.
Qed.

Lemma ParseUint_range t q : ParseUint t = Some q -> is_u64 q.
Proof.
  unfold ParseUint, parse_uint. destruct (digits_value (bytes t)) as [v|] eqn:D; [|done].
  apply digits_value_nonneg in D. cbn [mbind option_bind]. destruct (Z.ltb_spec v (2 ^ 64)); [|done].
  intros [= <-]. by split.
Qed.

Lemma ParseUint_Itoa v : is_u64 v -> ParseUint (Dec.Itoa v) = Some v.
Proof. intros U. by apply (as_uint_jint v 0 U). Qed.

Lemma Itoa_nonempty v : Dec.Itoa v <> ""%string.
Proof.
  unfold Dec.Itoa. intros E%(f_equal bytes). rewrite bytes_text in E. destruct (v <? 0); [done|].
  by apply Dec.decimal_nonempty in E.
Qed.

Lemma with_sequence_reads {A} t (m : Z -> M (Log S C B) A) ok special s :
  (forall q, 0 <= q -> reads (m q) (log_in s)) ->
  exists v, with_sequence t (fun q => on_log (m q)) ok special s = (Ok v, s).
Proof.
  intros R. unfold with_sequence. destruct (ParseUint t) as [q|] eqn:E; [|by eexists].
  apply ParseUint_range in E. apply svc_reads, R, E.
Qed.

(** *** Handlers that only read *)

Definition read_only (x : route) : bool :=
  match x with
  | RHealth | RHistory _ | RMessage _ _ | RProof _ _ | RVerifyMessage _ _ | RVerify _ | RSync _ => true
  | _ => false
  end.

Lemma handleHistory_reads r c s : exists v, handleHistory r c s = (Ok v, s).
Proof.
  assert (forall key d q, 0 <= d -> parseUintQuery r key d = Some q -> 0 <= q) as P.
  { intros key d q D. unfold parseUintQuery. case_bool_decide; [by intros [= <-]|].
    intros E. by apply ParseUint_range in E as [? _]. }
  unfold handleHistory. destruct (parseUintQuery r "from" 0) as [from|] eqn:F; [|by eexists].
  apply P in F; [|lia]. destruct (parseUintQuery r "limit" _) as [limit|]; [|by eexists].
  destruct (limit =? 0); [by eexists|]. by apply svc_reads, History_reads.
Qed.

Lemma handle_read_only env r x s : log_ok (log_in s) -> read_only x = true ->
  exists v, handle env r x s = (Ok v, s).
Proof.
  intros K R. destruct x; try done; cbn [handle].
  - by eexists.
  - apply handleHistory_reads.
  - apply with_sequence_reads. intros q. apply LogEntryAt_reads.
  - apply with_sequence_reads. intros q. by apply ProveInclusion_reads.
  - apply with_sequence_reads. intros q. by apply VerifyEntry_reads.
  - apply svc_reads, VerifyChain_reads.
  - by apply svc_reads, Sync_reads.
Qed.

(** *** Handlers that write *)

Lemma Submit_run cap now msg s (c := ChatID msg) : server_ok s -> room (log_in s) 1 ->
  exists o s', on_svc (Submit now msg cap) s = (o, s') /\ server_ok s' /\
    ((acceptable msg = true /\ o = Ok (new_entry (log_at (log_in s) c) msg) /\
      forall d, log_at (log_in s') d =
        if decide (d = c) then log_at (log_in s) c ++ [new_entry (log_at (log_in s) c) msg]
        else log_at (log_in s) d) \/
     ((exists e, o = Err e) /\ s' = s)).
Proof.
  intros [K U] R. unfold Submit. destruct (_ && _).
  - do 2 eexists. split; [unfold on_svc, zoom, throw; reflexivity|].
    split; [by destruct s; split|]. right. split; [by eexists|]. by destruct s.
  - destruct (Append_cases now msg _ K U R) as (l' & E & K' & U' & A).
    rewrite (on_svc_run _ _ _ _ E). do 2 eexists. split; [done|]. split; [by split|].
    destruct (acceptable msg); [left|right].
    + split_and!; [done..|]. intros d. exact (up_log _ _ _ _ _ _ _ A d).
    + subst l'. split; [by eexists|]. by destruct s as [[l] rl].
Qed.

Lemma handleSubmit_run cap env r c s : server_ok s -> room (log_in s) 1 ->
  exists v s', handleSubmit cap env r c s = (Ok v, s') /\ server_ok s' /\
    ((exists m (e := new_entry (log_at (log_in s) c) (for_chat c m)),
        v = writeJSON 201 (JEntry e) /\ DecodeMessage (r_cut r) (r_body r) = Some m /\ acceptable (for_chat c m) = true /\
        forall d, log_at (log_in s') d =
          if decide (d = c) then log_at (log_in s) c ++ [e] else log_at (log_in s) d) \/
     ((status v = 400 \/ status v = 422) /\ s' = s)).
Proof.
  intros K R. unfold handleSubmit, decodeSignedMessage.
  destruct (DecodeMessage (r_cut r) (r_body r)) as [m|]; [|do 2 eexists; split_and!; [done..|right; split; [by left|done]]].
  destruct (_ || _); [do 2 eexists; split_and!; [done..|right; split; [by left|done]]|].
  destruct (Submit_run cap (e_now env) (for_chat c m) s K R) as (o & s' & E & K' & [(A & -> & L)|[[e ->] ->]]).
  - erewrite bind_ok by (apply try_ok; exact E). do 2 eexists. split; [done|]. split; [done|].
    left. exists m. by split_and!.
  - erewrite bind_ok by (apply try_err; exact E). do 2 eexists. split; [done|]. split; [done|].
    right. split; [by right|done].
Qed.

(** *** The stream *)

Lemma set_broker_ok b s : server_ok s -> broker_inv b ->
  server_ok (with_log (set_broker b (log_in s)) s).
Proof. intros [[K _] U] Br. split; [by split|done]. Qed.

Lemma handleStream_run env c s : server_ok s ->
  (e_upgrade env = None -> (stream_loop c (e_stream env)).2 = true) ->
  exists v s', handleStream env c s = (Ok v, s') /\ server_ok s' /\
    (forall d, log_at (log_in s') d = log_at (log_in s) d) /\
    ((exists id b1, Subscribe (broker (log_in s)) = (Ok id, b1) /\
        Cancel id b1 = (Ok tt, broker (log_in s')) /\
        v = match e_upgrade env with
            | Some code => writeJSON code JNone
            | None => writeJSON 101 (JFrames (stream_loop c (e_stream env)).1)
            end) \/
     status v = 500).
Proof.
  intros K Rt. unfold handleStream, MsgrSubscribe, MsgrCancel, LogSubscribe.
  destruct (subscribe_returns _ (lo_broker _ (sv_log _ K))) as (b1 & I1 & [(id & E1 & L1)|[e E1]]).
  - destruct (cancel_returns id b1 I1 L1) as (b2 & I2 & E2).
    set (s1 := with_log (set_broker b1 (log_in s)) s).
    assert (on_svc (on_log (on_broker Subscribe)) s = (Ok id, s1)) as R1
      by (apply on_svc_run; unfold on_broker, zoom; by rewrite E1).
    assert (on_svc (on_log (on_broker (Cancel id))) s1 = (Ok tt, with_log (set_broker b2 (log_in s)) s)) as R2
      by (erewrite on_svc_run; [|unfold on_broker, zoom; cbn; by rewrite E2]; done).
    erewrite bind_ok by (apply try_ok; exact R1). cbv beta iota.
    destruct (e_upgrade env) as [code|].
    + erewrite bind_ok by exact R2. do 2 eexists. split; [done|]. split; [by apply set_broker_ok|].
      split; [done|]. left. by exists id, b1.
    + specialize (Rt eq_refl). destruct (stream_loop c (e_stream env)) as [fs ret]. cbn in Rt. subst ret.
      erewrite bind_ok by exact R2. do 2 eexists. split; [done|]. split; [by apply set_broker_ok|].
      split; [done|]. left. by exists id, b1.
  - assert (on_svc (on_log (on_broker Subscribe)) s = (Err e, with_log (set_broker b1 (log_in s)) s)) as R1
      by (apply on_svc_run; unfold on_broker, zoom; by rewrite E1).
    erewrite bind_ok by (apply try_err; exact R1). cbv beta iota.
    do 2 eexists. split; [done|]. split; [by apply set_broker_ok|]. split; [done|by right].
Qed.

(** *** Every request *)

(** The surroundings answer: random bytes or an error, and a stream whose
    client goes away in the end. *)
Record answers (env : Env) : Prop := {
  an_seed : settled (e_seed env);
  an_random : settled (e_random env);
  an_stream c : (stream_loop c (e_stream env)).2 = true;
}.

(** A chat gets at most one entry more. *)
Definition grew s s' : Prop := forall d, (length (log_at (log_in s') d) <= length (log_at (log_in s) d) + 1)%nat.

Lemma grew_same s s' : (forall d, log_at (log_in s') d = log_at (log_in s) d) -> grew s s'.
Proof. intros E d. rewrite E. lia. Qed.

Lemma handleSubmit_grows cap env r c s : server_ok s -> room (log_in s) 1 ->
  exists v s', handleSubmit cap env r c s = (Ok v, s') /\ server_ok s' /\ grew s s'.
Proof.
  intros K R. destruct (handleSubmit_run cap env r c s K R) as (v & s' & E & K' & [(m & _ & _ & _ & L)|[_ ->]]);
    exists v; eexists; (split; [exact E|split; [done|]]); [|by apply grew_same].
  intros d. rewrite L. case_decide; subst; rewrite ?length_app; cbn; lia.
Qed.

Lemma handle_run env r x s : server_ok s -> room (log_in s) 1 -> answers env ->
  exists v s', handle env r x s = (Ok v, s') /\ server_ok s' /\ grew s s'.
Proof.
  intros K R [Sd Rd St]. pose proof (grew_same s s ltac:(done)) as G. destruct (read_only x) eqn:RO.
  - destruct (handle_read_only env r x s (sv_log _ K) RO) as [v E]. by exists v, s.
  - destruct x; try done; cbn [handle].
    + destruct Sd as [[a Ea]|[e Ea]]; unfold HandleGenerateKeys, lift, try; rewrite Ea; cbn; [|by do 2 eexists].
      destruct (ed_keys a). by do 2 eexists.
    + destruct Rd as [[a Ea]|[e Ea]]; unfold handleGenerateContentKey, lift, try; rewrite Ea; cbn; by do 2 eexists.
    + by apply (handleSubmit_grows 0).
    + by apply (handleSubmit_grows MaxPhotoBytes).
    + by apply (handleSubmit_grows MaxVideoBytes).
    + destruct (handleStream_run env chatID s K) as (v & s' & E & K' & L & _); [done|]. exists v, s'.
      split; [exact E|]. split; [done|]. by apply grew_same.
Qed.

(** The middleware, before it passes a request on. *)
Lemma Handler_cases env r s :
  (exists rl', Handler env r s = mux env r {| svc := svc s; s_limiter := rl' |}) \/
  (exists v rl', Handler env r s = (Ok v, {| svc := svc s; s_limiter := rl' |}) /\ status v = 429).
Proof.
  destruct s as [m [rl|]]; [|left; by exists None]. unfold Handler. cbn [s_limiter svc].
  case_bool_decide; [left; by exists (Some rl)|].
  destruct (Allow _ _ _ rl) as [[[]|?|?|] rl'];
    [left; by exists (Some rl')|right; do 2 eexists; done..].
Qed.

Lemma server_ok_limiter s rl' : server_ok s -> server_ok {| svc := svc s; s_limiter := rl' |}.
Proof. intros []. by split. Qed.

Lemma Handler_run env r s : server_ok s -> room (log_in s) 1 -> answers env ->
  exists v s', Handler env r s = (Ok v, s') /\ server_ok s' /\ grew s s'.
Proof.
  intros K R A. pose proof (fun rl => grew_same s {| svc := svc s; s_limiter := rl |} ltac:(done)) as G.
  destruct (Handler_cases env r s) as [[rl E]|(v & rl & E & _)]; rewrite E;
    [|do 2 eexists; split; [done|by split; [apply server_ok_limiter|]]].
  apply (server_ok_limiter _ rl) in K. unfold mux. destruct (find_route _ _); [|by do 2 eexists].
  by apply (handle_run env r _ {| svc := svc s; s_limiter := rl |}).
Qed.

Lemma in_routes m path x : find_route m path = inl x -> exists p, (p, x) ∈ routes path /\ matches p m = true.
Proof.
  unfold find_route. destruct (List.find _ (routes path)) as [[p y]|] eqn:F; [|by destruct (routes path)].
  intros [= ->]. apply List.find_some in F as [I M]. exists p. split; [by apply list_elem_of_In|done].
Qed.

Lemma routes_get path x : (GET, x) ∈ routes path -> read_only x = true \/ exists c, x = RStream c.
Proof.
  unfold routes, chat_routes, message_routes. intros I.
  repeat case_match; repeat (apply elem_of_cons in I as [I|I]; [simplify_eq; eauto|]);
    by apply elem_of_nil in I.
Qed.

Lemma find_route_read m path x : m <> POST -> find_route m path = inl x ->
  read_only x = true \/ exists c, x = RStream c.
Proof.
  intros N F. apply in_routes in F as (p & I & M). apply (routes_get path).
  assert (p = GET \/ p = m) as [-> | ->]; [|done|].
  - unfold matches in M. apply orb_true_iff in M as [M|M]; apply bool_decide_eq_true in M; naive_solver.
  - destruct (decide (m = GET)) as [->|G]; [done|]. exfalso. revert I. unfold routes, chat_routes, message_routes.
    intros I. repeat case_match; repeat (apply elem_of_cons in I as [I|I]; [simplify_eq|]);
    by apply elem_of_nil in I.
Qed.
End Facts.

(** ** The properties *)

Section Properties.
Context {S C B : Type} `{SL : StorageLaws S} `{CL : CacheLaws C} `{BL : BrokerLaws B}.
Context `{HashFunction} `{Ed25519} `{RateLimiter}.
Implicit Types s : Server S C B.

(** C33: every request is answered.  Whatever the method, path, query and body,
    and whether the limiter lets it through, the handler returns a response,
    without a panic or a wait, and leaves a server whose logs keep the
    invariant of [reachable_log_ok] with all mutexes free.  The surroundings
    must answer too: the random source, and the end of a stream. *)
Theorem every_request_answered env r s : server_ok s -> room (log_in s) 1 -> answers env ->
  exists v s', Handler env r s = (Ok v, s') /\ server_ok s'.
Proof.
  intros K R A. destruct (Handler_run env r s K R A) as (v & s' & E & K' & _). by exists v, s'.
Qed.

(** Only [POST] writes.  A request with any other method leaves every chat's
    entries as they are, streams included; and one that is not a stream leaves
    the whole service as it is, the limiter's buckets apart. *)
Theorem reads_do_not_write env r s : server_ok s -> answers env -> r_method r <> POST ->
  exists v s', Handler env r s = (Ok v, s') /\
    (forall d, log_at (log_in s') d = log_at (log_in s) d) /\
    ((forall c, find_route (r_method r) (r_path r) <> inl (RStream c)) -> svc s' = svc s).
Proof.
  intros K A N. destruct (Handler_cases env r s) as [[rl E]|(v & rl & E & _)]; rewrite E; [|by do 2 eexists].
  apply (server_ok_limiter _ rl) in K. unfold mux.
  destruct (find_route _ _) as [x|code] eqn:F; [|by do 2 eexists].
  destruct (find_route_read _ _ _ N F) as [RO|[c ->]].
  - destruct (handle_read_only env r x _ (sv_log _ K) RO) as [v Ev]. rewrite Ev. by do 2 eexists.
  - destruct (handleStream_run env c _ K) as (v & s' & Ev & _ & L & _); [intros _; by apply A|].
    exists v, s'. split; [exact Ev|]. split; [exact L|]. intros Ns. by destruct (Ns c).
Qed.

(** C34: a posted message is bound to the chat of its path.  A send to chat [c]
    either answers 201 with the entry, which is the new last entry of [c],
    holds the posted message under chat [c] whatever chat its body named, and
    has a signature valid for that chat, no other chat changing; or it answers
    400 or 422 and nothing changes. *)
Theorem send_binds_chat cap env r c s : server_ok s -> room (log_in s) 1 ->
  exists v s', handleSubmit cap env r c s = (Ok v, s') /\
    ((exists m e, v = writeJSON 201 (JEntry e) /\ DecodeMessage (r_cut r) (r_body r) = Some m /\ Message e = for_chat c m /\
        VerifyMessage (Message e) = true /\ ChatID (Message e) = c /\
        last (log_at (log_in s') c) = Some e /\
        forall d, log_at (log_in s') d = if decide (d = c) then log_at (log_in s) c ++ [e] else log_at (log_in s) d) \/
     ((status v = 400 \/ status v = 422) /\ s' = s)).
Proof.
  intros K R. destruct (handleSubmit_run cap env r c s K R) as (v & s' & E & _ & [(m & Ev & Bd & A & L)|G]);
    exists v, s'; (split; [exact E|]); [left|by right].
  apply andb_true_iff in A as [_ Sg]. eexists m, _. split; [exact Ev|]. split_and!; try done.
  rewrite L, decide_True by done. apply last_snoc.
Qed.

(** [GET /chats/c/messages/t] answers 400 when [t] is not the decimal form of
    a 64-bit number, 200 with the entry at that position of the chat when there
    is one and 404 beyond the end, and changes nothing. *)
Theorem get_message_contract c t s : server_ok s ->
  handleMessage c t s =
    (Ok match ParseUint t with
        | None => writeError 400 "sequence must be a non-negative integer"
        | Some q => match log_at (log_in s) c !! Z.to_nat q with
                    | Some e => writeJSON 200 (JEntry e)
                    | None => writeError 404 "message not found"
                    end
        end, s).
Proof.
  intros K. unfold handleMessage, with_sequence, MsgrMessage.
  destruct (ParseUint t) as [q|] eqn:P; [|done]. apply ParseUint_range in P as [Q _].
  pose proof (LogEntryAt_run c q (log_in s) Q) as E. apply on_svc_read in E.
  destruct (log_at (log_in s) c !! Z.to_nat q) as [e|].
  - exact (try_read _ _ _ (inl e) E).
  - exact (try_read _ _ _ (inr ErrNotFound) E).
Qed.

(** Over budget.  When the client's bucket has no token the answer is 429
    with [Retry-After], and nothing but that bucket changes; [/healthz] is
    answered with 200 whatever the buckets hold, and without taking a token. *)
Theorem rate_limit_contract env r s l : s_limiter s = Some l ->
  (r_path r = ["healthz"%string] -> r_method r = GET -> Handler env r s = (Ok (writeJSON 200 (JStatus "ok")), s)) /\
  (r_path r <> ["healthz"%string] ->
   (rate_Allow (e_allow env) (bucket_of (clientIP (r_remote r)) l)).1 = false ->
   exists v s', Handler env r s = (Ok v, s') /\ status v = 429 /\ retry_after v = true /\ svc s' = svc s).
Proof.
  intros L. unfold Handler. rewrite L. split.
  - intros P G. rewrite bool_decide_eq_true_2 by done. unfold mux. by rewrite P, G.
  - intros P D. rewrite bool_decide_eq_false_2 by done.
    destruct (allow_run {| c_now := e_seen env; c_now' := e_allow env; c_key := clientIP (r_remote r) |} l)
      as (l' & E & _). cbn in E. rewrite D in E. unfold allow in E. cbn in E. rewrite E. by do 2 eexists.
Qed.

(** *** Reading a chat page by page *)

Definition page_request (c : string) (from limit : Z) : Request := {|
  r_method := GET; r_path := ["chats"; c; "messages"]%string;
  r_query := fun k => if bool_decide (k = "from") then Dec.Itoa from
                      else if bool_decide (k = "limit") then Dec.Itoa limit else "";
  r_body := []; r_cut := false; r_remote := "" |}%string.

(** A client that follows [next_from] until it is null. *)
Fixpoint walk (fuel : nat) (c : string) (limit from : Z) (s : Server S C B) : option (list LogEntry) :=
  match fuel with
  | O => None
  | Datatypes.S fuel =>
      match handleHistory (page_request c from limit) c s with
      | (Ok v, s') =>
          match body v with
          | JHistory h =>
              match NextFrom h with
              | None => Some (elems (Messages h))
              | Some next => (fun rest => elems (Messages h) ++ rest) <$> walk fuel c limit next s'
              end
          | _ => None
          end
      | _ => None
      end
  end.

Lemma page_run c from limit s (es := log_at (log_in s) c)
    (n := Z.to_nat (Z.min limit 200)) (page := take n (drop (Z.to_nat from) es)) :
  server_ok s -> is_u64 from -> 0 < limit < 2 ^ 64 ->
  handleHistory (page_request c from limit) c s =
    (Ok (writeJSON 200 (JHistory {| Messages := made page;
       NextFrom := if decide (length page = n) then Some (from + Z.of_nat n) else None |})), s).
Proof.
  intros [K _] F L. unfold handleHistory, parseUintQuery, page_request. cbn [r_query].
  rewrite (bool_decide_eq_true_2 ("from" = "from")%string), (bool_decide_eq_false_2 ("limit" = "from")%string),
    (bool_decide_eq_true_2 ("limit" = "limit")%string) by done.
  rewrite (bool_decide_eq_false_2 (Dec.Itoa from = ""%string)), (ParseUint_Itoa from)
    by (apply Itoa_nonempty || done). cbv beta iota.
  rewrite (bool_decide_eq_false_2 (Dec.Itoa limit = ""%string)), (ParseUint_Itoa limit)
    by (apply Itoa_nonempty || (unfold is_u64; lia)). cbv beta iota.
  rewrite (proj2 (Z.eqb_neq limit 0)) by lia. cbv beta iota zeta.
  assert ((if maxHistoryLimit <? limit then maxHistoryLimit else limit) = Z.of_nat n) as ->
    by (unfold maxHistoryLimit, n; destruct (Z.ltb_spec 200 limit); lia).
  assert (0 < n <= 200)%nat as N by (unfold n; lia).
  rewrite i64_id by lia.
  assert (History c from (Z.of_nat n) (log_in s) = (Ok (made page), log_in s)) as E.
  { rewrite History_run by apply F. unfold capped, page. rewrite (proj2 (Z.ltb_lt _ _)) by lia. by rewrite Nat2Z.id. }
  apply on_svc_read in E. etransitivity; [exact (try_read _ _ _ (inl (made page)) E)|]. cbv beta iota.
  cbn [elems]. do 4 f_equal. case_decide as D.
  - rewrite (proj2 (Z.eqb_eq _ _)), (proj2 (Nat.ltb_lt _ _)) by lia. cbn [andb].
    destruct (lo_chats _ K c) as [T _ _ Rm]. rewrite last_lookup.
    destruct (lookup_lt_is_Some_2 page (pred (length page))) as [e He]; [lia|]. rewrite He. cbn. f_equal.
    unfold page in He. apply lookup_take_Some in He as [He _]. rewrite lookup_drop in He.
    pose proof (lookup_lt_Some _ _ _ He). rewrite (chain_sequence _ _ _ T ltac:(lia) He).
    destruct F. unfold es in *. rewrite u64_id by (unfold is_u64; lia). f_equal. unfold page in D. lia.
  - by rewrite (proj2 (Z.eqb_neq _ _)) by lia.
Qed.

(** C35: following [next_from] reads the whole chat.  From any position, with any
    positive limit (over 200 it counts as 200), a client that asks for pages
    until [next_from] is null gets every entry from there on, once and in
    order, in at most one request more than there are entries. *)
Theorem history_walk_complete c limit from s n :
  server_ok s -> is_u64 from -> 0 < limit < 2 ^ 64 ->
  (length (drop (Z.to_nat from) (log_at (log_in s) c)) < n)%nat ->
  walk n c limit from s = Some (drop (Z.to_nat from) (log_at (log_in s) c)).
Proof.
  intros K F L. revert from F. induction n as [|n IH]; intros from F Ln; [lia|]. cbn [walk].
  rewrite (page_run c from limit s K F L). cbn [body writeJSON NextFrom Messages elems].
  set (k := Z.to_nat (Z.min limit 200)). set (es := log_at (log_in s) c) in *.
  assert (0 < k)%nat as Pk by (unfold k; lia). rewrite length_take. case_decide as D.
  - assert (k <= length (drop (Z.to_nat from) es))%nat as Lk by lia.
    assert (is_u64 (from + Z.of_nat k)) as F'.
    { destruct (lo_chats _ (sv_log _ K) c) as [_ _ _ Rm]. rewrite length_drop in Lk.
      unfold is_u64 in *. fold es in Rm. lia. }
    assert (Z.to_nat (from + Z.of_nat k) = Z.to_nat from + k)%nat as Ek by (destruct F; lia).
    rewrite (IH (from + Z.of_nat k) F') by (rewrite Ek, <-drop_drop, length_drop; lia).
    rewrite Ek, <-drop_drop. cbn [fmap option_fmap option_map]. by rewrite take_drop.
  - by rewrite take_ge by lia.
Qed.

(** *** The event stream *)

Definition frame_events (fs : list frame) : list Event :=
  fs ≫= fun f => match f with FEvent ev => [ev] | FPing => [] end.

(** The events of a chat among what the [select] saw. *)
Definition chat_events (c : string) (inputs : list (stream_input * bool)) : list Event :=
  inputs ≫= fun i => match i.1 with
    | SEvent (Some ev) => if decide (ev_ChatID ev = c) then [ev] else []
    | _ => []
    end.

(** An event or a tick whose write succeeds. *)
Definition carries_on (i : stream_input * bool) : Prop :=
  i.2 = true /\ match i.1 with SEvent (Some _) | STick => True | _ => False end.

Lemma stream_loop_app c pre post : Forall carries_on pre ->
  exists fs, stream_loop c (pre ++ post) = (fs ++ (stream_loop c post).1, (stream_loop c post).2) /\
    frame_events fs = chat_events c pre.
Proof.
  induction 1 as [|[i w] pre [Hw Hi] _ IH]; [exists []; split; [cbn [app]; by destruct (stream_loop c post)|done]|].
  destruct IH as (fs & E & V). cbn in Hw, Hi. subst w. cbn [app stream_loop].
  destruct i as [|[ev|]|]; try done.
  - unfold chat_events. cbn. destruct (decide (ev_ChatID ev = c)) as [D|D].
    + rewrite bool_decide_eq_true_2, E by done. cbn. exists (FEvent ev :: fs). split; [done|].
      cbn. f_equal. exact V.
    + rewrite bool_decide_eq_false_2, E by done. cbn. by exists fs.
  - cbn. rewrite E. exists (FPing :: fs). by split.
Qed.

(** A stream carries its chat.  Until the client goes away, the channel is
    closed or a write fails, the events written are the events of the chat
    among those received, in order, and no other; then the handler returns, and
    the subscription it made is cancelled, also when the upgrade had failed;
    the logs do not change. *)
Theorem stream_contract env c s pre stop rest : server_ok s ->
  e_stream env = pre ++ stop :: rest -> Forall carries_on pre ->
  (stop.1 = SDone \/ stop.1 = SEvent None \/ (stop.1 = STick /\ stop.2 = false)) ->
  exists v s' , handleStream env c s = (Ok v, s') /\ server_ok s' /\
    (forall d, log_at (log_in s') d = log_at (log_in s) d) /\
    (status v = 500 \/
     exists id b1, Subscribe (broker (log_in s)) = (Ok id, b1) /\ Cancel id b1 = (Ok tt, broker (log_in s')) /\
       (e_upgrade env = None -> exists fs, body v = JFrames fs /\ frame_events fs = chat_events c pre)).
Proof.
  intros K E P St. destruct (stream_loop_app c pre (stop :: rest) P) as (fs & L & V).
  assert (stream_loop c (stop :: rest) = ([], true)) as Ls.
  { destruct stop as [i w]. cbn in St. destruct St as [->|[->|[-> ->]]]; done. }
  rewrite Ls in L. cbn in L. rewrite app_nil_r in L.
  destruct (handleStream_run env c s K) as (v & s' & R & K' & Lg & G); [intros _; by rewrite E, L|].
  exists v, s'. split_and!; [done..|]. destruct G as [(id & b1 & Sb & Cn & Ev)|G]; [right|by left].
  exists id, b1. split_and!; [done..|]. intros U. rewrite U, E, L in Ev. exists fs. by rewrite Ev.
Qed.
End Properties.

(** ** A server over the in-memory ports *)

Module ApiSample.
#[export] Existing Instance BucketSample.token_bucket.

Definition serving (n : nat) : Server InMemoryStorage InMemoryCache InMemoryBroker :=
  NewServer (NewMessenger (LogSample.after "c" n)).

(** No token for any client. *)
Definition limited (n : nat) : Server InMemoryStorage InMemoryCache InMemoryBroker :=
  WithRateLimit {| rps := 1; burst := 0; idle := Minute; buckets := ∅; done_closed := false; looping := true |}
    (serving n).

Lemma serving_ok n : Z.of_nat n < 2 ^ 63 -> server_ok (serving n).
Proof. intros L. split; [exact (LogSample.after_ok "c" n L)|exact (LogSample.after_unlocked "c" n L)]. Qed.

Lemma serving_log n c : log_at (log_in (serving n)) c = log_at (LogSample.after "c" n) c.
Proof. done. Qed.

Lemma serving_room n : Z.of_nat n < 2 ^ 63 -> room (log_in (serving n)) 1.
Proof.
  intros L d. rewrite serving_log, log_at_length.
  destruct (LogSample.after_facts "c" n L) as (_ & _ & E & _).
  rewrite E, LogSample.script_spec. case_decide; [rewrite length_map, length_seq|]; cbn [length]; lia.
Qed.

Definition env : Env := {|
  e_seen := LogSample.epoch; e_allow := LogSample.epoch; e_now := LogSample.epoch;
  e_seed := Ok LogSample.key; e_random := Ok LogSample.key; e_upgrade := None;
  e_stream := [(SEvent (Some (BrokerSample.ev 0)), true); (STick, true); (SDone, true)] |}.

Lemma env_answers : answers env.
Proof.
  split; [left; by eexists|left; by eexists|]. intros c. cbn.
  by case_bool_decide.
Qed.

(** A client posts a signed message to chat [c]. *)
Definition post (n : nat) : Request := {|
  r_method := POST; r_path := ["chats"; "c"; "messages"]%string; r_query := fun _ => ""%string;
  r_body := default [] (print <$> encode_message false (LogSample.signed "c" n)); r_cut := false;
  r_remote := "10.0.0.1:4711" |}.
End ApiSample.

Section Witnesses.
Import ApiSample.
#[local] Opaque LogSample.after LogSample.signed.

Lemma every_request_answered_witness : exists v s', Handler env (post 3) (serving 3) = (Ok v, s') /\ server_ok s'.
Proof.
  exact (every_request_answered env (post 3) (serving 3) (serving_ok 3 eq_refl) (serving_room 3 eq_refl) env_answers).
Defined.

Lemma reads_do_not_write_witness : exists v s',
  Handler env (page_request "c" 0 10) (serving 3) = (Ok v, s') /\
  log_at (log_in s') "c" = log_at (log_in (serving 3)) "c".
Proof.
  destruct (reads_do_not_write env (page_request "c" 0 10) (serving 3) (serving_ok 3 eq_refl) env_answers)
    as (v & s' & E & L & _); [discriminate|].
  exists v, s'. split; [exact E|exact (L _)].
Defined.

Lemma send_binds_chat_witness : exists v s',
  handleSubmit 0 env (post 3) "d" (serving 3) = (Ok v, s') /\ (status v = 201 \/ status v = 400 \/ status v = 422).
Proof.
  destruct (send_binds_chat 0 env (post 3) "d" (serving 3) (serving_ok 3 eq_refl) (serving_room 3 eq_refl))
    as (v & s' & E & [(m & e & -> & _)|[St _]]).
  - exists (writeJSON 201 (JEntry e)), s'. split; [exact E|left; reflexivity].
  - exists v, s'. split; [exact E|right; exact St].
Defined.

Lemma get_message_contract_witness :
  (exists e, handleMessage "c" "2" (serving 3) = (Ok (writeJSON 200 (JEntry e)), serving 3)) /\
  handleMessage "c" "3" (serving 3) = (Ok (writeError 404 "message not found"), serving 3) /\
  handleMessage "c" "-1" (serving 3) =
    (Ok (writeError 400 "sequence must be a non-negative integer"), serving 3).
Proof.
  pose proof (fun t => get_message_contract "c" t (serving 3) (serving_ok 3 eq_refl)) as T.
  assert (length (log_at (log_in (serving 3)) "c") = 3%nat) as L by exact (LogSample.after_length "c" 3 eq_refl).
  revert T L. generalize (serving 3). intros s T L.
  destruct (lookup_lt_is_Some_2 (log_at (log_in s) "c") 2) as [e E]; [rewrite L; lia|].
  assert (ParseUint "2" = Some 2 /\ ParseUint "3" = Some 3 /\ ParseUint "-1" = None) as (P2 & P3 & P1)
    by (vm_compute; auto).
  split; [exists e; rewrite T, P2; change (Z.to_nat 2) with 2%nat; by rewrite E|].
  split; rewrite T; [rewrite P3; change (Z.to_nat 3) with 3%nat; by rewrite lookup_ge_None_2 by (rewrite L; lia)|by rewrite P1].
Defined.

Lemma rate_limit_contract_witness : exists v s',
  Handler env (page_request "c" 0 10) (limited 3) = (Ok v, s') /\ status v = 429.
Proof.
  destruct (proj2 (rate_limit_contract env (page_request "c" 0 10) (limited 3) _ eq_refl)) as (v & s' & E & St & _).
  - discriminate.
  - reflexivity.
  - exists v, s'. split; [exact E|exact St].
Defined.

Lemma history_walk_complete_witness :
  walk 251 "c" 60 0 (serving 250) = Some (log_at (log_in (serving 250)) "c").
Proof.
  apply (history_walk_complete "c" 60 0 (serving 250) 251 (serving_ok 250 eq_refl)); [unfold is_u64; lia|lia|].
  assert (length (log_at (log_in (serving 250)) "c") = 250%nat) as L by exact (LogSample.after_length "c" 250 eq_refl).
  revert L. generalize (serving 250). intros s L. change (Z.to_nat 0) with 0%nat. rewrite drop_0, L. lia.
Defined.

Lemma stream_contract_witness : exists v s', handleStream env "c" (serving 3) = (Ok v, s') /\ server_ok s'.
Proof.
  destruct (stream_contract env "c" (serving 3) [(SEvent (Some (BrokerSample.ev 0)), true); (STick, true)]
    (SDone, true) [] (serving_ok 3 eq_refl) eq_refl) as (v & s' & E & K & _).
  - repeat constructor.
  - left. reflexivity.
  - exists v, s'. split; [exact E|exact K].
Defined.
End Witnesses.
