(* ===== verification/ApiJson.v ===== *)
(** * ApiJson: the bytes of the responses

    The documents [json.NewEncoder(w).Encode] writes for the values the
    handlers answer with, by the tags of their fields ([internal/chatlog],
    [internal/merkle], [internal/models], [internal/api]), and what a client
    reads from them: a signed message that is posted as JSON comes back from
    the node as the entry it became, pages are read back whole, and what
    happens when a value has no JSON ([writeJSON] ignores the error). *)
From S2P Require Import Prelude Codec JsonText GoTime JsonTree JsonUtf8 TimeText Sha256 Models Merkle Crypto Storage Cache Broker Wire Chatlog LogFacts LogReads LogContract Service RateLimit Api ApiContract.

(** ** Documents *)

Section Encode.
(** Whether an entry's empty content is nil: the lists of the model do not
    tell, and [null] is written for nil. *)
Variable nil_content : LogEntry -> bool.

(** A slice whose elements are written as [vs]: [null] when it is nil. *)
Definition jslice {A} (s : Slice A) (vs : list json) : json :=
  match s with nil_slice => JNull | made _ => JArr vs end.

(** A string field with [omitempty]. *)
Definition jreason (s : string) : list (list byte * json) :=
  if bool_decide (s = ""%string) then [] else [key "reason" (jstring s)].

Definition encode_node (n : ProofNode) : json :=
  JObj [key "hash" (jstring (Hash n)); key "is_left" (JBool (IsLeft n))].

Definition encode_snapshot (n : MerkleSnapshot) : option json :=
  t ← jtime (CreatedAt n);
  Some (JObj [key "chat_id" (jstring (snap_ChatID n)); key "snapshot_index" (jint (SnapshotIndex n));
              key "from_sequence" (jint (FromSequence n)); key "to_sequence" (jint (ToSequence n));
              key "merkle_root" (jstring (MerkleRoot n)); key "last_entry_hash" (jstring (LastEntryHash n));
              key "created_at" t]).

Fixpoint encode_entries (es : list LogEntry) : option (list json) :=
  match es with
  | [] => Some []
  | e :: r => v ← encode_entry (nil_content e) e; vs ← encode_entries r; Some (v :: vs)
  end.

Definition encode_history (h : historyResponse) : option json :=
  es ← encode_entries (Messages h);
  Some (JObj [key "messages" (jslice (Messages h) es);
              key "next_from" match NextFrom h with Some n => jint n | None => JNull end]).

Definition encode_proof (p : InclusionProof) : json :=
  JObj [key "chat_id" (jstring (ip_ChatID p)); key "sequence" (jint (ip_Sequence p));
        key "entry_hash" (jstring (ip_EntryHash p)); key "snapshot_index" (jint (ip_SnapshotIndex p));
        key "merkle_root" (jstring (ip_MerkleRoot p));
        key "proof" (jslice (appended (ip_Proof p)) (map encode_node (ip_Proof p)))].

Definition encode_verification (v : MessageVerification) : json :=
  JObj ([key "sequence" (jint (mv_Sequence v)); key "valid" (JBool (mv_Valid v))] ++ jreason (mv_Reason v)).

Definition encode_verify (v : VerifyResult) : json :=
  JObj ([key "valid" (JBool (vr_Valid v)); key "entries" (jint (vr_Entries v))] ++ jreason (vr_Reason v)).

Definition encode_sync (b : SyncBundle) : option json :=
  snap ← match Snapshot b with
         | Some n => v ← encode_snapshot n; Some [key "snapshot" v]
         | None => Some []
         end;
  es ← encode_entries (NewEntries b);
  Some (JObj (snap ++ [key "new_entries" (jslice (NewEntries b) es); key "current_hash" (jstring (CurrentHash b))])).

Definition encode_keys (k : GenerateKeyPairResponse) : json :=
  JObj [key "public_key" (jbytes false (kp_PublicKey k)); key "private_key" (jbytes false (kp_PrivateKey k))].

Definition encode_reply (r : reply) : option json :=
  match r with
  | JError msg => Some (JObj [key "error" (jstring msg)])
  | JStatus st => Some (JObj [key "status" (jstring st)])
  | JEntry e => encode_entry (nil_content e) e
  | JHistory h => encode_history h
  | JMessageVerification v => Some (encode_verification v)
  | JProof p => Some (encode_proof p)
  | JVerify v => Some (encode_verify v)
  | JSync b => encode_sync b
  | JContentKey k => Some (JObj [key "content_key" (jbytes false k)])
  | JKeys k => Some (encode_keys k)
  | JFrames _ | JNone => None
  end.

(** [_ = json.NewEncoder(w).Encode(v)]: the document and a newline, or nothing at all. *)
Definition write_body (r : reply) : list byte :=
  match encode_reply r with Some v => print v ++ [x0a] | None => [] end.
End Encode.

(** [conn.WriteJSON(evt)] *)
Definition frame_bytes (ev : Event) : list byte := print (encode_event ev) ++ [x0a].

(** ** What a client reads *)

Definition zero_entry : LogEntry := {| Sequence := 0; Message := zero_message; PrevHash := ""; EntryHash := "" |}.

Definition read_entry (l : list byte) : option LogEntry := v ← scan_all l; decode_entry v zero_entry.

Fixpoint read_entries (vs : list json) : option (list LogEntry) :=
  match vs with
  | [] => Some []
  | v :: r => e ← decode_entry v zero_entry; es ← read_entries r; Some (e :: es)
  end.

Definition history_fields : list string := ["messages"; "next_from"]%string.
(** A page read into an empty [historyResponse]. *)
Definition as_entries (v : json) (_ : Slice LogEntry) : option (Slice LogEntry) :=
  match v with JNull => Some nil_slice | JArr vs => made <$> read_entries vs | _ => None end.
Definition as_pointer (v : json) (_ : option Z) : option (option Z) :=
  match v with JNull => Some None | v => Some <$> as_uint v 0 end.
Definition read_history (l : list byte) : option historyResponse :=
  v ← scan_all l;
  match v with
  | JObj ms =>
      es ← read_field history_fields "messages" as_entries nil_slice ms;
      n ← read_field history_fields "next_from" as_pointer None ms;
      Some {| Messages := es; NextFrom := n |}
  | _ => None
  end.

Section Facts.
Variable nc : LogEntry -> bool.

(** An entry whose JSON says all of it. *)
Record plain_entry (e : LogEntry) : Prop := {
  pe_sequence : is_u64 (Sequence e);
  pe_sendable : sendable (Message e);
  pe_well_formed : well_formed (Message e);
  pe_prev : utf8 (PrevHash e);
  pe_hash : utf8 (EntryHash e);
}.

Lemma arrived_plain_entry e : plain_entry e -> arrived_entry e = e.
Proof.
  intros [_ _ W P Q]. unfold arrived_entry. rewrite arrived_well_formed, !carried_valid by done. by destruct e.
Qed.

Lemma encode_entry_some n e : sendable (Message e) -> exists v, encode_entry n e = Some v.
Proof. intros S. unfold encode_entry. destruct (encode_message_some n _ S) as [v ->]. by eexists. Qed.

Lemma decode_plain_entry n e v : plain_entry e -> encode_entry n e = Some v -> decode_entry v zero_entry = Some e.
Proof.
  intros P E. erewrite decode_encode_entry; [by rewrite arrived_plain_entry|apply P|apply P|done|done].
Qed.

Lemma scan_all_line v : fits v max_depth -> scan_all (print v ++ [x0a]) = Some v.
Proof. intros F. by apply scan_all_printed. Qed.

Lemma read_entry_written e : plain_entry e -> read_entry (write_body nc (JEntry e)) = Some e.
Proof.
  intros P. unfold read_entry, write_body. cbn [encode_reply].
  destruct (encode_entry_some (nc e) e (pe_sendable _ P)) as [v E]. rewrite E.
  rewrite scan_all_line by by eapply encode_entry_fits. cbn [mbind option_bind]. by eapply decode_plain_entry.
Qed.

Lemma encode_entries_some es : Forall plain_entry es -> exists vs, encode_entries nc es = Some vs /\
  fits_elements vs (max_depth - 2) /\ read_entries vs = Some es.
Proof.
  induction 1 as [|e es P _ (vs & E & F & R)]; [by exists []|].
  destruct (encode_entry_some (nc e) e (pe_sendable _ P)) as [v Ev]. exists (v :: vs).
  cbn [encode_entries]. rewrite Ev. cbn [mbind option_bind]. rewrite E. split; [done|].
  split; [split; [by eapply encode_entry_fits|done]|].
  cbn [read_entries]. erewrite decode_plain_entry by done. cbn [mbind option_bind]. by rewrite R.
Qed.

Lemma read_entries_length vs es : read_entries vs = Some es -> length vs = length es.
Proof.
  revert es. induction vs as [|v vs IH]; intros es; cbn; [by intros [= <-]|].
  destruct (decode_entry v zero_entry); [|done]. cbn. destruct (read_entries vs); [|done]. cbn. intros [= <-].
  cbn. f_equal. by apply IH.
Qed.

Definition next_ok (h : historyResponse) : Prop := match NextFrom h with Some n => is_u64 n | None => True end.

Lemma read_history_written h : Forall plain_entry (Messages h) -> next_ok h ->
  read_history (write_body nc (JHistory h)) = Some h.
Proof.
  intros P N. unfold read_history, write_body. cbn [encode_reply]. unfold encode_history.
  destruct (encode_entries_some _ P) as (vs & E & F & R). rewrite E. cbn [mbind option_bind].
  set (next := match NextFrom h with Some n => jint n | None => JNull end).
  assert (fits (jslice (Messages h) vs) (max_depth - 1)) as Fs by (by destruct (Messages h)).
  assert (as_entries (jslice (Messages h) vs) nil_slice = Some (Messages h)) as Rs.
  { destruct (Messages h); [done|]. cbn [jslice as_entries]. by rewrite R. }
  rewrite scan_all_line.
  - cbn [mbind option_bind]. unfold key.
    eapply some_bind; [read_member; exact Rs|]. eapply some_bind; [read_member|].
    { instantiate (1 := NextFrom h). unfold next, next_ok in *. destruct (NextFrom h) as [n|]; [|done].
      change (as_pointer (jint n) None) with (Some <$> as_uint (jint n) 0). by rewrite as_uint_jint. }
    by destruct h.
  - split; [done|]. cbn [foldr key fst snd]. fit_parts; [done|].
    unfold next. destruct (NextFrom h); [apply fits_jint|done].
Qed.

(** A timestamp without a text empties the whole page. *)
Lemma encode_entries_none es e : e ∈ es -> MarshalTime (Timestamp (Message e)) = None -> encode_entries nc es = None.
Proof.
  intros I N. induction es as [|e' es IH]; [by apply elem_of_nil in I|]. cbn [encode_entries].
  apply elem_of_cons in I as [<-|I].
  - unfold encode_entry, encode_message, jtime. by rewrite N.
  - rewrite IH by done. by destruct (encode_entry _ e').
Qed.
End Facts.

(** ** Theorems *)

Lemma hex_utf8 l : utf8 (Hex.EncodeToString l).
Proof.
  apply ascii_string. induction l as [|b l IH]; [constructor|].
  change (Hex.encode (b :: l)) with (Hex.encode_byte b ++ Hex.encode l). apply Forall_app. split; [|done].
  unfold Hex.encode_byte, Hex.hextable. pose proof (byteZ_range b).
  repeat constructor; apply Zbyte_ascii; case_match; div_lia.
Qed.

Section Theorems.
Context {S C B : Type} `{SL : StorageLaws S} `{CL : CacheLaws C} `{BL : BrokerLaws B}.
Context `{HashFunction} `{Ed25519} `{RateLimiter}.
Variable nc : LogEntry -> bool.
Implicit Types s : Server S C B.

Lemma chain_texts i p es e : chain i p es -> utf8 p -> e ∈ es ->
  is_u64 (Sequence e) /\ utf8 (PrevHash e) /\ utf8 (EntryHash e).
Proof.
  intros T. revert e. induction T as [|i p e es K _ IH]; intros f U I; [by apply elem_of_nil in I|].
  assert (utf8 (EntryHash e)) as Ue by (rewrite <-(eo_hash _ _ _ K); apply hex_utf8).
  apply elem_of_cons in I as [->|I]; [|by apply IH].
  split_and!; [rewrite (eo_sequence _ _ _ K); apply u64_range|by rewrite (eo_prev _ _ _ K)|done].
Qed.

(** A message whose JSON says all of it. *)
Record readable (m : SignedMessage) : Prop := {
  rd_sendable : sendable m;
  rd_well_formed : well_formed m;
}.

Lemma log_entry_plain s c e : server_ok s -> e ∈ log_at (log_in s) c -> readable (Message e) -> plain_entry e.
Proof.
  intros [K _] I [Sd Wf]. destruct (lo_chats _ K c) as [T _ _ _].
  destruct (chain_texts _ _ _ e T (eq_refl _) I) as (Q & P & Hh). by split.
Qed.

(** What a client puts into a request body: the JSON of its message, and
    whatever follows it. *)
Record posted (r : Request) (m : SignedMessage) : Prop := {
  po_nil : bool; po_doc : json; po_rest : list byte;
  po_encoded : encode_message po_nil m = Some po_doc;
  po_body : r_body r = print po_doc ++ po_rest;
  po_stops : stops po_rest;
}.

Lemma posted_decoded r m : readable m -> posted r m -> DecodeMessage (r_cut r) (r_body r) = Some m.
Proof.
  intros [Sd Wf] [n v rest E -> St]. erewrite DecodeMessage_encoded by done. by rewrite arrived_well_formed.
Qed.

(** C19: from a client through JSON into the log and back.  A message signed
    for a chat, with UTF-8 texts, a time JSON can write, a sender, a key, a
    signature and a content within the cap, and posted there as JSON is answered with 201 and the entry it
    became, chained to the last one; the bytes of that answer are read back as
    the entry, and a request for its sequence then gives the same bytes. *)
Theorem post_read_roundtrip cap env r m s (c := ChatID m) (e := new_entry (log_at (log_in s) c) m) :
  server_ok s -> room (log_in s) 1 -> readable m -> posted r m -> acceptable m = true ->
  SenderID m <> ""%string -> PublicKey m <> [] -> Signature m <> [] ->
  cap <= 0 \/ Z.of_nat (length (Content m)) <= cap ->
  exists s', handleSubmit cap env r c s = (Ok (writeJSON 201 (JEntry e)), s') /\ server_ok s' /\
    log_at (log_in s') c = log_at (log_in s) c ++ [e] /\
    read_entry (write_body nc (JEntry e)) = Some e /\
    handleMessage c (Dec.Itoa (Z.of_nat (length (log_at (log_in s) c)))) s' = (Ok (writeJSON 200 (JEntry e)), s').
Proof.
  intros K R Rd Po A Sn Pk Sg Cap. destruct (Append_cases (e_now env) m (log_in s) (sv_log _ K) (sv_unlocked _ K) R)
    as (l' & E & K' & U' & Acc). rewrite A in E, Acc.
  assert (server_ok (with_log l' s)) as Ks by by split.
  assert (log_at (log_in (with_log l' s)) c = log_at (log_in s) c ++ [e]) as L.
  { pose proof (up_log _ _ _ _ _ _ _ Acc c) as L. by rewrite decide_True in L. }
  exists (with_log l' s). split; [|split; [done|]].
  - unfold handleSubmit, decodeSignedMessage. rewrite (posted_decoded r m Rd Po).
    rewrite bool_decide_eq_false_2 by done.
    rewrite (proj2 (Nat.eqb_neq (length (PublicKey m)) 0)), (proj2 (Nat.eqb_neq (length (Signature m)) 0))
      by (by intros ?%nil_length_inv).
    cbn [orb]. assert (for_chat c m = m) as -> by (by destruct m).
    assert (on_svc (Submit (e_now env) m cap) s = (Ok e, with_log l' s)) as Es.
    { unfold Submit. assert ((0 <? cap) && (cap <? Z.of_nat (length (Content m))) = false) as -> by lia.
      by apply on_svc_run. }
    erewrite bind_ok by (apply try_ok; exact Es). done.
  - split; [done|]. split.
    + apply read_entry_written, (log_entry_plain (with_log l' s) c); [done|rewrite L; apply elem_of_app; right; by left|done].
    + rewrite get_message_contract by done.
      assert (is_u64 (Z.of_nat (length (log_at (log_in s) c)))) as Q by (specialize (R c); unfold is_u64; lia).
      rewrite ParseUint_Itoa, L by done. by rewrite Nat2Z.id, list_lookup_middle.
Qed.

(** Pages are read back whole.  When the timestamps of a chat have a JSON
    text and its strings are UTF-8, the bytes of any page of its history are
    read back as exactly the entries of that page and the cursor of the next. *)
Theorem history_json c from limit s (n := Z.to_nat (Z.min limit 200))
    (page := take n (drop (Z.to_nat from) (log_at (log_in s) c))) :
  server_ok s -> is_u64 from -> 0 < limit < 2 ^ 64 -> Forall (fun e => readable (Message e)) page ->
  exists h, handleHistory (page_request c from limit) c s = (Ok (writeJSON 200 (JHistory h)), s) /\
    read_history (write_body nc (JHistory h)) = Some h /\ Messages h = made page.
Proof.
  intros K F L Rd. eexists. split; [by apply page_run|]. split; [|done].
  assert (page ⊆ log_at (log_in s) c) as Sub.
  { intros e I. apply list_elem_of_lookup in I as [i I]. apply lookup_take_Some in I as [I _].
    rewrite lookup_drop in I. by eapply list_elem_of_lookup_2. }
  apply read_history_written.
  - apply Forall_forall. intros e I. eapply log_entry_plain; [done|by apply Sub|].
    rewrite Forall_forall in Rd. by apply Rd.
  - unfold next_ok. cbn [NextFrom]. case_decide as D; [|done].
    destruct (lo_chats _ (sv_log _ K) c) as [_ _ _ Rm]. apply (f_equal Z.of_nat) in D.
    subst page n. rewrite length_take, length_drop in D. unfold is_u64 in *. lia.
Qed.

(** One timestamp can hide a page.  [Unmarshal] takes a zone offset of 24
    hours that [Marshal] refuses; with such a message among the entries of a
    page (the handler ignores the encoder's error) the answer is 200 with an
    empty body, and so is the answer to a request for that one entry. *)
Theorem unwritable_timestamp c from limit s q e : server_ok s -> is_u64 from -> 0 < limit < 2 ^ 64 ->
  log_at (log_in s) c !! q = Some e -> MarshalTime (Timestamp (Message e)) = None ->
  from <= Z.of_nat q < from + Z.min limit 200 ->
  exists h, handleHistory (page_request c from limit) c s = (Ok (writeJSON 200 (JHistory h)), s) /\
    e ∈ elems (Messages h) /\ write_body nc (JHistory h) = [] /\
    handleMessage c (Dec.Itoa (Z.of_nat q)) s = (Ok (writeJSON 200 (JEntry e)), s) /\
    write_body nc (JEntry e) = [].
Proof.
  intros K F L Lq N Q. eexists. split; [by apply page_run|].
  assert (e ∈ take (Z.to_nat (Z.min limit 200)) (drop (Z.to_nat from) (log_at (log_in s) c))) as I.
  { apply list_elem_of_lookup. exists (q - Z.to_nat from)%nat. destruct F. apply lookup_take_Some. split; [|lia].
    rewrite lookup_drop. by replace (Z.to_nat from + (q - Z.to_nat from))%nat with q by lia. }
  split; [done|]. split; [|split].
  - unfold write_body. cbn [encode_reply]. unfold encode_history. cbn [Messages]. by erewrite encode_entries_none.
  - rewrite get_message_contract by done. pose proof (lookup_lt_Some _ _ _ Lq) as Lt.
    destruct (lo_chats _ (sv_log _ K) c) as [_ _ _ Rm].
    rewrite ParseUint_Itoa by (unfold is_u64; lia). by rewrite Nat2Z.id, Lq.
  - unfold write_body. cbn [encode_reply]. unfold encode_entry, encode_message, jtime. by rewrite N.
Qed.

(** *** The type of what is stored *)

(** Every stored message has the fields a decoded one has. *)
Definition typed s : Prop := forall c, Forall (fun e => received (Message e)) (log_at (log_in s) c).

Lemma for_chat_received c m : utf8 c -> received m -> received (for_chat c m).
Proof. intros U []. by split. Qed.

Lemma handleSubmit_typed cap env r c s : server_ok s -> room (log_in s) 1 -> utf8 c -> typed s ->
  exists v s', handleSubmit cap env r c s = (Ok v, s') /\ server_ok s' /\ typed s'.
Proof.
  intros K R U T. destruct (handleSubmit_run cap env r c s K R) as (v & s' & E & K' & [(m & _ & D & _ & L)|[_ ->]]);
    eexists v, _; (split; [exact E|split; [done|]]); [|done].
  intros d. rewrite L. case_decide; [|done]. apply Forall_app. split; [apply T|]. constructor; [|done].
  by apply for_chat_received, (DecodeMessage_received (r_cut r) (r_body r)).
Qed.

Definition chat_of_route (x : route) : list string :=
  match x with RSend c | RPhoto c | RVideo c => [c] | _ => [] end.

Lemma routes_chat path p x : (p, x) ∈ routes path -> Forall utf8 path -> Forall utf8 (chat_of_route x).
Proof.
  unfold routes, chat_routes, message_routes. intros I F.
  repeat case_match; repeat (apply elem_of_cons in I as [I|I]; [simplify_eq/=; repeat (apply Forall_cons in F as [? F]); by repeat constructor|]);
    by apply elem_of_nil in I.
Qed.

(** C24: the type of the stored messages.  Every request whose path is UTF-8,
    with any body whatever, is answered and keeps it true that every message in
    every log has valid UTF-8 in all its text fields and a schema version of 64
    bits: what the canonical payload needs to tell the fields apart. *)
Theorem stored_messages_typed env r s : server_ok s -> room (log_in s) 1 -> answers env ->
  Forall utf8 (r_path r) -> typed s ->
  exists v s', Handler env r s = (Ok v, s') /\ server_ok s' /\ typed s'.
Proof.
  intros K R A U T. destruct (Handler_cases env r s) as [[rl E]|(v & rl & E & _)]; rewrite E;
    [|do 2 eexists; split; [done|split; [by apply server_ok_limiter|done]]].
  apply (server_ok_limiter _ rl) in K. unfold mux. destruct (find_route _ _) as [x|] eqn:Fr; [|by do 2 eexists].
  apply in_routes in Fr as (p & I & _). pose proof (routes_chat _ _ _ I U) as Uc.
  destruct (read_only x) eqn:RO.
  { destruct (handle_read_only env r x _ (sv_log _ K) RO) as [v Ev]. rewrite Ev. by do 2 eexists. }
  destruct x; try done; cbn [handle chat_of_route] in *;
    try (apply handleSubmit_typed; try done; by inversion Uc).
  - destruct A as [[[a Ea]|[e Ea]] _ _]; unfold HandleGenerateKeys, lift, try; rewrite Ea; cbn; [|by do 2 eexists].
    destruct (ed_keys a). by do 2 eexists.
  - destruct A as [_ [[a Ea]|[e Ea]] _]; unfold handleGenerateContentKey, lift, try; rewrite Ea; cbn; by do 2 eexists.
  - destruct (handleStream_run env chatID _ K) as (v & s' & Ev & K' & L & _); [intros _; by apply A|].
    exists v, s'. split; [exact Ev|]. split; [done|]. intros d. rewrite L. apply T.
Qed.
End Theorems.


(** ** On the sample server *)

Module JsonSample.
Import ApiSample.

Lemma signed_readable c n : utf8 c -> readable (LogSample.signed c n).
Proof.
  intros U. split; [split|by apply LogSample.signed_well_formed].
  - rewrite (same_SchemaVersion _ _ (proj1 (LogSample.signed_same c n))). unfold CurrentSchemaVersion. cbn [SchemaVersion LogSample.draft]. unfold CurrentSchemaVersion. lia.
  - rewrite LogSample.signed_timestamp. split; [vm_compute; split; discriminate|by exists 0|reflexivity].
Qed.

Lemma after_readable c n : Z.of_nat n < 2 ^ 63 -> utf8 c ->
  Forall (fun e => readable (Message e)) (log_at (LogSample.after c n) c).
Proof.
  intros L V. assert (Forall readable (messages_at (LogSample.after c n) c)) as F; [|unfold messages_at in F; by rewrite List.Forall_map in F].
  rewrite LogSample.after_messages by done. rewrite List.Forall_map. apply Forall_true. intros i. by apply signed_readable.
Qed.

Lemma serving_typed n : Z.of_nat n < 2 ^ 63 -> typed (serving n).
Proof.
  intros L d. rewrite serving_log. destruct (LogSample.after_facts "c" n L) as (_ & _ & E & _).
  assert (Forall received (messages_at (LogSample.after "c" n) d)) as F;
    [|unfold messages_at in F; by rewrite List.Forall_map in F].
  rewrite E, LogSample.script_spec. case_decide; [|constructor]. rewrite List.Forall_map. apply Forall_true. intros i.
  destruct (signed_readable "c" i eq_refl) as [[V _] []]. by split.
Qed.

(** One day east of Greenwich. *)
Definition far_east : SignedMessage := {|
  SchemaVersion := CurrentSchemaVersion; MessageID := "1"; ChatID := "c"; SenderID := "alice";
  Content := bytes "hello"; ContentType := ContentTypeText; Filename := ""; Encrypted := false;
  Timestamp := {| t_nano := 0; t_offset := 86400 |}; PublicKey := LogSample.key; Signature := [] |}.
Definition signed_far_east : SignedMessage :=
  match SignMessage far_east (ed_keys LogSample.key).1 with Ok m => m | _ => far_east end.

Definition far_east_post : Request := {|
  r_method := POST; r_path := ["chats"; "c"; "messages"]%string; r_query := fun _ => ""%string;
  r_body := print (message_doc false signed_far_east
    (JStr (date_time (shown (Timestamp far_east)) ++ zone_text 86400)));
  r_cut := false; r_remote := "10.0.0.1:4711" |}.

(** The empty server after that message. *)
Definition hidden : Server InMemoryStorage InMemoryCache InMemoryBroker :=
  (handleSubmit 0 env far_east_post "c" (serving 0)).2.
Definition hidden_entry : LogEntry := default zero_entry (head (log_at (log_in hidden) "c")).

Lemma far_east_accepted : (handleSubmit 0 env far_east_post "c" (serving 0)).1 = Ok (writeJSON 201 (JEntry hidden_entry)).
Proof. vm_compute. reflexivity. Qed.

Lemma hidden_ok : server_ok hidden.
Proof.
  unfold hidden. destruct (handleSubmit_run 0 env far_east_post "c" (serving 0) (serving_ok 0 eq_refl) (serving_room 0 eq_refl))
    as (v & s' & E & K & _). by rewrite E.
Qed.

Lemma hidden_log : log_at (log_in hidden) "c" !! 0%nat = Some hidden_entry.
Proof. vm_compute. reflexivity. Qed.
End JsonSample.

Section Witnesses.
Import ApiSample JsonSample.
#[local] Opaque LogSample.after LogSample.signed.

Lemma post_read_roundtrip_witness : exists e s',
  handleSubmit 0 env (post 3) "c" (serving 3) = (Ok (writeJSON 201 (JEntry e)), s') /\
  read_entry (write_body (fun _ => false) (JEntry e)) = Some e.
Proof.
  pose proof (signed_readable "c" 3 eq_refl) as R.
  assert (SenderID (LogSample.signed "c" 3) <> ""%string /\ PublicKey (LogSample.signed "c" 3) <> [] /\
    Signature (LogSample.signed "c" 3) <> []) as (Sn & Pk & Sg) by (split_and!; vm_compute; discriminate).
  destruct (encode_message_some false _ (rd_sendable _ R)) as [v E].
  assert (posted (post 3) (LogSample.signed "c" 3)) as Po.
  { exists false v []; [exact E| |exact I]. cbn. rewrite E. cbn. by rewrite app_nil_r. }
  pose proof (LogSample.signed_chat "c" 3) as Cm.
  destruct (post_read_roundtrip (fun _ => false) 0 env (post 3) (LogSample.signed "c" 3) (serving 3)
    (serving_ok 3 eq_refl) (serving_room 3 eq_refl) R Po (LogSample.signed_acceptable "c" 3) Sn Pk Sg) as (s' & T & _ & _ & Q & _);
    [left; lia|].
  rewrite Cm in T, Q. do 2 eexists. split; [exact T|exact Q].
Defined.

Lemma history_json_witness : exists h,
  handleHistory (page_request "c" 1 50) "c" (serving 3) = (Ok (writeJSON 200 (JHistory h)), serving 3) /\
  read_history (write_body (fun _ => false) (JHistory h)) = Some h.
Proof.
  generalize (serving_ok 3 eq_refl) (after_readable "c" 3 eq_refl eq_refl).
  rewrite <-(serving_log 3 "c"). generalize (serving 3). intros s K F.
  assert (is_u64 1) as U by (unfold is_u64; lia).
  destruct (history_json (fun _ => false) "c" 1 50 s K U ltac:(lia) (Forall_take _ _ _ (Forall_drop _ _ _ F)))
    as (h & E & R & _).
  exists h. split; [exact E|exact R].
Defined.

Lemma stored_messages_typed_witness : exists v s',
  Handler env (post 3) (serving 3) = (Ok v, s') /\ typed s'.
Proof.
  assert (typed (serving 3)) as T by exact (serving_typed 3 eq_refl).
  destruct (stored_messages_typed env (post 3) (serving 3) (serving_ok 3 eq_refl) (serving_room 3 eq_refl) env_answers)
    as (v & s' & E & _ & T'); [by repeat constructor|exact T|].
  exists v, s'. split; [exact E|exact T'].
Defined.

Lemma unwritable_timestamp_witness :
  (handleSubmit 0 env far_east_post "c" (serving 0)).1 = Ok (writeJSON 201 (JEntry hidden_entry)) /\
  exists h, handleHistory (page_request "c" 0 50) "c" hidden = (Ok (writeJSON 200 (JHistory h)), hidden) /\
    write_body (fun _ => false) (JHistory h) = [].
Proof.
  split; [exact far_east_accepted|].
  assert (MarshalTime (Timestamp (Message hidden_entry)) = None) as N by (vm_compute; reflexivity).
  generalize hidden_ok, hidden_log, N. generalize hidden, hidden_entry. intros s e K L Ne.
  assert (is_u64 0) as U by (unfold is_u64; lia).
  destruct (unwritable_timestamp (fun _ => false) "c" 0 50 s 0 e K U ltac:(lia) L Ne ltac:(lia)) as (h & E & _ & W & _).
  exists h. split; [exact E|exact W].
Defined.
End Witnesses.
