(* ===== verification/Scylla.v ===== *)
(** * Scylla: the ScyllaDB adapter ([internal/storage/scylla.go])

    The adapter maps the operations of the storage port to CQL statements and
    rows to entries and snapshots.  The cluster behind the driver is an
    interface with one operation per statement; [ClusterLaws] states the
    documented behaviour the adapter relies on: tables keyed by their primary
    keys, a conditional insert that never overwrites, an insert that replaces,
    selects in the order of the clustering key, and timestamps with a precision
    of a millisecond. *)
From S2P Require Import Prelude Tables Codec JsonText GoTime Sha256 Models Merkle Crypto Storage Cache Broker Chatlog LogFacts LogReads.

(** A row of [log_entries] without its partition key, and one of [snapshots]. *)
Record entry_row := {
  er_sequence : Z;
  er_schema_version : Z;
  er_message_id : string;
  er_sender_id : string;
  er_content : list byte;
  er_content_type : string;
  er_filename : string;
  er_encrypted : bool;
  er_ts : Time;
  er_public_key : list byte;
  er_signature : list byte;
  er_prev_hash : string;
  er_entry_hash : string;
}.

Record snapshot_row := {
  sr_index : Z;
  sr_from : Z;
  sr_to : Z;
  sr_root : string;
  sr_last_hash : string;
  sr_created_at : Time;
}.

(** [gocql.ErrNotFound] *)
Definition gocql_ErrNotFound : error := External "not found".

(** One operation per statement; a select of one row returns [gocql]'s
    [ErrNotFound] when there is none, an iterator its rows. *)
Class Cluster (D : Type) := {
  insert_entry_if_not_exists : string -> entry_row -> M D bool;
  select_last_entry : string -> M D (list entry_row);
  select_entry : string -> Z -> M D (list entry_row);
  select_entries_from : string -> Z -> M D (list entry_row);
  select_snapshot : string -> Z -> M D snapshot_row;
  insert_snapshot : string -> snapshot_row -> M D unit;
  select_last_snapshot : string -> M D snapshot_row;
}.

(** What a [timestamp] column gives back. *)
Definition column_time (t : Time) : Time := UTC (Truncate t Millisecond).

Definition stored (r : entry_row) : entry_row := {|
  er_sequence := er_sequence r; er_schema_version := er_schema_version r;
  er_message_id := er_message_id r; er_sender_id := er_sender_id r; er_content := er_content r;
  er_content_type := er_content_type r; er_filename := er_filename r; er_encrypted := er_encrypted r;
  er_ts := column_time (er_ts r); er_public_key := er_public_key r; er_signature := er_signature r;
  er_prev_hash := er_prev_hash r; er_entry_hash := er_entry_hash r |}.

Definition stored_snapshot (r : snapshot_row) : snapshot_row := {|
  sr_index := sr_index r; sr_from := sr_from r; sr_to := sr_to r; sr_root := sr_root r;
  sr_last_hash := sr_last_hash r; sr_created_at := column_time (sr_created_at r) |}.

(** A select of at most one row into variables. *)
Definition one_row {R} (o : option R) : outcome R :=
  match o with Some r => Ok r | None => Err gocql_ErrNotFound end.

Class ClusterLaws (D : Type) `{Cluster D} := {
  entry_rows : D -> string -> gmap Z entry_row;
  snapshot_rows : D -> string -> gmap Z snapshot_row;
  insert_law c r d :
    exists d', insert_entry_if_not_exists c r d =
        (Ok (bool_decide (entry_rows d c !! er_sequence r = None)), d') /\
      (forall b, entry_rows d' b =
        if decide (b = c /\ entry_rows d c !! er_sequence r = None)
        then <[er_sequence r := stored r]> (entry_rows d c) else entry_rows d b) /\
      (forall b, snapshot_rows d' b = snapshot_rows d b);
  select_law c q d :
    select_entry c q d = (Ok (option_list (entry_rows d c !! q)), d);
  select_last_law c d :
    select_last_entry c d = (Ok (option_list (last (ordered (entry_rows d c)))), d);
  select_from_law c q d :
    select_entries_from c q d = (Ok (rows_from q (entry_rows d c)), d);
  insert_snapshot_law c r d :
    exists d', insert_snapshot c r d = (Ok tt, d') /\
      (forall b, entry_rows d' b = entry_rows d b) /\
      (forall b, snapshot_rows d' b =
        if decide (b = c) then <[sr_index r := stored_snapshot r]> (snapshot_rows d c) else snapshot_rows d b);
  select_snapshot_law c i d : select_snapshot c i d = (one_row (snapshot_rows d c !! i), d);
  select_last_snapshot_law c d :
    select_last_snapshot c d = (one_row (last (ordered (snapshot_rows d c))), d);
}.

Section Scylla.
Context {D : Type} `{Cluster D}.

Record Scylla := { session : D }.

Definition on_session {A} : M D A -> M Scylla A := zoom session (fun d _ => {| session := d |}).

(** [scanEntry] on a row; [uint64(seq)] and [ts.UTC()]. *)
Definition scanEntry (chatID : string) (r : entry_row) : LogEntry := {|
  Sequence := u64 (er_sequence r);
  Message := {|
    SchemaVersion := er_schema_version r; MessageID := er_message_id r; ChatID := chatID;
    SenderID := er_sender_id r; Content := er_content r; ContentType := er_content_type r;
    Filename := er_filename r; Encrypted := er_encrypted r; Timestamp := UTC (er_ts r);
    PublicKey := er_public_key r; Signature := er_signature r |};
  PrevHash := er_prev_hash r;
  EntryHash := er_entry_hash r;
|}.

(** The values bound to the insert; [int64(entry.Sequence)]. *)
Definition entry_columns (e : LogEntry) : entry_row := {|
  er_sequence := i64 (Sequence e);
  er_schema_version := SchemaVersion (Message e); er_message_id := MessageID (Message e);
  er_sender_id := SenderID (Message e); er_content := Content (Message e);
  er_content_type := ContentType (Message e); er_filename := Filename (Message e);
  er_encrypted := Encrypted (Message e); er_ts := Timestamp (Message e);
  er_public_key := PublicKey (Message e); er_signature := Signature (Message e);
  er_prev_hash := PrevHash e; er_entry_hash := EntryHash e |}.

Definition scylla_AppendEntry (chatID : string) (entry : LogEntry) : M Scylla unit :=
  applied ← on_session (insert_entry_if_not_exists chatID (entry_columns entry));
  if negb applied then throw ErrSequenceGap else mret tt.

(** The first row of an iterator, or [ErrNotFound]. *)
Definition first_entry (chatID : string) (rows : list entry_row) : M Scylla LogEntry :=
  match rows with r :: _ => mret (scanEntry chatID r) | [] => throw ErrNotFound end.

Definition scylla_LastEntry (chatID : string) : M Scylla LogEntry :=
  rows ← on_session (select_last_entry chatID); first_entry chatID rows.

Definition scylla_Entry (chatID : string) (sequence : Z) : M Scylla LogEntry :=
  rows ← on_session (select_entry chatID (i64 sequence)); first_entry chatID rows.

Definition scylla_EntriesSince (chatID : string) (fromSequence : Z) : M Scylla (Slice LogEntry) :=
  rows ← on_session (select_entries_from chatID (i64 fromSequence));
  mret (appended (map (scanEntry chatID) rows)).

(** [if err == gocql.ErrNotFound { return ErrNotFound }] *)
Definition not_found_mapped {A} (m : M Scylla A) : M Scylla A :=
  r ← try m;
  match r with
  | inl a => mret a
  | inr err => if decide (err = gocql_ErrNotFound) then throw ErrNotFound else throw err
  end.

Definition scylla_SnapshotAt (chatID : string) (index : Z) : M Scylla MerkleSnapshot :=
  r ← not_found_mapped (on_session (select_snapshot chatID (i64 index)));
  mret {| snap_ChatID := chatID; SnapshotIndex := index; FromSequence := u64 (sr_from r);
          ToSequence := u64 (sr_to r); MerkleRoot := sr_root r; LastEntryHash := sr_last_hash r;
          CreatedAt := UTC (sr_created_at r) |}.

(** The values bound to the insert of a snapshot. *)
Definition snapshot_columns (snap : MerkleSnapshot) : snapshot_row := {|
  sr_index := i64 (SnapshotIndex snap); sr_from := i64 (FromSequence snap);
  sr_to := i64 (ToSequence snap); sr_root := MerkleRoot snap;
  sr_last_hash := LastEntryHash snap; sr_created_at := CreatedAt snap |}.

Definition scylla_SaveSnapshot (snap : MerkleSnapshot) : M Scylla unit :=
  on_session (insert_snapshot (snap_ChatID snap) (snapshot_columns snap)).

Definition scylla_LatestSnapshot (chatID : string) : M Scylla MerkleSnapshot :=
  r ← not_found_mapped (on_session (select_last_snapshot chatID));
  mret {| snap_ChatID := chatID; SnapshotIndex := u64 (sr_index r); FromSequence := u64 (sr_from r);
          ToSequence := u64 (sr_to r); MerkleRoot := sr_root r; LastEntryHash := sr_last_hash r;
          CreatedAt := UTC (sr_created_at r) |}.

#[global] Instance scylla_storage : Storage Scylla := {
  AppendEntry := scylla_AppendEntry;
  LastEntry := scylla_LastEntry;
  Entry := scylla_Entry;
  EntriesSince := scylla_EntriesSince;
  SaveSnapshot := scylla_SaveSnapshot;
  LatestSnapshot := scylla_LatestSnapshot;
  SnapshotAt := scylla_SnapshotAt;
}.
End Scylla.

(** [NewScylla]: the driver's configuration, and the session it creates. *)
Record ClusterConfig := { Hosts : list string; Keyspace : string; Quorum : bool; Timeout : Z }.

Definition NewScylla {D} (CreateSession : ClusterConfig -> outcome D) (keyspace : string) (hosts : list string)
    : outcome (Scylla (D := D)) :=
  session ← CreateSession {| Hosts := hosts; Keyspace := keyspace; Quorum := true; Timeout := 5 * Second |};
  Ok {| session := session |}.

(** [Close]: the driver's own. *)
Definition scylla_Close {D} (CloseSession : M D unit) : M (Scylla (D := D)) unit := on_session CloseSession.

(** ** Round trips *)

Section Contract.
Context {D : Type} `{CL : ClusterLaws D}.
Implicit Types s : Scylla (D := D).

Lemma on_session_run {A} (m : M D A) s o d : m (session s) = (o, d) -> on_session m s = (o, {| session := d |}).
Proof. intros E. unfold on_session, zoom. by rewrite E. Qed.

Lemma u64_i64 z : is_u64 z -> u64 (i64 z) = z.
Proof.
  intros [P L]. unfold u64, i64. rewrite Zminus_mod_idemp_l. replace (z + 2 ^ 63 - 2 ^ 63) with z by lia.
  by apply Z.mod_small.
Qed.

(** The entry a reader gets for the one that was appended. *)
Definition as_stored (c : string) (e : LogEntry) : LogEntry := scanEntry c (stored (entry_columns e)).

Lemma append_run c e s : entry_rows (session s) c !! i64 (Sequence e) = None ->
  exists s', scylla_AppendEntry c e s = (Ok tt, s') /\
    entry_rows (session s') c !! i64 (Sequence e) = Some (stored (entry_columns e)).
Proof.
  intros N. destruct (insert_law c (entry_columns e) (session s)) as (d' & E & R & _).
  cbn [entry_columns er_sequence] in E, R. rewrite N, bool_decide_eq_true_2 in E by done.
  exists {| session := d' |}. split.
  - unfold scylla_AppendEntry. erewrite bind_ok by (apply on_session_run; exact E). done.
  - cbn. rewrite R, decide_True by done. apply lookup_insert_eq.
Qed.

Lemma entry_run c q s r : entry_rows (session s) c !! i64 q = Some r ->
  scylla_Entry c q s = (Ok (scanEntry c r), s).
Proof.
  intros E. unfold scylla_Entry.
  erewrite bind_ok by (apply on_session_run, select_law). rewrite E. by destruct s.
Qed.

(** An entry under its chat, with a time the column can hold. *)
Lemma as_stored_id c e : is_u64 (Sequence e) -> ChatID (Message e) = c ->
  Truncate (Timestamp (Message e)) Millisecond = Timestamp (Message e) ->
  t_offset (Timestamp (Message e)) = 0 -> as_stored c e = e.
Proof.
  intros U Ch T O. unfold as_stored, scanEntry, stored, entry_columns, column_time.
  cbn. rewrite u64_i64 by done. subst c. destruct e as [q m p h]. cbn in *. rewrite T. destruct m. cbn in *.
  destruct Timestamp. cbn in O. subst. done.
Qed.

(** An entry survives the database.  What is read back for an entry that
    was appended under its chat is that entry, with its time cut to the
    millisecond and in UTC: exactly the same entry when its timestamp was on a
    whole millisecond and in UTC, as [NewMessage] makes them. *)
Theorem scylla_roundtrip c e s : is_u64 (Sequence e) -> ChatID (Message e) = c ->
  entry_rows (session s) c !! i64 (Sequence e) = None ->
  exists s', scylla_AppendEntry c e s = (Ok tt, s') /\
    scylla_Entry c (Sequence e) s' = (Ok (as_stored c e), s') /\
    (Truncate (Timestamp (Message e)) Millisecond = Timestamp (Message e) ->
     t_offset (Timestamp (Message e)) = 0 -> as_stored c e = e).
Proof.
  intros U Ch N. destruct (append_run c e s N) as (s' & E & R). exists s'. split; [done|].
  split; [by apply entry_run|]. by apply as_stored_id.
Qed.

(** Entries are immutable, gaps are not noticed.  An append at a sequence
    that is taken is refused with [ErrSequenceGap] and every row stays as it
    was; but an append at any free sequence is accepted, however far beyond the
    end: contiguity, which the port asks for, is left to the caller. *)
Theorem scylla_append_contract c e s :
  match entry_rows (session s) c !! i64 (Sequence e) with
  | Some r => exists s', scylla_AppendEntry c e s = (Err ErrSequenceGap, s') /\
      forall b, entry_rows (session s') b = entry_rows (session s) b
  | None => exists s', scylla_AppendEntry c e s = (Ok tt, s')
  end.
Proof.
  destruct (entry_rows (session s) c !! i64 (Sequence e)) as [r|] eqn:N;
    [|destruct (append_run c e s N) as (s' & E & _); by exists s'].
  destruct (insert_law c (entry_columns e) (session s)) as (d' & E & R & _).
  cbn [entry_columns er_sequence] in E, R. rewrite N, bool_decide_eq_false_2 in E by done.
  exists {| session := d' |}. split.
  - unfold scylla_AppendEntry. erewrite bind_ok by (apply on_session_run; exact E). done.
  - intros b. cbn. rewrite R, decide_False; [done|]. intros [_ ?]. congruence.
Qed.

(** Times finer than a millisecond break the chain.  An entry whose
    timestamp is not on a whole millisecond, which nothing refuses on the way
    in, is read back with another signing payload, so its hash no longer
    matches, unless the bytes hashed for the two contain a collision. *)
Theorem scylla_submillisecond `{HashFunction} c e : is_u64 (Sequence e) -> ChatID (Message e) = c ->
  well_formed (Message e) -> rfc3339_year (column_time (Timestamp (Message e))) ->
  EntryHash e = ComputeHash e -> t_nano (Timestamp (Message e)) mod Millisecond <> 0 ->
  ComputeHash (as_stored c e) <> EntryHash (as_stored c e) \/
  collides (hashed_bytes (as_stored c e) ++ hashed_bytes e).
Proof.
  intros U Ch W Y Hh Sub. destruct (decide (ComputeHash (as_stored c e) = EntryHash (as_stored c e))) as [E|]; [|by left].
  change (EntryHash (as_stored c e)) with (EntryHash e) in E. rewrite Hh in E. right.
  destruct (ComputeHash_binds_in (hashed_bytes (as_stored c e) ++ hashed_bytes e) (as_stored c e) e)
    as [[_ _ M _]|]; try done.
  - destruct W. split; cbn; try done. by rewrite <-Ch.
  - apply u64_range.
  - by apply list_subseteq_app_l.
  - by apply list_subseteq_app_r.
  - exfalso. apply Sub. pose proof (same_Timestamp _ _ M) as T. cbn in T. rewrite <-T.
    unfold Truncate. change (Millisecond <=? 0) with false. cbn. unfold Millisecond, zero_nano, Second.
    div_lia.
Qed.
End Contract.

(** ** A cluster with two tables in memory *)

Module ClusterSample.
Record tables := {
  log_entries : gmap string (gmap Z entry_row);
  snapshots_table : gmap string (gmap Z snapshot_row);
}.

(** A partition that was never written is empty. *)
Definition partition {R} (t : gmap string (gmap Z R)) (c : string) : gmap Z R := default ∅ (t !! c).

Lemma partition_insert {R} (t : gmap string (gmap Z R)) c m b :
  partition (<[c := m]> t) b = if decide (b = c) then m else partition t b.
Proof.
  unfold partition. case_decide; [subst; by rewrite lookup_insert_eq|by rewrite lookup_insert_ne].
Qed.

#[global] Instance tables_cluster : Cluster tables := {
  insert_entry_if_not_exists c r d :=
    let rows := partition (log_entries d) c in
    match rows !! er_sequence r with
    | None => (Ok true, {| log_entries := <[c := <[er_sequence r := stored r]> rows]> (log_entries d);
                           snapshots_table := snapshots_table d |})
    | Some _ => (Ok false, d)
    end;
  select_last_entry c d := (Ok (option_list (last (ordered (partition (log_entries d) c)))), d);
  select_entry c q d := (Ok (option_list (partition (log_entries d) c !! q)), d);
  select_entries_from c q d := (Ok (rows_from q (partition (log_entries d) c)), d);
  select_snapshot c i d := (one_row (partition (snapshots_table d) c !! i), d);
  insert_snapshot c r d :=
    (Ok tt, {| log_entries := log_entries d;
               snapshots_table := <[c := <[sr_index r := stored_snapshot r]> (partition (snapshots_table d) c)]>
                                    (snapshots_table d) |});
  select_last_snapshot c d := (one_row (last (ordered (partition (snapshots_table d) c))), d);
}.

#[global] Program Instance tables_laws : ClusterLaws tables := {
  entry_rows d c := partition (log_entries d) c;
  snapshot_rows d c := partition (snapshots_table d) c;
}.
Next Obligation.
  intros c r d. cbn. destruct (partition (log_entries d) c !! er_sequence r) eqn:E;
    eexists; (split; [done|split; [|done]]); intros b; cbn.
  - rewrite decide_False; [done|]. naive_solver.
  - rewrite partition_insert. destruct (decide (b = c)) as [->|N].
    + by rewrite decide_True by done.
    + by rewrite decide_False by naive_solver.
Qed.
Next Obligation. done. Qed.
Next Obligation. done. Qed.
Next Obligation. done. Qed.
Next Obligation. intros c r d. eexists. split; [done|]. split; [done|]. intros b. apply partition_insert. Qed.
Next Obligation. done. Qed.
Next Obligation. done. Qed.

Definition empty : Scylla (D := tables) := {| session := {| log_entries := ∅; snapshots_table := ∅ |} |}.

(** The sample entry, and one half a millisecond later. *)
Definition late : LogEntry :=
  let m := {|
    SchemaVersion := 1; MessageID := ""; ChatID := "c1"; SenderID := "alice"; Content := bytes "hello";
    ContentType := ContentTypeText; Filename := ""; Encrypted := false;
    Timestamp := Add ModelSample.noon 500000; PublicKey := replicate 32 x41; Signature := [] |} in
  let e h := {| Sequence := 0; Message := m; PrevHash := GenesisHash; EntryHash := h |} in
  e (ComputeHash (e ""%string)).
End ClusterSample.

Lemma scylla_roundtrip_witness : exists s',
  scylla_AppendEntry "c1" ModelSample.twelfth ClusterSample.empty = (Ok tt, s') /\
  scylla_Entry "c1" 12 s' = (Ok ModelSample.twelfth, s').
Proof.
  destruct (scylla_roundtrip "c1" ModelSample.twelfth ClusterSample.empty) as (s' & E & R & T);
    [unfold is_u64; cbn; lia|done|done|].
  exists s'. split; [exact E|]. rewrite (T eq_refl eq_refl) in R. exact R.
Defined.

Lemma scylla_submillisecond_witness :
  ComputeHash (as_stored "c1" ClusterSample.late) <> EntryHash (as_stored "c1" ClusterSample.late) \/
  collides (hashed_bytes (as_stored "c1" ClusterSample.late) ++ hashed_bytes ClusterSample.late).
Proof.
  apply scylla_submillisecond.
  - unfold is_u64. cbn. lia.
  - reflexivity.
  - apply well_formed_b_ok. vm_compute. reflexivity.
  - apply (bool_decide_unpack _). vm_compute. exact I.
  - vm_compute. reflexivity.
  - vm_compute. discriminate.
Defined.
