(* ===== verification/ScyllaLog.v ===== *)
(** * ScyllaLog: the log on ScyllaDB

    A log over the ScyllaDB adapter and one over a store that keeps the whole
    contract of the port, the in-memory store for instance, run side by side.
    As long as the messages have times the database can hold and the chats stay
    below [2^63] entries their calls return the same, except for the time of a
    snapshot, which the database cuts to the millisecond, and that a slice
    without entries is nil ([seen_slice]).  So what [LogContract] shows of a log holds of one on ScyllaDB,
    although the adapter leaves contiguity to its caller.  Where the adapter is
    different, sequences from [2^63] on, is shown too. *)
From S2P Require Import Prelude Tables Simulation Codec JsonText GoTime Sha256 Models Merkle Crypto Storage Cache Broker Chatlog LogFacts LogReads LogContract Scylla.

(** ** The store *)

(** A snapshot as it is read back, and a message whose time the column keeps. *)
Definition as_seen (n : MerkleSnapshot) : MerkleSnapshot := {|
  snap_ChatID := snap_ChatID n; SnapshotIndex := SnapshotIndex n; FromSequence := FromSequence n;
  ToSequence := ToSequence n; MerkleRoot := MerkleRoot n; LastEntryHash := LastEntryHash n;
  CreatedAt := column_time (CreatedAt n) |}.

Definition storable (m : SignedMessage) : Prop :=
  Truncate (Timestamp m) Millisecond = Timestamp m /\ t_offset (Timestamp m) = 0.

#[global] Instance storable_dec m : Decision (storable m).
Proof. unfold storable. apply _. Defined.

Definition entry_row_of (e : LogEntry) : entry_row := stored (entry_columns e).
Definition snapshot_row_of (n : MerkleSnapshot) : snapshot_row := stored_snapshot (snapshot_columns n).

Section Store.
Context {D : Type} `{CL : ClusterLaws D} {S : Type} `{SL : StorageLaws S}.
Implicit Types (y : Scylla (D := D)) (s : S).

(** Snapshot number [k] of chat [c] fits in its row. *)
Record snap_fits (c : string) (k : nat) (n : MerkleSnapshot) : Prop := {
  sf_chat : snap_ChatID n = c;
  sf_index : SnapshotIndex n = Z.of_nat k;
  sf_from : is_u64 (FromSequence n);
  sf_to : is_u64 (ToSequence n);
}.

(** The two partitions of a chat hold its entries and its snapshots. *)
Record chat_rel c (es : list LogEntry) (ns : list MerkleSnapshot) rows srows : Prop := {
  cr_rows : table_of (entry_row_of <$> es) rows;
  cr_srows : table_of (snapshot_row_of <$> ns) srows;
  cr_entries : Forall (fun e => as_stored c e = e) es;
  cr_snaps k n : ns !! k = Some n -> snap_fits c k n;
  cr_room : Z.of_nat (length es) < 2 ^ 63;
  cr_fewer : (length ns <= length es)%nat;
}.

Definition store_rel y s : Prop := forall c,
  chat_rel c (log_of s c) (snaps_of s c) (entry_rows (session y) c) (snapshot_rows (session y) c).

Lemma on_session_read {A} (m : M D A) y o : m (session y) = (o, session y) -> on_session m y = (o, y).
Proof. intros E. rewrite (on_session_run _ _ _ _ E). by destruct y. Qed.

Lemma scan_rows c es : Forall (fun e => as_stored c e = e) es ->
  map (scanEntry c) (entry_row_of <$> es) = es.
Proof.
  intros F. change (entry_row_of <$> es) with (map entry_row_of es). rewrite map_map. rewrite <-(map_id es) at 2. apply map_ext_in. intros e I.
  rewrite Forall_forall in F. apply F. by apply list_elem_of_In.
Qed.

Lemma i64_high z : 2 ^ 63 <= z < 2 ^ 64 -> i64 z < 0.
Proof. unfold i64. intros. div_lia. Qed.

Section Reads.
Context (y : Scylla (D := D)) (s : S) (R : store_rel y s) (c : string).

Lemma rel_last : scylla_LastEntry c y = (found (last (log_of s c)), y).
Proof.
  destruct (R c) as [Rr _ Re _ _ _]. unfold scylla_LastEntry.
  erewrite bind_ok by (apply on_session_read, select_last_law). rewrite (ordered_table _ _ Rr), fmap_last.
  destruct (last (log_of s c)) as [e|] eqn:L; [|done]. cbn. unfold mret, M_ret. do 2 f_equal.
  rewrite Forall_forall in Re. apply Re, last_Some_elem_of, L.
Qed.

Lemma rel_entry q : is_u64 q -> scylla_Entry c q y = (found (log_of s c !! Z.to_nat q), y).
Proof.
  intros [P U]. destruct (R c) as [Rr _ Re _ Rm _]. unfold scylla_Entry.
  erewrite bind_ok by (apply on_session_read, select_law).
  destruct (decide (q < 2 ^ 63)) as [L|L].
  - rewrite i64_id by lia. rewrite Rr, decide_True, list_lookup_fmap by done.
    destruct (log_of s c !! Z.to_nat q) as [e|] eqn:E; [|done]. cbn. unfold mret, M_ret. do 2 f_equal.
    rewrite Forall_lookup in Re. by eapply Re.
  - pose proof (i64_high q ltac:(lia)). rewrite Rr, decide_False by lia.
    by rewrite lookup_ge_None_2 by lia.
Qed.

Lemma rel_since q : 0 <= q < 2 ^ 63 -> scylla_EntriesSince c q y = (Ok (appended (drop (Z.to_nat q) (log_of s c))), y).
Proof.
  intros Q. destruct (R c) as [Rr _ Re _ _ _]. unfold scylla_EntriesSince.
  erewrite bind_ok by (apply on_session_read, select_from_law).
  rewrite i64_id, (rows_from_table _ _ _ Rr) by lia. unfold mret, M_ret. do 3 f_equal.
  rewrite <-fmap_drop. by rewrite scan_rows by by apply Forall_drop.
Qed.

(** A sequence from [2^63] on wraps to a negative key, below every row. *)
Lemma since_wraps q : 2 ^ 63 <= q < 2 ^ 64 -> scylla_EntriesSince c q y = (Ok (appended (log_of s c)), y).
Proof.
  intros Q. destruct (R c) as [Rr _ Re _ _ _]. pose proof (i64_high q Q). unfold scylla_EntriesSince.
  erewrite bind_ok by (apply on_session_read, select_from_law).
  rewrite (rows_from_table _ _ _ Rr). replace (Z.to_nat (i64 q)) with 0%nat by lia.
  unfold mret, M_ret. do 3 f_equal. by apply scan_rows.
Qed.

Lemma seen_snapshot k n : snap_fits c k n -> Z.of_nat k < 2 ^ 63 ->
  let r := snapshot_row_of n in
  {| snap_ChatID := c; SnapshotIndex := Z.of_nat k; FromSequence := u64 (sr_from r); ToSequence := u64 (sr_to r);
     MerkleRoot := sr_root r; LastEntryHash := sr_last_hash r; CreatedAt := UTC (sr_created_at r) |} = as_seen n /\
  u64 (sr_index r) = Z.of_nat k.
Proof.
  intros [Ch Ix Fr To] L. cbn. rewrite !u64_i64 by done. rewrite Ix, u64_i64 by (unfold is_u64; lia).
  split; [|done]. unfold as_seen. by rewrite Ch, Ix.
Qed.

Lemma snaps_room k n : snaps_of s c !! k = Some n -> Z.of_nat k < 2 ^ 63.
Proof. destruct (R c) as [_ _ _ _ Rm Fw]. intros L%lookup_lt_Some. lia. Qed.

Lemma rel_latest : scylla_LatestSnapshot c y = (found (as_seen <$> last (snaps_of s c)), y).
Proof.
  destruct (R c) as [_ Rs _ Sn _ _]. unfold scylla_LatestSnapshot, not_found_mapped.
  assert (on_session (select_last_snapshot c) y = (one_row (snapshot_row_of <$> last (snaps_of s c)), y)) as E.
  { rewrite <-fmap_last, <-(ordered_table _ _ Rs). apply on_session_read, select_last_snapshot_law. }
  destruct (last (snaps_of s c)) as [n|] eqn:L.
  - erewrite bind_ok; [|erewrite bind_ok by (apply try_ok; exact E); reflexivity].
    rewrite last_lookup in L. pose proof (snaps_room _ _ L) as Rk.
    destruct (seen_snapshot _ n (Sn _ _ L) Rk) as [A B]. cbv beta zeta. unfold mret, M_ret.
    cbn [fmap option_fmap option_map found]. rewrite <-A. do 3 f_equal. exact B.
  - erewrite bind_err; [done|]. by erewrite bind_ok by (apply try_err; exact E).
Qed.

Lemma rel_at i : 0 <= i < 2 ^ 63 -> scylla_SnapshotAt c i y = (found (as_seen <$> snaps_of s c !! Z.to_nat i), y).
Proof.
  intros I. destruct (R c) as [_ Rs _ Sn _ _]. unfold scylla_SnapshotAt, not_found_mapped.
  assert (on_session (select_snapshot c (i64 i)) y = (one_row (snapshot_row_of <$> snaps_of s c !! Z.to_nat i), y)) as E.
  { rewrite <-list_lookup_fmap. rewrite i64_id by lia.
    rewrite (on_session_read _ _ _ (select_snapshot_law c i (session y))). by rewrite Rs, decide_True by lia. }
  destruct (snaps_of s c !! Z.to_nat i) as [n|] eqn:L.
  - erewrite bind_ok; [|erewrite bind_ok by (apply try_ok; exact E); reflexivity].
    destruct (seen_snapshot _ n (Sn _ _ L)) as [A _]; [lia|]. rewrite Z2Nat.id in A by lia.
    cbv beta zeta. unfold mret, M_ret. cbn [fmap option_fmap option_map found]. by rewrite <-A.
  - erewrite bind_err; [done|]. by erewrite bind_ok by (apply try_err; exact E).
Qed.
End Reads.

(** ** Writes keep the relation *)

Section Writes.
Context (y : Scylla (D := D)) (s : S) (R : store_rel y s) (c : string).

Lemma rel_append e : Sequence e = Z.of_nat (length (log_of s c)) -> as_stored c e = e ->
  Z.of_nat (length (log_of s c)) + 1 < 2 ^ 63 ->
  exists y' s', scylla_AppendEntry c e y = (Ok tt, y') /\ AppendEntry c e s = (Ok tt, s') /\ store_rel y' s' /\
    (forall d, log_of s' d = if decide (d = c) then log_of s c ++ [e] else log_of s d) /\
    (forall d, snaps_of s' d = snaps_of s d).
Proof.
  intros Q Id Rm. destruct (append_contiguous c e s Q) as (s' & E & L & N).
  destruct (insert_law c (entry_columns e) (session y)) as (d' & E1 & L1 & N1).
  cbn [entry_columns er_sequence] in E1, L1. rewrite Q, i64_id in E1, L1 by lia.
  destruct (R c) as [Rr Rs Re Sn Rc Fw].
  assert (entry_rows (session y) c !! Z.of_nat (length (log_of s c)) = None) as Free.
  { rewrite (table_of_lookup _ _ _ Rr). apply lookup_ge_None_2. by rewrite length_fmap. }
  rewrite Free, bool_decide_eq_true_2 in E1 by done.
  exists {| session := d' |}, s'. split; [|split; [exact E|split; [|by split]]].
  - unfold scylla_AppendEntry. erewrite bind_ok by (apply on_session_run; exact E1). done.
  - intros d. cbn [session]. rewrite L, N, L1, N1. destruct (decide (d = c)) as [->|Nd].
    + rewrite decide_True by done. split; [|done| |done| |].
      * rewrite fmap_app. pose proof (table_of_snoc _ _ (entry_row_of e) Rr) as T.
        by rewrite length_fmap in T.
      * apply Forall_app. by split; [|constructor].
      * rewrite length_app. cbn. lia.
      * rewrite length_app. cbn. lia.
    + rewrite decide_False by (intros [? _]; done). apply R.
Qed.

Lemma rel_save n : snap_fits (snap_ChatID n) (length (snaps_of s (snap_ChatID n))) n ->
  (length (snaps_of s (snap_ChatID n)) < length (log_of s (snap_ChatID n)))%nat ->
  exists y' s', scylla_SaveSnapshot n y = (Ok tt, y') /\ SaveSnapshot n s = (Ok tt, s') /\ store_rel y' s'.
Proof.
  set (b := snap_ChatID n). intros F Fewer. destruct (save_snapshot n s) as (s' & E & N & L).
  destruct (insert_snapshot_law b (snapshot_columns n) (session y)) as (d' & E1 & L1 & N1).
  destruct (R b) as [Rr Rs Re Sn Rc Fw].
  exists {| session := d' |}, s'. split; [by apply on_session_run|split; [exact E|]].
  intros d. cbn [session]. rewrite L, N, L1, N1. fold b. destruct (decide (d = b)) as [->|Nd]; [|apply R].
  cbn [sr_index snapshot_columns]. rewrite (sf_index _ _ _ F), i64_id by lia. split; [done| |done| |done|].
  - rewrite fmap_app. pose proof (table_of_snoc _ _ (snapshot_row_of n) Rs) as T. by rewrite length_fmap in T.
  - intros k m [[_ Hk]|[-> <-]]%lookup_snoc_Some; [by apply Sn|done].
  - rewrite length_app. cbn. lia.
Qed.
End Writes.
End Store.

(** ** The operations of the log *)

(** A slice with the same elements that is nil when there are none. *)
Definition seen_slice {A} (w : Slice A) : Slice A := appended (elems w).

Lemma elems_seen {A} (w : Slice A) : elems (seen_slice w) = elems w.
Proof. apply elems_appended. Qed.

Lemma reslice_appended {A} n (l : list A) : (0 < n)%nat -> reslice n (appended l) = appended (take n l).
Proof. destruct l, n; [done|done|lia|done]. Qed.

Definition seen_bundle (b : SyncBundle) : SyncBundle :=
  {| Snapshot := as_seen <$> Snapshot b; NewEntries := seen_slice (NewEntries b); CurrentHash := CurrentHash b |}.

Section Logs.
Context {D : Type} `{CL : ClusterLaws D}.
Context {S C B : Type} `{SL : StorageLaws S} `{CA : CacheLaws C} `{BL : BrokerLaws B}.
Context `{HashFunction} `{Ed25519}.

Abbreviation log1 := (Log (Scylla (D := D)) C B).
Abbreviation log2 := (Log S C B).

(** Two logs over related stores with the same cache, broker and mutexes. *)
Record log_rel (l1 : log1) (l2 : log2) : Prop := {
  lr_store : store_rel (store l1) (store l2);
  lr_cache : cache l1 = cache l2;
  lr_broker : broker l1 = broker l2;
  lr_locks : locks l1 = locks l2;
}.

Abbreviation simL := (sim log_rel).

Lemma sim_read {A1 A2} (V : A1 -> A2 -> Prop) (m1 : M (Scylla (D := D)) A1) (m2 : M S A2) l1 l2 o1 o2 :
  log_rel l1 l2 -> m1 (store l1) = (o1, store l1) -> m2 (store l2) = (o2, store l2) -> osim V o1 o2 ->
  simL V (on_store m1) (on_store m2) l1 l2.
Proof.
  intros R E1 E2 O. eapply sim_runs; [by apply on_store_read|by apply on_store_read|done..].
Qed.

Lemma sim_write {A} (m1 : M (Scylla (D := D)) A) (m2 : M S A) l1 l2 a y s :
  log_rel l1 l2 -> m1 (store l1) = (Ok a, y) -> m2 (store l2) = (Ok a, s) -> store_rel y s ->
  simL eq (on_store m1) (on_store m2) l1 l2.
Proof.
  intros [] E1 E2 Rs. eapply sim_runs; [apply on_store_run, E1|apply on_store_run, E2|done|by split].
Qed.

Lemma sim_cache {A} (m : M C A) l1 l2 : log_rel l1 l2 -> simL eq (on_cache m) (on_cache m) l1 l2.
Proof. intros []. by apply sim_zoom_same. Qed.

Lemma sim_broker {A} (m : M B A) l1 l2 : log_rel l1 l2 -> simL eq (on_broker m) (on_broker m) l1 l2.
Proof. intros []. by apply sim_zoom_same. Qed.

(** What the laws say of the lawful store's [found]. *)
Lemma osim_found {A} (f : A -> A) (o : option A) : osim (fun a1 a2 => a1 = f a2) (found (f <$> o)) (found o).
Proof. by destruct o. Qed.

Lemma sim_entry c q l1 l2 : log_rel l1 l2 -> is_u64 q ->
  simL eq (on_store (Entry c q)) (on_store (Entry c q)) l1 l2.
Proof.
  intros R Q. eapply sim_read; [done|by apply rel_entry, Q; apply R|apply entry_at, Q|by apply osim_eq].
Qed.

Lemma sim_last c l1 l2 : log_rel l1 l2 -> simL eq (on_store (LastEntry c)) (on_store (LastEntry c)) l1 l2.
Proof. intros R. eapply sim_read; [done|apply rel_last, R|apply last_entry|by apply osim_eq]. Qed.

Lemma sim_since c q l1 l2 : log_rel l1 l2 -> 0 <= q < 2 ^ 63 ->
  simL (fun w1 w2 => w1 = seen_slice w2) (on_store (EntriesSince c q)) (on_store (EntriesSince c q)) l1 l2.
Proof. intros R Q. eapply sim_read; [done|by apply rel_since, Q; apply R|apply entries_since, Q|done]. Qed.

(** A snapshot that is read, with the time cut, and what is known of it. *)
Definition seen_of c (l2 : log2) (n1 n2 : MerkleSnapshot) : Prop := n1 = as_seen n2 /\ n2 ∈ snaps_at l2 c.

Lemma sim_latest c l1 l2 : log_rel l1 l2 ->
  simL (seen_of c l2) (on_store (LatestSnapshot c)) (on_store (LatestSnapshot c)) l1 l2.
Proof.
  intros R. eapply sim_read; [done|apply rel_latest, R|apply latest_snapshot|].
  destruct (last _) eqn:L; [|done]. split; [done|]. by apply last_Some_elem_of.
Qed.

Lemma sim_at c i l1 l2 : log_rel l1 l2 -> 0 <= i < 2 ^ 63 ->
  simL (seen_of c l2) (on_store (SnapshotAt c i)) (on_store (SnapshotAt c i)) l1 l2.
Proof.
  intros R I. eapply sim_read; [done|by apply rel_at, I; apply R|apply snapshot_at, I|].
  destruct (_ !! _) eqn:L; [|done]. split; [done|]. by eapply list_elem_of_lookup_2.
Qed.

(** *** Reads *)

Lemma sim_VerifyChain c l1 l2 : log_rel l1 l2 -> simL eq (VerifyChain c) (VerifyChain c) l1 l2.
Proof.
  intros R. eapply sim_bind; [by apply sim_since|]. intros ? w k1 k2 _ _ -> R'.
  rewrite elems_seen. by apply sim_ret.
Qed.

Lemma sim_History c from limit l1 l2 : log_rel l1 l2 -> 0 <= from < 2 ^ 63 ->
  simL (fun w1 w2 => w1 = seen_slice w2) (History c from limit) (History c from limit) l1 l2.
Proof.
  intros R F. eapply sim_bind; [by apply sim_since|]. intros ? w k1 k2 _ _ -> R'.
  rewrite elems_seen. destruct (_ && _) eqn:Cut; apply sim_ret; try done.
  unfold seen_slice. rewrite reslice_appended by lia. by rewrite elems_reslice.
Qed.

Lemma sim_LogEntryAt c q l1 l2 : log_rel l1 l2 -> is_u64 q -> simL eq (LogEntryAt c q) (LogEntryAt c q) l1 l2.
Proof. apply sim_entry. Qed.

Lemma sim_VerifyEntry c q l1 l2 : log_rel l1 l2 -> is_u64 q ->
  simL eq (VerifyEntry c q) (VerifyEntry c q) l1 l2.
Proof.
  intros R Q. eapply sim_bind; [by apply sim_entry|]. intros e ? k1 k2 _ _ <- R1.
  do 3 (case_match; [by apply sim_ret|]).
  eapply sim_bind with (V := eq).
  - destruct (Z.ltb_spec 0 q); [|by apply sim_ret].
    eapply sim_bind; [apply sim_entry; [done|apply u64_range]|]. intros p ? k3 k4 _ _ <- R2. by apply sim_ret.
  - intros p ? k3 k4 _ _ <- R2. case_match; by apply sim_ret.
Qed.

(** The snapshots of a log that holds its invariant. *)
Lemma snapshot_bounds c (l2 : log2) n : log_ok l2 -> Z.of_nat (length (log_at l2 c)) < 2 ^ 63 ->
  n ∈ snaps_at l2 c -> 0 <= FromSequence n < 2 ^ 63 /\ 0 <= ToSequence n + 1 < 2 ^ 63.
Proof.
  intros [K _] Rm (k & L)%list_elem_of_lookup. destruct (K c) as [_ _ [N Each] _].
  pose proof (lookup_lt_Some _ _ _ L) as Lk. destruct (Each k n L) as [_ _ -> -> _ _].
  unfold interval in *. split; div_lia.
Qed.

Lemma sim_ProveInclusion c q l1 l2 : log_rel l1 l2 -> log_ok l2 -> is_u64 q ->
  simL eq (ProveInclusion c q) (ProveInclusion c q) l1 l2.
Proof.
  intros R K [P U]. pose proof (cr_room _ _ _ _ _ (lr_store _ _ R c)) as Rm.
  eapply sim_bind; [apply sim_try, sim_at; [done|unfold SnapshotInterval; div_lia]|].
  intros [n|err] [n'|err'] k1 k2 _ _ T R1; try done; cbn [tried] in T.
  - destruct T as [-> El]. destruct (snapshot_bounds c l2 n' K Rm El) as [Fr _].
    cbv beta iota. cbn [as_seen FromSequence ToSequence MerkleRoot].
    eapply sim_bind; [by apply sim_since|]. intros ? es k3 k4 _ _ -> R2. cbv zeta. rewrite elems_seen.
    case_match; [by apply sim_throw|].
    eapply sim_bind; [by apply sim_lift; [apply osim_eq|]|]. intros ls ? k5 k6 _ _ <- R3.
    destruct (Proof _ _) as [p root]. case_match; [by apply sim_throw|].
    eapply sim_bind; [by apply sim_lift; [apply osim_eq|]|]. intros leaf ? k7 k8 _ _ <- R4. by apply sim_ret.
  - subst err'. cbv beta iota. case_match; by apply sim_throw.
Qed.

(** The bundle differs in the time of the snapshot, and in being nil when it
    brings no entries. *)
Lemma sim_Sync c l1 l2 : log_rel l1 l2 -> log_ok l2 ->
  simL (fun b1 b2 => b1 = seen_bundle b2) (Sync c) (Sync c) l1 l2.
Proof.
  intros R K. pose proof (cr_room _ _ _ _ _ (lr_store _ _ R c)) as Rm.
  eapply sim_bind; [by apply sim_try, sim_latest|]. intros p1 p2 k1 k2 _ _ T R1.
  eapply sim_bind with (V := fun a1 a2 => a1 = (as_seen <$> a2.1, a2.2) /\ 0 <= a2.2 < 2 ^ 63).
  { destruct p1 as [n|err], p2 as [n'|err']; try done; cbn [tried] in T.
    - destruct T as [-> El]. destruct (snapshot_bounds c l2 n' K Rm El) as [_ To]. apply sim_ret; [|done].
      cbn [as_seen ToSequence fst snd]. rewrite u64_id by (unfold is_u64; lia). by split.
    - subst err'. case_match; [by apply sim_ret|by apply sim_throw]. }
  intros [o1 f1] [o2 from] k3 k4 _ _ [[= -> ->] F] R2. cbn [fst snd] in *.
  eapply sim_bind; [by apply sim_since|]. intros ? es k5 k6 _ _ -> R3.
  eapply sim_bind; [by apply sim_try, sim_last|]. intros t1 t2 k7 k8 _ _ T2 R4.
  eapply sim_bind with (V := eq).
  { destruct t1 as [e|err], t2 as [e'|err']; try done; cbn [tried] in T2; subst; [by apply sim_ret|].
    case_match; [by apply sim_ret|by apply sim_throw]. }
  intros h ? k9 k10 _ _ <- R5. by apply sim_ret.
Qed.

(** *** Appending *)

Lemma on_broker_store {S'} {A} (m : M B A) (l : Log S' C B) : store (on_broker m l).2 = store l.
Proof. unfold on_broker, zoom. by destruct (m _). Qed.

Lemma sim_publish ev l1 l2 : log_rel l1 l2 ->
  simL eq (try (on_broker (Publish ev))) (try (on_broker (Publish ev))) l1 l2.
Proof.
  intros R. eapply sim_mono; [|by apply sim_try, sim_broker].
  intros [] [] T; cbn in T; naive_solver.
Qed.

(** The start of [snapshot] over either store: where the next window begins,
    and its number. *)
Definition next_start {S'} `{Storage S'} (c : string) : M (Log S' C B) (Z * Z) :=
  prev ← try (on_store (LatestSnapshot c));
  match prev with
  | inl p => mret (u64 (ToSequence p + 1), u64 (SnapshotIndex p + 1))
  | inr err => if errors_is err ErrNotFound then mret (0, 0) else throw err
  end.

Lemma next_start_run {S'} `{Storage S'} c es0 ns (l : Log S' C B) (f : MerkleSnapshot -> MerkleSnapshot) :
  LatestSnapshot c (store l) = (found (f <$> last ns), store l) ->
  (forall n, ToSequence (f n) = ToSequence n /\ SnapshotIndex (f n) = SnapshotIndex n) ->
  snaps_ok c es0 ns -> Z.of_nat (length es0) + 1 < 2 ^ 64 ->
  next_start c l = (Ok (Z.of_nat (interval * length ns), Z.of_nat (length ns)), l).
Proof.
  intros E F Sn Rm. unfold next_start. destruct (last ns) as [p|] eqn:L.
  - erewrite bind_ok by (apply try_ok, on_store_read, E).
    destruct (next_window c es0 ns p Sn Rm L) as [A1 A2], (F p) as [F1 F2]. by rewrite F1, F2, A1, A2.
  - erewrite bind_ok by (apply try_err, on_store_read, E). cbv beta iota. rewrite errors_is_not_found.
    apply last_None in L. by rewrite L.
Qed.

Lemma sim_snapshot now c es0 tip l1 l2 (es := es0 ++ [tip]) (ns := snaps_at l2 c) : log_rel l1 l2 ->
  log_at l2 c = es -> snaps_ok c es0 ns -> Sequence tip = Z.of_nat (length es0) ->
  simL eq (snapshot now c tip) (snapshot now c tip) l1 l2.
Proof.
  intros R El Sn Q. pose proof (cr_room _ _ _ _ _ (lr_store _ _ R c)) as Rm.
  fold (log_at l2 c) in Rm. rewrite El in Rm. unfold es in Rm. rewrite length_app in Rm. cbn in Rm.
  pose proof (sn_count _ _ _ Sn) as N.
  assert (Z.of_nat (interval * length ns) <= Z.of_nat (length es0)) as Le by (rewrite N; unfold interval; div_lia).
  assert (next_start c l1 = (Ok (Z.of_nat (interval * length ns), Z.of_nat (length ns)), l1)) as E1.
  { apply (next_start_run c es0 ns l1 as_seen); [apply rel_latest, R|done..|lia]. }
  assert (next_start c l2 = (Ok (Z.of_nat (interval * length ns), Z.of_nat (length ns)), l2)) as E2.
  { apply (next_start_run c es0 ns l2 id); [|done..|lia]. rewrite option_fmap_id. apply latest_snapshot. }
  unfold snapshot. eapply sim_ext; [apply (bind_assoc_run (try (on_store (LatestSnapshot c))))..|].
  eapply sim_step; [exact E1|exact E2|]. cbv beta iota.
  eapply sim_step; [apply on_store_read, rel_since; [apply R|lia]|apply on_store_read, entries_since; lia|].
  cbv zeta. cbn [elems]. rewrite elems_appended. eapply sim_bind; [|intros [] [] k1 k2 _ _ _ R1].
  - match goal with |- sim _ _ (on_store (SaveSnapshot ?n)) _ _ _ =>
      destruct (rel_save (store l1) (store l2) (lr_store _ _ R) n) as (y & s & S1 & S2 & Rs) end.
    + cbn [snap_ChatID]. fold (snaps_at l2 c). fold ns.
      split; cbn [snap_ChatID SnapshotIndex FromSequence ToSequence]; [done..|unfold is_u64; lia|].
      rewrite Q. unfold is_u64. lia.
    + cbn [snap_ChatID]. fold (snaps_at l2 c) (log_at l2 c) ns. rewrite El. unfold es, interval in *.
      rewrite length_app. cbn. lia.
    + by eapply sim_write.
  - eapply sim_bind; [by apply sim_cache|]. intros [] [] k3 k4 _ _ _ R2.
    eapply sim_bind; [by apply sim_publish|]. intros r ? k5 k6 _ _ <- R3. by apply sim_ret.
Qed.

(** The same for [append_locked]: the hash and the sequence read off the tip. *)
Definition next_link {S'} `{Storage S'} (c : string) : M (Log S' C B) (string * Z) :=
  tip ← try (on_store (LastEntry c));
  match tip with
  | inl last => mret (EntryHash last, u64 (Sequence last + 1))
  | inr err => if errors_is err ErrNotFound then mret (GenesisHash, 0) else throw (Wrapf "read tip" err)
  end.

Lemma next_link_run {S'} `{Storage S'} c es (l : Log S' C B) :
  LastEntry c (store l) = (found (last es), store l) ->
  chain 0 GenesisHash es -> Z.of_nat (length es) + 1 < 2 ^ 64 ->
  next_link c l = (Ok (tip_hash es, Z.of_nat (length es)), l).
Proof.
  intros E T Rm. unfold next_link, tip_hash, tip_from. destruct (last es) as [e|] eqn:L.
  - erewrite bind_ok by (apply try_ok, on_store_read, E). cbv beta iota.
    rewrite last_lookup in L. pose proof (lookup_lt_Some _ _ _ L).
    rewrite (chain_sequence es _ e T) by (done || lia). rewrite u64_id by (unfold is_u64; lia).
    by replace (Z.of_nat (pred (length es)) + 1) with (Z.of_nat (length es)) by lia.
  - erewrite bind_ok by (apply try_err, on_store_read, E). cbv beta iota. rewrite errors_is_not_found.
    apply last_None in L. by rewrite L.
Qed.

Lemma sim_append_locked now msg l1 l2 (c := ChatID msg) (es := log_at l2 c) : log_rel l1 l2 ->
  chat_ok c es (snaps_at l2 c) -> Z.of_nat (length es) + 1 < 2 ^ 63 -> storable msg ->
  simL eq (append_locked now msg) (append_locked now msg) l1 l2.
Proof.
  intros R [T _ Sn _] Rm [Tr Off].
  assert (next_link c l1 = (Ok (tip_hash es, Z.of_nat (length es)), l1)) as E1
    by (apply next_link_run; [apply rel_last, R|done|lia]).
  assert (next_link c l2 = (Ok (tip_hash es, Z.of_nat (length es)), l2)) as E2
    by (apply next_link_run; [apply last_entry|done|lia]).
  unfold append_locked. eapply sim_ext; [apply (bind_assoc_run (try (on_store (LastEntry c))))..|].
  eapply sim_step; [exact E1|exact E2|]. cbv beta iota zeta. fold c.
  match goal with |- context [AppendEntry c ?x] => change x with (new_entry es msg) end.
  set (e := new_entry es msg).
  destruct (rel_append (store l1) (store l2) (lr_store _ _ R) c e) as (y & s & A1 & A2 & Rs & Ls & Ns); [done| |done|].
  { apply as_stored_id; [|done..]. unfold is_u64. cbn. lia. }
  eapply sim_step; [apply wrapping_ok, on_store_run, A1|apply wrapping_ok, on_store_run, A2|].
  assert (log_rel (set_store y l1) (set_store s l2)) as R1 by (destruct R; by split).
  eapply sim_bind; [by apply sim_publish|]. intros r ? k1 k2 _ P2 <- R2.
  assert (store k2 = s) as Es.
  { pose proof (on_broker_store (Publish {| Kind := EntryAppended; ev_ChatID := c; ev_Sequence := Sequence e;
      ev_EntryHash := EntryHash e |}) (set_store s l2)) as St.
    unfold try in P2. destruct (on_broker _ _) as [[] ?]; by simplify_eq. }
  eapply sim_bind with (V := eq); [|intros [] [] k3 k4 _ _ _ R3; by apply sim_ret].
  case_match; [|by apply sim_ret]. apply sim_wrapping. apply (sim_snapshot now c es).
  - done.
  - unfold log_at. by rewrite Es, Ls, decide_True.
  - unfold snaps_at. by rewrite Es, Ns.
  - done.
Qed.

Lemma log_rel_set_locks k l1 l2 : log_rel l1 l2 -> log_rel (set_locks k l1) (set_locks k l2).
Proof. intros []. by split. Qed.

Lemma sim_Append now msg l1 l2 (c := ChatID msg) : log_rel l1 l2 -> log_ok l2 ->
  Z.of_nat (length (log_at l2 c)) + 1 < 2 ^ 63 -> (acceptable msg = true -> storable msg) ->
  simL eq (Append now msg) (Append now msg) l1 l2.
Proof.
  intros R K Rm St. unfold acceptable in St. unfold Append.
  destruct (supportedVersion _); [|by apply sim_throw]. destruct (VerifyMessage msg); [|by apply sim_throw].
  cbn [negb]. destruct (decide (locks l2 !! c = Some true)) as [Lk|Lk].
  - assert (forall S' (l : Log S' C B), locks l !! c = Some true -> (chatLock c ;; Lock c) l = (Block, l)) as Held.
    { intros S' l E. unfold chatLock, Lock, modify, mbind, M_bind. by rewrite E, E. }
    eapply sim_ext; [apply (bind_assoc_run (chatLock c))..|].
    pose proof (Held _ l2 Lk) as H2'. rewrite <-(lr_locks _ _ R) in Lk. pose proof (Held _ l1 Lk) as H1'.
    eapply sim_bind_block; [exact H1'|exact H2'|done].
  - eapply sim_ext; [apply (bind_assoc_run (chatLock c))..|]. fold c.
    eapply sim_step; [apply take_lock; by rewrite (lr_locks _ _ R)|by apply take_lock|].
    rewrite (lr_locks _ _ R). apply sim_deferring.
    + intros k1 k2 Rk. unfold Unlock. rewrite (lr_locks _ _ Rk). by apply log_rel_set_locks.
    + apply sim_append_locked; [by apply log_rel_set_locks|apply K|done|by apply St].
Qed.

(** Where ScyllaDB is different.  Asked for the history from a sequence of
    [2^63] or more, which is past the end of every chat, a log in memory returns
    nothing; on ScyllaDB the sequence wraps to a negative key and the history
    starts at the first entry again. *)
Theorem history_wraps c q limit l1 l2 : log_rel l1 l2 -> 2 ^ 63 <= q < 2 ^ 64 ->
  History c q limit l1 = (Ok (appended (capped limit (log_at l2 c))), l1) /\
  History c q limit l2 = (Ok (made []), l2).
Proof.
  intros R Q. pose proof (cr_room _ _ _ _ _ (lr_store _ _ R c)) as Rm. split.
  - unfold History, capped. erewrite bind_ok by (apply on_store_read, since_wraps; [apply R|done]).
    rewrite elems_appended. destruct (Z.ltb_spec 0 limit); [|done]. cbn [andb].
    case_match; unfold mret, M_ret; [by rewrite reslice_appended by lia|].
    rewrite take_ge; [done|]. unfold log_at in *. lia.
  - rewrite History_run by lia. rewrite drop_ge by (unfold log_at; lia). unfold capped. by rewrite take_nil; case_match.
Qed.
End Logs.

(** ** An empty database *)

(** Tables without rows hold the logs of an empty store. *)
Lemma empty_rel {D} `{CL : ClusterLaws D} {S} `{SL : StorageLaws S} (y : Scylla (D := D)) (s : S) :
  (forall c, entry_rows (session y) c = ∅ /\ snapshot_rows (session y) c = ∅) ->
  (forall c, log_of s c = [] /\ snaps_of s c = []) -> store_rel y s.
Proof.
  intros Ey Es c. destruct (Ey c) as [-> ->], (Es c) as [-> ->]. by split; [apply table_of_nil|apply table_of_nil|..].
Qed.

Module ScyllaLogSample.
(** The log [LogSample.start] over tables. *)
Definition on_tables : Log (Scylla (D := ClusterSample.tables)) InMemoryCache InMemoryBroker :=
  WithBroker NewInMemoryBroker (WithCache (NewInMemoryCache ∅) (NewLog ClusterSample.empty)).

Lemma start_rel : log_rel on_tables LogSample.start.
Proof. split; [|done..]. by apply empty_rel. Qed.

Lemma signed_storable c n : storable (LogSample.signed c n).
Proof. unfold storable. by rewrite LogSample.signed_timestamp. Qed.
End ScyllaLogSample.

Section Witnesses.
Import LogSample ScyllaLogSample.
#[local] Opaque signed.

Lemma history_wraps_witness : exists l1 l2 e,
  Append epoch (signed "c" 0) on_tables = (Ok e, l1) /\ Append epoch (signed "c" 0) start = (Ok e, l2) /\
  History "c" (2 ^ 63) 10 l1 = (Ok (made [e]), l1) /\ History "c" (2 ^ 63) 10 l2 = (Ok (made []), l2).
Proof.
  generalize (signed_chat "c" 0) (signed_version "c" 0) (proj2 (signed_same "c" 0)) (signed_storable "c" 0).
  generalize (signed "c" 0). intros m Cm V Sg St.
  destruct (Append_run epoch m start (fresh_ok _ start_fresh) V Sg) as (l' & E & A & _); [done|done|].
  pose proof (sim_Append epoch m on_tables start start_rel (fresh_ok _ start_fresh) eq_refl (fun _ => St)) as [O R].
  rewrite E in O, R. destruct (Append epoch m on_tables) as [[e|?|?|] l1]; try done. cbn in O, R. subst e.
  do 3 eexists. split; [reflexivity|]. split; [exact E|].
  destruct (history_wraps "c" (2 ^ 63) 10 _ _ R ltac:(lia)) as [H1 H2]. split; [|exact H2].
  rewrite H1. pose proof (up_log _ _ _ _ _ _ _ A "c") as L. rewrite Cm in L. cbn [decide] in L.
  rewrite decide_True in L by done. unfold log_at in *. cbn in L. cbn. by rewrite L.
Defined.
End Witnesses.
