(* ===== verification/Faults.v ===== *)
(** * Faults: stores that may fail, and that others share

    The database behind the storage port can fail: a statement times out, with
    or without effect, a read returns an error.  Other nodes write to it too.
    [SharedLaws], [SnapshotLaws] and [ReadLaws] state what is left to rely on;
    they hold of the in-memory store, of ScyllaDB, and, by [Flaky], of any store
    that keeps them once its calls fail as a plan says. *)
From S2P Require Import Prelude Tables Codec JsonText GoTime Sha256 Models Merkle Crypto Storage Cache Broker Chatlog LogFacts LogReads Scylla ScyllaLog.

(** An error that does not say that nothing was found. *)
Definition unclear {A} (o : outcome A) : Prop := exists err, o = Err err /\ errors_is err ErrNotFound = false.

(** What a read returns when it can fail. *)
Definition reads_as {A} (o expected : outcome A) : Prop := o = expected \/ unclear o.

(** ** The entries *)

(** What the chain needs of the store.  An insert at a sequence up to the end of
    the log has an effect only at the end; when it fails it may have had it; the
    last entry is read back, or there is an error; and no other call touches the
    entries. *)
Class SharedLaws (S : Type) `{Storage S} := {
  sh_ok : S -> Prop;
  sh_log : S -> string -> list LogEntry;
  sh_fits : SignedMessage -> Prop;
  sh_append c e s : sh_ok s -> sh_fits (Message e) -> ChatID (Message e) = c ->
    0 <= Sequence e <= Z.of_nat (length (sh_log s c)) -> Z.of_nat (length (sh_log s c)) + 1 < 2 ^ 63 ->
    exists o s', AppendEntry c e s = (o, s') /\ sh_ok s' /\
      if decide (Sequence e = Z.of_nat (length (sh_log s c)))
      then (reads_as o (Ok tt) /\ forall d, sh_log s' d = if decide (d = c) then sh_log s c ++ [e] else sh_log s d) \/
           (unclear o /\ forall d, sh_log s' d = sh_log s d)
      else reads_as o (Err ErrSequenceGap) /\ forall d, sh_log s' d = sh_log s d;
  sh_last c s : sh_ok s -> exists o s', LastEntry c s = (o, s') /\ reads_as o (found (last (sh_log s c))) /\
    sh_ok s' /\ forall d, sh_log s' d = sh_log s d;
  sh_since c q s : sh_ok s -> sh_ok (EntriesSince c q s).2 /\ forall d, sh_log (EntriesSince c q s).2 d = sh_log s d;
  sh_latest c s : sh_ok s -> sh_ok (LatestSnapshot c s).2 /\ forall d, sh_log (LatestSnapshot c s).2 d = sh_log s d;
  sh_at c i s : sh_ok s -> sh_ok (SnapshotAt c i s).2 /\ forall d, sh_log (SnapshotAt c i s).2 d = sh_log s d;
  sh_save n s : sh_ok s -> sh_ok (SaveSnapshot n s).2 /\ forall d, sh_log (SaveSnapshot n s).2 d = sh_log s d;
}.

(** ** The snapshots *)

(** The same snapshot, made at another time: the column cuts it. *)
Definition recorded (n n' : MerkleSnapshot) : Prop :=
  snap_ChatID n' = snap_ChatID n /\ SnapshotIndex n' = SnapshotIndex n /\ FromSequence n' = FromSequence n /\
  ToSequence n' = ToSequence n /\ MerkleRoot n' = MerkleRoot n /\ LastEntryHash n' = LastEntryHash n.

Record snapshot_fits (k : nat) (n : MerkleSnapshot) : Prop := {
  fit_index : SnapshotIndex n = Z.of_nat k;
  fit_from : is_u64 (FromSequence n);
  fit_to : is_u64 (ToSequence n);
}.

(** What snapshots and proofs need besides, while no other node writes: a save at
    the next index has its effect or not; reads see the snapshots and the
    entries, or fail. *)
Class SnapshotLaws (S : Type) `{SH : SharedLaws S} := {
  sp_ok : S -> Prop;
  sp_snaps : S -> string -> list MerkleSnapshot;
  sp_append c e s : sp_ok s -> sp_ok (AppendEntry c e s).2 /\ forall d, sp_snaps (AppendEntry c e s).2 d = sp_snaps s d;
  sp_last c s : sp_ok s -> sp_ok (LastEntry c s).2 /\ forall d, sp_snaps (LastEntry c s).2 d = sp_snaps s d;
  sp_since c q s : sh_ok s -> sp_ok s -> 0 <= q < 2 ^ 63 -> exists o s' w, EntriesSince c q s = (o, s') /\
    elems w = drop (Z.to_nat q) (sh_log s c) /\ reads_as o (Ok w) /\ sp_ok s' /\ forall d, sp_snaps s' d = sp_snaps s d;
  sp_latest c s : sp_ok s -> exists o s', LatestSnapshot c s = (o, s') /\
    reads_as o (found (last (sp_snaps s c))) /\ sp_ok s' /\ forall d, sp_snaps s' d = sp_snaps s d;
  sp_at c i s : sp_ok s -> 0 <= i < 2 ^ 63 -> exists o s', SnapshotAt c i s = (o, s') /\
    reads_as o (found (sp_snaps s c !! Z.to_nat i)) /\ sp_ok s' /\ forall d, sp_snaps s' d = sp_snaps s d;
  sp_save n s : sp_ok s -> snapshot_fits (length (sp_snaps s (snap_ChatID n))) n ->
    Z.of_nat (length (sp_snaps s (snap_ChatID n))) + 1 < 2 ^ 63 ->
    exists o s' n', SaveSnapshot n s = (o, s') /\ sp_ok s' /\ recorded n n' /\
      ((reads_as o (Ok tt) /\ forall d, sp_snaps s' d =
          if decide (d = snap_ChatID n) then sp_snaps s d ++ [n'] else sp_snaps s d) \/
       (unclear o /\ forall d, sp_snaps s' d = sp_snaps s d));
}.

(** A call that changes neither. *)
Record kept {S : Type} `{SP : SnapshotLaws S} (s s' : S) : Prop := {
  kp_shared : sh_ok s';
  kp_sound : sp_ok s';
  kp_log d : sh_log s' d = sh_log s d;
  kp_snaps d : sp_snaps s' d = sp_snaps s d;
}.

(** ** Single entries, and sequences out of range

    What the readers need besides.  From 63 bits on ScyllaDB does not answer by
    the sequence asked for, but it answers. *)
Class ReadLaws (S : Type) `{SP : SnapshotLaws S} := {
  rd_entry c q s : sh_ok s -> sp_ok s -> is_u64 q -> exists o s', Entry c q s = (o, s') /\ settled o /\ kept s s' /\
    (q < 2 ^ 63 -> reads_as o (found (sh_log s c !! Z.to_nat q)));
  rd_since c q s : sh_ok s -> sp_ok s -> is_u64 q -> settled (EntriesSince c q s).1 /\ kept s (EntriesSince c q s).2;
}.

Lemma reads_settled {A} (o expected : outcome A) : settled expected -> reads_as o expected -> settled o.
Proof. intros K [->|(err & -> & _)]; [done|right; by eexists]. Qed.

Lemma found_settled {A} (x : option A) : settled (found x).
Proof. destruct x; [left|right]; by eexists. Qed.

(** ** The in-memory store *)

#[global] Program Instance mem_shared : SharedLaws InMemoryStorage :=
  { sh_ok _ := True; sh_log s c := slice (entries s) c; sh_fits _ := True }.
Next Obligation.
  intros c e s _ _ _ _ _. cbn. unfold mem_AppendEntry, ulen. case_decide as D.
  - rewrite (proj2 (Z.eqb_eq _ _)) by done. do 2 eexists. split; [done|]. split; [done|].
    left. split; [by left|]. intros d. cbn. apply slice_insert.
  - rewrite (proj2 (Z.eqb_neq _ _)) by done. do 2 eexists. split; [done|]. split; [done|]. split; [by left|done].
Qed.
Next Obligation. intros c s _. do 2 eexists. split; [apply guarded_last|]. split; [by left|done]. Qed.
Next Obligation. intros c q s _. cbn. unfold mem_EntriesSince. by case_match. Qed.
Next Obligation. intros c s _. cbn. unfold mem_LatestSnapshot. by repeat case_match. Qed.
Next Obligation. intros c i s _. cbn. unfold mem_SnapshotAt. by repeat case_match. Qed.
Next Obligation. done. Qed.

#[global] Program Instance mem_snapshots : SnapshotLaws InMemoryStorage :=
  { sp_ok _ := True; sp_snaps s c := slice (snapshots s) c }.
Next Obligation. intros c e s _. cbn. unfold mem_AppendEntry. by case_match. Qed.
Next Obligation. intros c s _. cbn. unfold mem_LastEntry. by repeat case_match. Qed.
Next Obligation.
  intros c q s _ _ [Q _]. eexists _, _, (made _). split; [exact (entries_since c q s Q)|]. split; [done|]. split; [by left|done].
Qed.
Next Obligation. intros c s _. do 2 eexists. split; [exact (latest_snapshot c s)|]. split; [by left|done]. Qed.
Next Obligation. intros c i s _ [I _]. do 2 eexists. split; [exact (snapshot_at c i s I)|]. split; [by left|done]. Qed.
Next Obligation.
  intros n s _ _ _. exists (Ok tt). eexists _, n. split; [done|]. split; [done|]. split; [done|].
  left. split; [by left|]. intros d. cbn. rewrite slice_insert. by case_decide; [subst|].
Qed.

#[global] Program Instance mem_reads : ReadLaws InMemoryStorage.
Next Obligation.
  intros c q s _ _ [Q _]. do 2 eexists. split; [exact (entry_at c q s Q)|]. split; [apply found_settled|].
  split; [done|]. intros _. by left.
Qed.
Next Obligation. intros c q s _ _ [Q _]. rewrite entries_since by done. split; [left; by eexists|done]. Qed.

(** ** ScyllaDB *)

Section ScyllaShared.
Context {D : Type} `{CL : ClusterLaws D}.
Implicit Types y : Scylla (D := D).

(** The partition of a chat holds entries that survive it, without a gap. *)
Definition chat_stored c (es : list LogEntry) y : Prop :=
  table_of (entry_row_of <$> es) (entry_rows (session y) c) /\ Forall (fun e => as_stored c e = e) es /\
  Z.of_nat (length es) < 2 ^ 63.

Definition scylla_log y c : list LogEntry := map (scanEntry c) (ordered (entry_rows (session y) c)).

Lemma chat_stored_log c es y : chat_stored c es y -> scylla_log y c = es.
Proof. intros (T & F & _). unfold scylla_log. rewrite (ordered_table _ _ T). by apply scan_rows. Qed.

Definition logs_stored y : Prop := forall c, chat_stored c (scylla_log y c) y.

(** What leaves the entries alone. *)
Lemma logs_stored_same y d' : (forall c, entry_rows d' c = entry_rows (session y) c) ->
  (forall c, scylla_log {| session := d' |} c = scylla_log y c) /\ (logs_stored y -> logs_stored {| session := d' |}).
Proof.
  intros E. assert (forall c, scylla_log {| session := d' |} c = scylla_log y c) as L
    by (intros c; unfold scylla_log; cbn [session]; by rewrite E).
  split; [done|]. intros K c. rewrite L. unfold chat_stored. cbn [session]. rewrite E. apply K.
Qed.

(** The reads run on the session as it is. *)
Lemma since_reads c q y : (scylla_EntriesSince c q y).2 = y.
Proof. unfold scylla_EntriesSince. by erewrite bind_ok by (apply on_session_read, select_from_law). Qed.

Lemma last_reads c y : (scylla_LastEntry c y).2 = y.
Proof.
  unfold scylla_LastEntry. erewrite bind_ok by (apply on_session_read, select_last_law).
  unfold first_entry. by case_match.
Qed.

Lemma latest_reads c y : scylla_LatestSnapshot c y = (match last (ordered (snapshot_rows (session y) c)) with
    | Some r => Ok {| snap_ChatID := c; SnapshotIndex := u64 (sr_index r); FromSequence := u64 (sr_from r);
        ToSequence := u64 (sr_to r); MerkleRoot := sr_root r; LastEntryHash := sr_last_hash r;
        CreatedAt := UTC (sr_created_at r) |}
    | None => Err ErrNotFound end, y).
Proof.
  unfold scylla_LatestSnapshot, not_found_mapped.
  pose proof (on_session_read _ y _ (select_last_snapshot_law c (session y))) as E.
  destruct (last _) as [r|]; cbn [one_row] in E.
  - erewrite bind_ok; [|erewrite bind_ok by (apply try_ok; exact E); reflexivity]. done.
  - erewrite bind_err; [done|]. by erewrite bind_ok by (apply try_err; exact E).
Qed.

Lemma at_reads c i y : scylla_SnapshotAt c i y = (match snapshot_rows (session y) c !! i64 i with
    | Some r => Ok {| snap_ChatID := c; SnapshotIndex := i; FromSequence := u64 (sr_from r);
        ToSequence := u64 (sr_to r); MerkleRoot := sr_root r; LastEntryHash := sr_last_hash r;
        CreatedAt := UTC (sr_created_at r) |}
    | None => Err ErrNotFound end, y).
Proof.
  unfold scylla_SnapshotAt, not_found_mapped.
  pose proof (on_session_read _ y _ (select_snapshot_law c (i64 i) (session y))) as E.
  destruct (_ !! _) as [r|]; cbn [one_row] in E.
  - erewrite bind_ok; [|erewrite bind_ok by (apply try_ok; exact E); reflexivity]. done.
  - erewrite bind_err; [done|]. by erewrite bind_ok by (apply try_err; exact E).
Qed.

#[global] Program Instance scylla_shared : SharedLaws (Scylla (D := D)) :=
  { sh_ok := logs_stored; sh_log := scylla_log; sh_fits := storable }.
Next Obligation.
  intros c e y K [Tr Off] Ch Q Rm. destruct (K c) as (T & F & _).
  assert (is_u64 (Sequence e)) as U by (unfold is_u64; lia).
  destruct (insert_law c (entry_columns e) (session y)) as (d' & E & L & _).
  cbn [entry_columns er_sequence] in E, L. rewrite i64_id in E, L by lia.
  assert (entry_rows (session y) c !! Sequence e = entry_row_of <$> scylla_log y c !! Z.to_nat (Sequence e)) as Lk.
  { rewrite T, decide_True by lia. apply list_lookup_fmap. }
  case_decide as Dq.
  - exists (Ok tt), {| session := d' |}. rewrite Lk, lookup_ge_None_2 in E, L by lia. cbn [fmap option_fmap option_map] in E, L.
    rewrite bool_decide_eq_true_2 in E by done.
    assert (forall d, chat_stored d (if decide (d = c) then scylla_log y c ++ [e] else scylla_log y d) {| session := d' |}) as K'.
    { intros d. unfold chat_stored. cbn [session]. rewrite L. destruct (decide (d = c)) as [->|N].
      - rewrite decide_True by done. split_and!.
        + rewrite fmap_app, Dq. pose proof (table_of_snoc _ _ (entry_row_of e) T) as T'. by rewrite length_fmap in T'.
        + apply Forall_app. split; [done|]. constructor; [by apply as_stored_id|constructor].
        + rewrite length_app. cbn. lia.
      - rewrite decide_False by naive_solver. apply K. }
    assert (forall d, scylla_log {| session := d' |} d = if decide (d = c) then scylla_log y c ++ [e] else scylla_log y d) as L'
      by (intros d; apply chat_stored_log, K').
    split; [|split; [intros d; rewrite L'; apply K'|left; split; [by left|exact L']]].
    cbn. unfold scylla_AppendEntry. by erewrite bind_ok by (apply on_session_run; exact E).
  - exists (Err ErrSequenceGap), {| session := d' |}.
    destruct (lookup_lt_is_Some_2 (scylla_log y c) (Z.to_nat (Sequence e))) as [f Ef]; [lia|].
    rewrite Lk, Ef in E, L. cbn [fmap option_fmap option_map] in E, L. rewrite bool_decide_eq_false_2 in E by done.
    destruct (logs_stored_same y d') as [Same Kp]; [intros d; rewrite L, decide_False; [done|by intros [_ ?]]|].
    split; [|split; [by apply Kp|split; [by left|exact Same]]].
    cbn. unfold scylla_AppendEntry. by erewrite bind_ok by (apply on_session_run; exact E).
Qed.
Next Obligation.
  intros c y K. destruct (K c) as (T & F & _). do 2 eexists. split; [apply surjective_pairing|].
  cbn. rewrite last_reads. split; [left|done]. unfold scylla_LastEntry.
  erewrite bind_ok by (apply on_session_read, select_last_law). rewrite (ordered_table _ _ T), fmap_last.
  destruct (last (scylla_log y c)) as [e|] eqn:L; [|done]. cbn. f_equal.
  rewrite Forall_forall in F. by apply F, last_Some_elem_of.
Qed.
Next Obligation. intros c q y K. cbn. by rewrite since_reads. Qed.
Next Obligation. intros c y K. cbn. by rewrite latest_reads. Qed.
Next Obligation. intros c i y K. cbn. by rewrite at_reads. Qed.
Next Obligation.
  intros n y K. cbn. unfold scylla_SaveSnapshot.
  destruct (insert_snapshot_law (snap_ChatID n) (snapshot_columns n) (session y)) as (d' & E & L & _).
  rewrite (on_session_run _ _ _ _ E). cbn [snd]. destruct (logs_stored_same y d' L) as [Same Kp].
  split; [by apply Kp|exact Same].
Qed.

(** A row of the second table as [LatestSnapshot] gives it. *)
Definition scan_snapshot (c : string) (r : snapshot_row) : MerkleSnapshot := {|
  snap_ChatID := c; SnapshotIndex := u64 (sr_index r); FromSequence := u64 (sr_from r); ToSequence := u64 (sr_to r);
  MerkleRoot := sr_root r; LastEntryHash := sr_last_hash r; CreatedAt := UTC (sr_created_at r) |}.

Definition scylla_snaps y c : list MerkleSnapshot := scan_snapshot c <$> ordered (snapshot_rows (session y) c).

(** The rows of a chat's snapshots are numbered from zero. *)
Record rows_numbered (rs : list snapshot_row) (m : gmap Z snapshot_row) : Prop := {
  rn_table : table_of rs m;
  rn_index k r : rs !! k = Some r -> sr_index r = Z.of_nat k;
  rn_few : Z.of_nat (length rs) < 2 ^ 63;
}.

Definition snaps_stored y : Prop := forall c, exists rs, rows_numbered rs (snapshot_rows (session y) c).

Lemma snaps_stored_same y d' : (forall c, snapshot_rows d' c = snapshot_rows (session y) c) ->
  (forall c, scylla_snaps {| session := d' |} c = scylla_snaps y c) /\ (snaps_stored y -> snaps_stored {| session := d' |}).
Proof.
  intros E. split; [intros c; unfold scylla_snaps; cbn [session]; by rewrite E|].
  intros K c. cbn [session]. rewrite E. apply K.
Qed.

Lemma scan_recorded n : is_u64 (SnapshotIndex n) -> is_u64 (FromSequence n) -> is_u64 (ToSequence n) ->
  recorded n (scan_snapshot (snap_ChatID n) (snapshot_row_of n)).
Proof. intros I F T. unfold recorded. cbn. by rewrite !u64_i64. Qed.

#[global] Program Instance scylla_snapshots : SnapshotLaws (Scylla (D := D)) :=
  { sp_ok := snaps_stored; sp_snaps := scylla_snaps }.
Next Obligation.
  intros c e y K. cbn. destruct (insert_law c (entry_columns e) (session y)) as (d' & E & _ & L).
  destruct (snaps_stored_same y d' L) as [Same Kp].
  assert ((scylla_AppendEntry c e y).2 = {| session := d' |}) as ->.
  { unfold scylla_AppendEntry. erewrite bind_ok by (apply on_session_run; exact E). by case_match. }
  split; [by apply Kp|exact Same].
Qed.
Next Obligation. intros c y K. cbn. by rewrite last_reads. Qed.
Next Obligation.
  intros c q y K Ks Q. eexists _, _, (appended _). split; [apply surjective_pairing|]. cbn. rewrite since_reads.
  split; [apply elems_appended|]. split; [left|done]. destruct (K c) as (T & F & _). unfold scylla_EntriesSince.
  erewrite bind_ok by (apply on_session_read, select_from_law). rewrite i64_id, (rows_from_table _ _ _ T) by lia.
  cbn. rewrite <-fmap_drop. do 2 f_equal. by apply scan_rows, Forall_drop.
Qed.
Next Obligation.
  intros c y K. do 2 eexists. split; [apply surjective_pairing|]. cbn. rewrite latest_reads. cbn [fst snd].
  split; [left|done]. unfold scylla_snaps. rewrite fmap_last. by destruct (last _).
Qed.
Next Obligation.
  intros c i y K I. do 2 eexists. split; [apply surjective_pairing|]. cbn. rewrite at_reads. cbn [fst snd].
  split; [left|done]. destruct (K c) as [rs [T N F]]. unfold scylla_snaps.
  rewrite (ordered_table _ _ T), i64_id, T, decide_True, list_lookup_fmap by lia.
  destruct (rs !! Z.to_nat i) as [r|] eqn:L; [|done]. cbn. unfold scan_snapshot. do 2 f_equal.
  rewrite (N _ _ L), u64_id by (unfold is_u64; lia). lia.
Qed.
Next Obligation.
  intros n y K [Ix Fr To] Rm. destruct (K (snap_ChatID n)) as [rs [T N F]].
  assert (scylla_snaps y (snap_ChatID n) = scan_snapshot (snap_ChatID n) <$> rs) as Es
    by (unfold scylla_snaps; by rewrite (ordered_table _ _ T)).
  rewrite Es, length_fmap in Ix, Rm.
  destruct (insert_snapshot_law (snap_ChatID n) (snapshot_columns n) (session y)) as (d' & E & _ & L).
  cbn [snapshot_columns sr_index] in L. rewrite Ix, i64_id in L by lia.
  assert (rows_numbered (rs ++ [snapshot_row_of n]) (snapshot_rows d' (snap_ChatID n))) as K1.
  { split; [rewrite L, decide_True by done; by apply table_of_snoc| |rewrite length_app; cbn; lia].
    intros k r [[_ Hk]|[-> <-]]%lookup_snoc_Some; [by apply N|]. cbn. rewrite Ix. by apply i64_id; lia. }
  exists (Ok tt), {| session := d' |}, (scan_snapshot (snap_ChatID n) (snapshot_row_of n)).
  split; [by apply on_session_run|]. split; [|split].
  - intros d. cbn [session]. destruct (decide (d = snap_ChatID n)) as [->|Nd]; [by eexists|].
    rewrite L, decide_False by done. apply K.
  - apply scan_recorded; [rewrite Ix; unfold is_u64; lia|done..].
  - left. split; [by left|]. intros d. unfold scylla_snaps at 1. cbn [session]. case_decide as Dd.
    + subst d. by rewrite Es, (ordered_table _ _ (rn_table _ _ K1)), fmap_app.
    + rewrite L, decide_False by done. done.
Qed.

#[global] Program Instance scylla_answers : ReadLaws (Scylla (D := D)).
Next Obligation.
  intros c q y K Ks [P _]. destruct (K c) as (T & F & _).
  assert (scylla_Entry c q y = (found (scanEntry c <$> entry_rows (session y) c !! i64 q), y)) as E.
  { unfold scylla_Entry. erewrite bind_ok by (apply on_session_read, select_law). by destruct (_ !! _). }
  do 2 eexists. split; [exact E|]. split; [apply found_settled|]. split; [done|]. intros Q.
  left. f_equal.
  rewrite i64_id, T, decide_True, list_lookup_fmap by lia. cbn. fold (scylla_log y c).
  destruct (scylla_log y c !! Z.to_nat q) as [e|] eqn:L; [|done]. cbn. f_equal.
  by apply (proj1 (Forall_lookup _ _) F _ e L).
Qed.
Next Obligation.
  intros c q y K Ks _. cbn. split; [|by rewrite since_reads]. unfold scylla_EntriesSince.
  erewrite bind_ok by (apply on_session_read, select_from_law). left. by eexists.
Qed.
End ScyllaShared.

(** ** A store whose calls fail *)

(** A call goes well, or is lost on the way, or has its effect and only the
    answer is lost; a plan says which of the calls to come do what. *)
Inductive fault := Fine | Lost | Late.

Record Flaky (S : Type) := MkFlaky { inner : S; plan : list fault }.
Arguments MkFlaky {S} _ _.
Arguments inner {S} _.
Arguments plan {S} _.

(** [gocql.ErrTimeoutNoResponse] *)
Definition no_response : error := External "gocql: no response received from cassandra within timeout period".

Section Flaky.
Context {S : Type}.

Definition faulty {A} (m : M S A) : M (Flaky S) A := fun s =>
  let '(o, i) := m (inner s) in
  match plan s with
  | [] => (o, MkFlaky i [])
  | Fine :: r => (o, MkFlaky i r)
  | Late :: r => (Err no_response, MkFlaky i r)
  | Lost :: r => (Err no_response, MkFlaky (inner s) r)
  end.

Lemma faulty_cases {A} (m : M S A) s o i : m (inner s) = (o, i) -> exists o' s', faulty m s = (o', s') /\
  ((reads_as o' o /\ inner s' = i) \/ (unclear o' /\ inner s' = inner s)).
Proof.
  intros E. unfold faulty. rewrite E.
  assert (@unclear A (Err no_response)) as U by by eexists.
  destruct (plan s) as [|[] r]; do 2 eexists; (split; [reflexivity|]); try by left; split; [left|].
  - by right.
  - by left; split; [right|].
Qed.

Lemma faulty_fine {A} (m : M S A) s o i r : plan s = Fine :: r -> m (inner s) = (o, i) -> faulty m s = (o, MkFlaky i r).
Proof. intros P E. unfold faulty. by rewrite E, P. Qed.
Lemma faulty_lost {A} (m : M S A) s r : plan s = Lost :: r -> faulty m s = (Err no_response, MkFlaky (inner s) r).
Proof. intros P. unfold faulty. rewrite P. by destruct (m (inner s)). Qed.

(** Faults change neither the kinds of answers nor what an answer tells. *)
Lemma reads_as_trans {A} (o1 o2 o3 : outcome A) : reads_as o1 o2 -> reads_as o2 o3 -> reads_as o1 o3.
Proof. intros [->|U] R; [done|by right]. Qed.
Lemma unclear_reads {A} (o1 o2 : outcome A) : reads_as o1 o2 -> unclear o2 -> unclear o1.
Proof. by intros [->|U]. Qed.

(** The state after a call that changes nothing [P] looks at. *)
Lemma faulty_keeps {A} (m : M S A) (P : S -> Prop) s : P (inner s) -> P (m (inner s)).2 -> P (inner (faulty m s).2).
Proof. intros K K'. unfold faulty. destruct (m (inner s)) as [o i]. by destruct (plan s) as [|[] r]. Qed.

Context `{ST : Storage S}.

#[global] Instance flaky_storage : Storage (Flaky S) := {
  AppendEntry c e := faulty (AppendEntry c e);
  LastEntry c := faulty (LastEntry c);
  Entry c q := faulty (Entry c q);
  EntriesSince c q := faulty (EntriesSince c q);
  SaveSnapshot n := faulty (SaveSnapshot n);
  LatestSnapshot c := faulty (LatestSnapshot c);
  SnapshotAt c i := faulty (SnapshotAt c i);
}.

#[global] Program Instance flaky_shared `{!SharedLaws S} : SharedLaws (Flaky S) :=
  { sh_ok s := sh_ok (inner s); sh_log s := sh_log (inner s); sh_fits := sh_fits }.
Next Obligation.
  intros SH c e s K F Ch Q Rm. destruct (sh_append c e (inner s) K F Ch Q Rm) as (o & i & E & K' & G).
  destruct (faulty_cases (AppendEntry c e) s o i E) as (o' & s' & E' & Cs). exists o', s'. split; [exact E'|].
  destruct Cs as [[R Ei]|[U Ei]]; rewrite Ei; (split; [done|]); case_decide.
  - destruct G as [[R' L]|[U L]]; [left|right]; (split; [|done]); [by eapply reads_as_trans|by eapply unclear_reads].
  - destruct G as [R' L]. split; [by eapply reads_as_trans|done].
  - by right.
  - by split; [right|].
Qed.
Next Obligation.
  intros SH c s K. destruct (sh_last c (inner s) K) as (o & i & E & R & K' & L).
  destruct (faulty_cases (LastEntry c) s o i E) as (o' & s' & E' & Cs). exists o', s'. split; [exact E'|].
  destruct Cs as [[R' Ei]|[U Ei]]; rewrite Ei; (split; [|done]); [by eapply reads_as_trans|by right].
Qed.
Next Obligation. intros SH c q s K. apply (faulty_keeps _ (fun i => sh_ok i /\ forall d, sh_log i d = _)); [done|by apply sh_since]. Qed.
Next Obligation. intros SH c s K. apply (faulty_keeps _ (fun i => sh_ok i /\ forall d, sh_log i d = _)); [done|by apply sh_latest]. Qed.
Next Obligation. intros SH c q s K. apply (faulty_keeps _ (fun i => sh_ok i /\ forall d, sh_log i d = _)); [done|by apply sh_at]. Qed.
Next Obligation. intros SH n s K. apply (faulty_keeps _ (fun i => sh_ok i /\ forall d, sh_log i d = _)); [done|by apply sh_save]. Qed.

#[global] Program Instance flaky_snapshots `{SH : !SharedLaws S} `{!SnapshotLaws S} : SnapshotLaws (Flaky S) :=
  { sp_ok s := sp_ok (inner s); sp_snaps s := sp_snaps (inner s) }.
Next Obligation. intros SH SP c e s K. apply (faulty_keeps _ (fun i => sp_ok i /\ forall d, sp_snaps i d = _)); [done|by apply sp_append]. Qed.
Next Obligation. intros SH SP c s K. apply (faulty_keeps _ (fun i => sp_ok i /\ forall d, sp_snaps i d = _)); [done|by apply sp_last]. Qed.
Next Obligation.
  intros SH SP c q s Ks K Q. destruct (sp_since c q (inner s) Ks K Q) as (o & i & w & E & W & R & K' & L).
  destruct (faulty_cases (EntriesSince c q) s o i E) as (o' & s' & E' & Cs). exists o', s', w. split; [exact E'|].
  split; [done|]. destruct Cs as [[R' Ei]|[U Ei]]; rewrite Ei; (split; [|done]); [by eapply reads_as_trans|by right].
Qed.
Next Obligation.
  intros SH SP c s K. destruct (sp_latest c (inner s) K) as (o & i & E & R & K' & L).
  destruct (faulty_cases (LatestSnapshot c) s o i E) as (o' & s' & E' & Cs). exists o', s'. split; [exact E'|].
  destruct Cs as [[R' Ei]|[U Ei]]; rewrite Ei; (split; [|done]); [by eapply reads_as_trans|by right].
Qed.
Next Obligation.
  intros SH SP c q s K Q. destruct (sp_at c q (inner s) K Q) as (o & i & E & R & K' & L).
  destruct (faulty_cases (SnapshotAt c q) s o i E) as (o' & s' & E' & Cs). exists o', s'. split; [exact E'|].
  destruct Cs as [[R' Ei]|[U Ei]]; rewrite Ei; (split; [|done]); [by eapply reads_as_trans|by right].
Qed.
Next Obligation.
  intros SH SP n s K F Rm. destruct (sp_save n (inner s) K F Rm) as (o & i & n' & E & K' & Re & G).
  destruct (faulty_cases (SaveSnapshot n) s o i E) as (o' & s' & E' & Cs). exists o', s', n'. split; [exact E'|].
  destruct Cs as [[R' Ei]|[U Ei]]; rewrite Ei; (split; [done|]); (split; [done|]).
  - destruct G as [[R L]|[U L]]; [left|right]; (split; [|done]); [by eapply reads_as_trans|by eapply unclear_reads].
  - by right.
Qed.

#[global] Program Instance flaky_reads `{SH : !SharedLaws S} `{SP : !SnapshotLaws S} `{!ReadLaws S} : ReadLaws (Flaky S).
Next Obligation.
  intros SH SP RD c q s Ks K Q. destruct (rd_entry c q (inner s) Ks K Q) as (o & i & E & St & [] & R).
  destruct (faulty_cases (Entry c q) s o i E) as (o' & s' & E' & Cs). exists o', s'. split; [exact E'|].
  destruct Cs as [[R' Ei]|[(err & -> & U) Ei]].
  - split; [by eapply reads_settled|]. split; [split; cbn; by rewrite Ei|]. intros L. eapply reads_as_trans; [done|by apply R].
  - split; [right; by eexists|]. split; [split; cbn; by rewrite Ei|]. intros _. right. by eexists.
Qed.
Next Obligation.
  intros SH SP RD c q s Ks K Q. destruct (rd_since c q (inner s) Ks K Q) as [St [Sh So L N]].
  change (EntriesSince c q s) with (faulty (EntriesSince c q) s).
  destruct (faulty_cases (EntriesSince c q) s _ _ (surjective_pairing _)) as (o' & s' & -> & [[R Ei]|[(err & -> & _) Ei]]);
    (split; [|split; cbn; by rewrite Ei]); [by eapply reads_settled|right; by eexists].
Qed.
End Flaky.
