(* ===== verification/Concurrency.v ===== *)
(** * Concurrency: appends that interleave ([Log.Append] under its mutexes)

    [Append] cut at its port calls: a thread is a message and the point its
    call of [Append] has reached, and a state of the system is the shared log
    with any number of threads.  A thread that runs alone does what [Append]
    does; and in every interleaving, of appends to the same chat and to others,
    each store is a hash chain at every moment, at most one thread is inside a
    chat's critical section, no acknowledged message is lost or shares its
    sequence with another, and the system always gets on until all calls have
    returned. *)
From S2P Require Import Prelude Codec JsonText GoTime Sha256 Models Merkle Crypto Storage Cache Broker Chatlog LogFacts LogReads LogContract.

(** ** Threads *)

(** What a call of [Append] does next. *)
Inductive phase :=
  | PStart                                        (**r the two checks *)
  | PWait                                         (**r [lock.Lock()] *)
  | PTip                                          (**r [LastEntry] *)
  | PStore (e : LogEntry)                         (**r [AppendEntry] *)
  | PPublish (e : LogEntry)                       (**r [Publish], [EntryAppended] *)
  | PLatest (e : LogEntry)                        (**r [LatestSnapshot] *)
  | PWindow (e : LogEntry) (from index : Z)       (**r [EntriesSince] *)
  | PSave (e : LogEntry) (n : MerkleSnapshot)     (**r [SaveSnapshot] *)
  | PRoot (e : LogEntry) (root : string)          (**r [SetMerkleRoot] *)
  | PAnnounce (e : LogEntry)                      (**r [Publish], [SnapshotCreated] *)
  | PUnlock (o : outcome LogEntry)                (**r the deferred [Unlock] *)
  | PDone (o : outcome LogEntry).                 (**r returned *)

Section Threads.
Context {S C B : Type} `{Storage S} `{Cache C} `{Broker B} `{HashFunction} `{Ed25519}.
Implicit Types l : Log S C B.

(** One port call: where the thread goes on after its value and its error. *)
Definition call {A} (m : M (Log S C B) A) (ok : A -> phase) (err : error -> phase) l
    : option (phase * Log S C B) :=
  match m l with
  | (Ok a, l') => Some (ok a, l')
  | (Err e, l') => Some (err e, l')
  | (Panic w, l') => Some (PUnlock (Panic w), l')
  | (Block, _) => None
  end.

Definition entry_on (prev : string) (q : Z) (msg : SignedMessage) : LogEntry :=
  {| Sequence := q; Message := msg; PrevHash := prev;
     EntryHash := ComputeHash {| Sequence := q; Message := msg; PrevHash := prev; EntryHash := "" |} |}.

(** What is built on the tip that was read. *)
Lemma tip_built es msg : chain 0 GenesisHash es -> Z.of_nat (length es) + 1 < 2 ^ 64 ->
  new_entry es msg = match last es with
    | Some e => entry_on (EntryHash e) (u64 (Sequence e + 1)) msg
    | None => entry_on GenesisHash 0 msg
    end.
Proof.
  intros T R. unfold new_entry, tip_hash, tip_from, entry_on. destruct (last es) as [e|] eqn:L.
  - rewrite last_lookup in L. pose proof (lookup_lt_Some _ _ _ L).
    rewrite (chain_sequence es _ e T) by (done || lia). rewrite u64_id by (unfold is_u64; lia).
    by replace (Z.of_nat (pred (length es)) + 1) with (Z.of_nat (length es)) by lia.
  - apply last_None in L. by rewrite L.
Qed.

Definition after_publish (e : LogEntry) : phase :=
  if u64 (Sequence e + 1) mod SnapshotInterval =? 0 then PLatest e else PUnlock (Ok e).

Definition fail (prefix : string) (err : error) : phase := PUnlock (Err (Wrapf prefix err)).

(** One step of a thread; [None] when it has to wait or has returned. *)
Definition advance (now : Time) (msg : SignedMessage) (p : phase) l : option (phase * Log S C B) :=
  let c := ChatID msg in
  match p with
  | PStart =>
      if negb (supportedVersion (SchemaVersion msg)) then Some (PDone (Err ErrUnsupportedVersion), l)
      else if negb (VerifyMessage msg) then Some (PDone (Err ErrInvalidSignature), l)
      else Some (PWait, (chatLock c l).2)
  | PWait => match Lock c l with (Ok _, l') => Some (PTip, l') | _ => None end
  | PTip =>
      call (on_store (LastEntry c))
        (fun last => PStore (entry_on (EntryHash last) (u64 (Sequence last + 1)) msg))
        (fun err => if errors_is err ErrNotFound then PStore (entry_on GenesisHash 0 msg) else fail "read tip" err) l
  | PStore e => call (on_store (AppendEntry c e)) (fun _ => PPublish e) (fail "append") l
  | PPublish e => call (on_broker (Publish (entry_event c e))) (fun _ => after_publish e) (fun _ => after_publish e) l
  | PLatest e =>
      call (on_store (LatestSnapshot c))
        (fun prev => PWindow e (u64 (ToSequence prev + 1)) (u64 (SnapshotIndex prev + 1)))
        (fun err => if errors_is err ErrNotFound then PWindow e 0 0 else fail "snapshot" err) l
  | PWindow e from index =>
      call (on_store (EntriesSince c from))
        (fun window => PSave e {| snap_ChatID := c; SnapshotIndex := index; FromSequence := from;
                                  ToSequence := Sequence e; MerkleRoot := Root (map EntryHash (elems window));
                                  LastEntryHash := EntryHash e; CreatedAt := UTC now |})
        (fail "snapshot") l
  | PSave e n => call (on_store (SaveSnapshot n)) (fun _ => PRoot e (MerkleRoot n)) (fail "snapshot") l
  | PRoot e root => call (on_cache (SetMerkleRoot c root)) (fun _ => PAnnounce e) (fail "snapshot") l
  | PAnnounce e => call (on_broker (Publish (snapshot_event c e))) (fun _ => PUnlock (Ok e)) (fun _ => PUnlock (Ok e)) l
  | PUnlock o => Some (PDone o, Unlock c l)
  | PDone _ => None
  end.

(** A thread that runs without the others. *)
Inductive alone (now : Time) (msg : SignedMessage) : phase -> Log S C B -> outcome LogEntry -> Log S C B -> Prop :=
  | alone_done o l : alone now msg (PDone o) l o l
  | alone_step p l p' l1 o l' : advance now msg p l = Some (p', l1) -> alone now msg p' l1 o l' ->
      alone now msg p l o l'.

Lemma alone_unlock now msg o l : alone now msg (PUnlock o) l o (Unlock (ChatID msg) l).
Proof. eapply alone_step; [done|constructor]. Qed.

(** The outcome of [snapshot], as [Append] returns it. *)
Definition snapshot_outcome (e : LogEntry) (o : outcome unit) : outcome LogEntry :=
  match o with
  | Ok _ => Ok e | Err x => Err (Wrapf "snapshot" x) | Panic w => Panic w | Block => Block
  end.

(** One port call at the head of a bind, and the step that makes it. *)
Ltac port E :=
  unfold mbind, M_bind, try in E;
  match type of E with context [match ?m ?l with _ => _ end] =>
    let Q := fresh "Q" in destruct (m l) as [[?a|?err|?why|] ?l1] eqn:Q; cbv beta iota in E end.

Ltac step_with Q := eapply alone_step; [cbn [advance MerkleRoot]; unfold call; rewrite Q; reflexivity|].

Lemma alone_window now msg e from index l o l' (c := ChatID msg) :
  (window ← on_store (EntriesSince c from);
   on_store (SaveSnapshot {| snap_ChatID := c; SnapshotIndex := index; FromSequence := from;
     ToSequence := Sequence e; MerkleRoot := Root (map EntryHash (elems window));
     LastEntryHash := EntryHash e; CreatedAt := UTC now |}) ;;
   on_cache (SetMerkleRoot c (Root (map EntryHash (elems window)))) ;;
   try (on_broker (Publish (snapshot_event c e))) ;; mret tt) l = (o, l') -> o <> Block ->
  alone now msg (PWindow e from index) l (snapshot_outcome e o) (Unlock c l').
Proof.
  subst c. intros E N. port E; [|injection E as <- <-..]; try done;
    [|step_with Q; apply alone_unlock..]. step_with Q. clear Q.
  port E; [|injection E as <- <-..]; try done; [|step_with Q; apply alone_unlock..]. step_with Q. clear Q.
  port E; [|injection E as <- <-..]; try done; [|step_with Q; apply alone_unlock..]. step_with Q. clear Q.
  port E; injection E as <- <-; try done; step_with Q; apply alone_unlock.
Qed.

Lemma alone_snapshot now msg e l o l' (c := ChatID msg) :
  snapshot now c e l = (o, l') -> o <> Block ->
  alone now msg (PLatest e) l (snapshot_outcome e o) (Unlock c l').
Proof.
  subst c. intros E N. unfold snapshot in E. port E.
  - step_with Q. by apply alone_window.
  - destruct (errors_is err ErrNotFound) eqn:F.
    + eapply alone_step; [cbn [advance]; unfold call; rewrite Q, F; reflexivity|]. by apply alone_window.
    + injection E as <- <-. eapply alone_step; [cbn [advance]; unfold call; rewrite Q, F; reflexivity|].
      apply alone_unlock.
  - injection E as <- <-. step_with Q. apply alone_unlock.
  - by injection E as <- <-.
Qed.

(** After the entry is stored: publish, snapshot when it is due, return. *)
Lemma alone_publish now msg e l o l' (c := ChatID msg) :
  (try (on_broker (Publish (entry_event c e))) ;;
   (if u64 (Sequence e + 1) mod SnapshotInterval =? 0
    then wrapping "snapshot" (snapshot now c e) else mret tt) ;; mret e) l = (o, l') -> o <> Block ->
  alone now msg (PPublish e) l o (Unlock c l').
Proof.
  subst c. intros E N.
  assert (forall l1, ((if u64 (Sequence e + 1) mod SnapshotInterval =? 0
    then wrapping "snapshot" (snapshot now (ChatID msg) e) else mret tt) ;; mret e) l1 = (o, l') ->
    alone now msg (after_publish e) l1 o (Unlock (ChatID msg) l')) as G.
  { clear E. intros l1 E. unfold after_publish.
    destruct (_ =? 0); [|injection E as <- <-; apply alone_unlock].
    unfold wrapping, mbind, M_bind in E.
    destruct (snapshot now (ChatID msg) e l1) as [x l2] eqn:R.
    apply (alone_snapshot now msg) in R; [|by intros ->; injection E as <- <-].
    by destruct x; injection E as <- <-. }
  port E; [step_with Q; by apply G|step_with Q; by apply G| |by injection E as <- <-].
  injection E as <- <-. step_with Q. apply alone_unlock.
Qed.

Lemma alone_store now msg e l o l' (c := ChatID msg) :
  (wrapping "append" (on_store (AppendEntry c e)) ;;
   try (on_broker (Publish (entry_event c e))) ;;
   (if u64 (Sequence e + 1) mod SnapshotInterval =? 0
    then wrapping "snapshot" (snapshot now c e) else mret tt) ;; mret e) l = (o, l') -> o <> Block ->
  alone now msg (PStore e) l o (Unlock c l').
Proof.
  subst c. intros E N. destruct (on_store (AppendEntry (ChatID msg) e) l) as [[[]|err|why|] l1] eqn:Q.
  - rewrite (bind_ok _ _ _ _ _ (wrapping_ok "append" _ _ _ _ Q)) in E. step_with Q. by apply alone_publish.
  - rewrite (bind_err _ _ _ _ _ (wrapping_err "append" _ _ _ _ Q)) in E. injection E as <- <-.
    step_with Q. apply alone_unlock.
  - unfold mbind, M_bind, wrapping in E. rewrite Q in E. injection E as <- <-. step_with Q. apply alone_unlock.
  - unfold mbind, M_bind, wrapping in E. rewrite Q in E. by injection E as <- <-.
Qed.

Lemma alone_locked now msg l o l' : append_locked now msg l = (o, l') -> o <> Block ->
  alone now msg PTip l o (Unlock (ChatID msg) l').
Proof.
  intros E N. unfold append_locked in E. port E.
  - step_with Q. by apply alone_store.
  - destruct (errors_is err ErrNotFound) eqn:F.
    + eapply alone_step; [cbn [advance]; unfold call; rewrite Q, F; reflexivity|]. by apply alone_store.
    + injection E as <- <-. eapply alone_step; [cbn [advance]; unfold call; rewrite Q, F; reflexivity|].
      apply alone_unlock.
  - injection E as <- <-. step_with Q. apply alone_unlock.
  - by injection E as <- <-.
Qed.

(** The steps are those of [Append].  Over any ports, a thread that runs
    alone from the start of its call ends with the outcome and the state
    [Append] gives. *)
Lemma append_alone now msg l o l' : Append now msg l = (o, l') -> o <> Block ->
  alone now msg PStart l o l'.
Proof.
  intros E N. unfold Append in E.
  destruct (supportedVersion (SchemaVersion msg)) eqn:V; cbn [negb] in E.
  2:{ injection E as <- <-. eapply alone_step; [cbn [advance]; rewrite V; reflexivity|constructor]. }
  destruct (VerifyMessage msg) eqn:Sg; cbn [negb] in E.
  2:{ injection E as <- <-. eapply alone_step; [cbn [advance]; rewrite V, Sg; reflexivity|constructor]. }
  eapply alone_step; [cbn [advance]; rewrite V, Sg; reflexivity|].
  change ((Lock (ChatID msg) ;; deferring (Unlock (ChatID msg)) (append_locked now msg))
    (chatLock (ChatID msg) l).2 = (o, l')) in E.
  unfold mbind, M_bind in E. destruct (Lock (ChatID msg) _) as [[[]|?|?|] l1] eqn:Q.
  - eapply alone_step; [cbn [advance]; rewrite Q; reflexivity|]. unfold deferring in E.
    destruct (append_locked now msg l1) as [x l2] eqn:R.
    apply alone_locked in R; [|by intros ->; injection E as <- <-].
    by destruct x; injection E as <- <-.
  - unfold Lock in Q. by destruct (locks _ !! _) as [[]|].
  - unfold Lock in Q. by destruct (locks _ !! _) as [[]|].
  - by injection E as <- <-.
Qed.
End Threads.

(** ** Inside the critical section *)

Definition holding (p : phase) : bool :=
  match p with PStart | PWait | PDone _ => false | _ => true end.

(** The entry a thread has stored. *)
Definition entry_of (p : phase) : option LogEntry :=
  match p with
  | PPublish e | PLatest e | PWindow e _ _ | PSave e _ | PRoot e _ | PAnnounce e
  | PUnlock (Ok e) | PDone (Ok e) => Some e
  | _ => None
  end.

Section Critical.
Context {S C B : Type} `{SL : StorageLaws S} `{CL : CacheLaws C} `{BL : BrokerLaws B}.
Context `{HashFunction} `{Ed25519}.
Implicit Types l : Log S C B.

(** The entry [e] of [msg] has been stored on a log that was in order, and its
    snapshot, if one is due, has not. *)
Record lags (c : string) (es : list LogEntry) (ns : list MerkleSnapshot) (msg : SignedMessage) (e : LogEntry)
    : Prop := {
  lag_before : list LogEntry;
  lag_log : es = lag_before ++ [e];
  lag_ok : chat_ok c lag_before ns;
  lag_entry : e = new_entry lag_before msg;
  lag_room : Z.of_nat (length es) < 2 ^ 64;
}.

Definition due (es : list LogEntry) : Prop := (length es mod interval = 0)%nat.

(** What holds of the log and the snapshots of a chat while a thread with [msg]
    is in its critical section. *)
Definition phase_ok (now : Time) (msg : SignedMessage) (p : phase) (es : list LogEntry)
    (ns : list MerkleSnapshot) : Prop :=
  let c := ChatID msg in
  acceptable msg = true /\
  match p with
  | PTip => chat_ok c es ns
  | PStore e => chat_ok c es ns /\ e = new_entry es msg
  | PPublish e => lags c es ns msg e
  | PLatest e => lags c es ns msg e /\ due es
  | PWindow e from index =>
      lags c es ns msg e /\ due es /\ from = Z.of_nat (interval * length ns) /\ index = Z.of_nat (length ns)
  | PSave e n => lags c es ns msg e /\ due es /\ n = new_snapshot now c es
  | PRoot e _ | PAnnounce e | PUnlock (Ok e) => chat_ok c es ns /\ last es = Some e /\ Message e = msg
  | _ => False
  end.

Lemma lags_ok now c es ns msg e : lags c es ns msg e -> acceptable msg = true -> ChatID msg = c ->
  chat_ok c es (snaps_after now c es ns) /\ last es = Some e /\ Message e = msg.
Proof.
  intros [es0 -> K -> R] [V Sg]%andb_true_iff Ch. split; [|by rewrite last_snoc].
  apply chat_ok_append; try done. rewrite length_app in R. cbn in R. lia.
Qed.

Lemma lags_not_due c es ns msg e : lags c es ns msg e -> acceptable msg = true -> ChatID msg = c ->
  ~ due es -> chat_ok c es ns /\ last es = Some e /\ Message e = msg.
Proof.
  intros L A Ch D. destruct (lags_ok {| t_nano := 0; t_offset := 0 |} c es ns msg e L A Ch) as [K M].
  unfold snaps_after in K. by rewrite decide_False in K.
Qed.

(** What one step inside the critical section of chat [c] does to the log. *)
Record stepped l l' (c : string) (added : list LogEntry) (released : bool) : Prop := {
  st_broker : broker_inv (broker l');
  st_others d : d <> c -> log_at l' d = log_at l d /\ snaps_at l' d = snaps_at l d;
  st_log : log_at l' c = log_at l c ++ added;
  st_locks : locks l' = if released then <[c := false]> (locks l) else locks l;
}.

Lemma stepped_same l c : broker_inv (broker l) -> stepped l l c [] false.
Proof. intros Br. split; [done..|by rewrite app_nil_r|done]. Qed.

Lemma due_test es msg (e := new_entry es msg) : Z.of_nat (length es) + 1 < 2 ^ 64 ->
  (u64 (Sequence e + 1) mod SnapshotInterval =? 0) = bool_decide (due (es ++ [e])).
Proof.
  intros R. unfold due. rewrite length_app. cbn [length Sequence e new_entry].
  rewrite u64_id by (unfold is_u64; lia). apply eq_true_iff_eq.
  rewrite Z.eqb_eq, bool_decide_eq_true. unfold SnapshotInterval, interval. div_lia.
Qed.

Lemma call_ok {A} (m : M (Log S C B) A) ok err l a l' :
  m l = (Ok a, l') -> call m ok err l = Some (ok a, l').
Proof. intros E. unfold call. by rewrite E. Qed.
Lemma call_err {A} (m : M (Log S C B) A) ok err l e l' :
  m l = (Err e, l') -> call m ok err l = Some (err e, l').
Proof. intros E. unfold call. by rewrite E. Qed.

(** A publication whose result is ignored. *)
Lemma call_publish ev p l : broker_inv (broker l) -> exists b,
  call (on_broker (Publish ev)) (fun _ => p) (fun _ => p) l = Some (p, set_broker b l) /\ broker_inv b.
Proof.
  intros I. destruct (publish_returns ev (broker l) I) as (b & I' & [E|[e E]]); exists b; (split; [|done]);
    unfold call, on_broker, zoom; by rewrite E.
Qed.

Lemma stepped_publish b l c : broker_inv b -> stepped l (set_broker b l) c [] false.
Proof. intros Br. split; [done|done| |done]. by rewrite app_nil_r. Qed.

Lemma advance_tip now msg l (c := ChatID msg) : chat_ok c (log_at l c) (snaps_at l c) ->
  Z.of_nat (length (log_at l c)) + 1 < 2 ^ 64 ->
  advance now msg PTip l = Some (PStore (new_entry (log_at l c) msg), l).
Proof.
  intros [T _ _ _] R. cbn [advance]. fold c. rewrite (tip_built _ msg T R).
  destruct (last (log_at l c)) as [e|] eqn:L; unfold log_at in L.
  - by erewrite call_ok by (apply on_store_read; rewrite last_entry; by rewrite L).
  - erewrite call_err by (apply on_store_read; rewrite last_entry; by rewrite L).
    by rewrite errors_is_not_found.
Qed.

Lemma advance_store now msg l (c := ChatID msg) (e := new_entry (log_at l c) msg) :
  chat_ok c (log_at l c) (snaps_at l c) -> broker_inv (broker l) -> Z.of_nat (length (log_at l c)) + 1 < 2 ^ 64 ->
  exists l', advance now msg (PStore e) l = Some (PPublish e, l') /\ stepped l l' c [e] false /\
    lags c (log_at l' c) (snaps_at l' c) msg e.
Proof.
  intros K Br R. destruct (append_contiguous c e (store l)) as (s1 & E1 & L1 & S1); [done|].
  exists (set_store s1 l). cbn [advance]. fold c. erewrite call_ok by (apply on_store_run; exact E1).
  assert (log_at (set_store s1 l) c = log_at l c ++ [e]) as Lc
    by (unfold log_at; cbn; by rewrite L1, decide_True).
  split; [done|]. split.
  - split; [done| |done|done]. intros d N. unfold log_at, snaps_at. cbn. rewrite L1, S1. by rewrite decide_False.
  - eexists (log_at l c); [done| |done|].
    + unfold snaps_at. cbn. rewrite S1. exact K.
    + rewrite Lc, length_app. cbn. lia.
Qed.

Lemma advance_publish now msg e l (c := ChatID msg) : acceptable msg = true -> broker_inv (broker l) ->
  lags c (log_at l c) (snaps_at l c) msg e ->
  exists p' l', advance now msg (PPublish e) l = Some (p', l') /\ stepped l l' c [] false /\
    ((p' = PLatest e /\ due (log_at l' c) /\ lags c (log_at l' c) (snaps_at l' c) msg e) \/
     (p' = PUnlock (Ok e) /\ chat_ok c (log_at l' c) (snaps_at l' c) /\ last (log_at l' c) = Some e /\ Message e = msg)).
Proof.
  intros A Br L. cbn [advance]. fold c.
  destruct (call_publish (entry_event c e) (after_publish e) l Br) as (b & E & Br').
  exists (after_publish e), (set_broker b l). split; [exact E|]. split; [by apply stepped_publish|].
  change (log_at (set_broker b l) c) with (log_at l c). change (snaps_at (set_broker b l) c) with (snaps_at l c).
  pose proof L as [es0 Ees K Ee R]. unfold after_publish. rewrite Ee, due_test, <-Ee, <-Ees
    by (rewrite Ees, length_app in R; cbn in R; lia).
  case_bool_decide as D; [by left|right]. split; [done|]. by apply lags_not_due.
Qed.

Lemma advance_latest now msg e l (c := ChatID msg) :
  lags c (log_at l c) (snaps_at l c) msg e ->
  advance now msg (PLatest e) l =
    Some (PWindow e (Z.of_nat (interval * length (snaps_at l c))) (Z.of_nat (length (snaps_at l c))), l).
Proof.
  intros [es0 Ees [_ _ Sn _] _ R]. rewrite Ees, length_app in R. cbn in R. cbn [advance]. fold c.
  destruct (last (snaps_at l c)) as [p|] eqn:L.
  - destruct (next_window c es0 _ p Sn ltac:(lia) L) as [E1 E2]. unfold snaps_at in L.
    erewrite call_ok by (apply on_store_read; rewrite latest_snapshot; by rewrite L). by rewrite E1, E2.
  - pose proof L as N. apply last_None in N. unfold snaps_at in L.
    erewrite call_err by (apply on_store_read; rewrite latest_snapshot; by rewrite L).
    by rewrite errors_is_not_found, N.
Qed.

Lemma advance_window now msg e l (c := ChatID msg) (ns := snaps_at l c) :
  lags c (log_at l c) ns msg e -> due (log_at l c) ->
  advance now msg (PWindow e (Z.of_nat (interval * length ns)) (Z.of_nat (length ns))) l =
    Some (PSave e (new_snapshot now c (log_at l c)), l).
Proof.
  intros [es0 Ees K Ee R] D. cbn [advance]. fold c.
  erewrite call_ok by (apply on_store_read, entries_since; lia). do 3 f_equal. rewrite Nat2Z.id.
  change (log_of (store l) c) with (log_at l c). unfold new_snapshot. unfold due in D.
  assert (length (log_at l c) / interval - 1 = length ns)%nat as Q.
  { rewrite (sn_count _ _ _ (co_snaps _ _ _ K)). rewrite Ees, length_app in *. cbn [length] in *.
    unfold interval in *. div_lia. }
  rewrite Q. assert (tip_hash (log_at l c) = EntryHash e) as -> by (rewrite Ees; apply tip_from_snoc).
  assert (Sequence e = Z.of_nat (length (log_at l c)) - 1) as -> by (rewrite Ees, length_app, Ee; cbn; lia).
  done.
Qed.

Lemma advance_save now msg e l (c := ChatID msg) (n := new_snapshot now c (log_at l c)) :
  acceptable msg = true -> broker_inv (broker l) -> lags c (log_at l c) (snaps_at l c) msg e -> due (log_at l c) ->
  exists l', advance now msg (PSave e n) l = Some (PRoot e (MerkleRoot n), l') /\ stepped l l' c [] false /\
    chat_ok c (log_at l' c) (snaps_at l' c) /\ last (log_at l' c) = Some e /\ Message e = msg.
Proof.
  intros A Br L D. destruct (save_snapshot n (store l)) as (s1 & E1 & S1 & L1).
  exists (set_store s1 l). cbn [advance]. erewrite call_ok by (apply on_store_run; exact E1).
  split; [done|].
  assert (log_at (set_store s1 l) c = log_at l c) as Lc by (unfold log_at; cbn; apply L1).
  assert (snaps_at (set_store s1 l) c = snaps_at l c ++ [n]) as Sc
    by (unfold snaps_at; cbn; by rewrite S1, decide_True).
  split.
  - split; [done| |by rewrite app_nil_r|done]. intros d N. unfold log_at, snaps_at. cbn. rewrite L1, S1.
    by rewrite decide_False.
  - rewrite Lc, Sc. destruct (lags_ok now c _ _ msg e L A eq_refl) as [K M].
    unfold snaps_after in K. by rewrite decide_True in K.
Qed.

(** How far a call is from its return. *)
Definition rank (p : phase) : nat :=
  match p with
  | PStart => 11 | PWait => 10 | PTip => 9 | PStore _ => 8 | PPublish _ => 7 | PLatest _ => 6
  | PWindow _ _ _ => 5 | PSave _ _ => 4 | PRoot _ _ => 3 | PAnnounce _ => 2 | PUnlock _ => 1 | PDone _ => 0
  end.

Definition added_by (p : phase) : list LogEntry := match p with PStore e => [e] | _ => [] end.

(** One step of the thread that is in the critical section of its chat. *)
Record critical_step now msg p l p' l' : Prop := {
  cs_stepped : stepped l l' (ChatID msg) (added_by p) (negb (holding p'));
  cs_next : if holding p' then phase_ok now msg p' (log_at l' (ChatID msg)) (snaps_at l' (ChatID msg))
            else chat_ok (ChatID msg) (log_at l' (ChatID msg)) (snaps_at l' (ChatID msg)) /\ exists e, p' = PDone (Ok e);
  cs_entry : entry_of p' = match p with PStore e => Some e | _ => entry_of p end;
  cs_rank : (rank p' < rank p)%nat;
}.

Lemma advance_critical now msg p l (c := ChatID msg) :
  holding p = true -> phase_ok now msg p (log_at l c) (snaps_at l c) -> broker_inv (broker l) ->
  Z.of_nat (length (log_at l c)) + 1 < 2 ^ 64 ->
  exists p' l', advance now msg p l = Some (p', l') /\ critical_step now msg p l p' l'.
Proof.
  intros Hp [A P] Br R. destruct p as [| | |e|e|e|e from index|e n|e r|e|o|o]; try done.
  - do 2 eexists. split; [by apply advance_tip|]. split; [by apply stepped_same| |done|cbn; lia]. by split.
  - destruct P as [K ->]. destruct (advance_store now msg l K Br R) as (l' & E & St & L).
    do 2 eexists. split; [exact E|]. split; [done| |done|cbn; lia]. by split.
  - destruct (advance_publish now msg e l A Br P) as (p' & l' & E & St & [(-> & D & L)|(-> & K)]);
      do 2 eexists; (split; [exact E|]); (split; [done| |done|cbn; lia]); by split.
  - destruct P as [L D]. do 2 eexists. split; [by apply advance_latest|].
    split; [by apply stepped_same| |done|cbn; lia]. by split.
  - destruct P as (L & D & -> & ->). do 2 eexists. split; [by apply advance_window|].
    split; [by apply stepped_same| |done|cbn; lia]. by split.
  - destruct P as (L & D & ->). destruct (advance_save now msg e l A Br L D) as (l' & E & St & K).
    do 2 eexists. split; [exact E|]. split; [done| |done|cbn; lia]. by split.
  - do 2 eexists. split; [cbn [advance]; unfold call; rewrite cache_set; reflexivity|].
    split; [|by split|done|cbn; lia]. split; [done..|by rewrite app_nil_r|done].
  - destruct (call_publish (snapshot_event c e) (PUnlock (Ok e)) l Br) as (b & E & Br').
    do 2 eexists. split; [exact E|]. split; [by apply stepped_publish|by split|done|cbn; lia].
  - destruct o as [e|?|?|]; try done. do 2 eexists. split; [reflexivity|].
    split; [|by split; [apply P|eexists]|done|cbn; lia]. split; [done..|by rewrite app_nil_r|done].
Qed.
End Critical.

(** ** Systems of threads *)

Record thread := { t_now : Time; t_msg : SignedMessage; t_phase : phase }.

Definition chat_of (th : thread) : string := ChatID (t_msg th).
Definition at_phase (p : phase) (th : thread) : thread :=
  {| t_now := t_now th; t_msg := t_msg th; t_phase := p |}.

Section Systems.
Context {S C B : Type} `{SL : StorageLaws S} `{CL : CacheLaws C} `{BL : BrokerLaws B}.
Context `{HashFunction} `{Ed25519}.
Implicit Types l : Log S C B.

Record system := { shared : Log S C B; threads : list thread }.

(** Any thread that can takes a step. *)
Inductive sys_step (s : system) : system -> Prop :=
  | sys_advance i th p l : threads s !! i = Some th ->
      advance (t_now th) (t_msg th) (t_phase th) (shared s) = Some (p, l) ->
      sys_step s {| shared := l; threads := <[i := at_phase p th]> (threads s) |}.

(** Calls of [Append] that start together over an empty store. *)
Definition calls (l : Log S C B) (ms : list (Time * SignedMessage)) : system :=
  {| shared := l; threads := map (fun tm => {| t_now := tm.1; t_msg := tm.2; t_phase := PStart |}) ms |}.

(** The thread inside the critical section of a chat. *)
Definition in_section (s : system) (c : string) (i : nat) : Prop :=
  exists th, threads s !! i = Some th /\ chat_of th = c /\ holding (t_phase th) = true.

(** What a thread outside knows. *)
Definition outside_ok (th : thread) : Prop :=
  match t_phase th with
  | PWait => acceptable (t_msg th) = true
  | PDone o => if acceptable (t_msg th) then exists e, o = Ok e else exists e, o = Err e
  | _ => True
  end.

(** The entry a thread has stored is in the log of its chat, and no other
    thread has stored the same. *)
Definition entry_kept (l : Log S C B) (th : thread) : Prop :=
  forall e, entry_of (t_phase th) = Some e ->
    Message e = t_msg th /\ 0 <= Sequence e /\ log_at l (chat_of th) !! Z.to_nat (Sequence e) = Some e.

Record sys_ok (s : system) : Prop := {
  so_broker : broker_inv (broker (shared s));
  so_free c : locks (shared s) !! c <> Some true -> chat_ok c (log_at (shared s) c) (snaps_at (shared s) c) /\
    forall i, ~ in_section s c i;
  so_held c : locks (shared s) !! c = Some true -> exists i, in_section s c i;
  so_alone c i j : in_section s c i -> in_section s c j -> i = j;
  so_phase i th : threads s !! i = Some th -> holding (t_phase th) = true ->
    phase_ok (t_now th) (t_msg th) (t_phase th) (log_at (shared s) (chat_of th)) (snaps_at (shared s) (chat_of th));
  so_outside i th : threads s !! i = Some th -> outside_ok th;
  so_kept i th : threads s !! i = Some th -> entry_kept (shared s) th;
  so_distinct i j th1 th2 e1 e2 : threads s !! i = Some th1 -> threads s !! j = Some th2 -> i <> j ->
    chat_of th1 = chat_of th2 -> entry_of (t_phase th1) = Some e1 -> entry_of (t_phase th2) = Some e2 ->
    Sequence e1 <> Sequence e2;
}.

Definition moved (s : system) (i : nat) (th : thread) (p : phase) (l' : Log S C B) : system :=
  {| shared := l'; threads := <[i := at_phase p th]> (threads s) |}.

Lemma moved_lookup s i th p l' j tj : threads s !! i = Some th ->
  threads (moved s i th p l') !! j = Some tj <->
  (j = i /\ tj = at_phase p th) \/ (j <> i /\ threads s !! j = Some tj).
Proof.
  intros E. cbn. destruct (decide (j = i)) as [->|N].
  - rewrite list_lookup_insert_eq by by eapply lookup_lt_Some. naive_solver.
  - rewrite list_lookup_insert_ne by done. naive_solver.
Qed.

Lemma moved_section s i th p l' c j : threads s !! i = Some th ->
  in_section (moved s i th p l') c j <->
  (j = i /\ chat_of th = c /\ holding p = true) \/ (j <> i /\ in_section s c j).
Proof.
  intros E. unfold in_section. split.
  - intros (tj & L & Cj & Hj). apply (moved_lookup _ _ _ _ _ _ _ E) in L as [[-> ->]|[N L]];
      [left; by split_and!|right; split; [done|by exists tj]].
  - intros [(-> & Ct & Hp)|(N & tj & L & Ct & Hj)].
    + exists (at_phase p th). split; [|done]. apply (moved_lookup _ _ _ _ _ _ _ E). by left.
    + exists tj. split; [|done]. apply (moved_lookup _ _ _ _ _ _ _ E). by right.
Qed.

(** A move of thread [i] and of its chat that keeps the invariant. *)
Record good_move (s : system) (i : nat) (th : thread) (p : phase) (l' : Log S C B) : Prop := {
  gm_broker : broker_inv (broker l');
  gm_others d : d <> chat_of th ->
    log_at l' d = log_at (shared s) d /\ snaps_at l' d = snaps_at (shared s) d /\
    (locks l' !! d = Some true <-> locks (shared s) !! d = Some true);
  gm_grows : exists added, log_at l' (chat_of th) = log_at (shared s) (chat_of th) ++ added;
  gm_section : (forall j, j <> i -> ~ in_section s (chat_of th) j) \/
    (log_at l' (chat_of th) = log_at (shared s) (chat_of th) /\
     snaps_at l' (chat_of th) = snaps_at (shared s) (chat_of th));
  gm_lock : locks l' !! chat_of th = Some true <->
    holding p = true \/ exists j, j <> i /\ in_section s (chat_of th) j;
  gm_free : locks l' !! chat_of th <> Some true -> chat_ok (chat_of th) (log_at l' (chat_of th)) (snaps_at l' (chat_of th));
  gm_single : holding p = true -> forall j, j <> i -> ~ in_section s (chat_of th) j;
  gm_phase : holding p = true ->
    phase_ok (t_now th) (t_msg th) p (log_at l' (chat_of th)) (snaps_at l' (chat_of th));
  gm_outside : outside_ok (at_phase p th);
  gm_kept : entry_kept l' (at_phase p th);
  gm_entry e : entry_of p = Some e ->
    entry_of (t_phase th) = Some e \/ Sequence e = Z.of_nat (length (log_at (shared s) (chat_of th)));
}.

Lemma kept_grows l l' tj : entry_kept l tj ->
  (exists added, log_at l' (chat_of tj) = log_at l (chat_of tj) ++ added) -> entry_kept l' tj.
Proof.
  intros K [a E] e He. destruct (K e He) as (M & P & L). split_and!; [done..|]. rewrite E.
  by apply lookup_app_l_Some.
Qed.

Lemma moved_grows s i th p l' d : good_move s i th p l' ->
  exists added, log_at l' d = log_at (shared s) d ++ added.
Proof.
  intros G. destruct (decide (d = chat_of th)) as [->|N]; [by apply G|].
  exists []. rewrite app_nil_r. by apply G.
Qed.

Lemma moved_distinct s i th p l' j tj e1 e2 : sys_ok s -> threads s !! i = Some th -> good_move s i th p l' ->
  j <> i -> threads s !! j = Some tj -> chat_of th = chat_of tj ->
  entry_of p = Some e1 -> entry_of (t_phase tj) = Some e2 -> Sequence e1 <> Sequence e2.
Proof.
  intros K E G N Ej Ch E1 E2. destruct (gm_entry _ _ _ _ _ G e1 E1) as [O|Q].
  - exact (so_distinct _ K i j th tj e1 e2 E Ej (not_eq_sym N) Ch O E2).
  - destruct (so_kept _ K j tj Ej e2 E2) as (_ & P & L). rewrite <-Ch in L. apply lookup_lt_Some in L. lia.
Qed.

Lemma moved_ok s i th p l' : sys_ok s -> threads s !! i = Some th -> good_move s i th p l' ->
  sys_ok (moved s i th p l').
Proof.
  intros K E G. split.
  - apply G.
  - intros d. cbn [shared moved]. destruct (decide (d = chat_of th)) as [->|N]; intros Fr.
    + split; [by apply G|]. intros j I. apply Fr, (gm_lock _ _ _ _ _ G).
      apply (moved_section _ _ _ _ _ _ _ E) in I as [(_ & _ & Hp)|I]; [by left|right; by exists j].
    + destruct (gm_others _ _ _ _ _ G d N) as (-> & -> & Lk). rewrite Lk in Fr.
      destruct (so_free _ K d Fr) as [Ck Ns]. split; [done|]. intros j I.
      apply (moved_section _ _ _ _ _ _ _ E) in I as [(_ & Ct & _)|[_ I]]; [by apply N|by apply (Ns j)].
  - intros d. cbn [shared moved]. destruct (decide (d = chat_of th)) as [->|N]; intros Hl.
    + apply (gm_lock _ _ _ _ _ G) in Hl as [Hp|(j & Nj & I)]; [exists i|exists j];
        apply (moved_section _ _ _ _ _ _ _ E); [by left|by right].
    + apply (gm_others _ _ _ _ _ G d N) in Hl. destruct (so_held _ K d Hl) as [j I]. exists j.
      apply (moved_section _ _ _ _ _ _ _ E). right. split; [|done]. intros ->.
      destruct I as (t2 & E2 & Ct & _). apply N. by simplify_eq.
  - intros d j k I1 I2. apply (moved_section _ _ _ _ _ _ _ E) in I1 as [(-> & Cj & Hj)|[Nj I1]];
      apply (moved_section _ _ _ _ _ _ _ E) in I2 as [(-> & Ck & Hk)|[Nk I2]]; subst; try done.
    + by destruct (gm_single _ _ _ _ _ G Hj k Nk).
    + by destruct (gm_single _ _ _ _ _ G Hk j Nj).
    + by apply (so_alone _ K d).
  - intros j tj L Hj. apply (moved_lookup _ _ _ _ _ _ _ E) in L as [[-> ->]|[N L]]; [by apply G|].
    pose proof (so_phase _ K j tj L Hj) as P. cbn [shared moved].
    assert (in_section s (chat_of tj) j) as I by by exists tj.
    destruct (decide (chat_of tj = chat_of th)) as [Ct|Nc].
    + rewrite Ct in *. destruct (gm_section _ _ _ _ _ G) as [Ns|[-> ->]]; [by destruct (Ns j N)|done].
    + by destruct (gm_others _ _ _ _ _ G _ Nc) as (-> & -> & _).
  - intros j tj L. apply (moved_lookup _ _ _ _ _ _ _ E) in L as [[-> ->]|[N L]]; [by apply G|by eapply so_outside].
  - intros j tj L. apply (moved_lookup _ _ _ _ _ _ _ E) in L as [[-> ->]|[N L]]; [by apply G|].
    eapply kept_grows; [by eapply so_kept|by eapply moved_grows].
  - intros j k t1 t2 e1 e2 L1 L2 N Ch E1 E2.
    apply (moved_lookup _ _ _ _ _ _ _ E) in L1 as [[-> ->]|[N1 L1]];
      apply (moved_lookup _ _ _ _ _ _ _ E) in L2 as [[-> ->]|[N2 L2]]; [done| | |].
    + by apply (moved_distinct s i th p l' k t2).
    + intros Q. symmetry in Q. revert Q. by apply (moved_distinct s i th p l' j t1).
    + by apply (so_distinct _ K j k t1 t2).
Qed.

(** *** Each step is such a move *)

Lemma section_locked s i th : sys_ok s -> threads s !! i = Some th -> holding (t_phase th) = true ->
  in_section s (chat_of th) i /\ locks (shared s) !! chat_of th = Some true.
Proof.
  intros K E Hp. assert (in_section s (chat_of th) i) as I by by exists th. split; [done|].
  destruct (decide (locks (shared s) !! chat_of th = Some true)) as [|Fr]; [done|].
  by destruct (so_free _ K _ Fr) as [_ []%(fun F => F i)].
Qed.

Lemma critical_kept now msg p l p' l' e : holding p = true ->
  phase_ok now msg p (log_at l (ChatID msg)) (snaps_at l (ChatID msg)) ->
  critical_step now msg p l p' l' -> entry_of p' = Some e ->
  (entry_of p = Some e /\ added_by p = []) \/
  (e = new_entry (log_at l (ChatID msg)) msg /\ added_by p = [e]).
Proof.
  intros Hp [_ P] [_ _ Ce _] E. rewrite Ce in E. destruct p; cbn in *; try done; simplify_eq; try (by left).
  right. by destruct P as [_ ->].
Qed.

Lemma critical_good s i th p l' : sys_ok s -> threads s !! i = Some th -> holding (t_phase th) = true ->
  critical_step (t_now th) (t_msg th) (t_phase th) (shared s) p l' -> good_move s i th p l'.
Proof.
  intros K E Hp Cs. destruct (section_locked s i th K E Hp) as [I Lk].
  pose proof (so_phase _ K i th E Hp) as Ph.
  assert (forall j, j <> i -> ~ in_section s (chat_of th) j) as Al
    by (intros j N J; apply N; by apply (so_alone _ K (chat_of th))).
  pose proof Cs as [[Sb So Sl Sk] Nx _ _]. split; try done.
  - intros d N. destruct (So d N) as [-> ->]. split_and!; [done..|]. rewrite Sk.
    destruct (negb _); [|done]. by rewrite lookup_insert_ne by (unfold chat_of in N; congruence).
  - by eexists.
  - by left.
  - rewrite Sk. destruct (holding p); cbn [negb]; [by split; [left|]|].
    change (ChatID (t_msg th)) with (chat_of th). rewrite lookup_insert_eq.
    split; [done|intros [?|(j & N & J)]; [done|by destruct (Al j N)]].
  - rewrite Sk. destruct (holding p); cbn [negb]; [by intros []|]. intros _. by destruct Nx as [Ck _].
  - intros Hh. by rewrite Hh in Nx.
  - unfold outside_ok. cbn [at_phase t_phase t_msg]. destruct (holding p) eqn:Hh; [by destruct p|].
    destruct Nx as [_ [e ->]]. destruct Ph as [-> _]. by eexists.
  - intros e Ee. cbn [at_phase t_phase t_msg] in *.
    destruct (critical_kept _ _ _ _ _ _ e Hp Ph Cs Ee) as [[O A]|[Q A]]; rewrite A in Sl.
    + rewrite app_nil_r in Sl. destruct (so_kept _ K i th E e O) as (M & P & L).
      change (chat_of (at_phase p th)) with (ChatID (t_msg th)). by rewrite Sl.
    + subst e. split_and!; [done|cbn; lia|]. change (chat_of (at_phase p th)) with (ChatID (t_msg th)).
      rewrite Sl. cbn [Sequence new_entry]. rewrite Nat2Z.id. by apply list_lookup_middle.
  - intros e Ee. destruct (critical_kept _ _ _ _ _ _ e Hp Ph Cs Ee) as [[O _]|[-> _]]; [by left|by right].
Qed.

(** Outside the critical section nothing of a chat changes but its mutex. *)
Lemma quiet_good s i th p l' : sys_ok s -> threads s !! i = Some th -> holding (t_phase th) = false ->
  entry_of (t_phase th) = None -> entry_of p = None ->
  store l' = store (shared s) -> broker l' = broker (shared s) ->
  (forall d, d <> chat_of th -> locks l' !! d = Some true <-> locks (shared s) !! d = Some true) ->
  (holding p = true -> locks (shared s) !! chat_of th <> Some true) ->
  (locks l' !! chat_of th = Some true <-> holding p = true \/ locks (shared s) !! chat_of th = Some true) ->
  (holding p = true -> p = PTip /\ acceptable (t_msg th) = true) ->
  outside_ok (at_phase p th) -> good_move s i th p l'.
Proof.
  intros K E Hp En Ep Es Eb Lo Fr Lk Ti Ou.
  assert (forall d, log_at l' d = log_at (shared s) d /\ snaps_at l' d = snaps_at (shared s) d) as Same
    by (intros d; unfold log_at, snaps_at; by rewrite Es).
  destruct (Same (chat_of th)) as [El En2]. split; try done.
  - rewrite Eb. apply K.
  - intros d N. by split; [|split]; [apply Same|apply Same|apply Lo].
  - exists []. by rewrite app_nil_r, El.
  - by right.
  - rewrite Lk. split; (intros [?|J]; [by left|right]).
    + destruct (so_held _ K _ J) as [j Ij]. exists j. split; [|done]. intros ->.
      destruct Ij as (t2 & E2 & _ & Ht). by simplify_eq; rewrite Ht in Hp.
    + destruct J as (j & _ & Ij). destruct (decide (locks (shared s) !! chat_of th = Some true)) as [|F]; [done|].
      by destruct (so_free _ K _ F) as [_ []%(fun G => G j)].
  - intros F. rewrite El, En2. apply K. intros J. by apply F, Lk; right.
  - intros Hh j _ J. by destruct (so_free _ K _ (Fr Hh)) as [_ []%(fun G => G j)].
  - intros Hh. destruct (Ti Hh) as [-> A]. split; [done|]. rewrite El, En2. by apply K, Fr.
  - intros e Ee. cbn in Ee. by rewrite Ep in Ee.
  - intros e Ee. by rewrite Ep in Ee.
Qed.

Lemma start_good s i th p l' : sys_ok s -> threads s !! i = Some th -> t_phase th = PStart ->
  advance (t_now th) (t_msg th) PStart (shared s) = Some (p, l') -> good_move s i th p l' /\ entry_of p = None /\
  (rank p < rank PStart)%nat /\ log_at l' (chat_of th) = log_at (shared s) (chat_of th).
Proof.
  intros K E Ep A. cbn [advance] in A. pose proof (quiet_good s i th p l' K E) as Q. rewrite Ep in Q.
  destruct (supportedVersion (SchemaVersion (t_msg th))) eqn:V; cbn [negb] in A.
  2:{ injection A as <- <-. split; [|split_and!; [done|cbn; lia|done]]. apply Q; try done; [by split; [right|intros []]|].
      unfold outside_ok, acceptable. cbn. rewrite V. by eexists. }
  destruct (VerifyMessage (t_msg th)) eqn:Sg; cbn [negb] in A.
  2:{ injection A as <- <-. split; [|split_and!; [done|cbn; lia|done]]. apply Q; try done; [by split; [right|intros []]|].
      unfold outside_ok, acceptable. cbn. rewrite V, Sg. by eexists. }
  injection A as <- <-. unfold chatLock, modify. cbn [snd].
  split; [|split_and!; [done|cbn; lia|by destruct (locks _ !! _)]]. change (ChatID (t_msg th)) with (chat_of th) in *.
  assert (acceptable (t_msg th) = true) as Ac by (unfold acceptable; by rewrite V, Sg).
  destruct (locks (shared s) !! chat_of th) eqn:L; (apply Q; try done; clear Q).
  - split; [intros J; right; by rewrite <-L|intros [?|J]; [done|by rewrite <-J]].
  - intros d N. cbn. by rewrite lookup_insert_ne.
  - cbn. rewrite lookup_insert_eq. by split; [|intros []].
Qed.

Lemma wait_good s i th p l' : sys_ok s -> threads s !! i = Some th -> t_phase th = PWait ->
  advance (t_now th) (t_msg th) PWait (shared s) = Some (p, l') -> good_move s i th p l' /\ entry_of p = None /\
  (rank p < rank PWait)%nat /\ log_at l' (chat_of th) = log_at (shared s) (chat_of th).
Proof.
  intros K E Ep A. cbn [advance] in A. pose proof (quiet_good s i th p l' K E) as Q. rewrite Ep in Q.
  pose proof (so_outside _ K i th E) as Ac. unfold outside_ok in Ac. rewrite Ep in Ac.
  unfold Lock in A. change (ChatID (t_msg th)) with (chat_of th) in *.
  destruct (locks (shared s) !! chat_of th) as [[]|] eqn:L; [done|injection A as <- <-..].
  all: split; [|split_and!; [done|cbn; lia|done]]; apply Q; try done.
  all: try by intros d N; cbn; rewrite lookup_insert_ne.
  all: cbn; rewrite lookup_insert_eq; by split; [left|].
Qed.

(** *** The invariant of a run *)

(** The entries the threads of a chat have stored. *)
Definition stored_by (c : string) (th : thread) : option LogEntry :=
  if decide (chat_of th = c) then entry_of (t_phase th) else None.
Definition stored (ths : list thread) (c : string) : list LogEntry := omap (stored_by c) ths.

(** How far the system is from its end. *)
Definition pending (ths : list thread) : nat := sum_list_with (fun th => rank (t_phase th)) ths.

Record sys_inv (s : system) : Prop := {
  si_ok : sys_ok s;
  si_stored c : log_at (shared s) c ≡ₚ stored (threads s) c;
  si_few : Z.of_nat (length (threads s)) + 1 < 2 ^ 64;
}.

Lemma length_stored ths c : (length (stored ths c) <= length ths)%nat.
Proof. unfold stored. induction ths as [|th ths IH]; [done|]. cbn. destruct (stored_by c th); cbn; lia. Qed.

Lemma stored_room s : sys_inv s -> room (shared s) 1.
Proof.
  intros [_ P F] c. rewrite (P c). pose proof (length_stored (threads s) c). lia.
Qed.

(** What a step of thread [i] does to the system. *)
Record good_step (s : system) (i : nat) (th : thread) (p : phase) (l' : Log S C B) : Prop := {
  gs_move : good_move s i th p l';
  gs_rank : (rank p < rank (t_phase th))%nat;
  gs_log : log_at l' (chat_of th) = log_at (shared s) (chat_of th) ++ added_by (t_phase th);
  gs_entry : entry_of p = match t_phase th with PStore e => Some e | _ => entry_of (t_phase th) end;
}.

Lemma advance_good s i th p l' : sys_inv s -> threads s !! i = Some th ->
  advance (t_now th) (t_msg th) (t_phase th) (shared s) = Some (p, l') -> good_step s i th p l'.
Proof.
  intros I E A. pose proof (si_ok _ I) as K. destruct (holding (t_phase th)) eqn:Hp.
  - destruct (advance_critical (t_now th) (t_msg th) (t_phase th) (shared s) Hp) as (p2 & l2 & A2 & Cs);
      [by apply (so_phase _ K i)|apply K|by apply stored_room|].
    rewrite A in A2. injection A2 as <- <-. split; [by apply critical_good|apply Cs|apply Cs|apply Cs].
  - destruct (t_phase th) eqn:Ep; try done.
    + destruct (start_good s i th p l' K E Ep A) as (G & En & R & L).
      split; rewrite ?Ep; cbn; [done|done|by rewrite app_nil_r|done].
    + destruct (wait_good s i th p l' K E Ep A) as (G & En & R & L).
      split; rewrite ?Ep; cbn; [done|done|by rewrite app_nil_r|done].
Qed.

Lemma stored_insert ths i th p c : ths !! i = Some th ->
  stored (<[i := at_phase p th]> ths) c ++ option_list (stored_by c th) ≡ₚ
    stored ths c ++ option_list (stored_by c (at_phase p th)).
Proof.
  intros E. unfold stored. rewrite <-(take_drop_middle ths i th E) at 2.
  rewrite insert_take_drop by by eapply lookup_lt_Some.
  rewrite !omap_app. cbn [omap list_omap].
  destruct (stored_by c th), (stored_by c (at_phase p th)); cbn; solve_Permutation.
Qed.

Lemma pending_insert ths i th p : ths !! i = Some th ->
  (pending (<[i := at_phase p th]> ths) + rank (t_phase th) = pending ths + rank p)%nat.
Proof.
  intros E. unfold pending. rewrite <-(take_drop_middle ths i th E) at 2.
  rewrite insert_take_drop by by eapply lookup_lt_Some. rewrite !sum_list_with_app. cbn.
  lia.
Qed.

Lemma step_inv s s' : sys_inv s -> sys_step s s' -> sys_inv s' /\ (pending (threads s') < pending (threads s))%nat.
Proof.
  intros I [i th p l' E A]. destruct (advance_good s i th p l' I E A) as [G R L En].
  split; [|pose proof (pending_insert (threads s) i th p E); cbn [threads]; lia]. split.
  - by apply (moved_ok s i th p l'); [apply I| |].
  - intros c. cbn [shared threads]. pose proof (stored_insert (threads s) i th p c E) as Pm.
    pose proof (si_stored _ I c) as Pc.
    change (stored_by c (at_phase p th)) with (if decide (chat_of th = c) then entry_of p else None) in Pm.
    unfold stored_by in Pm.
    destruct (decide (chat_of th = c)) as [<-|N].
    + rewrite L, Pc.
      assert (option_list (entry_of p) = option_list (entry_of (t_phase th)) ++ added_by (t_phase th)) as Eo
        by (rewrite En; destruct (t_phase th) as [| | |?|?|?|???|??|??|?|[]|[]]; done).
      rewrite Eo in Pm. apply (inj (.++ option_list (entry_of (t_phase th)))).
      rewrite Pm. solve_Permutation.
    + destruct (gm_others _ _ _ _ _ G c) as [-> _]; [done|]. rewrite Pc.
      by rewrite !app_nil_r in Pm.
  - cbn [threads]. rewrite length_insert. apply I.
Qed.

(** *** The start, the end, and the way between *)

Lemma calls_lookup l ms i th : threads (calls l ms) !! i = Some th -> t_phase th = PStart.
Proof.
  cbn. intros E. apply list_elem_of_lookup_2, list_elem_of_In, List.in_map_iff in E.
  by destruct E as (tm & <- & _).
Qed.

Lemma calls_inv l ms : fresh_log l -> Z.of_nat (length ms) + 1 < 2 ^ 64 -> sys_inv (calls l ms).
Proof.
  intros F Fw. split; [split| |].
  - apply F.
  - intros c _. split; [by apply (lo_chats _ (fresh_ok l F))|].
    intros i (th & E & _ & Hp). by rewrite (calls_lookup _ _ _ _ E) in Hp.
  - intros c Lk. by destruct (fr_locks _ F c).
  - intros c i j (th & E & _ & Hp). by rewrite (calls_lookup _ _ _ _ E) in Hp.
  - intros i th E Hp. by rewrite (calls_lookup _ _ _ _ E) in Hp.
  - intros i th E. unfold outside_ok. by rewrite (calls_lookup _ _ _ _ E).
  - intros i th E e. by rewrite (calls_lookup _ _ _ _ E).
  - intros i j t1 t2 e1 e2 E1 _ _ _ En. by rewrite (calls_lookup _ _ _ _ E1) in En.
  - intros c. cbn [shared calls]. rewrite (fr_log _ F). unfold stored. cbn.
    induction ms as [|tm ms IH]; [done|]. cbn. unfold stored_by at 1. cbn [t_phase entry_of].
    destruct (decide _); apply IH; cbn in Fw; lia.
  - cbn [threads calls]. by rewrite length_map.
Qed.

Lemma calls_pending l ms : pending (threads (calls l ms)) = (11 * length ms)%nat.
Proof. cbn. unfold pending. induction ms as [|tm ms IH]; [done|]. cbn in *. lia. Qed.

Lemma steps_inv n s s' : sys_inv s -> nsteps sys_step n s s' ->
  sys_inv s' /\ (pending (threads s') + n <= pending (threads s))%nat.
Proof.
  intros I R. induction R as [s|n s s1 s2 St _ IH]; [split; [done|lia]|].
  destruct (step_inv s s1 I St) as [I1 P1]. destruct (IH I1) as [I2 P2]. split; [done|lia].
Qed.

Definition returned (th : thread) : bool := match t_phase th with PDone _ => true | _ => false end.

(** A thread that has not returned can take a step, or the one that holds its mutex can. *)
Lemma runnable s i th : sys_inv s -> threads s !! i = Some th -> returned th = false -> exists s', sys_step s s'.
Proof.
  intros I E Nr. pose proof (si_ok _ I) as K.
  assert (forall j tj, threads s !! j = Some tj -> holding (t_phase tj) = true -> exists s', sys_step s s') as Crit.
  { intros j tj Ej Hj. destruct (advance_critical (t_now tj) (t_msg tj) (t_phase tj) (shared s) Hj) as (p & l & A & _);
      [by apply (so_phase _ K j)|apply K|by apply stored_room|]. eexists. by econstructor. }
  destruct (holding (t_phase th)) eqn:Hp; [by eapply Crit|].
  destruct (t_phase th) eqn:Ep; try done; [| |by unfold returned in Nr; rewrite Ep in Nr].
  - assert (exists q, advance (t_now th) (t_msg th) (t_phase th) (shared s) = Some q) as [[p l] A]
      by (rewrite Ep; cbn [advance]; repeat case_match; by eexists).
    eexists. by econstructor.
  - destruct (decide (locks (shared s) !! chat_of th = Some true)) as [Lk|Fr].
    + destruct (so_held _ K _ Lk) as (j & tj & Ej & _ & Hj). by eapply Crit.
    + assert (exists q, advance (t_now th) (t_msg th) (t_phase th) (shared s) = Some q) as [[p l] A].
      { rewrite Ep. cbn [advance]. unfold Lock. change (ChatID (t_msg th)) with (chat_of th).
        destruct (locks (shared s) !! chat_of th) as [[]|]; [done|by eexists..]. }
      eexists. by econstructor.
Qed.

Definition all_returned (s : system) : bool := forallb returned (threads s).

Lemma stuck_returned s : sys_inv s -> (forall s', ~ sys_step s s') -> all_returned s = true.
Proof.
  intros I N. apply List.forallb_forall. intros th E%list_elem_of_In%list_elem_of_lookup_1. destruct E as [i E].
  destruct (returned th) eqn:R; [done|]. destruct (runnable s i th I E R) as [s' St]. by destruct (N s').
Qed.

Lemma not_all_returned s : sys_inv s -> all_returned s = false -> exists s', sys_step s s'.
Proof.
  intros I N. destruct (proj1 (existsb_exists (fun th => negb (returned th)) (threads s))) as (th & E & R).
  - revert N. unfold all_returned. induction (threads s) as [|th ths IH]; [done|]. cbn.
    destruct (returned th); [done|done].
  - apply list_elem_of_In, list_elem_of_lookup_1 in E as [i E]. eapply runnable; [done..|].
    by destruct (returned th).
Qed.

Lemma finishes s : sys_inv s -> exists s', rtc sys_step s s' /\ all_returned s' = true.
Proof.
  remember (pending (threads s)) as n eqn:P. revert s P. induction (lt_wf n) as [n _ IH]. intros s -> I.
  destruct (all_returned s) eqn:R; [by exists s|]. destruct (not_all_returned s I R) as [s1 St].
  destruct (step_inv s s1 I St) as [I1 P1]. destruct (IH _ P1 s1 eq_refl I1) as (s2 & R2 & F).
  exists s2. split; [by eapply rtc_l|done].
Qed.

Lemma reach_inv s s' : sys_inv s -> rtc sys_step s s' -> sys_inv s'.
Proof. intros I [n R]%rtc_nsteps. by eapply steps_inv. Qed.

Lemma reach_messages s s' : rtc sys_step s s' -> map t_msg (threads s') = map t_msg (threads s).
Proof.
  induction 1 as [|s s1 s2 [i th p l E A] _ IH]; [done|]. rewrite IH. cbn [threads].
  clear IH A. revert i E. induction (threads s) as [|t ths IH]; intros [|i] E; simplify_eq/=; [done|].
  by rewrite IH.
Qed.

(** The messages in the stored entries, when all have returned. *)
Lemma stored_messages s c ths : Forall (fun th => outside_ok th /\ entry_kept (shared s) th) ths ->
  forallb returned ths = true ->
  map Message (stored ths c) = filter (fun m => acceptable m = true /\ ChatID m = c) (map t_msg ths).
Proof.
  induction 1 as [|th ths [Ou Ke] _ IH]; [done|]. cbn [forallb]. intros [R Rs]%andb_true_iff.
  cbn [map]. rewrite filter_cons, <-IH by done. unfold stored at 1. cbn. unfold stored_by.
  unfold returned in R. unfold outside_ok in Ou. unfold entry_kept in Ke.
  destruct (t_phase th) as [| | |?|?|?|???|??|??|?|?|o]; try done. change (ChatID (t_msg th)) with (chat_of th).
  destruct (acceptable (t_msg th)); destruct Ou as [x ->].
  - destruct (decide (chat_of th = c)) as [Ec|N].
    + rewrite decide_True by by split. cbn. by destruct (Ke x eq_refl) as [-> _].
    + rewrite decide_False by (intros [_ Q]; by destruct N). done.
  - rewrite (decide_False (P := false = true /\ chat_of th = c)) by (by intros []). by destruct (decide _).
Qed.

(** A schedule: the threads to run, in order; a thread that cannot step is passed over. *)
Definition run_thread (i : nat) (s : system) : system :=
  match threads s !! i with
  | Some th => match advance (t_now th) (t_msg th) (t_phase th) (shared s) with
               | Some (p, l) => {| shared := l; threads := <[i := at_phase p th]> (threads s) |}
               | None => s
               end
  | None => s
  end.
Definition schedule (order : list nat) (s : system) : system := foldl (fun s i => run_thread i s) s order.

Lemma schedule_reaches order s : rtc sys_step s (schedule order s).
Proof.
  revert s. induction order as [|i order IH]; intros s; [done|]. cbn.
  unfold run_thread. destruct (threads s !! i) as [th|] eqn:E; [|done].
  destruct (advance _ _ _ _) as [[p l]|] eqn:A; [|done]. eapply rtc_l; [by econstructor|done].
Qed.
End Systems.

(** ** Theorems *)

Section Theorems.
Context {S C B : Type} `{SL : StorageLaws S} `{CL : CacheLaws C} `{BL : BrokerLaws B}.
Context `{HashFunction} `{Ed25519}.
Implicit Types l : Log S C B.
Implicit Types s : @system S C B.

Lemma phase_chain now msg p es ns : phase_ok now msg p es ns -> chain 0 GenesisHash es.
Proof.
  intros [A P]. pose proof (fun e (L : lags (ChatID msg) es ns msg e) =>
    co_chain _ _ _ (proj1 (lags_ok now _ _ _ _ e L A eq_refl))) as G.
  destruct p as [| | |?|e|e|e ??|e ?|??|?|[]|?]; try done; try (by apply (G e), P); by apply P.
Qed.

Lemma inv_chain s c : sys_inv s -> chain 0 GenesisHash (log_at (shared s) c).
Proof.
  intros I. destruct (decide (locks (shared s) !! c = Some true)) as [Lk|Fr].
  - destruct (so_held _ (si_ok _ I) c Lk) as (i & th & E & <- & Hp).
    eapply phase_chain, (so_phase _ (si_ok _ I) i); done.
  - apply (so_free _ (si_ok _ I) c Fr).
Qed.

(** C3: interleaving is safe.  However the port calls of any number of
    concurrent [Append]s interleave over a fresh log, at every moment: each
    chat's log is one hash chain from genesis; at most one call is between
    [Lock] and [Unlock] of a chat; a chat nobody has locked is wholly in order,
    snapshots included; and every call that returned an entry finds it in the
    log at its own sequence, which no other call to that chat was given. *)
Theorem conc_invariant l ms s : fresh_log l -> Z.of_nat (length ms) + 1 < 2 ^ 64 ->
  rtc sys_step (calls l ms) s ->
  (forall c, chain 0 GenesisHash (log_at (shared s) c)) /\
  (forall c i j, in_section s c i -> in_section s c j -> i = j) /\
  (forall c, locks (shared s) !! c <> Some true -> chat_ok c (log_at (shared s) c) (snaps_at (shared s) c)) /\
  (forall i th e, threads s !! i = Some th -> t_phase th = PDone (Ok e) ->
    Message e = t_msg th /\ log_at (shared s) (chat_of th) !! Z.to_nat (Sequence e) = Some e) /\
  (forall i j th1 th2 e1 e2, threads s !! i = Some th1 -> threads s !! j = Some th2 -> i <> j ->
    chat_of th1 = chat_of th2 -> t_phase th1 = PDone (Ok e1) -> t_phase th2 = PDone (Ok e2) ->
    Sequence e1 <> Sequence e2).
Proof.
  intros F R St. pose proof (reach_inv _ _ (calls_inv l ms F R) St) as I. pose proof (si_ok _ I) as K.
  split_and!.
  - intros c. by apply inv_chain.
  - apply K.
  - intros c Fr. by apply (so_free _ K c).
  - intros i th e E P. destruct (so_kept _ K i th E e) as (M & _ & L); [by rewrite P|done].
  - intros i j th1 th2 e1 e2 E1 E2 N Ch P1 P2. 
    apply (so_distinct _ K i j th1 th2); by rewrite ?P1, ?P2.
Qed.

(** No deadlock and no livelock.  Concurrent [Append]s take at most 11
    steps each in any schedule, and a system that cannot take a step is one
    where every call has returned; one such state can always be reached. *)
Theorem conc_all_return l ms n s : fresh_log l -> Z.of_nat (length ms) + 1 < 2 ^ 64 ->
  nsteps sys_step n (calls l ms) s ->
  (n <= 11 * length ms)%nat /\
  ((forall s', ~ sys_step s s') <-> all_returned s = true) /\
  exists s', rtc sys_step s s' /\ all_returned s' = true.
Proof.
  intros F R St. destruct (steps_inv _ _ _ (calls_inv l ms F R) St) as [I P]. rewrite calls_pending in P.
  split_and!; [lia| |by apply finishes]. split; [by apply stuck_returned|].
  intros A s' [i th p l' E Ad]. unfold all_returned in A. rewrite List.forallb_forall in A.
  specialize (A th (proj1 (list_elem_of_In _ _) (list_elem_of_lookup_2 _ _ _ E))).
  unfold returned in A. by destruct (t_phase th).
Qed.

(** C10: nothing is lost, doubled or made up.  When concurrent [Append]s have
    all returned, the log of each chat holds exactly the acceptable messages
    addressed to it, in some order, every mutex is free, and a call returned an
    entry if and only if its message was acceptable. *)
Theorem conc_exactly_once l ms s c : fresh_log l -> Z.of_nat (length ms) + 1 < 2 ^ 64 ->
  rtc sys_step (calls l ms) s -> all_returned s = true ->
  messages_at (shared s) c ≡ₚ spec ms c /\ log_ok (shared s) /\ unlocked (shared s) /\
  forall i tm, ms !! i = Some tm -> exists o, t_phase <$> threads s !! i = Some (PDone o) /\
    if acceptable tm.2 then exists e, o = Ok e else exists e, o = Err e.
Proof.
  intros F R St A. pose proof (reach_inv _ _ (calls_inv l ms F R) St) as I. pose proof (si_ok _ I) as K.
  pose proof (reach_messages _ _ St) as M. cbn [threads calls] in M. rewrite map_map in M. cbn [t_msg] in M.
  assert (unlocked (shared s)) as U.
  { intros d Lk. destruct (so_held _ K d Lk) as (i & th & E & _ & Hp). unfold all_returned in A.
    rewrite List.forallb_forall in A.
    specialize (A th (proj1 (list_elem_of_In _ _) (list_elem_of_lookup_2 _ _ _ E))).
    unfold returned in A. by destruct (t_phase th). }
  split_and!; [| |done|].
  - unfold messages_at. rewrite (si_stored _ I c), (stored_messages s); [by rewrite M|..|done].
    apply Forall_lookup_2. intros i th E. split; [by eapply so_outside|by eapply so_kept].
  - split; [intros d; by apply (so_free _ K d)|apply K].
  - intros i tm E.
    assert (exists th, threads s !! i = Some th /\ t_msg th = tm.2) as (th & Et & Em).
    { assert (snd <$> (ms !! i) = t_msg <$> (threads s !! i)) as Q.
      { rewrite <-!list_lookup_fmap. change (fmap t_msg) with (map t_msg). change (fmap snd) with (map (@snd Time SignedMessage)).
        by rewrite M. }
      rewrite E in Q. destruct (threads s !! i) as [th|]; [|done]. exists th. split; [done|].
      cbn in Q. congruence. }
    rewrite Et. cbn. pose proof (so_outside _ K i th Et) as O. unfold all_returned in A.
    rewrite List.forallb_forall in A.
    specialize (A th (proj1 (list_elem_of_In _ _) (list_elem_of_lookup_2 _ _ _ Et))).
    unfold returned, outside_ok in *. destruct (t_phase th); try done. eexists. by rewrite <-Em.
Qed.
End Theorems.

(** ** Two calls of one chat, their steps interleaved *)

Module ConcSample.
Import LogSample.

Definition both := calls start (script "c" 2).

(** Turn by turn: the first has stored its entry and the second waits for the mutex. *)
Definition midway := schedule [0; 1; 0; 1; 0; 0]%nat both.
Definition final := schedule (concat (replicate 10 [1; 0]%nat)) both.

Definition results (ths : list thread) : list (option Z) :=
  map (fun th => match t_phase th with PDone (Ok e) => Some (Sequence e) | _ => None end) ths.

Lemma midway_ranks : map (fun th => rank (t_phase th)) (threads midway) = [7; 10]%nat.
Proof. vm_compute. reflexivity. Qed.

(** The second came first. *)
Lemma final_results : results (threads final) = [Some 1; Some 0].
Proof. vm_compute. reflexivity. Qed.

Lemma both_small : Z.of_nat (length (script "c" 2)) + 1 < 2 ^ 64.
Proof. reflexivity. Qed.
End ConcSample.

Section Witnesses.
Import LogSample ConcSample.
#[local] Opaque after signed.

Lemma append_alone_witness : exists e l',
  alone epoch (signed "c" 99) PStart (after "c" 99) (Ok e) l' /\ locks l' !! "c"%string <> Some true.
Proof.
  generalize (after_ok "c" 99 eq_refl) (after_unlocked "c" 99 eq_refl) (after_length "c" 99 eq_refl)
    (signed_acceptable "c" 99) (signed_chat "c" 99).
  generalize (after "c" 99) (signed "c" 99). intros l m K U L A Cm.
  apply andb_true_iff in A as [V Sg].
  assert (Z.of_nat (length (log_at l (ChatID m))) + 1 < 2 ^ 64) as R by (rewrite Cm, L; reflexivity).
  destruct (Append_run epoch m l K V Sg (U _) R) as (l' & E & _ & _).
  do 2 eexists. split; [apply (append_alone epoch m l _ _ E); discriminate|].
  cbn. rewrite Cm, lookup_insert_eq. discriminate.
Defined.

Lemma conc_invariant_witness :
  map (fun th => rank (t_phase th)) (threads midway) = [7; 10]%nat /\ chain 0 GenesisHash (log_at (shared midway) "c").
Proof.
  split; [exact midway_ranks|].
  destruct (conc_invariant start (script "c" 2) midway start_fresh both_small (schedule_reaches _ _)) as [T _].
  exact (T "c"%string).
Defined.

Lemma conc_all_return_witness :
  exists n, nsteps sys_step n both midway /\ (n <= 22)%nat /\ exists s, rtc sys_step midway s /\ all_returned s = true.
Proof.
  destruct (proj1 (rtc_nsteps _ _) (schedule_reaches [0; 1; 0; 1; 0; 0]%nat both)) as [n R]. exists n. split; [exact R|].
  destruct (conc_all_return start (script "c" 2) n midway start_fresh both_small R) as (N & _ & F). split; [exact N|exact F].
Defined.

Lemma conc_exactly_once_witness : results (threads final) = [Some 1; Some 0] /\ all_returned final = true /\
  messages_at (shared final) "c" ≡ₚ map (signed "c") (seq 0 2).
Proof.
  assert (all_returned final = true) as A by (vm_compute; reflexivity).
  split; [exact final_results|]. split; [exact A|].
  destruct (conc_exactly_once start (script "c" 2) final "c" start_fresh both_small (schedule_reaches _ _) A) as [P _].
  rewrite script_spec, decide_True in P by reflexivity. exact P.
Defined.
End Witnesses.
