(* ===== verification/FaultRuns.v ===== *)
(** * FaultRuns: a node whose store fails

    Any number of calls of [Append] interleave on one node, as in
    [Concurrency], but every call of the store may fail, with or without effect
    ([Faults]).  The chains, the mutexes and the acknowledged entries are as
    good as ever, and every call returns.  The snapshots are not: a window
    whose snapshot was not made is swallowed by the next one, whose index no
    longer fits the sequences it covers.  [FaultProofs] shows what [ProveInclusion]
    makes of that: its proofs are always right, but once a snapshot is missing no
    later message of the chat can be proved any more. *)
From S2P Require Import Prelude Codec JsonText GoTime Sha256 Models Merkle Crypto Storage Cache Broker Chatlog LogFacts LogReads LogContract Scylla ScyllaLog Faults Concurrency.

(** ** Windows *)

Section Windows.
Context `{HashFunction} `{Ed25519}.

(** The first sequence the next snapshot covers. *)
Definition next_from (ns : list MerkleSnapshot) : Z :=
  match last ns with Some n => ToSequence n + 1 | None => 0 end.

(** The entries a snapshot is over. *)
Definition covered_by (n : MerkleSnapshot) (es : list LogEntry) : list LogEntry :=
  take (Z.to_nat (ToSequence n + 1 - FromSequence n)) (drop (Z.to_nat (FromSequence n)) es).

(** [n] goes on where the snapshots [ns] of chat [c] end, with log [es]. *)
Record seals (c : string) (es : list LogEntry) (ns : list MerkleSnapshot) (n : MerkleSnapshot) : Prop := {
  se_chat : snap_ChatID n = c;
  se_index : SnapshotIndex n = Z.of_nat (length ns);
  se_from : FromSequence n = next_from ns;
  se_order : next_from ns <= ToSequence n < Z.of_nat (length es);
  se_due : (ToSequence n + 1) mod 100 = 0;
  se_root : MerkleRoot n = Root (leaves_of (covered_by n es));
  se_last e : es !! Z.to_nat (ToSequence n) = Some e -> LastEntryHash n = EntryHash e;
}.

Definition windows (c : string) (es : list LogEntry) (ns : list MerkleSnapshot) : Prop :=
  forall k n, ns !! k = Some n -> seals c es (take k ns) n.

Lemma next_from_snoc ns n : next_from (ns ++ [n]) = ToSequence n + 1.
Proof. unfold next_from. by rewrite last_snoc. Qed.

Lemma windows_prefix c es ns n : windows c es (ns ++ [n]) -> windows c es ns /\ seals c es ns n.
Proof.
  intros W. split.
  - intros k m E. pose proof (lookup_lt_Some _ _ _ E). rewrite <-(take_app_le ns [n]) by lia.
    apply W. by apply lookup_app_l_Some.
  - pose proof (W (length ns) n) as L. rewrite take_app_length in L. apply L.
    by apply list_lookup_middle.
Qed.

Lemma windows_snoc c es ns n : windows c es ns -> seals c es ns n -> windows c es (ns ++ [n]).
Proof.
  intros W K k m [[L E]|[-> <-]]%lookup_snoc_Some.
  - rewrite take_app_le by lia. by apply W.
  - by rewrite take_app_length.
Qed.

(** The windows are whole hundreds, so each snapshot is past its own index. *)
Lemma windows_next c es ns : windows c es ns ->
  100 * Z.of_nat (length ns) <= next_from ns <= Z.of_nat (length es) /\ next_from ns mod 100 = 0.
Proof.
  induction ns as [|n ns IH] using rev_ind; intros W; [cbn; lia|].
  apply windows_prefix in W as [W [_ _ _ O D _ _]]. destruct (IH W) as [B M].
  rewrite next_from_snoc, length_app. cbn [length]. split; [div_lia|done].
Qed.

Lemma covered_app n es fs : 0 <= FromSequence n -> ToSequence n < Z.of_nat (length es) ->
  covered_by n (es ++ fs) = covered_by n es.
Proof.
  intros F T. unfold covered_by. destruct (decide (FromSequence n <= Z.of_nat (length es))).
  - rewrite drop_app_le by lia. rewrite take_app_le; [done|]. rewrite length_drop. lia.
  - by replace (Z.to_nat (ToSequence n + 1 - FromSequence n)) with 0%nat by lia.
Qed.

Lemma seals_app c es fs ns n : 0 <= next_from ns -> seals c es ns n -> seals c (es ++ fs) ns n.
Proof.
  intros P [Ch Ix Fr O D Ro La]. split; try done.
  - rewrite length_app. lia.
  - rewrite covered_app; [done|by rewrite Fr|lia].
  - intros e E. apply La. rewrite lookup_app_l in E by lia. done.
Qed.

Lemma windows_app c es fs ns : windows c es ns -> windows c (es ++ fs) ns.
Proof.
  induction ns as [|n ns IH] using rev_ind; [done|]. intros [W K]%windows_prefix.
  apply windows_snoc; [by apply IH|]. apply seals_app; [|done]. apply windows_next in W. lia.
Qed.

Lemma seals_recorded c es ns n n' : recorded n n' -> seals c es ns n -> seals c es ns n'.
Proof.
  intros (Ec & Ei & Ef & Et & Er & El) [Ch Ix Fr O D Ro La].
  split; unfold covered_by in *; by rewrite ?Ec, ?Ei, ?Ef, ?Et, ?Er, ?El.
Qed.
End Windows.

(** ** Mutexes, over any ports *)

Section Mutexes.
Context {S C B : Type} `{Storage S} `{Cache C} `{Broker B} `{HashFunction} `{Ed25519}.
Implicit Types l : Log S C B.
Implicit Types s : @system S C B.

Lemma call_mutex {A} (m : M (Log S C B) A) ok err l p l' : keeps_locks m -> call m ok err l = Some (p, l') ->
  locks l' = locks l /\ ((exists a, p = ok a) \/ (exists e, p = err e) \/ exists w, p = PUnlock (Panic w)).
Proof.
  intros K E. specialize (K l). unfold call in E. destruct (m l) as [[] l1]; simplify_eq; cbn in K; eauto 10.
Qed.

(** A step inside the critical section. *)
Lemma advance_inside now msg p l p' l' : holding p = true -> advance now msg p l = Some (p', l') ->
  (locks l' = locks l /\ holding p' = true) \/
  (locks l' = <[ChatID msg := false]> (locks l) /\ holding p' = false).
Proof.
  intros Hp A.
  destruct p as [| | |e|e|e|e from index|e n|e r|e|o|o]; try done; cbn [advance] in A;
    [..|injection A as <- <-; by right].
  all: left; apply call_mutex in A as [-> Cs];
    [|first [apply keeps_on_store|apply keeps_on_cache|apply keeps_on_broker]].
  all: split; [done|].
  all: unfold after_publish in Cs.
  all: by destruct Cs as [[a ->]|[[x ->]|[w ->]]]; repeat case_match.
Qed.

(** A step takes the mutex of its chat when it enters the critical section, and
    frees it when it leaves. *)
Lemma advance_mutex now msg p l p' l' (c := ChatID msg) : advance now msg p l = Some (p', l') ->
  (holding p = true -> locks l !! c = Some true) ->
  (forall d, locks l' !! d = Some true <->
     if decide (d = c) then holding p' = true \/ (holding p = false /\ locks l !! d = Some true)
     else locks l !! d = Some true) /\
  (holding p = false -> holding p' = true -> locks l !! c <> Some true).
Proof.
  intros A Lk. destruct (holding p) eqn:Hp.
  - split; [|done]. destruct (advance_inside _ _ _ _ _ _ Hp A) as [[-> ->]|[-> ->]]; intros d; case_decide; subst; try done.
    + split; [by left|]. intros _. by apply Lk.
    + fold c. rewrite lookup_insert_eq. naive_solver.
    + fold c. by rewrite lookup_insert_ne.
  - destruct p; try done; cbn [advance] in A.
    + assert (forall d, locks l !! d = Some true <-> if decide (d = c) then holding PWait = true \/
        (holding PStart = false /\ locks l !! d = Some true) else locks l !! d = Some true) as Same
        by (intros d; case_decide; [|done]; split; [by right|by intros [|[]]]).
      destruct (negb (supportedVersion _)); [by injection A as <- <-|].
      destruct (negb (VerifyMessage msg)); [by injection A as <- <-|].
      injection A as <- <-. split; [|done]. intros d.
      unfold chatLock, modify. cbn [snd]. fold c. destruct (locks l !! c) eqn:L; [apply Same|].
      rewrite <-Same. cbn. destruct (decide (d = c)) as [->|N]; [by rewrite lookup_insert_eq, L|by rewrite lookup_insert_ne].
    + unfold Lock in A. fold c in A. destruct (locks l !! c) as [[]|] eqn:L; simplify_eq; (split; [|done]); intros d; cbn;
        (case_decide; subst; [rewrite lookup_insert_eq|by rewrite lookup_insert_ne]); naive_solver.
Qed.

(** A mutex is held exactly by the one call inside. *)
Record mutex_ok s : Prop := {
  mu_held c : locks (shared s) !! c = Some true <-> exists i, in_section s c i;
  mu_alone c i j : in_section s c i -> in_section s c j -> i = j;
}.

Lemma mutex_step s s' : mutex_ok s -> sys_step s s' -> mutex_ok s'.
Proof.
  intros [Hd Al] [i th p l E A]. change {| shared := l; threads := _ |} with (moved s i th p l).
  assert (holding (t_phase th) = true -> in_section s (chat_of th) i) as In by by exists th.
  destruct (advance_mutex _ _ _ _ _ _ A) as [Lk Fr]; [intros Hp; apply Hd; by exists i; apply In|].
  change (ChatID (t_msg th)) with (chat_of th) in *. split.
  - intros c. etrans; [apply Lk|]. setoid_rewrite (moved_section s i th p l c _ E). case_decide as Dc.
    + subst c. split.
      * intros [Hp|[Hp [j I]%Hd]]; [exists i; by left|]. exists j. right. split; [|done]. intros ->.
        destruct I as (t2 & E2 & _ & Ht). congruence.
      * intros (j & [(-> & _ & Hp)|[N I]]); [by left|]. right.
        destruct (holding (t_phase th)) eqn:Hp; [|split; [done|by apply Hd; exists j]].
        destruct N. by apply (Al (chat_of th)), In.
    + rewrite Hd. split; [intros [j I]; exists j; right; split; [|done]|intros (j & [(_ & ? & _)|[_ I]]); [done|by exists j]].
      intros ->. destruct I as (t2 & E2 & Ct & _). congruence.
  - assert (holding p = true -> forall j, j <> i -> ~ in_section s (chat_of th) j) as Ex.
    { intros Hp j N I. destruct (holding (t_phase th)) eqn:Hq; [by apply N, (Al (chat_of th)), In|].
      by apply (Fr eq_refl Hp), Hd; exists j. }
    intros c j k I1 I2.
    apply (moved_section _ _ _ _ _ _ _ E) in I1 as [(-> & Cj & Hj)|[Nj I1]];
      apply (moved_section _ _ _ _ _ _ _ E) in I2 as [(-> & Ck & Hk)|[Nk I2]]; subst; try done.
    + by destruct (Ex Hj k Nk).
    + by destruct (Ex Hk j Nj).
    + by apply (Al c).
Qed.

Lemma mutex_start l ms : (forall c, locks l !! c <> Some true) -> mutex_ok (calls l ms).
Proof.
  intros Fr. split.
  - intros c. split; [intros L; by destruct (Fr c)|]. intros (i & th & E & _ & Hp).
    by rewrite (calls_lookup _ _ _ _ E) in Hp.
  - intros c i j (th & E & _ & Hp). by rewrite (calls_lookup _ _ _ _ E) in Hp.
Qed.
End Mutexes.

(** ** A step over a store that may fail *)

Section Steps.
Context {S C B : Type} `{SP : SnapshotLaws S} `{CL : CacheLaws C} `{BL : BrokerLaws B}.
Context `{HashFunction} `{Ed25519}.
Implicit Types l : Log S C B.

Definition entries_of l c : list LogEntry := sh_log (store l) c.
Definition sealed_of l c : list MerkleSnapshot := sp_snaps (store l) c.

(** The entry [e] of [msg] is the last, and no snapshot is over it. *)
Record pending_entry (es : list LogEntry) (ns : list MerkleSnapshot) (msg : SignedMessage) (e : LogEntry) : Prop := {
  pe_last : last es = Some e;
  pe_message : Message e = msg;
  pe_fresh : next_from ns <= Sequence e;
}.

Definition boundary (e : LogEntry) : Prop := (Sequence e + 1) mod 100 = 0.

(** What holds of a chat while a call for [msg] is in its critical section. *)
Definition fault_phase (msg : SignedMessage) (p : phase) (es : list LogEntry) (ns : list MerkleSnapshot) : Prop :=
  match p with
  | PTip => True
  | PStore e => e = new_entry es msg
  | PPublish e => pending_entry es ns msg e
  | PLatest e => pending_entry es ns msg e /\ boundary e
  | PWindow e from index =>
      pending_entry es ns msg e /\ boundary e /\ from = next_from ns /\ index = Z.of_nat (length ns)
  | PSave e n => pending_entry es ns msg e /\ seals (ChatID msg) es ns n /\ ToSequence n = Sequence e
  | PRoot e _ | PAnnounce e | PUnlock (Ok e) => last es = Some e /\ Message e = msg
  | PUnlock (Err _) => True
  | _ => False
  end.

(** And while it is outside. *)
Definition outside (p : phase) : Prop :=
  match p with
  | PDone (Panic _) | PDone Block => False
  | _ => True
  end.

(** What a call knows that has come to [p]. *)
Record call_ok_at (msg : SignedMessage) (p : phase) (es : list LogEntry) (ns : list MerkleSnapshot) : Prop := {
  cp_inside : holding p = true -> fault_phase msg p es ns;
  cp_outside : holding p = false -> outside p;
  cp_accepted : p = PStart \/ (exists err, p = PDone (Err err)) \/ acceptable msg = true;
}.

(** The entries and the snapshots a step adds. *)
Definition grows_by (p p' : phase) (added : list LogEntry) : Prop :=
  (added = [] /\ forall e, entry_of p' = Some e -> entry_of p = Some e) \/
  (exists e, p = PStore e /\ added = [e] /\ forall f, entry_of p' = Some f -> f = e).
Definition seals_by (p : phase) (more : list MerkleSnapshot) : Prop :=
  more = [] \/ exists e n n', p = PSave e n /\ recorded n n' /\ more = [n'].

Record fault_step (msg : SignedMessage) (p : phase) l (p' : phase) l' (added : list LogEntry) (more : list MerkleSnapshot)
    (c := ChatID msg) : Prop := {
  fs_shared : sh_ok (store l');
  fs_sound : sp_ok (store l');
  fs_broker : broker_inv (broker l');
  fs_log d : entries_of l' d = if decide (d = c) then entries_of l c ++ added else entries_of l d;
  fs_snaps d : sealed_of l' d = if decide (d = c) then sealed_of l c ++ more else sealed_of l d;
  fs_grows : grows_by p p' added;
  fs_seals : seals_by p more;
  fs_rank : (rank p' < rank p)%nat;
  fs_call : call_ok_at msg p' (entries_of l' c) (sealed_of l' c);
}.

(** A step that adds nothing. *)
Record quiet l l' : Prop := {
  qu_shared : sh_ok (store l');
  qu_sound : sp_ok (store l');
  qu_broker : broker_inv (broker l');
  qu_log d : entries_of l' d = entries_of l d;
  qu_snaps d : sealed_of l' d = sealed_of l d;
}.

Lemma quiet_step msg p l p' l' (c := ChatID msg) : quiet l l' -> (rank p' < rank p)%nat ->
  (forall e, entry_of p' = Some e -> entry_of p = Some e) ->
  call_ok_at msg p' (entries_of l c) (sealed_of l c) -> fault_step msg p l p' l' [] [].
Proof.
  intros [Sh So Br L N] R E K. split; try done.
  - intros d. rewrite app_nil_r, L. by case_decide; subst.
  - intros d. rewrite app_nil_r, N. by case_decide; subst.
  - by left.
  - by left.
  - fold c. by rewrite L, N.
Qed.

(** A call that fails on the way. *)
Lemma failed_ok msg pre err es ns : acceptable msg = true -> call_ok_at msg (fail pre err) es ns.
Proof. intros A. split; [done|done|by right; right]. Qed.

Lemma inside_ok msg p es ns : acceptable msg = true -> holding p = true -> fault_phase msg p es ns -> call_ok_at msg p es ns.
Proof. intros A Hp K. split; [done|by rewrite Hp|by right; right]. Qed.

Lemma call_on_store {A} (m : M S A) ok err l o s : m (store l) = (o, s) ->
  call (on_store m) ok err l = match o with
    | Ok a => Some (ok a, set_store s l)
    | Err e => Some (err e, set_store s l)
    | Panic w => Some (PUnlock (Panic w), set_store s l)
    | Block => None
    end.
Proof. intros E. unfold call. rewrite (on_store_run m l o s E). by destruct o. Qed.

Lemma quiet_store l s : sh_ok s -> sp_ok s -> broker_inv (broker l) ->
  (forall d, sh_log s d = sh_log (store l) d) -> (forall d, sp_snaps s d = sp_snaps (store l) d) -> quiet l (set_store s l).
Proof. intros. by split. Qed.
(** *** Phase by phase *)

(** What a step starts from. *)
Record chat_fine (msg : SignedMessage) l (c := ChatID msg) : Prop := {
  cf_shared : sh_ok (store l);
  cf_sound : sp_ok (store l);
  cf_broker : broker_inv (broker l);
  cf_chain : chain 0 GenesisHash (entries_of l c);
  cf_windows : windows c (entries_of l c) (sealed_of l c);
  cf_room : Z.of_nat (length (entries_of l c)) + 1 < 2 ^ 63;
  cf_fits : acceptable msg = true -> sh_fits msg;
}.

Section Phases.
Context (now : Time) (msg : SignedMessage) (l : Log S C B) (F : chat_fine msg l) (A : acceptable msg = true).
Abbreviation c := (ChatID msg).
Abbreviation es := (entries_of l c).
Abbreviation ns := (sealed_of l c).

Definition steps (p : phase) : Prop := exists p' l' added more,
  advance now msg p l = Some (p', l') /\ fault_step msg p l p' l' added more.

Lemma step_tip : steps PTip.
Proof.
  destruct F as [Sh So Br T W Rm Ft]. destruct (sh_last c (store l) Sh) as (o & s & E & R & Sh' & L).
  destruct (sp_last c (store l) So) as [So' N]. rewrite E in So', N. cbn [snd] in So', N.
  pose proof (quiet_store l s Sh' So' Br L N) as Q.
  assert (forall e, e = new_entry es msg -> fault_step msg PTip l (PStore e) (set_store s l) [] []) as Go
    by (intros e ->; apply quiet_step; [done|cbn; lia|done|by apply inside_ok]).
  unfold steps. cbn [advance]. rewrite (call_on_store _ _ _ _ _ _ E).
  pose proof (tip_built es msg T ltac:(lia)) as Tb. destruct R as [->|(err & -> & Nf)].
  - unfold entries_of in *. destruct (last (sh_log (store l) c)) as [e|]; cbn [found].
    + do 4 eexists. split; [reflexivity|]. by apply Go.
    + rewrite errors_is_not_found. do 4 eexists. split; [reflexivity|]. by apply Go.
  - rewrite Nf. do 4 eexists. split; [reflexivity|]. apply quiet_step; [done|cbn; lia|done|by apply failed_ok].
Qed.

Lemma step_store : steps (PStore (new_entry es msg)).
Proof.
  destruct F as [Sh So Br T W Rm Ft]. set (e := new_entry es msg).
  destruct (sh_append c e (store l) Sh (Ft A) eq_refl) as (o & s & E & Sh' & G);
    [cbn [Sequence e new_entry]; unfold entries_of; lia|exact Rm|].
  rewrite decide_True in G by done.
  destruct (sp_append c e (store l) So) as [So' N]. rewrite E in So', N. cbn [snd] in So', N.
  assert (windows c (es ++ [e]) ns) as W' by by apply windows_app.
  assert (next_from ns <= Sequence e) as Nf by (apply windows_next in W as [[_ Wn] _]; exact Wn).
  unfold steps. cbn [advance]. rewrite (call_on_store _ _ _ _ _ _ E).
  assert (forall p', (forall f, entry_of p' = Some f -> f = e) -> (rank p' < 8)%nat ->
    (forall d, sh_log s d = if decide (d = c) then sh_log (store l) c ++ [e] else sh_log (store l) d) ->
    call_ok_at msg p' (es ++ [e]) ns -> fault_step msg (PStore e) l p' (set_store s l) [e] []) as Go.
  { intros p' En Rk L K. split; try done.
    - intros d. rewrite app_nil_r. etrans; [apply N|]. by case_decide; subst.
    - right. by exists e.
    - by left.
    - unfold entries_of, sealed_of in *. cbn [store set_store]. by rewrite L, N, decide_True. }
  destruct G as [[[->|(err & -> & _)] L]|[(err & -> & _) L]].
  - do 4 eexists. split; [reflexivity|]. apply Go; [by intros f [= <-]|cbn; lia|done|].
    apply inside_ok; [done..|]. split; [apply last_snoc|done|done].
  - do 4 eexists. split; [reflexivity|]. apply Go; [done|cbn; lia|done|by apply failed_ok].
  - do 4 eexists. split; [reflexivity|]. apply quiet_step; [by apply quiet_store|cbn; lia|done|by apply failed_ok].
Qed.

Lemma step_publish e : pending_entry es ns msg e -> steps (PPublish e).
Proof.
  destruct F as [Sh So Br T W Rm Ft]. intros Pe. destruct (call_publish (entry_event c e) (after_publish e) l Br) as (b & E & Br').
  unfold steps. cbn [advance]. rewrite E. do 4 eexists. split; [reflexivity|].
  assert (Sequence e = Z.of_nat (length es) - 1) as Q.
  { destruct Pe as [La _ _]. rewrite last_lookup in La. pose proof (lookup_lt_Some _ _ _ La).
    rewrite (chain_sequence es _ e T ltac:(lia) La). lia. }
  apply quiet_step; [by split|unfold after_publish; by case_match; cbn; lia|unfold after_publish; by case_match|].
  unfold after_publish. destruct (Z.eqb_spec (u64 (Sequence e + 1) mod SnapshotInterval) 0) as [D|D]; (apply inside_ok; [done..|]).
  - split; [done|]. unfold boundary. by rewrite u64_id in D by (unfold is_u64; lia).
  - by destruct Pe.
Qed.

Lemma step_latest e : pending_entry es ns msg e -> boundary e -> steps (PLatest e).
Proof.
  destruct F as [Sh So Br T W Rm Ft]. intros Pe Bd. destruct (sp_latest c (store l) So) as (o & s & E & R & So' & N).
  destruct (sh_latest c (store l) Sh) as [Sh' L]. rewrite E in Sh', L. cbn [snd] in Sh', L.
  pose proof (quiet_store l s Sh' So' Br L N) as Q. pose proof (windows_next _ _ _ W) as [Wn _].
  assert (forall from index, from = next_from ns -> index = Z.of_nat (length ns) ->
    fault_step msg (PLatest e) l (PWindow e from index) (set_store s l) [] []) as Go.
  { intros from index -> ->. apply quiet_step; [done|cbn; lia|done|by apply inside_ok]. }
  unfold steps. cbn [advance]. rewrite (call_on_store _ _ _ _ _ _ E). destruct R as [->|(err & -> & Nf)].
  - change (sp_snaps (store l) c) with ns. destruct (last ns) as [p|] eqn:La; cbn [found].
    + do 4 eexists. split; [reflexivity|]. unfold next_from in Wn. rewrite La in Wn.
      rewrite last_lookup in La. pose proof (lookup_lt_Some _ _ _ La). pose proof (se_index _ _ _ _ (W _ _ La)) as Ix.
      rewrite length_take in Ix. rewrite Ix. apply Go; [|rewrite u64_id by (unfold is_u64; lia); lia].
      rewrite u64_id by (unfold is_u64; lia). unfold next_from. by rewrite last_lookup, La.
    + rewrite errors_is_not_found. do 4 eexists. split; [reflexivity|]. apply last_None in La.
      apply Go; [unfold next_from|]; by rewrite La.
  - rewrite Nf. do 4 eexists. split; [reflexivity|]. apply quiet_step; [done|cbn; lia|done|by apply failed_ok].
Qed.

Lemma step_window e : pending_entry es ns msg e -> boundary e -> steps (PWindow e (next_from ns) (Z.of_nat (length ns))).
Proof.
  destruct F as [Sh So Br T W Rm Ft]. intros Pe Bd. pose proof (windows_next _ _ _ W) as [Wn _].
  destruct (sp_since c (next_from ns) (store l) Sh So ltac:(lia)) as (o & s & w & E & Ew & R & So' & N).
  destruct (sh_since c (next_from ns) (store l) Sh) as [Sh' L]. rewrite E in Sh', L. cbn [snd] in Sh', L.
  pose proof (quiet_store l s Sh' So' Br L N) as Q.
  unfold steps. cbn [advance]. rewrite (call_on_store _ _ _ _ _ _ E). destruct R as [->|(err & -> & Nf)];
    do 4 eexists; (split; [reflexivity|]); (apply quiet_step; [done|cbn; lia|done|]); [|by apply failed_ok].
  apply inside_ok; [done..|]. pose proof Pe as [La Em Fr]. split; [done|]. split; [|done].
  rewrite last_lookup in La. pose proof (lookup_lt_Some _ _ _ La).
  pose proof (chain_sequence es _ e T ltac:(lia) La) as Qe. split; try done; cbn [ToSequence MerkleRoot LastEntryHash].
  - lia.
  - unfold covered_by. cbn [ToSequence FromSequence]. rewrite Ew, take_ge; [done|]. rewrite length_drop. lia.
  - intros f Ef. rewrite Qe, Nat2Z.id, La in Ef. congruence.
Qed.

Lemma step_save e n : pending_entry es ns msg e -> seals c es ns n -> steps (PSave e n).
Proof.
  destruct F as [Sh So Br T W Rm Ft]. intros Pe Se. pose proof (windows_next _ _ _ W) as [Wn _].
  pose proof Se as [Ch Ix Fr [O1 O2] _ _ _].
  destruct (sp_save n (store l) So) as (o & s & n' & E & So' & Re & G); rewrite ?Ch.
  { split; [exact Ix|unfold is_u64; lia..]. } { change (sp_snaps (store l) c) with ns. lia. }
  destruct (sh_save n (store l) Sh) as [Sh' L]. rewrite E in Sh', L. cbn [snd] in Sh', L. rewrite Ch in G.
  assert (last es = Some e /\ Message e = msg) as K by by destruct Pe.
  unfold steps. cbn [advance]. rewrite (call_on_store _ _ _ _ _ _ E).
  assert (forall p', (forall f, entry_of p' = Some f -> f = e) -> (rank p' < 4)%nat ->
    (forall d, sp_snaps s d = if decide (d = c) then sp_snaps (store l) d ++ [n'] else sp_snaps (store l) d) ->
    call_ok_at msg p' es (ns ++ [n']) -> fault_step msg (PSave e n) l p' (set_store s l) [] [n']) as Go.
  { intros p' En Rk N Cp. split; try done.
    - intros d. rewrite app_nil_r. etrans; [apply L|]. by case_decide; subst.
    - intros d. etrans; [apply N|]. by case_decide; subst.
    - left. split; [done|]. intros f Ef. by rewrite (En f Ef).
    - right. by exists e, n, n'.
    - unfold entries_of, sealed_of in *. cbn [store set_store]. by rewrite L, N, decide_True. }
  destruct G as [[[->|(err & -> & _)] N]|[(err & -> & _) N]].
  - do 4 eexists. split; [reflexivity|]. apply Go; [by intros f [= <-]|cbn; lia|done|by apply inside_ok].
  - do 4 eexists. split; [reflexivity|]. apply Go; [done|cbn; lia|done|by apply failed_ok].
  - do 4 eexists. split; [reflexivity|]. apply quiet_step; [by apply quiet_store|cbn; lia|done|by apply failed_ok].
Qed.

Lemma step_tail p : match p with PRoot _ _ | PAnnounce _ | PUnlock _ => True | _ => False end ->
  fault_phase msg p es ns -> steps p.
Proof.
  destruct F as [Sh So Br T W Rm Ft]. intros Tl K. destruct p as [| | |e|e|e|e from index|e n|e r|e|o|o]; try done; unfold steps.
  - cbn [advance]. unfold call. rewrite cache_set. do 4 eexists. split; [reflexivity|].
    apply quiet_step; [by split|cbn; lia|done|by apply inside_ok].
  - destruct (call_publish (snapshot_event c e) (PUnlock (Ok e)) l Br) as (b & E & Br').
    cbn [advance]. rewrite E. do 4 eexists. split; [reflexivity|].
    apply quiet_step; [by split|cbn; lia|done|by apply inside_ok].
  - do 4 eexists. split; [reflexivity|]. apply quiet_step; [by split|cbn; lia|by destruct o|].
    split; [done|by destruct o|by right; right].
Qed.
End Phases.

Lemma step_inside now msg p l : chat_fine msg l -> acceptable msg = true -> holding p = true ->
  fault_phase msg p (entries_of l (ChatID msg)) (sealed_of l (ChatID msg)) -> steps now msg l p.
Proof.
  intros F A Hp K. destruct p as [| | |e|e|e|e from index|e n|e r|e|o|o]; try done; cbn [fault_phase] in K.
  - by apply step_tip.
  - subst e. by apply step_store.
  - by apply step_publish.
  - destruct K. by apply step_latest.
  - destruct K as (Pe & Bd & -> & ->). by apply step_window.
  - destruct K as (Pe & Se & _). by apply step_save.
  - by apply step_tail.
  - by apply step_tail.
  - by apply step_tail.
Qed.

(** And outside. *)
Lemma step_outside now msg p l p' l' : chat_fine msg l -> holding p = false -> (p = PWait -> acceptable msg = true) ->
  advance now msg p l = Some (p', l') -> fault_step msg p l p' l' [] [].
Proof.
  intros [Sh So Br _ _ _ _] Hp Ac E. destruct p; try done; cbn [advance] in E.
  - destruct (supportedVersion (SchemaVersion msg)) eqn:V; cbn [negb] in E;
      [destruct (VerifyMessage msg) eqn:Sg; cbn [negb] in E|]; injection E as <- <-.
    2,3: apply quiet_step; [by split|cbn; lia|done|split; [done|done|by right; left; eexists]].
    apply quiet_step; [unfold chatLock, modify; cbn [snd]; by case_match; split|cbn; lia|done|].
    split; [done|done|]. right; right. unfold acceptable. by rewrite V, Sg.
  - unfold Lock in E. destruct (locks l !! ChatID msg) as [[]|]; [done|injection E as <- <-..];
      (apply quiet_step; [by split|cbn; lia|done|apply inside_ok; [by apply Ac|done|done]]).
Qed.
End Steps.

(** ** Systems *)

(** Replacing an element, seen through a partial function. *)
Lemma omap_insert {A B} (f : A -> option B) xs i x y : xs !! i = Some x ->
  omap f (<[i := y]> xs) ++ option_list (f x) ≡ₚ omap f xs ++ option_list (f y).
Proof.
  intros E. rewrite <-(take_drop_middle xs i x E) at 2. rewrite insert_take_drop by by eapply lookup_lt_Some.
  rewrite !omap_app. cbn [omap list_omap]. destruct (f x), (f y); cbn; solve_Permutation.
Qed.

Section Runs.
Context {S C B : Type} `{SP : SnapshotLaws S} `{CL : CacheLaws C} `{BL : BrokerLaws B}.
Context `{HashFunction} `{Ed25519}.
Implicit Types l : Log S C B.
Implicit Types s : @system S C B.

(** The message of a call of chat [c] that has come past its insert. *)
Definition tried (c : string) (th : thread) : option SignedMessage :=
  if decide (chat_of th = c /\ acceptable (t_msg th) = true /\ (rank (t_phase th) <= 7)%nat) then Some (t_msg th) else None.

(** The entry a call has is in the log. *)
Definition held l (th : thread) : Prop := forall e, entry_of (t_phase th) = Some e ->
  Message e = t_msg th /\ 0 <= Sequence e /\ entries_of l (chat_of th) !! Z.to_nat (Sequence e) = Some e.

Record runs_ok (l0 : Log S C B) s : Prop := {
  ro_mutex : mutex_ok s;
  ro_shared : sh_ok (store (shared s));
  ro_sound : sp_ok (store (shared s));
  ro_broker : broker_inv (broker (shared s));
  ro_chain c : chain 0 GenesisHash (entries_of (shared s) c);
  ro_chat c : Forall (fun e => ChatID (Message e) = c) (entries_of (shared s) c);
  ro_windows c : windows c (entries_of (shared s) c) (sealed_of (shared s) c);
  ro_call i th : threads s !! i = Some th -> (acceptable (t_msg th) = true -> sh_fits (t_msg th)) /\ held (shared s) th /\
    call_ok_at (t_msg th) (t_phase th) (entries_of (shared s) (chat_of th)) (sealed_of (shared s) (chat_of th));
  ro_distinct i j t1 t2 e1 e2 : threads s !! i = Some t1 -> threads s !! j = Some t2 -> i <> j ->
    chat_of t1 = chat_of t2 -> entry_of (t_phase t1) = Some e1 -> entry_of (t_phase t2) = Some e2 ->
    Sequence e1 <> Sequence e2;
  ro_added c : exists added, entries_of (shared s) c = entries_of l0 c ++ added /\
    map Message added ⊆+ omap (tried c) (threads s);
  ro_room c : Z.of_nat (length (entries_of (shared s) c)) + Z.of_nat (pending (threads s)) + 1 < 2 ^ 63;
}.

Lemma ro_fine l0 s i th : runs_ok l0 s -> threads s !! i = Some th -> chat_fine (t_msg th) (shared s).
Proof.
  intros K E. split; [apply K..| |by eapply ro_call].
  pose proof (ro_room _ _ K (ChatID (t_msg th))). lia.
Qed.

Lemma accepted_inside msg p es ns : call_ok_at msg p es ns -> holding p = true -> acceptable msg = true.
Proof. intros [_ _ [->|[[err ->]|Ac]]] Hp; done. Qed.

(** Any step of the system is a step as above. *)
Lemma runs_step l0 s i th p l' : runs_ok l0 s -> threads s !! i = Some th ->
  advance (t_now th) (t_msg th) (t_phase th) (shared s) = Some (p, l') ->
  exists added more, fault_step (t_msg th) (t_phase th) (shared s) p l' added more /\
    (holding (t_phase th) = false -> added = [] /\ more = []).
Proof.
  intros K E A. pose proof (ro_fine _ _ _ _ K E) as F. destruct (ro_call _ _ K i th E) as (_ & _ & Cp).
  destruct (holding (t_phase th)) eqn:Hp.
  - destruct (step_inside (t_now th) (t_msg th) (t_phase th) (shared s) F) as (p2 & l2 & added & more & A2 & St);
      [by eapply accepted_inside|done|by apply Cp|]. rewrite A in A2. injection A2 as <- <-. by exists added, more.
  - exists [], []. split; [|done]. eapply step_outside; [done..| |done]. intros Ph. rewrite Ph in *.
    by destruct (cp_accepted _ _ _ _ Cp) as [|[[]|]].
Qed.

Lemma call_idle msg p es ns es' ns' : holding p = false -> call_ok_at msg p es ns -> call_ok_at msg p es' ns'.
Proof. intros Hp [_ O A]. split; [by rewrite Hp|done..]. Qed.

Section Step.
Context (l0 : Log S C B) s (K : runs_ok l0 s) (i : nat) (th : thread) (E : threads s !! i = Some th).
Context (p : phase) (l' : Log S C B) (added : list LogEntry) (more : list MerkleSnapshot).
Context (St : fault_step (t_msg th) (t_phase th) (shared s) p l' added more).
Context (Quiet : holding (t_phase th) = false -> added = [] /\ more = []).
Context (Mu : mutex_ok (moved s i th p l')).

Lemma added_entry e : added = [e] -> t_phase th = PStore e /\ e = new_entry (entries_of (shared s) (chat_of th)) (t_msg th) /\
  acceptable (t_msg th) = true.
Proof.
  intros ->. destruct (fs_grows _ _ _ _ _ _ _ St) as [[? _]|(f & Ph & Ef & _)]; [done|]. injection Ef as <-.
  destruct (ro_call _ _ K i th E) as (_ & _ & Cp). split; [done|]. rewrite Ph in Cp. split; [by apply Cp|].
  by apply accepted_inside in Cp.
Qed.

Lemma added_cases : added = [] \/ exists e, added = [e] /\ forall f, entry_of p = Some f -> f = e.
Proof. destruct (fs_grows _ _ _ _ _ _ _ St) as [[-> _]|(e & _ & -> & Ef)]; [by left|right; by exists e]. Qed.

Lemma moved_log d : entries_of l' d = entries_of (shared s) d ++ if decide (d = chat_of th) then added else [].
Proof.
  rewrite (fs_log _ _ _ _ _ _ _ St d). change (ChatID (t_msg th)) with (chat_of th).
  case_decide; [by subst|by rewrite app_nil_r].
Qed.

Lemma moved_snaps d : sealed_of l' d = sealed_of (shared s) d ++ if decide (d = chat_of th) then more else [].
Proof.
  rewrite (fs_snaps _ _ _ _ _ _ _ St d). change (ChatID (t_msg th)) with (chat_of th).
  case_decide; [by subst|by rewrite app_nil_r].
Qed.

Lemma moved_chain c : chain 0 GenesisHash (entries_of l' c) /\ Forall (fun e => ChatID (Message e) = c) (entries_of l' c).
Proof.
  pose proof (ro_chain _ _ K c) as T. pose proof (ro_chat _ _ K c) as Ch. rewrite moved_log.
  case_decide as Dc; [|by rewrite app_nil_r]. destruct added_cases as [Ea|(e & Ea & _)]; rewrite Ea; [by rewrite app_nil_r|].
  destruct (added_entry e Ea) as (_ & -> & [V Sg]%andb_true_iff). subst c. split.
  - apply chain_snoc. split; [done|]. apply new_entry_ok; [done..|]. pose proof (ro_room _ _ K (chat_of th)). lia.
  - apply Forall_app. split; [done|]. by constructor.
Qed.

Lemma moved_windows c : windows c (entries_of l' c) (sealed_of l' c).
Proof.
  pose proof (ro_windows _ _ K c) as W. rewrite moved_log, moved_snaps. case_decide as Dc; [|by rewrite !app_nil_r].
  destruct (fs_seals _ _ _ _ _ _ _ St) as [Em|(e & n & n' & Ph & Re & Em)]; rewrite Em.
  - rewrite app_nil_r. by apply windows_app.
  - assert (added = []) as Ea by (destruct (fs_grows _ _ _ _ _ _ _ St) as [[? _]|(f & Ph' & _)]; [done|congruence]).
    rewrite Ea, app_nil_r. apply windows_snoc; [done|]. apply (seals_recorded _ _ _ _ _ Re).
    destruct (ro_call _ _ K i th E) as (_ & _ & Cp). rewrite Ph in Cp. subst c. by apply Cp.
Qed.

Lemma held_grows th' : held (shared s) th' -> held l' th'.
Proof.
  intros Hh e Ee. destruct (Hh e Ee) as (M & P & L). split_and!; [done..|]. rewrite moved_log. by apply lookup_app_l_Some.
Qed.

Lemma moved_held : held l' (at_phase p th).
Proof.
  intros e Ee. cbn [at_phase t_phase t_msg] in *. change (chat_of (at_phase p th)) with (chat_of th).
  destruct (ro_call _ _ K i th E) as (_ & Hh & _).
  destruct (fs_grows _ _ _ _ _ _ _ St) as [[_ Old]|(f & _ & Ea & Ef)]; [by apply held_grows, Old|].
  rewrite (Ef e Ee) in *. destruct (added_entry f Ea) as (_ & -> & _). split_and!; [done|cbn; lia|].
  rewrite moved_log, decide_True, Ea by done. cbn [Sequence new_entry]. rewrite Nat2Z.id. by apply list_lookup_middle.
Qed.

Lemma moved_call (j : nat) (tj : thread) : threads (moved s i th p l') !! j = Some tj ->
  (acceptable (t_msg tj) = true -> sh_fits (t_msg tj)) /\ held l' tj /\
  call_ok_at (t_msg tj) (t_phase tj) (entries_of l' (chat_of tj)) (sealed_of l' (chat_of tj)).
Proof.
  intros [[-> ->]|[N L]]%(moved_lookup _ _ _ _ _ _ _ E).
  - split; [exact (proj1 (ro_call _ _ K i th E))|]. split; [apply moved_held|apply St].
  - destruct (ro_call _ _ K j tj L) as (Ft & Hh & Cp). split; [done|]. split; [by apply held_grows|].
    destruct (holding (t_phase tj)) eqn:Hj; [|by eapply call_idle]. rewrite moved_log, moved_snaps.
    case_decide as Dc; [|by rewrite !app_nil_r]. destruct (holding (t_phase th)) eqn:Hp.
    + destruct N. apply (mu_alone _ (ro_mutex _ _ K) (chat_of th)); [by exists tj|by exists th].
    + destruct Quiet as [Ea Em]; [done|]. by rewrite Ea, Em, !app_nil_r.
Qed.

Lemma moved_apart (j : nat) (tj : thread) e1 e2 : j <> i -> threads s !! j = Some tj -> chat_of th = chat_of tj ->
  entry_of p = Some e1 -> entry_of (t_phase tj) = Some e2 -> Sequence e1 <> Sequence e2.
Proof.
  intros N Ej Ch E1 E2. destruct (fs_grows _ _ _ _ _ _ _ St) as [[_ Old]|(f & _ & Ea & Ef)].
  - apply (ro_distinct _ _ K i j th tj e1 e2); auto.
  - rewrite (Ef e1 E1). destruct (added_entry f Ea) as (_ & -> & _). cbn [Sequence new_entry].
    destruct (ro_call _ _ K j tj Ej) as (_ & Hh & _). destruct (Hh e2 E2) as (_ & P & L%lookup_lt_Some).
    rewrite <-Ch in L. lia.
Qed.

Lemma moved_added c : exists a, entries_of l' c = entries_of l0 c ++ a /\
  map Message a ⊆+ omap (tried c) (<[i := at_phase p th]> (threads s)).
Proof.
  destruct (ro_added _ _ K c) as (a & La & Sa). rewrite moved_log, La, <-(assoc_L (++)). eexists. split; [reflexivity|].
  pose proof (omap_insert (tried c) (threads s) i th (at_phase p th) E) as Pm.
  pose proof (fs_rank _ _ _ _ _ _ _ St) as Rk.
  assert (option_list (tried c th) ⊆+ option_list (tried c (at_phase p th))) as Mono.
  { unfold tried. cbn [at_phase t_phase t_msg]. change (chat_of (at_phase p th)) with (chat_of th). case_decide as D1; [|apply submseteq_nil_l].
    by rewrite decide_True by (destruct D1 as (? & ? & ?); split_and!; [done..|lia]). }
  assert (added <> [] -> chat_of th = c -> option_list (tried c th) = [] /\ tried c (at_phase p th) = Some (t_msg th) /\ map Message added = [t_msg th]) as New.
  { intros Na Ct. destruct added_cases as [|(e & Ea & _)]; [done|]. destruct (added_entry e Ea) as (Ph & -> & Ac).
    rewrite Ea. unfold tried. cbn [at_phase t_phase t_msg]. rewrite Ph in *. cbn in Rk.
    rewrite decide_False by (intros (_ & _ & R); cbn in R; lia). by rewrite decide_True by (split_and!; [done..|lia]). }
  rewrite map_app. case_decide as Dc; [|rewrite app_nil_r].
  - destruct (decide (added = [])) as [Ea|Na].
    + rewrite Ea, app_nil_r. eapply (submseteq_app_inv_r _ _ (option_list (tried c th))). rewrite Pm. by apply submseteq_app.
    + destruct (New Na ltac:(done)) as (E1 & E2 & ->). rewrite E1, E2, app_nil_r in Pm. rewrite Pm.
      by apply submseteq_app.
  - eapply (submseteq_app_inv_r _ _ (option_list (tried c th))). rewrite Pm. by apply submseteq_app.
Qed.

Lemma moved_room c : Z.of_nat (length (entries_of l' c)) + Z.of_nat (pending (<[i := at_phase p th]> (threads s))) + 1 < 2 ^ 63.
Proof.
  pose proof (ro_room _ _ K c) as R. pose proof (pending_insert (threads s) i th p E) as Pd.
  pose proof (fs_rank _ _ _ _ _ _ _ St) as Rk. rewrite moved_log, length_app.
  assert (length (if decide (c = chat_of th) then added else []) <= 1)%nat; [|lia].
  case_decide; [|cbn; lia]. destruct added_cases as [Ea|(e & Ea & _)]; rewrite Ea; cbn; lia.
Qed.

Lemma moved_runs : runs_ok l0 (moved s i th p l').
Proof.
  split; cbn [shared]; try (by apply St || by intros c; apply moved_chain || by apply moved_windows || by apply moved_call
    || by apply moved_added || by apply moved_room); [done|].
  intros j k t1 t2 e1 e2 L1 L2 N Ch E1 E2.
  apply (moved_lookup _ _ _ _ _ _ _ E) in L1 as [[-> ->]|[N1 L1]];
    apply (moved_lookup _ _ _ _ _ _ _ E) in L2 as [[-> ->]|[N2 L2]]; [done| | |].
  - by apply (moved_apart k t2).
  - apply not_eq_sym. by apply (moved_apart j t1).
  - by apply (ro_distinct _ _ K j k t1 t2).
Qed.
End Step.

Lemma faulty_step l0 s s' : runs_ok l0 s -> sys_step s s' -> runs_ok l0 s' /\ (pending (threads s') < pending (threads s))%nat.
Proof.
  intros K St. pose proof (mutex_step _ _ (ro_mutex _ _ K) St) as Mu. destruct St as [i th p l' E A].
  destruct (runs_step _ _ _ _ _ _ K E A) as (added & more & Fs & Q). split.
  - by apply (moved_runs l0 s K i th E p l' added more).
  - pose proof (pending_insert (threads s) i th p E). pose proof (fs_rank _ _ _ _ _ _ _ Fs). cbn [threads]. lia.
Qed.
End Runs.

Section Theorems.
Context {S C B : Type} `{SP : SnapshotLaws S} `{CL : CacheLaws C} `{BL : BrokerLaws B}.
Context `{HashFunction} `{Ed25519}.
Implicit Types l : Log S C B.
Implicit Types s : @system S C B.

(** *** From the start to the end *)

(** A log between calls. *)
Record sound_log l : Prop := {
  sl_shared : sh_ok (store l);
  sl_sound : sp_ok (store l);
  sl_broker : broker_inv (broker l);
  sl_chain c : chain 0 GenesisHash (entries_of l c);
  sl_chat c : Forall (fun e => ChatID (Message e) = c) (entries_of l c);
  sl_windows c : windows c (entries_of l c) (sealed_of l c);
  sl_free c : locks l !! c <> Some true;
}.

(** Calls whose messages the store keeps, if they are accepted, and room for them. *)
Record callable l (ms : list (Time * SignedMessage)) : Prop := {
  cb_fits : Forall (fun tm => acceptable tm.2 = true -> sh_fits tm.2) ms;
  cb_room c : Z.of_nat (length (entries_of l c)) + 11 * Z.of_nat (length ms) + 1 < 2 ^ 63;
}.

Lemma runs_start l ms : sound_log l -> callable l ms -> runs_ok l (calls l ms).
Proof.
  intros [Sh So Br T Ch W Fr] [Ft Rm].
  assert (forall i th, threads (calls l ms) !! i = Some th -> t_phase th = PStart) as Ph by apply calls_lookup.
  split; try done.
  - by apply mutex_start.
  - intros i th E. pose proof (Ph i th E) as P. split; [|split; [intros e; by rewrite P|rewrite P; split; [done|done|by left]]].
    apply list_elem_of_lookup_2, list_elem_of_In, List.in_map_iff in E as (tm & <- & I).
    rewrite Forall_forall in Ft. by apply (Ft tm), list_elem_of_In.
  - intros i j t1 t2 e1 e2 E1 _ _ _ En. by rewrite (Ph _ _ E1) in En.
  - intros c. exists []. rewrite app_nil_r. split; [done|apply submseteq_nil_l].
  - intros c. rewrite calls_pending. pose proof (Rm c). cbn [shared calls]. lia.
Qed.

Lemma runs_keep l0 n s s' : runs_ok l0 s -> nsteps sys_step n s s' ->
  runs_ok l0 s' /\ (pending (threads s') + n <= pending (threads s))%nat.
Proof.
  intros K R. induction R as [s|n s s1 s2 St _ IH]; [split; [done|lia]|].
  destruct (faulty_step _ _ _ K St) as [K1 P1]. destruct (IH K1) as [K2 P2]. split; [done|lia].
Qed.

Lemma runs_reach l0 s s' : runs_ok l0 s -> rtc sys_step s s' -> runs_ok l0 s'.
Proof. intros K [n R]%rtc_nsteps. by eapply runs_keep. Qed.

Lemma faulty_runnable l0 s i th : runs_ok l0 s -> threads s !! i = Some th -> returned th = false -> exists s', sys_step s s'.
Proof.
  intros K E Nr.
  assert (forall j tj, threads s !! j = Some tj -> holding (t_phase tj) = true -> exists s', sys_step s s') as Crit.
  { intros j tj Ej Hj. destruct (ro_call _ _ K j tj Ej) as (_ & _ & Cp).
    destruct (step_inside (t_now tj) (t_msg tj) (t_phase tj) (shared s) (ro_fine _ _ _ _ K Ej)) as (p & l' & ? & ? & A & _);
      [by eapply accepted_inside|done|by apply Cp|]. eexists. by econstructor. }
  destruct (holding (t_phase th)) eqn:Hp; [by eapply Crit|].
  destruct (t_phase th) eqn:Ep; try done; [| |by unfold returned in Nr; rewrite Ep in Nr].
  - assert (exists q, advance (t_now th) (t_msg th) (t_phase th) (shared s) = Some q) as [[p l] A]
      by (rewrite Ep; cbn [advance]; repeat case_match; by eexists).
    eexists. by econstructor.
  - destruct (decide (locks (shared s) !! chat_of th = Some true)) as [[j (tj & Ej & _ & Hj)]%(mu_held _ (ro_mutex _ _ K))|Fr];
      [by eapply Crit|].
    assert (exists q, advance (t_now th) (t_msg th) (t_phase th) (shared s) = Some q) as [[p l] A].
    { rewrite Ep. cbn [advance]. unfold Lock. change (ChatID (t_msg th)) with (chat_of th).
      destruct (locks (shared s) !! chat_of th) as [[]|]; [done|by eexists..]. }
    eexists. by econstructor.
Qed.

Lemma all_returned_elem s i th : all_returned s = true -> threads s !! i = Some th -> returned th = true.
Proof.
  unfold all_returned. rewrite List.forallb_forall. intros A E.
  by apply A, list_elem_of_In, (list_elem_of_lookup_2 _ i).
Qed.

Lemma faulty_stuck l0 s : runs_ok l0 s -> (forall s', ~ sys_step s s') <-> all_returned s = true.
Proof.
  intros K. split.
  - intros N. apply List.forallb_forall. intros th E%list_elem_of_In%list_elem_of_lookup_1. destruct E as [i E].
    destruct (returned th) eqn:R; [done|]. destruct (faulty_runnable _ s i th K E R) as [s' St]. by destruct (N s').
  - intros A s' [i th p l' E Ad]. pose proof (all_returned_elem _ _ _ A E) as R. unfold returned in R. by destruct (t_phase th).
Qed.

Lemma faulty_finishes l0 s : runs_ok l0 s -> exists s', rtc sys_step s s' /\ all_returned s' = true.
Proof.
  remember (pending (threads s)) as n eqn:P. revert s P. induction (lt_wf n) as [n _ IH]. intros s -> K.
  destruct (all_returned s) eqn:R; [by exists s|].
  destruct (List.forallb returned (threads s)) eqn:Fb; [unfold all_returned in R; congruence|].
  assert (exists i th, threads s !! i = Some th /\ returned th = false) as (i & th & E & Nr).
  { clear -Fb. induction (threads s) as [|th ths IH]; [done|]. cbn in Fb. destruct (returned th) eqn:R.
    - destruct (IH Fb) as (i & t & E & Nr). by exists (Datatypes.S i), t.
    - by exists 0%nat, th. }
  destruct (faulty_runnable _ _ _ _ K E Nr) as [s1 St]. destruct (faulty_step _ _ _ K St) as [K1 P1].
  destruct (IH _ P1 s1 eq_refl K1) as (s2 & R2 & F). exists s2. split; [by eapply rtc_l|done].
Qed.

(** A log is sound again when no call is in a critical section. *)
Lemma idle_sound l0 s : runs_ok l0 s -> (forall i th, threads s !! i = Some th -> holding (t_phase th) = false) ->
  sound_log (shared s).
Proof.
  intros K A. split; try by apply K.
  intros c [i (th & E & _ & Hp)]%(mu_held _ (ro_mutex _ _ K)). pose proof (A _ _ E). congruence.
Qed.

Lemma returned_sound l0 s : runs_ok l0 s -> all_returned s = true -> sound_log (shared s).
Proof.
  intros K A. apply (idle_sound l0 s K). intros i th E. pose proof (all_returned_elem _ _ _ A E) as R.
  unfold returned in R. by destruct (t_phase th).
Qed.

(** The messages that came past their insert are some of those to be appended. *)
Lemma tried_messages c ths : omap (tried c) ths ⊆+ filter (fun m => acceptable m = true /\ ChatID m = c) (map t_msg ths).
Proof.
  apply sublist_submseteq. induction ths as [|th ths IH]; [done|]. cbn [map omap list_omap]. rewrite filter_cons.
  unfold tried at 1. case_decide as D.
  - destruct D as (Ec & Ac & _). rewrite decide_True by done. by constructor.
  - case_decide; [by constructor|done].
Qed.

Lemma tried_spec c l ms s : rtc sys_step (calls l ms) s -> omap (tried c) (threads s) ⊆+ spec ms c.
Proof.
  intros R. assert (spec ms c = filter (fun m => acceptable m = true /\ ChatID m = c) (map t_msg (threads s))) as ->;
    [|apply tried_messages].
  rewrite (reach_messages _ _ R). cbn [threads calls]. by rewrite map_map.
Qed.

(** C13: appends to a store that fails.  Let any calls of [Append] interleave on
    a node whose store may fail at every call, with or without effect (a
    timeout of an insert that happened, for one).  At every moment each chat is
    a hash chain that goes on where it was, by messages of the calls, each once
    at most; its snapshots seal consecutive windows with the roots of their
    entries; one call at a time is in a chat's critical section; a call that
    returned an entry finds it in the chain, at a place no other call has; and
    one that returned none returned an error. *)
Theorem faulty_appends l ms s : sound_log l -> callable l ms -> rtc sys_step (calls l ms) s ->
  (forall c, chain 0 GenesisHash (entries_of (shared s) c) /\ windows c (entries_of (shared s) c) (sealed_of (shared s) c) /\
    exists added, entries_of (shared s) c = entries_of l c ++ added /\ map Message added ⊆+ spec ms c) /\
  (forall c i j, in_section s c i -> in_section s c j -> i = j) /\
  (forall i th o, threads s !! i = Some th -> t_phase th = PDone o ->
    (exists err, o = Err err) \/ exists e, o = Ok e /\ Message e = t_msg th /\
      entries_of (shared s) (chat_of th) !! Z.to_nat (Sequence e) = Some e) /\
  (forall i j t1 t2 e1 e2, threads s !! i = Some t1 -> threads s !! j = Some t2 -> i <> j -> chat_of t1 = chat_of t2 ->
    t_phase t1 = PDone (Ok e1) -> t_phase t2 = PDone (Ok e2) -> Sequence e1 <> Sequence e2).
Proof.
  intros K Cb R. pose proof (runs_reach _ _ _ (runs_start l ms K Cb) R) as I. split_and!.
  - intros c. split; [apply I|]. split; [apply I|]. destruct (ro_added _ _ I c) as (a & La & Sa). exists a.
    split; [done|]. etrans; [exact Sa|by eapply tried_spec].
  - apply I.
  - intros i th o E P. destruct (ro_call _ _ I i th E) as (_ & Hh & Cp).
    pose proof (cp_outside _ _ _ _ Cp) as O. rewrite P in O. destruct o as [e|err|?|]; [right|by left; exists err|by destruct O..].
    destruct (Hh e) as (M & _ & L); [by rewrite P|]. by exists e.
  - intros i j t1 t2 e1 e2 E1 E2 N Ch P1 P2. apply (ro_distinct _ _ I i j t1 t2); by rewrite ?P1, ?P2.
Qed.

(** No failure of the store keeps a call from returning or a mutex from
    being freed.  The calls take at most 11 steps each in any schedule, one of
    them can always go on until all have returned, and then the log is as sound
    as before: no mutex is held, and the next calls can start from it. *)
Theorem faulty_appends_return l ms n s : sound_log l -> callable l ms -> nsteps sys_step n (calls l ms) s ->
  (n <= 11 * length ms)%nat /\
  ((forall s', ~ sys_step s s') <-> all_returned s = true) /\
  (exists s', rtc sys_step s s' /\ all_returned s' = true) /\
  (all_returned s = true -> sound_log (shared s)).
Proof.
  intros K Cb R. destruct (runs_keep _ _ _ _ (runs_start l ms K Cb) R) as [I P]. rewrite calls_pending in P.
  split_and!; [lia|by eapply faulty_stuck|by eapply faulty_finishes|by eapply returned_sound].
Qed.
End Theorems.

(** ** Two calls; the answer to the first insert is lost *)

Module FaultSample.
Import LogSample.

Definition node : Log (Flaky InMemoryStorage) InMemoryCache InMemoryBroker :=
  MkLog (MkFlaky (store start) [Fine; Late]) (cache start) (broker start) (locks start).
Definition both := calls node (script "c" 2).
Definition final := schedule (concat (replicate 11 [0; 1]%nat)) both.

Definition results (ths : list thread) : list (option (Z + error)) :=
  map (fun th => match t_phase th with PDone (Ok e) => Some (inl (Sequence e)) | PDone (Err x) => Some (inr x) | _ => None end) ths.

Lemma node_sound : sound_log node.
Proof. split; [done|done|apply broker_ok_new|constructor|constructor|by intros c k n|done]. Qed.

Lemma both_callable : callable node (script "c" 2).
Proof. split; [by repeat constructor|]. intros c. change (entries_of node c) with (@nil LogEntry). done. Qed.

(** The first call is told of a timeout although its entry is stored; the
    second comes after it. *)
Lemma lost_answer_results : results (threads final) = [Some (inr (Wrapf "append" no_response)); Some (inl 1)] /\
  all_returned final = true /\ length (entries_of (shared final) "c") = 2%nat.
Proof. vm_compute. by split_and!. Qed.
End FaultSample.

Section Witnesses.
Import LogSample FaultSample.

Lemma faulty_appends_witness :
  results (threads final) = [Some (inr (Wrapf "append" no_response)); Some (inl 1)] /\
  chain 0 GenesisHash (entries_of (shared final) "c").
Proof.
  split; [exact (proj1 lost_answer_results)|].
  destruct (faulty_appends node (script "c" 2) final node_sound both_callable (schedule_reaches _ _)) as [T _].
  exact (proj1 (T "c"%string)).
Defined.

Lemma faulty_appends_return_witness : exists n, nsteps sys_step n both final /\ (n <= 22)%nat /\ sound_log (shared final).
Proof.
  destruct (proj1 (rtc_nsteps _ _) (schedule_reaches (concat (replicate 11 [0; 1]%nat)) both)) as [n R]. exists n. split; [exact R|].
  destruct (faulty_appends_return node (script "c" 2) n final node_sound both_callable R) as (N & _ & _ & F).
  split; [exact N|]. exact (F (proj1 (proj2 lost_answer_results))).
Defined.
End Witnesses.
