(* ===== verification/FaultProofs.v ===== *)
(** * FaultProofs: inclusion proofs over a store that fails

    What [ProveInclusion] answers at any moment of the runs of [FaultRuns].  A
    proof it returns is always right; and when a window was not sealed, no
    message from the next window on is proved, however long the node goes on. *)
From S2P Require Import Prelude Codec JsonText GoTime Sha256 Models Merkle Crypto Storage Cache Broker Chatlog LogFacts LogReads LogContract Scylla ScyllaLog Faults Concurrency FaultRuns.

Section Proofs.
Context {S C B : Type} `{SP : SnapshotLaws S} `{CL : CacheLaws C} `{BL : BrokerLaws B}.
Context `{HashFunction} `{Ed25519}.
Implicit Types l : Log S C B.
Implicit Types s : @system S C B.

(** ** Windows and sequences *)

Lemma windows_take c es ns k : windows c es ns -> windows c es (take k ns).
Proof.
  intros W j n E. apply lookup_take_Some in E as [E L]. specialize (W j n E).
  by rewrite take_take, Nat.min_l by lia.
Qed.

Lemma window_bounds c es ns k n : windows c es ns -> ns !! k = Some n ->
  0 <= FromSequence n <= ToSequence n /\ ToSequence n < Z.of_nat (length es) /\
  100 * (Z.of_nat k + 1) <= ToSequence n + 1 /\ 100 * Z.of_nat k <= FromSequence n.
Proof.
  intros W E. pose proof (W k n E) as [_ _ Fr [O1 O2] _ _ _].
  destruct (windows_next _ _ _ (windows_take c es ns k W)) as [Lo _].
  destruct (windows_next _ _ _ (windows_take c es ns (Datatypes.S k) W)) as [Hi _].
  pose proof (lookup_lt_Some _ _ _ E). rewrite (take_S_r _ _ _ E), next_from_snoc, length_app in Hi.
  rewrite length_take in Lo, Hi. cbn [length] in Hi. lia.
Qed.

Lemma Root_node ls : Forall node_hash ls -> ls <> [] -> node_hash (Root ls).
Proof.
  intros F N. revert ls N F. refine (layer_ind _ _ _).
  - intros x F. rewrite Root_one. by inversion F.
  - intros ls L IH _. rewrite Root_next by done. apply IH, hash_pairs_nodes.
Qed.

(** ** One call *)

(** What [ProveInclusion] answers when the store does. *)
Definition proved (c : string) (q : Z) (es : list LogEntry) (ns : list MerkleSnapshot) (o : outcome InclusionProof) : Prop :=
  match ns !! Z.to_nat (q / 100) with
  | None => o = Err ErrNotSnapshotted
  | Some n =>
      if decide (FromSequence n <= q)
      then exists e p, es !! Z.to_nat q = Some e /\
        o = Ok {| ip_ChatID := c; ip_Sequence := q; ip_EntryHash := EntryHash e; ip_SnapshotIndex := q / 100;
                  ip_MerkleRoot := MerkleRoot n; ip_Proof := p |} /\
        VerifyProof (EntryHash e) p (MerkleRoot n) = true
      else o = Err (New "recomputed root does not match snapshot")
  end.

(** From the window on. *)
Lemma prove_window c q es ns n : chain 0 GenesisHash es -> Z.of_nat (length es) < 2 ^ 63 -> windows c es ns ->
  0 <= q < 2 ^ 64 -> ns !! Z.to_nat (q / 100) = Some n ->
  let size := i64 (u64 (ToSequence n - FromSequence n + 1)) in
  let window := drop (Z.to_nat (FromSequence n)) es in
  (Z.of_nat (length window) <? size) = false /\ window_leaves window size = Ok (leaves_of (covered_by n es)) /\
  let '(p, root) := Proof (leaves_of (covered_by n es)) (i64 (u64 (q - FromSequence n))) in
  if decide (FromSequence n <= q)
  then root = MerkleRoot n /\ exists e, es !! Z.to_nat q = Some e /\
    index_string (leaves_of (covered_by n es)) (i64 (u64 (q - FromSequence n))) = Ok (EntryHash e) /\
    VerifyProof (EntryHash e) p (MerkleRoot n) = true
  else root <> MerkleRoot n.
Proof.
  intros T Rm W Q E. destruct (window_bounds _ _ _ _ _ W E) as (B1 & B2 & B3 & B4). pose proof (W _ _ E) as Se.
  rewrite Z2Nat.id in B3, B4 by (apply Z.div_pos; lia).
  assert (q <= ToSequence n) as Qt by div_lia.
  assert (i64 (u64 (ToSequence n - FromSequence n + 1)) = ToSequence n + 1 - FromSequence n) as ->
    by (rewrite u64_id, i64_id by (unfold is_u64; lia); lia).
  assert (length (covered_by n es) = Z.to_nat (ToSequence n + 1 - FromSequence n)) as Lc
    by (unfold covered_by; rewrite length_take, length_drop; lia).
  split; [apply Z.ltb_ge; rewrite length_drop; lia|]. split.
  - unfold window_leaves. rewrite (proj2 (Z.ltb_ge _ _)) by lia. f_equal. unfold leaves_of, covered_by. by rewrite firstn_map.
  - case_decide as D.
    + rewrite u64_id, i64_id by (unfold is_u64; lia).
      destruct (lookup_lt_is_Some_2 es (Z.to_nat q)) as [e Ee]; [lia|].
      assert (leaves_of (covered_by n es) !! Z.to_nat (q - FromSequence n) = Some (EntryHash e)) as Le.
      { unfold leaves_of, covered_by. rewrite list_lookup_fmap, lookup_take_lt, lookup_drop by lia.
        replace (Z.to_nat (FromSequence n) + Z.to_nat (q - FromSequence n))%nat with (Z.to_nat q) by lia. by rewrite Ee. }
      destruct (Proof_spec _ (q - FromSequence n) (EntryHash e) ltac:(lia) Le) as (p & -> & V & _).
      rewrite <-(se_root _ _ _ _ Se) in *. split; [done|]. exists e. split; [done|].
      split; [|by apply bool_decide_eq_true]. unfold index_string. by rewrite (proj2 (Z.ltb_ge _ _)), Le by lia.
    + assert (i64 (u64 (q - FromSequence n)) < 0) as Neg.
      { assert (u64 (q - FromSequence n) = q - FromSequence n + 2 ^ 64) as ->
          by (unfold u64; symmetry; apply Zmod_unique with (-1); lia).
        apply i64_high. lia. }
      unfold Proof. rewrite proof_out_of_range by by left. rewrite (se_root _ _ _ _ Se). intros Ro.
      assert (node_hash (Root (leaves_of (covered_by n es)))) as Nh.
      { apply Root_node.
        - pose proof (chain_nodes _ _ _ T) as N. unfold covered_by, leaves_of in *. rewrite <-firstn_map, <-skipn_map.
          by apply Forall_take, Forall_drop.
        - unfold leaves_of. intros Nil%map_eq_nil. rewrite Nil in Lc. cbn in Lc. lia. }
      by rewrite <-Ro in Nh.
Qed.

(** The whole call. *)
Lemma prove_reads c q l : sh_ok (store l) -> sp_ok (store l) -> chain 0 GenesisHash (entries_of l c) ->
  windows c (entries_of l c) (sealed_of l c) -> Z.of_nat (length (entries_of l c)) < 2 ^ 63 -> 0 <= q < 2 ^ 64 ->
  exists o (s : S), ProveInclusion c q l = (o, set_store s l) /\
    (forall d, sh_log s d = entries_of l d) /\ (forall d, sp_snaps s d = sealed_of l d) /\
    (unclear o \/ proved c q (entries_of l c) (sealed_of l c) o).
Proof.
  intros Sh So T W Rm Q. unfold ProveInclusion. change SnapshotInterval with 100.
  destruct (sp_at c (q / 100) (store l) So) as (o1 & s1 & E1 & R1 & So1 & N1); [split; [apply Z.div_pos; lia|div_lia]|].
  destruct (sh_at c (q / 100) (store l) Sh) as [Sh1 L1]. rewrite E1 in Sh1, L1. cbn [snd] in Sh1, L1.
  pose proof (on_store_run _ _ _ _ E1) as C1. unfold proved. fold (sealed_of l c) in R1.
  destruct R1 as [->|(err & -> & Nf)].
  2:{ exists (Err err), s1. split; [erewrite bind_ok by (apply try_err; exact C1); cbv beta iota; by rewrite Nf|].
      split_and!; [done..|]. left. by eexists. }
  destruct (sealed_of l c !! Z.to_nat (q / 100)) as [n|] eqn:Hn; cbn [found] in C1.
  2:{ exists (Err ErrNotSnapshotted), s1.
      split; [erewrite bind_ok by (apply try_err; exact C1); cbv beta iota; by rewrite errors_is_not_found|].
      split_and!; [done..|]. by right. }
  destruct (window_bounds _ _ _ _ _ W Hn) as (B1 & B2 & _).
  destruct (sp_since c (FromSequence n) s1 Sh1 So1 ltac:(lia)) as (o2 & s2 & w & E2 & Ew & R2 & So2 & N2).
  destruct (sh_since c (FromSequence n) s1 Sh1) as [Sh2 L2]. rewrite E2 in Sh2, L2. cbn [snd] in Sh2, L2.
  pose proof (on_store_run (EntriesSince c (FromSequence n)) (set_store s1 l) _ _ E2) as C2.
  change (set_store s2 (set_store s1 l)) with (set_store s2 l) in C2.
  assert ((forall d, sh_log s2 d = entries_of l d) /\ (forall d, sp_snaps s2 d = sealed_of l d)) as [L N]
    by (split; intros d; [by rewrite L2, L1|by rewrite N2, N1]).
  erewrite bind_ok by (apply try_ok; exact C1). cbv beta iota.
  destruct R2 as [->|(err & -> & Nf)].
  2:{ exists (Err err), s2. erewrite bind_err by exact C2. split_and!; [done..|]. left. by eexists. }
  erewrite bind_ok by exact C2. rewrite Ew, L1. fold (entries_of l c).
  destruct (prove_window c q _ _ n T Rm W Q Hn) as (Sz & Wl & K). rewrite Sz. erewrite bind_ok by by rewrite Wl.
  destruct (Proof _ _) as [p root]. case_decide.
  - destruct K as (-> & e & Ee & Ix & V). rewrite bool_decide_eq_true_2 by done. cbn [negb].
    exists (Ok {| ip_ChatID := c; ip_Sequence := q; ip_EntryHash := EntryHash e; ip_SnapshotIndex := q / 100;
                  ip_MerkleRoot := MerkleRoot n; ip_Proof := p |}), s2.
    split; [by erewrite bind_ok by by rewrite Ix|]. split_and!; [done..|]. right. by exists e, p.
  - rewrite bool_decide_eq_false_2 by done. exists (Err (New "recomputed root does not match snapshot")), s2.
    split_and!; [done..|]. by right.
Qed.

(** ** A window that was not sealed *)

(** The chat had [k] snapshots when it had entries for more; since then its
    snapshots are at least one window late. *)
Record late (c : string) (k : nat) s : Prop := {
  la_entries : 100 * (Z.of_nat k + 1) <= Z.of_nat (length (entries_of (shared s) c));
  la_some : (k <= length (sealed_of (shared s) c))%nat;
  la_each j n : sealed_of (shared s) c !! j = Some n -> (k <= j)%nat -> 100 * (Z.of_nat j + 2) <= ToSequence n + 1;
  la_calls i th e : threads s !! i = Some th -> chat_of th = c -> entry_of (t_phase th) = Some e ->
    100 * (Z.of_nat k + 1) <= Sequence e;
}.

(** The next snapshot, of an entry stored since, is late as well. *)
Lemma late_seal c k es ns n : windows c es ns -> seals c es ns n -> (k <= length ns)%nat ->
  (forall j m, ns !! j = Some m -> (k <= j)%nat -> 100 * (Z.of_nat j + 2) <= ToSequence m + 1) ->
  100 * (Z.of_nat k + 1) <= ToSequence n -> 100 * (Z.of_nat (length ns) + 2) <= ToSequence n + 1.
Proof.
  intros W [_ _ _ [O _] D _ _] L Each T. destruct (decide (length ns = k)) as [->|N]; [div_lia|].
  destruct (lookup_lt_is_Some_2 ns (pred (length ns))) as [m Em]; [lia|].
  pose proof (Each _ _ Em ltac:(lia)). unfold next_from in O. rewrite last_lookup, Em in O. div_lia.
Qed.

Lemma late_step l0 c k s s' : runs_ok l0 s -> late c k s -> sys_step s s' -> late c k s'.
Proof.
  intros K [Le Ls Each Ca] [i th p l' E A].
  destruct (runs_step _ _ _ _ _ _ K E A) as (added & more & St & _).
  pose proof (moved_log _ _ _ _ _ _ St c) as L. pose proof (moved_snaps _ _ _ _ _ _ St c) as N.
  destruct (ro_call _ _ K i th E) as (_ & _ & Cp). split; cbn [shared threads].
  - rewrite L, length_app. lia.
  - rewrite N, length_app. lia.
  - intros j n. rewrite N. intros [Ej|[Lj Ej]]%lookup_app_Some Kj; [by eapply Each|]. case_decide as Dc; [|done].
    destruct (fs_seals _ _ _ _ _ _ _ St) as [->|(e & m & m' & Ph & Re & ->)]; [done|].
    apply list_lookup_singleton_Some in Ej as [Ej <-]. rewrite Ph in Cp.
    destruct (cp_inside _ _ _ _ Cp eq_refl) as (_ & Se & To). change (ChatID (t_msg th)) with (chat_of th) in Se.
    rewrite <-Dc in Se. destruct Re as (_ & _ & _ & Et & _). rewrite Et.
    replace j with (length (sealed_of (shared s) c)) by lia.
    eapply late_seal; [apply (ro_windows _ _ K)|done..|]. rewrite To. eapply Ca; [done..|]. by rewrite Ph.
  - intros j tj e Lj Ct Ee. apply (moved_lookup s i th p l' j tj E) in Lj as [[-> ->]|[Nj Lj]]; [|by eapply Ca].
    cbn [at_phase t_phase] in Ee. change (chat_of (at_phase p th)) with (chat_of th) in Ct.
    destruct (fs_grows _ _ _ _ _ _ _ St) as [[_ Old]|(f & Ph & _ & Ef)]; [by eapply Ca; [| |apply Old]|].
    rewrite (Ef e Ee). rewrite Ph in Cp. rewrite (cp_inside _ _ _ _ Cp eq_refl). cbn [Sequence new_entry].
    change (ChatID (t_msg th)) with (chat_of th). by rewrite Ct.
Qed.

Lemma late_reach l0 c k s s' : runs_ok l0 s -> late c k s -> rtc sys_step s s' -> late c k s'.
Proof.
  intros K La R. induction R as [|s s1 s' St _ IH]; [done|]. apply IH; [by eapply faulty_step|by eapply late_step].
Qed.

(** No proof from the next window on. *)
Lemma late_unproved c k s q o : late c k s -> windows c (entries_of (shared s) c) (sealed_of (shared s) c) ->
  100 * (Z.of_nat k + 1) <= q -> proved c q (entries_of (shared s) c) (sealed_of (shared s) c) o -> exists err, o = Err err.
Proof.
  intros [_ _ Each _] W Q P. unfold proved in P.
  destruct (sealed_of (shared s) c !! Z.to_nat (q / 100)) as [n|] eqn:E; [|by eexists].
  rewrite decide_False in P; [by eexists|]. rewrite (se_from _ _ _ _ (W _ _ E)). unfold next_from.
  pose proof (lookup_lt_Some _ _ _ E) as L.
  assert (Z.of_nat k + 1 <= q / 100) as Qk by div_lia.
  destruct (lookup_lt_is_Some_2 (sealed_of (shared s) c) (pred (Z.to_nat (q / 100)))) as [m Em]; [lia|].
  pose proof (Each _ _ Em ltac:(lia)) as T. rewrite last_lookup, length_take, Nat.min_l by lia.
  rewrite lookup_take_lt, Em by lia. div_lia.
Qed.

(** ** Theorems *)

(** C15: a proof is right whatever the store does.  At any moment of calls of
    [Append] over a store that may fail, [ProveInclusion] changes nothing and,
    unless the store fails it, answers by the snapshot whose index is the
    sequence divided by a hundred: without one, that the message is not covered
    yet; if it begins past the sequence, that the roots differ; and else with
    the hash of the entry at that sequence and a path that [VerifyProof] accepts
    for it and the root of the snapshot. *)
Theorem faulty_proofs l ms s c q : sound_log l -> callable l ms -> rtc sys_step (calls l ms) s -> 0 <= q < 2 ^ 64 ->
  exists o l', ProveInclusion c q (shared s) = (o, l') /\
    (forall d, entries_of l' d = entries_of (shared s) d /\ sealed_of l' d = sealed_of (shared s) d) /\
    (unclear o \/ proved c q (entries_of (shared s) c) (sealed_of (shared s) c) o).
Proof.
  intros K Cb R Q. pose proof (runs_reach _ _ _ (runs_start l ms K Cb) R) as I.
  destruct (prove_reads c q (shared s)) as (o & s' & E & L & N & P); [apply I..| |done|].
  - pose proof (ro_room _ _ I c). lia.
  - exists o, (set_store s' (shared s)). split; [exact E|]. split; [intros d; split; [apply L|apply N]|done].
Qed.

(** C14: one snapshot that is not made is one too many.  When a chat has fewer
    snapshots than full windows, [k] instead of [k + 1] or more, because the
    store failed while one was made, then from there on, whatever is appended
    and however well the store works, the chat stays short of snapshots, and no
    message from sequence [100 * (k + 1)] on is ever given a proof: the windows
    that are sealed later are numbered as if they were earlier ones. *)
Theorem unsealed_for_ever l ms s c q (k := length (sealed_of l c)) : sound_log l -> callable l ms ->
  rtc sys_step (calls l ms) s -> 100 * (Z.of_nat k + 1) <= Z.of_nat (length (entries_of l c)) ->
  100 * (Z.of_nat (length (sealed_of (shared s) c)) + 1) <= Z.of_nat (length (entries_of (shared s) c)) /\
  (100 * (Z.of_nat k + 1) <= q < 2 ^ 64 -> exists err l', ProveInclusion c q (shared s) = (Err err, l')).
Proof.
  intros K Cb R Le. pose proof (runs_start l ms K Cb) as I0. pose proof (runs_reach _ _ _ I0 R) as I.
  assert (late c k s) as La.
  { apply (late_reach l c k (calls l ms)); [done| |done]. split; cbn [shared calls]; [done|done| |].
    - intros j n E%lookup_lt_Some. unfold k. lia.
    - intros i th e E _. by rewrite (calls_lookup _ _ _ _ E). }
  pose proof (ro_windows _ _ I c) as W. split.
  - destruct La as [Len Ls Each _]. destruct (decide (length (sealed_of (shared s) c) = k)) as [->|N]; [done|].
    destruct (lookup_lt_is_Some_2 (sealed_of (shared s) c) (pred (length (sealed_of (shared s) c)))) as [n En]; [lia|].
    pose proof (Each _ _ En ltac:(lia)). destruct (window_bounds _ _ _ _ _ W En) as (_ & To & _). lia.
  - intros Q. destruct (prove_reads c q (shared s)) as (o & s' & E & _ & _ & P); [apply I..| |lia|].
    + pose proof (ro_room _ _ I c). lia.
    + assert (exists err, o = Err err) as [err ->]; [|by eexists err, _].
      destruct P as [(err & -> & _)|P]; [by exists err|]. eapply late_unproved; [done..| |done]. lia.
Qed.
End Proofs.

(** ** A node in memory whose store fails by plan *)

Lemma healthy_windows `{HashFunction} `{Ed25519} c es ns : snaps_ok c es ns -> windows c es ns.
Proof.
  intros [N Each] k n E. pose proof (Each k n E) as [Ch Ix Fr To Ro (x & Lx & La)].
  pose proof (lookup_lt_Some _ _ _ E) as Lk. pose proof (lookup_lt_Some _ _ _ Lx) as Le.
  assert (next_from (take k ns) = Z.of_nat (interval * k)) as Nf.
  { unfold next_from. rewrite last_lookup, length_take, Nat.min_l by lia. destruct k as [|k]; [done|].
    destruct (lookup_lt_is_Some_2 ns k) as [m Em]; [lia|]. cbn [pred]. rewrite lookup_take_lt, Em by lia.
    rewrite (so_to _ _ _ _ (Each k m Em)). unfold interval. lia. }
  split; try done.
  - by rewrite length_take, Nat.min_l by lia.
  - by rewrite Nf.
  - rewrite Nf, To. unfold interval in *. lia.
  - rewrite To. unfold interval. div_lia.
  - rewrite Ro. unfold covered_by, window. rewrite To, Fr, Nat2Z.id. do 3 f_equal. unfold interval. lia.
  - intros e. rewrite To, Nat2Z.id, Lx. intros [= <-]. done.
Qed.

Section Samples.
Context {C B : Type} `{CL : CacheLaws C} `{BL : BrokerLaws B} `{HashFunction} `{Ed25519}.
Implicit Types l : Log InMemoryStorage C B.

(** A node whose store will fail as [plan] says. *)
Definition failing (plan : list fault) l : Log (Flaky InMemoryStorage) C B :=
  MkLog (MkFlaky (store l) plan) (cache l) (broker l) (locks l).

Lemma healthy_sound plan l : log_ok l -> unlocked l -> sound_log (failing plan l).
Proof.
  intros [K Br] U. split; try done.
  - intros c. apply (K c).
  - intros c. apply (K c).
  - intros c. apply healthy_windows, (K c).
Qed.

(** The node once it has stored an entry whose snapshot was lost. *)
Lemma unsealed_sound l msg s1 b plan (c := ChatID msg) (es := log_at l c) (e := new_entry es msg) :
  log_ok l -> unlocked l -> acceptable msg = true -> Z.of_nat (length es) + 1 < 2 ^ 64 -> broker_inv b ->
  (forall d, log_of s1 d = if decide (d = c) then es ++ [e] else log_at l d) ->
  (forall d, snaps_of s1 d = snaps_at l d) ->
  sound_log (MkLog (MkFlaky s1 plan) (cache l) b (<[c := false]> (locks l))).
Proof.
  intros [K _] U [V Sg]%andb_true_iff Rm Br L N.
  assert (forall d, log_of s1 d = log_at l d ++ if decide (d = c) then [e] else []) as L'
    by (intros d; rewrite L; case_decide; [by subst|by rewrite app_nil_r]).
  split; try done; unfold entries_of, sealed_of; cbn [store].
  - intros d. change (chain 0 GenesisHash (log_of s1 d)). rewrite L'. destruct (K d) as [T _ _ _].
    case_decide; [|by rewrite app_nil_r]. subst d. apply chain_snoc. split; [done|]. apply new_entry_ok; [done..|]. fold es. lia.
  - intros d. change (Forall (fun f => ChatID (Message f) = d) (log_of s1 d)). rewrite L'.
    apply Forall_app. split; [apply (K d)|]. case_decide; [subst d|]; by repeat constructor.
  - intros d. change (windows d (log_of s1 d) (snaps_of s1 d)). rewrite L', N. apply windows_app, healthy_windows, (K d).
  - intros d. cbn [locks]. destruct (decide (d = c)) as [->|Nd]; [by rewrite lookup_insert_eq|].
    rewrite lookup_insert_ne by done. apply U.
Qed.

(** How a window goes unsealed: the store loses the snapshot of a hundredth
    message. *)
Lemma snapshot_lost now msg l tip (c := ChatID msg) (es := log_at l c) (e := new_entry es msg) :
  log_ok l -> unlocked l -> acceptable msg = true -> last es = Some tip -> length es = 99%nat ->
  exists l' : Log (Flaky InMemoryStorage) C B,
    Append now msg (failing [Fine; Fine; Fine; Fine; Lost] l) = (Err (Wrapf "snapshot" no_response), l') /\
    sound_log l' /\ entries_of l' c = es ++ [e] /\ sealed_of l' c = [].
Proof.
  intros K U A La Le. pose proof (lo_chats _ K c) as [T Ch Sn _]. pose proof (sn_count _ _ _ Sn) as Nn. fold es in T, Ch, Nn.
  assert (snaps_at l c = []) as N0 by (apply nil_length_inv; rewrite Nn, Le; done).
  assert (next_entry tip msg = e) as En by (unfold e; rewrite (tip_built es msg T), La by lia; done).
  destruct (append_contiguous c e (store l)) as (s1 & E1 & L1 & N1); [done|].
  destruct (publish_returns (entry_event c e) (broker l) (lo_broker _ K)) as (b & Br & Eb).
  assert (exists r, Publish (entry_event c e) (broker l) = (r, b) /\ r <> Block /\ forall w, r <> Panic w) as (r & Er & R1 & R2)
    by (destruct Eb as [E|[x E]]; eexists; split_and!; [exact E|done|done|exact E|done|done]).
  eexists. split; [|split; [|split]].
  - eapply (append_snapshot_error now msg (failing _ l) tip); try done; rewrite ?En.
    + eapply (faulty_fine (LastEntry c)); [done|]. cbn [inner store failing]. rewrite last_entry. unfold es, log_at in La. by rewrite La.
    + eapply (faulty_fine (AppendEntry c e)); [done|exact E1].
    + exact Er.
    + cbn [Sequence e new_entry]. by rewrite Le.
    + eapply (faulty_fine (LatestSnapshot c)); [done|]. cbn [inner]. rewrite latest_snapshot, N1. unfold snaps_at in N0. by rewrite N0.
    + eapply (faulty_fine (EntriesSince c 0)); [done|]. cbn [inner]. by rewrite entries_since.
    + by eapply (faulty_lost (SaveSnapshot _)).
  - apply unsealed_sound; [done..|fold c es; by rewrite Le|done|exact L1|exact N1].
  - unfold entries_of. cbn [store]. change (log_of s1 c = es ++ [e]). by rewrite L1, decide_True.
  - unfold sealed_of. cbn [store]. change (snaps_of s1 c = []). by rewrite N1.
Qed.
End Samples.

Section Witnesses.
Import LogSample.
#[local] Opaque after signed.

Lemma after_callable plan c n ms : Z.of_nat n + 11 * Z.of_nat (length ms) + 1 < 2 ^ 63 ->
  callable (failing plan (after c n)) ms.
Proof.
  intros Rm. split; [apply Forall_true; done|]. intros d. change (entries_of _ d) with (log_at (after c n) d).
  destruct (after_facts c n ltac:(lia)) as (_ & _ & E & _). rewrite log_at_length, E, script_spec.
  case_decide; [rewrite length_map, length_seq|cbn [length]]; lia.
Qed.

(** A healthy log of a hundred messages, and the store goes on to fail. *)
Lemma faulty_proofs_witness : exists o l' n,
  snaps_at (after "c" 100) "c" !! 0%nat = Some n /\
  ProveInclusion "c" 42 (failing [Lost] (after "c" 100)) = (o, l') /\
  (unclear o \/ exists e p, log_at (after "c" 100) "c" !! 42%nat = Some e /\
     VerifyProof (EntryHash e) p (MerkleRoot n) = true).
Proof.
  destruct (faulty_proofs (failing [Lost] (after "c" 100)) [] (calls (failing [Lost] (after "c" 100)) []) "c" 42) as (o & l' & E & _ & P);
    [exact (healthy_sound _ _ (after_ok "c" 100 eq_refl) (after_unlocked "c" 100 eq_refl))|apply after_callable; reflexivity|reflexivity|lia|].
  destruct (lookup_lt_is_Some_2 (snaps_at (after "c" 100) "c") 0) as [n En];
    [rewrite (after_snaps "c" 100 eq_refl); apply Nat.lt_0_1|].
  exists o, l', n. split; [exact En|]. split; [exact E|]. destruct P as [U|P]; [left; exact U|right].
  unfold proved in P. change (Z.to_nat (42 / 100)) with 0%nat in P.
  change (sealed_of _ "c") with (snaps_at (after "c" 100) "c") in P. rewrite En in P.
  pose proof (sn_each _ _ _ (co_snaps _ _ _ (lo_chats _ (after_ok "c" 100 eq_refl) "c"%string)) 0%nat n En) as So.
  rewrite decide_True in P by (rewrite (so_from _ _ _ _ So); discriminate).
  destruct P as (e & p & Ee & _ & V). exists e, p. split; [exact Ee|exact V].
Defined.

(** The hundredth message's snapshot is lost: none of the messages from the
    hundredth on is ever proved. *)
Lemma unsealed_for_ever_witness : exists l' : Log (Flaky InMemoryStorage) InMemoryCache InMemoryBroker,
  Append epoch (signed "c" 99) (failing [Fine; Fine; Fine; Fine; Lost] (after "c" 99)) = (Err (Wrapf "snapshot" no_response), l') /\
  forall ms s q, callable l' ms -> rtc sys_step (calls l' ms) s -> 100 <= q < 2 ^ 64 ->
    exists err l2, ProveInclusion "c" q (shared s) = (Err err, l2).
Proof.
  destruct (last (log_at (after "c" 99) (ChatID (signed "c" 99)))) as [tip|] eqn:La.
  - destruct (snapshot_lost epoch (signed "c" 99) (after "c" 99) tip (after_ok "c" 99 eq_refl) (after_unlocked "c" 99 eq_refl)
      (signed_acceptable "c" 99) La) as (l' & E & So & Ee & Es); rewrite (signed_chat "c" 99) in *; [exact (after_length "c" 99 eq_refl)|].
    exists l'. split; [exact E|]. intros ms s q Cb R Q.
    destruct (unsealed_for_ever l' ms s "c" q So Cb R) as [_ P].
    + rewrite Es, Ee, length_app, (after_length "c" 99 eq_refl). discriminate.
    + rewrite Es in P. exact (P Q).
  - exfalso. rewrite (signed_chat "c" 99) in La. apply last_None in La. pose proof (after_length "c" 99 eq_refl) as L.
    rewrite La in L. discriminate L.
Defined.
End Witnesses.
