(* ===== verification/Readings.v ===== *)
(** * Readings: the reading calls of the log, one port call at a time

    [History], [Entry], [VerifyEntry], [Verify], [ProveInclusion] and [Sync] take
    no mutex: between two of their calls of the store, appends go on.  A
    [reading] is such a call cut at its port calls; run at one moment it is the
    operation of [Chatlog], and [world] has any number of them beside the
    concurrent [Append]s of [Concurrency]. *)
From S2P Require Import Prelude Codec JsonText GoTime Sha256 Models Merkle Crypto Storage Cache Broker Chatlog LogFacts LogReads LogContract Concurrency.

(** ** Calls that read *)

Inductive port_read : Set -> Set :=
  | ReadLast (chatID : string) : port_read LogEntry
  | ReadEntry (chatID : string) (sequence : Z) : port_read LogEntry
  | ReadSince (chatID : string) (from : Z) : port_read (Slice LogEntry)
  | ReadLatest (chatID : string) : port_read MerkleSnapshot
  | ReadSnapshot (chatID : string) (index : Z) : port_read MerkleSnapshot.

Inductive reading (A : Type) : Type :=
  | Return (o : outcome A)
  | Ask {X : Set} (p : port_read X) (k : X + error -> reading A).
Arguments Return {A} o.
Arguments Ask {A X} p k.

#[global] Instance reading_ret : MRet reading := fun A a => Return (Ok a).
#[global] Instance reading_bind : MBind reading := fun A B f =>
  fix bind (r : reading A) : reading B :=
    match r with
    | Return (Ok a) => f a
    | Return (Err e) => Return (Err e)
    | Return (Panic w) => Return (Panic w)
    | Return Block => Return Block
    | Ask p k => Ask p (fun x => bind (k x))
    end.

(** A port call whose error the caller looks at, and one whose error it returns. *)
Definition attempt {X : Set} (p : port_read X) : reading (X + error) := Ask p (fun x => Return (Ok x)).
Definition need {X : Set} (p : port_read X) : reading X :=
  Ask p (fun x => Return match x with inl a => Ok a | inr err => Err err end).

Section Readings.
Context `{HashFunction} `{Ed25519}.

Definition reading_History (chatID : string) (from limit : Z) : reading (Slice LogEntry) :=
  es ← need (ReadSince chatID from);
  mret (if (0 <? limit) && (limit <? Z.of_nat (length (elems es))) then reslice (Z.to_nat limit) es else es).

Definition reading_VerifyEntry (chatID : string) (sequence : Z) : reading MessageVerification :=
  e ← need (ReadEntry chatID sequence);
  let bad reason := {| mv_Sequence := sequence; mv_Valid := false; mv_Reason := reason |} in
  if negb (supportedVersion (SchemaVersion (Message e)))
  then mret (bad "unsupported schema version"%string)
  else if negb (bool_decide (ComputeHash e = EntryHash e))
  then mret (bad "tampered entry"%string)
  else if negb (VerifyMessage (Message e))
  then mret (bad "bad signature"%string)
  else
    expectedPrev ← (if 0 <? sequence
                    then prev ← need (ReadEntry chatID (u64 (sequence - 1))); mret (EntryHash prev)
                    else mret GenesisHash);
    mret (if negb (bool_decide (PrevHash e = expectedPrev))
          then bad "broken chain link to previous entry"%string
          else {| mv_Sequence := sequence; mv_Valid := true; mv_Reason := "" |}).

Definition reading_Verify (chatID : string) : reading VerifyResult :=
  es ← need (ReadSince chatID 0);
  mret match verify_walk 0 GenesisHash (elems es) with
       | Some reason => {| vr_Valid := false; vr_Entries := 0; vr_Reason := reason |}
       | None => {| vr_Valid := true; vr_Entries := u64 (Z.of_nat (length (elems es))); vr_Reason := "" |}
       end.

(** What [ProveInclusion] makes of the snapshot and the window. *)
Definition inclusion (chatID : string) (sequence : Z) (snap : MerkleSnapshot) (window : list LogEntry)
    : outcome InclusionProof :=
  let size := i64 (u64 (ToSequence snap - FromSequence snap + 1)) in
  if Z.of_nat (length window) <? size
  then Err (New ("snapshot window incomplete: have " ++ fmt_d (Z.of_nat (length window)) ++ " of " ++ fmt_d size))
  else
    leaves ← window_leaves window size;
    let localIdx := i64 (u64 (sequence - FromSequence snap)) in
    let '(proof, root) := Proof leaves localIdx in
    if negb (bool_decide (root = MerkleRoot snap))
    then Err (New "recomputed root does not match snapshot")
    else
      leaf ← index_string leaves localIdx;
      mret {| ip_ChatID := chatID; ip_Sequence := sequence; ip_EntryHash := leaf;
              ip_SnapshotIndex := sequence / SnapshotInterval; ip_MerkleRoot := MerkleRoot snap; ip_Proof := proof |}.

Definition reading_ProveInclusion (chatID : string) (sequence : Z) : reading InclusionProof :=
  r ← attempt (ReadSnapshot chatID (sequence / SnapshotInterval));
  match r with
  | inr err => Return (Err (if errors_is err ErrNotFound then ErrNotSnapshotted else err))
  | inl snap =>
      window ← need (ReadSince chatID (FromSequence snap));
      Return (inclusion chatID sequence snap (elems window))
  end.

Definition reading_Sync (chatID : string) : reading SyncBundle :=
  r ← attempt (ReadLatest chatID);
  '(snap, from) ← Return
    match r with
    | inl s => Ok (Some s, u64 (ToSequence s + 1))
    | inr err => if errors_is err ErrNotFound then Ok (None, 0) else Err err
    end;
  es ← need (ReadSince chatID from);
  r ← attempt (ReadLast chatID);
  hash ← Return
    match r with
    | inl last => Ok (EntryHash last)
    | inr err => if errors_is err ErrNotFound then Ok GenesisHash else Err err
    end;
  mret {| Snapshot := snap; NewEntries := es; CurrentHash := hash |}.
End Readings.

(** ** Queries *)

Inductive query :=
  | QHistory (chatID : string) (from limit : Z)
  | QEntry (chatID : string) (sequence : Z)
  | QVerifyEntry (chatID : string) (sequence : Z)
  | QVerify (chatID : string)
  | QProve (chatID : string) (sequence : Z)
  | QSync (chatID : string).

Inductive answer :=
  | AHistory (es : Slice LogEntry)
  | AEntry (e : LogEntry)
  | AVerifyEntry (v : MessageVerification)
  | AVerify (v : VerifyResult)
  | AProve (p : InclusionProof)
  | ASync (b : SyncBundle).

(** The sequences of a query are [uint64]s. *)
Definition asked_ok (q : query) : Prop :=
  match q with
  | QHistory _ n _ | QEntry _ n | QVerifyEntry _ n | QProve _ n => 0 <= n
  | QVerify _ | QSync _ => True
  end.

Definition reading_of `{HashFunction} `{Ed25519} (q : query) : reading answer :=
  match q with
  | QHistory c from limit => es ← reading_History c from limit; mret (AHistory es)
  | QEntry c n => e ← need (ReadEntry c n); mret (AEntry e)
  | QVerifyEntry c n => v ← reading_VerifyEntry c n; mret (AVerifyEntry v)
  | QVerify c => v ← reading_Verify c; mret (AVerify v)
  | QProve c n => p ← reading_ProveInclusion c n; mret (AProve p)
  | QSync c => b ← reading_Sync c; mret (ASync b)
  end.

Section Running.
Context {S C B : Type} `{Storage S} `{Cache C} `{Broker B} `{HashFunction} `{Ed25519}.
Implicit Types l : Log S C B.

(** The operation of [Chatlog]. *)
Definition perform (q : query) : M (Log S C B) answer :=
  match q with
  | QHistory c from limit => es ← History c from limit; mret (AHistory es)
  | QEntry c n => e ← LogEntryAt c n; mret (AEntry e)
  | QVerifyEntry c n => v ← VerifyEntry c n; mret (AVerifyEntry v)
  | QVerify c => v ← VerifyChain c; mret (AVerify v)
  | QProve c n => p ← ProveInclusion c n; mret (AProve p)
  | QSync c => b ← Sync c; mret (ASync b)
  end.

Definition ask {X : Set} (p : port_read X) : M (Log S C B) X :=
  match p with
  | ReadLast c => on_store (LastEntry c)
  | ReadEntry c n => on_store (Entry c n)
  | ReadSince c n => on_store (EntriesSince c n)
  | ReadLatest c => on_store (LatestSnapshot c)
  | ReadSnapshot c i => on_store (SnapshotAt c i)
  end.

(** All port calls at one moment. *)
Fixpoint at_once {A} (r : reading A) : M (Log S C B) A :=
  match r with
  | Return o => lift o
  | Ask p k => x ← try (ask p); at_once (k x)
  end.

(** One port call; [None] when it never returns, or when there is none left. *)
Definition read_step {A} (r : reading A) l : option (reading A * Log S C B) :=
  match r with
  | Return _ => None
  | Ask p k => match ask p l with
               | (Ok a, l') => Some (k (inl a), l')
               | (Err e, l') => Some (k (inr e), l')
               | (Panic w, l') => Some (Return (Panic w), l')
               | (Block, _) => None
               end
  end.

Lemma at_once_bind {A D} (r : reading A) (f : A -> reading D) l :
  at_once (r ≫= f) l = (a ← at_once r; at_once (f a)) l.
Proof.
  revert l. induction r as [[]|X p k IH]; intros l; [done..|].
  change (at_once (Ask p k ≫= f) l) with ((x ← try (ask p); at_once (k x ≫= f)) l).
  change (at_once (Ask p k)) with (x ← try (ask p); at_once (k x)). rewrite <-bind_assoc_run.
  unfold mbind at 1 3, M_bind. by destruct (try (ask p) l) as [[] l'].
Qed.

Lemma at_once_step {A} (r r' : reading A) l l' : read_step r l = Some (r', l') -> at_once r l = at_once r' l'.
Proof.
  destruct r as [o|X p k]; [done|]. cbn. unfold mbind, M_bind, try. destruct (ask p l) as [[] l1]; intros [= <- <-]; done.
Qed.
End Running.

(** ** Run at one moment, a reading is the operation *)

Section AtOnce.
Context {S C B : Type} `{Storage S} `{Cache C} `{Broker B} `{HashFunction} `{Ed25519}.
Implicit Types l : Log S C B.

Definition does {A} (r : reading A) (m : M (Log S C B) A) : Prop := forall l, at_once r l = m l.

Lemma does_ret {A} (a : A) : does (mret a) (mret a).
Proof. done. Qed.
Lemma does_throw {A} e : does (Return (Err e) : reading A) (throw e).
Proof. done. Qed.
Lemma does_lift {A} (o : outcome A) : does (Return o) (lift o).
Proof. done. Qed.
Lemma does_need {X : Set} (p : port_read X) : does (need p) (ask p).
Proof. intros l. cbn. unfold mbind, M_bind, try, lift. by destruct (ask p l) as [[]]. Qed.
Lemma does_attempt {X : Set} (p : port_read X) : does (attempt p) (try (ask p)).
Proof. intros l. cbn. unfold mbind, M_bind, try, lift. by destruct (ask p l) as [[]]. Qed.
Lemma does_bind {A D} (r : reading A) m (f : A -> reading D) g :
  does r m -> (forall a, does (f a) (g a)) -> does (r ≫= f) (m ≫= g).
Proof.
  intros R F l. rewrite at_once_bind. unfold mbind at 1 2, M_bind. rewrite R.
  destruct (m l) as [[a|?|?|] l']; [apply F|done..].
Qed.
Lemma does_if {A} (b : bool) (r r' : reading A) m m' :
  does r m -> does r' m' -> does (if b then r else r') (if b then m else m').
Proof. by destruct b. Qed.
End AtOnce.

Section Performed.
Context {S C B : Type} `{Storage S} `{Cache C} `{Broker B} `{HashFunction} `{Ed25519}.
Implicit Types l : Log S C B.

Lemma does_History c from limit : does (S := S) (C := C) (B := B) (reading_History c from limit) (History c from limit).
Proof. apply does_bind; [exact (does_need (ReadSince c from))|]. intros es. by destruct (_ && _). Qed.

Lemma does_VerifyEntry c n : does (S := S) (C := C) (B := B) (reading_VerifyEntry c n) (VerifyEntry c n).
Proof.
  apply does_bind; [exact (does_need (ReadEntry c n))|]. intros e. repeat apply does_if; try apply does_ret.
  apply does_bind; [|intros x; by destruct (negb _)]. apply does_if; [|done].
  apply does_bind; [exact (does_need (ReadEntry c _))|done].
Qed.

Lemma does_Verify c : does (S := S) (C := C) (B := B) (reading_Verify c) (VerifyChain c).
Proof. apply does_bind; [exact (does_need (ReadSince c 0))|done]. Qed.

Lemma does_ProveInclusion c n : does (S := S) (C := C) (B := B) (reading_ProveInclusion c n) (ProveInclusion c n).
Proof.
  apply does_bind; [exact (does_attempt (ReadSnapshot c _))|]. intros [snap|err]; [|by destruct (errors_is _ _)].
  apply does_bind; [exact (does_need (ReadSince c _))|]. intros w l. unfold inclusion, mbind, M_bind, lift. cbn.
  destruct (_ <? _); [done|]. destruct (window_leaves (elems w) _) as [ls|?|?|]; try done. cbn.
  destruct (Proof ls _) as [p root]. destruct (negb _); [done|]. by destruct (index_string ls _).
Qed.

Lemma does_Sync c : does (S := S) (C := C) (B := B) (reading_Sync c) (Sync c).
Proof.
  apply does_bind; [exact (does_attempt (ReadLatest c))|]. intros r.
  apply does_bind; [destruct r as [|err]; [done|by destruct (errors_is _ _)]|]. intros [snap from].
  apply does_bind; [exact (does_need (ReadSince c from))|]. intros es.
  apply does_bind; [exact (does_attempt (ReadLast c))|]. intros r2.
  apply does_bind; [destruct r2 as [|err]; [done|by destruct (errors_is _ _)]|done].
Qed.

(** Over any ports, nobody in between. *)
Theorem reading_at_once q l : at_once (reading_of q) l = perform q l.
Proof.
  destruct q; (apply does_bind; [|done]).
  - apply does_History.
  - exact (does_need (ReadEntry _ _)).
  - apply does_VerifyEntry.
  - apply does_Verify.
  - apply does_ProveInclusion.
  - apply does_Sync.
Qed.
End Performed.

(** ** Logs that grow *)

Section Growing.
Context {S C B : Type} `{SL : StorageLaws S} `{CL : CacheLaws C} `{BL : BrokerLaws B}.
Context `{HashFunction} `{Ed25519}.
Implicit Types l : Log S C B.
Implicit Types s : @system S C B.

Record grows l l' : Prop := {
  gr_log c : log_at l c `prefix_of` log_at l' c;
  gr_snaps c : snaps_at l c `prefix_of` snaps_at l' c;
}.

#[export] Instance grows_preorder : PreOrder grows.
Proof.
  split; [by split|]. intros l1 l2 l3 [L1 N1] [L2 N2]. split; intros c; (etrans; [apply L1 || apply N1|apply L2 || apply N2]).
Qed.

Lemma grows_same l l' : store l' = store l -> grows l l'.
Proof. intros E. split; intros c; unfold log_at, snaps_at; rewrite E; reflexivity. Qed.

Lemma zoom_broker_store {A} (m : M B A) l : store (on_broker m l).2 = store l.
Proof. unfold on_broker, zoom. by destruct (m (broker l)). Qed.
Lemma zoom_cache_store {A} (m : M C A) l : store (on_cache m l).2 = store l.
Proof. unfold on_cache, zoom. by destruct (m (cache l)). Qed.

Lemma call_state {A} (m : M (Log S C B) A) ok err l p l' : call m ok err l = Some (p, l') -> l' = (m l).2.
Proof. unfold call. destruct (m l) as [[] l1]; by intros [= _ <-]. Qed.

(** A store that is read stays as it is. *)
Lemma ask_answers {X : Set} (p : port_read X) l :
  match p with ReadEntry _ n | ReadSince _ n | ReadSnapshot _ n => 0 <= n | _ => True end ->
  exists o, ask p l = (o, l) /\ ((exists a, o = Ok a) \/ o = Err ErrNotFound).
Proof.
  assert (forall (A : Set) (o : option A), (exists a, found o = Ok a) \/ found o = Err ErrNotFound) as F
    by (intros A [a|]; [left; by exists a|by right]).
  destruct p as [c|c n|c n|c|c i]; intros P; cbn [ask]; eexists; (split; [apply on_store_read|]).
  - apply last_entry. - apply F.
  - by apply entry_at. - apply F.
  - by apply entries_since. - left. by eexists.
  - apply latest_snapshot. - apply F.
  - by apply snapshot_at. - apply F.
Qed.

Lemma append_grows c e l : grows l (on_store (AppendEntry c e) l).2.
Proof.
  destruct (decide (Sequence e = Z.of_nat (length (log_at l c)))) as [Q|N].
  - destruct (append_contiguous c e (store l) Q) as (s' & E & L & Sn). rewrite (on_store_run _ _ _ _ E).
    split; intros d; unfold log_at, snaps_at; cbn; [|by rewrite Sn]. rewrite L.
    case_decide; subst; [by apply prefix_app_r|done].
  - by rewrite (on_store_read _ _ _ (append_gap c e (store l) N)).
Qed.

Lemma save_grows n l : grows l (on_store (SaveSnapshot n) l).2.
Proof.
  destruct (save_snapshot n (store l)) as (s' & E & Sn & L). rewrite (on_store_run _ _ _ _ E).
  split; intros d; unfold log_at, snaps_at; cbn; [by rewrite L|]. rewrite Sn.
  case_decide; subst; [by apply prefix_app_r|done].
Qed.

Lemma advance_grows now msg p l p' l' :
  match p with PWindow _ from _ => 0 <= from | _ => True end ->
  advance now msg p l = Some (p', l') -> grows l l'.
Proof.
  intros P A. destruct p as [| | |e|e|e|e from index|e n|e r|e|o|o]; cbn [advance] in A.
  - repeat case_match; simplify_eq; try done. apply grows_same. unfold chatLock, modify. cbn. by case_match.
  - unfold Lock in A. repeat case_match; simplify_eq; by apply grows_same.
  - apply call_state in A as ->. destruct (ask_answers (ReadLast (ChatID msg)) l I) as (o & E & _). cbn in E. by rewrite E.
  - apply call_state in A as ->. apply append_grows.
  - apply call_state in A as ->. apply grows_same, zoom_broker_store.
  - apply call_state in A as ->. destruct (ask_answers (ReadLatest (ChatID msg)) l I) as (o & E & _). cbn in E. by rewrite E.
  - apply call_state in A as ->. destruct (ask_answers (ReadSince (ChatID msg) from) l P) as (o & E & _). cbn in E. by rewrite E.
  - apply call_state in A as ->. apply save_grows.
  - apply call_state in A as ->. apply grows_same, zoom_cache_store.
  - apply call_state in A as ->. apply grows_same, zoom_broker_store.
  - injection A as <- <-. by apply grows_same.
  - done.
Qed.

Lemma step_grows s s' : sys_inv s -> sys_step s s' -> grows (shared s) (shared s').
Proof.
  intros I [i th p l E A]. eapply advance_grows; [|exact A]. destruct (t_phase th) eqn:Ep; try done.
  pose proof (so_phase _ (si_ok _ I) i th E) as P. rewrite Ep in P.
  destruct (P eq_refl) as (_ & _ & _ & -> & _). lia.
Qed.

(** At every moment of the appends, each chat's snapshots are of windows it has. *)
Lemma inv_sealed s c : sys_inv s -> sealed c (log_at (shared s) c) (snaps_at (shared s) c).
Proof.
  intros I. pose proof (stored_room s I c) as R. pose proof (inv_chain s c I) as T.
  assert (forall es0 fs ns, log_at (shared s) c = es0 ++ fs -> chat_ok c es0 ns -> sealed c (log_at (shared s) c) ns) as G.
  { intros es0 fs ns Q K. rewrite Q in *. apply sealed_app; [by apply chat_sealed|done|lia]. }
  destruct (decide (locks (shared s) !! c = Some true)) as [Lk|Fr].
  - destruct (so_held _ (si_ok _ I) c Lk) as (i & th & E & Ct & Hp).
    destruct (so_phase _ (si_ok _ I) i th E Hp) as [_ P].
    change (ChatID (t_msg th)) with (chat_of th) in P. rewrite Ct in P.
    assert (forall e, lags c (log_at (shared s) c) (snaps_at (shared s) c) (t_msg th) e ->
      sealed c (log_at (shared s) c) (snaps_at (shared s) c)) as L by (intros e [es0 Q K _ _]; by eapply G).
    destruct (t_phase th) as [| | |?|e|e|e ??|e ?|??|?|[]|?]; try done; try (by eapply L, P); apply chat_sealed, P.
  - apply chat_sealed. by apply (so_free _ (si_ok _ I) c Fr).
Qed.
End Growing.

(** ** Appends and readings together *)

Section Worlds.
Context {S C B : Type} `{SL : StorageLaws S} `{CL : CacheLaws C} `{BL : BrokerLaws B}.
Context `{HashFunction} `{Ed25519}.
Implicit Types l : Log S C B.

Record world := { calling : @system S C B; asking : list (reading answer) }.

Definition common (w : world) : Log S C B := shared (calling w).

Inductive world_step (w : world) : world -> Prop :=
  | world_call s : sys_step (calling w) s -> world_step w {| calling := s; asking := asking w |}
  | world_read i r r' l : asking w !! i = Some r -> read_step r (common w) = Some (r', l) ->
      world_step w {| calling := {| shared := l; threads := threads (calling w) |}; asking := <[i := r']> (asking w) |}.

(** Appends of [ms] and queries [qs] over a log. *)
Definition opening l (ms : list (Time * SignedMessage)) (qs : list query) : world :=
  {| calling := calls l ms; asking := map reading_of qs |}.

(** *** Readings of stores that keep their contract *)

Definition port_ok {X : Set} (p : port_read X) : Prop :=
  match p with ReadEntry _ n | ReadSince _ n | ReadSnapshot _ n => 0 <= n | _ => True end.

(** What the store may answer. *)
Definition answer_ok {X : Set} (p : port_read X) : X + error -> Prop :=
  match p with
  | ReadSnapshot _ _ => fun x => match x with inl n => 0 <= FromSequence n | inr _ => True end
  | _ => fun _ => True
  end.

(** At most [n] port calls, each one with arguments the port is made for. *)
Fixpoint within {A} (n : nat) (r : reading A) {struct r} : Prop :=
  match r, n with
  | Return _, _ => True
  | Ask p k, Datatypes.S m => port_ok p /\ forall x, answer_ok p x -> within m (k x)
  | Ask _ _, O => False
  end.

Lemma reading_within q : asked_ok q -> within 3 (reading_of q).
Proof.
  intros Q. destruct q as [c from limit|c n|c n|c|c n|c]; cbn in Q; cbn; (split; [try done|intros x Hx]).
  - by destruct x.
  - by destruct x.
  - destruct x as [e|]; [|done]. cbn. destruct (negb _); [done|]. destruct (negb _); [done|]. destruct (negb _); [done|].
    cbn. destruct (Z.ltb_spec 0 n); cbn; [|done]. split; [apply u64_range|]. by intros [p|] _.
  - by destruct x.
  - unfold SnapshotInterval. div_lia.
  - destruct x as [snap|err]; [|done]. cbn. split; [done|]. intros [w|] _; [|done]. cbn.
    by destruct (inclusion _ _ _ _).
  - assert (forall sn from, 0 <= from -> within 2
      ((es ← need (ReadSince c from); r ← attempt (ReadLast c);
        hash ← Return match r with inl last => Ok (EntryHash last)
                      | inr err => if errors_is err ErrNotFound then Ok GenesisHash else Err err end;
        mret {| Snapshot := sn; NewEntries := es; CurrentHash := hash |}) ≫= fun b => mret (ASync b))) as G.
    { intros sn from P. cbn. split; [done|]. intros [es|] _; [|done]. cbn. split; [done|].
      intros [e|err] _; [done|]. cbn. by destruct (errors_is _ _). }
    destruct x as [snap|err]; [apply G, u64_range|]. cbn. destruct (errors_is err ErrNotFound); [by apply G|done].
Qed.

(** The result of a port call that returned [x]. *)
Definition given {X : Set} (x : X + error) : outcome X := match x with inl a => Ok a | inr err => Err err end.

Lemma within_step {A} n (r : reading A) l : (forall c, sealed c (log_at l c) (snaps_at l c)) -> within n r ->
  match r with
  | Return _ => True
  | Ask p k => exists x, ask p l = (given x, l) /\ read_step r l = Some (k x, l) /\ answer_ok p x /\ within (pred n) (k x)
  end.
Proof.
  intros Se W. destruct r as [o|X p k]; [done|]. destruct n as [|n]; [done|]. destruct W as [P W].
  destruct (ask_answers p l P) as (o & E & O). cbn. rewrite E.
  assert (forall n, o = Ok n -> answer_ok p (inl n)) as Ans.
  { intros a ->. destruct p as [| | | |c i]; try done. cbn in *. destruct (Se c) as [_ Each _].
    change (snaps_at l c) with (snaps_of (store l) c) in Each. unfold on_store, zoom in E.
    rewrite snapshot_at in E by done. destruct (snaps_of (store l) c !! Z.to_nat i) as [n'|] eqn:L; [|done].
    injection E as <- _. rewrite (so_from _ _ _ _ (Each _ _ L)). lia. }
  destruct O as [[a ->]| ->]; [exists (inl a)|exists (inr ErrNotFound)]; (split; [done|]); (split; [done|]);
    (split; [|apply W]); auto; by destruct p.
Qed.

(** *** The invariant of a run *)

Definition world_ok (w : world) : Prop :=
  sys_inv (calling w) /\ Forall (within 3) (asking w).

Lemma within_weaken {A} n m (r : reading A) : (n <= m)%nat -> within n r -> within m r.
Proof.
  revert n m. induction r as [o|X p k IH]; intros n m L W; [done|].
  destruct n as [|n]; [destruct W|]. destruct m as [|m]; [lia|]. destruct W as [P W]. split; [done|].
  intros x Hx. apply (IH x n); [lia|by apply W].
Qed.

Lemma world_sealed w c : world_ok w -> sealed c (log_at (common w) c) (snaps_at (common w) c).
Proof. intros [I _]. by apply inv_sealed. Qed.

(** A step of a reader leaves the log as it is. *)
Lemma read_keeps w i r r' l : world_ok w -> asking w !! i = Some r -> read_step r (common w) = Some (r', l) ->
  l = common w /\ within 3 r'.
Proof.
  intros K E St. destruct K as [I F]. pose proof (proj1 (Forall_lookup _ _) F i r E) as W.
  pose proof (within_step 3 r (common w) (fun c => inv_sealed _ c I) W) as N. destruct r as [|X p k]; [done|].
  destruct N as (x & _ & N & _ & Wx). rewrite N in St. injection St as <- <-. split; [done|].
  eapply within_weaken; [|done]. cbn. lia.
Qed.

Lemma world_step_ok w w' : world_ok w -> world_step w w' -> world_ok w' /\ grows (common w) (common w').
Proof.
  intros K St. pose proof K as [I F]. destruct St as [s St|i r r' l E R].
  - split; [|by apply step_grows]. split; [|done]. by destruct (step_inv _ _ I St).
  - destruct (read_keeps w i r r' l K E R) as [-> W]. split; [|done]. split.
    + unfold common. cbn. by destruct (calling w).
    + by apply Forall_insert.
Qed.

Lemma world_run_ok w w' : world_ok w -> rtc world_step w w' -> world_ok w' /\ grows (common w) (common w').
Proof.
  intros K R. induction R as [w|w w1 w2 St _ IH]; [done|]. destruct (world_step_ok w w1 K St) as [K1 G1].
  destruct (IH K1) as [K2 G2]. split; [done|by etrans].
Qed.

Lemma opening_ok l ms qs : fresh_log l -> Z.of_nat (length ms) + 1 < 2 ^ 64 -> Forall asked_ok qs ->
  world_ok (opening l ms qs).
Proof.
  intros F R Q. split; [by apply calls_inv|]. apply Forall_map. eapply Forall_impl; [exact Q|]. apply reading_within.
Qed.
End Worlds.
