(* ===== verification/Nodes.v ===== *)
(** * Nodes: several nodes over one database

    The mutexes of [Append] belong to a process.  Nodes that share a database
    append to the same chats without a common mutex; what holds the chain
    together then is the conditional insert.  The database may fail ([Faults]).
    A state is the database with any number of nodes, each with its own mutexes,
    cache, broker and calls of [Append], which advance by the steps of
    [Concurrency]; what a node sees of a cache or a broker may change under it.

    In every interleaving each chat stays one hash chain, nothing that is stored
    is lost or rewritten, and an acknowledged message is in the chain.  The
    snapshots are not protected: an append of another node between the entry
    that fills a window and its snapshot makes the window too long, and none of
    its messages can be proved. *)
From S2P Require Import Prelude Tables Codec JsonText GoTime Sha256 Models Merkle Crypto Storage Cache Broker Chatlog LogFacts LogReads LogContract Scylla ScyllaLog Faults Concurrency.

(** ** The nodes *)

Section Nodes.
Context {S C B : Type} `{SH : SharedLaws S} `{Cache C} `{Broker B} `{HashFunction} `{Ed25519}.

Record member := {
  m_cache : C;
  m_broker : B;
  m_locks : gmap string bool;
  m_calls : list thread;
}.
Record nodes := { database : S; members : list member }.

(** The log as a node has it. *)
Definition view (s : S) (n : member) : Log S C B := MkLog s (m_cache n) (m_broker n) (m_locks n).

(** A call of a node takes a step; or the cache or the broker of a node changes. *)
Inductive nodes_step (w : nodes) : nodes -> Prop :=
  | node_advances i n j th p l : members w !! i = Some n -> m_calls n !! j = Some th ->
      advance (t_now th) (t_msg th) (t_phase th) (view (database w) n) = Some (p, l) ->
      nodes_step w {|
        database := store l;
        members := <[i := {| m_cache := cache l; m_broker := broker l; m_locks := locks l;
                             m_calls := <[j := at_phase p th]> (m_calls n) |}]> (members w) |}
  | node_perturbed i n c b : members w !! i = Some n ->
      nodes_step w {|
        database := database w;
        members := <[i := {| m_cache := c; m_broker := b; m_locks := m_locks n; m_calls := m_calls n |}]> (members w) |}.

Definition call_at (w : nodes) (ij : nat * nat) (th : thread) : Prop :=
  exists n, members w !! ij.1 = Some n /\ m_calls n !! ij.2 = Some th.

(** Room for one entry more in each chat. *)
Definition roomy (w : nodes) : Prop := forall c, Z.of_nat (length (sh_log (database w) c)) + 1 < 2 ^ 63.

Definition nodes_run : nodes -> nodes -> Prop := rtc (fun w w' => roomy w /\ nodes_step w w').

(** *** The invariant *)

(** What a call knows of the log [es] of its chat. *)
Record call_inv (es : list LogEntry) (th : thread) : Prop := {
  ca_fits : sh_fits (t_msg th);
  ca_accepted : match t_phase th with PWait | PTip | PStore _ => acceptable (t_msg th) = true | _ => True end;
  ca_built e : t_phase th = PStore e -> exists k, (k <= length es)%nat /\ e = new_entry (take k es) (t_msg th);
  ca_kept e : entry_of (t_phase th) = Some e ->
    Message e = t_msg th /\ 0 <= Sequence e /\ es !! Z.to_nat (Sequence e) = Some e;
}.

Record nodes_ok (w : nodes) : Prop := {
  no_store : sh_ok (database w);
  no_chain c : chain 0 GenesisHash (sh_log (database w) c);
  no_chat c : Forall (fun e => ChatID (Message e) = c) (sh_log (database w) c);
  no_call ij th : call_at w ij th -> call_inv (sh_log (database w) (chat_of th)) th;
  no_distinct ij kl t1 t2 e1 e2 : call_at w ij t1 -> call_at w kl t2 -> ij <> kl -> chat_of t1 = chat_of t2 ->
    entry_of (t_phase t1) = Some e1 -> entry_of (t_phase t2) = Some e2 -> Sequence e1 <> Sequence e2;
}.

(** The log of a chat grows, if at all, by one entry at its end. *)
Lemma call_inv_grows es added th : call_inv es th -> call_inv (es ++ added) th.
Proof.
  intros [F A K Kp]. split; [done..| |].
  - intros e E. destruct (K e E) as (k & L & ->). exists k. split; [rewrite length_app; lia|].
    by rewrite take_app_le.
  - intros e E. destruct (Kp e E) as (M & P & Lk). split_and!; [done..|]. by apply lookup_app_l_Some.
Qed.

(** What a step does to the database: nothing to the entries, or it adds the
    entry the call has built at the end. *)
Record advanced (s s' : S) (th : thread) (p : phase) : Prop := {
  ad_store : sh_ok s';
  ad_log : ((forall d, sh_log s' d = sh_log s d) /\ (forall e, entry_of p = Some e -> entry_of (t_phase th) = Some e)) \/
    exists e, t_phase th = PStore e /\ (forall f, entry_of p = Some f -> f = e) /\
      e = new_entry (sh_log s (chat_of th)) (t_msg th) /\
      forall d, sh_log s' d = if decide (d = chat_of th) then sh_log s (chat_of th) ++ [e] else sh_log s d;
  ad_call : call_inv (sh_log s' (chat_of th)) (at_phase p th);
}.

(** Steps that leave the entries alone. *)
Lemma advanced_same s s' th p : sh_ok s' -> (forall d, sh_log s' d = sh_log s d) ->
  call_inv (sh_log s (chat_of th)) th ->
  (forall e, entry_of p = Some e -> entry_of (t_phase th) = Some e) ->
  match p with PWait | PTip | PStore _ => acceptable (t_msg th) = true | _ => True end ->
  (forall e, p = PStore e -> exists k, (k <= length (sh_log s (chat_of th)))%nat /\
     e = new_entry (take k (sh_log s (chat_of th))) (t_msg th)) ->
  advanced s s' th p.
Proof.
  intros K L [F _ _ Kp] E A P. split; [done|by left|]. rewrite L. split; [done..|]. intros e Ee. by apply Kp, E.
Qed.

Lemma call_store {A} (m : M S A) ok err (l : Log S C B) p l' : call (on_store m) ok err l = Some (p, l') ->
  store l' = (m (store l)).2 /\ ((exists a, (m (store l)).1 = Ok a /\ p = ok a) \/ (exists e, (m (store l)).1 = Err e /\ p = err e) \/
    exists w, (m (store l)).1 = Panic w /\ p = PUnlock (Panic w)).
Proof. unfold call, on_store, zoom. destruct (m (store l)) as [[] s]; intros [= <- <-]; cbn; eauto 10. Qed.

Lemma call_broker {A} (m : M B A) ok err (l : Log S C B) p l' : call (on_broker m) ok err l = Some (p, l') ->
  store l' = store l /\ ((exists a, p = ok a) \/ (exists e, p = err e) \/ exists w, p = PUnlock (Panic w)).
Proof. unfold call, on_broker, zoom. destruct (m (broker l)) as [[] s]; intros [= <- <-]; cbn; eauto 10. Qed.

Lemma call_cache {A} (m : M C A) ok err (l : Log S C B) p l' : call (on_cache m) ok err l = Some (p, l') ->
  store l' = store l /\ ((exists a, p = ok a) \/ (exists e, p = err e) \/ exists w, p = PUnlock (Panic w)).
Proof. unfold call, on_cache, zoom. destruct (m (cache l)) as [[] s]; intros [= <- <-]; cbn; eauto 10. Qed.

Lemma fail_no_entry pre err : entry_of (fail pre err) = None.
Proof. done. Qed.

Lemma advance_shared now th (l : Log S C B) p l' (c := chat_of th) (es := sh_log (store l) c) :
  t_now th = now -> sh_ok (store l) -> chain 0 GenesisHash es -> Z.of_nat (length es) + 1 < 2 ^ 63 ->
  call_inv es th -> advance now (t_msg th) (t_phase th) l = Some (p, l') ->
  advanced (store l) (store l') th p.
Proof.
  subst es c. intros _ K T R I A. pose proof I as [F Ac Bu Kp].
  pose proof (fun s' p K' L' => advanced_same (store l) s' th p K' L' I) as Gen.
  pose proof (fun p => Gen (store l) p K ltac:(done)) as Same.
  change (ChatID (t_msg th)) with (chat_of th) in *.
  destruct (t_phase th) as [| | |e|e|e|e from index|e n|e r|e|o|o] eqn:Ph; cbn [advance] in A.
  - destruct (supportedVersion _) eqn:V; [|injection A as <- <-; by apply Same].
    destruct (VerifyMessage _) eqn:Sg; [|injection A as <- <-; by apply Same].
    injection A as <- <-. unfold chatLock, modify. cbn [snd negb].
    assert (acceptable (t_msg th) = true) as Acc by (unfold acceptable; by rewrite V, Sg).
    destruct (locks l !! _); by apply Same.
  - unfold Lock in A. destruct (locks l !! _) as [[]|]; try done; injection A as <- <-; by apply Same.
  - apply call_store in A as [-> Cs]. change (ChatID (t_msg th)) with (chat_of th) in *.
    destruct (sh_last (chat_of th) (store l) K) as (o & s' & E & Re & K' & L'). rewrite E in *. cbn [fst snd] in *.
    pose proof (tip_built _ (t_msg th) T ltac:(lia)) as Tb.
    assert (exists k, (k <= length (sh_log (store l) (chat_of th)))%nat /\
      new_entry (sh_log (store l) (chat_of th)) (t_msg th) = new_entry (take k (sh_log (store l) (chat_of th))) (t_msg th)) as Bk
      by (exists (length (sh_log (store l) (chat_of th))); by rewrite firstn_all).
    destruct Cs as [(a & Ea & ->)|[(err & Ee & ->)|(w & _ & ->)]]; [| |by apply Gen].
    + destruct Re as [Re|(x & Re & _)]; [|congruence]. rewrite Ea in Re.
      destruct (last _) as [e|] eqn:L; [|done]. cbn in Re. injection Re as ->. apply Gen; [done..|].
      intros f [= <-]. by rewrite <-Tb.
    + destruct (errors_is err ErrNotFound) eqn:Nf; [|by apply Gen].
      assert (last (sh_log (store l) (chat_of th)) = None) as L.
      { destruct Re as [Re|(x & Re & Nx)]; rewrite Ee in Re; [by destruct (last _)|].
        injection Re as <-. by rewrite Nf in Nx. }
      rewrite L in Tb. apply Gen; [done..|]. intros f [= <-]. by rewrite <-Tb.
  - apply call_store in A as [-> Cs]. change (ChatID (t_msg th)) with (chat_of th) in *.
    destruct (Bu e eq_refl) as (k & Lk & ->).
    set (es := sh_log (store l) (chat_of th)) in *.
    assert (length (take k es) = k) as Lt by (rewrite length_take; lia).
    destruct (sh_append (chat_of th) (new_entry (take k es) (t_msg th)) (store l) K F eq_refl) as (o & s' & E & K' & G);
      [cbn [Sequence new_entry]; fold es; rewrite Lt; lia|done|]. fold es in G. cbn [Sequence new_entry] in G. rewrite Lt in G.
    rewrite E in *. cbn [fst snd] in *.
    case_decide as Dk.
    + assert (take k es = es) as Te by (apply take_ge; lia). rewrite Te in *.
      destruct G as [[Re L]|[(x & -> & _) L]].
      * set (e := new_entry es (t_msg th)) in *.
        assert (forall f, entry_of p = Some f -> f = e) as Pe.
        { intros f Ef. destruct Cs as [(a & _ & ->)|[(err & _ & ->)|(w & _ & ->)]]; [|done..]. by injection Ef. }
        split; [done|right; by exists e|]. rewrite L, decide_True by done.
        split; [done|by destruct Cs as [(?&_&->)|[(?&_&->)|(?&_&->)]]..|].
        intros f Ef%Pe. subst f. cbn. split_and!; [done|lia|]. rewrite Nat2Z.id. by apply list_lookup_middle.
      * destruct Cs as [(a & Ea & _)|[(err & _ & ->)|(w & _ & ->)]]; [done|by apply Gen..].
    + destruct G as [Re L].
      destruct Cs as [(a & Ea & _)|[(err & _ & ->)|(w & _ & ->)]]; [|by apply Gen..].
      destruct Re as [Re|(x & Re & _)]; congruence.
  - apply call_broker in A as [-> Cs]. unfold after_publish in Cs.
    destruct Cs as [[a ->]|[[err ->]|[w ->]]]; try case_match; by apply Same.
  - apply call_store in A as [-> Cs]. destruct (sh_latest (ChatID (t_msg th)) (store l) K) as [K' L'].
    destruct Cs as [(a & _ & ->)|[(err & _ & ->)|(w & _ & ->)]]; try case_match; by apply Gen.
  - apply call_store in A as [-> Cs]. destruct (sh_since (ChatID (t_msg th)) from (store l) K) as [K' L'].
    destruct Cs as [(a & _ & ->)|[(err & _ & ->)|(w & _ & ->)]]; by apply Gen.
  - apply call_store in A as [-> Cs]. destruct (sh_save n (store l) K) as [K' L'].
    destruct Cs as [(a & _ & ->)|[(err & _ & ->)|(w & _ & ->)]]; by apply Gen.
  - apply call_cache in A as [-> Cs]. destruct Cs as [[a ->]|[[err ->]|[w ->]]]; by apply Same.
  - apply call_broker in A as [-> Cs]. destruct Cs as [[a ->]|[[err ->]|[w ->]]]; by apply Same.
  - injection A as <- <-. by apply Same.
  - done.
Qed.

(** *** Every step keeps it *)

Lemma node_moved w i n j th p c b k ij t : members w !! i = Some n -> m_calls n !! j = Some th ->
  call_at {| database := database w;
     members := <[i := {| m_cache := c; m_broker := b; m_locks := k; m_calls := <[j := at_phase p th]> (m_calls n) |}]>
                  (members w) |} ij t ->
  (ij = (i, j) /\ t = at_phase p th) \/ (ij <> (i, j) /\ call_at w ij t).
Proof.
  destruct ij as [i' j']. intros Ei Ej (m & Em & Et). cbn [fst snd members] in *.
  destruct (decide (i' = i)) as [->|Ni].
  - rewrite list_lookup_insert_eq in Em by by eapply lookup_lt_Some. injection Em as <-. cbn [m_calls] in Et.
    destruct (decide (j' = j)) as [->|Nj].
    + rewrite list_lookup_insert_eq in Et by by eapply lookup_lt_Some. injection Et as <-. by left.
    + rewrite list_lookup_insert_ne in Et by done. right. split; [congruence|by exists n].
  - rewrite list_lookup_insert_ne in Em by done. right. split; [congruence|by exists m].
Qed.

(** A step adds at most one entry to a chat. *)
Definition grown (w w' : nodes) : Prop := forall c, exists added,
  sh_log (database w') c = sh_log (database w) c ++ added /\ (length added <= 1)%nat.

Lemma grown_same w w' : database w' = database w -> grown w w'.
Proof. intros E c. exists []. rewrite E, app_nil_r. cbn. by split; [|lia]. Qed.

(** A call moves; the others, and the log, as [advanced] says. *)
Lemma nodes_moved w w' ij th p : nodes_ok w -> roomy w -> call_at w ij th ->
  advanced (database w) (database w') th p ->
  (forall kl t, call_at w' kl t -> (kl = ij /\ t = at_phase p th) \/ (kl <> ij /\ call_at w kl t)) ->
  nodes_ok w' /\ grown w w'.
Proof.
  intros [St T Ch Ca Di] Rm At [K L Cp] Mv.
  assert (grown w w') as Gr.
  { intros c. destruct L as [[L _]|(e & _ & _ & _ & L)]; rewrite L.
    - exists []. rewrite app_nil_r. cbn. by split; [|lia].
    - case_decide; [subst; by exists [e]|]. exists []. rewrite app_nil_r. cbn. by split; [|lia]. }
  split; [|done].
  assert (forall ij1 kl t1 t2 e1 e2, ij1 <> kl -> chat_of t1 = chat_of t2 ->
    ij1 = ij /\ t1 = at_phase p th -> kl <> ij /\ call_at w kl t2 ->
    entry_of (t_phase t1) = Some e1 -> entry_of (t_phase t2) = Some e2 -> Sequence e1 <> Sequence e2) as One.
  { intros ij1 kl t1 t2 e1 e2 N Ct [-> ->] [Nk At2] E1 E2. cbn [at_phase t_phase] in E1.
    destruct L as [[_ Old]|(e & _ & Ee & En & _)].
    - exact (Di ij kl th t2 e1 e2 At At2 N Ct (Old e1 E1) E2).
    - destruct (ca_kept _ _ (Ca kl t2 At2) e2 E2) as (_ & P & Lk%lookup_lt_Some).
      apply Ee in E1. rewrite E1, En. cbn [Sequence new_entry].
      change (chat_of (at_phase p th)) with (chat_of th) in Ct. rewrite <-Ct in Lk. lia. }
  split; [done| | | |].
  - intros c. destruct L as [[L _]|(e & Ph & _ & En & L)]; rewrite L; [done|]. case_decide; [|done]. subst c.
    apply chain_snoc. split; [done|]. rewrite En. pose proof (ca_accepted _ _ (Ca ij th At)) as Ac. rewrite Ph in Ac.
    apply andb_true_iff in Ac as [V Sg]. specialize (Rm (chat_of th)). apply new_entry_ok; [done..|lia].
  - intros c. destruct L as [[L _]|(e & _ & _ & En & L)]; rewrite L; [done|]. case_decide; [|done]. subst c.
    apply Forall_app. split; [done|]. constructor; [by rewrite En|constructor].
  - intros kl t [[-> ->]|[_ At2]]%Mv; [done|]. destruct (Gr (chat_of t)) as (a & -> & _). by apply call_inv_grows, (Ca kl).
  - intros kl mn t1 t2 e1 e2 [M1|M1]%Mv [M2|M2]%Mv N Ct E1 E2.
    + destruct M1 as [-> _], M2 as [-> _]. done.
    + by eapply (One kl mn).
    + exact (not_eq_sym (One mn kl t2 t1 e2 e1 (not_eq_sym N) (eq_sym Ct) M2 M1 E2 E1)).
    + destruct M1 as [_ M1], M2 as [_ M2]. by eapply (Di kl mn).
Qed.

Lemma nodes_step_ok w w' : nodes_ok w -> roomy w -> nodes_step w w' -> nodes_ok w' /\ grown w w'.
Proof.
  intros K Rm [i n j th p l Ei Ej A|i n c b Ei].
  - assert (call_at w (i, j) th) as At by by exists n. pose proof K as [St T _ Ca _].
    eapply (nodes_moved w _ (i, j) th p K Rm At); cbn [database].
    + exact (advance_shared _ th (view (database w) n) p l eq_refl St (T _) (Rm _) (Ca _ _ At) A).
    + intros kl t Ht. by eapply node_moved.
  - split; [|by apply grown_same]. destruct K as [St T Ch Ca Di].
    assert (forall kl t, call_at {| database := database w; members := <[i := {| m_cache := c; m_broker := b;
      m_locks := m_locks n; m_calls := m_calls n |}]> (members w) |} kl t -> call_at w kl t) as Same.
    { intros [i' j'] t (m & Em & Et). cbn [fst snd members] in *. destruct (decide (i' = i)) as [->|Ni].
      - rewrite list_lookup_insert_eq in Em by by eapply lookup_lt_Some. injection Em as <-. by exists n.
      - rewrite list_lookup_insert_ne in Em by done. by exists m. }
    split; [done..| |].
    + intros kl t Ht. apply (Ca kl), Same, Ht.
    + intros kl mn t1 t2 e1 e2 A1 A2. by eapply Di; apply Same.
Qed.

Lemma nodes_run_ok w w' : nodes_ok w -> nodes_run w w' ->
  nodes_ok w' /\ forall c, sh_log (database w) c `prefix_of` sh_log (database w') c.
Proof.
  intros K R. induction R as [w|w w1 w' [Rm St] _ IH]; [by split|].
  destruct (nodes_step_ok w w1 K Rm St) as [K1 P1]. destruct (IH K1) as [K2 P2]. split; [done|].
  intros c. etrans; [|apply P2]. destruct (P1 c) as (a & -> & _). by apply prefix_app_r.
Qed.

(** *** Schedules *)

(** Call [j] of node [i] takes its step, if it can; and a list of such turns. *)
Definition turn (w : nodes) (ij : nat * nat) : nodes :=
  match members w !! ij.1 with
  | None => w
  | Some n =>
      match m_calls n !! ij.2 with
      | None => w
      | Some th =>
          match advance (t_now th) (t_msg th) (t_phase th) (view (database w) n) with
          | None => w
          | Some (p, l) => {|
              database := store l;
              members := <[ij.1 := {| m_cache := cache l; m_broker := broker l; m_locks := locks l;
                                      m_calls := <[ij.2 := at_phase p th]> (m_calls n) |}]> (members w) |}
          end
      end
  end.
Definition interleave (order : list (nat * nat)) (w : nodes) : nodes := foldl turn w order.

Lemma turn_step w ij : turn w ij = w \/ nodes_step w (turn w ij).
Proof.
  unfold turn. destruct (members w !! ij.1) as [n|] eqn:En; [|by left].
  destruct (m_calls n !! ij.2) as [th|] eqn:Et; [|by left].
  destruct (advance _ _ _ _) as [[p l]|] eqn:A; [|by left]. right. by eapply node_advances.
Qed.

Lemma interleave_run order w : nodes_ok w ->
  (forall c, Z.of_nat (length (sh_log (database w) c)) + Z.of_nat (length order) < 2 ^ 63) ->
  nodes_run w (interleave order w).
Proof.
  revert w. induction order as [|ij order IH]; intros w K R; [constructor|]. cbn [interleave foldl].
  assert (roomy w) as Rm by (intros c; specialize (R c); cbn [length] in R; lia).
  destruct (turn_step w ij) as [E|St].
  - rewrite E. apply IH; [done|]. intros c. specialize (R c). cbn [length] in R. lia.
  - destruct (nodes_step_ok _ _ K Rm St) as [K' G]. eapply rtc_l; [split; [exact Rm|exact St]|]. apply IH; [done|].
    intros c. specialize (R c). cbn [length] in R. destruct (G c) as (a & -> & La). rewrite length_app. lia.
Qed.

(** Calls that are about to start, on a database that holds chains. *)
Record starting (w : nodes) : Prop := {
  sg_store : sh_ok (database w);
  sg_chain c : chain 0 GenesisHash (sh_log (database w) c);
  sg_chat c : Forall (fun e => ChatID (Message e) = c) (sh_log (database w) c);
  sg_calls ij th : call_at w ij th -> t_phase th = PStart /\ sh_fits (t_msg th);
}.

Lemma starting_ok w : starting w -> nodes_ok w.
Proof.
  intros [St T Ch Ca]. split; [done..| |].
  - intros ij th [P F]%Ca. split; rewrite ?P; done.
  - intros ij kl t1 t2 e1 e2 [P _]%Ca _ _ _ E. by rewrite P in E.
Qed.
End Nodes.

Section Theorems.
Context {S C B : Type} `{SH : SharedLaws S} `{Cache C} `{Broker B} `{HashFunction} `{Ed25519}.

(** C16: nodes that share a database keep one chain.  Any number of nodes, each
    with its own mutexes, run any calls of [Append] over one database, in any
    interleaving, whatever happens to their caches and brokers.  At every moment
    each chat is a hash chain from genesis of messages for that chat, which
    begins with everything that was there before; a message whose call has
    returned an entry is in the chain at the sequence of the entry, and no two
    calls have the same place.  Calls of the database may fail, with or without
    effect.  The messages are ones the database keeps: on ScyllaDB those with
    UTC times on whole milliseconds, as [NewMessage] makes them. *)
Theorem nodes_one_chain (w w' : nodes (S := S) (C := C) (B := B)) : starting w -> nodes_run w w' ->
  (forall c, chain 0 GenesisHash (sh_log (database w') c) /\
    Forall (fun e => ChatID (Message e) = c) (sh_log (database w') c) /\
    sh_log (database w) c `prefix_of` sh_log (database w') c) /\
  (forall ij th e, call_at w' ij th -> t_phase th = PDone (Ok e) ->
    Message e = t_msg th /\ sh_log (database w') (chat_of th) !! Z.to_nat (Sequence e) = Some e) /\
  (forall ij kl t1 t2 e1 e2, call_at w' ij t1 -> call_at w' kl t2 -> ij <> kl ->
    t_phase t1 = PDone (Ok e1) -> t_phase t2 = PDone (Ok e2) -> chat_of t1 = chat_of t2 -> Sequence e1 <> Sequence e2).
Proof.
  intros St R. destruct (nodes_run_ok w w' (starting_ok w St) R) as [[_ T Ch Ca Di] P].
  split; [intros c; split_and!; [apply T|apply Ch|apply P]|split].
  - intros ij th e At Ph. destruct (ca_kept _ _ (Ca ij th At) e) as (M & _ & L); [by rewrite Ph|by split].
  - intros ij kl t1 t2 e1 e2 A1 A2 N P1 P2 Ct. apply (Di ij kl t1 t2); try done; [by rewrite P1|by rewrite P2].
Qed.
End Theorems.

(** ** The race for a snapshot *)

Section Race.
Context {S C B : Type} `{SL : StorageLaws S} `{CA : CacheLaws C} `{BL : BrokerLaws B}.
Context `{HashFunction} `{Ed25519}.
Implicit Types l : Log S C B.

(** A call that runs while the others wait. *)
Definition advances (now : Time) (msg : SignedMessage) : relation (phase * Log S C B) :=
  fun a b => advance now msg a.1 a.2 = Some b.

(** *** From the start to the insert, and on *)

Lemma run_to_insert now msg l (c := ChatID msg) (e := new_entry (log_at l c) msg) : acceptable msg = true ->
  locks l !! c <> Some true -> chain 0 GenesisHash (log_at l c) -> Z.of_nat (length (log_at l c)) + 1 < 2 ^ 64 ->
  exists l', rtc (advances now msg) (PStart, l) (PPublish e, l') /\
    (forall d, log_at l' d = if decide (d = c) then log_at l c ++ [e] else log_at l d) /\
    (forall d, snaps_at l' d = snaps_at l d) /\ broker l' = broker l.
Proof.
  intros [V Sg]%andb_true_iff Lk T Rm.
  destruct (append_contiguous c e (store l)) as (s' & E & L & N); [done|].
  set (l1 := (chatLock c l).2). set (l2 := set_locks (<[c := true]> (locks l1)) l1).
  assert (store l1 = store l /\ broker l1 = broker l /\ locks l1 !! c <> Some true) as (S1 & B1 & K1).
  { unfold l1, chatLock, modify. cbn [snd]. destruct (locks l !! c) eqn:Q; [by rewrite Q|].
    cbn. by rewrite lookup_insert_eq. }
  assert (Lock c l1 = (Ok tt, l2)) as Lc.
  { unfold Lock. destruct (locks l1 !! c) as [[]|]; done. }
  exists (set_store s' l2). split; [|split; [intros d; apply L|split; [intros d; apply N|exact B1]]].
  eapply rtc_l; [unfold advances; cbn [fst snd advance]; rewrite V, Sg; reflexivity|]. fold c l1.
  eapply rtc_l; [unfold advances; cbn [fst snd advance]; fold c; rewrite Lc; reflexivity|].
  assert (advance now msg PTip l2 = Some (PStore e, l2)) as Tip.
  { cbn [advance]. fold c. unfold e. rewrite (tip_built _ _ T Rm). unfold log_at.
    assert (on_store (LastEntry c) l2 = (found (last (log_of (store l) c)), l2)) as R.
    { apply on_store_read. change (store l2) with (store l1). rewrite S1. apply last_entry. }
    destruct (last (log_of (store l) c)); unfold call; rewrite R; [done|]. cbn [found].
    by rewrite errors_is_not_found. }
  eapply rtc_l; [exact Tip|]. apply rtc_once. unfold advances. cbn [fst snd advance]. fold c. unfold call.
  assert (on_store (AppendEntry c e) l2 = (Ok tt, set_store s' l2)) as W; [|by rewrite W].
  apply on_store_run. change (store l2) with (store l1). by rewrite S1.
Qed.

Lemma run_publish now msg e l : broker_inv (broker l) ->
  exists b, advances now msg (PPublish e, l) (after_publish e, set_broker b l) /\ broker_inv b.
Proof. intros I. unfold advances. cbn [fst snd advance]. by apply call_publish. Qed.

(** The snapshot that is saved when the window is read with [es] in the log. *)
Definition late_snapshot (now : Time) (c : string) (ns : list MerkleSnapshot) (e : LogEntry) (es : list LogEntry)
    : MerkleSnapshot := {|
  snap_ChatID := c; SnapshotIndex := Z.of_nat (length ns); FromSequence := Z.of_nat (interval * length ns);
  ToSequence := Sequence e; MerkleRoot := Root (leaves_of (drop (interval * length ns) es));
  LastEntryHash := EntryHash e; CreatedAt := UTC now |}.

Lemma run_snapshot now msg e l (c := ChatID msg) es0 (ns := snaps_at l c)
    (n := late_snapshot now c ns e (log_at l c)) :
  snaps_ok c es0 ns -> Z.of_nat (length es0) + 1 < 2 ^ 64 -> broker_inv (broker l) ->
  exists l', rtc (advances now msg) (PLatest e, l) (PDone (Ok e), l') /\
    (forall d, log_at l' d = log_at l d) /\
    (forall d, snaps_at l' d = if decide (d = c) then ns ++ [n] else snaps_at l d).
Proof.
  intros Sn Rm I. destruct (save_snapshot n (store l)) as (s' & E & Ns & Ls).
  assert (advance now msg (PLatest e) l =
    Some (PWindow e (Z.of_nat (interval * length ns)) (Z.of_nat (length ns)), l)) as Lt.
  { cbn [advance]. fold c. unfold call.
    rewrite (on_store_read (LatestSnapshot c) l _ (latest_snapshot c (store l))). fold (snaps_at l c) ns.
    destruct (last ns) as [p|] eqn:L; cbn [found].
    - destruct (next_window c es0 ns p Sn Rm L) as [A1 A2]. by rewrite A1, A2.
    - rewrite errors_is_not_found. apply last_None in L. by rewrite L. }
  assert (advance now msg (PWindow e (Z.of_nat (interval * length ns)) (Z.of_nat (length ns))) l = Some (PSave e n, l)) as Wi.
  { cbn [advance]. fold c. unfold call.
    rewrite (on_store_read (EntriesSince c (Z.of_nat (interval * length ns))) l _ (entries_since c _ (store l) (Nat2Z.is_nonneg _))).
    by rewrite Nat2Z.id. }
  set (l1 := set_store s' l).
  assert (advance now msg (PSave e n) l = Some (PRoot e (MerkleRoot n), l1)) as Sa.
  { cbn [advance]. unfold call. by rewrite (on_store_run _ _ _ _ E). }
  set (l2 := set_cache (cached_all c [MerkleRoot n] (cache l1)) l1).
  destruct (call_publish (snapshot_event c e) (PUnlock (Ok e)) l2 I) as (b & Pu & _).
  eexists. split; [|split].
  - eapply rtc_l; [exact Lt|]. eapply rtc_l; [exact Wi|]. eapply rtc_l; [exact Sa|].
    eapply rtc_l; [unfold advances; cbn [fst snd advance]; unfold call; rewrite cache_set; reflexivity|].
    eapply rtc_l; [exact Pu|]. apply rtc_once. reflexivity.
  - intros d. apply Ls.
  - intros d. etrans; [apply Ns|]. cbn [snap_ChatID n late_snapshot]. by case_decide; [subst|].
Qed.

(** A node runs one of its calls while the others wait. *)
Lemma member_runs (w : nodes) i n j th p' l' : members w !! i = Some n -> m_calls n !! j = Some th ->
  rtc (advances (t_now th) (t_msg th)) (t_phase th, view (database w) n) (p', l') ->
  rtc nodes_step w {| database := store l';
    members := <[i := {| m_cache := cache l'; m_broker := broker l'; m_locks := locks l';
                         m_calls := <[j := at_phase p' th]> (m_calls n) |}]> (members w) |}.
Proof.
  intros Ei Ej R. remember (t_phase th, view (database w) n) as a eqn:Ea. remember (p', l') as b eqn:Eb.
  remember (t_now th) as now eqn:En. remember (t_msg th) as msg eqn:Em.
  revert w n th Ei Ej En Em Ea. induction R as [a|a [p l] b St _ IH]; intros w n th Ei Ej -> -> ->.
  - injection Eb as <- <-. assert (at_phase (t_phase th) th = th) as -> by by destruct th.
    rewrite (list_insert_id (m_calls n)) by done. cbn [view store cache broker locks].
    destruct w as [s ms], n as [c b k cs]. cbn [database members m_cache m_broker m_locks m_calls] in *.
    by rewrite list_insert_id.
  - eapply rtc_l; [by eapply node_advances|].
    pose proof (lookup_lt_Some _ _ _ Ei) as Li. pose proof (lookup_lt_Some _ _ _ Ej) as Lj.
    specialize (IH Eb {| database := store l; members := <[i := {| m_cache := cache l; m_broker := broker l;
      m_locks := locks l; m_calls := <[j := at_phase p th]> (m_calls n) |}]> (members w) |}
      {| m_cache := cache l; m_broker := broker l; m_locks := locks l; m_calls := <[j := at_phase p th]> (m_calls n) |}
      (at_phase p th)).
    cbn [members m_calls database] in IH. rewrite !list_insert_insert_eq in IH. apply IH; [by rewrite list_lookup_insert_eq|by rewrite list_lookup_insert_eq|done..|].
    unfold view. cbn. by destruct l.
Qed.

(** *** A window that is one too long *)

Lemma leaves_drop j es : leaves_of (drop j es) = drop j (leaves_of es).
Proof. unfold leaves_of. by rewrite List.skipn_map. Qed.

(** What is hashed for the chain, for the window, and on the path of the entry
    too much. *)
Definition race_bytes (j : nat) (es : list LogEntry) (e : LogEntry) : list (list byte) :=
  (tree_inputs (leaves_of (window j es)) ++
   proof_inputs (EntryHash e) (Proof (leaves_of (drop (interval * j) es)) 100).1) ++ log_bytes es.

Lemma late_root j es e : chain 0 GenesisHash es -> Forall (fun f => well_formed (Message f)) es ->
  length es = (interval * j + 101)%nat -> Z.of_nat (length es) < 2 ^ 64 -> last es = Some e ->
  Root (leaves_of (drop (interval * j) es)) = Root (leaves_of (window j es)) -> collides (race_bytes j es e).
Proof.
  intros T W Le R La E. rewrite last_lookup, Le in La. replace (pred (interval * j + 101)) with (interval * j + 100)%nat in La by lia.
  assert (leaves_of (drop (interval * j) es) !! 100%nat = Some (EntryHash e)) as L100.
  { unfold leaves_of. by rewrite list_lookup_fmap, lookup_drop, La. }
  assert (length (leaves_of (drop (interval * j) es)) = 101%nat) as Lm
    by (unfold leaves_of; rewrite length_map, length_drop, Le; lia).
  destruct (window_leaves_run j es) as [_ Lw]; [rewrite Le; unfold interval; lia|].
  destruct (Proof_spec (leaves_of (drop (interval * j) es)) 100 (EntryHash e) ltac:(lia) L100) as (p & Ep & V & D).
  rewrite Lm in D.
  unfold race_bytes. rewrite Ep. cbn [fst].
  assert (Forall node_hash (leaves_of (drop (interval * j) es))) as Nm.
  { pose proof (chain_nodes _ _ _ T) as N. rewrite leaves_drop. by apply Forall_drop. }
  destruct (run_proof_member (leaves_of (window j es))) with (leaf := EntryHash e) (p := p) as [M|Cl].
  - intros Nil. by rewrite Nil in Lw.
  - by eapply window_nodes.
  - rewrite <-(chain_hash _ _ _ T La). apply hexdigest_length.
  - change p with (p, Root (leaves_of (drop (interval * j) es))).1. rewrite <-Ep. by apply Proof_nodes.
  - by rewrite D, Lw.
  - by rewrite V.
  - apply window_member in M as (k & f & Hk & Lf & Ef). rewrite Forall_lookup in W.
    pose proof (chain_sequence es _ _ T ltac:(lia) La) as Qe. pose proof (chain_sequence es _ _ T ltac:(lia) Lf) as Qf.
    pose proof (lookup_lt_Some _ _ _ Lf). unfold interval in *.
    destruct (ComputeHash_binds_in (race_bytes j es e) f e) as [[Q _ _ _]|Cl]; [by eapply W|by eapply W| | | | | | |].
    + rewrite Qf. unfold is_u64. lia.
    + rewrite Qe. unfold is_u64. lia.
    + apply list_subseteq_app_r. by apply log_bytes_elem, (list_elem_of_lookup_2 _ _ _ Lf).
    + apply list_subseteq_app_r. by apply log_bytes_elem, (list_elem_of_lookup_2 _ _ _ La).
    + by rewrite (chain_hash _ _ _ T Lf), (chain_hash _ _ _ T La).
    + exfalso. rewrite Qf, Qe in Q. lia.
    + unfold race_bytes in Cl. unfold interval in Cl. by rewrite Ep in Cl.
  - destruct Cl as (x & y & X & Y & K). exists x, y. by split_and!; [apply elem_of_app; left..|].
Qed.

(** [ProveInclusion] of a message of that window. *)
Lemma prove_late c l j n q (es := log_at l c) : (interval * j + interval <= length es)%nat ->
  Z.of_nat (length es) < 2 ^ 63 -> snaps_at l c !! j = Some n ->
  FromSequence n = Z.of_nat (interval * j) -> ToSequence n = Z.of_nat (interval * j + 99) ->
  Root (leaves_of (window j es)) <> MerkleRoot n -> Z.of_nat (interval * j) <= q <= Z.of_nat (interval * j + 99) ->
  ProveInclusion c q l = (Err (New "recomputed root does not match snapshot"), l).
Proof.
  intros W R Hn Fr To Ne Q. unfold ProveInclusion.
  replace (q / SnapshotInterval) with (Z.of_nat j) by (unfold SnapshotInterval, interval in *; div_lia).
  erewrite bind_ok; [|apply try_ok, on_store_read; rewrite snapshot_at by lia; rewrite Nat2Z.id;
    unfold snaps_at in Hn; by rewrite Hn].
  cbv beta iota. rewrite Fr, To.
  erewrite bind_ok; [|apply on_store_read, entries_since; lia]. rewrite Nat2Z.id.
  change (log_of (store l) c) with es. cbn [elems].
  replace (Z.of_nat (interval * j + 99) - Z.of_nat (interval * j) + 1) with 100 by lia.
  change (u64 100) with 100. change (i64 100) with 100.
  rewrite (proj2 (Z.ltb_ge _ _)) by (rewrite length_drop; unfold interval in *; lia).
  destruct (window_leaves_run j es W) as [E1 L1]. erewrite bind_ok by by rewrite E1.
  assert (exists i, (i < interval)%nat /\ u64 (q - Z.of_nat (interval * j)) = Z.of_nat i) as (i & Hi & ->).
  { exists (Z.to_nat (q - Z.of_nat (interval * j))). unfold interval in *. split; [lia|].
    rewrite u64_id by (unfold is_u64; lia). lia. }
  rewrite i64_id by (unfold interval in *; lia).
  destruct (lookup_lt_is_Some_2 (leaves_of (window j es)) i) as [x Hx]; [by rewrite L1|].
  destruct (Proof_spec _ (Z.of_nat i) x ltac:(lia) ltac:(rewrite Nat2Z.id; exact Hx)) as (p & E2 & _).
  rewrite E2. by rewrite bool_decide_eq_false_2.
Qed.

(** *** Two nodes, one window *)

(** A node with a call of chat [c] about to start. *)
Record ready (w : nodes (S := S) (C := C) (B := B)) (c : string) (i : nat) (n : member (C := C) (B := B)) (j : nat) (th : thread) : Prop := {
  re_node : members w !! i = Some n;
  re_call : m_calls n !! j = Some th;
  re_start : t_phase th = PStart;
  re_chat : chat_of th = c;
  re_accepted : acceptable (t_msg th) = true;
  re_free : m_locks n !! c <> Some true;
  re_broker : broker_inv (m_broker n);
}.

(** Up to the insert. *)
Lemma ready_inserts w c i n j th (es := log_of (database w) c) : ready w c i n j th ->
  chain 0 GenesisHash es -> Z.of_nat (length es) + 1 < 2 ^ 64 ->
  exists w' n', rtc nodes_step w w' /\ members w' = <[i := n']> (members w) /\
    m_calls n' = <[j := at_phase (PPublish (new_entry es (t_msg th))) th]> (m_calls n) /\ m_broker n' = m_broker n /\
    log_of (database w') c = es ++ [new_entry es (t_msg th)] /\ snaps_of (database w') c = snaps_of (database w) c.
Proof.
  intros [Ei Ej Ph <- Ac Fr Br] T R.
  destruct (run_to_insert (t_now th) (t_msg th) (view (database w) n) Ac Fr T R) as (l' & Run & L & N & B').
  rewrite <-Ph in Run. pose proof (member_runs w i n j th _ l' Ei Ej Run) as St.
  eexists _, _. split; [exact St|]. split; [done|]. cbn [m_calls m_broker database].
  split; [done|]. split; [exact B'|]. split; [|apply N].
  specialize (L (chat_of th)). rewrite decide_True in L by done. exact L.
Qed.

(** From the publication on: with the snapshot, and without. *)
Lemma publishing_snapshots w c i n j th e es0 (ns := snaps_of (database w) c) :
  members w !! i = Some n -> m_calls n !! j = Some th -> t_phase th = PPublish e -> chat_of th = c ->
  broker_inv (m_broker n) -> after_publish e = PLatest e -> snaps_ok c es0 ns -> Z.of_nat (length es0) + 1 < 2 ^ 64 ->
  exists w' n', rtc nodes_step w w' /\ members w' = <[i := n']> (members w) /\
    m_calls n' = <[j := at_phase (PDone (Ok e)) th]> (m_calls n) /\
    log_of (database w') c = log_of (database w) c /\
    snaps_of (database w') c = ns ++ [late_snapshot (t_now th) c ns e (log_of (database w) c)].
Proof.
  intros Ei Ej Ph <- Br Af Sn R.
  destruct (run_publish (t_now th) (t_msg th) e (view (database w) n) Br) as (b & Pu & Br'). rewrite Af in Pu.
  destruct (run_snapshot (t_now th) (t_msg th) e (set_broker b (view (database w) n)) es0 Sn R Br') as (l' & Run & L & N).
  pose proof (rtc_l _ _ _ _ Pu Run) as Run'. rewrite <-Ph in Run'.
  pose proof (member_runs w i n j th _ l' Ei Ej Run') as St.
  eexists _, _. split; [exact St|]. split; [done|]. cbn [m_calls database].
  split; [done|]. split; [apply L|]. specialize (N (chat_of th)). rewrite decide_True in N by done. exact N.
Qed.

Lemma publishing_returns w i n j th e : members w !! i = Some n -> m_calls n !! j = Some th ->
  t_phase th = PPublish e -> broker_inv (m_broker n) -> after_publish e = PUnlock (Ok e) ->
  exists w' n', rtc nodes_step w w' /\ members w' = <[i := n']> (members w) /\
    m_calls n' = <[j := at_phase (PDone (Ok e)) th]> (m_calls n) /\ database w' = database w.
Proof.
  intros Ei Ej Ph Br Af.
  destruct (run_publish (t_now th) (t_msg th) e (view (database w) n) Br) as (b & Pu & _). rewrite Af in Pu.
  assert (rtc (advances (t_now th) (t_msg th)) (t_phase th, view (database w) n)
    (PDone (Ok e), Unlock (ChatID (t_msg th)) (set_broker b (view (database w) n)))) as Run
    by (rewrite Ph; eapply rtc_l; [exact Pu|by apply rtc_once]).
  pose proof (member_runs w i n j th _ _ Ei Ej Run) as St. eexists _, _. split; [exact St|]. done.
Qed.

Lemma after_last es msg (e := new_entry es msg) : Z.of_nat (length es) + 1 < 2 ^ 64 ->
  after_publish e = if decide ((length es + 1) mod interval = 0)%nat then PLatest e else PUnlock (Ok e).
Proof.
  intros R. unfold after_publish, e. rewrite due_test by done. unfold due. rewrite length_app. cbn [length].
  by case_decide; [rewrite bool_decide_eq_true_2|rewrite bool_decide_eq_false_2].
Qed.

Lemma accepted_chain es m : chain 0 GenesisHash es -> acceptable m = true -> Z.of_nat (length es) < 2 ^ 64 ->
  chain 0 GenesisHash (es ++ [new_entry es m]).
Proof. intros T [V Sg]%andb_true_iff R. apply chain_snoc. split; [done|by apply new_entry_ok]. Qed.

(** Both calls insert before either goes on. *)
Lemma both_inserted w c i1 n1 j1 th1 i2 n2 j2 th2 (es := log_of (database w) c) (e1 := new_entry es (t_msg th1))
    (e2 := new_entry (es ++ [e1]) (t_msg th2)) :
  ready w c i1 n1 j1 th1 -> ready w c i2 n2 j2 th2 -> i1 <> i2 -> chain 0 GenesisHash es -> Z.of_nat (length es) + 2 < 2 ^ 63 ->
  exists w' n1' n2', rtc nodes_step w w' /\ members w' !! i1 = Some n1' /\ members w' !! i2 = Some n2' /\
    m_calls n1' !! j1 = Some (at_phase (PPublish e1) th1) /\ m_calls n2' !! j2 = Some (at_phase (PPublish e2) th2) /\
    m_broker n1' = m_broker n1 /\ m_broker n2' = m_broker n2 /\
    log_of (database w') c = es ++ [e1; e2] /\ snaps_of (database w') c = snaps_of (database w) c.
Proof.
  intros R1 R2 Ni T Rm.
  destruct (ready_inserts w c i1 n1 j1 th1 R1 T) as (wa & na & Sa & Ma & Ca & Ba & La & Na); [fold es; lia|].
  fold es e1 in La, Ca.
  assert (chain 0 GenesisHash (es ++ [e1])) as T1 by (apply accepted_chain; [done|apply R1|lia]).
  assert (ready wa c i2 n2 j2 th2) as R2'.
  { destruct R2. split; try done. rewrite Ma. by rewrite list_lookup_insert_ne. }
  destruct (ready_inserts wa c i2 n2 j2 th2 R2') as (wb & nb & Sb & Mb & Cb & Bb & Lb & Nb);
    [by rewrite La|rewrite La, length_app; cbn [length]; lia|].
  rewrite La in Lb, Cb. fold e2 in Lb, Cb. rewrite <-(assoc_L (++)) in Lb. exists wb, na, nb. rewrite Mb, Ma. split_and!; try done.
  - by etrans.
  - rewrite list_lookup_insert_ne by done. apply list_lookup_insert_eq. by eapply lookup_lt_Some, re_node.
  - apply list_lookup_insert_eq. rewrite length_insert. by eapply lookup_lt_Some, re_node.
  - rewrite Ca. apply list_lookup_insert_eq. by eapply lookup_lt_Some, re_call.
  - rewrite Cb. apply list_lookup_insert_eq. by eapply lookup_lt_Some, re_call.
  - by rewrite Nb, Na.
Qed.

(** Then one makes the snapshot, and the other returns. *)
Lemma both_return w c i1 n1 j1 th1 e1 i2 n2 j2 th2 e2 es0 (ns := snaps_of (database w) c)
    (n := late_snapshot (t_now th1) c ns e1 (log_of (database w) c)) :
  members w !! i1 = Some n1 -> members w !! i2 = Some n2 -> i1 <> i2 ->
  m_calls n1 !! j1 = Some (at_phase (PPublish e1) th1) -> m_calls n2 !! j2 = Some (at_phase (PPublish e2) th2) ->
  chat_of th1 = c -> broker_inv (m_broker n1) -> broker_inv (m_broker n2) ->
  after_publish e1 = PLatest e1 -> after_publish e2 = PUnlock (Ok e2) ->
  snaps_ok c es0 ns -> Z.of_nat (length es0) + 1 < 2 ^ 64 ->
  exists w', rtc nodes_step w w' /\
    call_at w' (i1, j1) (at_phase (PDone (Ok e1)) th1) /\ call_at w' (i2, j2) (at_phase (PDone (Ok e2)) th2) /\
    log_of (database w') c = log_of (database w) c /\ snaps_of (database w') c = ns ++ [n].
Proof.
  intros E1 E2 Ni C1 C2 Ch B1 B2 A1 A2 Sn R.
  destruct (publishing_snapshots w c i1 n1 j1 _ e1 es0 E1 C1 eq_refl) as (wc & nc & Sc & Mc & Cc & Lc & Nc); try done.
  destruct (publishing_returns wc i2 n2 j2 (at_phase (PPublish e2) th2) e2) as (wd & nd & Sd & Md & Cd & Dd); try done.
  { by rewrite Mc, list_lookup_insert_ne by done. }
  exists wd. rewrite Dd. split_and!; try done; [by etrans| |].
  - exists nc. cbn [fst snd]. rewrite Md, Mc. split; [rewrite list_lookup_insert_ne by done; apply list_lookup_insert_eq;
      by eapply lookup_lt_Some|]. rewrite Cc. apply list_lookup_insert_eq. by eapply lookup_lt_Some.
  - exists nd. cbn [fst snd]. rewrite Md. split; [apply list_lookup_insert_eq, lookup_lt_is_Some; exists n2;
      by rewrite Mc, list_lookup_insert_ne by done|]. rewrite Cd. apply list_lookup_insert_eq. by eapply lookup_lt_Some.
Qed.

(** From then on, no proof for the window. *)
Lemma late_proofs at_ c j ns es e1 e2 l q more (es' := es ++ [e1; e2]) (n := late_snapshot at_ c ns e1 es') :
  j = length ns -> length es = (interval * j + 99)%nat -> Z.of_nat (length es) + 2 < 2 ^ 63 ->
  chain 0 GenesisHash es' -> Forall (fun e => well_formed (Message e)) es' ->
  Sequence e1 = Z.of_nat (interval * j + 99) ->
  log_at l c = es' ++ more -> Z.of_nat (length (log_at l c)) < 2 ^ 63 -> snaps_at l c !! j = Some n ->
  FromSequence n <= q <= ToSequence n ->
  ProveInclusion c q l = (Err (New "recomputed root does not match snapshot"), l) \/ collides (race_bytes j es' e2).
Proof.
  intros -> Le Rm T W Q1 Ll Lr Ln Q.
  assert (length es' = interval * length ns + 101)%nat as Le' by (unfold es'; rewrite length_app; cbn [length]; lia).
  destruct (decide (Root (leaves_of (window (length ns) es')) = MerkleRoot n)) as [E|Ne].
  - right. apply late_root; try done; [lia..|].
    + unfold es'. by rewrite last_app.
  - left. apply (prove_late c l (length ns) n); try done; [rewrite Ll, length_app, Le'; unfold interval; lia| |].
    + by rewrite Ll, window_app by (rewrite Le'; unfold interval; lia).
    + change (Z.of_nat (interval * length ns) <= q <= Sequence e1) in Q. lia.
Qed.

(** C17: nodes that share a database lose proofs.  Let a chat lack one entry to a
    full window, and two nodes, each with a call of [Append] for an acceptable
    message of the chat, share a database that keeps the whole contract of the
    port.  Then there is an interleaving in which both calls succeed and the
    chain is in order, but the snapshot of the window has the root of a window
    with one entry too many: [ProveInclusion] fails for each of the hundred
    messages the snapshot covers, on every node and from then on, unless the
    bytes hashed contain a collision. *)
Theorem snapshot_race w c i1 n1 j1 th1 i2 n2 j2 th2 (es := log_of (database w) c) (ns := snaps_of (database w) c) :
  ready w c i1 n1 j1 th1 -> ready w c i2 n2 j2 th2 -> i1 <> i2 ->
  chat_ok c es ns -> (length es mod 100 = 99)%nat -> Z.of_nat (length es) + 2 < 2 ^ 63 ->
  Forall (fun e => well_formed (Message e)) es -> well_formed (t_msg th1) -> well_formed (t_msg th2) ->
  exists w' e1 e2 n, rtc nodes_step w w' /\
    call_at w' (i1, j1) (at_phase (PDone (Ok e1)) th1) /\ call_at w' (i2, j2) (at_phase (PDone (Ok e2)) th2) /\
    log_of (database w') c = es ++ [e1; e2] /\ chain 0 GenesisHash (es ++ [e1; e2]) /\
    snaps_of (database w') c = ns ++ [n] /\ ToSequence n = Sequence e1 /\ FromSequence n = Sequence e1 - 99 /\
    forall l q more, log_at l c = (es ++ [e1; e2]) ++ more -> Z.of_nat (length (log_at l c)) < 2 ^ 63 ->
      snaps_at l c !! length ns = Some n ->
      FromSequence n <= q <= ToSequence n ->
      ProveInclusion c q l = (Err (New "recomputed root does not match snapshot"), l) \/
      collides (race_bytes (length ns) (es ++ [e1; e2]) e2).
Proof.
  intros R1 R2 Ni K Mo Rm We W1 W2. pose proof K as [T _ Sn _]. pose proof (sn_count _ _ _ Sn) as Nn.
  assert (length es = interval * length ns + 99)%nat as Le by (rewrite Nn; unfold interval; div_lia).
  destruct (both_inserted w c i1 n1 j1 th1 i2 n2 j2 th2 R1 R2 Ni T Rm) as (wb & na & nb & Sb & Eb1 & Eb2 & Ec1 & Ec2 & Ba & Bb & Lb & Nb).
  fold es in Ec1, Ec2, Lb. fold ns in Nb. set (e1 := new_entry es (t_msg th1)) in *. set (e2 := new_entry (es ++ [e1]) (t_msg th2)) in *.
  assert (length (es ++ [e1]) = length es + 1)%nat as Le1 by (by rewrite length_app).
  assert (chain 0 GenesisHash (es ++ [e1; e2])) as T2.
  { change [e1; e2] with ([e1] ++ [e2]). rewrite (assoc_L (++)).
    apply accepted_chain; [apply accepted_chain; [done|apply R1|lia]|apply R2|lia]. }
  destruct (both_return wb c i1 na j1 th1 e1 i2 nb j2 th2 e2 es) as (wd & Sd & Cd1 & Cd2 & Ld & Nd); try done.
  { apply R1. } { rewrite Ba. apply R1. } { rewrite Bb. apply R2. }
  { unfold e1. rewrite after_last by lia. rewrite decide_True; [done|]. unfold interval. div_lia. }
  { unfold e2. rewrite after_last by lia. rewrite decide_False; [done|]. rewrite Le1. unfold interval. div_lia. }
  { by rewrite Nb. } { lia. }
  rewrite Lb, Nb in *. exists wd, e1, e2, (late_snapshot (t_now th1) c ns e1 (es ++ [e1; e2])).
  assert (Sequence e1 = Z.of_nat (interval * length ns + 99)) as Q1 by (cbn [Sequence e1 new_entry]; by rewrite Le).
  split_and!; try done; [by etrans|change (Z.of_nat (interval * length ns) = Sequence e1 - 99); rewrite Q1; lia|].
  intros l q more Ll Lr Ln Q. eapply late_proofs; try done.
  apply Forall_app. split; [done|]. by constructor; [exact W1|constructor; [exact W2|constructor]].
Qed.
End Race.

(** ** Two nodes *)

Module NodesSample.
Import LogSample.

Definition node (m : SignedMessage) : member (C := InMemoryCache) (B := InMemoryBroker) := {|
  m_cache := NewInMemoryCache ∅; m_broker := NewInMemoryBroker; m_locks := ∅;
  m_calls := [{| t_now := epoch; t_msg := m; t_phase := PStart |}] |}.

(** Over ScyllaDB's tables, both with a message for the same empty chat; the
    answer to the first insert is lost. *)
Definition cluster : nodes (S := Flaky (Scylla (D := ClusterSample.tables))) :=
  {| database := MkFlaky ClusterSample.empty [Fine; Fine; Late]; members := [node (signed "c" 0); node (signed "c" 1)] |}.

(** Both read the tip before either inserts; the first is faster. *)
Definition overtaken : list (nat * nat) := [(0, 0); (1, 0); (0, 0); (1, 0); (0, 0); (1, 0); (0, 0); (1, 0); (1, 0); (0, 0); (0, 0)]%nat.
Definition final := interleave overtaken cluster.

Definition outcomes (w : nodes (S := Flaky (Scylla (D := ClusterSample.tables))) (C := InMemoryCache) (B := InMemoryBroker))
    : list (option (Z + error)) :=
  map (fun th => match t_phase th with PDone (Ok e) => Some (inl (Sequence e)) | PDone (Err x) => Some (inr x) | _ => None end)
    (members w ≫= m_calls).

Lemma cluster_starting : starting cluster.
Proof.
  split; [|constructor|constructor|].
  - intros c. split; [exact table_of_nil|]. by split.
  - intros [[|[|i]] [|j]] th (n & En & Et); cbn in En; simplify_eq; cbn in Et; simplify_eq; (split; [done|]);
      apply ScyllaLogSample.signed_storable.
Qed.

(** Two nodes over a store with [n] messages, each with one more. *)
Definition pair (n : nat) : nodes (S := InMemoryStorage) :=
  {| database := store (after "c" n); members := [node (signed "c" n); node (signed "c" (n + 1))] |}.
End NodesSample.

Section Witnesses.
Import LogSample NodesSample.
#[local] Opaque after signed.

Lemma nodes_one_chain_witness :
  outcomes final = [Some (inr (Wrapf "append" no_response)); Some (inr (Wrapf "append" ErrSequenceGap))] /\
  length (sh_log (database final) "c") = 1%nat /\ chain 0 GenesisHash (sh_log (database final) "c").
Proof.
  split; [vm_compute; reflexivity|]. split; [vm_compute; reflexivity|].
  destruct (nodes_one_chain cluster final cluster_starting) as [Chains _].
  - apply interleave_run; [apply starting_ok, cluster_starting|]. intros c. change (sh_log (database cluster) c) with (@nil LogEntry). cbn. lia.
  - apply (Chains "c"%string).
Defined.

Lemma snapshot_race_witness : exists w' e1 e2, rtc nodes_step (pair 99) w' /\
  log_of (database w') "c" = log_of (database (pair 99)) "c" ++ [e1; e2] /\ length (snaps_of (database w') "c") = 1%nat.
Proof.
  generalize (after_ok "c" 99 eq_refl) (after_length "c" 99 eq_refl) (after_snaps "c" 99 eq_refl)
    (after_well_formed "c" 99 eq_refl eq_refl). unfold pair. generalize (after "c" 99). intros l K L N W.
  pose proof (fun n => signed_chat "c" n) as Cm. pose proof (fun n => signed_acceptable "c" n) as A.
  pose proof (fun n => signed_well_formed "c" n eq_refl) as Wf.
  assert (forall i n, [node (signed "c" 99); node (signed "c" 100)] !! i = Some (node (signed "c" n)) ->
    ready {| database := store l; members := [node (signed "c" 99); node (signed "c" 100)] |} "c" i (node (signed "c" n)) 0
      {| t_now := epoch; t_msg := signed "c" n; t_phase := PStart |}) as Re.
  { intros i n Ei. split; [exact Ei|done|done|apply Cm|apply A|done|apply broker_ok_new]. }
  destruct (snapshot_race _ "c" 0 _ 0 _ 1 _ 0 _ (Re 0%nat 99%nat eq_refl) (Re 1%nat 100%nat eq_refl))
    as (w' & e1 & e2 & n & R & _ & _ & Lw & _ & Nw & _); [done|exact (lo_chats _ K "c"%string)|change (log_of (database _) "c") with (log_at l "c"); by rewrite L..|
      exact W|apply Wf|apply Wf|].
  exists w', e1, e2. split; [exact R|]. split; [exact Lw|]. rewrite Nw, length_app.
  change (snaps_of (database _) "c") with (snaps_at l "c"). by rewrite N.
Defined.
End Witnesses.
