(* ===== verification/Interleaved.v ===== *)
(** * Interleaved: what readers see while appends are under way

    Every reading call but [Sync] is as good as atomic: its answer is that of the
    operation at one moment between its start and its return.  [Sync] is not;
    what its bundle still guarantees, and an interleaving in which its parts are
    of different moments.  And no reader is ever told of tampering, waits, or
    takes more than three port calls, however the appends go. *)
From S2P Require Import Prelude Codec JsonText GoTime Sha256 Models Merkle Crypto Storage Cache Broker Chatlog LogFacts LogReads LogContract Concurrency Readings Nodes.

(** ** One moment for all port calls *)

(** An answer that stays the same when the log grows. *)
Definition lasting {X : Set} (p : port_read X) (x : X + error) : Prop :=
  match p, x with
  | ReadEntry _ _, inl _ | ReadSnapshot _ _, inl _ => True
  | _, _ => False
  end.

Definition returned_reading {A} (r : reading A) : bool := match r with Return _ => true | Ask _ _ => false end.

(** All answers but the last are lasting. *)
Fixpoint linear {A} (r : reading A) : Prop :=
  match r with
  | Return _ => True
  | Ask p k => forall x, returned_reading (k x) = true \/ (lasting p x /\ linear (k x))
  end.

Definition is_sync (q : query) : bool := match q with QSync _ => true | _ => false end.

Lemma reading_linear `{HashFunction} `{Ed25519} q : is_sync q = false -> linear (reading_of q).
Proof.
  destruct q as [c from limit|c n|c n|c|c n|c]; intros Q; try done; cbn; intros x.
  - left. by destruct x.
  - left. by destruct x.
  - destruct x as [e|]; [|by left]. cbn. destruct (negb _); [by left|]. destruct (negb _); [by left|].
    destruct (negb _); [by left|]. cbn. destruct (0 <? n); cbn; [|by left]. right. split; [done|].
    intros [p|]; by left.
  - left. by destruct x.
  - destruct x as [snap|err]; [|by left]. right. split; [done|]. cbn. intros [w|]; left; [|done]. cbn.
    by destruct (inclusion _ _ _ _).
Qed.

Section Linear.
Context {S C B : Type} `{SL : StorageLaws S} `{CL : CacheLaws C} `{BL : BrokerLaws B}.
Context `{HashFunction} `{Ed25519}.
Implicit Types l : Log S C B.
Implicit Types w : @world S C B.

Lemma grows_lookup l l' c k e : grows l l' -> log_at l c !! k = Some e -> log_at l' c !! k = Some e.
Proof. intros [L _]. destruct (L c) as [a ->]. by apply lookup_app_l_Some. Qed.

Lemma grows_snapshot l l' c k n : grows l l' -> snaps_at l c !! k = Some n -> snaps_at l' c !! k = Some n.
Proof. intros [_ N]. destruct (N c) as [a ->]. by apply lookup_app_l_Some. Qed.

Lemma lasting_grows {X : Set} (p : port_read X) l l' a : port_ok p -> lasting p (inl a) -> grows l l' ->
  ask p l = (Ok a, l) -> ask p l' = (Ok a, l').
Proof.
  intros P La G As. destruct p as [|c n| | |c i]; try done; cbn [ask] in *; unfold on_store, zoom in As.
  - rewrite entry_at in As by done. apply on_store_read. rewrite entry_at by done.
    destruct (log_of (store l) c !! Z.to_nat n) as [e|] eqn:L; [|done]. injection As as <-.
    by rewrite (grows_lookup _ _ _ _ _ G L : log_of (store l') c !! _ = _).
  - rewrite snapshot_at in As by done. apply on_store_read. rewrite snapshot_at by done.
    destruct (snaps_of (store l) c !! Z.to_nat i) as [e|] eqn:L; [|done]. injection As as <-.
    by rewrite (grows_snapshot _ _ _ _ _ G L : snaps_of (store l') c !! _ = _).
Qed.

(** From [l] on, [r0] run at once goes through [r]. *)
Definition pinned {A} (r0 r : reading A) l : Prop := forall l', grows l l' -> at_once r0 l' = at_once r l'.

Lemma pinned_grows {A} (r0 r : reading A) l l' : grows l l' -> pinned r0 r l -> pinned r0 r l'.
Proof. intros G P l2 G2. apply P. by etrans. Qed.

Lemma pinned_step {A} {X : Set} (r0 : reading A) (p : port_read X) k l a : port_ok p -> lasting p (inl a) ->
  ask p l = (Ok a, l) -> pinned r0 (Ask p k) l -> pinned r0 (k (inl a)) l.
Proof.
  intros P La As Pi l' G. rewrite (Pi l' G). apply at_once_step. cbn. by rewrite (lasting_grows p l l' a).
Qed.

(** *** A reader in a run *)

Section Tracking.
Context {A T : Type} (next : relation T) (com : T -> Log S C B).
Implicit Types r : reading A.

(** A reading [r0] begun at [t0]: its result is of a moment since, or is still open. *)
Definition tracked (r0 : reading A) (t0 t : T) (r : reading A) : Prop :=
  match r with
  | Return o => exists tm, rtc next t0 tm /\ rtc next tm t /\ at_once r0 (com tm) = (o, com tm)
  | Ask _ _ => linear r /\ pinned r0 r (com t)
  end.

Lemma tracked_start r0 t0 t : rtc next t0 t -> linear r0 -> tracked r0 t0 t r0.
Proof. intros R Li. destruct r0 as [o|X p k]; [by exists t|]. split; [done|]. by intros l G. Qed.

Lemma tracked_grows r0 t0 t t' r : next t t' -> grows (com t) (com t') -> tracked r0 t0 t r -> tracked r0 t0 t' r.
Proof.
  intros St G. destruct r as [o|X p k]; cbn.
  - intros (tm & R0 & R1 & E). exists tm. split_and!; [done|by eapply rtc_r|done].
  - intros [Li Pi]. split; [done|by eapply pinned_grows].
Qed.

Lemma tracked_step r0 t0 t n r r' l : rtc next t0 t -> (forall c, sealed c (log_at (com t) c) (snaps_at (com t) c)) ->
  within n r -> read_step r (com t) = Some (r', l) -> tracked r0 t0 t r -> tracked r0 t0 t r'.
Proof.
  intros R0 Se W St Tr. destruct r as [o|X p k]; [done|]. destruct Tr as [Li Pi].
  pose proof (at_once_step _ _ _ _ St) as Once. rewrite <-(Pi (com t)) in Once by done.
  destruct (within_step n _ _ Se W) as (x & E & N & _ & _).
  rewrite N in St. injection St as <- <-. specialize (Li x).
  assert (returned_reading (k x) = false -> linear (k x) /\ pinned r0 (k x) (com t)) as Go.
  { intros Nr. destruct Li as [|[La Li]]; [congruence|]. split; [done|]. destruct x as [a|err]; [|by destruct p].
    destruct n as [|n]; [by destruct W|]. by apply (pinned_step _ p); [apply W| | |]. }
  destruct (k x) as [o|Y p' k']; [|by apply Go]. exists t. split_and!; [done..|]. by rewrite Once.
Qed.
End Tracking.

Lemma tracked_world q w0 w w' i r : world_ok w -> rtc world_step w0 w -> world_step w w' ->
  asking w !! i = Some r -> tracked world_step common (reading_of q) w0 w r -> exists r', asking w' !! i = Some r' /\ tracked world_step common (reading_of q) w0 w' r'.
Proof.
  intros K R0 St E T. destruct (world_step_ok w w' K St) as [_ G].
  destruct St as [s St|j r1 r' l Ej Rs].
  - exists r. split; [done|]. eapply tracked_grows; [by apply world_call|done..].
  - assert (world_step w {| calling := {| shared := l; threads := threads (calling w) |}; asking := <[j := r']> (asking w) |})
      as St by by econstructor.
    destruct (decide (j = i)) as [->|Ne]; cbn [asking].
    + simplify_eq. exists r'. rewrite list_lookup_insert_eq by by eapply lookup_lt_Some. split; [done|].
      eapply tracked_grows; [exact St|done|].
      eapply tracked_step; [done|intros c; by apply world_sealed| |done..]. destruct K as [_ F]. by eapply Forall_lookup_1.
    + exists r. rewrite list_lookup_insert_ne by done. split; [done|]. by eapply tracked_grows.
Qed.

Lemma tracked_run q w0 w i r : world_ok w0 -> asking w0 !! i = Some r -> tracked world_step common (reading_of q) w0 w0 r ->
  rtc world_step w0 w -> exists r', asking w !! i = Some r' /\ tracked world_step common (reading_of q) w0 w r'.
Proof.
  intros K E T R. revert w R. apply rtc_ind_r; [by exists r|]. intros w w' R St IH.
  destruct IH as (r1 & E1 & T1). eapply tracked_world; [|done..]. by destruct (world_run_ok w0 w K R).
Qed.

End Linear.

(** ** What a reader is told *)

Section Truth.
Context {S C B : Type} `{SL : StorageLaws S} `{CL : CacheLaws C} `{BL : BrokerLaws B}.
Context `{HashFunction} `{Ed25519}.
Implicit Types l : Log S C B.
Implicit Types w : @world S C B.

(** [sn] is a snapshot of the chat, or none, and covers the first [from] entries. *)
Definition starts (c : string) (es : list LogEntry) (sn : option MerkleSnapshot) (from : nat) : Prop :=
  match sn with
  | Some n => exists k, snap_ok c es k n /\ from = (interval * k + interval)%nat
  | None => from = 0%nat
  end.

(** A bundle whose snapshot covers [from] entries, whose entries go up to [n]
    and whose hash is that of the log when it had [m]. *)
Record bundle_of (c : string) (es : list LogEntry) (b : SyncBundle) (from n m : nat) : Prop := {
  bo_snapshot : starts c es (Snapshot b) from;
  bo_order : (from <= n <= m)%nat;
  bo_length : (m <= length es)%nat;
  bo_entries : NewEntries b = made (drop from (take n es));
  bo_hash : CurrentHash b = tip_hash (take m es);
}.

(** The answers that fit the log [l], or what it was before. *)
Definition truthful (q : query) (o : outcome answer) l : Prop :=
  match q with
  | QHistory c from limit => exists n, (n <= length (log_at l c))%nat /\
      o = Ok (AHistory (made (capped limit (drop (Z.to_nat from) (take n (log_at l c))))))
  | QEntry c k => o = Err ErrNotFound \/ exists e, log_at l c !! Z.to_nat k = Some e /\ o = Ok (AEntry e)
  | QVerifyEntry c k => o = Err ErrNotFound \/ k < Z.of_nat (length (log_at l c)) /\
      o = Ok (AVerifyEntry {| mv_Sequence := k; mv_Valid := true; mv_Reason := "" |})
  | QVerify c => exists n, (n <= length (log_at l c))%nat /\
      o = Ok (AVerify {| vr_Valid := true; vr_Entries := Z.of_nat n; vr_Reason := "" |})
  | QProve c k => o = Err ErrNotSnapshotted \/ exists e n p,
      log_at l c !! Z.to_nat k = Some e /\ snaps_at l c !! Z.to_nat (k / 100) = Some n /\
      o = Ok (AProve {| ip_ChatID := c; ip_Sequence := k; ip_EntryHash := EntryHash e; ip_SnapshotIndex := k / 100;
                        ip_MerkleRoot := MerkleRoot n; ip_Proof := p |}) /\
      VerifyProof (EntryHash e) p (MerkleRoot n) = true
  | QSync c => exists b from n m, o = Ok (ASync b) /\ bundle_of c (log_at l c) b from n m
  end.

Lemma snap_ok_grows c es es' k n : es `prefix_of` es' -> snap_ok c es k n -> snap_ok c es' k n.
Proof.
  intros [fs ->] K. apply snap_ok_app; [|done]. destruct (so_last _ _ _ _ K) as (e & L & _).
  apply lookup_lt_Some in L. unfold interval in *. lia.
Qed.

Lemma starts_grows c es es' sn from : es `prefix_of` es' -> starts c es sn from -> starts c es' sn from.
Proof. intros P. destruct sn as [n|]; [|done]. intros (k & K & ->). exists k. split; [by eapply snap_ok_grows|done]. Qed.

Lemma take_prefix {A} (l l' : list A) n : l `prefix_of` l' -> (n <= length l)%nat -> take n l' = take n l.
Proof. intros [k ->] L. by apply take_app_le. Qed.

Lemma truthful_grows q o l l' : grows l l' -> truthful q o l -> truthful q o l'.
Proof.
  intros G. pose proof (fun c => prefix_length _ _ (gr_log _ _ G c)) as Le.
  destruct q as [c from limit|c n|c n|c|c n|c]; cbn.
  - intros (n & Ln & ->). exists n. specialize (Le c). split; [lia|]. by rewrite (take_prefix _ _ _ (gr_log _ _ G c)).
  - intros [?|(e & L & ?)]; [by left|right]. exists e. split; [by eapply grows_lookup|done].
  - intros [?|[L ?]]; [by left|right]. specialize (Le c). split; [lia|done].
  - intros (n & Ln & ->). exists n. specialize (Le c). split; [lia|done].
  - intros [?|(e & s & p & L & N & ? & ?)]; [by left|right]. exists e, s, p.
    split_and!; [by eapply grows_lookup|by eapply grows_snapshot|done|done].
  - intros (b & from & n & m & -> & [St Or Lm En Ha]). exists b, from, n, m. specialize (Le c). pose proof (gr_log _ _ G c).
    split; [done|]. split; [by eapply starts_grows|done|lia| |]; rewrite (take_prefix _ _ _ (gr_log _ _ G c)) by lia; done.
Qed.

Lemma truthful_once q o l : asked_ok q -> is_sync q = false -> (forall c, sealed c (log_at l c) (snaps_at l c)) ->
  perform q l = (o, l) -> truthful q o l.
Proof.
  intros Q Sy Se E. destruct q as [c from limit|c n|c n|c|c n|c]; try done;
    cbn [asked_ok perform] in Q, E; cbn [truthful]; pose proof (Se c) as [T Each R].
  - rewrite (bind_ok _ _ _ _ _ (History_run c from limit l Q)) in E. injection E as <-.
    exists (length (log_at l c)). split; [done|]. by rewrite firstn_all.
  - unfold LogEntryAt in E. unfold mbind, M_bind in E. unfold on_store, zoom in E. rewrite entry_at in E by done.
    change (log_of (store l) c) with (log_at l c) in E.
    destruct (log_at l c !! Z.to_nat n) as [e|]; injection E as <-; [right; by exists e|by left].
  - destruct (Z.ltb_spec n (Z.of_nat (length (log_at l c)))) as [Lt|Ge].
    + destruct (lookup_lt_is_Some_2 (log_at l c) (Z.to_nat n)) as [e L]; [lia|].
      destruct (VerifyEntry_run c l (Z.to_nat n) e L R) as (r & Ev & Sq & Va & Re). rewrite Z2Nat.id in Ev, Sq by done.
      rewrite (bind_ok _ _ _ _ _ Ev) in E. injection E as <-. right. split; [done|].
      assert (mv_Valid r = true) as V by (apply Va; by apply chain_checks with (k := Z.to_nat n); [lia| |]).
      pose proof (proj2 Re V) as Rr. destruct r; cbn in *; by subst.
    + rewrite (bind_err _ _ _ _ _ (VerifyEntry_missing c l n Ge)) in E. injection E as <-. by left.
  - rewrite (bind_ok _ _ _ _ _ (VerifyChain_chain c l T)) in E. injection E as <-.
    exists (length (log_at l c)). split; [done|]. by rewrite u64_id by (unfold is_u64; lia).
  - destruct (snaps_at l c !! Z.to_nat (n / 100)) as [s|] eqn:N.
    + right. assert (Z.to_nat (n / 100) = Z.to_nat n / interval)%nat as J by (unfold interval; div_lia). rewrite J in N.
      destruct (so_last _ _ _ _ (Each _ _ N)) as (x & Lx & _). apply lookup_lt_Some in Lx.
      destruct (lookup_lt_is_Some_2 (log_at l c) (Z.to_nat n)) as [e L]; [unfold interval in *; div_lia|].
      destruct (prove_sealed c (Z.to_nat n) l e s (Se c) L N) as (p & P & V & _). rewrite Z2Nat.id in P by done.
      rewrite (bind_ok _ _ _ _ _ P) in E. apply (f_equal fst) in E.
      unfold mret, M_ret in E. cbn [fst] in E. rewrite <-E. exists e, s, p.
      rewrite (so_root _ _ _ _ (Each _ _ N)). split_and!; try done.
      by replace (Z.of_nat (Z.to_nat n / interval)) with (n / 100) by (unfold interval; div_lia).
    + rewrite (bind_err _ _ _ _ _ (prove_unsealed c n l Q N)) in E. injection E as <-. by left.
Qed.

(** *** The three port calls of [Sync] *)

(** After the first, and after the second. *)
Definition sync_rest (c : string) (sn : option MerkleSnapshot) (from : Z) : reading answer :=
  (es ← need (ReadSince c from);
   r ← attempt (ReadLast c);
   hash ← Return match r with
                 | inl last => Ok (EntryHash last)
                 | inr err => if errors_is err ErrNotFound then Ok GenesisHash else Err err
                 end;
   mret {| Snapshot := sn; NewEntries := es; CurrentHash := hash |}) ≫= fun b => mret (ASync b).

Definition sync_end (c : string) (sn : option MerkleSnapshot) (es : Slice LogEntry) : reading answer :=
  (r ← attempt (ReadLast c);
   hash ← Return match r with
                 | inl last => Ok (EntryHash last)
                 | inr err => if errors_is err ErrNotFound then Ok GenesisHash else Err err
                 end;
   mret {| Snapshot := sn; NewEntries := es; CurrentHash := hash |}) ≫= fun b => mret (ASync b).

Definition sync_state (c : string) l (r : reading answer) : Prop :=
  r = reading_of (QSync c) \/
  (exists sn from, starts c (log_at l c) sn from /\ (from <= length (log_at l c))%nat /\ r = sync_rest c sn (Z.of_nat from)) \/
  (exists sn from n, starts c (log_at l c) sn from /\ (from <= n <= length (log_at l c))%nat /\
    r = sync_end c sn (made (drop from (take n (log_at l c))))) \/
  (exists o, r = Return o /\ truthful (QSync c) o l).

Lemma sync_grows c l l' r : grows l l' -> sync_state c l r -> sync_state c l' r.
Proof.
  intros G. pose proof (gr_log _ _ G c) as P. pose proof (prefix_length _ _ P) as Le.
  intros [?|[(sn & from & St & L & ->)|[(sn & from & n & St & L & ->)|(o & -> & T)]]].
  - by left.
  - right. left. exists sn, from. split; [by eapply starts_grows|]. split; [lia|done].
  - right. right. left. exists sn, from, n. split; [by eapply starts_grows|]. split; [lia|].
    by rewrite (take_prefix _ _ _ P) by lia.
  - right. right. right. exists o. split; [done|by eapply truthful_grows].
Qed.

Lemma ask_latest c l : ask (ReadLatest c) l = (found (last (snaps_at l c)), l).
Proof. apply on_store_read, latest_snapshot. Qed.
Lemma ask_since c n l : ask (ReadSince c (Z.of_nat n)) l = (Ok (made (drop n (log_at l c))), l).
Proof. apply on_store_read. rewrite entries_since by lia. by rewrite Nat2Z.id. Qed.
Lemma ask_last c l : ask (ReadLast c) l = (found (last (log_at l c)), l).
Proof. apply on_store_read, last_entry. Qed.

(** One step of it, by the answer. *)
Lemma step_asked {A} {X : Set} (p : port_read X) (k : X + error -> reading A) l x :
  ask p l = (given x, l) -> read_step (Ask p k) l = Some (k x, l).
Proof. intros E. cbn. rewrite E. by destruct x. Qed.

Lemma sync_first c l : sealed c (log_at l c) (snaps_at l c) ->
  exists r, read_step (reading_of (QSync c)) l = Some (r, l) /\ sync_state c l r.
Proof.
  intros [_ Each R]. pose proof (ask_latest c l) as E. destruct (last (snaps_at l c)) as [n|] eqn:L.
  - rewrite last_lookup in L. pose proof (Each _ _ L) as Kn. pose proof Kn as [_ _ _ To _ (x & Lx & _)].
    apply lookup_lt_Some in Lx. set (k := pred (length (snaps_at l c))) in *.
    eexists. split; [by apply (step_asked _ _ l (inl n))|]. right. left. exists (Some n), (interval * k + interval)%nat.
    split; [by exists k|]. split; [unfold interval in *; lia|].
    rewrite <-(u64_id (Z.of_nat (interval * k + interval))) by (unfold is_u64, interval in *; lia).
    replace (Z.of_nat (interval * k + interval)) with (ToSequence n + 1) by (rewrite To; unfold interval; lia). done.
  - eexists. split; [by apply (step_asked _ _ l (inr ErrNotFound))|]. right. left. exists None, 0%nat.
    split_and!; [done|lia|done].
Qed.

Lemma sync_second c l sn from : starts c (log_at l c) sn from -> (from <= length (log_at l c))%nat ->
  exists r, read_step (sync_rest c sn (Z.of_nat from)) l = Some (r, l) /\ sync_state c l r.
Proof.
  intros St L. eexists. split; [by apply (step_asked _ _ l (inl (made (drop from (log_at l c))))), ask_since|].
  right. right. left. exists sn, from, (length (log_at l c)). split_and!; [done|lia|lia|]. by rewrite firstn_all.
Qed.

Lemma sync_third c l sn from n : starts c (log_at l c) sn from -> (from <= n <= length (log_at l c))%nat ->
  exists r, read_step (sync_end c sn (made (drop from (take n (log_at l c))))) l = Some (r, l) /\ sync_state c l r.
Proof.
  intros St L. assert (exists x, found (last (log_at l c)) = given x /\
    match x with inl e => EntryHash e = tip_hash (log_at l c) | inr err => err = ErrNotFound /\ log_at l c = [] end) as (x & Ex & Hx).
  { unfold tip_hash, tip_from. destruct (last (log_at l c)) as [e|] eqn:La; [by exists (inl e)|].
    exists (inr ErrNotFound). split; [done|]. split; [done|by apply last_None]. }
  eexists. split; [apply (step_asked _ _ l x); by rewrite ask_last, Ex|]. right. right. right.
  destruct x as [e|err].
  - eexists. split; [done|]. eexists _, from, n, (length (log_at l c)). split; [done|].
    split; [done|lia|lia|done|]. cbn [CurrentHash]. by rewrite firstn_all.
  - destruct Hx as [-> Nil]. eexists. split; [done|]. eexists _, from, n, (length (log_at l c)). split; [done|].
    split; [done|lia|lia|done|]. cbn [CurrentHash]. by rewrite firstn_all, Nil.
Qed.

Lemma sync_step c l r r' l' : sealed c (log_at l c) (snaps_at l c) -> sync_state c l r ->
  read_step r l = Some (r', l') -> sync_state c l r'.
Proof.
  intros Se [->|[(sn & from & St & L & ->)|[(sn & from & n & St & L & ->)|(o & -> & T)]]] E; [..|done].
  - destruct (sync_first c l Se) as (r1 & E1 & K). by simplify_eq.
  - destruct (sync_second c l sn from St L) as (r1 & E1 & K). by simplify_eq.
  - destruct (sync_third c l sn from n St L) as (r1 & E1 & K). by simplify_eq.
Qed.
End Truth.

(** ** Theorems *)

Section Theorems.
Context {S C B : Type} `{SL : StorageLaws S} `{CL : CacheLaws C} `{BL : BrokerLaws B}.
Context `{HashFunction} `{Ed25519}.
Implicit Types l : Log S C B.
Implicit Types w : @world S C B.

(** Reading calls are linearizable.  While any appends and other readers are
    under way, let a call that is not [Sync] begin in [w0] and have returned in
    [w1].  Then there is a moment between the two at which the operation, run all
    at once, gives the answer the call returned. *)
Theorem reads_linearizable l ms qs w0 w1 i q o : fresh_log l -> Z.of_nat (length ms) + 1 < 2 ^ 64 ->
  Forall asked_ok qs -> is_sync q = false -> rtc world_step (opening l ms qs) w0 ->
  asking w0 !! i = Some (reading_of q) -> rtc world_step w0 w1 -> asking w1 !! i = Some (Return o) ->
  exists w, rtc world_step w0 w /\ rtc world_step w w1 /\ perform q (common w) = (o, common w).
Proof.
  intros F R Qs Q R0 E0 R1 E1. destruct (world_run_ok _ w0 (opening_ok l ms qs F R Qs) R0) as [K _].
  destruct (tracked_run q w0 w1 i _ K E0 (tracked_start _ _ _ _ _ (rtc_refl _ _) (reading_linear q Q)) R1) as (r & E & T).
  simplify_eq. destruct T as (w & Ra & Rb & Once). exists w. by rewrite reading_at_once in Once.
Qed.

Lemma sync_world c w w' i r : world_ok w -> world_step w w' -> asking w !! i = Some r ->
  sync_state c (common w) r -> exists r', asking w' !! i = Some r' /\ sync_state c (common w') r'.
Proof.
  intros K St E T. destruct (world_step_ok w w' K St) as [_ G]. destruct St as [s St|j r1 r' l Ej Rs].
  - exists r. split; [done|]. by eapply sync_grows.
  - destruct (decide (j = i)) as [->|Ne]; cbn [asking].
    + simplify_eq. exists r'. rewrite list_lookup_insert_eq by by eapply lookup_lt_Some. split; [done|].
      eapply sync_grows; [exact G|]. eapply sync_step; [by apply world_sealed|done..].
    + exists r. rewrite list_lookup_insert_ne by done. split; [done|]. by eapply sync_grows.
Qed.

Lemma sync_run c w0 w i r : world_ok w0 -> asking w0 !! i = Some r -> sync_state c (common w0) r ->
  rtc world_step w0 w -> exists r', asking w !! i = Some r' /\ sync_state c (common w) r'.
Proof.
  intros K E T R. revert w R. apply rtc_ind_r; [by exists r|]. intros w w' R St (r1 & E1 & T1).
  eapply sync_world; [|done..]. by destruct (world_run_ok w0 w K R).
Qed.

(** *** No reader waits *)

(** The steps a world has left: each call's rank, and each reader's port calls. *)
Definition budget w (n : nat) : Prop :=
  exists ns, Forall2 within ns (asking w) /\ n = (pending (threads (calling w)) + sum_list ns)%nat.

Lemma sum_list_insert (ns : list nat) i n m : ns !! i = Some n -> (sum_list (<[i := m]> ns) + n = sum_list ns + m)%nat.
Proof.
  intros E. rewrite <-(take_drop_middle ns i n E) at 2. rewrite insert_take_drop by by eapply lookup_lt_Some.
  rewrite !sum_list_with_app. cbn. lia.
Qed.

Lemma budget_step w w' n : world_ok w -> budget w n -> world_step w w' -> exists m, budget w' m /\ (m < n)%nat.
Proof.
  intros K (ns & F & ->) St. destruct St as [s St|i r r' l E Rs].
  - destruct (step_inv _ _ (proj1 K) St) as [_ P]. eexists. split; [by exists ns|]. cbn [calling]. lia.
  - destruct (Forall2_lookup_r _ _ _ _ _ F E) as (n & En & W).
    pose proof (within_step n r (common w) (fun c => world_sealed w c K) W) as N. destruct r as [|X p k]; [done|].
    destruct N as (x & _ & N & _ & Wx). rewrite N in Rs. injection Rs as <- <-. destruct n as [|n]; [done|].
    eexists. split; [exists (<[i := n]> ns); split; [by apply Forall2_insert|done]|]. cbn [calling threads].
    pose proof (sum_list_insert ns i _ n En). lia.
Qed.

Lemma budget_steps w w' n k : world_ok w -> budget w n -> nsteps world_step k w w' ->
  world_ok w' /\ exists m, budget w' m /\ (m + k <= n)%nat.
Proof.
  intros K B0 R. revert n B0. induction R as [w|k w w1 w2 St _ IH]; intros n B0; [split; [done|exists n; split; [done|lia]]|].
  destruct (budget_step w w1 n K B0 St) as (m & B1 & L). destruct (world_step_ok w w1 K St) as [K1 _].
  destruct (IH K1 m B1) as (K2 & m2 & B2 & L2). split; [done|]. exists m2. split; [done|lia].
Qed.

Lemma opening_budget l ms qs : Forall asked_ok qs -> budget (opening l ms qs) (11 * length ms + 3 * length qs)%nat.
Proof.
  intros Q. exists (replicate (length qs) 3%nat). split.
  - cbn [asking opening]. apply Forall2_fmap_r. induction Q as [|q qs Hq _ IH]; [constructor|]. cbn.
    constructor; [by apply reading_within|done].
  - cbn [calling opening]. rewrite calls_pending. f_equal. clear Q. induction qs as [|q qs IH]; [done|]. cbn in *. lia.
Qed.

Definition all_answered w : bool := all_returned (calling w) && forallb returned_reading (asking w).

Lemma reader_runs w i r : world_ok w -> asking w !! i = Some r -> returned_reading r = false -> exists w', world_step w w'.
Proof.
  intros K E Nr. destruct K as [I F]. pose proof (proj1 (Forall_lookup _ _) F i r E) as W.
  pose proof (within_step 3 r (common w) (fun c => inv_sealed _ c I) W) as N. destruct r as [|X p k]; [done|].
  destruct N as (x & _ & N & _). eexists. by econstructor.
Qed.

Lemma world_runs w : world_ok w -> all_answered w = false -> exists w', world_step w w'.
Proof.
  intros K N. unfold all_answered in N. apply andb_false_iff in N as [N|N].
  - destruct (not_all_returned _ (proj1 K) N) as [s St]. eexists. by constructor.
  - destruct (proj1 (existsb_exists (fun r => negb (returned_reading r)) (asking w))) as (r & E & R).
    + revert N. induction (asking w) as [|r rs IH]; [done|]. cbn. by destruct (returned_reading r).
    + apply list_elem_of_In, list_elem_of_lookup_1 in E as [i E]. eapply reader_runs; [done..|].
      by destruct (returned_reading r).
Qed.

Lemma answered_stuck w w' : all_answered w = true -> ~ world_step w w'.
Proof.
  intros [A Rs]%andb_true_iff St. destruct St as [s [i th p l E Ad]|i r r' l E R].
  - unfold all_returned in A. rewrite List.forallb_forall in A.
    specialize (A th (proj1 (list_elem_of_In _ _) (list_elem_of_lookup_2 _ _ _ E))).
    unfold returned in A. by destruct (t_phase th).
  - rewrite List.forallb_forall in Rs.
    specialize (Rs r (proj1 (list_elem_of_In _ _) (list_elem_of_lookup_2 _ _ _ E))). by destruct r.
Qed.

Lemma world_finishes w n : world_ok w -> budget w n -> exists w', rtc world_step w w' /\ all_answered w' = true.
Proof.
  revert w. induction (lt_wf n) as [n _ IH]. intros w K B0. destruct (all_answered w) eqn:A; [by exists w|].
  destruct (world_runs w K A) as [w1 St]. destruct (budget_step w w1 n K B0 St) as (m & B1 & L).
  destruct (world_step_ok w w1 K St) as [K1 _]. destruct (IH m L w1 K1 B1) as (w2 & R & A2).
  exists w2. split; [by eapply rtc_l|done].
Qed.

(** Everything gets on.  Any number of concurrent [Append]s and reading
    calls take at most 11 and 3 steps each, in any schedule; as long as one of
    them has not returned some step can be taken, a reader that has not returned
    can itself take one at any moment, whoever holds a mutex; and from wherever a
    run is, all calls can return. *)
Theorem world_all_return l ms qs n w : fresh_log l -> Z.of_nat (length ms) + 1 < 2 ^ 64 -> Forall asked_ok qs ->
  nsteps world_step n (opening l ms qs) w ->
  (n <= 11 * length ms + 3 * length qs)%nat /\
  ((forall w', ~ world_step w w') <-> all_answered w = true) /\
  (forall i r, asking w !! i = Some r -> returned_reading r = false -> exists r', read_step r (common w) = Some (r', common w)) /\
  exists w', rtc world_step w w' /\ all_answered w' = true.
Proof.
  intros F R Qs St. pose proof (opening_ok l ms qs F R Qs) as K0.
  destruct (budget_steps _ w _ n K0 (opening_budget l ms qs Qs) St) as (K & m & B0 & L). split_and!; [lia| | |].
  - split; [|intros A w'; by apply answered_stuck]. intros N. apply not_false_is_true. intros A.
    destruct (world_runs w K A) as [w' St']. by apply (N w').
  - intros i r E Nr. pose proof (proj1 (Forall_lookup _ _) (proj2 K) i r E) as W.
    pose proof (within_step 3 r (common w) (fun c => world_sealed w c K) W) as N. destruct r as [|X p k]; [done|].
    destruct N as (x & _ & N & _). by eexists.
  - by eapply world_finishes.
Qed.

(** C25: no reader is misled.  However appends and readers interleave over a
    fresh log, whatever a reader has been answered fits the log: pages are
    consecutive entries of it, [Verify] and [VerifyEntry] say valid, a proof is
    for the entry asked for, under the root of the snapshot of its window, and is
    accepted by [VerifyProof]; the only errors are that an entry is not there yet
    or not snapshotted yet.  A bundle of [Sync] has the entries from its snapshot
    up to some moment, and the hash of the log at that or a later moment. *)
Theorem conc_reads_truthful l ms qs w i q o : fresh_log l -> Z.of_nat (length ms) + 1 < 2 ^ 64 ->
  Forall asked_ok qs -> rtc world_step (opening l ms qs) w ->
  qs !! i = Some q -> asking w !! i = Some (Return o) -> truthful q o (common w).
Proof.
  intros F R Qs R0 Eq E. pose proof (opening_ok l ms qs F R Qs) as K.
  assert (asking (opening l ms qs) !! i = Some (reading_of q)) as E0
    by (cbn; rewrite list_lookup_fmap; by rewrite Eq).
  destruct (is_sync q) eqn:Sy.
  - destruct q as [| | | | |c]; try done.
    destruct (sync_run c _ w i _ K E0 (or_introl eq_refl) R0) as (r & Er & [N|[(?&?&?&?&N)|[(?&?&?&?&?&N)|(o' & N & T)]]]);
      simplify_eq. done.
  - destruct (tracked_run q _ w i _ K E0 (tracked_start _ _ _ _ _ (rtc_refl _ _) (reading_linear q Sy)) R0) as (r & Er & T). simplify_eq.
    destruct T as (wm & Ra & Rb & Once). rewrite reading_at_once in Once.
    destruct (world_run_ok _ wm K Ra) as [Km _]. destruct (world_run_ok wm w Km Rb) as [_ G].
    eapply truthful_grows; [exact G|]. eapply truthful_once; [|done| |done].
    + rewrite Forall_lookup in Qs. by apply (Qs i).
    + intros c. by apply world_sealed.
Qed.

(** *** [Sync] is not one moment *)

Definition with_thread (i : nat) (th : thread) (p : phase) l w : world :=
  {| calling := {| shared := l; threads := <[i := at_phase p th]> (threads (calling w)) |}; asking := asking w |}.

Lemma solo_run i th p l w : threads (calling w) !! i = Some th ->
  rtc (advances (t_now th) (t_msg th)) (t_phase th, common w) (p, l) -> rtc world_step w (with_thread i th p l w).
Proof.
  intros E R. apply (rtc_congruence (fun s => with_thread i th s.1 s.2 w)) with (R' := world_step) in R.
  - cbn [fst snd] in R. replace (with_thread i th (t_phase th) (common w) w) with w in R; [done|].
    unfold with_thread, common, at_phase. destruct w as [[l0 ths] rs], th as [nw m q]. cbn in *.
    by rewrite list_insert_id.
  - intros [q1 l1] [q2 l2] A. unfold advances in A. cbn [fst snd] in A |- *. unfold with_thread at 2.
    replace (<[i := at_phase q2 th]> (threads (calling w))) with (<[i := at_phase q2 (at_phase q1 th)]> (threads (calling (with_thread i th q1 l1 w))))
      by apply list_insert_insert_eq.
    apply (world_call (with_thread i th q1 l1 w)). econstructor; [|exact A]. cbn. apply list_lookup_insert_eq. by eapply lookup_lt_Some.
Qed.

Lemma read_alone w i r r' : asking w !! i = Some r -> read_step r (common w) = Some (r', common w) ->
  world_step w {| calling := calling w; asking := <[i := r']> (asking w) |}.
Proof. intros E R. destruct w as [[l ths] rs]. exact (world_read _ i r r' l E R). Qed.

Lemma first_read c l : log_ok l -> read_step (reading_of (QSync c)) l =
  Some (sync_rest c (last (snaps_at l c)) (Z.of_nat (covered (log_at l c))), l).
Proof.
  intros K. pose proof (sync_start c l K) as Q. pose proof (ask_latest c l) as E.
  pose proof (co_room _ _ _ (lo_chats _ K c)) as R. rewrite <-Q. destruct (last (snaps_at l c)) as [n|].
  - rewrite <-(u64_id (ToSequence n + 1)) by (unfold is_u64; rewrite Q; unfold covered, interval; div_lia).
    etrans; [by apply (step_asked _ _ l (inl n))|done].
  - etrans; [by apply (step_asked _ _ l (inr ErrNotFound))|done].
Qed.

Lemma second_read c sn n l : read_step (sync_rest c sn (Z.of_nat n)) l = Some (sync_end c sn (made (drop n (log_at l c))), l).
Proof. etrans; [by apply (step_asked _ _ l (inl (made (drop n (log_at l c))))), ask_since|done]. Qed.

Lemma third_read c sn es e l : last (log_at l c) = Some e -> read_step (sync_end c sn es) l =
  Some (Return (Ok (ASync {| Snapshot := sn; NewEntries := es; CurrentHash := EntryHash e |})), l).
Proof. intros L. etrans; [apply (step_asked _ _ l (inl e)); by rewrite ask_last, L|done]. Qed.

(** The bundle of two moments: no log in order has the entries up to [es] and
    the hash of the entry after them. *)
Lemma torn_bundle c es e sn l2 : chain 0 GenesisHash (es ++ [e]) -> Z.of_nat (length (es ++ [e])) < 2 ^ 64 ->
  Forall (fun f => well_formed (Message f)) (es ++ [e]) ->
  log_ok l2 -> Forall (fun f => well_formed (Message f)) (log_at l2 c) ->
  match sn with Some n => ToSequence n + 1 | None => 0 end = Z.of_nat (covered es) ->
  Sync c l2 = (Ok {| Snapshot := sn; NewEntries := made (drop (covered es) es); CurrentHash := EntryHash e |}, l2) ->
  EntryHash e = GenesisHash \/ collides (log_bytes (es ++ [e]) ++ log_bytes (log_at l2 c)).
Proof.
  intros T R W K W2 Sn E. rewrite (Sync_run c l2 K) in E. injection E as <- En Eh.
  rewrite (sync_start c l2 K) in Sn. apply Nat2Z.inj in Sn. rewrite Sn in En.
  destruct (lo_chats _ K c) as [T2 _ _ R2]. destruct (decide (log_at l2 c = [])) as [Nil|Ne];
    [left; by rewrite <-Eh, Nil|right].
  assert (length (log_at l2 c) = length es) as L2.
  { apply (f_equal length) in En. rewrite !length_drop in En.
    assert (covered (log_at l2 c) <= length (log_at l2 c) /\ covered es <= length es)%nat
      by (unfold covered, interval; split; div_lia). lia. }
  destruct (chain_length (log_bytes (es ++ [e]) ++ log_bytes (log_at l2 c)) (log_at l2 c) (es ++ [e])) as [L|Cl];
    try done; [by intros []%app_nil|lia|lia|by apply list_subseteq_app_r|by apply list_subseteq_app_l| |].
  - rewrite Eh. symmetry. apply tip_from_snoc.
  - rewrite length_app in L. cbn in L. lia.
Qed.

(** C26: [Sync] is not atomic.  Let one call of [Append] for an acceptable message
    and one of [Sync] run over a log in order.  There is an interleaving in which
    [Sync] returns the entries without the new one, yet with its hash as the
    current hash; and no log in order has such a bundle, so no moment of the run
    does: a client that replays the entries does not get to the current hash. *)
Theorem sync_race now m l (c := ChatID m) (es := log_at l c) (e := new_entry es m) :
  log_ok l -> unlocked l -> acceptable m = true -> Z.of_nat (length es) + 1 < 2 ^ 64 ->
  Forall (fun f => well_formed (Message f)) es -> well_formed m ->
  exists w b, rtc world_step (opening l [(now, m)] [QSync c]) w /\ asking w = [Return (Ok (ASync b))] /\
    log_at (common w) c = es ++ [e] /\ Snapshot b = last (snaps_at l c) /\
    NewEntries b = made (drop (covered es) es) /\ CurrentHash b = EntryHash e /\
    forall l2, log_ok l2 -> Forall (fun f => well_formed (Message f)) (log_at l2 c) -> Sync c l2 = (Ok b, l2) ->
      EntryHash e = GenesisHash \/ collides (log_bytes (es ++ [e]) ++ log_bytes (log_at l2 c)).
Proof.
  intros K U A R W Wm. pose proof (co_chain _ _ _ (lo_chats _ K c)) as T.
  destruct (run_to_insert now m l A (U _) T R) as (l' & Run & L & N & _).
  set (th := {| t_now := now; t_msg := m; t_phase := PStart |}).
  set (sn := last (snaps_at l c)). set (w0 := opening l [(now, m)] [QSync c]).
  set (w1 := {| calling := calling w0; asking := [sync_rest c sn (Z.of_nat (covered es))] |}).
  set (w2 := {| calling := calling w0; asking := [sync_end c sn (made (drop (covered es) es))] |}).
  set (w3 := with_thread 0 th (PPublish e) l' w2).
  set (b := {| Snapshot := sn; NewEntries := made (drop (covered es) es); CurrentHash := EntryHash e |}).
  assert (log_at l' c = es ++ [e]) as Lc by (rewrite L; by rewrite decide_True).
  exists {| calling := calling w3; asking := [Return (Ok (ASync b))] |}, b. split_and!; try done.
  - apply (rtc_l _ _ w1); [apply (read_alone w0 0 (reading_of (QSync c))); [done|by apply first_read]|].
    apply (rtc_l _ _ w2); [apply (read_alone w1 0 (sync_rest c sn (Z.of_nat (covered es)))); [done|by apply second_read]|].
    etrans; [apply (solo_run 0 th (PPublish e) l' w2); [done|exact Run]|]. fold w3.
    apply rtc_once, (read_alone w3 0 (sync_end c sn (made (drop (covered es) es)))); [done|]. apply third_read.
    change (common w3) with l'. by rewrite Lc, last_snoc.
  - intros l2 K2 W2 E. assert (chain 0 GenesisHash (es ++ [e])) as Te by (by apply accepted_chain; [| |lia]).
    eapply torn_bundle; try done; [rewrite length_app; cbn; lia| |by apply sync_start].
    apply Forall_app. split; [done|]. by constructor.
Qed.
End Theorems.

(** A bundle of several moments is still a chain from its snapshot, up to the
    hash the log had when its entries were read. *)
Lemma bundle_checks `{HashFunction} `{Ed25519} c es b from n m : chain 0 GenesisHash es -> bundle_of c es b from n m ->
  let link := match Snapshot b with Some s => LastEntryHash s | None => GenesisHash end in
  chain (Z.of_nat from) link (NewEntries b) /\ tip_from link (NewEntries b) = tip_hash (take n es).
Proof.
  intros T [St Or Lm -> _]. assert (match Snapshot b with Some s => LastEntryHash s | None => GenesisHash end =
    tip_hash (take from es)) as ->.
  { unfold starts in St. destruct (Snapshot b) as [s|]; [|by rewrite St]. destruct St as (k & Ks & ->).
    destruct (so_last _ _ _ _ Ks) as (e & Le & ->). unfold tip_hash.
    replace (interval * k + interval)%nat with (Datatypes.S (interval * k + 99)) by (unfold interval; lia).
    by rewrite (take_S_r _ _ _ Le), tip_from_snoc. }
  assert (take n es = take from es ++ drop from (take n es)) as Tn.
  { rewrite <-(take_drop from (take n es)) at 1. by rewrite take_take, Nat.min_l by lia. }
  cbn [elems]. split; [|unfold tip_hash; by rewrite <-tip_from_app, <-Tn].
  rewrite <-(take_drop n es) in T. apply chain_app in T as [T _]. rewrite Tn in T. apply chain_app in T as [_ T].
  rewrite length_take in T. by replace (0 + Z.of_nat (from `min` length es)) with (Z.of_nat from) in T by lia.
Qed.

(** ** A schedule *)

Module InterleavedSample.
Import LogSample.

(** The thread or the reader of that number takes a step, if it can. *)
Definition turn (w : @world InMemoryStorage InMemoryCache InMemoryBroker) (t : nat + nat) : world :=
  match t with
  | inl i => {| calling := run_thread i (calling w); asking := asking w |}
  | inr i => match asking w !! i with
             | Some r => match read_step r (common w) with
                         | Some (r', l) => {| calling := {| shared := l; threads := threads (calling w) |};
                                              asking := <[i := r']> (asking w) |}
                         | None => w
                         end
             | None => w
             end
  end.
Definition turns (order : list (nat + nat)) w : world := foldl turn w order.

Lemma world_turn_step w t : rtc world_step w (turn w t).
Proof.
  destruct t as [i|i]; cbn.
  - unfold run_thread. destruct (threads (calling w) !! i) as [th|] eqn:E; [|by destruct w].
    destruct (advance _ _ _ _) as [[p l]|] eqn:A; [|by destruct w]. apply rtc_once, world_call. by econstructor.
  - destruct (asking w !! i) as [r|] eqn:E; [|done]. destruct (read_step r (common w)) as [[r' l]|] eqn:R; [|done].
    by eapply rtc_once, world_read.
Qed.

Lemma turns_reach order w : rtc world_step w (turns order w).
Proof.
  revert w. induction order as [|t order IH]; intros w; [done|]. cbn. etrans; [apply world_turn_step|apply IH].
Qed.

Definition qs : list query := [QVerify "c"; QSync "c"; QProve "c" 0].
Lemma qs_ok : Forall asked_ok qs.
Proof. repeat (apply Forall_cons_2; [by cbn|]). apply Forall_nil_2. Qed.

Definition first : world := opening start (script "c" 2) qs.

(** [Sync] reads the snapshot and the entries; a call of [Append] stores its
    entry; [Verify] begins and returns; then [Sync] reads the last entry. *)
Definition early : list (nat + nat) := [inr 1; inr 1; inl 0; inl 0; inl 0; inl 0]%nat.
Definition late : list (nat + nat) := [inr 0; inr 1; inr 2]%nat.
Definition later : world := turns late (turns early first).

Lemma later_verify : asking later !! 0%nat = Some (Return (Ok (AVerify {| vr_Valid := true; vr_Entries := 1; vr_Reason := "" |}))).
Proof. vm_compute. reflexivity. Qed.

Definition seen (r : option (reading answer)) : option (nat * bool) :=
  match r with Some (Return (Ok (ASync b))) => Some (length (NewEntries b), bool_decide (CurrentHash b = GenesisHash)) | _ => None end.
Lemma later_sync : seen (asking later !! 1%nat) = Some (0%nat, false).
Proof. vm_compute. reflexivity. Qed.

Lemma later_proof : asking later !! 2%nat = Some (Return (Err ErrNotSnapshotted)).
Proof. vm_compute. reflexivity. Qed.

Lemma script_small : Z.of_nat (length (script "c" 2)) + 1 < 2 ^ 64.
Proof. reflexivity. Qed.

Lemma later_reached : rtc world_step first later.
Proof. etrans; apply turns_reach. Qed.
End InterleavedSample.

Section Witnesses.
Import LogSample InterleavedSample.

Lemma reads_linearizable_witness : exists w, rtc world_step (turns early first) w /\ rtc world_step w later /\
  perform (QVerify "c") (common w) = (Ok (AVerify {| vr_Valid := true; vr_Entries := 1; vr_Reason := "" |}), common w).
Proof.
  apply (reads_linearizable start (script "c" 2) qs (turns early first) later 0 (QVerify "c")).
  - exact start_fresh.
  - exact script_small.
  - exact qs_ok.
  - reflexivity.
  - apply turns_reach.
  - reflexivity.
  - apply turns_reach.
  - exact later_verify.
Defined.

Lemma conc_reads_truthful_witness : truthful (QProve "c" 0) (Err ErrNotSnapshotted) (common later) /\
  truthful (QVerify "c") (Ok (AVerify {| vr_Valid := true; vr_Entries := 1; vr_Reason := "" |})) (common later).
Proof.
  split; [apply (conc_reads_truthful start (script "c" 2) qs later 2)|apply (conc_reads_truthful start (script "c" 2) qs later 0)];
    (exact start_fresh || exact script_small || exact qs_ok || exact later_reached || exact later_proof || exact later_verify || reflexivity).
Defined.

Lemma world_all_return_witness : exists n, nsteps world_step n first later /\ (n <= 31)%nat /\
  exists w, rtc world_step later w /\ all_answered w = true.
Proof.
  destruct (proj1 (rtc_nsteps _ _) later_reached) as [n R]. exists n. split; [exact R|].
  destruct (world_all_return start (script "c" 2) qs n later start_fresh script_small qs_ok R) as (N & _ & _ & F).
  split; [exact N|exact F].
Defined.

#[local] Opaque after signed.

(** A hundredth message against a [Sync] of the ninety-nine before it. *)
Lemma sync_race_witness : exists w b, rtc world_step (opening (after "c" 99) [(epoch, signed "c" 99)] [QSync "c"]) w /\
  asking w = [Return (Ok (ASync b))] /\ length (log_at (common w) "c") = 100%nat /\ length (NewEntries b) = 99%nat.
Proof.
  generalize (after_ok "c" 99 eq_refl) (after_unlocked "c" 99 eq_refl) (after_length "c" 99 eq_refl)
    (after_well_formed "c" 99 eq_refl eq_refl) (signed_acceptable "c" 99) (signed_chat "c" 99) (signed_well_formed "c" 99 eq_refl).
  generalize (after "c" 99) (signed "c" 99). intros l m K U L W A Cm Wm.
  destruct (sync_race epoch m l K U A) as (w & b & R & E & Lw & _ & N & _);
    [rewrite Cm, L; reflexivity|rewrite Cm; exact W|exact Wm|].
  rewrite Cm in *. exists w, b. split; [exact R|]. split; [exact E|]. rewrite Lw, N.
  unfold covered. cbn [elems]. rewrite length_app, length_drop, L. split; reflexivity.
Defined.
End Witnesses.
