(* ===== verification/FaultReads.v ===== *)
(** * FaultReads: the reading calls over a store that fails

    A reading call ([Readings]) is followed from port call to port call while
    the log it reads grows and any call of the store may fail ([Faults]).  It
    always returns.  It returns the store's error, or what is right of the log as
    it was since the call began ([right]): no failure makes a reader see a gap,
    a forgery, or an entry missing that was there. *)
From S2P Require Import Prelude Codec JsonText GoTime Sha256 Models Merkle Crypto Storage Cache Broker Chatlog LogFacts LogReads LogContract Scylla ScyllaLog Faults Concurrency FaultRuns FaultProofs Readings Nodes Interleaved.

(** ** One port call *)

Section Ports.
Context {S C B : Type} `{RL : ReadLaws S}.
Context `{HashFunction} `{Ed25519}.
Implicit Types l : Log S C B.

(** What the readers find: any chat as the appends of [FaultRuns] keep it. *)
Record orderly l : Prop := {
  od_shared : sh_ok (store l);
  od_sound : sp_ok (store l);
  od_chain c : chain 0 GenesisHash (entries_of l c);
  od_windows c : windows c (entries_of l c) (sealed_of l c);
  od_room c : Z.of_nat (length (entries_of l c)) < 2 ^ 63;
}.

Definition port_args {X : Set} (p : port_read X) : Prop :=
  match p with
  | ReadEntry _ n | ReadSince _ n => is_u64 n
  | ReadSnapshot _ i => 0 <= i < 2 ^ 63
  | _ => True
  end.

(** The sequences the port is made for. *)
Definition port_small {X : Set} (p : port_read X) : Prop :=
  match p with ReadEntry _ n | ReadSince _ n => n < 2 ^ 63 | _ => True end.

(** The answers of a call at [l]; whether an empty slice is nil is the store's. *)
Definition port_tells {X : Set} (p : port_read X) l : outcome X -> Prop :=
  match p with
  | ReadLast c => fun o => reads_as o (found (last (entries_of l c)))
  | ReadEntry c n => fun o => reads_as o (found (entries_of l c !! Z.to_nat n))
  | ReadSince c n => fun o => exists w, elems w = drop (Z.to_nat n) (entries_of l c) /\ reads_as o (Ok w)
  | ReadLatest c => fun o => reads_as o (found (last (sealed_of l c)))
  | ReadSnapshot c i => fun o => reads_as o (found (sealed_of l c !! Z.to_nat i))
  end.

Lemma given_settled {X : Set} (o : outcome X) : settled o -> exists x, o = given x.
Proof. intros [[a ->]|[e ->]]; [by exists (inl a)|by exists (inr e)]. Qed.

Lemma reads_given {X : Set} (o expected : outcome X) : reads_as o expected -> settled expected -> exists x, o = given x.
Proof. intros R K. apply given_settled. by eapply reads_settled. Qed.

Lemma reads_found {A} (a : A) x : reads_as (Ok a) (found x) -> x = Some a.
Proof. intros [E|(? & ? & _)]; [|done]. destruct x; [by injection E as ->|done]. Qed.

Lemma reads_missing {A} err (x : option A) : reads_as (Err err) (found x) -> (x = None /\ err = ErrNotFound) \/ errors_is err ErrNotFound = false.
Proof. intros [E|(? & [= <-] & U)]; [|by right]. destruct x; [done|left]. by injection E as ->. Qed.

Lemma asked_store {X : Set} (m : M S X) l o s : m (store l) = (o, s) -> on_store m l = (o, set_store s l).
Proof. apply on_store_run. Qed.

Lemma ask_run {X : Set} (p : port_read X) l : orderly l -> port_args p ->
  exists x s, ask (C := C) (B := B) p l = (given x, set_store s l) /\ kept (store l) s /\
    (port_small p -> port_tells p l (given x)).
Proof.
  intros [Sh So _ _ _] P. destruct p as [c|c n|c n|c|c i]; cbn [ask port_args port_small port_tells] in *.
  - destruct (sh_last c (store l) Sh) as (o & s & E & R & Sh' & L). destruct (sp_last c (store l) So) as [So' N].
    rewrite E in So', N. destruct (reads_given _ _ R (found_settled _)) as [x ->].
    exists x, s. split; [by apply asked_store|]. split; [by split|done].
  - destruct (rd_entry c n (store l) Sh So P) as (o & s & E & [x ->]%given_settled & K & R).
    exists x, s. split; [by apply asked_store|]. split; [done|exact R].
  - destruct (rd_since c n (store l) Sh So P) as [St K]. destruct (EntriesSince c n (store l)) as [o s] eqn:E.
    cbn [fst snd] in *. apply given_settled in St as [x ->]. exists x, s. split; [by apply asked_store|]. split; [done|].
    intros Sm. destruct (sp_since c n (store l) Sh So) as (o' & s' & w & E' & W & R & _); [unfold is_u64 in P; lia|]. assert (o' = given x) as -> by congruence. by exists w.
  - destruct (sp_latest c (store l) So) as (o & s & E & R & So' & N). destruct (sh_latest c (store l) Sh) as [Sh' L].
    rewrite E in Sh', L. destruct (reads_given _ _ R (found_settled _)) as [x ->].
    exists x, s. split; [by apply asked_store|]. split; [by split|done].
  - destruct (sp_at c i (store l) So P) as (o & s & E & R & So' & N). destruct (sh_at c i (store l) Sh) as [Sh' L].
    rewrite E in Sh', L. destruct (reads_given _ _ R (found_settled _)) as [x ->].
    exists x, s. split; [by apply asked_store|]. split; [by split|done].
Qed.

(** A step of a reading call. *)
Lemma read_run {A} {X : Set} (p : port_read X) (k : X + error -> reading A) l : orderly l -> port_args p ->
  exists x s, read_step (Ask p k) l = Some (k x, set_store s l) /\ kept (store l) s /\
    (forall n, within n (Ask p k) -> within (pred n) (k x)) /\
    (port_small p -> port_tells p l (given x)).
Proof.
  intros O P. destruct (ask_run p l O P) as (x & s & E & K & R). exists x, s. split; [cbn; rewrite E; by destruct x|].
  split; [done|]. split; [|done]. intros [|n]; [done|]. intros [_ W]. apply W.
  destruct p as [| | | |c i]; try done. destruct x as [n'|]; [|done]. cbn.
  pose proof (reads_found _ _ (R I)) as L. by destruct (window_bounds _ _ _ _ _ (od_windows _ O c) L) as ([? _] & _).
Qed.
End Ports.

(** ** What is right *)

Section Right.
Context `{HashFunction} `{Ed25519}.

Definition asked_chat (q : query) : string :=
  match q with
  | QHistory c _ _ | QEntry c _ | QVerifyEntry c _ | QVerify c | QProve c _ | QSync c => c
  end.

(** What requests can ask, and what the port is made for. *)
Definition askable (q : query) : Prop :=
  match q with QHistory _ n _ | QEntry _ n | QVerifyEntry _ n | QProve _ n => is_u64 n | QVerify _ | QSync _ => True end.
Definition in_range (q : query) : Prop :=
  match q with QHistory _ n _ | QEntry _ n | QVerifyEntry _ n => n < 2 ^ 63 | _ => True end.

(** The chat had the entries [es0] and the snapshots [ns0] when the call began,
    and has [es] and [ns]. *)
Section Since.
Context (es0 es : list LogEntry) (ns0 ns : list MerkleSnapshot).

(** The last snapshot at a moment since, and the sequence after it. *)
Definition begins (sn : option MerkleSnapshot) (from : Z) : Prop :=
  exists k, (length ns0 <= k <= length ns)%nat /\ sn = last (take k ns) /\ from = next_from (take k ns).

(** The parts of a bundle, each of a moment since. *)
Record parts_of (b : SyncBundle) (from : Z) (n m : nat) : Prop := {
  pt_snapshot : begins (Snapshot b) from;
  pt_order : (length es0 <= n <= m)%nat /\ (m <= length es)%nat;
  pt_joined : from <= Z.of_nat n;
  pt_entries : elems (NewEntries b) = drop (Z.to_nat from) (take n es);
  pt_hash : CurrentHash b = tip_hash (take m es);
}.

Definition right (q : query) (o : outcome answer) : Prop :=
  match q with
  | QHistory _ from limit => exists n w, (length es0 <= n <= length es)%nat /\ o = Ok (AHistory w) /\
      elems w = capped limit (drop (Z.to_nat from) (take n es))
  | QEntry _ k => (Z.of_nat (length es0) <= k /\ o = Err ErrNotFound) \/
      exists e, es !! Z.to_nat k = Some e /\ o = Ok (AEntry e)
  | QVerifyEntry _ k => (Z.of_nat (length es0) <= k /\ o = Err ErrNotFound) \/
      k < Z.of_nat (length es) /\ o = Ok (AVerifyEntry {| mv_Sequence := k; mv_Valid := true; mv_Reason := "" |})
  | QVerify _ => exists n, (length es0 <= n <= length es)%nat /\
      o = Ok (AVerify {| vr_Valid := true; vr_Entries := Z.of_nat n; vr_Reason := "" |})
  | QProve c k => (ns0 !! Z.to_nat (k / 100) = None /\ o = Err ErrNotSnapshotted) \/
      (is_Some (ns !! Z.to_nat (k / 100)) /\ exists op, proved c k es ns op /\ o = (p ← op; mret (AProve p)))
  | QSync _ => exists b from n m, o = Ok (ASync b) /\ parts_of b from n m
  end.

(** A call that has returned. *)
Definition told (q : query) (o : outcome answer) : Prop :=
  settled o /\ (in_range q -> unclear o \/ right q o).
End Since.

(** *** The log grows *)

Lemma begins_grows ns0 ns ns' sn from : ns `prefix_of` ns' -> begins ns0 ns sn from -> begins ns0 ns' sn from.
Proof.
  intros P (k & L & -> & ->). exists k. pose proof (prefix_length _ _ P). split; [lia|]. by rewrite (take_prefix _ _ _ P) by lia.
Qed.

Lemma proved_grows c k es es' ns ns' o : es `prefix_of` es' -> ns `prefix_of` ns' -> is_Some (ns !! Z.to_nat (k / 100)) ->
  proved c k es ns o -> proved c k es' ns' o.
Proof.
  intros [fs ->] [ms ->] [n L]. unfold proved. rewrite (lookup_app_l_Some _ ms _ _ L), L. case_decide; [|done].
  intros (e & p & Le & E). exists e, p. split; [by apply lookup_app_l_Some|done].
Qed.

Lemma right_grows es0 es es' ns0 ns ns' q o : es `prefix_of` es' -> ns `prefix_of` ns' ->
  right es0 es ns0 ns q o -> right es0 es' ns0 ns' q o.
Proof.
  intros P N. pose proof (prefix_length _ _ P) as Le. destruct q as [c from limit|c k|c k|c|c k|c]; cbn.
  - intros (n & w & L & -> & W). exists n, w. split; [lia|]. by rewrite (take_prefix _ _ _ P) by lia.
  - intros [?|(e & L & ->)]; [by left|right]. exists e. split; [|done]. destruct P as [? ->]. by apply lookup_app_l_Some.
  - intros [?|[L ->]]; [by left|right]. split; [lia|done].
  - intros (n & L & ->). exists n. split; [lia|done].
  - intros [?|(S & op & Pr & ->)]; [by left|right]. split; [destruct S as [x L], N as [? ->]; exists x; by apply lookup_app_l_Some|].
    exists op. split; [by eapply proved_grows|done].
  - intros (b & from & n & m & -> & [Bg [O1 O2] J En Ha]). exists b, from, n, m. split; [done|].
    split; [by eapply begins_grows|lia|done| |]; rewrite (take_prefix _ _ _ P) by lia; done.
Qed.

Lemma told_grows es0 es es' ns0 ns ns' q o : es `prefix_of` es' -> ns `prefix_of` ns' ->
  told es0 es ns0 ns q o -> told es0 es' ns0 ns' q o.
Proof.
  intros P N [St R]. split; [done|]. intros I. destruct (R I) as [|Rt]; [by left|right]. by eapply right_grows.
Qed.

(** ** Where a call can be *)

(** [VerifyEntry] past its first port call, and the reason it then gives. *)
Definition link_verdict (k : Z) (e : LogEntry) (prev : string) : MessageVerification :=
  if negb (bool_decide (PrevHash e = prev))
  then {| mv_Sequence := k; mv_Valid := false; mv_Reason := "broken chain link to previous entry" |}
  else {| mv_Sequence := k; mv_Valid := true; mv_Reason := "" |}.

Definition verify_end (c : string) (k : Z) (e : LogEntry) : reading answer :=
  ((prev ← need (ReadEntry c (u64 (k - 1))); mret (EntryHash prev)) ≫= fun h => mret (link_verdict k e h)) ≫=
    fun v => mret (AVerifyEntry v).

Definition prove_end (c : string) (k : Z) (snap : MerkleSnapshot) : reading answer :=
  (window ← need (ReadSince c (FromSequence snap)); Return (inclusion c k snap (elems window))) ≫= fun p => mret (AProve p).

Definition way (es0 es : list LogEntry) (ns0 ns : list MerkleSnapshot) (q : query) (r : reading answer) : Prop :=
  r = reading_of q \/ (exists o, r = Return o /\ told es0 es ns0 ns q o) \/
  match q with
  | QVerifyEntry c k => exists e, 0 < k /\ (k < 2 ^ 63 -> es !! Z.to_nat k = Some e) /\ r = verify_end c k e
  | QProve c k => exists n, ns !! Z.to_nat (k / 100) = Some n /\ r = prove_end c k n
  | QSync c =>
      (exists sn from, begins ns0 ns sn from /\ r = sync_rest c sn from) \/
      (exists sn from n w, begins ns0 ns sn from /\ (length es0 <= n <= length es)%nat /\ from <= Z.of_nat n /\
         elems w = drop (Z.to_nat from) (take n es) /\ r = sync_end c sn w)
  | _ => False
  end.

Lemma way_grows es0 es es' ns0 ns ns' q r : es `prefix_of` es' -> ns `prefix_of` ns' ->
  way es0 es ns0 ns q r -> way es0 es' ns0 ns' q r.
Proof.
  intros P N [->|[(o & -> & T)|K]]; [by left|right; left|right; right].
  { exists o. split; [done|by eapply told_grows]. }
  destruct q as [c from limit|c k|c k|c|c k|c]; try done.
  - destruct K as (e & Kp & L & ->). exists e. split_and!; [done| |done]. intros Q. destruct P as [? ->].
    by apply lookup_app_l_Some, L.
  - destruct K as (n & L & ->). exists n. split; [|done]. destruct N as [? ->]. by apply lookup_app_l_Some.
  - destruct K as [(sn & from & Bg & ->)|(sn & from & n & w & Bg & L & J & W & ->)]; [left|right].
    + exists sn, from. split; [by eapply begins_grows|done].
    + exists sn, from, n, w. pose proof (prefix_length _ _ P). split_and!; [by eapply begins_grows|lia|lia|done| |done].
      by rewrite (take_prefix _ _ _ P) by lia.
Qed.
End Right.

(** ** Every step of it *)

Section Steps.
Context {S C B : Type} `{RL : ReadLaws S} `{HashFunction} `{Ed25519}.
Context (l : Log S C B) (O : orderly l) (c : string) (es0 : list LogEntry) (ns0 : list MerkleSnapshot).
Context (P0 : es0 `prefix_of` entries_of l c) (N0 : ns0 `prefix_of` sealed_of l c).
Abbreviation es := (entries_of l c).
Abbreviation ns := (sealed_of l c).

(** What the step of [r] does, and where the call is then. *)
Definition goes_on (q : query) (r : reading answer) : Prop := exists r' s,
  read_step r l = Some (r', set_store s l) /\ kept (store l) s /\
  (forall n, within n r -> within (pred n) r') /\ way es0 es ns0 ns q r'.

Lemma goes_by {X : Set} (p : port_read X) (k : X + error -> reading answer) q : port_args p ->
  (forall x, (port_small p -> port_tells p l (given x)) -> way es0 es ns0 ns q (k x)) -> goes_on q (Ask p k).
Proof.
  intros A W. destruct (read_run p k l O A) as (x & s & E & K & N & R). exists (k x), s. split_and!; auto.
Qed.

Lemma done_told q o : told es0 es ns0 ns q o -> way es0 es ns0 ns q (Return o).
Proof. intros T. right. left. by exists o. Qed.

Lemma done_right q a : (in_range q -> right es0 es ns0 ns q (Ok a)) -> way es0 es ns0 ns q (Return (Ok a)).
Proof. intros R. apply done_told. split; [left; by eexists|]. intros I. by right; apply R. Qed.

Lemma done_failed q err : (in_range q -> errors_is err ErrNotFound = false \/ right es0 es ns0 ns q (Err err)) ->
  way es0 es ns0 ns q (Return (Err err)).
Proof.
  intros R. apply done_told. split; [right; by eexists|]. intros I. destruct (R I) as [U|Rt]; [left|by right].
  by exists err.
Qed.

Lemma not_answered {A} err (a : A) : reads_as (Err err) (Ok a) -> errors_is err ErrNotFound = false.
Proof. by intros [|(? & [= <-] & U)]. Qed.

Lemma window_told {A} (w : Slice A) ws : (exists w', elems w' = ws /\ reads_as (Ok w) (Ok w')) -> elems w = ws.
Proof. by intros (w' & <- & [[= ->]|(? & ? & _)]). Qed.

Lemma window_failed {A} err (ws : list A) : (exists w', elems w' = ws /\ reads_as (Err err) (Ok w')) ->
  errors_is err ErrNotFound = false.
Proof. intros (w' & _ & R). exact (not_answered _ _ R). Qed.

(** *** Pages *)

Lemma capped_page (limit : Z) (w : Slice LogEntry) :
  elems (if (0 <? limit) && (limit <? Z.of_nat (length (elems w))) then reslice (Z.to_nat limit) w else w) =
    capped limit (elems w).
Proof.
  unfold capped. destruct (Z.ltb_spec 0 limit); [|done]. cbn [andb].
  case_match; [apply elems_reslice|]. rewrite take_ge; [done|]. lia.
Qed.

Lemma goes_history from limit : is_u64 from -> goes_on (QHistory c from limit) (reading_of (QHistory c from limit)).
Proof.
  intros U. apply goes_by; [done|]. cbn [port_small port_tells]. intros [w|err] R; cbn.
  - apply done_right. intros I. eexists (length es), _. split; [pose proof (prefix_length _ _ P0); lia|].
    split; [done|]. by rewrite capped_page, firstn_all, (window_told _ _ (R I)).
  - apply done_failed. intros I. left. exact (window_failed _ _ (R I)).
Qed.

Lemma goes_verify : goes_on (QVerify c) (reading_of (QVerify c)).
Proof.
  apply goes_by; [done|]. cbn [port_small port_tells]. intros [w|err] R; cbn.
  - apply done_right. intros _. rewrite (window_told _ _ (R ltac:(done))). change (drop (Z.to_nat 0) es) with es.
    rewrite (proj2 (verify_walk_chain _ _ _) (od_chain _ O c)). exists (length es).
    split; [pose proof (prefix_length _ _ P0); lia|]. pose proof (od_room _ O c).
    by rewrite u64_id by (unfold is_u64; lia).
  - apply done_failed. intros _. left. exact (window_failed _ _ (R ltac:(done))).
Qed.

(** *** One entry *)

(** The sequence was not there when the call began. *)
Lemma absent k : 0 <= k -> es !! Z.to_nat k = None -> Z.of_nat (length es0) <= k.
Proof. intros K L%lookup_ge_None. pose proof (prefix_length _ _ P0). lia. Qed.

Lemma goes_entry k : is_u64 k -> goes_on (QEntry c k) (reading_of (QEntry c k)).
Proof.
  intros U. apply goes_by; [done|]. cbn [port_small port_tells]. intros [e|err] R; cbn.
  - apply done_right. intros I. right. exists e. split; [exact (reads_found _ _ (R I))|done].
  - apply done_failed. intros I. destruct (reads_missing _ _ (R I)) as [[L ->]|Nf]; [right; left|by left].
    split; [apply absent; [apply U|done]|done].
Qed.

Lemma entry_passes k e : 0 <= k -> es !! Z.to_nat k = Some e -> entry_checks es (Z.to_nat k) e.
Proof.
  intros K L. pose proof (od_room _ O c). assert (Z.of_nat (length es) <= 2 ^ 64) as Rm by lia.
  apply (proj1 (chain_checks es Rm)); [apply O|done].
Qed.

Lemma goes_verify_entry k : is_u64 k -> goes_on (QVerifyEntry c k) (reading_of (QVerifyEntry c k)).
Proof.
  intros U. apply goes_by; [done|]. cbn [port_small port_tells]. intros [e|err] R.
  2:{ apply done_failed. intros I. destruct (reads_missing _ _ (R I)) as [[L ->]|Nf]; [right; left|by left].
      split; [apply absent; [apply U|done]|done]. }
  assert (k < 2 ^ 63 -> es !! Z.to_nat k = Some e /\ entry_checks es (Z.to_nat k) e) as F.
  { intros I. pose proof (reads_found _ _ (R I)) as L. split; [done|]. apply entry_passes; [apply U|done]. }
  cbn. destruct (supportedVersion _) eqn:V; cbn [negb];
    [|apply done_right; intros I; destruct (F I) as (_ & V' & _); congruence].
  case_bool_decide as Hh; cbn [negb]; [|apply done_right; intros I; by destruct (F I) as (_ & _ & ? & _)].
  destruct (VerifyMessage _) eqn:Sg; cbn [negb];
    [|apply done_right; intros I; destruct (F I) as (_ & _ & _ & Sg' & _); congruence].
  destruct (Z.ltb_spec 0 k) as [K|K]; cbn [mbind reading_bind].
  - right. right. exists e. split; [done|]. split; [by apply F|reflexivity].
  - assert (k = 0) as -> by (unfold is_u64 in U; lia). apply done_right. intros I. destruct (F I) as [L (_ & _ & _ & Pv)].
    right. split; [apply lookup_lt_Some in L; lia|]. rewrite bool_decide_eq_true_2; [done|]. exact Pv.
Qed.

Lemma goes_verify_end k e : is_u64 k -> 0 < k -> (k < 2 ^ 63 -> es !! Z.to_nat k = Some e) ->
  goes_on (QVerifyEntry c k) (verify_end c k e).
Proof.
  intros U K L. apply goes_by; [cbn; apply u64_range|]. cbn [port_small port_tells].
  assert (u64 (k - 1) = k - 1) as -> by (apply u64_id; unfold is_u64 in *; lia).
  intros [p|err] R; cbn.
  - apply done_right. intros I. cbn in I. right. specialize (L I). split; [apply lookup_lt_Some in L; lia|].
    pose proof (reads_found _ _ (R ltac:(lia))) as Lp.
    destruct (entry_passes k e ltac:(lia) L) as (_ & _ & _ & Pv). unfold link_verdict.
    rewrite bool_decide_eq_true_2; [done|]. rewrite Pv. rewrite <-(tip_hash_take _ _ _ Lp). do 2 f_equal. lia.
  - apply done_failed. intros I. cbn in I. left. specialize (L I).
    destruct (reads_missing _ _ (R ltac:(lia))) as [[Lp _]|Nf]; [|done].
    apply lookup_ge_None in Lp. apply lookup_lt_Some in L. lia.
Qed.

(** *** Proofs *)

Lemma inclusion_proved k n : is_u64 k -> ns !! Z.to_nat (k / 100) = Some n ->
  proved c k es ns (inclusion c k n (drop (Z.to_nat (FromSequence n)) es)).
Proof.
  intros U L. destruct (prove_window c k es ns n (od_chain _ O c) (od_room _ O c) (od_windows _ O c) U L) as (Sz & Wl & K).
  unfold inclusion, proved. rewrite Sz, Wl, L. cbn [mbind outcome_bind]. destruct (Proof _ _) as [p root]. case_decide.
  - destruct K as (-> & e & Ee & Ix & V). rewrite bool_decide_eq_true_2 by done. cbn [negb]. rewrite Ix. by exists e, p.
  - by rewrite bool_decide_eq_false_2.
Qed.

Lemma proved_settled k o : proved c k es ns o -> settled o.
Proof.
  unfold proved. destruct (_ !! _); [|intros ->; right; by eexists]. case_decide; [|intros ->; right; by eexists].
  intros (e & p & _ & -> & _). left. by eexists.
Qed.

Lemma goes_prove k : is_u64 k -> goes_on (QProve c k) (reading_of (QProve c k)).
Proof.
  intros U. apply goes_by; [cbn; unfold SnapshotInterval, is_u64 in *; div_lia|]. cbn [port_small port_tells].
  change SnapshotInterval with 100. intros [n|err] R; cbn.
  - right. right. exists n. split; [exact (reads_found _ _ (R I))|reflexivity].
  - destruct (reads_missing _ _ (R I)) as [[L ->]|Nf].
    + rewrite errors_is_refl. apply done_failed. intros _. right. left. split; [|done].
      apply lookup_ge_None in L. apply lookup_ge_None. pose proof (prefix_length _ _ N0). lia.
    + rewrite Nf. apply done_failed. intros _. by left.
Qed.

Lemma goes_prove_end k n : is_u64 k -> ns !! Z.to_nat (k / 100) = Some n -> goes_on (QProve c k) (prove_end c k n).
Proof.
  intros U L. destruct (window_bounds _ _ _ _ _ (od_windows _ O c) L) as (B1 & B2 & _). pose proof (od_room _ O c).
  apply goes_by; [cbn; unfold is_u64; lia|]. cbn [port_small port_tells]. intros [w|err] R; cbn.
  - rewrite (window_told _ _ (R ltac:(lia))). pose proof (inclusion_proved k n U L) as Pr.
    assert (right es0 es ns0 ns (QProve c k) (p ← inclusion c k n (drop (Z.to_nat (FromSequence n)) es); mret (AProve p))) as Rt
      by (right; split; [by exists n|by eexists]).
    destruct (proved_settled _ _ Pr) as [[p E]|[err E]]; rewrite E in *; cbn in Rt |- *;
      [by apply done_right|apply done_failed; by right].
  - apply done_failed. intros _. left. exact (window_failed _ _ (R ltac:(lia))).
Qed.

(** *** Bundles *)

Lemma begins_bound sn from : begins ns0 ns sn from -> 0 <= from <= Z.of_nat (length es).
Proof.
  intros (k & _ & _ & ->). destruct (windows_next c es (take k ns)) as [B1 _]; [apply windows_take, O|]. lia.
Qed.

Lemma goes_sync : goes_on (QSync c) (reading_of (QSync c)).
Proof.
  apply goes_by; [done|]. cbn [port_small port_tells]. pose proof (prefix_length _ _ N0). pose proof (od_room _ O c).
  assert (begins ns0 ns (last ns) (next_from ns)) as Bg by (exists (length ns); rewrite firstn_all; done).
  intros [n|err] R.
  - pose proof (reads_found _ _ (R I)) as L. rewrite L in Bg. pose proof (begins_bound _ _ Bg).
    right. right. left. exists (Some n), (next_from ns). split; [done|].
    assert (u64 (ToSequence n + 1) = next_from ns) as <-; [|reflexivity].
    unfold next_from in *. rewrite L in *. apply u64_id. unfold is_u64. lia.
  - cbn. destruct (reads_missing _ _ (R I)) as [[L ->]|Nf].
    + rewrite errors_is_refl. right. right. left. exists None, 0. split; [|reflexivity].
      unfold next_from in Bg. by rewrite L in Bg.
    + rewrite Nf. apply done_failed. intros _. by left.
Qed.

Lemma goes_sync_rest sn from : begins ns0 ns sn from -> goes_on (QSync c) (sync_rest c sn from).
Proof.
  intros Bg. pose proof (begins_bound _ _ Bg). pose proof (od_room _ O c). pose proof (prefix_length _ _ P0).
  apply goes_by; [cbn; unfold is_u64; lia|]. cbn [port_small port_tells]. intros [w|err] R.
  - right. right. right. exists sn, from, (length es), w. split_and!; [done|lia..| |reflexivity].
    rewrite firstn_all. exact (window_told _ _ (R ltac:(lia))).
  - apply done_failed. intros _. left. exact (window_failed _ _ (R ltac:(lia))).
Qed.

Lemma goes_sync_end sn from n w : begins ns0 ns sn from -> (length es0 <= n <= length es)%nat -> from <= Z.of_nat n ->
  elems w = drop (Z.to_nat from) (take n es) -> goes_on (QSync c) (sync_end c sn w).
Proof.
  intros Bg L J W. apply goes_by; [done|]. cbn [port_small port_tells].
  assert (forall h, h = tip_hash es -> way es0 es ns0 ns (QSync c) (Return (Ok (ASync {| Snapshot := sn;
    NewEntries := w; CurrentHash := h |})))) as Go.
  { intros h ->. apply done_right. intros _. eexists _, from, n, (length es). split; [done|].
    split; [done|lia|done|done|]. by rewrite firstn_all. }
  intros [e|err] R; cbn.
  - apply Go. unfold tip_hash, tip_from. by rewrite (reads_found _ _ (R I)).
  - destruct (reads_missing _ _ (R I)) as [[La ->]|Nf].
    + rewrite errors_is_refl. apply Go. unfold tip_hash, tip_from. by rewrite La.
    + rewrite Nf. apply done_failed. intros _. by left.
Qed.

(** *** Any call *)

Lemma way_step q r : asked_chat q = c -> askable q -> way es0 es ns0 ns q r ->
  match r with Return _ => True | Ask _ _ => goes_on q r end.
Proof.
  intros Ch A [->|[(o & -> & _)|K]]; [|done|].
  - assert (goes_on q (reading_of q)) as G.
    { destruct q as [d from limit|d k|d k|d|d k|d]; cbn [asked_chat askable] in *; subst d;
        [by apply goes_history|by apply goes_entry|by apply goes_verify_entry|apply goes_verify|by apply goes_prove|apply goes_sync]. }
    by destruct (reading_of q).
  - destruct q as [d from limit|d k|d k|d|d k|d]; try done; cbn [asked_chat askable] in *; subst d.
    + destruct K as (e & Kp & L & ->). exact (goes_verify_end k e A Kp L).
    + destruct K as (n & L & ->). exact (goes_prove_end k n A L).
    + destruct K as [(sn & from & Bg & ->)|(sn & from & n & w & Bg & L & J & W & ->)];
        [exact (goes_sync_rest sn from Bg)|exact (goes_sync_end sn from n w Bg L J W)].
Qed.
End Steps.

(** A call is told something when it has returned. *)
Lemma way_returned `{HashFunction} `{Ed25519} es0 es ns0 ns q o : way es0 es ns0 ns q (Return o) -> told es0 es ns0 ns q o.
Proof.
  intros [E|[(o' & [= <-] & T)|K]]; [by destruct q|done|]. destruct q; try done.
  - by destruct K as (? & _ & _ & ?).
  - by destruct K as (? & _ & ?).
  - by destruct K as [(? & ? & _ & ?)|(? & ? & ? & ? & _ & _ & _ & _ & ?)].
Qed.
