(* ===== verification/Requests.v ===== *)
(** * Requests: whole HTTP requests, one step at a time

    [net/http] runs every request in a goroutine of its own.  A [visit] is a
    request and the [stage] its goroutine has reached: the middleware, the
    routing, then the port calls of [Append] ([Concurrency]), those of a reading
    call ([Readings]), or a subscription; [visit_step] is the next thing it does
    to the server all visits share.  A visit that runs alone does what
    [Api.Handler] does. *)
From S2P Require Import Prelude Codec JsonText GoTime JsonTree JsonUtf8 TimeText Sha256 Models Merkle Crypto Storage Cache Broker Wire Chatlog LogFacts LogReads LogContract Service RateLimit Api ApiContract Concurrency Readings.

(** ** Handlers as queries *)

(** What [handleHistory] and the handlers of one message ask the service, or
    the response to parameters that are not numbers. *)
Definition history_query (r : Request) (chatID : string) : query + Response :=
  match parseUintQuery r "from" 0 with
  | None => inr (writeError 400 "invalid 'from' parameter")
  | Some from =>
      match parseUintQuery r "limit" defaultHistoryLimit with
      | None => inr (writeError 400 "invalid 'limit' parameter")
      | Some limit0 =>
          if limit0 =? 0 then inr (writeError 400 "invalid 'limit' parameter")
          else inl (QHistory chatID from (i64 (if maxHistoryLimit <? limit0 then maxHistoryLimit else limit0)))
      end
  end.

Definition sequence_query (ask : Z -> query) (sequence : string) : query + Response :=
  match ParseUint sequence with
  | None => inr (writeError 400 "sequence must be a non-negative integer")
  | Some n => inl (ask n)
  end.

Definition asks (r : Request) (x : route) : option (query + Response) :=
  match x with
  | RHistory c => Some (history_query r c)
  | RMessage c n => Some (sequence_query (QEntry c) n)
  | RProof c n => Some (sequence_query (QProve c) n)
  | RVerifyMessage c n => Some (sequence_query (QVerifyEntry c) n)
  | RVerify c => Some (inl (QVerify c))
  | RSync c => Some (inl (QSync c))
  | _ => None
  end.

(** The responses they make of the answer. *)
Definition reply_of (q : query) (a : answer) : reply :=
  match a with
  | AHistory es =>
      let limit := match q with QHistory _ _ limit => limit | _ => 0 end in
      JHistory {| Messages := es;
                  NextFrom := if (Z.of_nat (length es) =? limit) && (0 <? length es)%nat
                              then (fun e => u64 (Sequence e + 1)) <$> last es else None |}
  | AEntry e => JEntry e
  | AVerifyEntry v => JMessageVerification v
  | AVerify v => JVerify v
  | AProve p => JProof p
  | ASync b => JSync b
  end.

Definition error_of (q : query) (err : error) : Response :=
  default (writeError 500 (Error err))
    match q with
    | QEntry _ _ | QVerifyEntry _ _ => not_found err
    | QProve _ _ => not_snapshotted err
    | _ => None
    end.

Definition render (q : query) (o : outcome answer) : outcome Response :=
  match o with
  | Ok a => Ok (writeJSON 200 (reply_of q a))
  | Err err => Ok (error_of q err)
  | Panic w => Panic w
  | Block => Block
  end.

(** The chat and the cap of the handlers that post. *)
Definition posts (x : route) : option (string * Z) :=
  match x with
  | RSend c => Some (c, 0)
  | RPhoto c => Some (c, MaxPhotoBytes)
  | RVideo c => Some (c, MaxVideoBytes)
  | _ => None
  end.

(** The message [Append] gets, or the response without it. *)
Definition submission (cap : Z) (r : Request) (chatID : string) : SignedMessage + Response :=
  match decodeSignedMessage r chatID with
  | inr e => inr (writeError 400 e)
  | inl msg =>
      if (0 <? cap) && (cap <? Z.of_nat (length (Content msg)))
      then inr (writeError 422 (Error (New ("content exceeds " ++ fmt_d cap ++ " bytes"))))
      else inl msg
  end.

Definition submitted (o : outcome LogEntry) : outcome Response :=
  match o with
  | Ok e => Ok (writeJSON 201 (JEntry e))
  | Err err => Ok (writeError 422 (Error err))
  | Panic w => Panic w
  | Block => Block
  end.

Definition message_of (r : Request) : option SignedMessage :=
  match find_route (r_method r) (r_path r) with
  | inl x => match posts x with
             | Some (c, cap) => match submission cap r c with inl m => Some m | inr _ => None end
             | None => None
             end
  | inr _ => None
  end.

(** ** Visits *)

Inductive stage :=
  | GArrived                                     (**r [rateLimitMiddleware] *)
  | GRouted                                      (**r [ServeMux] and the handler up to its first call *)
  | GReading (q : query) (r : reading answer)    (**r in a reading call *)
  | GSending (p : phase)                         (**r in [Append] *)
  | GSubscribing (chatID : string)               (**r [handleStream] *)
  | GListening (chatID : string) (id : nat)      (**r its loop, with its subscription *)
  | GDone (o : outcome Response).

(** The response of a visit that has returned. *)
Definition answered (st : stage) : option (outcome Response) :=
  match st with
  | GReading q (Return o) => Some (render q o)
  | GSending (PDone o) => Some (submitted o)
  | GDone o => Some o
  | _ => None
  end.

Definition limited : Response :=
  {| status := 429; retry_after := true; body := JError "rate limit exceeded" |}.

Section Requests.
Context {S C B : Type} `{Storage S} `{Cache C} `{Broker B} `{HashFunction} `{Ed25519} `{RateLimiter}.
Implicit Types s : Server S C B.
Implicit Types l : Log S C B.

Definition entered (env : Env) (r : Request) s : stage * Server S C B :=
  match s_limiter s with
  | None => (GRouted, s)
  | Some lim =>
      if bool_decide (r_path r = ["healthz"%string]) then (GRouted, s)
      else match Allow (e_seen env) (e_allow env) (clientIP (r_remote r)) lim with
           | (Ok true, lim') => (GRouted, {| svc := svc s; s_limiter := Some lim' |})
           | (_, lim') => (GDone (Ok limited), {| svc := svc s; s_limiter := Some lim' |})
           end
  end.

Definition begun (env : Env) (r : Request) (x : route) s : stage * Server S C B :=
  match posts x, asks r x, x with
  | Some (c, cap), _, _ => (match submission cap r c with inl _ => GSending PStart | inr v => GDone (Ok v) end, s)
  | None, Some (inl q), _ => (GReading q (reading_of q), s)
  | None, Some (inr v), _ => (GDone (Ok v), s)
  | None, None, RStream c => (GSubscribing c, s)
  | None, None, _ => let '(o, s') := handle env r x s in (GDone o, s')
  end.

(** The deferred [cancel], and the return. *)
Definition hang_up (id : nat) (v : Response) s : option (stage * Server S C B) :=
  match on_svc (MsgrCancel id) s with
  | (Ok _, s') => Some (GDone (Ok v), s')
  | (Err e, s') => Some (GDone (Err e), s')
  | (Panic w, s') => Some (GDone (Panic w), s')
  | (Block, _) => None
  end.

(** The next step; [None] when the visit has returned or waits. *)
Definition visit_step (env : Env) (r : Request) (st : stage) s : option (stage * Server S C B) :=
  match st with
  | GArrived => Some (entered env r s)
  | GRouted =>
      Some match find_route (r_method r) (r_path r) with
           | inl x => begun env r x s
           | inr code => (GDone (Ok (writeJSON code JNone)), s)
           end
  | GReading q rd =>
      match read_step rd (log_in s) with
      | Some (rd', l) => Some (GReading q rd', with_log l s)
      | None => None
      end
  | GSending p =>
      match message_of r with
      | Some m => match advance (e_now env) m p (log_in s) with
                  | Some (p', l) => Some (GSending p', with_log l s)
                  | None => None
                  end
      | None => None
      end
  | GSubscribing c =>
      match on_svc MsgrSubscribe s with
      | (Ok id, s') => Some (GListening c id, s')
      | (Err err, s') => Some (GDone (Ok (writeError 500 (Error err))), s')
      | (Panic w, s') => Some (GDone (Panic w), s')
      | (Block, _) => None
      end
  | GListening c id =>
      match e_upgrade env with
      | Some code => hang_up id (writeJSON code JNone) s
      | None => let '(fs, returned) := stream_loop c (e_stream env) in
                if returned then hang_up id (writeJSON 101 (JFrames fs)) s else None
      end
  | GDone _ => None
  end.

(** A visit that runs without the others. *)
Inductive visit_alone (env : Env) (r : Request) : stage -> Server S C B -> outcome Response -> Server S C B -> Prop :=
  | visit_done st o s : answered st = Some o -> visit_alone env r st s o s
  | visit_next st s st' s1 o s' : visit_step env r st s = Some (st', s1) -> visit_alone env r st' s1 o s' ->
      visit_alone env r st s o s'.
End Requests.

(** ** The steps are those of [Handler] *)

Section Alone.
Context {S C B : Type} `{Storage S} `{Cache C} `{Broker B} `{HashFunction} `{Ed25519} `{RateLimiter}.
Implicit Types s : Server S C B.
Implicit Types l : Log S C B.

Lemma with_log_same s : with_log (log_in s) s = s.
Proof. by destruct s as [[]]. Qed.

Lemma on_svc_log {A} (m : M (Log S C B) A) s :
  on_svc (on_log m) s = let '(o, l) := m (log_in s) in (o, with_log l s).
Proof. unfold on_svc, on_log, zoom, log_in. by destruct (m (log (svc s))). Qed.

(** *** Reading calls *)

Lemma served {A} q (m : M (Log S C B) A) (ctor : A -> answer) (k : A + error -> Response) s :
  (forall a, k (inl a) = writeJSON 200 (reply_of q (ctor a))) -> (forall err, k (inr err) = error_of q err) ->
  (x ← try (on_svc (on_log m)); mret (k x)) s =
    let '(o, l) := (a ← m; mret (ctor a)) (log_in s) in (render q o, with_log l s).
Proof.
  intros Ka Ke. unfold try, mbind, M_bind. rewrite on_svc_log.
  destruct (m (log_in s)) as [[a|err|w|] l]; cbn; by rewrite ?Ka, ?Ke.
Qed.

Lemma with_sequence_asks {A} t (m : Z -> M (Log S C B) A) (ok : A -> reply) special q (ctor : A -> answer) s :
  (forall n a, reply_of (q n) (ctor a) = ok a) -> (forall n err, error_of (q n) err = default (writeError 500 (Error err)) (special err)) ->
  (forall n, perform (q n) = (a ← m n; mret (ctor a))) ->
  with_sequence t (fun n => on_log (m n)) ok special s =
    match sequence_query q t with
    | inl q => let '(o, l) := perform q (log_in s) in (render q o, with_log l s)
    | inr v => (Ok v, s)
    end.
Proof.
  intros R E P. unfold with_sequence, sequence_query. destruct (ParseUint t) as [n|]; [|done]. rewrite P.
  apply served; intros; [by rewrite R|by rewrite E].
Qed.

Lemma i64_limit n : n <> 0 -> 0 <= n -> i64 (if maxHistoryLimit <? n then maxHistoryLimit else n) =
  if maxHistoryLimit <? n then maxHistoryLimit else n.
Proof. intros N P. apply i64_id. unfold maxHistoryLimit. destruct (Z.ltb_spec 200 n); lia. Qed.

Lemma parseUintQuery_nonneg r key d n : 0 <= d -> parseUintQuery r key d = Some n -> 0 <= n.
Proof.
  unfold parseUintQuery. intros D. case_bool_decide; [by intros [= <-]|]. intros E. by apply ParseUint_range in E as [? _].
Qed.

Lemma handleHistory_asks r c s : handleHistory r c s =
  match history_query r c with
  | inl q => let '(o, l) := perform q (log_in s) in (render q o, with_log l s)
  | inr v => (Ok v, s)
  end.
Proof.
  unfold handleHistory, history_query. destruct (parseUintQuery r "from" 0) as [from|]; [|done].
  destruct (parseUintQuery r "limit" _) as [n|] eqn:L; [|done]. destruct (Z.eqb_spec n 0); [done|].
  apply parseUintQuery_nonneg in L; [|by unfold defaultHistoryLimit].
  apply (served (QHistory c from _)); intros; [cbn [reply_of]; by rewrite i64_limit|done].
Qed.

Lemma handle_asks env r x s a : asks r x = Some a -> handle env r x s =
  match a with
  | inl q => let '(o, l) := perform q (log_in s) in (render q o, with_log l s)
  | inr v => (Ok v, s)
  end.
Proof.
  intros E. destruct x; try done; injection E as <-; cbn [handle].
  - apply handleHistory_asks.
  - by apply (with_sequence_asks _ _ _ _ _ AEntry).
  - by apply (with_sequence_asks _ _ _ _ _ AProve).
  - by apply (with_sequence_asks _ _ _ _ _ AVerifyEntry).
  - by apply (served (QVerify chatID) (VerifyChain chatID) AVerify).
  - by apply (served (QSync chatID) (Sync chatID) ASync).
Qed.

Lemma alone_reading env r q rd l o l' s : at_once rd l = (o, l') -> o <> Block ->
  visit_alone env r (GReading q rd) (with_log l s) (render q o) (with_log l' s).
Proof.
  revert l. induction rd as [o1|X p k IH]; intros l E N; [injection E as <- <-; by constructor|].
  cbn in E. unfold mbind, M_bind, try in E.
  destruct (ask p l) as [[a|err|w|] l1] eqn:A; [| |injection E as <- <-|by injection E as <- <-].
  - eapply visit_next; [cbn; change (log_in (with_log l s)) with l; rewrite A; reflexivity|]. by apply IH.
  - eapply visit_next; [cbn; change (log_in (with_log l s)) with l; rewrite A; reflexivity|]. by apply IH.
  - eapply visit_next; [cbn; change (log_in (with_log l s)) with l; rewrite A; reflexivity|]. by constructor.
Qed.

(** *** Posting *)

Lemma handleSubmit_sends cap env r c s : handleSubmit cap env r c s =
  match submission cap r c with
  | inl msg => let '(o, l) := Append (e_now env) msg (log_in s) in (submitted o, with_log l s)
  | inr v => (Ok v, s)
  end.
Proof.
  unfold handleSubmit, submission. destruct (decodeSignedMessage r c) as [msg|e]; [|done].
  unfold Submit. destruct (_ && _); [by destruct s|]. unfold try, mbind, M_bind. rewrite on_svc_log.
  by destruct (Append _ _ _) as [[]].
Qed.

Lemma handle_posts env r x s c cap : posts x = Some (c, cap) -> handle env r x s = handleSubmit cap env r c s.
Proof. by destruct x; intros [= <- <-]. Qed.

Lemma alone_sending env r m p l o l' s : message_of r = Some m -> alone (e_now env) m p l o l' ->
  visit_alone env r (GSending p) (with_log l s) (submitted o) (with_log l' s).
Proof.
  intros M A. induction A as [o l|p l p' l1 o l' St _ IH]; [by constructor|].
  eapply visit_next; [cbn [visit_step]; rewrite M; change (log_in (with_log l s)) with l; by rewrite St|exact IH].
Qed.

(** *** Streams *)

Lemma alone_hang_up env r st id v s : (forall s1, visit_step env r st s1 = hang_up id v s1) -> answered st = None ->
  forall o s', (on_svc (MsgrCancel id) ;; mret v) s = (o, s') -> o <> Block -> visit_alone env r st s o s'.
Proof.
  intros St An o s' E N. unfold mbind, M_bind in E.
  destruct (on_svc (MsgrCancel id) s) as [[[]|err|w|] s1] eqn:Q; try (injection E as <- <-); try done;
    (eapply visit_next; [rewrite St; unfold hang_up; rewrite Q; reflexivity|by constructor]).
Qed.

Lemma alone_stream env r c s o s' : handleStream env c s = (o, s') -> o <> Block ->
  visit_alone env r (GSubscribing c) s o s'.
Proof.
  intros E N. unfold handleStream in E.
  destruct (on_svc MsgrSubscribe s) as [[id|err|w|] s1] eqn:Q.
  - rewrite (bind_ok _ _ _ _ _ (try_ok _ _ _ _ Q)) in E. cbv beta iota in E.
    eapply visit_next; [cbn [visit_step]; by rewrite Q|].
    destruct (e_upgrade env) as [code|] eqn:U.
    + apply (alone_hang_up env r _ id (writeJSON code JNone)); [|done..]. intros s2. cbn [visit_step]. by rewrite U.
    + destruct (stream_loop c (e_stream env)) as [fs []] eqn:L; [|by injection E as <- <-].
      apply (alone_hang_up env r _ id (writeJSON 101 (JFrames fs))); [|done..]. intros s2. cbn [visit_step]. by rewrite U, L.
  - rewrite (bind_ok _ _ _ _ _ (try_err _ _ _ _ Q)) in E. injection E as <- <-.
    eapply visit_next; [cbn [visit_step]; by rewrite Q|]. by constructor.
  - unfold try, mbind, M_bind in E. rewrite Q in E. injection E as <- <-.
    eapply visit_next; [cbn [visit_step]; by rewrite Q|]. by constructor.
  - unfold try, mbind, M_bind in E. rewrite Q in E. by injection E as <- <-.
Qed.

(** *** Every route *)

Lemma alone_routed env r s o s' : mux env r s = (o, s') -> o <> Block -> visit_alone env r GRouted s o s'.
Proof.
  unfold mux. intros E N. eapply visit_next; [cbn [visit_step]; apply f_equal, surjective_pairing|].
  destruct (find_route (r_method r) (r_path r)) as [x|code] eqn:F; [|injection E as <- <-; by constructor].
  unfold begun. destruct (posts x) as [[c cap]|] eqn:P.
  - rewrite (handle_posts env r x s c cap P), handleSubmit_sends in E.
    destruct (submission cap r c) as [m|v] eqn:Sb; [|injection E as <- <-; by constructor].
    destruct (Append (e_now env) m (log_in s)) as [o1 l1] eqn:A. injection E as <- <-.
    cbn [fst snd]. rewrite <-(with_log_same s) at 1. apply alone_sending with (m := m).
    + unfold message_of. by rewrite F, P, Sb.
    + apply append_alone; [done|]. by intros ->.
  - destruct (asks r x) as [a|] eqn:As.
    + rewrite (handle_asks env r x s a As) in E. destruct a as [q|v]; [|injection E as <- <-; by constructor].
      rewrite <-reading_at_once in E. destruct (at_once (reading_of q) (log_in s)) as [o1 l1] eqn:R. injection E as <- <-.
      cbn [fst snd]. rewrite <-(with_log_same s) at 1. apply alone_reading; [done|]. by intros ->.
    + destruct x; try done; try (rewrite E; by constructor). by apply alone_stream.
Qed.

(** The steps of a visit are those of the handler.  Over any ports, a request
    whose goroutine runs alone from the start gets the response, and leaves the
    server, that [Handler] gives. *)
Theorem visit_alone_is_handler env r s o s' : Handler env r s = (o, s') -> o <> Block ->
  visit_alone env r GArrived s o s'.
Proof.
  intros E N. unfold Handler in E. destruct (s_limiter s) as [lim|] eqn:L.
  - destruct (bool_decide (r_path r = ["healthz"%string])) eqn:Hz.
    + eapply visit_next; [cbn [visit_step]; unfold entered; rewrite L, Hz; reflexivity|]. by apply alone_routed.
    + destruct (Allow _ _ _ lim) as [[[]|e|w|] lim'] eqn:A;
        (eapply visit_next; [cbn [visit_step]; unfold entered; rewrite L, Hz, A; reflexivity|]);
        [by apply alone_routed|injection E as <- <-; by constructor..].
  - eapply visit_next; [cbn [visit_step]; unfold entered; rewrite L; reflexivity|]. by apply alone_routed.
Qed.
End Alone.

(** ** A message posted to a chat of three *)

Section Witnesses.
Import ApiSample.

Lemma post_returns : (Handler env (post 3) (serving 3)).1 <> Block.
Proof. vm_compute. discriminate. Qed.

Lemma visit_alone_is_handler_witness : exists o s', Handler env (post 3) (serving 3) = (o, s') /\
  visit_alone env (post 3) GArrived (serving 3) o s'.
Proof.
  exists (Handler env (post 3) (serving 3)).1, (Handler env (post 3) (serving 3)).2.
  split; [apply surjective_pairing|].
  exact (visit_alone_is_handler env (post 3) (serving 3) _ _ (surjective_pairing _) post_returns).
Defined.
End Witnesses.
