(* ===== verification/RequestRuns.v ===== *)
(** * RequestRuns: requests that run concurrently

    A [node] is a server and the visits it is serving.  However their steps
    interleave, over ports that keep their contracts: the logs stay in order,
    every request is answered, and what each is answered. *)
From S2P Require Import Prelude Codec JsonText GoTime JsonTree JsonUtf8 TimeText Sha256 Models Merkle Crypto Storage Cache Broker Wire Chatlog LogFacts LogReads LogContract Service RateLimit Api ApiContract Concurrency Readings Nodes Interleaved Requests.

Record visit := { v_env : Env; v_req : Request; v_stage : stage }.

Definition at_stage (st : stage) (v : visit) : visit :=
  {| v_env := v_env v; v_req := v_req v; v_stage := st |}.

(** The thread of [Concurrency] a visit is, [PStart] before it posts. *)
Definition no_message : SignedMessage := {|
  SchemaVersion := 0; MessageID := ""; ChatID := ""; SenderID := ""; Content := []; ContentType := "";
  Filename := ""; Encrypted := false; Timestamp := {| t_nano := 0; t_offset := 0 |}; PublicKey := []; Signature := [] |}.

Definition thread_of (v : visit) : thread := {|
  t_now := e_now (v_env v);
  t_msg := default no_message (message_of (v_req v));
  t_phase := match v_stage v with GSending p => p | _ => PStart end |}.

Section Runs.
Context {S C B : Type} `{SL : StorageLaws S} `{CL : CacheLaws C} `{BL : BrokerLaws B}.
Context `{HashFunction} `{Ed25519} `{RateLimiter}.
Implicit Types s : Server S C B.
Implicit Types l : Log S C B.

Record node := { n_server : Server S C B; visits : list visit }.

Definition n_log (n : node) : Log S C B := log_in (n_server n).

Inductive node_step (n : node) : node -> Prop :=
  | node_visit i v st s : visits n !! i = Some v ->
      visit_step (v_env v) (v_req v) (v_stage v) (n_server n) = Some (st, s) ->
      node_step n {| n_server := s; visits := <[i := at_stage st v]> (visits n) |}.

(** Requests that have just come in. *)
Definition arrivals s (rs : list (Env * Request)) : node :=
  {| n_server := s; visits := map (fun er => {| v_env := er.1; v_req := er.2; v_stage := GArrived |}) rs |}.

(** ** The invariant *)

Definition system_of (n : node) : system := {| shared := n_log n; threads := map thread_of (visits n) |}.

(** The response does not depend on the server. *)
Definition static (env : Env) (r : Request) (o : outcome Response) : Prop := forall s, mux env r s = (o, s).

(** The request is for the stream of chat [c]. *)
Definition streams (r : Request) (c : string) : Prop := find_route (r_method r) (r_path r) = inl (RStream c).

(** What a stream that returns is answered. *)
Definition stream_reply (env : Env) (c : string) (o : outcome Response) : Prop := forall w, o = Ok w ->
  (exists err, w = writeError 500 err) \/
  (exists code, e_upgrade env = Some code /\ w = writeJSON code JNone) \/
  (exists fs, e_upgrade env = None /\ stream_loop c (e_stream env) = (fs, true) /\ w = writeJSON 101 (JFrames fs)).

(** The limiter turned the request away. *)
Definition refused (r : Request) (o : outcome Response) : Prop := o = Ok limited /\ r_path r <> ["healthz"%string].

Definition visit_ok (v : visit) : Prop :=
  match v_stage v with
  | GReading q rd => within 3 rd /\ exists x, find_route (r_method (v_req v)) (r_path (v_req v)) = inl x /\ asks (v_req v) x = Some (inl q)
  | GSending p => exists m, message_of (v_req v) = Some m /\
      forall err, p = PDone (Err err) -> static (v_env v) (v_req v) (submitted (Err err))
  | GSubscribing c | GListening c _ => streams (v_req v) c
  | GDone o => refused (v_req v) o \/ static (v_env v) (v_req v) o \/
      exists c, streams (v_req v) c /\ stream_reply (v_env v) c o
  | _ => True
  end.

Record node_ok (n : node) : Prop := {
  no_system : sys_inv (system_of n);
  no_visits : Forall visit_ok (visits n);
}.

Lemma sys_inv_broker l ths b : sys_inv {| shared := l; threads := ths |} -> broker_inv b ->
  sys_inv {| shared := set_broker b l; threads := ths |}.
Proof. intros [[] St Few] Br. split; [by split|exact St|exact Few]. Qed.

Lemma system_insert n i v st s : visits n !! i = Some v -> thread_of (at_stage st v) = thread_of v ->
  system_of {| n_server := s; visits := <[i := at_stage st v]> (visits n) |} =
    {| shared := log_in s; threads := map thread_of (visits n) |}.
Proof.
  intros E T. unfold system_of, n_log. cbn [n_server visits]. f_equal.
  change (map thread_of) with (fmap (M := list) thread_of). rewrite list_fmap_insert, T.
  apply list_insert_id. by rewrite list_lookup_fmap, E.
Qed.

(** *** What a request asks is in range *)

Lemma history_query_ok r c q : history_query r c = inl q -> asked_ok q.
Proof.
  unfold history_query. destruct (parseUintQuery r "from" 0) as [from|] eqn:F; [|done].
  destruct (parseUintQuery r "limit" _) as [n|]; [|done]. destruct (n =? 0); [done|]. intros [= <-].
  by eapply parseUintQuery_nonneg in F.
Qed.

Lemma asks_ok r x q : asks r x = Some (inl q) -> asked_ok q.
Proof.
  assert (forall f t, sequence_query f t = inl q -> (forall n, 0 <= n -> asked_ok (f n)) -> asked_ok q) as Sq.
  { intros f t. unfold sequence_query. destruct (ParseUint t) as [n|] eqn:P; [|done]. intros [= <-] K.
    apply K. by apply ParseUint_range in P as [? _]. }
  destruct x; try done; cbn; intros [= E]; try (by eapply Sq); [by eapply history_query_ok|by subst..].
Qed.

(** *** The static answers *)

Lemma mux_route env r x s : find_route (r_method r) (r_path r) = inl x -> mux env r s = handle env r x s.
Proof. intros F. unfold mux. by rewrite F. Qed.

Lemma refused_static env r x c cap v : find_route (r_method r) (r_path r) = inl x -> posts x = Some (c, cap) ->
  submission cap r c = inr v -> static env r (Ok v).
Proof. intros F P Sb s. by rewrite (mux_route _ _ _ _ F), (handle_posts _ _ _ _ _ _ P), handleSubmit_sends, Sb. Qed.

Lemma mistaken_static env r x v : find_route (r_method r) (r_path r) = inl x -> asks r x = Some (inr v) -> static env r (Ok v).
Proof. intros F A s. rewrite (mux_route _ _ _ _ F). by rewrite (handle_asks _ _ _ _ _ A). Qed.

Lemma other_static env r x s : find_route (r_method r) (r_path r) = inl x -> posts x = None -> asks r x = None ->
  (forall c, x <> RStream c) -> static env r (handle env r x s).1 /\ (handle env r x s).2 = s.
Proof.
  intros F P A Ns. unfold static. destruct x; try done; [| | |by destruct (Ns chatID)]; cbn [handle].
  - split; [|done]. intros s1. by rewrite (mux_route _ _ _ _ F).
  - unfold HandleGenerateKeys, try, lift, mbind, M_bind. split; [intros s1; rewrite (mux_route _ _ _ _ F); cbn [handle];
      unfold HandleGenerateKeys, try, lift, mbind, M_bind|]; by destruct (GenerateKeyPair _) as [[]| | |].
  - unfold handleGenerateContentKey, try, lift, mbind, M_bind. split; [intros s1; rewrite (mux_route _ _ _ _ F); cbn [handle];
      unfold handleGenerateContentKey, try, lift, mbind, M_bind|]; by destruct (NewContentKey _).
Qed.

(** A message [Append] refuses, it refuses whatever the log. *)
Lemma refusal_static env r m err l l' : message_of r = Some m -> advance (e_now env) m PStart l = Some (PDone (Err err), l') ->
  static env r (submitted (Err err)).
Proof.
  unfold message_of. destruct (find_route _ _) as [x|] eqn:F; [|done]. destruct (posts x) as [[c cap]|] eqn:P; [|done].
  destruct (submission cap r c) as [m'|] eqn:Sb; [|done]. intros [= ->] A s.
  rewrite (mux_route _ _ _ _ F), (handle_posts _ _ _ _ _ _ P), handleSubmit_sends, Sb. unfold Append. cbn [advance] in A.
  destruct (supportedVersion _); cbn [negb] in *; [|injection A as <- _; by destruct s as [[]]].
  destruct (VerifyMessage m); cbn [negb] in *; [done|injection A as <- _; by destruct s as [[]]].
Qed.

(** *** One step *)

Definition stepped_to (n : node) (i : nat) (v : visit) (st : stage) s : node :=
  {| n_server := s; visits := <[i := at_stage st v]> (visits n) |}.

(** What a step of visit [i] does. *)
Record sound_step (n : node) (i : nat) (v : visit) (st : stage) s : Prop := {
  ss_ok : node_ok (stepped_to n i v st s);
  ss_grows : grows (n_log n) (log_in s);
}.

Lemma sound_quiet n i v st s : node_ok n -> visits n !! i = Some v -> thread_of (at_stage st v) = thread_of v ->
  visit_ok (at_stage st v) -> (exists b, broker_inv b /\ log_in s = set_broker b (n_log n)) -> sound_step n i v st s.
Proof.
  intros [I V] E T K (b & Br & L). split; [split|].
  - unfold stepped_to. rewrite (system_insert n i v st s E T), L. by apply sys_inv_broker.
  - by apply Forall_insert.
  - rewrite L. by apply grows_same.
Qed.

Lemma node_broker n : node_ok n -> broker_inv (broker (n_log n)).
Proof. intros [I _]. apply (so_broker _ (si_ok _ I)). Qed.

Lemma quiet_same n s : node_ok n -> log_in s = n_log n -> exists b, broker_inv b /\ log_in s = set_broker b (n_log n).
Proof.
  intros K L. exists (broker (n_log n)). split; [by apply node_broker|]. rewrite L. by destruct (n_log n).
Qed.

Lemma sound_reading n i v q rd rd' l : node_ok n -> visits n !! i = Some v -> v_stage v = GReading q rd ->
  read_step rd (n_log n) = Some (rd', l) -> sound_step n i v (GReading q rd') (with_log l (n_server n)) /\ l = n_log n.
Proof.
  intros K E St R. pose proof (no_visits _ K) as V. rewrite Forall_lookup in V. specialize (V i v E). unfold visit_ok in V.
  rewrite St in V. destruct V as (W & x & F & A).
  pose proof (within_step 3 rd (n_log n) (fun c => inv_sealed _ c (no_system _ K)) W) as N. destruct rd as [|X p k]; [done|].
  destruct N as (a & _ & N & _ & Wa). rewrite N in R. injection R as <- <-. split; [|done].
  apply sound_quiet; [done|done| | |by apply quiet_same].
  - unfold thread_of. by rewrite St.
  - cbn. split; [|by exists x]. eapply within_weaken; [|exact Wa]. cbn. lia.
Qed.

(** A call returns an error at the start, or from its [Unlock]. *)
Lemma advance_refuses now m p l err l' : advance now m p l = Some (PDone (Err err), l') -> p = PStart \/ p = PUnlock (Err err).
Proof.
  destruct p; cbn [advance]; unfold call, after_publish, fail; intros A; repeat case_match; simplify_eq; auto.
Qed.

Lemma sound_sending n i v p p' m l : node_ok n -> visits n !! i = Some v -> v_stage v = GSending p ->
  message_of (v_req v) = Some m -> advance (e_now (v_env v)) m p (n_log n) = Some (p', l) ->
  sound_step n i v (GSending p') (with_log l (n_server n)).
Proof.
  intros K E St M A. pose proof (no_visits _ K) as V. rewrite Forall_lookup in V. specialize (V i v E). unfold visit_ok in V.
  rewrite St in V. destruct V as (m' & M' & _). assert (m' = m) as -> by congruence.
  assert (threads (system_of n) !! i = Some (thread_of v)) as Et by (cbn; rewrite list_lookup_fmap; by rewrite E).
  assert (t_phase (thread_of v) = p /\ t_msg (thread_of v) = m /\ t_now (thread_of v) = e_now (v_env v)) as (Tp & Tm & Tn)
    by (cbn; by rewrite St, M).
  assert (sys_step (system_of n) (system_of (stepped_to n i v (GSending p') (with_log l (n_server n))))) as Ss.
  { replace (system_of (stepped_to n i v (GSending p') (with_log l (n_server n)))) with
      {| shared := l; threads := <[i := at_phase p' (thread_of v)]> (threads (system_of n)) |}.
    - econstructor; [exact Et|]. by rewrite Tp, Tm, Tn.
    - unfold system_of, stepped_to, n_log. cbn [n_server visits threads]. f_equal.
      change (map thread_of) with (fmap (M := list) thread_of). by rewrite list_fmap_insert. }
  destruct (step_inv _ _ (no_system _ K) Ss) as [I _]. pose proof (step_grows _ _ (no_system _ K) Ss) as G.
  split; [split; [exact I|]|exact G]. apply Forall_insert; [apply K|]. cbn. exists m. split; [done|].
  intros err ->. destruct (advance_refuses _ _ _ _ _ _ A) as [->| ->]; [by eapply refusal_static|]. exfalso.
  pose proof (so_phase _ (si_ok _ (no_system _ K)) i (thread_of v) Et) as P. rewrite Tp in P. by destruct (P eq_refl).
Qed.

Lemma sound_arrived n i v st s : node_ok n -> visits n !! i = Some v -> v_stage v = GArrived ->
  entered (v_env v) (v_req v) (n_server n) = (st, s) -> sound_step n i v st s.
Proof.
  intros K E St A. unfold entered in A.
  assert (log_in s = n_log n /\ (st = GRouted \/ st = GDone (Ok limited) /\ r_path (v_req v) <> ["healthz"%string])) as [L T].
  { destruct (s_limiter (n_server n)) as [lim|]; [|by simplify_eq; split; [|left]].
    case_bool_decide; [by simplify_eq; split; [|left]|].
    destruct (Allow _ _ _ lim) as [[[]| | |] lim']; simplify_eq; (split; [done|]); auto. }
  apply sound_quiet; [done|done| | |by apply quiet_same].
  - unfold thread_of. rewrite St. by destruct T as [->|[-> _]].
  - destruct T as [->|[-> N]]; [done|by left].
Qed.

Lemma begun_same env r x s st s' : begun env r x s = (st, s') ->
  find_route (r_method r) (r_path r) = inl x ->
  s' = s /\ (match st with GSending p => p = PStart | _ => True end) /\
  forall v, v_env v = env -> v_req v = r -> visit_ok (at_stage st v).
Proof.
  unfold begun. intros B0 F. destruct (posts x) as [[c cap]|] eqn:P.
  { injection B0 as <- <-. split; [done|]. destruct (submission cap r c) as [m|o] eqn:Sb; (split; [done|]); intros v Ev Er; cbn.
    - exists m. split; [|done]. unfold message_of. by rewrite Er, F, P, Sb.
    - right. left. rewrite Ev, Er. by eapply refused_static. }
  destruct (asks r x) as [[q|o]|] eqn:A.
  - injection B0 as <- <-. split_and!; [done..|]. intros v Ev Er. cbn. split; [by eapply reading_within, asks_ok|].
    exists x. by rewrite Er.
  - injection B0 as <- <-. split_and!; [done..|]. intros v Ev Er. cbn. right. left. rewrite Ev, Er. by eapply mistaken_static.
  - assert ((exists c, x = RStream c) \/ (forall c, x <> RStream c)) as [[c ->]|Ns]
      by (destruct x; (by right) || (left; by eexists)).
    + injection B0 as <- <-. split_and!; [done..|]. intros v Ev Er. cbn. by rewrite Er.
    + destruct (other_static env r x s F P A Ns) as [T S0].
      assert ((GDone (handle env r x s).1, (handle env r x s).2) = (st, s')) as E.
      { rewrite <-B0. destruct x; try done; [destruct (handle _ _ _ _)..|by destruct (Ns chatID)]; done. }
      injection E as <- <-. split_and!; [done..|]. intros v Ev Er. cbn. right. left. by rewrite Ev, Er.
Qed.

Lemma sound_routed n i v st s : node_ok n -> visits n !! i = Some v -> v_stage v = GRouted ->
  visit_step (v_env v) (v_req v) GRouted (n_server n) = Some (st, s) -> sound_step n i v st s.
Proof.
  intros K E St A. cbn [visit_step] in A. injection A as A.
  assert (s = n_server n /\ (match st with GSending p => p = PStart | _ => True end) /\ visit_ok (at_stage st v)) as (-> & T & Vo).
  { destruct (find_route _ _) as [x|code] eqn:F.
    - destruct (begun_same _ _ _ _ _ _ A F) as (-> & T & Vo). split_and!; [done..|]. by apply Vo.
    - injection A as <- <-. split_and!; [done..|]. right. left. intros s. unfold mux. cbn. by rewrite F. }
  apply sound_quiet; [done|done| |done|by apply quiet_same].
  unfold thread_of. rewrite St. cbn [v_stage at_stage v_env v_req]. destruct st; try done. by rewrite T.
Qed.

Lemma subscribed n o l : broker_inv (broker (n_log n)) -> LogSubscribe (n_log n) = (o, l) ->
  (exists b, broker_inv b /\ l = set_broker b (n_log n)) /\ settled o.
Proof.
  intros Br E. unfold LogSubscribe, on_broker, zoom in E.
  destruct (subscribe_returns _ Br) as (b & Br' & [(id & S1 & _)|[e S1]]); rewrite S1 in E; injection E as <- <-;
    (split; [by exists b|]); [left|right]; by eexists.
Qed.

Lemma cancelled n id o l : broker_inv (broker (n_log n)) -> on_broker (Cancel id) (n_log n) = (o, l) ->
  (exists b, broker_inv b /\ l = set_broker b (n_log n)) /\ o <> Block.
Proof.
  intros Br E. unfold on_broker, zoom in E.
  pose proof (cancel_keeps id _ Br) as Kp. pose proof (cancel_ends id _ Br) as En.
  destruct (Cancel id (broker (n_log n))) as [o1 b]. injection E as <- <-. split; [by exists b|done].
Qed.

Lemma hang_up_run n id v : broker_inv (broker (n_log n)) -> exists o s, hang_up id v (n_server n) = Some (GDone o, s) /\
  (forall w, o = Ok w -> w = v) /\ exists b, broker_inv b /\ log_in s = set_broker b (n_log n).
Proof.
  intros K. unfold hang_up, MsgrCancel. rewrite on_svc_log. fold (n_log n).
  destruct (on_broker (Cancel id) (n_log n)) as [o l] eqn:E. destruct (cancelled n id o l K E) as [Br Nb].
  destruct o; try done; do 2 eexists; (split_and!; [done| |done]); by intros w [= <-].
Qed.

(** The response of a stream that returns, and the last step. *)
Lemma listening_step env r c id s q : visit_step env r (GListening c id) s = Some q ->
  exists v, hang_up id v s = Some q /\ stream_reply env c (Ok v).
Proof.
  cbn [visit_step]. destruct (e_upgrade env) as [code|] eqn:U.
  - intros E. exists (writeJSON code JNone). split; [done|]. intros w [= <-]. right. left. by exists code.
  - destruct (stream_loop c (e_stream env)) as [fs []] eqn:L; [|done]. intros E. exists (writeJSON 101 (JFrames fs)).
    split; [done|]. intros w [= <-]. right. right. by exists fs.
Qed.

Lemma step_sound n i v st s : node_ok n -> visits n !! i = Some v ->
  visit_step (v_env v) (v_req v) (v_stage v) (n_server n) = Some (st, s) -> sound_step n i v st s.
Proof.
  intros K E A. pose proof (no_visits _ K) as Vo. rewrite Forall_lookup in Vo. specialize (Vo i v E). unfold visit_ok in Vo.
  destruct (v_stage v) as [| |q rd|p|c|c id|o] eqn:St.
  - injection A as A. by apply sound_arrived.
  - by apply sound_routed.
  - cbn [visit_step] in A. fold (n_log n) in A. destruct (read_step rd (n_log n)) as [[rd' l]|] eqn:R; [|done].
    injection A as <- <-. by eapply sound_reading.
  - cbn [visit_step] in A. fold (n_log n) in A. destruct (message_of (v_req v)) as [m|] eqn:M; [|done].
    destruct (advance _ m p (n_log n)) as [[p' l]|] eqn:Ad; [|done]. injection A as <- <-. by eapply sound_sending.
  - cbn [visit_step] in A. unfold MsgrSubscribe in A. rewrite on_svc_log in A. fold (n_log n) in A.
    destruct (LogSubscribe (n_log n)) as [o l] eqn:L. destruct (subscribed n o l (node_broker _ K) L) as [Br _].
    destruct o as [id|err| |]; simplify_eq; apply sound_quiet; try done; try (unfold thread_of; by rewrite St).
    + right. right. exists c. split; [exact Vo|]. intros w [= <-]. left. by eexists.
    + right. right. by exists c.
  - destruct (listening_step _ _ _ _ _ _ A) as (w & Hu & Re). destruct (hang_up_run n id w (node_broker _ K)) as (o & s' & Hu' & Ow & Br).
    rewrite Hu in Hu'. injection Hu' as -> ->. apply sound_quiet; [done|done|unfold thread_of; by rewrite St| |done].
    right. right. exists c. split; [exact Vo|]. intros w' ->. apply Re. by rewrite (Ow w' eq_refl).
  - done.
Qed.

Lemma node_step_ok n n' : node_ok n -> node_step n n' -> node_ok n' /\ grows (n_log n) (n_log n').
Proof. intros K [i v st s E A]. destruct (step_sound n i v st s K E A) as [Ok G]. by split. Qed.

Lemma node_run_ok n n' : node_ok n -> rtc node_step n n' -> node_ok n' /\ grows (n_log n) (n_log n').
Proof.
  intros K R. induction R as [n|n n1 n2 St _ IH]; [done|]. destruct (node_step_ok n n1 K St) as [K1 G1].
  destruct (IH K1) as [K2 G2]. split; [done|by etrans].
Qed.

Lemma arrivals_system s rs : system_of (arrivals s rs) =
  calls (log_in s) (map (fun er => (e_now er.1, default no_message (message_of er.2))) rs).
Proof. unfold calls, system_of, arrivals. cbn [visits n_server]. by rewrite !map_map. Qed.

Lemma arrivals_ok s rs : fresh_log (log_in s) -> Z.of_nat (length rs) + 1 < 2 ^ 64 -> node_ok (arrivals s rs).
Proof.
  intros F R. split; [|by apply Forall_map, Forall_true].
  rewrite arrivals_system. apply calls_inv; [done|by rewrite length_map].
Qed.

(** ** A visit since [n0] *)

Definition known (n0 n : node) (v : visit) : Prop :=
  match v_stage v with
  | GReading q rd =>
      match q with
      | QSync c => sync_state c (n_log n) rd
      | _ => tracked node_step n_log (reading_of q) n0 n rd
      end
  | GSending p => forall m e, message_of (v_req v) = Some m -> p = PStore e \/ entry_of p = Some e ->
      Z.of_nat (length (log_at (n_log n0) (ChatID m))) <= Sequence e
  | _ => True
  end.

Lemma known_other n0 n n' v : node_step n n' -> grows (n_log n) (n_log n') -> known n0 n v -> known n0 n' v.
Proof.
  unfold known. intros St G. destruct (v_stage v) as [| |q rd|p| | |]; try done.
  destruct q; try (by apply tracked_grows). by apply sync_grows.
Qed.

Lemma known_reading n0 n n' i v q rd rd' l : rtc node_step n0 n -> node_ok n -> node_step n n' -> grows (n_log n) (n_log n') ->
  visits n !! i = Some v -> v_stage v = GReading q rd -> read_step rd (n_log n) = Some (rd', l) ->
  known n0 n v -> known n0 n' (at_stage (GReading q rd') v).
Proof.
  unfold known. intros R0 K St G E Sg Rs. rewrite Sg. cbn [v_stage at_stage].
  pose proof (no_visits _ K) as V. rewrite Forall_lookup in V. specialize (V i v E). unfold visit_ok in V.
  rewrite Sg in V. destruct V as [W _].
  assert (forall c, sealed c (log_at (n_log n) c) (snaps_at (n_log n) c)) as Se by (intros c; apply (inv_sealed _ c (no_system _ K))).
  destruct q; try (intros T; eapply tracked_grows; [done..|]; by eapply tracked_step).
  intros T. eapply sync_grows; [done|]. by eapply sync_step.
Qed.

Lemma known_sending n0 n i v p p' m l (n' := stepped_to n i v (GSending p') (with_log l (n_server n))) :
  rtc node_step n0 n -> node_ok n0 -> node_ok n -> node_ok n' -> grows (n_log n) (n_log n') ->
  visits n !! i = Some v -> v_stage v = GSending p -> message_of (v_req v) = Some m ->
  advance (e_now (v_env v)) m p (n_log n) = Some (p', l) ->
  known n0 n v -> known n0 n' (at_stage (GSending p') v).
Proof.
  unfold known. intros R0 K0 K K' G E Sg M A. rewrite Sg. cbn [v_stage at_stage v_req]. intros Kn m' e M' He.
  assert (m' = m) as -> by congruence. clear M'.
  assert (threads (system_of n) !! i = Some (thread_of v)) as Et by (cbn; rewrite list_lookup_fmap; by rewrite E).
  destruct (advance_good (system_of n) i (thread_of v) p' l (no_system _ K) Et) as [_ _ _ En];
    [cbn; by rewrite Sg, M|]. cbn [t_phase thread_of] in En. rewrite Sg in En.
  destruct He as [-> | He].
  - assert (threads (system_of n') !! i = Some (thread_of (at_stage (GSending (PStore e)) v))) as Et'
      by (cbn; rewrite list_lookup_fmap, list_lookup_insert_eq by (by eapply lookup_lt_Some); done).
    pose proof (so_phase _ (si_ok _ (no_system _ K')) i _ Et') as P.
    assert (chat_of (thread_of (at_stage (GSending (PStore e)) v)) = ChatID m) as Ch by (unfold chat_of; cbn; by rewrite M).
    rewrite Ch in P. cbn in P. rewrite M in P.
    destruct (P eq_refl) as (_ & _ & ->). cbn [Sequence new_entry].
    destruct (node_run_ok n0 n K0 R0) as [_ G0]. pose proof (prefix_length _ _ (gr_log _ _ (transitivity G0 G) (ChatID m))) as L.
    apply Nat2Z.inj_le. exact L.
  - apply (Kn m e M). rewrite He in En. destruct p; try (by right). left. congruence.
Qed.

Lemma known_step n0 n i v st s : rtc node_step n0 n -> node_ok n0 -> node_ok n -> visits n !! i = Some v ->
  visit_step (v_env v) (v_req v) (v_stage v) (n_server n) = Some (st, s) -> known n0 n v ->
  known n0 (stepped_to n i v st s) (at_stage st v).
Proof.
  intros R0 K0 K E A Kn. destruct (step_sound n i v st s K E A) as [K' G].
  assert (node_step n (stepped_to n i v st s)) as St by by econstructor.
  destruct (v_stage v) as [| |q rd|p|c|c id|o] eqn:Sg; cbn [visit_step] in A.
  - injection A as A. unfold entered in A.
    destruct (s_limiter _); [destruct (bool_decide _); [|destruct (Allow _ _ _ _) as [[[]| | |]]]|]; by simplify_eq.
  - injection A as A. destruct (find_route _ _) as [x|]; [|by simplify_eq]. unfold begun in A.
    destruct (posts x) as [[c cap]|]; [destruct (submission cap _ c); simplify_eq; [by intros m e _ []|done]|].
    destruct (asks _ x) as [[q|o]|]; [|by simplify_eq|].
    + injection A as <- <-. unfold known. cbn [v_stage at_stage].
      destruct q; try (apply tracked_start; [by eapply rtc_r|by apply reading_linear]). by left.
    + destruct x; try (destruct (handle _ _ _ _)); by simplify_eq.
  - fold (n_log n) in A. destruct (read_step rd (n_log n)) as [[rd' l]|] eqn:R; [|done].
    injection A as <- <-. by eapply known_reading.
  - fold (n_log n) in A. destruct (message_of (v_req v)) as [m|] eqn:M; [|done].
    destruct (advance _ m p (n_log n)) as [[p' l]|] eqn:Ad; [|done]. injection A as <- <-. by eapply known_sending.
  - unfold MsgrSubscribe in A. destruct (on_svc _ _) as [[]]; by simplify_eq.
  - destruct (listening_step _ (v_req v) _ _ _ _ A) as (w & Hu & _).
    unfold hang_up in Hu. destruct (on_svc _ _) as [[]]; by simplify_eq.
  - done.
Qed.

(** A visit from its arrival on. *)
Lemma known_run n0 n i v : node_ok n0 -> visits n0 !! i = Some v -> v_stage v = GArrived -> rtc node_step n0 n ->
  exists st, visits n !! i = Some (at_stage st v) /\ known n0 n (at_stage st v).
Proof.
  intros K0 E Sg R. revert n R. apply rtc_ind_r.
  - exists GArrived. split; [|done]. rewrite E. destruct v. cbn in Sg. by subst.
  - intros n n' R St (st & En & Kn). destruct (node_run_ok n0 n K0 R) as [K _].
    destruct (node_step_ok n n' K St) as [_ G]. pose proof St as St'. destruct St' as [j vj stj s Ej A].
    destruct (decide (j = i)) as [->|Ne].
    + simplify_eq. exists stj. cbn [visits]. rewrite list_lookup_insert_eq by by eapply lookup_lt_Some. split; [done|].
      by eapply (known_step n0 n i (at_stage st v)).
    + exists st. cbn [visits]. rewrite list_lookup_insert_ne by done. split; [done|]. by eapply known_other.
Qed.

(** ** What each request is answered *)

(** As by a handler that runs at one moment between [n0] and [n]. *)
Definition at_a_moment (n0 n : node) (v : visit) (o : outcome Response) : Prop :=
  exists nm, rtc node_step n0 nm /\ rtc node_step nm n /\ mux (v_env v) (v_req v) (n_server nm) = (o, n_server nm).

(** The entry of a message that was posted since [n0]. *)
Record posted (n0 n : node) (i : nat) (m : SignedMessage) (e : LogEntry) : Prop := {
  po_accepted : acceptable m = true;
  po_message : Message e = m;
  po_place : log_at (n_log n) (ChatID m) !! Z.to_nat (Sequence e) = Some e;
  po_since : Z.of_nat (length (log_at (n_log n0) (ChatID m))) <= Sequence e;
  po_own j vj mj ej : j <> i -> visits n !! j = Some vj -> v_stage vj = GSending (PDone (Ok ej)) ->
    message_of (v_req vj) = Some mj -> ChatID mj = ChatID m -> Sequence ej <> Sequence e;
}.

Definition verdict (n0 n : node) (i : nat) (v : visit) (o : outcome Response) : Prop :=
  refused (v_req v) o \/
  at_a_moment n0 n v o \/
  (exists m e, message_of (v_req v) = Some m /\ o = Ok (writeJSON 201 (JEntry e)) /\ posted n0 n i m e) \/
  (exists c b from k m, find_route (r_method (v_req v)) (r_path (v_req v)) = inl (RSync c) /\
    o = Ok (writeJSON 200 (JSync b)) /\ bundle_of c (log_at (n_log n) c) b from k m) \/
  (exists c, streams (v_req v) c /\ stream_reply (v_env v) c o).

Lemma static_moment n0 n v o : rtc node_step n0 n -> static (v_env v) (v_req v) o -> at_a_moment n0 n v o.
Proof. intros R T. exists n. by split_and!. Qed.

Lemma reading_verdict n0 n i v q o x : rtc node_step n0 n ->
  find_route (r_method (v_req v)) (r_path (v_req v)) = inl x -> asks (v_req v) x = Some (inl q) ->
  known n0 n (at_stage (GReading q (Return o)) v) -> verdict n0 n i v (render q o).
Proof.
  intros R F A Kn. unfold known in Kn. cbn [v_stage at_stage] in Kn.
  assert (tracked node_step n_log (reading_of q) n0 n (Return o) -> verdict n0 n i v (render q o)) as Tr.
  { intros (nm & R0 & R1 & Once). right. left. exists nm. split_and!; [done..|].
    rewrite (mux_route _ _ _ _ F), (handle_asks _ _ _ _ _ A). rewrite <-reading_at_once. fold (n_log nm). rewrite Once.
    unfold n_log. by rewrite with_log_same. }
  destruct q as [| | | | |c]; try (by apply Tr). right. right. right. left.
  destruct Kn as [N|[(?&?&?&?&N)|[(?&?&?&?&?&N)|(o' & N & b & from & k & m & -> & Bo)]]]; try done. injection N as ->.
  assert (x = RSync c) as ->.
  { destruct x; try done; cbn in A; unfold history_query, sequence_query in A; repeat case_match; by simplify_eq. }
  exists c, b, from, k, m. by split_and!.
Qed.

Lemma sending_verdict n0 n i v p o : node_ok n -> rtc node_step n0 n -> visits n !! i = Some (at_stage (GSending p) v) ->
  known n0 n (at_stage (GSending p) v) -> answered (GSending p) = Some o -> verdict n0 n i v o.
Proof.
  intros K R E Kn An. destruct p as [| | | | | | | | | | |oe]; try done. injection An as <-.
  pose proof (no_visits _ K) as V. rewrite Forall_lookup in V. destruct (V i _ E) as (m & M & Re).
  cbn [v_req v_env at_stage] in M, Re.
  set (th := thread_of (at_stage (GSending (PDone oe)) v)).
  assert (threads (system_of n) !! i = Some th) as Et by (cbn; rewrite list_lookup_fmap; by rewrite E).
  assert (t_msg th = m /\ chat_of th = ChatID m /\ t_phase th = PDone oe) as (Tm & Tc & Tp)
    by (unfold chat_of; cbn; rewrite M; done).
  pose proof (no_system _ K) as I. pose proof (so_outside _ (si_ok _ I) i th Et) as Ou. unfold outside_ok in Ou.
  rewrite Tp, Tm in Ou. destruct (acceptable m) eqn:Ac; destruct Ou as [e ->].
  2:{ right. left. apply static_moment; [done|]. by apply Re. }
  right. right. left. exists m, e. split_and!; [done..|].
  destruct (so_kept _ (si_ok _ I) i th Et e) as (Me & _ & L); [by rewrite Tp|]. rewrite Tm in Me. rewrite Tc in L.
  split; [done..|by apply (Kn m e M); right|]. intros j vj mj ej Ne Ej Sj Mj Ch.
  apply (so_distinct _ (si_ok _ I) j i (thread_of vj) th); [cbn; rewrite list_lookup_fmap; by rewrite Ej|done|done| | |by rewrite Tp].
  - rewrite Tc, <-Ch. unfold chat_of. cbn. by rewrite Mj.
  - cbn. by rewrite Sj.
Qed.

(** C4: concurrent requests.  Let requests run concurrently over a server with
    fresh logs, in any interleaving of their steps, and take one that arrives in
    [n0] and has been answered in [n].  It was turned away by the limiter; or the
    answer is that of its handler run at one moment between [n0] and [n], on the
    server as it was then and leaving it so; or it posted an acceptable message,
    and the 201 carries the message's entry, which is in the log at its sequence,
    after everything that was there in [n0], at a place no other request has; or
    it is a sync, whose bundle is of moments of the log; or it is a stream, and a
    response of it is that of its own chat's events. *)
Theorem conc_requests s rs n0 n i v v' o : fresh_log (log_in s) -> Z.of_nat (length rs) + 1 < 2 ^ 64 ->
  rtc node_step (arrivals s rs) n0 -> visits n0 !! i = Some v -> v_stage v = GArrived ->
  rtc node_step n0 n -> visits n !! i = Some v' -> answered (v_stage v') = Some o -> verdict n0 n i v o.
Proof.
  intros F Rm R0 E Sg R E' An. destruct (node_run_ok _ n0 (arrivals_ok s rs F Rm) R0) as [K0 _].
  destruct (node_run_ok n0 n K0 R) as [K _]. destruct (known_run n0 n i v K0 E Sg R) as (st & En & Kn).
  assert (v' = at_stage st v) as -> by congruence. pose proof (no_visits _ K) as V. rewrite Forall_lookup in V. pose proof (V i _ En) as Vo. unfold visit_ok in Vo.
  cbn [v_stage at_stage v_env v_req] in *. destruct st as [| |q rd|p|c|c id|o1]; try done.
  - destruct rd as [o1|]; [|done]. injection An as <-. destruct Vo as (_ & x & F1 & A). by eapply reading_verdict.
  - by eapply sending_verdict.
  - injection An as ->. destruct Vo as [T|[T|T]]; [by left|right; left; by apply static_moment|by do 4 right].
Qed.

End Runs.

(** ** Every request is answered *)

(** The steps a visit has left, at most. *)
Definition owes (st : stage) (k : nat) : Prop :=
  match st with
  | GArrived => k = 13%nat
  | GRouted => k = 12%nat
  | GReading _ rd => within k rd
  | GSending p => k = rank p
  | GSubscribing _ => k = 2%nat
  | GListening _ _ => k = 1%nat
  | GDone _ => k = 0%nat
  end.

(** The client of a stream goes away in the end. *)
Definition hangs_up (env : Env) : Prop := forall c, (stream_loop c (e_stream env)).2 = true.

Definition is_answered (v : visit) : bool := match answered (v_stage v) with Some _ => true | None => false end.

Section Serving.
Context {S C B : Type} `{Storage S} `{Cache C} `{BL : BrokerLaws B}.
Context `{HashFunction} `{Ed25519} `{RateLimiter}.
Implicit Types s : Server S C B.
Implicit Types n : node (S := S) (C := C) (B := B).

(** What keeps a node serving: an invariant under which every port call returns
    and brings its request further, and some request holds each mutex that is
    held. *)
Record sustained (good : node -> Prop) : Prop := {
  su_step n n' : good n -> node_step n n' -> good n';
  su_broker n : good n -> broker_inv (broker (n_log n));
  su_reading n i v q rd : good n -> visits n !! i = Some v -> v_stage v = GReading q rd ->
    match rd with
    | Return _ => True
    | Ask _ _ => exists rd' l, read_step rd (n_log n) = Some (rd', l) /\ forall k, within k rd -> within (pred k) rd'
    end;
  su_sending n i v p : good n -> visits n !! i = Some v -> v_stage v = GSending p ->
    exists m, message_of (v_req v) = Some m /\ forall p' l,
      advance (e_now (v_env v)) m p (n_log n) = Some (p', l) -> (rank p' < rank p)%nat;
  su_holder n i v p : good n -> visits n !! i = Some v -> v_stage v = GSending p -> holding p = true ->
    exists n', node_step n n';
  su_held n c : good n -> locks (n_log n) !! c = Some true ->
    exists i v p, visits n !! i = Some v /\ v_stage v = GSending p /\ holding p = true;
}.

Definition debts n (k : nat) : Prop :=
  exists ks, Forall2 (fun k v => owes (v_stage v) k) ks (visits n) /\ k = sum_list ks.
Definition all_served n : bool := forallb is_answered (visits n).

Context (good : node -> Prop) (Su : sustained good).

Lemma owes_step n i v st s k : good n -> visits n !! i = Some v ->
  visit_step (v_env v) (v_req v) (v_stage v) (n_server n) = Some (st, s) -> owes (v_stage v) k -> exists m, owes st m /\ (m < k)%nat.
Proof.
  intros K E A Ow.
  destruct (v_stage v) as [| |q rd|p|c|c id|o] eqn:Sg; cbn [visit_step owes] in *.
  - injection A as A. subst k. unfold entered in A.
    destruct (s_limiter _); [destruct (bool_decide _); [|destruct (Allow _ _ _ _) as [[[]| | |]]]|]; simplify_eq;
      eexists; (split; [reflexivity|lia]).
  - injection A as A. subst k. destruct (find_route _ _) as [x|]; [|simplify_eq; exists 0%nat; split; [done|lia]]. unfold begun in A.
    destruct (posts x) as [[c cap]|];
      [destruct (submission cap _ c); simplify_eq; eexists; (split; [reflexivity|cbn; lia])|].
    destruct (asks _ x) as [[q|o]|] eqn:As; [|simplify_eq; exists 0%nat; split; [done|lia]|].
    + injection A as <- <-. exists 3%nat. split; [by eapply reading_within, asks_ok|lia].
    + destruct x; try (destruct (handle _ _ _ _)); simplify_eq; eexists; (split; [reflexivity|lia]).
  - fold (n_log n) in A. pose proof (su_reading _ Su n i v q rd K E Sg) as N.
    destruct rd as [|X p k']; [done|]. destruct N as (rd' & l & N & W). rewrite N in A. injection A as <- _.
    destruct k as [|k]; [done|]. exists k. split; [exact (W _ Ow)|lia].
  - fold (n_log n) in A. destruct (su_sending _ Su n i v p K E Sg) as (m & M & Rk). rewrite M in A. subst k.
    destruct (advance _ m p (n_log n)) as [[p' l]|] eqn:Ad; [|done]. injection A as <- _. eexists. by split; [|eapply Rk].
  - subst k. destruct (on_svc _ _) as [[]]; simplify_eq; eexists; (split; [reflexivity|lia]).
  - subst k. exists 0%nat. split; [|lia]. destruct (listening_step _ (v_req v) _ _ _ _ A) as (w & Hu & _).
    unfold hang_up in Hu. destruct (on_svc _ _) as [[]]; by simplify_eq.
  - done.
Qed.

Lemma sender_steps n i v p : good n -> visits n !! i = Some v -> v_stage v = GSending p ->
  answered (GSending p) = None -> exists n', node_step n n'.
Proof.
  intros K E Sg An. destruct (holding p) eqn:Hp; [by eapply (su_holder _ Su)|].
  destruct (su_sending _ Su n i v p K E Sg) as (m & M & _).
  assert (forall q, advance (e_now (v_env v)) m p (n_log n) = Some q -> exists n', node_step n n') as Go.
  { intros [p' l] A. eexists. econstructor; [exact E|]. rewrite Sg. cbn [visit_step]. rewrite M. fold (n_log n). by rewrite A. }
  destruct p; try done.
  - cbn [advance] in Go. repeat case_match; by eapply Go.
  - cbn [advance] in Go. unfold Lock in Go. destruct (locks (n_log n) !! ChatID m) as [[]|] eqn:Lk; [|by eapply Go..].
    destruct (su_held _ Su n _ K Lk) as (j & vj & pj & Ej & Sj & Hj). by eapply (su_holder _ Su).
Qed.

Lemma visit_steps n i v : good n -> visits n !! i = Some v -> hangs_up (v_env v) -> answered (v_stage v) = None ->
  exists n', node_step n n'.
Proof.
  intros K E Hu An. pose proof (su_broker _ Su n K) as Br.
  assert (forall q, visit_step (v_env v) (v_req v) (v_stage v) (n_server n) = Some q -> exists n', node_step n n') as Go
    by (intros [st s] A; eexists; by econstructor).
  destruct (v_stage v) as [| |q rd|p|c|c id|o] eqn:Sg; [by eapply Go..| | | | |done].
  - pose proof (su_reading _ Su n i v q rd K E Sg) as N.
    destruct rd as [|X p k]; [done|]. destruct N as (x & l & N & _). eapply Go. cbn [visit_step]. fold (n_log n). by rewrite N.
  - by eapply sender_steps.
  - cbn [visit_step] in Go. unfold MsgrSubscribe in Go. rewrite on_svc_log in Go. fold (n_log n) in Go.
    destruct (LogSubscribe (n_log n)) as [o l] eqn:L. destruct (subscribed n o l Br L) as [_ [[a ->]|[e ->]]]; by eapply Go.
  - cbn [visit_step] in Go. destruct (e_upgrade _) as [code|].
    + destruct (hang_up_run n id (writeJSON code JNone) Br) as (o & s & A & _). by eapply Go.
    + specialize (Hu c). destruct (stream_loop c _) as [fs b]. cbn in Hu. subst b.
      destruct (hang_up_run n id (writeJSON 101 (JFrames fs)) Br) as (o & s & A & _). by eapply Go.
Qed.

Lemma served_visit n i v : all_served n = true -> visits n !! i = Some v -> is_answered v = true.
Proof.
  intros A E. unfold all_served in A. rewrite List.forallb_forall in A.
  exact (A v (proj1 (list_elem_of_In _ _) (list_elem_of_lookup_2 _ _ _ E))).
Qed.

Lemma served_stuck n n' : all_served n = true -> ~ node_step n n'.
Proof.
  intros A [i v st s E St]. apply (served_visit n i v A) in E. unfold is_answered in E.
  destruct (v_stage v) as [| |q []|p|c|c id|o]; try done. destruct p; try done. cbn in St.
  by destruct (message_of _).
Qed.

Lemma unserved_steps n : good n -> Forall (fun v => hangs_up (v_env v)) (visits n) -> all_served n = false -> exists n', node_step n n'.
Proof.
  intros K Hu N. destruct (proj1 (existsb_exists (fun v => negb (is_answered v)) (visits n))) as (v & E & A).
  - revert N. unfold all_served. clear K Hu. induction (visits n) as [|v vs IH]; [done|]. cbn. by destruct (is_answered v).
  - apply list_elem_of_In, list_elem_of_lookup_1 in E as [i E]. rewrite Forall_lookup in Hu.
    eapply visit_steps; [done..|by eapply Hu|]. unfold is_answered in A. by destruct (answered _).
Qed.

Lemma debts_step n n' k : good n -> debts n k -> node_step n n' -> exists m, debts n' m /\ (m < k)%nat.
Proof.
  intros K (ks & F & ->) [i v st s E A]. destruct (Forall2_lookup_r _ _ _ _ _ F E) as (k & Ek & Ow).
  destruct (owes_step n i v st s k K E A Ow) as (m & Om & L). eexists. split; [exists (<[i := m]> ks); split; [|done]|].
  - by apply Forall2_insert.
  - pose proof (sum_list_insert ks i k m Ek). lia.
Qed.

Lemma hangs_up_step n n' : node_step n n' -> Forall (fun v => hangs_up (v_env v)) (visits n) ->
  Forall (fun v => hangs_up (v_env v)) (visits n').
Proof.
  intros [i v st s E A] F. apply Forall_insert; [done|]. rewrite Forall_lookup in F. exact (F i v E).
Qed.

(** The three facts that carry over from step to step. *)
Record served_ok (n : node) (k : nat) : Prop := {
  so_node : good n;
  so_hang : Forall (fun v => hangs_up (v_env v)) (visits n);
  so_debt : debts n k;
}.

Lemma served_step n n' k : served_ok n k -> node_step n n' -> exists m, served_ok n' m /\ (m < k)%nat.
Proof.
  intros [K Hu D] St. destruct (debts_step n n' k K D St) as (m & D' & L). exists m. split; [|done].
  split; [by eapply (su_step _ Su)|by eapply hangs_up_step|done].
Qed.

Lemma served_steps n n' k j : served_ok n k -> nsteps node_step j n n' -> exists m, served_ok n' m /\ (m + j <= k)%nat.
Proof.
  intros Sv R. revert k Sv. induction R as [n|j n n1 n2 St _ IH]; intros k Sv; [exists k; split; [done|lia]|].
  destruct (served_step n n1 k Sv St) as (m & S1 & L). destruct (IH m S1) as (m2 & S2 & L2). exists m2. split; [done|lia].
Qed.

Lemma served_finishes n k : served_ok n k -> exists n', rtc node_step n n' /\ all_served n' = true.
Proof.
  revert n. induction (lt_wf k) as [k _ IH]. intros n Sv. destruct (all_served n) eqn:A; [by exists n|].
  destruct (unserved_steps n) as [n1 St]; [apply Sv|apply Sv|done|]. destruct (served_step n n1 k Sv St) as (m & S1 & L).
  destruct (IH m L n1 S1) as (n2 & R & A2). exists n2. split; [by eapply rtc_l|done].
Qed.

Lemma arrivals_served s rs : good (arrivals s rs) -> Forall (fun er => hangs_up er.1) rs ->
  served_ok (arrivals s rs) (13 * length rs)%nat.
Proof.
  intros F Hu. split; [done|by apply Forall_map|]. exists (replicate (length rs) 13%nat). split.
  - apply Forall2_fmap_r. clear. induction rs as [|er rs IH]; [constructor|]. cbn. by constructor.
  - clear. induction rs as [|er rs IH]; [done|]. cbn in *. lia.
Qed.

Lemma sustained_serves s rs k n : good (arrivals s rs) -> Forall (fun er => hangs_up er.1) rs ->
  nsteps node_step k (arrivals s rs) n ->
  (k <= 13 * length rs)%nat /\ ((forall n', ~ node_step n n') <-> all_served n = true) /\
  exists n', rtc node_step n n' /\ all_served n' = true.
Proof.
  intros F Hu St. destruct (served_steps _ _ _ _ (arrivals_served s rs F Hu) St) as (m & Sv & L).
  split_and!; [lia| |by eapply served_finishes]. split; [|intros A n'; by apply served_stuck].
  intros N. apply not_false_is_true. intros A. destruct (unserved_steps n) as [n' St']; [apply Sv|apply Sv|done|]. by apply (N n').
Qed.
End Serving.

Section Served.
Context {S C B : Type} `{SL : StorageLaws S} `{CL : CacheLaws C} `{BL : BrokerLaws B}.
Context `{HashFunction} `{Ed25519} `{RateLimiter}.
Implicit Types s : Server S C B.

Lemma thread_at (n : node (S := S) (C := C) (B := B)) i v : visits n !! i = Some v ->
  threads (system_of n) !! i = Some (thread_of v).
Proof. intros E. cbn. rewrite list_lookup_fmap. by rewrite E. Qed.

Lemma node_holder (n : node (S := S) (C := C) (B := B)) i v p : node_ok n -> visits n !! i = Some v ->
  v_stage v = GSending p -> holding p = true -> exists n', node_step n n'.
Proof.
  intros K E Sg Hp. pose proof (thread_at _ _ _ E) as Et. pose proof (no_system _ K) as I.
  assert (t_phase (thread_of v) = p) as Tp by (cbn; by rewrite Sg).
  destruct (advance_critical (t_now (thread_of v)) (t_msg (thread_of v)) (t_phase (thread_of v)) (shared (system_of n)))
    as (p' & l & A & _); [by rewrite Tp|apply (so_phase _ (si_ok _ I) i); [done|by rewrite Tp]|apply (so_broker _ (si_ok _ I))|by apply stored_room|].
  pose proof (no_visits _ K) as V. rewrite Forall_lookup in V. specialize (V i v E). unfold visit_ok in V. rewrite Sg in V.
  destruct V as (m & M & _). rewrite Tp in A. cbn [t_now t_msg thread_of] in A. rewrite M in A.
  change (advance (e_now (v_env v)) m p (log_in (n_server n)) = Some (p', l)) in A.
  eexists. econstructor; [exact E|]. rewrite Sg. cbn [visit_step]. rewrite M. by rewrite A.
Qed.

Lemma node_sustained : sustained (node_ok (S := S) (C := C) (B := B)).
Proof.
  split.
  - intros n n' K St. by apply (node_step_ok n n' K St).
  - apply node_broker.
  - intros n i v q rd K E Sg. pose proof (no_visits _ K) as V. rewrite Forall_lookup in V. specialize (V i v E).
    unfold visit_ok in V. rewrite Sg in V. destruct rd as [|X p k]; [done|].
    pose proof (within_step 3 _ (n_log n) (fun c => inv_sealed _ c (no_system _ K)) (proj1 V)) as (x & _ & N & Ax & _).
    exists (k x), (n_log n). split; [exact N|]. intros [|m]; [done|]. intros [_ W]. by apply W.
  - intros n i v p K E Sg. pose proof (no_visits _ K) as V. rewrite Forall_lookup in V. specialize (V i v E).
    unfold visit_ok in V. rewrite Sg in V. destruct V as (m & M & _). exists m. split; [done|]. intros p' l Ad.
    destruct (advance_good (system_of n) i (thread_of v) p' l (no_system _ K) (thread_at _ _ _ E)) as [_ Rk _ _];
      [cbn; by rewrite Sg, M|]. cbn [t_phase thread_of] in Rk. by rewrite Sg in Rk.
  - apply node_holder.
  - intros n c K Lk. destruct (so_held _ (si_ok _ (no_system _ K)) c Lk) as (j & th & Et & _ & Hh). cbn in Et.
    rewrite list_lookup_fmap in Et. destruct (visits n !! j) as [vj|] eqn:Ej; [|done]. injection Et as <-.
    cbn [t_phase thread_of] in Hh. destruct (v_stage vj) as [| | |pj| | |] eqn:Sj; try done. by exists j, vj, pj.
Qed.

(** C5: every concurrent request is answered.  In any interleaving each request
    takes at most 13 steps; as long as one has not been answered some request can
    take a step, so nothing waits for ever on the chats' mutexes; and from
    wherever a run is, all requests can be answered, provided the clients of
    streams go away in the end. *)
Theorem requests_all_served s rs k n : fresh_log (log_in s) -> Z.of_nat (length rs) + 1 < 2 ^ 64 ->
  Forall (fun er => hangs_up er.1) rs -> nsteps node_step k (arrivals s rs) n ->
  (k <= 13 * length rs)%nat /\ ((forall n', ~ node_step n n') <-> all_served n = true) /\
  exists n', rtc node_step n n' /\ all_served n' = true.
Proof. intros F R Hu St. eapply (sustained_serves _ node_sustained); [by apply arrivals_ok|done..]. Qed.
End Served.

(** ** Turns *)

Section Turns.
Context {S C B : Type} `{Storage S} `{Cache C} `{Broker B} `{HashFunction} `{Ed25519} `{RateLimiter}.
Implicit Types n : node (S := S) (C := C) (B := B).

(** The visits take steps in the given order. *)
Definition turn n (i : nat) : node :=
  match visits n !! i with
  | Some v => match visit_step (v_env v) (v_req v) (v_stage v) (n_server n) with
              | Some (st, s) => {| n_server := s; visits := <[i := at_stage st v]> (visits n) |}
              | None => n
              end
  | None => n
  end.
Definition turns (order : list nat) n : node := foldl turn n order.

Lemma visits_reach order n : rtc node_step n (turns order n).
Proof.
  revert n. induction order as [|i order IH]; intros n; [done|]. cbn. etrans; [|apply IH].
  unfold turn. destruct (visits n !! i) as [v|] eqn:E; [|done]. destruct (visit_step _ _ _ _) as [[st s]|] eqn:A; [|done].
  apply rtc_once. by econstructor.
Qed.
End Turns.

(** ** Three requests at once *)

Module NodeSample.
Import ApiSample.

Definition fresh_server : Server InMemoryStorage InMemoryCache InMemoryBroker := NewServer (NewMessenger LogSample.start).

Definition sync_request : Request := {|
  r_method := GET; r_path := ["chats"; "c"; "sync"]%string; r_query := fun _ => ""%string; r_body := []; r_cut := false;
  r_remote := "10.0.0.2:4711" |}.

Definition rs : list (Env * Request) := [(env, post 0); (env, page_request "c" 0 10); (env, sync_request)].
Definition begin : node := arrivals fresh_server rs.

(** The sync reads the empty chat, the message is posted, the page is read, and
    the sync reads the last entry. *)
Definition order : list nat := [0; 2; 2; 2; 2; 0; 0; 0; 0; 0; 0; 0; 1; 1; 1; 2]%nat.
Definition final : node := turns order begin.

Definition code (v : visit) : option Z := match answered (v_stage v) with Some (Ok w) => Some (status w) | _ => None end.
Definition listed (v : visit) : option nat :=
  match answered (v_stage v) with
  | Some (Ok {| body := JHistory h |}) => Some (length (Messages h))
  | Some (Ok {| body := JSync b |}) => Some (length (NewEntries b))
  | _ => None
  end.

Lemma codes : map code (visits final) = [Some 201; Some 200; Some 200].
Proof. vm_compute. reflexivity. Qed.

(** The page has the entry; the bundle has not, although it has its hash. *)
Lemma lists : map listed (visits final) = [None; Some 1%nat; Some 0%nat].
Proof. vm_compute. reflexivity. Qed.

Lemma fresh : fresh_log (log_in fresh_server).
Proof. exact LogSample.start_fresh. Qed.

Lemma rs_small : Z.of_nat (length rs) + 1 < 2 ^ 64.
Proof. reflexivity. Qed.

Lemma rs_hang_up : Forall (fun er => hangs_up er.1) rs.
Proof. repeat (apply Forall_cons_2; [intros c; cbn; by case_bool_decide|]). apply Forall_nil_2. Qed.

Lemma begin_reached : rtc node_step (arrivals fresh_server rs) begin.
Proof. reflexivity. Qed.

Lemma first_arrived : visits begin !! 0%nat = Some {| v_env := env; v_req := post 0; v_stage := GArrived |}.
Proof. reflexivity. Qed.

Lemma final_reached : rtc node_step begin final.
Proof. apply visits_reach. Qed.

Lemma first_visit : exists v o, visits final !! 0%nat = Some v /\ answered (v_stage v) = Some o.
Proof.
  pose proof codes as Cd. destruct (visits final) as [|v vs]; [done|]. cbn in Cd. injection Cd as Cv _.
  exists v. unfold code in Cv. destruct (answered (v_stage v)) as [o|]; [by exists o|done].
Qed.
End NodeSample.

Section Witnesses.
Import ApiSample NodeSample.

Lemma conc_requests_witness : exists v o, visits final !! 0%nat = Some v /\ answered (v_stage v) = Some o /\
  verdict begin final 0 {| v_env := env; v_req := post 0; v_stage := GArrived |} o.
Proof.
  destruct first_visit as (v & o & Ev & An). exists v, o. split; [exact Ev|]. split; [exact An|].
  exact (conc_requests fresh_server rs begin final 0 _ v o fresh rs_small begin_reached first_arrived eq_refl final_reached Ev An).
Defined.

Lemma requests_all_served_witness : exists k, nsteps node_step k begin final /\ (k <= 39)%nat /\ all_served final = true.
Proof.
  destruct (proj1 (rtc_nsteps _ _) final_reached) as [k R]. exists k. split; [exact R|].
  destruct (requests_all_served fresh_server rs k final fresh rs_small rs_hang_up R) as (N & _). split; [exact N|].
  vm_compute. reflexivity.
Defined.
End Witnesses.
