(* ===== verification/FaultRequests.v ===== *)
(** * FaultRequests: whole requests over a store that fails

    The concurrent requests of [RequestRuns], over a store each of whose calls
    may fail, with or without effect ([Faults]).  Whatever fails and however the
    requests interleave: the chats stay hash chains that grow by what was posted;
    a reader is told the store's error or what is right; a 201 is for an entry
    that is stored; and every request is answered. *)
From S2P Require Import Prelude Codec JsonText GoTime JsonTree JsonUtf8 TimeText Sha256 Models Merkle Crypto Storage Cache Broker Wire Chatlog LogFacts LogReads LogContract Service RateLimit Api ApiContract Scylla ScyllaLog Faults Concurrency FaultRuns FaultProofs Readings Nodes Interleaved FaultReads Requests RequestRuns.

(** The sequences of a request are [uint64]s. *)
Lemma asks_askable r x q : asks r x = Some (inl q) -> askable q.
Proof.
  assert (forall f t, sequence_query f t = inl q -> (forall n, is_u64 n -> askable (f n)) -> askable q) as Sq.
  { intros f t. unfold sequence_query. destruct (ParseUint t) as [n|] eqn:P; [|done]. intros [= <-] K.
    apply K. by eapply ParseUint_range. }
  destruct x; try done; cbn; intros [= E]; try (by eapply Sq); [|by subst..].
  unfold history_query in E. destruct (parseUintQuery r "from" 0) as [from|] eqn:F; [|done].
  destruct (parseUintQuery r "limit" _) as [n|]; [|done]. destruct (n =? 0); [done|]. injection E as <-.
  unfold parseUintQuery in F. case_bool_decide; [by injection F as <-|by eapply ParseUint_range].
Qed.

(** The messages the requests post to a chat, of those a log accepts. *)
Definition posted_to `{Ed25519} (c : string) (rs : list Request) : list SignedMessage :=
  filter (fun m => acceptable m = true /\ ChatID m = c) (omap message_of rs).

Lemma posted_messages `{Ed25519} c rs :
  filter (fun m => acceptable m = true /\ ChatID m = c) (map (fun r => default no_message (message_of r)) rs) = posted_to c rs.
Proof.
  unfold posted_to. induction rs as [|r rs IH]; [done|]. cbn [map omap list_omap]. rewrite filter_cons.
  destruct (message_of r) as [m|]; cbn [default]; [by rewrite filter_cons, IH|].
  rewrite decide_False; [done|]. by intros [? _].
Qed.

Section Runs.
Context {S C B : Type} `{RL : ReadLaws S} `{CL : CacheLaws C} `{BL : BrokerLaws B}.
Context `{HashFunction} `{Ed25519} `{RateLimiter}.
Implicit Types s : Server S C B.
Implicit Types l : Log S C B.
Implicit Types n : node (S := S) (C := C) (B := B).

(** ** The log under a run *)

Record swells l l' : Prop := {
  sw_log c : entries_of l c `prefix_of` entries_of l' c;
  sw_snaps c : sealed_of l c `prefix_of` sealed_of l' c;
}.

#[export] Instance swells_preorder : PreOrder swells.
Proof.
  split; [by split|]. intros l1 l2 l3 [L1 N1] [L2 N2].
  split; intros c; (etrans; [apply L1 || apply N1|apply L2 || apply N2]).
Qed.

Lemma quiet_swells l l' : quiet l l' -> swells l l'.
Proof. intros [_ _ _ L N]. split; intros c; by rewrite ?L, ?N. Qed.

Lemma runs_orderly l0 (y : @system S C B) : runs_ok l0 y -> orderly (shared y).
Proof. intros K. split; try apply K. intros c. pose proof (ro_room _ _ K c). lia. Qed.

(** What changes no entry, no snapshot and no mutex. *)
Lemma runs_quiet l0 (y : @system S C B) l : runs_ok l0 y -> quiet (shared y) l -> locks l = locks (shared y) ->
  runs_ok l0 {| shared := l; threads := threads y |}.
Proof.
  intros K [Sh So Br L N] Lk. split; cbn [shared threads]; try done.
  - destruct (ro_mutex _ _ K) as [Hd Al]. split; [|exact Al]. intros c. cbn [shared]. rewrite Lk. apply Hd.
  - intros c. rewrite L. apply K.
  - intros c. rewrite L. apply K.
  - intros c. rewrite L, N. apply K.
  - intros i th E. rewrite L, N. destruct (ro_call _ _ K i th E) as (F & Hh & Cp). split; [done|]. split; [|done].
    intros e Ee. rewrite L. by apply Hh.
  - apply K.
  - intros c. rewrite L. apply K.
  - intros c. rewrite L. apply K.
Qed.

Lemma step_swells l0 (y y' : @system S C B) : runs_ok l0 y -> sys_step y y' -> swells (shared y) (shared y').
Proof.
  intros K [i th p l E A]. destruct (runs_step _ _ _ _ _ _ K E A) as (added & more & St & _). cbn [shared].
  split; intros c; [rewrite (moved_log _ _ _ _ _ _ St c)|rewrite (moved_snaps _ _ _ _ _ _ St c)]; by apply prefix_app_r.
Qed.

(** ** Readers *)

(** A call for [q] that began at [l0] and is at [rd]. *)
Definition following l0 l (q : query) (rd : reading answer) : Prop :=
  way (entries_of l0 (asked_chat q)) (entries_of l (asked_chat q))
      (sealed_of l0 (asked_chat q)) (sealed_of l (asked_chat q)) q rd.

Lemma following_grows l0 l l' q rd : swells l l' -> following l0 l q rd -> following l0 l' q rd.
Proof. intros [L N]. by apply way_grows. Qed.

Lemma kept_quiet l (s : S) : kept (store l) s -> broker_inv (broker l) -> quiet l (set_store s l).
Proof. intros [Sh So L N] Br. by split. Qed.

Lemma following_step l0 l q rd : orderly l -> swells l0 l -> askable q -> following l0 l q rd ->
  match rd with
  | Return _ => True
  | Ask _ _ => exists rd' (s : S), read_step rd l = Some (rd', set_store s l) /\ kept (store l) s /\
      (forall k, within k rd -> within (pred k) rd') /\ following l0 (set_store s l) q rd'
  end.
Proof.
  intros O [L N] A W. pose proof (way_step l O _ _ _ (L (asked_chat q)) (N (asked_chat q)) q rd eq_refl A W) as G.
  destruct rd as [|X p k]; [done|]. destruct G as (rd' & s & E & K & Wi & W'). exists rd', s. split_and!; [done..|].
  unfold following. destruct K as [_ _ Ls Ns].
  change (entries_of (set_store s l) (asked_chat q)) with (sh_log s (asked_chat q)).
  change (sealed_of (set_store s l) (asked_chat q)) with (sp_snaps s (asked_chat q)). by rewrite Ls, Ns.
Qed.

(** ** The invariant *)

Definition visit_fine l0 l (v : visit) : Prop :=
  match v_stage v with
  | GReading q rd => within 3 rd /\ following l0 l q rd /\
      exists x, find_route (r_method (v_req v)) (r_path (v_req v)) = inl x /\ asks (v_req v) x = Some (inl q)
  | GSending p => exists m, message_of (v_req v) = Some m /\
      forall err, p = PDone (Err err) -> acceptable m = true \/ static (S := S) (C := C) (B := B) (v_env v) (v_req v) (submitted (Err err))
  | GSubscribing c | GListening c _ => streams (v_req v) c
  | GDone o => refused (v_req v) o \/ static (S := S) (C := C) (B := B) (v_env v) (v_req v) o \/
      exists c, streams (v_req v) c /\ stream_reply (v_env v) c o
  | _ => True
  end.

Record fault_ok l0 n : Prop := {
  fo_system : runs_ok l0 (system_of n);
  fo_grown : swells l0 (n_log n);
  fo_visits : Forall (visit_fine l0 (n_log n)) (visits n);
}.

Lemma fine_grows l0 l l' v : swells l l' -> visit_fine l0 l v -> visit_fine l0 l' v.
Proof.
  unfold visit_fine. intros G. destruct (v_stage v); try done. intros (W & F & R). split_and!; [done| |done].
  by eapply following_grows.
Qed.

Lemma fault_orderly l0 n : fault_ok l0 n -> orderly (n_log n).
Proof. intros [K _ _]. exact (runs_orderly _ _ K). Qed.

Lemma fault_visit l0 n i v : fault_ok l0 n -> visits n !! i = Some v -> visit_fine l0 (n_log n) v.
Proof. intros [_ _ V] E. rewrite Forall_lookup in V. by eapply V. Qed.

Lemma fault_broker l0 n : fault_ok l0 n -> broker_inv (broker (n_log n)).
Proof. intros [K _ _]. exact (ro_broker _ _ K). Qed.

(** A step of visit [i], by what it does to the log and to the visit. *)
Definition fault_moves l0 n i v st s : Prop :=
  fault_ok l0 (stepped_to n i v st s) /\ swells (n_log n) (log_in s).

Lemma fault_moved l0 n i v st s : fault_ok l0 n -> runs_ok l0 (system_of (stepped_to n i v st s)) ->
  swells (n_log n) (log_in s) -> visit_fine l0 (log_in s) (at_stage st v) -> fault_moves l0 n i v st s.
Proof.
  intros [_ G V] R Sw F. split; [|done]. split; [done|by etrans|]. apply Forall_insert; [|done].
  eapply Forall_impl; [exact V|]. intros w. by apply fine_grows.
Qed.

Lemma fault_quiet l0 n i v st s : fault_ok l0 n -> visits n !! i = Some v -> thread_of (at_stage st v) = thread_of v ->
  quiet (n_log n) (log_in s) -> locks (log_in s) = locks (n_log n) -> visit_fine l0 (log_in s) (at_stage st v) ->
  fault_moves l0 n i v st s.
Proof.
  intros K E T Q Lk F. apply fault_moved; [done| |by apply quiet_swells|done].
  unfold stepped_to. rewrite (system_insert n i v st s E T). by apply (runs_quiet l0 (system_of n)), Lk; [apply K|].
Qed.

Lemma broker_quiet l b l0 y : runs_ok l0 y -> shared y = l -> broker_inv b -> quiet l (set_broker b l).
Proof. intros K <- Br. split; [apply K..|done|done|done]. Qed.

Lemma fault_beside l0 n i v st s : fault_ok l0 n -> visits n !! i = Some v -> thread_of (at_stage st v) = thread_of v ->
  (exists b, broker_inv b /\ log_in s = set_broker b (n_log n)) -> visit_fine l0 (log_in s) (at_stage st v) ->
  fault_moves l0 n i v st s.
Proof.
  intros K E T (b & Br & L) F. rewrite L in F. apply fault_quiet; [done..| | |]; rewrite L; [|done..].
  by apply (broker_quiet _ b l0 (system_of n)); [apply K|..].
Qed.

Lemma beside_same l0 n s : fault_ok l0 n -> log_in s = n_log n -> exists b, broker_inv b /\ log_in s = set_broker b (n_log n).
Proof.
  intros K L. exists (broker (n_log n)). split; [by eapply fault_broker|]. rewrite L. by destruct (n_log n).
Qed.

(** ** Every step keeps it *)

Lemma fault_reading l0 n i v q rd rd' l : fault_ok l0 n -> visits n !! i = Some v -> v_stage v = GReading q rd ->
  read_step rd (n_log n) = Some (rd', l) -> fault_moves l0 n i v (GReading q rd') (with_log l (n_server n)).
Proof.
  intros K E Sg R. pose proof (fault_visit _ _ _ _ K E) as V. unfold visit_fine in V. rewrite Sg in V.
  destruct V as (W & F & x & Fx & A).
  pose proof (following_step l0 (n_log n) q rd (fault_orderly _ _ K) (fo_grown _ _ K) (asks_askable _ _ _ A) F) as G.
  destruct rd as [|X p k]; [done|]. destruct G as (rd1 & s & R1 & Kp & Wi & F'). rewrite R in R1. injection R1 as <- ->.
  apply fault_quiet; [done|done| | |done|].
  - unfold thread_of. by rewrite Sg.
  - apply (kept_quiet (n_log n) s Kp). by eapply fault_broker.
  - cbn. split; [|split; [exact F'|by exists x]]. eapply within_weaken; [|by apply Wi]. cbn. lia.
Qed.

Lemma fault_sending l0 n i v p p' m l : fault_ok l0 n -> visits n !! i = Some v -> v_stage v = GSending p ->
  message_of (v_req v) = Some m -> advance (e_now (v_env v)) m p (n_log n) = Some (p', l) ->
  fault_moves l0 n i v (GSending p') (with_log l (n_server n)).
Proof.
  intros K E Sg M A. pose proof (thread_at n i v E) as Et.
  assert (sys_step (system_of n) (system_of (stepped_to n i v (GSending p') (with_log l (n_server n))))) as St.
  { replace (system_of (stepped_to n i v (GSending p') (with_log l (n_server n)))) with
      {| shared := l; threads := <[i := at_phase p' (thread_of v)]> (threads (system_of n)) |}.
    - econstructor; [exact Et|]. cbn [t_now t_msg t_phase thread_of]. by rewrite Sg, M.
    - unfold system_of, stepped_to, n_log. cbn [n_server visits threads]. f_equal.
      change (map thread_of) with (fmap (M := list) thread_of). by rewrite list_fmap_insert. }
  destruct (faulty_step _ _ _ (fo_system _ _ K) St) as [R _]. pose proof (step_swells _ _ _ (fo_system _ _ K) St) as Sw.
  apply fault_moved; [done..|]. cbn. exists m. split; [done|]. intros err ->.
  destruct (advance_refuses _ _ _ _ _ _ A) as [->| ->]; [right; by eapply refusal_static|left].
  destruct (ro_call _ _ (fo_system _ _ K) i _ Et) as (_ & _ & Cp). cbn [t_msg t_phase thread_of] in Cp. rewrite Sg, M in Cp.
  by apply accepted_inside in Cp.
Qed.

Lemma fault_arrived l0 n i v st s : fault_ok l0 n -> visits n !! i = Some v -> v_stage v = GArrived ->
  entered (v_env v) (v_req v) (n_server n) = (st, s) -> fault_moves l0 n i v st s.
Proof.
  intros K E Sg A. unfold entered in A.
  assert (log_in s = n_log n /\ (st = GRouted \/ st = GDone (Ok limited) /\ r_path (v_req v) <> ["healthz"%string])) as [L T].
  { destruct (s_limiter (n_server n)) as [lim|]; [|by simplify_eq; split; [|left]].
    case_bool_decide; [by simplify_eq; split; [|left]|].
    destruct (Allow _ _ _ lim) as [[[]| | |] lim']; simplify_eq; (split; [done|]); auto. }
  apply fault_beside; [done|done| |by eapply beside_same|].
  - unfold thread_of. rewrite Sg. by destruct T as [->|[-> _]].
  - destruct T as [->|[-> N]]; [done|by left].
Qed.

(** Where the routing leaves a visit. *)
Lemma begun_fine l0 l env r x s st s' : swells l0 l -> begun env r x s = (st, s') ->
  find_route (r_method r) (r_path r) = inl x -> forall v, v_env v = env -> v_req v = r -> visit_fine l0 l (at_stage st v).
Proof.
  intros Sw A F v Ev Er. destruct (begun_same _ _ _ _ _ _ A F) as (_ & T & Vo). specialize (Vo v Ev Er).
  unfold visit_ok, visit_fine in *. cbn [v_stage v_env v_req at_stage] in *.
  destruct st as [| |q rd|p|c|c id|o]; try done.
  - destruct Vo as [W R]. split; [done|]. split; [|done]. left.
    unfold begun in A. destruct (posts x) as [[c cap]|]; [by destruct (submission cap r c)|].
    destruct (asks r x) as [[q'|o]|]; [congruence|done|]. by destruct x; try destruct (handle _ _ _ _).
  - destruct Vo as (m & M & Re). exists m. split; [done|]. intros err Er'. right. by apply Re.
Qed.

Lemma fault_routed l0 n i v st s : fault_ok l0 n -> visits n !! i = Some v -> v_stage v = GRouted ->
  visit_step (v_env v) (v_req v) GRouted (n_server n) = Some (st, s) -> fault_moves l0 n i v st s.
Proof.
  intros K E Sg A. cbn [visit_step] in A. injection A as A.
  assert (s = n_server n /\ (match st with GSending p => p = PStart | _ => True end) /\
    visit_fine l0 (n_log n) (at_stage st v)) as (-> & T & Vo).
  { destruct (find_route _ _) as [x|code] eqn:F.
    - destruct (begun_same _ _ _ _ _ _ A F) as (-> & T & _). split_and!; [done..|].
      eapply begun_fine; [apply K|exact A|exact F|done..].
    - injection A as <- <-. split_and!; [done..|]. right. left. intros s. unfold mux. cbn. by rewrite F. }
  apply fault_beside; [done|done| |by eapply beside_same|done].
  unfold thread_of. rewrite Sg. cbn [v_stage at_stage v_env v_req]. destruct st; try done. by rewrite T.
Qed.

Lemma fault_step_ok l0 n i v st s : fault_ok l0 n -> visits n !! i = Some v ->
  visit_step (v_env v) (v_req v) (v_stage v) (n_server n) = Some (st, s) -> fault_moves l0 n i v st s.
Proof.
  intros K E A. pose proof (fault_visit _ _ _ _ K E) as Vo. unfold visit_fine in Vo.
  pose proof (fault_broker _ _ K) as Br.
  destruct (v_stage v) as [| |q rd|p|c|c id|o] eqn:St.
  - injection A as A. by apply fault_arrived.
  - by apply fault_routed.
  - cbn [visit_step] in A. fold (n_log n) in A. destruct (read_step rd (n_log n)) as [[rd' l]|] eqn:R; [|done].
    injection A as <- <-. by eapply fault_reading.
  - cbn [visit_step] in A. fold (n_log n) in A. destruct (message_of (v_req v)) as [m|] eqn:M; [|done].
    destruct (advance _ m p (n_log n)) as [[p' l]|] eqn:Ad; [|done]. injection A as <- <-. by eapply fault_sending.
  - cbn [visit_step] in A. unfold MsgrSubscribe in A. rewrite on_svc_log in A. fold (n_log n) in A.
    destruct (LogSubscribe (n_log n)) as [o l] eqn:L. destruct (subscribed n o l Br L) as [Bq _].
    destruct o as [id|err| |]; simplify_eq; apply fault_beside; try done; try (unfold thread_of; by rewrite St).
    + right. right. exists c. split; [exact Vo|]. intros w [= <-]. left. by eexists.
    + right. right. by exists c.
  - destruct (listening_step _ _ _ _ _ _ A) as (w & Hu & Re). destruct (hang_up_run n id w Br) as (o & s' & Hu' & Ow & Bq).
    rewrite Hu in Hu'. injection Hu' as -> ->. apply fault_beside; [done|done|unfold thread_of; by rewrite St|done|].
    right. right. exists c. split; [exact Vo|]. intros w' ->. apply Re. by rewrite (Ow w' eq_refl).
  - done.
Qed.

Lemma fault_node l0 n n' : fault_ok l0 n -> node_step n n' -> fault_ok l0 n' /\ swells (n_log n) (n_log n').
Proof. intros K [i v st s E A]. exact (fault_step_ok l0 n i v st s K E A). Qed.

Lemma fault_run l0 n n' : fault_ok l0 n -> rtc node_step n n' -> fault_ok l0 n' /\ swells (n_log n) (n_log n').
Proof.
  intros K R. induction R as [n|n n1 n2 St _ IH]; [done|]. destruct (fault_node l0 n n1 K St) as [K1 G1].
  destruct (IH K1) as [K2 G2]. split; [done|by etrans].
Qed.

(** ** From the arrivals on *)

(** A server between requests, and requests it has room for, with messages the
    store keeps. *)
Record servable s (rs : list (Env * Request)) : Prop := {
  sv_sound : sound_log (log_in s);
  sv_fits env r m : (env, r) ∈ rs -> message_of r = Some m -> acceptable m = true -> sh_fits m;
  sv_space c : Z.of_nat (length (entries_of (log_in s) c)) + 11 * Z.of_nat (length rs) + 1 < 2 ^ 63;
}.

Lemma arrivals_fault s rs : servable s rs -> fault_ok (log_in s) (arrivals s rs).
Proof.
  intros [So Ft Sp]. split; [|done|by apply Forall_map, Forall_true]. rewrite arrivals_system. apply runs_start; [done|].
  split; [|intros c; rewrite length_map; apply Sp]. apply Forall_map, Forall_forall. intros [env r] I.
  cbn. destruct (message_of r) as [m|] eqn:M; [|done]. by eapply Ft.
Qed.

Lemma requests_same n n' : rtc node_step n n' -> map v_req (visits n') = map v_req (visits n).
Proof.
  intros R. induction R as [|n n1 n2 [i v st s E A] _ ->]; [done|]. cbn [visits].
  change (map v_req) with (fmap (M := list) v_req). rewrite list_fmap_insert. apply list_insert_id.
  by rewrite list_lookup_fmap, E.
Qed.

(** What was added was posted. *)
Lemma added_posted s rs n c : fault_ok (log_in s) n -> rtc node_step (arrivals s rs) n ->
  exists added, entries_of (n_log n) c = entries_of (log_in s) c ++ added /\ map Message added ⊆+ posted_to c (map snd rs).
Proof.
  intros K R. destruct (ro_added _ _ (fo_system _ _ K) c) as (a & La & Sa). exists a. split; [exact La|].
  etrans; [exact Sa|]. etrans; [apply tried_messages|]. rewrite <-posted_messages.
  assert (map t_msg (threads (system_of n)) = map (fun r => default no_message (message_of r)) (map v_req (visits n))) as ->
    by (cbn; by rewrite !map_map).
  rewrite (requests_same _ _ R). cbn [visits arrivals]. by rewrite !map_map.
Qed.

(** ** A visit since [n0] *)

Definition since n0 n (v : visit) : Prop :=
  match v_stage v with
  | GReading q rd => following (n_log n0) (n_log n) q rd
  | GSending p => forall m e, message_of (v_req v) = Some m -> p = PStore e \/ entry_of p = Some e ->
      Z.of_nat (length (entries_of (n_log n0) (ChatID m))) <= Sequence e
  | _ => True
  end.

Lemma since_other n0 n n' v : swells (n_log n) (n_log n') -> since n0 n v -> since n0 n' v.
Proof. unfold since. intros G. destruct (v_stage v); try done. by apply following_grows. Qed.

Lemma since_reading l0 n0 n i v q rd rd' l : fault_ok l0 n -> swells (n_log n0) (n_log n) ->
  visits n !! i = Some v -> v_stage v = GReading q rd -> read_step rd (n_log n) = Some (rd', l) ->
  following (n_log n0) (n_log n) q rd -> following (n_log n0) l q rd'.
Proof.
  intros K G E Sg R F. pose proof (fault_visit _ _ _ _ K E) as V. unfold visit_fine in V. rewrite Sg in V.
  destruct V as (_ & _ & x & _ & A).
  pose proof (following_step (n_log n0) (n_log n) q rd (fault_orderly _ _ K) G (asks_askable _ _ _ A) F) as N.
  destruct rd as [|X p k]; [done|]. destruct N as (rd1 & s & R1 & _ & _ & F'). rewrite R in R1. by injection R1 as <- ->.
Qed.

Lemma since_sending l0 n0 n i v p p' m l (n' := stepped_to n i v (GSending p') (with_log l (n_server n))) :
  fault_ok l0 n -> fault_ok l0 n' -> swells (n_log n0) (n_log n') ->
  visits n !! i = Some v -> v_stage v = GSending p -> message_of (v_req v) = Some m ->
  advance (e_now (v_env v)) m p (n_log n) = Some (p', l) ->
  since n0 n v -> since n0 n' (at_stage (GSending p') v).
Proof.
  unfold since. intros K K' G E Sg M A. rewrite Sg. cbn [v_stage at_stage v_req]. intros Kn m' e M' He.
  assert (m' = m) as -> by congruence. clear M'. pose proof (thread_at n i v E) as Et.
  destruct (runs_step _ _ i _ p' l (fo_system _ _ K) Et) as (added & more & St & _);
    [cbn [t_now t_msg t_phase thread_of]; by rewrite Sg, M|].
  destruct He as [-> | He].
  - assert (visits n' !! i = Some (at_stage (GSending (PStore e)) v)) as Ei
      by (cbn; by rewrite list_lookup_insert_eq by by eapply lookup_lt_Some).
    destruct (ro_call _ _ (fo_system _ _ K') i _ (thread_at n' i _ Ei)) as (_ & _ & Cp).
    unfold chat_of in Cp. cbn [t_msg t_phase thread_of v_stage at_stage v_req] in Cp. rewrite M in Cp.
    rewrite (cp_inside _ _ _ _ Cp eq_refl). cbn [default Sequence new_entry].
    pose proof (prefix_length _ _ (sw_log _ _ G (ChatID m))) as L. apply Nat2Z.inj_le. exact L.
  - cbn [t_phase thread_of] in St. rewrite Sg in St.
    destruct (fs_grows _ _ _ _ _ _ _ St) as [[_ Old]|(f & -> & _ & Ef)].
    + apply (Kn m e M). right. by apply Old.
    + apply (Kn m e M). left. by rewrite (Ef e He).
Qed.

Lemma since_step l0 n0 n i v st s : fault_ok l0 n -> swells (n_log n0) (n_log n) -> visits n !! i = Some v ->
  visit_step (v_env v) (v_req v) (v_stage v) (n_server n) = Some (st, s) -> since n0 n v ->
  since n0 (stepped_to n i v st s) (at_stage st v).
Proof.
  intros K G0 E A Kn. destruct (fault_step_ok l0 n i v st s K E A) as [K' G].
  destruct (v_stage v) as [| |q rd|p|c|c id|o] eqn:Sg; cbn [visit_step] in A.
  - injection A as A. unfold entered in A.
    destruct (s_limiter _); [destruct (bool_decide _); [|destruct (Allow _ _ _ _) as [[[]| | |]]]|]; by simplify_eq.
  - injection A as A. destruct (find_route _ _) as [x|]; [|by simplify_eq]. unfold begun in A.
    destruct (posts x) as [[c cap]|]; [destruct (submission cap _ c); simplify_eq; [by intros m e _ []|done]|].
    destruct (asks _ x) as [[q|o]|]; [|by simplify_eq|].
    + injection A as <- <-. by left.
    + destruct x; try (destruct (handle _ _ _ _)); by simplify_eq.
  - fold (n_log n) in A. destruct (read_step rd (n_log n)) as [[rd' l]|] eqn:R; [|done].
    injection A as <- <-. unfold since in *. rewrite Sg in Kn.
    exact (since_reading l0 n0 n i v q rd rd' l K G0 E Sg R Kn).
  - fold (n_log n) in A. destruct (message_of (v_req v)) as [m|] eqn:M; [|done].
    destruct (advance _ m p (n_log n)) as [[p' l]|] eqn:Ad; [|done]. injection A as <- <-.
    apply (since_sending l0 n0 n i v p p' m l K K'); [by etrans|done..].
  - unfold MsgrSubscribe in A. destruct (on_svc _ _) as [[]]; by simplify_eq.
  - destruct (listening_step _ (v_req v) _ _ _ _ A) as (w & Hu & _).
    unfold hang_up in Hu. destruct (on_svc _ _) as [[]]; by simplify_eq.
  - done.
Qed.

(** A visit from its arrival on. *)
Lemma since_run l0 n0 n i v : fault_ok l0 n0 -> visits n0 !! i = Some v -> v_stage v = GArrived -> rtc node_step n0 n ->
  exists st, visits n !! i = Some (at_stage st v) /\ since n0 n (at_stage st v).
Proof.
  intros K0 E Sg R. revert n R. apply rtc_ind_r.
  - exists GArrived. split; [|done]. rewrite E. destruct v. cbn in Sg. by subst.
  - intros n n' R St (st & En & Kn). destruct (fault_run l0 n0 n K0 R) as [K G0].
    destruct (fault_node l0 n n' K St) as [_ G]. destruct St as [j vj stj s Ej A].
    destruct (decide (j = i)) as [->|Ne].
    + simplify_eq. exists stj. cbn [visits]. rewrite list_lookup_insert_eq by by eapply lookup_lt_Some. split; [done|].
      by eapply (since_step l0 n0 n i (at_stage st v)).
    + exists st. cbn [visits]. rewrite list_lookup_insert_ne by done. split; [done|]. by eapply since_other.
Qed.

(** ** What each request is answered *)

(** The entry of a message that was posted since [n0]. *)
Record stored n0 n (i : nat) (m : SignedMessage) (e : LogEntry) : Prop := {
  sd_accepted : acceptable m = true;
  sd_message : Message e = m;
  sd_place : entries_of (n_log n) (ChatID m) !! Z.to_nat (Sequence e) = Some e;
  sd_since : Z.of_nat (length (entries_of (n_log n0) (ChatID m))) <= Sequence e;
  sd_own j vj mj ej : j <> i -> visits n !! j = Some vj -> v_stage vj = GSending (PDone (Ok ej)) ->
    message_of (v_req vj) = Some mj -> ChatID mj = ChatID m -> Sequence ej <> Sequence e;
}.

(** A reading call was told the store's error, or what is right of its chat. *)
Definition told_of n0 n (v : visit) (o : outcome Response) : Prop :=
  exists x q a, find_route (r_method (v_req v)) (r_path (v_req v)) = inl x /\ asks (v_req v) x = Some (inl q) /\
    o = render q a /\ told (entries_of (n_log n0) (asked_chat q)) (entries_of (n_log n) (asked_chat q))
                           (sealed_of (n_log n0) (asked_chat q)) (sealed_of (n_log n) (asked_chat q)) q a.

Definition fault_verdict n0 n (i : nat) (v : visit) (o : outcome Response) : Prop :=
  refused (v_req v) o \/
  static (S := S) (C := C) (B := B) (v_env v) (v_req v) o \/
  told_of n0 n v o \/
  (exists m, message_of (v_req v) = Some m /\
     ((exists e, o = Ok (writeJSON 201 (JEntry e)) /\ stored n0 n i m e) \/
      (exists err, o = Ok (writeError 422 (Error err)) /\ acceptable m = true))) \/
  (exists c, streams (v_req v) c /\ stream_reply (v_env v) c o).

Lemma stored_verdict l0 n0 n i v p o : fault_ok l0 n -> visits n !! i = Some (at_stage (GSending p) v) ->
  since n0 n (at_stage (GSending p) v) -> answered (GSending p) = Some o -> fault_verdict n0 n i v o.
Proof.
  intros K E Kn An. destruct p as [| | | | | | | | | | |oe]; try done. injection An as <-.
  pose proof (fault_visit _ _ _ _ K E) as V. cbn in V. destruct V as (m & M & Re).
  set (w := at_stage (GSending (PDone oe)) v) in *. pose proof (fo_system _ _ K) as I. pose proof (thread_at n i w E) as Et.
  assert (t_msg (thread_of w) = m /\ chat_of (thread_of w) = ChatID m /\ t_phase (thread_of w) = PDone oe) as (Tm & Tc & Tp)
    by (unfold chat_of; cbn; rewrite M; done).
  destruct (ro_call _ _ I i _ Et) as (_ & Hh & Cp). rewrite Tm, Tp in Cp.
  pose proof (cp_outside _ _ _ _ Cp eq_refl) as Ou. destruct oe as [e|err|?|]; [|clear Cp|by destruct Ou..].
  - do 3 right. left. exists m. split; [done|]. left. exists e. split; [done|].
    destruct (Hh e) as (Me & _ & L); [by rewrite Tp|]. rewrite Tm in Me. rewrite Tc in L.
    split; [by destruct (cp_accepted _ _ _ _ Cp) as [|[[? ?]|]]|done|done|by apply (Kn m e M); right|].
    intros j vj mj ej Ne Ej Sj Mj Ch.
    apply (ro_distinct _ _ I j i _ _ ej e (thread_at n j vj Ej) Et Ne); [| |by rewrite Tp].
    + rewrite Tc, <-Ch. unfold chat_of. cbn. by rewrite Mj.
    + cbn. by rewrite Sj.
  - destruct (Re err eq_refl) as [A|T]; [|right; by left]. do 3 right. left. exists m. split; [done|]. right. by exists err.
Qed.

(** C11: concurrent requests over a store that fails. Requests run concurrently,
    in any interleaving, on a server whose store fails at any of its calls, with
    or without effect; the messages they post are ones the store keeps (on
    ScyllaDB, with UTC times on whole milliseconds). At every moment each chat is a hash chain that goes on
    where it was, by accepted messages the requests posted to it, each once at
    most, and its snapshots seal consecutive windows. And a request that arrived
    in [n0] and has been answered in [n] was turned away by the limiter, or got
    an answer that does not depend on the log; or it read, and was told the store's error or, for
    sequences within 63 bits, what is right of the log between [n0] and [n]: the
    entries of a prefix, an entry that is there, [ErrNotFound] only for one that
    was not there in [n0], no tampering, a proof that is accepted, a bundle whose
    parts fit; or it posted an acceptable message, and a 201 carries its entry,
    which is stored, after all that was there in [n0] and where no other request's
    is, while a 422 says nothing; or it is a stream. *)
Theorem failing_requests s rs n0 n : servable s rs -> rtc node_step (arrivals s rs) n0 -> rtc node_step n0 n ->
  (forall c, chain 0 GenesisHash (entries_of (n_log n) c) /\ windows c (entries_of (n_log n) c) (sealed_of (n_log n) c) /\
    exists added, entries_of (n_log n) c = entries_of (log_in s) c ++ added /\ map Message added ⊆+ posted_to c (map snd rs)) /\
  (forall i v v' o, visits n0 !! i = Some v -> v_stage v = GArrived -> visits n !! i = Some v' ->
    answered (v_stage v') = Some o -> fault_verdict n0 n i v o).
Proof.
  intros Sv R0 R. destruct (fault_run _ _ n0 (arrivals_fault s rs Sv) R0) as [K0 _].
  destruct (fault_run _ n0 n K0 R) as [K _]. split.
  - intros c. split; [apply (fo_system _ _ K)|]. split; [apply (fo_system _ _ K)|]. apply added_posted; [done|by etrans].
  - intros i v v' o E Sg E' An. destruct (since_run _ n0 n i v K0 E Sg R) as (st & En & Kn).
    assert (v' = at_stage st v) as -> by congruence. pose proof (fault_visit _ _ _ _ K En) as V. unfold visit_fine in V.
    cbn [v_stage at_stage v_env v_req] in *. destruct st as [| |q rd|p|c|c id|o1]; try done.
    + destruct rd as [a|]; [|done]. injection An as <-. destruct V as (_ & _ & x & F & A). do 2 right. left.
      exists x, q, a. split_and!; [done..|]. exact (way_returned _ _ _ _ _ _ Kn).
    + by eapply stored_verdict.
    + injection An as ->. destruct V as [T|[T|T]]; [by left|by right; left|by do 4 right].
Qed.

(** ** Every request is answered *)

Lemma fault_sustained l0 : sustained (fault_ok l0).
Proof.
  split.
  - intros n n' K St. by apply (fault_node l0 n n' K St).
  - apply fault_broker.
  - intros n i v q rd K E Sg. pose proof (fault_visit _ _ _ _ K E) as V. unfold visit_fine in V. rewrite Sg in V.
    destruct V as (_ & F & x & _ & A).
    pose proof (following_step l0 (n_log n) q rd (fault_orderly _ _ K) (fo_grown _ _ K) (asks_askable _ _ _ A) F) as N.
    destruct rd as [|X p k]; [done|]. destruct N as (rd' & s & R & _ & W & _). by exists rd', (set_store s (n_log n)).
  - intros n i v p K E Sg. pose proof (fault_visit _ _ _ _ K E) as V. unfold visit_fine in V. rewrite Sg in V.
    destruct V as (m & M & _). exists m. split; [done|]. intros p' l Ad.
    destruct (runs_step _ _ i _ p' l (fo_system _ _ K) (thread_at n i v E)) as (added & more & St & _);
      [cbn [t_now t_msg t_phase thread_of]; by rewrite Sg, M|].
    pose proof (fs_rank _ _ _ _ _ _ _ St) as Rk. cbn [t_phase thread_of] in Rk. by rewrite Sg in Rk.
  - intros n i v p K E Sg Hp. pose proof (fault_visit _ _ _ _ K E) as V. unfold visit_fine in V. rewrite Sg in V.
    destruct V as (m & M & _). pose proof (thread_at n i v E) as Et. pose proof (fo_system _ _ K) as I.
    destruct (ro_call _ _ I i _ Et) as (_ & _ & Cp). pose proof (ro_fine _ _ i _ I Et) as Fn.
    cbn [t_msg t_phase thread_of] in Cp, Fn. rewrite Sg, M in Cp. rewrite M in Fn.
    destruct (step_inside (e_now (v_env v)) m p (n_log n) Fn) as (p' & l & added & more & A & _);
      [by eapply accepted_inside|done| |].
    { unfold chat_of in Cp. cbn [t_msg thread_of] in Cp. rewrite M in Cp. by apply Cp. }
    eexists. econstructor; [exact E|]. rewrite Sg. cbn [visit_step]. rewrite M. fold (n_log n). by rewrite A.
  - intros n c K Lk. destruct (proj1 (mu_held _ (ro_mutex _ _ (fo_system _ _ K)) c) Lk) as (j & th & Et & _ & Hh). cbn in Et.
    rewrite list_lookup_fmap in Et. destruct (visits n !! j) as [vj|] eqn:Ej; [|done]. injection Et as <-.
    cbn [t_phase thread_of] in Hh. destruct (v_stage vj) as [| | |pj| | |] eqn:Sj; try done. by exists j, vj, pj.
Qed.

(** C12: no failure of the store leaves a request without an answer.  In any
    interleaving each request takes at most 13 steps; as long as one has not been
    answered some request can take a step; from wherever a run is, all can be
    answered, provided the clients of streams go away in the end; and then no
    mutex is held and the log is as sound as before. *)
Theorem failing_requests_served s rs k n : servable s rs -> Forall (fun er => hangs_up er.1) rs ->
  nsteps node_step k (arrivals s rs) n ->
  (k <= 13 * length rs)%nat /\ ((forall n', ~ node_step n n') <-> all_served n = true) /\
  (exists n', rtc node_step n n' /\ all_served n' = true) /\
  (all_served n = true -> sound_log (n_log n)).
Proof.
  intros Sv Hu R. destruct (sustained_serves _ (fault_sustained (log_in s)) s rs k n (arrivals_fault s rs Sv) Hu R) as (L & St & Fi).
  split_and!; [done..|]. intros A.
  destruct (fault_run _ _ n (arrivals_fault s rs Sv)) as [K _]; [by apply rtc_nsteps; exists k|].
  apply (idle_sound _ _ (fo_system _ _ K)). intros i th E. cbn in E. rewrite list_lookup_fmap in E.
  destruct (visits n !! i) as [v|] eqn:Ev; [|done]. injection E as <-. pose proof (served_visit n i v A Ev) as An.
  unfold is_answered in An. cbn [t_phase thread_of]. destruct (v_stage v) as [| | |p| | |]; try done. by destruct p.
Qed.
End Runs.

(** ** Three requests; the store fails twice *)

Module FaultNodeSample.
Import ApiSample NodeSample.

(** The insert of the message happens and its answer is lost; the read of a page
    is lost. *)
Definition failing_server : Server (Flaky InMemoryStorage) InMemoryCache InMemoryBroker :=
  NewServer (NewMessenger (MkLog (MkFlaky (store LogSample.start) [Fine; Late; Lost]) (cache LogSample.start)
    (broker LogSample.start) (locks LogSample.start))).

Definition asked : list (Env * Request) :=
  [(env, post 0); (env, page_request "c" 0 10); (env, page_request "c" 0 10)].
Definition opened : node := arrivals failing_server asked.
Definition served : node := turns (concat [replicate 8 0; replicate 3 1; replicate 3 2]%nat) opened.

(** The client is told that its message was not accepted although it is in the
    chat, and the first page is an error. *)
Lemma served_codes : map code (visits served) = [Some 422; Some 500; Some 200] /\
  map listed (visits served) = [None; None; Some 1%nat].
Proof. vm_compute. by split. Qed.

Lemma failing_servable : servable failing_server asked.
Proof.
  split; [|done|done].
  split; [done|done|apply broker_ok_new|constructor|constructor|by intros c k n|done].
Qed.

Lemma served_reached : rtc node_step opened served.
Proof. apply visits_reach. Qed.

Lemma asked_hang_up : Forall (fun er => hangs_up er.1) asked.
Proof. repeat (apply Forall_cons_2; [intros c; cbn; by case_bool_decide|]). apply Forall_nil_2. Qed.

Lemma third_visit : exists v o, visits served !! 2%nat = Some v /\ answered (v_stage v) = Some o.
Proof.
  destruct served_codes as [Cd _]. destruct (visits served) as [|? [|? [|v ?]]]; try done. cbn in Cd. injection Cd as _ _ Cv.
  exists v. unfold code in Cv. destruct (answered (v_stage v)) as [o|]; [by exists o|done].
Qed.
End FaultNodeSample.

Section Witnesses.
Import ApiSample NodeSample FaultNodeSample.

Lemma failing_requests_witness :
  chain 0 GenesisHash (entries_of (n_log served) "c") /\ exists v o, visits served !! 2%nat = Some v /\
    fault_verdict opened served 2 {| v_env := env; v_req := page_request "c" 0 10; v_stage := GArrived |} o.
Proof.
  destruct (failing_requests failing_server asked opened served failing_servable (rtc_refl _ _) served_reached) as [T V].
  split; [exact (proj1 (T "c"%string))|]. destruct third_visit as (v & o & E & A). exists v, o. split; [exact E|].
  exact (V 2%nat _ v o eq_refl eq_refl E A).
Defined.

Lemma failing_requests_served_witness : exists k, nsteps node_step k opened served /\ (k <= 39)%nat /\ sound_log (n_log served).
Proof.
  destruct (proj1 (rtc_nsteps _ _) served_reached) as [k R]. exists k. split; [exact R|].
  destruct (failing_requests_served failing_server asked k served failing_servable asked_hang_up R) as (N & _ & _ & So).
  split; [exact N|]. apply So. vm_compute. reflexivity.
Defined.
End Witnesses.
