(* ===== verification/Feed.v ===== *)
(** * Feed: what appends announce, in any interleaving

    A call of [Append] publishes its entry after it has stored it, and its
    snapshot after it has saved it, both before it releases the chat's mutex.  So
    the events of a chat, in the order they are published, are the [feed] of its
    log, except for those that the one call in the chat's critical section has
    still to publish. *)
From stdpp Require Import sorting.
From S2P Require Import Prelude Codec JsonText GoTime Sha256 Models Merkle Crypto Storage Cache Broker Chatlog LogFacts LogReads LogContract Concurrency.

(** The events of an entry: its own, and that of the snapshot it completes. *)
Definition sealed_event (c : string) (e : LogEntry) : list Event :=
  if u64 (Sequence e + 1) mod SnapshotInterval =? 0 then [snapshot_event c e] else [].
Definition events_of (c : string) (e : LogEntry) : list Event := entry_event c e :: sealed_event c e.

Definition feed (c : string) (es : list LogEntry) : list Event := es ≫= events_of c.

(** The events of one chat, as [handleStream] picks them out. *)
Definition of_chat (c : string) (evs : list Event) : list Event := filter (fun ev => ev_ChatID ev = c) evs.

Lemma of_chat_app c a b : of_chat c (a ++ b) = of_chat c a ++ of_chat c b.
Proof. apply filter_app. Qed.

Lemma feed_app c a b : feed c (a ++ b) = feed c a ++ feed c b.
Proof. apply bind_app. Qed.

(** Every event of a feed is of an entry, with its place and its hash. *)
Lemma feed_entry c es ev : ev ∈ feed c es -> exists e, e ∈ es /\
  ev_ChatID ev = c /\ ev_Sequence ev = Sequence e /\ ev_EntryHash ev = EntryHash e.
Proof.
  unfold feed. rewrite list_elem_of_bind. intros (e & Ev & E). exists e. split; [done|].
  unfold events_of, sealed_event in Ev. apply elem_of_cons in Ev as [->|Ev]; [done|].
  destruct (_ =? 0); [|by apply not_elem_of_nil in Ev]. by apply list_elem_of_singleton in Ev as ->.
Qed.

(** What a step from phase [p] publishes, and what a call in phase [p] still has to. *)
Definition announces (c : string) (p : phase) : list Event :=
  match p with PPublish e => [entry_event c e] | PAnnounce e => [snapshot_event c e] | _ => [] end.

Definition coming (c : string) (p : phase) : list Event :=
  match p with
  | PPublish e => events_of c e
  | PLatest e | PWindow e _ _ | PSave e _ | PRoot e _ | PAnnounce e => [snapshot_event c e]
  | _ => []
  end.

Lemma entry_event_snapshot c e d e' : entry_event c e <> snapshot_event d e'.
Proof. by intros [=]. Qed.

Lemma entry_event_coming c e p : entry_event c e ∈ coming c p -> exists e', p = PPublish e' /\ Sequence e' = Sequence e.
Proof.
  destruct p; cbn; try (by intros ?%not_elem_of_nil);
    try (by intros ?%list_elem_of_singleton%entry_event_snapshot).
  intros [Q|Q]%elem_of_cons; [injection Q as Sq _; by eexists|]. unfold sealed_event in Q.
  destruct (_ =? 0); [|by apply not_elem_of_nil in Q]. by apply list_elem_of_singleton, entry_event_snapshot in Q.
Qed.

Lemma of_chat_announces c d p : of_chat d (announces c p) = if decide (d = c) then announces c p else [].
Proof. destruct p; cbn; repeat case_decide; try done; by subst. Qed.

Section Feed.
Context {S C B : Type} `{SL : StorageLaws S} `{CL : CacheLaws C} `{BL : BrokerLaws B}.
Context `{HashFunction} `{Ed25519}.
Implicit Types s : @system S C B.

(** The call in the critical section of [c] has [rest] to publish. *)
Definition in_flight s (c : string) (rest : list Event) : Prop :=
  (exists i th, threads s !! i = Some th /\ chat_of th = c /\ holding (t_phase th) = true /\ rest = coming c (t_phase th)) \/
  ((forall i, ~ in_section s c i) /\ rest = []).

(** [evs] has been published. *)
Definition follows s (evs : list Event) : Prop := forall c, exists rest, in_flight s c rest /\
  feed c (log_at (shared s) c) = of_chat c evs ++ rest.

Lemma calls_follows l ms : fresh_log l -> follows (calls l ms) [].
Proof.
  intros F c. exists []. split; [right; split; [|done]|cbn; by rewrite (fr_log _ F)].
  intros i (th & E & _ & Hp). by rewrite (calls_lookup _ _ _ _ E) in Hp.
Qed.

(** The events of a call, along one of its steps. *)
Lemma coming_step now m p l p' l' (c := ChatID m) : advance now m p l = Some (p', l') ->
  entry_of p' = match p with PStore e => Some e | _ => entry_of p end ->
  coming c p ++ feed c (added_by p) = announces c p ++ coming c p'.
Proof.
  intros A En. destruct p as [| | |e|e|e|e from index|e n|e r|e|o|o]; cbn [advance] in A; unfold call in A; fold c in A;
    repeat case_match; simplify_eq; cbn [coming announces added_by feed]; try done.
  all: unfold after_publish, events_of, sealed_event; cbn; unfold after_publish in *; rewrite ?app_nil_r; try done.
  all: by destruct (u64 (Sequence e + 1) mod SnapshotInterval =? 0).
Qed.

Lemma coming_outside c p : holding p = false -> coming c p = [].
Proof. by destruct p. Qed.

(** A step of another thread. *)
Lemma flight_other s i th p l' c rest : threads s !! i = Some th -> in_flight s c rest ->
  chat_of th <> c \/ holding (t_phase th) = false /\ holding p = false -> in_flight (moved s i th p l') c rest.
Proof.
  intros E [(j & tj & Ej & Cj & Hj & ->)|[N ->]] O.
  - left. exists j, tj. split; [|done]. apply (moved_lookup _ _ _ _ _ _ _ E). right. split; [|done]. intros ->. simplify_eq.
    destruct O as [O|[O _]]; [done|congruence].
  - right. split; [|done]. intros j I. apply (moved_section _ _ _ _ _ _ _ E) in I as [(_ & Ct & Hp)|[_ I]]; [|by apply (N j)].
    destruct O as [O|[_ O]]; [done|congruence].
Qed.

(** A step of the thread in the section, or of one that enters it. *)
Lemma flight_self s i th p l' : sys_ok s -> threads s !! i = Some th -> good_move s i th p l' ->
  holding (t_phase th) = true \/ holding p = true ->
  (forall rest, in_flight s (chat_of th) rest -> rest = coming (chat_of th) (t_phase th)) /\
  in_flight (moved s i th p l') (chat_of th) (coming (chat_of th) p).
Proof.
  intros K E G Hh.
  assert (forall j, j <> i -> ~ in_section s (chat_of th) j) as Al.
  { intros j N J. destruct Hh as [Hp|Hp]; [|by apply (gm_single _ _ _ _ _ G Hp j)].
    apply N, (so_alone _ K (chat_of th)); [done|by exists th]. }
  split.
  - intros rest [(j & tj & Ej & Cj & Hj & ->)|[N ->]].
    + destruct (decide (j = i)) as [->|Ne]; [by simplify_eq|]. destruct (Al j Ne). by exists tj.
    + symmetry. apply coming_outside. destruct (holding (t_phase th)) eqn:Hp; [|done]. destruct (N i). by exists th.
  - destruct (holding p) eqn:Hp.
    + left. exists i, (at_phase p th). split_and!; try done. apply (moved_lookup _ _ _ _ _ _ _ E). by left.
    + right. split; [|by apply coming_outside]. intros j I.
      apply (moved_section _ _ _ _ _ _ _ E) in I as [(_ & _ & Q)|[Ne I]]; [congruence|by apply (Al j Ne)].
Qed.

Lemma follows_step s i th p l' evs : sys_inv s -> threads s !! i = Some th ->
  advance (t_now th) (t_msg th) (t_phase th) (shared s) = Some (p, l') -> follows s evs ->
  follows (moved s i th p l') (evs ++ announces (chat_of th) (t_phase th)).
Proof.
  intros I E A F c. destruct (advance_good s i th p l' I E A) as [G _ L En].
  pose proof (coming_step _ _ _ _ _ _ A En) as Cs. destruct (F c) as (rest & Fl & Fe).
  rewrite of_chat_app, of_chat_announces. case_decide as Dc.
  - subst c. destruct (holding (t_phase th) || holding p) eqn:Hh.
    + apply orb_true_iff in Hh. destruct (flight_self s i th p l' (si_ok _ I) E G Hh) as [Is Fl']. apply Is in Fl as ->.
      exists (coming (chat_of th) p). split; [done|]. cbn [shared moved]. rewrite L, feed_app, Fe, <-!(assoc_L (++)). by f_equal.
    + apply orb_false_iff in Hh as [Ha Hb]. exists rest. split; [apply flight_other; auto|]. cbn [shared moved].
      rewrite L. by destruct (t_phase th); cbn in *; rewrite ?app_nil_r.
  - exists rest. split; [apply flight_other; auto|]. cbn [shared moved].
    destruct (gm_others _ _ _ _ _ G c) as [-> _]; [done|]. by rewrite app_nil_r.
Qed.

(** The entry of a call that has returned is not on its way. *)
Lemma returned_published s c rest j th e : sys_inv s -> in_flight s c rest -> threads s !! j = Some th ->
  chat_of th = c -> t_phase th = PDone (Ok e) -> entry_event c e ∉ rest.
Proof.
  intros I [(i & ti & Ei & Ci & Hi & ->)|[_ ->]] Ej Cj Tj Q; [|by apply not_elem_of_nil in Q].
  apply entry_event_coming in Q as (e' & Tp & Sq). apply (so_distinct _ (si_ok _ I) i j ti th e' e); try done.
  - intros ->. simplify_eq. congruence.
  - congruence.
  - by rewrite Tp.
  - by rewrite Tj.
Qed.

(** Only publications touch the broker. *)
Lemma advance_broker now m p l p' l' : advance now m p l = Some (p', l') ->
  broker l' = foldl (fun b ev => (Publish ev b).2) (broker l) (announces (ChatID m) p).
Proof.
  destruct p; cbn [advance announces foldl]; unfold call, on_store, on_cache, on_broker, zoom, chatLock, modify, Lock, Unlock;
    intros A; repeat case_match; by simplify_eq/=.
Qed.
End Feed.
