(* ===== verification/Streams.v ===== *)
(** * Streams: from a posted message to the subscriber's channel

    A [session] is a node over the in-memory broker with the trace of what its
    requests and the readers of its channels did to the broker.  However
    requests interleave, the events a stream's channel carries of its chat are
    those of the chat's log since the subscription ([Feed]), in the log's order,
    without a gap while the reader keeps up. *)
From stdpp Require Import sorting.
From S2P Require Import Prelude Codec JsonText GoTime JsonTree JsonUtf8 TimeText Sha256 Models Merkle Crypto Storage Cache Broker Wire Chatlog LogFacts LogReads LogContract Service RateLimit Api ApiContract Concurrency Readings Nodes Interleaved Requests RequestRuns Feed.

(** ** Steps that do not append, over any broker *)

Section Quiet.
Context {S C B : Type} `{SL : StorageLaws S} `{CL : CacheLaws C} `{BL : BrokerLaws B}.
Context `{HashFunction} `{Ed25519} `{RateLimiter}.
Implicit Types s : Server S C B.
Implicit Types l : Log S C B.

Definition sending (st : stage) : bool := match st with GSending _ => true | _ => false end.

(** What a step that is not one of [Append] does to the broker. *)
Definition brokered (st : stage) (b : B) : B :=
  match st with
  | GSubscribing _ => (Subscribe b).2
  | GListening _ id => (Cancel id b).2
  | _ => b
  end.

Record quiet_step (n : node) (v : visit) (st : stage) s : Prop := {
  qs_thread : thread_of (at_stage st v) = thread_of v;
  qs_log : log_in s = set_broker (brokered (v_stage v) (broker (n_log n))) (n_log n);
  qs_listens c id : st = GListening c id -> v_stage v = GSubscribing c /\ (Subscribe (broker (n_log n))).1 = Ok id;
}.

Lemma same_broker (l : Log S C B) : set_broker (broker l) l = l.
Proof. by destruct l. Qed.

Lemma quiet_arrived n v st s : v_stage v = GArrived -> entered (v_env v) (v_req v) (n_server n) = (st, s) -> quiet_step n v st s.
Proof.
  intros Sg A. unfold entered in A.
  destruct (s_limiter (n_server n)) as [lim|]; [destruct (bool_decide _); [|destruct (Allow _ _ _ lim) as [[[]| | |] lim']]|];
    injection A as <- <-; (split; [unfold thread_of; by rewrite Sg|by rewrite Sg; cbn; rewrite same_broker|done]).
Qed.

Lemma quiet_routed n v st s : v_stage v = GRouted ->
  visit_step (v_env v) (v_req v) GRouted (n_server n) = Some (st, s) -> quiet_step n v st s.
Proof.
  intros Sg A. cbn [visit_step] in A. injection A as A.
  assert (s = n_server n /\ (match st with GSending p => p = PStart | GListening _ _ => False | _ => True end)) as [-> T].
  { destruct (find_route _ _) as [x|code] eqn:F; [|by injection A as <- <-].
    destruct (begun_same _ _ _ _ _ _ A F) as (-> & T & _). split; [done|]. clear T. unfold begun in A.
    destruct (posts x) as [[c cap]|]; [destruct (submission cap _ c); by simplify_eq|].
    destruct (asks _ x) as [[q|o]|]; [by simplify_eq..|]. destruct x; try (destruct (handle _ _ _ _)); by simplify_eq. }
  split; [|by rewrite Sg; cbn; rewrite same_broker|by intros c id ->].
  unfold thread_of. rewrite Sg. cbn [v_stage at_stage v_env v_req]. destruct st; try done. by rewrite T.
Qed.

Lemma quiet_visit n i v st s : node_ok n -> visits n !! i = Some v ->
  visit_step (v_env v) (v_req v) (v_stage v) (n_server n) = Some (st, s) -> sending (v_stage v) = false -> quiet_step n v st s.
Proof.
  intros K E A Ns. destruct (v_stage v) as [| |q rd|p|c|c id|o] eqn:Sg; try done.
  - injection A as A. by apply quiet_arrived.
  - by apply quiet_routed.
  - cbn [visit_step] in A. fold (n_log n) in A. destruct (read_step rd (n_log n)) as [[rd' l]|] eqn:R; [|done].
    injection A as <- <-. destruct (sound_reading n i v q rd rd' l K E Sg R) as [_ ->].
    split; [unfold thread_of; by rewrite Sg|by rewrite Sg; cbn; rewrite same_broker|done].
  - cbn [visit_step] in A. unfold MsgrSubscribe in A. rewrite on_svc_log in A. fold (n_log n) in A.
    unfold LogSubscribe, on_broker, zoom in A. destruct (Subscribe (broker (n_log n))) as [o b] eqn:Sb.
    destruct o as [id|err|w|]; simplify_eq; (split; [unfold thread_of; by rewrite Sg|rewrite Sg; cbn; by rewrite Sb|]);
      try done. intros c' id' [= <- <-]. by rewrite Sb.
  - destruct (listening_step _ _ _ _ _ _ A) as (w & Hu & _). unfold hang_up, MsgrCancel in Hu.
    rewrite on_svc_log in Hu. fold (n_log n) in Hu. unfold on_broker, zoom in Hu.
    destruct (Cancel id (broker (n_log n))) as [o b] eqn:Cb.
    destruct o; simplify_eq; (split; [unfold thread_of; by rewrite Sg|rewrite Sg; cbn; by rewrite Cb|done]).
Qed.

Lemma stepped_system n i v p p' m l : visits n !! i = Some v -> v_stage v = GSending p -> message_of (v_req v) = Some m ->
  system_of (stepped_to n i v (GSending p') (with_log l (n_server n))) = moved (system_of n) i (thread_of v) p' l.
Proof.
  intros E Sg M. unfold system_of, stepped_to, moved, n_log. cbn [n_server visits threads]. f_equal.
  change (map thread_of) with (fmap (M := list) thread_of). by rewrite list_fmap_insert.
Qed.

(** [follows] does not look at the broker. *)
Lemma follows_broker n i v st s b evs : visits n !! i = Some v -> thread_of (at_stage st v) = thread_of v ->
  log_in s = set_broker b (n_log n) -> follows (system_of n) evs -> follows (system_of (stepped_to n i v st s)) evs.
Proof.
  intros E T L F. unfold stepped_to. rewrite (system_insert n i v st s E T), L. exact F.
Qed.
End Quiet.

(** ** Sessions *)

Section Sessions.
Context {S C : Type} `{SL : StorageLaws S} `{CL : CacheLaws C}.
Context `{HashFunction} `{Ed25519} `{RateLimiter}.
Implicit Types s : Server S C InMemoryBroker.
Implicit Types l : Log S C InMemoryBroker.
Implicit Types v : visit.
Implicit Types c : string.

Record session := { s_node : @node S C InMemoryBroker _; s_labels : list label }.

Definition the_broker (f : session) : InMemoryBroker := broker (n_log (s_node f)).

(** What the next step of a visit does to the broker. *)
Definition labels_of (v : visit) (b : InMemoryBroker) : list label :=
  match v_stage v with
  | GSending p => map LPublish (announces (chat_of (thread_of v)) p)
  | GSubscribing _ => [LSubscribe (nextID b)]
  | GListening _ id => [LCancel id]
  | _ => []
  end.

Definition at_broker (b : InMemoryBroker) (n : node) : @node S C InMemoryBroker _ :=
  {| n_server := with_log (set_broker b (n_log n)) (n_server n); visits := visits n |}.

(** A request takes a step, or somebody receives an event. *)
Inductive session_step (f : session) : session -> Prop :=
  | session_visit i v st s : visits (s_node f) !! i = Some v ->
      visit_step (v_env v) (v_req v) (v_stage v) (n_server (s_node f)) = Some (st, s) ->
      session_step f {| s_node := stepped_to (s_node f) i v st s; s_labels := s_labels f ++ labels_of v (the_broker f) |}
  | session_receive id ev b : receive id (the_broker f) = (Ok (Some ev), b) ->
      session_step f {| s_node := at_broker b (s_node f); s_labels := s_labels f ++ [LReceive id ev] |}.

Definition session_of s (rs : list (Env * Request)) : session := {| s_node := arrivals s rs; s_labels := [] |}.

(** All that was published. *)
Definition told (t : list label) : list Event := t ≫= fun a => match a with LPublish ev => [ev] | _ => [] end.

Lemma told_app t u : told (t ++ u) = told t ++ told u.
Proof. apply bind_app. Qed.

Lemma told_published evs : told (map LPublish evs) = evs.
Proof. induction evs as [|ev evs IH]; [done|]. change (ev :: told (map LPublish evs) = ev :: evs). by rewrite IH. Qed.

(** Visit [i] listens to channel [id]. *)
Definition listens (n : @node S C InMemoryBroker _) (i id : nat) : Prop :=
  exists v c, visits n !! i = Some v /\ v_stage v = GListening c id.

Record session_ok (f : session) : Prop := {
  se_node : node_ok (s_node f);
  se_trace : trace (s_labels f) (the_broker f);
  se_follows : follows (system_of (s_node f)) (told (s_labels f));
  se_open i id : listens (s_node f) i id -> (Broker.window id (s_labels f)).1 = true;
  se_own i j id : listens (s_node f) i id -> listens (s_node f) j id -> i = j;
}.

(** *** The trace *)

Lemma broker_works f : session_ok f -> broker_ok (the_broker f).
Proof. intros K. by destruct (trace_inv _ _ (se_trace _ K)). Qed.

Lemma trace_publish t b evs : trace t b -> trace (t ++ map LPublish evs) (foldl (fun b ev => (mem_Publish ev b).2) b evs).
Proof.
  revert t b. induction evs as [|ev evs IH]; intros t b T; [by rewrite app_nil_r|].
  cbn [map foldl]. rewrite (cons_middle (LPublish ev)), (assoc_L (++)). apply IH. destruct (trace_inv _ _ T) as [K _].
  destruct (publish_open ev b K) as (chs & E & _). apply (trace_step t b); [done|].
  apply (step_publish _ (elements (subscribers b))); [done|]. unfold mem_Publish in *. by rewrite E.
Qed.

Lemma trace_quiet t b v : trace t b -> sending (v_stage v) = false -> trace (t ++ labels_of v b) (brokered (v_stage v) b).
Proof.
  intros T Ns. unfold labels_of. destruct (v_stage v) as [| |q rd|p|c|c id|o]; try done; cbn [brokered]; rewrite ?app_nil_r; try done.
  - by apply (trace_step t b); [|apply step_subscribe].
  - apply (trace_step t b); [done|]. apply step_cancel. destruct (trace_inv _ _ T) as [K _].
    destruct (cancel_ok b id K) as (b' & E & _). change (Cancel id b) with (mem_Cancel id b). by rewrite E.
Qed.

Lemma told_quiet v b : sending (v_stage v) = false -> told (labels_of v b) = [].
Proof. intros Ns. unfold labels_of. by destruct (v_stage v). Qed.

(** *** One step *)

Lemma stepped_listens n i v st s j id : visits n !! i = Some v -> listens (stepped_to n i v st s) j id ->
  (j = i /\ exists c, st = GListening c id) \/ (j <> i /\ listens n j id).
Proof.
  intros E (w & c & L & Sg). cbn [visits stepped_to] in L. destruct (decide (j = i)) as [->|N].
  - rewrite list_lookup_insert_eq in L by by eapply lookup_lt_Some. left. split; [done|]. exists c. by simplify_eq.
  - rewrite list_lookup_insert_ne in L by done. right. split; [done|]. by exists w, c.
Qed.

Lemma window_quiet id t u : (forall a, a ∈ u -> match a with LPublish _ | LReceive _ _ => True | _ => False end) ->
  (Broker.window id (t ++ u)).1 = (Broker.window id t).1.
Proof.
  revert t. induction u as [|a u IH]; intros t Q; [by rewrite app_nil_r|].
  rewrite (cons_middle a), (assoc_L (++)), IH by (intros x Hx; apply Q; by right). rewrite window_snoc.
  specialize (Q a ltac:(left)). by destruct a.
Qed.

(** A channel that is not there yet. *)
Lemma fresh_window f : session_ok f -> Broker.window (nextID (the_broker f)) (s_labels f) = (false, []).
Proof.
  intros K. destruct (trace_inv _ _ (se_trace _ K)) as [Bk I]. specialize (I (nextID (the_broker f))). unfold channel_inv in I.
  destruct (channels (the_broker f) !! nextID (the_broker f)) as [ch|] eqn:E; [|apply I].
  apply (ok_channels _ Bk) in E as [? _]. lia.
Qed.

Lemma ok_sending f i v p st s : session_ok f -> visits (s_node f) !! i = Some v -> v_stage v = GSending p ->
  visit_step (v_env v) (v_req v) (v_stage v) (n_server (s_node f)) = Some (st, s) ->
  session_ok {| s_node := stepped_to (s_node f) i v st s; s_labels := s_labels f ++ labels_of v (the_broker f) |}.
Proof.
  intros K E Sg A. destruct (step_sound _ i v st s (se_node _ K) E A) as [K' _]. rewrite Sg in A. cbn [visit_step] in A.
  fold (n_log (s_node f)) in A. destruct (message_of (v_req v)) as [m|] eqn:M; [|done].
  destruct (advance (e_now (v_env v)) m p (n_log (s_node f))) as [[p' l]|] eqn:Ad; [|done]. injection A as <- <-.
  assert (chat_of (thread_of v) = ChatID m /\ t_phase (thread_of v) = p) as [Ch Tp] by (unfold chat_of; cbn; by rewrite M, Sg).
  assert (labels_of v (the_broker f) = map LPublish (announces (ChatID m) p)) as Lb by (unfold labels_of; by rewrite Sg, Ch).
  assert (forall id, (Broker.window id (s_labels f ++ map LPublish (announces (ChatID m) p))).1 = (Broker.window id (s_labels f)).1) as W.
  { intros id. apply window_quiet. intros a Ha. apply list_elem_of_fmap in Ha as (ev & -> & _). done. }
  assert (forall j id, listens (stepped_to (s_node f) i v (GSending p') (with_log l (n_server (s_node f)))) j id ->
    listens (s_node f) j id) as Ls by (intros j id [[_ [c Q]]|[_ Q]]%(stepped_listens _ _ _ _ _ _ _ E); done).
  rewrite Lb. split; cbn [s_node s_labels].
  - done.
  - change (trace (s_labels f ++ map LPublish (announces (ChatID m) p)) (broker l)). rewrite (advance_broker _ _ _ _ _ _ Ad).
    apply trace_publish, K.
  - rewrite (stepped_system _ _ _ _ _ _ _ E Sg M), told_app, told_published, <-Ch, <-Tp.
    apply follows_step; [apply K|by apply thread_at| |apply K]. rewrite Tp. cbn. by rewrite M.
  - intros j id Q. rewrite W. by apply (se_open _ K j), Ls.
  - intros j k id Q1 Q2. apply (se_own _ K j k id); by apply Ls.
Qed.

Lemma ok_quiet f i v st s : session_ok f -> visits (s_node f) !! i = Some v -> sending (v_stage v) = false ->
  visit_step (v_env v) (v_req v) (v_stage v) (n_server (s_node f)) = Some (st, s) ->
  session_ok {| s_node := stepped_to (s_node f) i v st s; s_labels := s_labels f ++ labels_of v (the_broker f) |}.
Proof.
  intros K E Ns A. destruct (step_sound _ i v st s (se_node _ K) E A) as [K' _].
  destruct (quiet_visit _ _ _ _ _ (se_node _ K) E A Ns) as [T L Li]. pose proof (stepped_listens (s_node f) i v st s) as Sl.
  assert (forall j id, j <> i -> listens (s_node f) j id ->
    (Broker.window id (s_labels f ++ labels_of v (the_broker f))).1 = true) as Keep.
  { intros j id N Q. pose proof (se_open _ K j id Q) as W. unfold labels_of.
    destruct (v_stage v) as [| |q rd|p|c|c id'|o] eqn:Sg; rewrite ?app_nil_r; try done; rewrite window_snoc; cbn.
    - by case_decide.
    - case_decide as D; [|done]. subst id'. destruct N. apply (se_own _ K j i id); [done|by exists v, c]. }
  assert (forall c id, st = GListening c id -> id = nextID (the_broker f) /\
    labels_of v (the_broker f) = [LSubscribe id]) as New.
  { intros c id Q. destruct (Li c id Q) as [Sg Sb]. injection Sb as <-. split; [done|]. unfold labels_of. by rewrite Sg. }
  split; cbn [s_node s_labels].
  - done.
  - change (trace (s_labels f ++ labels_of v (the_broker f)) (broker (log_in s))). rewrite L. by apply trace_quiet; [apply K|].
  - rewrite told_app, told_quiet, app_nil_r by done. by eapply follows_broker; [| |done|apply K].
  - intros j id [[-> [c Q]]|[N Q]]%Sl; [|by eapply Keep|done]. destruct (New c id Q) as [-> ->].
    rewrite window_snoc. cbn. by rewrite decide_True.
  - intros j k id Q1 Q2. apply Sl in Q1; [|done]. apply Sl in Q2; [|done].
    assert (forall j c, st = GListening c id -> listens (s_node f) j id -> False) as Fr.
    { intros j' c Q Q'. destruct (New c id Q) as [-> _]. apply (se_open _ K) in Q'. by rewrite fresh_window in Q'. }
    destruct Q1 as [[-> [c1 Q1]]|[N1 Q1]], Q2 as [[-> [c2 Q2]]|[N2 Q2]]; [done| | |by apply (se_own _ K j k id)];
      exfalso; by eapply Fr.
Qed.

Lemma ok_receive f id ev b : session_ok f -> receive id (the_broker f) = (Ok (Some ev), b) ->
  session_ok {| s_node := at_broker b (s_node f); s_labels := s_labels f ++ [LReceive id ev] |}.
Proof.
  intros K R. destruct (receive_ok _ _ _ _ (broker_works f K) R) as (Bk & _).
  assert (forall j, (Broker.window j (s_labels f ++ [LReceive id ev])).1 = (Broker.window j (s_labels f)).1) as W
    by (intros j; by rewrite window_snoc).
  split; cbn [s_node s_labels].
  - destruct (se_node _ K) as [I V]. split; [|exact V]. exact (sys_inv_broker _ _ b I Bk).
  - apply (trace_step _ (the_broker f)); [apply K|]. by apply step_receive.
  - rewrite told_app, app_nil_r. exact (se_follows _ K).
  - intros i j L. rewrite W. by apply (se_open _ K i j).
  - exact (se_own _ K).
Qed.

Lemma session_step_ok f f' : session_ok f -> session_step f f' -> session_ok f'.
Proof.
  intros K [i v st s E A|id ev b R]; [|by apply ok_receive]. destruct (sending (v_stage v)) eqn:Sg; [|by apply ok_quiet].
  destruct (v_stage v) as [| | |p| | |] eqn:Ep; try done. rewrite <-Ep in A. by eapply ok_sending.
Qed.

Lemma session_run_ok f f' : session_ok f -> rtc session_step f f' -> session_ok f'.
Proof. intros K R. induction R as [f|f f1 f2 St _ IH]; [done|]. by apply IH, (session_step_ok f). Qed.

Lemma session_start s rs : fresh_log (log_in s) -> broker (log_in s) = NewInMemoryBroker ->
  Z.of_nat (length rs) + 1 < 2 ^ 64 -> session_ok (session_of s rs).
Proof.
  intros F Br R. assert (forall i id, ~ listens (arrivals s rs) i id) as No.
  { intros i id (v & c & E & Sg). cbn [visits arrivals] in E. apply list_elem_of_lookup_2, list_elem_of_fmap in E as (er & -> & _). done. }
  split; cbn [s_node s_labels session_of].
  - by apply arrivals_ok.
  - change (trace [] (broker (log_in s))). rewrite Br. constructor.
  - rewrite arrivals_system. by apply calls_follows.
  - intros i id L. by destruct (No i id).
  - intros i j id L. by destruct (No i id).
Qed.

(** *** One subscription *)

Lemma told_snoc t a : told (t ++ [a]) = told t ++ match a with LPublish ev => [ev] | _ => [] end.
Proof. rewrite told_app. f_equal. unfold told. cbn. by rewrite app_nil_r. Qed.

(** While a channel is open it is offered all that is published. *)
Lemma offered id t u : (Broker.window id t).1 = true -> (Broker.window id (t ++ u)).1 = true ->
  (forall j, LSubscribe j ∈ u -> j <> id) ->
  published id (t ++ u) = published id t ++ told u.
Proof.
  intros O. induction u as [|a u IH] using rev_ind; intros Oe Fr; [by rewrite !app_nil_r|].
  rewrite (assoc_L (++)) in *. rewrite window_snoc in Oe. unfold published in *. rewrite window_snoc, told_snoc.
  assert ((Broker.window id (t ++ u)).1 = true) as Ou.
  { destruct a as [j|j|ev|j ev]; cbn in Oe; try done; case_decide; try done. subst j.
    exfalso. apply (Fr id); [set_solver|done]. }
  specialize (IH Ou ltac:(set_solver)). rewrite (assoc_L (++)), <-IH.
  destruct a as [j|j|ev|j ev]; cbn; rewrite ?app_nil_r; try done; [by case_decide..|by rewrite Ou].
Qed.

(** Visit [i] still listens, or has returned. *)
Definition streaming (f0 : session) (i id : nat) (v : visit) (c : string) (f : session) : Prop :=
  (visits (s_node f) !! i = Some (at_stage (GListening c id) v) /\
   told (s_labels f) = told (s_labels f0) ++ published id (s_labels f)) \/
  exists o, visits (s_node f) !! i = Some (at_stage (GDone o) v).

Lemma labels_fresh f v id j : session_ok f -> (Broker.window id (s_labels f)).1 = true ->
  LSubscribe j ∈ labels_of v (the_broker f) -> j <> id.
Proof.
  intros K O I ->. unfold labels_of in I. destruct (v_stage v) as [| |q rd|p|c|c k|o]; try (by apply not_elem_of_nil in I).
  - apply list_elem_of_fmap in I as (ev & ? & _). done.
  - apply list_elem_of_singleton in I as [= ->]. by rewrite fresh_window in O.
  - by apply list_elem_of_singleton in I.
Qed.

Lemma streaming_more f0 i id f n' u : session_ok f -> session_ok {| s_node := n'; s_labels := s_labels f ++ u |} ->
  (forall j, LSubscribe j ∈ u -> j <> id) -> listens (s_node f) i id -> listens n' i id ->
  told (s_labels f) = told (s_labels f0) ++ published id (s_labels f) ->
  told (s_labels f ++ u) = told (s_labels f0) ++ published id (s_labels f ++ u).
Proof.
  intros K K' Fr L L' T. rewrite offered by (done || by eapply (se_open _ K) || by eapply (se_open _ K')).
  by rewrite told_app, T, (assoc_L (++)).
Qed.

Lemma streaming_step f0 i id v c f f' : session_ok f -> session_step f f' -> streaming f0 i id v c f -> streaming f0 i id v c f'.
Proof.
  intros K St Sm. pose proof (session_step_ok f f' K St) as K'.
  destruct St as [j w st s E A|j ev b R]; unfold streaming in *; cbn [s_node s_labels visits stepped_to at_broker] in *.
  - destruct Sm as [[Ei T]|[o Ei]].
    + destruct (decide (j = i)) as [->|N].
      * simplify_eq. right. cbn [v_stage at_stage] in A. destruct (listening_step _ _ _ _ _ _ A) as (w & Hu & _).
        destruct (hang_up_run (s_node f) id w (node_broker _ (se_node _ K))) as (o & s' & Hu' & _). rewrite Hu in Hu'. injection Hu' as -> _.
        exists o. by rewrite list_lookup_insert_eq by by eapply lookup_lt_Some.
      * left. assert (<[j := at_stage st w]> (visits (s_node f)) !! i = Some (at_stage (GListening c id) v)) as Ei'
          by by rewrite list_lookup_insert_ne. split; [done|]. assert (listens (s_node f) i id) as Li by by exists (at_stage (GListening c id) v), c.
        apply (streaming_more f0 i id f _ _ K K'); [|done| |done].
        -- intros k. apply labels_fresh; [done|by apply (se_open _ K i)].
        -- by exists (at_stage (GListening c id) v), c.
    + right. exists o. destruct (decide (j = i)) as [->|N]; [|by rewrite list_lookup_insert_ne]. by simplify_eq.
  - destruct Sm as [[Ei T]|Ov]; [left|by right]. split; [done|].
    apply (streaming_more f0 i id f _ _ K K'); [|by exists (at_stage (GListening c id) v), c..|done].
    intros k I. by apply list_elem_of_singleton in I.
Qed.

Lemma streaming_run f0 i id v c f f' : session_ok f -> rtc session_step f f' -> streaming f0 i id v c f -> streaming f0 i id v c f'.
Proof.
  intros K R. induction R as [f|f f1 f2 St _ IH]; [done|]. intros Sm. apply IH; [by eapply session_step_ok|by eapply streaming_step].
Qed.

(** The step that subscribes. *)
Lemma streaming_starts f0 i id v c st s : session_ok f0 -> visits (s_node f0) !! i = Some v -> v_stage v = GSubscribing c ->
  visit_step (v_env v) (v_req v) (v_stage v) (n_server (s_node f0)) = Some (st, s) -> st = GListening c id ->
  streaming f0 i id v c {| s_node := stepped_to (s_node f0) i v st s; s_labels := s_labels f0 ++ labels_of v (the_broker f0) |}.
Proof.
  intros K E Sg A Q. assert (sending (v_stage v) = false) as Ns by by rewrite Sg.
  destruct (quiet_visit _ _ _ _ _ (se_node _ K) E A Ns) as [_ _ Li]. destruct (Li c id Q) as [_ Sb]. injection Sb as Sb.
  left. cbn [s_node s_labels visits stepped_to]. split; [rewrite list_lookup_insert_eq by (by eapply lookup_lt_Some); by rewrite Q|].
  unfold labels_of. rewrite Sg, told_snoc, app_nil_r. unfold published. rewrite window_snoc. fold (the_broker f0) in Sb.
  rewrite Sb. cbn. rewrite <-Sb. by rewrite decide_True, fresh_window, app_nil_r.
Qed.

(** *** The channel and the log *)

Lemma of_chat_sublist c a b : a `sublist_of` b -> of_chat c a `sublist_of` of_chat c b.
Proof.
  induction 1 as [|x a b Q IH|x a b Q IH]; [done|..]; unfold of_chat in *; rewrite !filter_cons; case_decide; try done; by constructor.
Qed.

(** An event of the feed leads to its entry. *)
Lemma feed_stored f c ev : session_ok f -> ev ∈ feed c (log_at (n_log (s_node f)) c) ->
  exists e, log_at (n_log (s_node f)) c !! Z.to_nat (ev_Sequence ev) = Some e /\ ev_EntryHash ev = EntryHash e.
Proof.
  intros K Ev. destruct (feed_entry _ _ _ Ev) as (e & E & _ & Sq & Ha). exists e. split; [|done].
  apply list_elem_of_lookup_1 in E as [k E]. pose proof (no_system _ (se_node _ K)) as I.
  assert (Z.of_nat (length (log_at (n_log (s_node f)) c)) + 1 < 2 ^ 64) as R by exact (stored_room _ I c).
  assert (chain 0 GenesisHash (log_at (n_log (s_node f)) c)) as T by exact (inv_chain _ c I).
  rewrite Sq, (chain_sequence _ k e T) by (done || lia). by rewrite Nat2Z.id.
Qed.

(** Since a stream of chat [c] subscribed, in [f0], as [id]: [sf_before] had been
    published of the chat and [sf_rest0] was on its way; [sf_sent] has been
    published since, and [sf_rest] is on its way now. *)
Record stream_of (f0 f : session) (c : string) (id : nat) : Prop := {
  sf_before : list Event;
  sf_rest0 : list Event;
  sf_sent : list Event;
  sf_rest : list Event;
  sf_chan : chan;
  sf_then : feed c (log_at (n_log (s_node f0)) c) = sf_before ++ sf_rest0 /\ in_flight (system_of (s_node f0)) c sf_rest0;
  sf_now : feed c (log_at (n_log (s_node f)) c) = sf_before ++ sf_sent ++ sf_rest /\ in_flight (system_of (s_node f)) c sf_rest;
  sf_there : channels (the_broker f) !! id = Some sf_chan;
  sf_order : of_chat c (Broker.received id (s_labels f) ++ buffer sf_chan) `sublist_of` sf_sent;
  sf_whole : (length (published id (s_labels f)) <= capacity)%nat ->
    of_chat c (Broker.received id (s_labels f) ++ buffer sf_chan) = sf_sent;
  sf_stored ev : ev ∈ Broker.received id (s_labels f) -> ev_ChatID ev = c ->
    exists e, log_at (n_log (s_node f)) c !! Z.to_nat (ev_Sequence ev) = Some e /\ ev_EntryHash ev = EntryHash e;
  sf_posted j w m e : visits (s_node f) !! j = Some w -> message_of (v_req w) = Some m -> ChatID m = c ->
    v_stage w = GSending (PDone (Ok e)) -> Z.of_nat (length (log_at (n_log (s_node f0)) c)) <= Sequence e ->
    entry_event c e ∈ sf_sent;
}.

(** A message that was posted since [f0] has been announced since. *)
Lemma posted_sent f0 f c j w m e before rest0 sent rest : session_ok f0 -> session_ok f ->
  visits (s_node f) !! j = Some w -> message_of (v_req w) = Some m -> ChatID m = c -> v_stage w = GSending (PDone (Ok e)) ->
  Z.of_nat (length (log_at (n_log (s_node f0)) c)) <= Sequence e ->
  feed c (log_at (n_log (s_node f0)) c) = before ++ rest0 ->
  feed c (log_at (n_log (s_node f)) c) = before ++ sent ++ rest -> in_flight (system_of (s_node f)) c rest ->
  entry_event c e ∈ sent.
Proof.
  intros K0 K E M Ch Sg Late F0 F Fl. pose proof (thread_at _ _ _ E) as Et. pose proof (no_system _ (se_node _ K)) as I.
  assert (chat_of (thread_of w) = c) as Ct by (unfold chat_of; cbn; by rewrite M).
  assert (t_phase (thread_of w) = PDone (Ok e)) as Tp by (cbn; by rewrite Sg).
  destruct (so_kept _ (si_ok _ I) j _ Et e) as (_ & _ & L); [by rewrite Tp|]. rewrite Ct in L. apply list_elem_of_lookup_2 in L.
  assert (entry_event c e ∈ before ++ sent ++ rest) as Q.
  { rewrite <-F. apply list_elem_of_bind. exists e. split; [by left|exact L]. }
  apply elem_of_app in Q as [Q|[Q|Q]%elem_of_app]; [|done|by destruct (returned_published _ c rest j _ e I Fl Et Ct Tp)].
  exfalso. assert (entry_event c e ∈ feed c (log_at (n_log (s_node f0)) c)) as Q0 by (rewrite F0; apply elem_of_app; by left).
  destruct (feed_stored f0 c _ K0 Q0) as (e0 & L0 & _). apply lookup_lt_Some in L0. cbn [ev_Sequence entry_event] in L0. lia.
Qed.

Lemma streaming_carries f0 f i id v c : session_ok f0 -> session_ok f ->
  visits (s_node f) !! i = Some (at_stage (GListening c id) v) -> streaming f0 i id v c f -> stream_of f0 f c id.
Proof.
  intros K0 K E [[_ T]|[o Q]]; [|rewrite E in Q; by destruct v].
  destruct (se_follows _ K0 c) as (rest0 & Fl0 & Fe0). destruct (se_follows _ K c) as (rest & Fl & Fe).
  destruct (trace_inv _ _ (se_trace _ K)) as [_ I]. specialize (I id). unfold channel_inv in I.
  assert ((Broker.window id (s_labels f)).1 = true) as O by (apply (se_open _ K i); by exists (at_stage (GListening c id) v), c).
  destruct (channels (the_broker f) !! id) as [ch|] eqn:Ch; [|destruct I as [_ I]; by rewrite I in O].
  destruct I as (_ & Su & Wh). rewrite T, of_chat_app, <-(assoc_L (++)) in Fe.
  exists (of_chat c (told (s_labels f0))) rest0 (of_chat c (published id (s_labels f))) rest ch; try done.
  - by apply of_chat_sublist.
  - intros L. by rewrite Wh.
  - intros ev Ev Cv. apply (feed_stored f c ev K). change (log_at (n_log (s_node f)) c) with (log_at (shared (system_of (s_node f))) c).
    rewrite Fe. apply elem_of_app. right. apply elem_of_app. left. apply list_elem_of_filter. split; [done|].
    eapply sublist_subseteq; [exact Su|]. apply elem_of_app. by left.
  - intros j w m e Ej M Cm Sg Late. by apply (posted_sent f0 f c j w m e (of_chat c (told (s_labels f0))) rest0 _ rest).
Qed.

Lemma subscribing f0 f1 i v c id : session_ok f0 -> session_step f0 f1 -> visits (s_node f0) !! i = Some v ->
  v_stage v = GSubscribing c -> visits (s_node f1) !! i = Some (at_stage (GListening c id) v) -> streaming f0 i id v c f1.
Proof.
  intros K St E Sg E1. destruct St as [j w st s Ej A|j ev b R]; cbn [s_node visits stepped_to at_broker] in E1.
  - destruct (decide (j = i)) as [->|N].
    + rewrite list_lookup_insert_eq in E1 by by eapply lookup_lt_Some. simplify_eq. by apply streaming_starts.
    + rewrite list_lookup_insert_ne in E1 by done. rewrite E in E1. injection E1 as E1. by rewrite E1 in Sg.
  - rewrite E in E1. injection E1 as E1. by rewrite E1 in Sg.
Qed.

(** C6: a stream follows the log.  Let requests run concurrently on a node over
    the in-memory broker, with fresh logs, while the channels are read.  Take a
    stream of chat [c] that subscribes in [f0] and still listens in [f].  The
    events of [c] that it has received, followed by those in its channel, are in
    the order of the log, without repetition, from the entries that had not been
    announced in [f0] on; while no more than 64 events were published none is
    missing, except what the one call inside the chat's critical section has
    still to publish: the event of a message that was posted since [f0] and
    answered is there; and every event received is of an entry that is in the log
    at its sequence, with its hash. *)
Theorem stream_follows_log s rs f0 f1 f i v c id : fresh_log (log_in s) -> broker (log_in s) = NewInMemoryBroker ->
  Z.of_nat (length rs) + 1 < 2 ^ 64 -> rtc session_step (session_of s rs) f0 ->
  session_step f0 f1 -> visits (s_node f0) !! i = Some v -> v_stage v = GSubscribing c ->
  visits (s_node f1) !! i = Some (at_stage (GListening c id) v) ->
  rtc session_step f1 f -> visits (s_node f) !! i = Some (at_stage (GListening c id) v) -> stream_of f0 f c id.
Proof.
  intros F Br R R0 St E Sg E1 R1 Ef. pose proof (session_run_ok _ f0 (session_start s rs F Br R) R0) as K0.
  pose proof (session_step_ok f0 f1 K0 St) as K1. apply (streaming_carries f0 f i id v c K0); [by eapply session_run_ok|done|].
  eapply streaming_run; [exact K1|done|]. by apply subscribing.
Qed.
End Sessions.

(** ** A stream and a message *)

Module StreamSample.
Import ApiSample NodeSample.

Definition stream_request : Request := {|
  r_method := GET; r_path := ["chats"; "c"; "ws"]%string; r_query := fun _ => ""%string; r_body := []; r_cut := false;
  r_remote := "10.0.0.3:4711" |}.

Definition watched : list (Env * Request) := [(env, stream_request); (env, post 0)].

Abbreviation sample_session := (@session InMemoryStorage InMemoryCache _).

(** A step of request [inl i], or the receipt of an event from channel [inr id]. *)
Definition play (f : sample_session) (a : nat + nat) : sample_session :=
  match a with
  | inl i =>
      match visits (s_node f) !! i with
      | Some v => match visit_step (v_env v) (v_req v) (v_stage v) (n_server (s_node f)) with
                  | Some (st, s) => {| s_node := stepped_to (s_node f) i v st s; s_labels := s_labels f ++ labels_of v (the_broker f) |}
                  | None => f
                  end
      | None => f
      end
  | inr id =>
      match receive id (the_broker f) with
      | (Ok (Some ev), b) => {| s_node := at_broker b (s_node f); s_labels := s_labels f ++ [LReceive id ev] |}
      | _ => f
      end
  end.
Definition plays (order : list (nat + nat)) f : sample_session := foldl play f order.

Lemma play_reaches f a : play f a = f \/ session_step f (play f a).
Proof.
  destruct a as [i|id]; cbn.
  - destruct (visits (s_node f) !! i) as [v|] eqn:E; [|by left]. destruct (visit_step _ _ _ _) as [[st s]|] eqn:A; [|by left].
    right. by apply session_visit.
  - destruct (receive id (the_broker f)) as [[[ev|]|?|?|] b] eqn:R; try (by left). right. by apply session_receive.
Qed.

Lemma plays_reach order f : rtc session_step f (plays order f).
Proof.
  revert f. induction order as [|a order IH]; intros f; [done|]. change (plays (a :: order) f) with (plays order (play f a)).
  destruct (play_reaches f a) as [->|St]; [done|]. by eapply rtc_l.
Qed.

Definition before : sample_session := plays [inl 0; inl 0]%nat (session_of fresh_server watched).
Definition opened : sample_session := play before (inl 0%nat).
(** The message is posted, and its event received. *)
Definition heard : sample_session := plays (replicate 9 (inl 1%nat) ++ [inr 0%nat]) opened.

Lemma heard_events : map ev_Sequence (Broker.received 0 (s_labels heard)) = [0].
Proof. vm_compute. reflexivity. Qed.

Definition reader : visit := {| v_env := env; v_req := stream_request; v_stage := GSubscribing "c" |}.

Lemma before_reader : visits (s_node before) !! 0%nat = Some reader.
Proof. vm_compute. reflexivity. Qed.
Lemma opened_reader : visits (s_node opened) !! 0%nat = Some (at_stage (GListening "c" 0) reader).
Proof. vm_compute. reflexivity. Qed.
Lemma heard_reader : visits (s_node heard) !! 0%nat = Some (at_stage (GListening "c" 0) reader).
Proof. vm_compute. reflexivity. Qed.

Lemma opened_steps : session_step before opened.
Proof.
  destruct (play_reaches before (inl 0%nat)) as [Q|St]; [|exact St]. exfalso.
  pose proof opened_reader as E. unfold opened in E. rewrite Q, before_reader in E. done.
Qed.

Lemma watched_small : Z.of_nat (length watched) + 1 < 2 ^ 64.
Proof. reflexivity. Qed.

Lemma fresh_broker : broker (log_in fresh_server) = NewInMemoryBroker.
Proof. reflexivity. Qed.
End StreamSample.

Section Witnesses.
Import NodeSample StreamSample.

Lemma stream_follows_log_witness : map ev_Sequence (Broker.received 0 (s_labels heard)) = [0] /\ stream_of before heard "c" 0.
Proof.
  split; [exact heard_events|].
  exact (stream_follows_log fresh_server watched before opened heard 0 reader "c" 0 fresh fresh_broker watched_small
    (plays_reach _ _) opened_steps before_reader eq_refl opened_reader (plays_reach _ _) heard_reader).
Defined.
End Witnesses.
