(* ===== verification/Dispatch.v ===== *)
(** * Dispatch: port values that hold one of two adapters

    [main] picks its adapters at start-up and keeps them behind the interfaces
    of the ports.  An interface value that holds one of two adapters is a sum;
    a method call goes to the adapter it holds.  The sum keeps the promises of
    a port when both adapters do. *)
From S2P Require Import Prelude Codec JsonText GoTime Sha256 Models Storage Cache Broker.

Section Dispatch.
Context {L R A : Type}.

(** The dynamic call. *)
Definition dispatch (l : M L A) (r : M R A) : M (L + R) A := fun s =>
  match s with
  | inl a => let '(o, a') := l a in (o, inl a')
  | inr b => let '(o, b') := r b in (o, inr b')
  end.

Lemma dispatch_l l r a o a' : l a = (o, a') -> dispatch l r (inl a) = (o, inl a').
Proof. intros E. unfold dispatch. by rewrite E. Qed.
Lemma dispatch_r l r b o b' : r b = (o, b') -> dispatch l r (inr b) = (o, inr b').
Proof. intros E. unfold dispatch. by rewrite E. Qed.
End Dispatch.

#[global] Instance sum_storage {L R} `{Storage L} `{Storage R} : Storage (L + R) := {
  AppendEntry c e := dispatch (AppendEntry c e) (AppendEntry c e);
  LastEntry c := dispatch (LastEntry c) (LastEntry c);
  Entry c q := dispatch (Entry c q) (Entry c q);
  EntriesSince c q := dispatch (EntriesSince c q) (EntriesSince c q);
  SaveSnapshot n := dispatch (SaveSnapshot n) (SaveSnapshot n);
  LatestSnapshot c := dispatch (LatestSnapshot c) (LatestSnapshot c);
  SnapshotAt c i := dispatch (SnapshotAt c i) (SnapshotAt c i);
}.

#[global] Instance sum_cache {L R} `{Cache L} `{Cache R} : Cache (L + R) := {
  SetMerkleRoot c r := dispatch (SetMerkleRoot c r) (SetMerkleRoot c r);
  GetMerkleRoot c := dispatch (GetMerkleRoot c) (GetMerkleRoot c);
  SetPublicKey u k := dispatch (SetPublicKey u k) (SetPublicKey u k);
  GetPublicKey u := dispatch (GetPublicKey u) (GetPublicKey u);
}.

#[global] Instance sum_broker {L R} `{Broker L} `{Broker R} : Broker (L + R) := {
  Publish ev := dispatch (Publish ev) (Publish ev);
  Subscribe := dispatch Subscribe Subscribe;
  Cancel id := dispatch (Cancel id) (Cancel id);
}.

#[global] Instance sum_cache_laws {L R} `{CacheLaws L} `{CacheLaws R} : CacheLaws (L + R).
Proof.
  split.
  - intros c r [a|b]; [destruct (set_root_returns c r a) as [s E]|destruct (set_root_returns c r b) as [s E]];
      eexists; [by apply dispatch_l|by apply dispatch_r].
  - intros u k [a|b]; [destruct (set_key_returns u k a) as [s E]|destruct (set_key_returns u k b) as [s E]];
      eexists; [by apply dispatch_l|by apply dispatch_r].
Qed.

#[global] Program Instance sum_broker_laws {L R} `{BL : BrokerLaws L} `{BR : BrokerLaws R} : BrokerLaws (L + R) := {
  broker_inv s := match s with inl a => broker_inv a | inr b => broker_inv b end;
  live id s := match s with inl a => live id a | inr b => live id b end;
}.
Next Obligation.
  intros L R ? BL ? BR ev [a|b] I.
  - destruct (publish_returns ev a I) as (s & I' & [E|[e E]]); exists (inl s); (split; [done|]);
      [left|right; exists e]; by apply dispatch_l.
  - destruct (publish_returns ev b I) as (s & I' & [E|[e E]]); exists (inr s); (split; [done|]);
      [left|right; exists e]; by apply dispatch_r.
Qed.
Next Obligation.
  intros L R ? BL ? BR [a|b] I.
  - destruct (subscribe_returns a I) as (s & I' & [(id & E & Lv)|[e E]]); exists (inl s); (split; [done|]);
      [left; exists id; split; [|done]|right; exists e]; by apply dispatch_l.
  - destruct (subscribe_returns b I) as (s & I' & [(id & E & Lv)|[e E]]); exists (inr s); (split; [done|]);
      [left; exists id; split; [|done]|right; exists e]; by apply dispatch_r.
Qed.
Next Obligation.
  intros L R ? BL ? BR id [a|b] I Lv.
  - destruct (cancel_returns id a I Lv) as (s & I' & E). exists (inl s). split; [done|]. by apply dispatch_l.
  - destruct (cancel_returns id b I Lv) as (s & I' & E). exists (inr s). split; [done|]. by apply dispatch_r.
Qed.
Next Obligation.
  intros L R ? BL ? BR id [a|b] I; cbn.
  - pose proof (cancel_keeps id a I) as I'. by destruct (Cancel id a).
  - pose proof (cancel_keeps id b I) as I'. by destruct (Cancel id b).
Qed.
Next Obligation.
  intros L R ? BL ? BR id [a|b] I; cbn.
  - pose proof (cancel_ends id a I). by destruct (Cancel id a).
  - pose proof (cancel_ends id b I). by destruct (Cancel id b).
Qed.
