(* ===== verification/Main.v ===== *)
(** * Main: the node as a whole ([cmd/messenger/main.go])

    Which adapters the environment selects, how the parts are put together, the
    limit on request bodies, the life of the HTTP server until a signal ends
    it, and the demonstration.  Whatever is selected for the cache and the
    broker, the node answers every request and keeps its logs; the limit leaves
    room for every attachment that is allowed. *)
From S2P Require Import Prelude Codec JsonText GoTime JsonTree JsonUtf8 TimeText Sha256 Models Merkle Crypto Storage Cache Redis Broker Wire WireSize Rabbit RabbitRuns Chatlog LogFacts LogReads LogContract Service RateLimit Api ApiContract ApiJson Scylla Dispatch.

(** ** Constants *)

Definition Hour : Z := 60 * Minute.
Definition readHeaderTimeout : Z := 5 * Second.
Definition readTimeout : Z := 30 * Second.
Definition writeTimeout : Z := 30 * Second.
Definition idleTimeout : Z := 120 * Second.
Definition shutdownTimeout : Z := 15 * Second.
Definition maxRequestBytes : Z := Z.shiftl 72 20.
Definition rateLimitIdleTimeout : Z := 10 * Minute.

(** ** The environment *)

(** [os.Getenv]: empty for a variable that is not set. *)
Definition envOr (getenv : string -> string) (key fallback : string) : string :=
  let v := getenv key in if bool_decide (v = ""%string) then fallback else v.

(** [strings.Split(s, sep)] for a separator of one byte. *)
Fixpoint split_byte (sep : byte) (l : list byte) : list (list byte) :=
  match l with
  | [] => [[]]
  | b :: r =>
      if Byte.eqb b sep then [] :: split_byte sep r
      else match split_byte sep r with p :: ps => (b :: p) :: ps | [] => [[b]] end
  end.
Definition Split (s : string) (sep : byte) : list string := map text (split_byte sep (bytes s)).

Section Build.
(** The worlds of RabbitMQ, Redis and ScyllaDB. *)
Context {WB WC D : Type} `{AMQP WB} `{RedisClient WC} `{Cluster D}.
Variable CreateSession : ClusterConfig -> outcome D.
Variable getenv : string -> string.

(** An error is a [log.Fatalf]: the process ends with status 1. *)
Definition buildStorage : outcome (InMemoryStorage + Scylla (D := D)) :=
  let hosts := getenv "SCYLLA_HOSTS" in
  if bool_decide (hosts = ""%string) then Ok (inl NewInMemoryStorage)
  else
    s ← NewScylla CreateSession (envOr getenv "SCYLLA_KEYSPACE" "messenger") (Split hosts x2c);
    Ok (inr s).

Definition buildCache (w : WC) : outcome (InMemoryCache + redis_node WC) :=
  let addr := getenv "REDIS_ADDR" in
  if bool_decide (addr = ""%string) then Ok (inl (NewInMemoryCache ∅))
  else
    let '(r, w') := NewRedis addr (getenv "REDIS_PASSWORD") 0 Hour w in
    r ← r; Ok (inr (RedisNode r w' ∅)).

Definition buildBroker (w : WB) : outcome (InMemoryBroker + node WB) :=
  let url := getenv "RABBITMQ_URL" in
  if bool_decide (url = ""%string) then Ok (inl NewInMemoryBroker)
  else
    let '(r, w') := NewRabbitMQ url w in
    r ← r; Ok (inr (Node r ∅ w')).
End Build.

(** ** The HTTP server *)

Section Serve.
Context {S C B : Type} `{Storage S} `{Cache C} `{Broker B} `{HashFunction} `{Ed25519} `{RateLimiter}.

(** [http.MaxBytesHandler]: the body ends in an error after [n] bytes. *)
Definition limit_body (n : Z) (r : Request) : Request :=
  if n <? Z.of_nat (length (r_body r)) then {|
    r_method := r_method r; r_path := r_path r; r_query := r_query r;
    r_body := take (Z.to_nat n) (r_body r); r_cut := true; r_remote := r_remote r |}
  else r.
Definition MaxBytesHandler (h : Request -> M (Server S C B) Response) (n : Z) (r : Request) : M (Server S C B) Response :=
  h (limit_body n r).

Record http_Server := {
  Addr : string;
  ServeHTTP : Env -> Request -> M (Server S C B) Response;
  ReadHeaderTimeout : Z; ReadTimeout : Z; WriteTimeout : Z; IdleTimeout : Z;
}.

Definition serve (addr : string) (handler : Env -> Request -> M (Server S C B) Response) : http_Server := {|
  Addr := addr;
  ServeHTTP env := MaxBytesHandler (handler env) maxRequestBytes;
  ReadHeaderTimeout := readHeaderTimeout; ReadTimeout := readTimeout;
  WriteTimeout := writeTimeout; IdleTimeout := idleTimeout |}.

(** Requests one after another; [None] for one that is not answered. *)
Fixpoint answer_all (srv : http_Server) (rs : list (Env * Request)) (s : Server S C B)
    : list (option Response) * Server S C B :=
  match rs with
  | [] => ([], s)
  | (env, r) :: rest =>
      let '(o, s1) := ServeHTTP srv env r s in
      let '(os, s2) := answer_all srv rest s1 in
      (match o with Ok v => Some v | _ => None end :: os, s2)
  end.
End Serve.

(** ** Until shutdown *)

(** The goroutine that listens, the buffered channel of its error, the
    context, whether [Shutdown] has been called and what it returned, and the
    result of the function. *)
Record life := {
  listening : bool;
  errCh : option error;
  cancelled : bool;
  shut : option (option error);
  returned : option (option error);
}.
Definition born : life :=
  {| listening := true; errCh := None; cancelled := false; shut := None; returned := None |}.

Definition ErrServerClosed : error := New "http: Server closed".

(** [runUntilShutdown]; the [select] takes any ready case, [ListenAndServe]
    returns an error always, and [ErrServerClosed] at once after [Shutdown]. *)
Inductive life_step (s : life) : life -> Prop :=
  | life_listen_fails err : listening s = true -> (shut s = None \/ err = ErrServerClosed) ->
      life_step s {| listening := false;
                     errCh := if errors_is err ErrServerClosed then errCh s else Some err;
                     cancelled := cancelled s; shut := shut s; returned := returned s |}
  | life_signal : cancelled s = false ->
      life_step s {| listening := listening s; errCh := errCh s; cancelled := true;
                     shut := shut s; returned := returned s |}
  | life_take_error err : returned s = None -> shut s = None -> errCh s = Some err ->
      life_step s {| listening := listening s; errCh := None; cancelled := cancelled s;
                     shut := shut s; returned := Some (Some err) |}
  | life_shutdown r : returned s = None -> shut s = None -> cancelled s = true ->
      life_step s {| listening := listening s; errCh := errCh s; cancelled := cancelled s;
                     shut := Some r; returned := returned s |}
  | life_return r : returned s = None -> shut s = Some r ->
      life_step s {| listening := listening s; errCh := errCh s; cancelled := cancelled s;
                     shut := shut s; returned := Some (Wrapf "graceful shutdown" <$> r) |}.

(** ** The demonstration *)

(** What a message of the demonstration reads from its surroundings: the bytes
    of its identifier, and the clock. *)
Record demo_input := { di_id : list byte; di_now : Time; di_append : Time }.

Definition demo_chat : string := "demo-chat".

(** [s[:16]] *)
Definition first16 (s : string) : outcome string :=
  if (length (bytes s) <? 16)%nat then Panic "slice bounds out of range"
  else Ok (text (take 16 (bytes s))).

Definition newline : string := text [x0a].

(** The literals of the source end in an ellipsis, three bytes of UTF-8. *)
Definition ellipsis : string := text [xe2; x80; xa6].

Section Demo.
Context {S C B : Type} `{Storage S} `{Cache C} `{Broker B} `{HashFunction} `{Ed25519}.

Definition demo_message (pub : list byte) (inp : demo_input) (i : Z) : SignedMessage :=
  NewMessage (di_id inp) (di_now inp) demo_chat "alice" pub (bytes ("message " ++ fmt_d i)) ContentTypeText "" false.

(** The lines printed. *)
Fixpoint demo_loop (priv pub : list byte) (inputs : Z -> demo_input) (idx : list Z)
    : M (Messenger S C B) (list string) :=
  match idx with
  | [] => mret []
  | i :: r =>
      msg ← lift (SignMessage (demo_message pub (inputs i) i) priv);
      entry ← Submit (di_append (inputs i)) msg 0;
      h ← lift (first16 (EntryHash entry));
      lines ← demo_loop priv pub inputs r;
      mret (("appended seq=" ++ fmt_d (Sequence entry) ++ " hash=" ++ h ++ ellipsis ++ newline)%string :: lines)
  end.

(** The lines, and whether it ended in [os.Exit(1)]. *)
Definition runDemo (seed : outcome (list byte)) (inputs : Z -> demo_input)
    : M (Messenger S C B) (list string * bool) :=
  '(priv, pub) ← lift (GenerateKeyPair seed);
  lines ← demo_loop priv pub inputs [1; 2; 3];
  result ← MsgrVerify demo_chat;
  bundle ← MsgrSync demo_chat;
  h ← lift (first16 (CurrentHash bundle));
  mret (lines ++
        ["verify: valid=" ++ (if vr_Valid result then "true" else "false") ++ " entries=" ++ fmt_d (vr_Entries result)
         ++ " " ++ vr_Reason result ++ newline;
         "sync: " ++ fmt_d (Z.of_nat (length (NewEntries bundle))) ++ " new entries, current hash " ++ h
         ++ ellipsis ++ newline]%string, negb (vr_Valid result)).
End Demo.

(** ** The process *)

Section Process.
Context {S C B : Type} `{Storage S} `{Cache C} `{Broker B} `{HashFunction} `{Ed25519} `{RateLimiter}.

Record flags := {
  f_addr : string;
  f_demo : bool;
  f_rps : rate_Limit;
  f_burst : Z;
}.

(** A process that ended with a status, or serves. *)
Inductive process :=
  | Exited (status : Z)
  | Serving (srv : http_Server (S := S) (C := C) (B := B)) (s : Server S C B).

(** [main] once its adapters are built; [positive] is [rps > 0]. *)
Definition main_on (positive : rate_Limit -> bool) (f : flags) (seed : outcome (list byte)) (inputs : Z -> demo_input)
    (store : S) (c : C) (b : B) : outcome process :=
  let svc := NewMessenger (WithBroker b (WithCache c (NewLog store))) in
  if f_demo f then
    match (runDemo seed inputs svc).1 with
    | Ok (_, failed) => Ok (Exited (if failed then 1 else 0))
    | Err _ => Ok (Exited 1)
    | Panic w => Panic w
    | Block => Block
    end
  else
    srv ← (if positive (f_rps f)
           then l ← NewLimiter (f_rps f) (f_burst f) rateLimitIdleTimeout; Ok (WithRateLimit l (NewServer svc))
           else Ok (NewServer svc));
    Ok (Serving (serve (f_addr f) Handler) srv).
End Process.
Arguments process S C B {_}.

(** [main]: the adapters in the order they are built, for either store. *)
Definition main {WB WC D} `{AMQP WB} `{RedisClient WC} `{Cluster D} `{HashFunction} `{Ed25519} `{RateLimiter}
    (CreateSession : ClusterConfig -> outcome D) (getenv : string -> string) (positive : rate_Limit -> bool)
    (f : flags) (seed : outcome (list byte)) (inputs : Z -> demo_input) (wc : WC) (wb : WB)
    : outcome (process InMemoryStorage (InMemoryCache + redis_node WC) (InMemoryBroker + node WB) +
               process (Scylla (D := D)) (InMemoryCache + redis_node WC) (InMemoryBroker + node WB)) :=
  s ← buildStorage CreateSession getenv;
  c ← buildCache getenv wc;
  b ← buildBroker getenv wb;
  match s with
  | inl m => p ← main_on positive f seed inputs m c b; Ok (inl p)
  | inr d => p ← main_on positive f seed inputs d c b; Ok (inr p)
  end.

(** ** Every request is answered *)

Section Answers.
Context {S C B : Type} `{SL : StorageLaws S} `{CL : CacheLaws C} `{BL : BrokerLaws B}.
Context `{HashFunction} `{Ed25519} `{RateLimiter}.
Implicit Types s : Server S C B.

Lemma room_grew s s' n : room (log_in s) (Datatypes.S n) -> grew s s' -> room (log_in s') n.
Proof. intros R G d. specialize (R d). specialize (G d). lia. Qed.

Lemma answer_all_run addr rs s : server_ok s -> room (log_in s) (length rs) -> Forall (fun er => answers er.1) rs ->
  exists vs s', answer_all (serve addr Handler) rs s = (map Some vs, s') /\ server_ok s' /\ length vs = length rs.
Proof.
  intros K R A. revert s K R. induction A as [|[env r] rs A _ IH]; intros s K R; [by exists [], s|].
  destruct (Handler_run env (limit_body maxRequestBytes r) s K) as (v & s1 & E & K1 & G);
    [eapply room_weaken; [|done]; cbn; lia|done|].
  destruct (IH s1 K1) as (vs & s2 & E2 & K2 & L2); [by eapply room_grew|].
  exists (v :: vs), s2. cbn [answer_all].
  change (ServeHTTP (serve addr Handler) env r s) with (Handler env (limit_body maxRequestBytes r) s).
  rewrite E, E2. split; [done|]. split; [done|]. cbn. by rewrite L2.
Qed.

Lemma new_log_fresh (store : S) (c : C) (b : B) : (forall d, log_of store d = [] /\ snaps_of store d = []) -> broker_inv b ->
  fresh_log (WithBroker b (WithCache c (NewLog store))).
Proof. intros E I. split; [intros d; apply E..|done|done]. Qed.
End Answers.

Section Wiring.
Context {WB WC D : Type} `{AB : AMQPLaws WB} `{RC : RedisLaws WC} `{Cluster D}.
Context `{HashFunction} `{Ed25519} `{RateLimiter}.
Variable CreateSession : ClusterConfig -> outcome D.
Variable getenv : string -> string.

Lemma buildCache_run (w : WC) : exists c, buildCache getenv w = Ok c.
Proof.
  unfold buildCache. case_bool_decide; [by eexists|].
  destruct (new_client_returns (getenv "REDIS_ADDR") (getenv "REDIS_PASSWORD") 0 w) as (c & w' & E).
  unfold NewRedis. rewrite (bind_ok _ _ _ _ _ E). by eexists.
Qed.

Lemma buildBroker_run (w : WB) :
  (exists e, buildBroker getenv w = Err e /\ getenv "RABBITMQ_URL" <> ""%string) \/
  exists b, buildBroker getenv w = Ok b /\ broker_inv b.
Proof.
  unfold buildBroker. case_bool_decide as N; [right; eexists; split; [done|apply broker_ok_new]|].
  destruct (new_rabbit_result (getenv "RABBITMQ_URL") w) as (w' & [[e E]|(r & E & R)]); rewrite E; cbn;
    [left; by eexists|right; by eexists].
Qed.

(** C20: the node as it is put together.  Without [SCYLLA_HOSTS] and [-demo],
    whatever the environment selects for the cache and the broker, [main]
    either ends because RabbitMQ was asked for and could not be set up, or
    serves; and then every request of any sequence gets a response, its body
    cut at the limit, and the logs, empty at the start, keep their invariant. *)
Theorem main_serves positive (f : flags) seed inputs (wc : WC) (wb : WB) :
  getenv "SCYLLA_HOSTS" = ""%string -> f_demo f = false ->
  (exists e, main CreateSession getenv positive f seed inputs wc wb = Err e /\ getenv "RABBITMQ_URL" <> ""%string) \/
  exists srv s, main CreateSession getenv positive f seed inputs wc wb = Ok (inl (Serving srv s)) /\
    server_ok s /\ (forall c, log_at (log_in s) c = []) /\
    (is_Some (s_limiter s) <-> positive (f_rps f) = true) /\
    forall rs, Z.of_nat (length rs) < 2 ^ 64 -> Forall (fun er => answers er.1) rs ->
      exists vs s', answer_all srv rs s = (map Some vs, s') /\ length vs = length rs /\ server_ok s'.
Proof.
  intros Es Ed. unfold main, buildStorage. rewrite Es. cbn [mbind outcome_bind].
  rewrite bool_decide_eq_true_2 by done. destruct (buildCache_run wc) as [c ->]. cbn [mbind outcome_bind].
  destruct (buildBroker_run wb) as [(e & E & N)|(b & E & I)]; rewrite E; cbn [mbind outcome_bind]; [left; by exists e|right].
  set (l := WithBroker b (WithCache c (NewLog NewInMemoryStorage))).
  assert (fresh_log l) as F by by apply new_log_fresh.
  assert (forall rl, server_ok {| svc := NewMessenger l; s_limiter := rl |}) as K by (intros rl; split; [by apply fresh_ok|apply F]).
  assert (exists rl, main_on positive f seed inputs NewInMemoryStorage c b =
    Ok (Serving (serve (f_addr f) Handler) {| svc := NewMessenger l; s_limiter := rl |}) /\
    (is_Some rl <-> positive (f_rps f) = true)) as (rl & -> & P).
  { unfold main_on. rewrite Ed. destruct (positive (f_rps f)); cbn; eexists; (split; [done|]); split; try done; by eexists. }
  do 2 eexists. split; [done|]. split; [apply K|]. split; [intros d; apply F|]. split; [exact P|].
  intros rs L A. destruct (answer_all_run (f_addr f) rs _ (K rl)) as (vs & s' & E2 & K2 & L2); [|done|by exists vs, s'].
  intros d. pose proof (fr_log _ F d) as E0. unfold log_in. cbn [svc log]. rewrite E0. cbn [length]. lia.
Qed.
End Wiring.

(** ** The life of the server *)

(** What is still to happen, at most. *)
Definition to_happen (s : life) : nat :=
  (if listening s then 1 else 0) + (if cancelled s then 0 else 1) +
  match returned s with Some _ => 0 | None => match shut s with Some _ => 1 | None => 2 end end.

Lemma life_step_less s s' : life_step s s' -> (to_happen s' < to_happen s)%nat.
Proof.
  unfold to_happen. destruct 1 as [err L _|C|err R Sh E|r R Sh C|r R Sh]; cbn;
    rewrite ?L, ?C, ?R, ?Sh; try lia; destruct (cancelled s); destruct (returned s); destruct (shut s); lia.
Qed.

Record life_inv (s : life) : Prop := {
  li_chan err : errCh s = Some err -> errors_is err ErrServerClosed = false;
  li_shut : is_Some (shut s) -> cancelled s = true;
  li_result r : returned s = Some r ->
    match r with
    | None => shut s = Some None
    | Some e => (errors_is e ErrServerClosed = false /\ shut s = None) \/
                exists r', shut s = Some (Some r') /\ e = Wrapf "graceful shutdown" r'
    end;
}.

Lemma life_inv_step s s' : life_inv s -> life_step s s' -> life_inv s'.
Proof.
  intros [I1 I2 I3]. destruct 1 as [err L Al|C|err R Sh E|r R Sh C|r R Sh]; split; cbn; try done.
  - destruct (errors_is err ErrServerClosed) eqn:X; [done|]. by intros ? [= <-].
  - intros r [= <-]. left. split; [by apply I1|done].
  - congruence.
  - intros r' [= <-]. destruct r as [r|]; cbn; [right; by exists r|done].
Qed.

(** C39: the server stops.  From its start the function takes at most four
    steps whatever happens; it returns nil only after a signal and a shutdown
    without error; otherwise the error is the one listening failed with, never
    [ErrServerClosed], or the wrapped one of the shutdown; and a run that
    cannot go on has returned, so a signal is never lost. *)
Theorem run_until_shutdown_contract k s : nsteps life_step k born s ->
  (k <= 4)%nat /\
  (forall r, returned s = Some r -> match r with
     | None => cancelled s = true /\ shut s = Some None
     | Some e => (errors_is e ErrServerClosed = false /\ shut s = None) \/
                 exists r', cancelled s = true /\ shut s = Some (Some r') /\ e = Wrapf "graceful shutdown" r'
     end) /\
  (cancelled s = true -> returned s = None -> exists s', life_step s s' /\ (to_happen s' < to_happen s)%nat) /\
  ((forall s', ~ life_step s s') -> is_Some (returned s)).
Proof.
  intros N. assert (k + to_happen s <= to_happen born)%nat as Le.
  { clear -N. induction N as [|k x y z St N IH]; [lia|]. apply life_step_less in St. lia. }
  assert (life_inv s) as [I1 I2 I3].
  { clear Le. assert (life_inv born) as I by (split; cbn; [done|by intros [? ?]|done]).
    revert I. clear -N. induction N as [|k x y z St N IH]; [done|]. intros I. by apply IH, (life_inv_step x). }
  split; [cbn in Le; lia|]. split; [|split].
  - intros r R. specialize (I3 r R). destruct r as [e|].
    + destruct I3 as [?|(r' & Sh & ->)]; [by left|right]. exists r'. by rewrite I2.
    + by rewrite I2.
  - intros C R. destruct (shut s) as [r|] eqn:Sh;
      eexists; (eassert (life_step s _) as St; [|split; [exact St|by apply life_step_less]]).
    + by eapply life_return.
    + by apply (life_shutdown _ None).
  - intros Stuck. destruct (returned s) as [r|] eqn:R; [by eexists|exfalso].
    destruct (cancelled s) eqn:C; [|by eapply Stuck, life_signal].
    destruct (shut s) as [r|] eqn:Sh; [by eapply Stuck, life_return|by eapply Stuck, (life_shutdown _ None)].
Qed.

Lemma run_until_shutdown_contract_witness : exists s, nsteps life_step 3 born s /\ returned s = Some None /\ cancelled s = true.
Proof.
  eexists. assert (nsteps life_step 3 born {| listening := true; errCh := None; cancelled := true; shut := Some None; returned := Some None |}) as N.
  { eapply nsteps_l; [by apply life_signal|]. eapply nsteps_l; [by apply (life_shutdown _ None)|].
    eapply nsteps_l; [by apply (life_return _ None)|]. constructor. }
  split; [exact N|]. split; [reflexivity|].
  exact (proj1 (proj1 (proj2 (run_until_shutdown_contract 3 _ N)) None eq_refl)).
Defined.

(** ** The demonstration *)

Section DemoRun.
Context {S C B : Type} `{SL : StorageLaws S} `{CL : CacheLaws C} `{BL : BrokerLaws B}.
Context `{HashFunction} {E : Ed25519} `{!Ed25519Laws E}.
Implicit Types l : Log S C B.

Lemma first16_hash s : node_hash s -> first16 s = Ok (text (take 16 (bytes s))).
Proof. unfold node_hash, first16. by intros ->. Qed.

(** The messages of the demonstration, signed. *)
Definition demo_signed (seed : list byte) (inputs : Z -> demo_input) (i : Z) : SignedMessage :=
  let m := demo_message (ed_keys seed).2 (inputs i) i in
  with_signature m (ed_sign (ed_keys seed).1 (SigningPayload m)).

Lemma demo_signed_run seed inputs i : length seed = SeedSize ->
  SignMessage (demo_message (ed_keys seed).2 (inputs i) i) (ed_keys seed).1 = Ok (demo_signed seed inputs i) /\
  acceptable (demo_signed seed inputs i) = true /\ ChatID (demo_signed seed inputs i) = demo_chat.
Proof.
  intros L. destruct (SignMessage_verifies seed (demo_message (ed_keys seed).2 (inputs i) i) L eq_refl) as (m & Sg & _ & V).
  assert (SignMessage (demo_message (ed_keys seed).2 (inputs i) i) (ed_keys seed).1 = Ok (demo_signed seed inputs i)) as Sd.
  { unfold SignMessage, Sign. rewrite bool_decide_eq_true_2 by by apply ed_private_size. done. }
  rewrite Sd in Sg. injection Sg as <-. split; [done|]. split; [|done]. unfold acceptable. by rewrite V.
Qed.

(** One message of the loop. *)
Lemma demo_append seed inputs i l n : length seed = SeedSize -> log_ok l -> unlocked l -> room l (Datatypes.S n) ->
  exists l', Submit (di_append (inputs i)) (demo_signed seed inputs i) 0 (NewMessenger l) =
      (Ok (new_entry (log_at l demo_chat) (demo_signed seed inputs i)), NewMessenger l') /\
    log_ok l' /\ unlocked l' /\ room l' n /\
    forall c, messages_at l' c = messages_at l c ++ if decide (c = demo_chat) then [demo_signed seed inputs i] else [].
Proof.
  intros Ls K U R. destruct (demo_signed_run seed inputs i Ls) as (_ & Ac & Ch).
  destruct (Append_cases (di_append (inputs i)) (demo_signed seed inputs i) l K U) as (l' & A & _);
    [eapply room_weaken; [|done]; lia|]. rewrite Ac, Ch in A.
  destruct (Append_messages _ _ _ _ _ n K U R A) as (K' & U' & R' & Ms). exists l'.
  split; [unfold Submit; cbn [Z.ltb andb]; by apply on_log_run|]. split_and!; [done..|].
  intros c. rewrite Ms. unfold spec. cbn [map snd]. rewrite filter_cons, Ac, Ch.
  destruct (decide (c = demo_chat)) as [->|N]; [by rewrite decide_True|by rewrite decide_False by naive_solver].
Qed.

Lemma demo_loop_run seed inputs idx l n : length seed = SeedSize -> log_ok l -> unlocked l -> room l (length idx + n) ->
  exists lines l', demo_loop (ed_keys seed).1 (ed_keys seed).2 inputs idx (NewMessenger l) = (Ok lines, NewMessenger l') /\
    length lines = length idx /\ log_ok l' /\ unlocked l' /\ room l' n /\
    forall c, messages_at l' c = messages_at l c ++ if decide (c = demo_chat) then map (demo_signed seed inputs) idx else [].
Proof.
  intros Ls. revert l. induction idx as [|i idx IH]; intros l K U R.
  - exists [], l. cbn. split_and!; try done. intros c. case_decide; by rewrite app_nil_r.
  - destruct (demo_append seed inputs i l (length idx + n) Ls K U R) as (l1 & A & K1 & U1 & R1 & M1).
    destruct (IH l1 K1 U1 R1) as (lines & l' & D & Ln & K' & U' & R' & M').
    eexists (_ :: lines), l'. split; [|split; [cbn; by rewrite Ln|split_and!; [done..|]]].
    + cbn [demo_loop]. destruct (demo_signed_run seed inputs i Ls) as (Sg & _).
      erewrite bind_ok by (unfold lift; rewrite Sg; done). rewrite (bind_ok _ _ _ _ _ A).
      erewrite bind_ok by (unfold lift; rewrite first16_hash by apply hexdigest_length; done).
      by rewrite (bind_ok _ _ _ _ _ D).
    + intros c. rewrite M', M1, <-(assoc_L (++)). f_equal. by case_decide.
Qed.

(** The demonstration.  On a node whose logs hold their invariant it does
    not fail: it appends three messages of alice, signed with a new key, to its
    chat and to no other, prints their hashes, and reports a valid chain of all
    the entries of the chat, which an empty store has three of. *)
Theorem demo_contract seed inputs l : length seed = SeedSize -> log_ok l -> unlocked l -> room l 4 ->
  exists lines l', runDemo (Ok seed) inputs (NewMessenger l) = (Ok (lines, false), NewMessenger l') /\
    log_ok l' /\ unlocked l' /\ length lines = 5%nat /\
    (forall c, messages_at l' c =
       messages_at l c ++ if decide (c = demo_chat) then map (demo_signed seed inputs) [1; 2; 3] else []) /\
    lines !! 3%nat = Some ("verify: valid=true entries=" ++ fmt_d (Z.of_nat (length (log_at l demo_chat)) + 3) ++ " " ++ newline)%string.
Proof.
  intros Ls K U R. destruct (demo_loop_run seed inputs [1; 2; 3] l 1 Ls K U R) as (lines & l' & D & Ln & K' & U' & R' & M').
  assert (length (log_at l' demo_chat) = length (log_at l demo_chat) + 3)%nat as Len.
  { rewrite !log_at_length, M', decide_True by done. by rewrite length_app. }
  destruct (lo_chats _ K' demo_chat) as [T _ _ Rm].
  assert (node_hash (tip_hash (log_at l' demo_chat))) as Nh.
  { destruct (log_at l' demo_chat) as [|e es _] eqn:Es using rev_ind; [cbn in Len; lia|].
    unfold tip_hash. rewrite tip_from_snoc. apply chain_nodes in T. unfold leaves_of in T. rewrite map_app in T.
    apply Forall_app in T as [_ T]. by inversion T. }
  eexists _, l'. split.
  { unfold runDemo. assert (lift (GenerateKeyPair (Ok seed)) (NewMessenger l) = (Ok (ed_keys seed), NewMessenger l)) as G by done.
    rewrite (bind_ok _ _ _ _ _ G). destruct (ed_keys seed) as [priv pub] eqn:Kp. cbn [fst snd] in D.
    rewrite (bind_ok _ _ _ _ _ D).
    assert (MsgrVerify demo_chat (NewMessenger l') = (Ok {| vr_Valid := true; vr_Entries := u64 (Z.of_nat (length (log_at l' demo_chat)));
      vr_Reason := "" |}, NewMessenger l')) as V by (by apply on_log_read, VerifyChain_chain).
    rewrite (bind_ok _ _ _ _ _ V).
    pose proof (on_log_read _ (NewMessenger l') _ (Sync_run demo_chat l' K')) as Sy.
    erewrite bind_ok by exact Sy.
    erewrite bind_ok by (unfold lift; cbn [CurrentHash]; rewrite first16_hash by exact Nh; done). done. }
  split; [done|]. split; [done|]. split; [by rewrite length_app, Ln|]. split; [exact M'|].
  rewrite lookup_app_r by (rewrite Ln; done). rewrite Ln. cbn [length Nat.sub lookup list_lookup vr_Entries vr_Valid vr_Reason].
  rewrite u64_id by (unfold is_u64; lia). rewrite Len, Nat2Z.inj_add. done.
Qed.
End DemoRun.

(** ** The limit on bodies *)

Section Limit.
Context {S C B : Type} `{Storage S} `{Cache C} `{Broker B} `{HashFunction} `{Ed25519} `{RateLimiter}.

(** C40: the limit leaves room for what is allowed.  The JSON of a message whose
    content is within the cap on videos, with a key and a signature of the size
    of the scheme and texts of no more than 900000 bytes together, whatever
    these need to be escaped, is within the limit: the server passes the
    request on as it came. *)
Theorem upload_fits n m v addr (h : Env -> Request -> M (Server S C B) Response) env r s :
  encode_message n m = Some v -> r_body r = print v -> int64 (SchemaVersion m) ->
  Z.of_nat (length (Content m)) <= MaxVideoBytes -> (length (PublicKey m) <= PublicKeySize)%nat ->
  (length (Signature m) <= 64)%nat -> texts_length m <= 900000 ->
  ServeHTTP (serve addr h) env r s = h env r s.
Proof.
  intros E Er V Lc Lp Ls Lt. pose proof (encode_message_length n m v V E) as L. unfold encoded_length in L.
  assert (Z.of_nat (length (r_body r)) <= maxRequestBytes) as Le.
  { rewrite Er. unfold PublicKeySize in Lp. change maxRequestBytes with 75497472. change MaxVideoBytes with 52428800 in Lc. div_lia. }
  cbn [ServeHTTP serve]. unfold MaxBytesHandler, limit_body. by rewrite (proj2 (Z.ltb_ge _ _)).
Qed.
End Limit.

(** ** On a small node *)

Module MainSample.
Import ApiSample.

(** Redis and RabbitMQ are asked for, ScyllaDB is not. *)
Definition getenv (key : string) : string :=
  if bool_decide (key = "REDIS_ADDR"%string) then "localhost:6379"
  else if bool_decide (key = "RABBITMQ_URL"%string) then "amqp://localhost" else "".

Definition no_cluster (_ : ClusterConfig) : outcome ClusterSample.tables := Err (External "no hosts").
Definition defaults : flags := {| f_addr := ":8080"; f_demo := false; f_rps := 5; f_burst := 20 |}.
Definition inputs (i : Z) : demo_input :=
  {| di_id := [Zbyte i]; di_now := LogSample.epoch; di_append := LogSample.epoch |}.
Definition positive (rps : @rate_Limit BucketSample.token_bucket) : bool := 0 <? (rps : Z).
Definition node_main := main no_cluster getenv positive defaults (Ok LogSample.key) inputs
  {| RedisSample.up := true; RedisSample.values := ∅ |} RabbitSample.start.
End MainSample.

Section Witnesses.
Import ApiSample MainSample.
#[local] Opaque LogSample.signed.

Lemma main_serves_witness : exists srv s vs s', node_main = Ok (inl (Serving srv s)) /\
  answer_all srv [(env, post 0); (env, page_request "c" 0 10)] s = (map Some vs, s') /\ length vs = 2%nat.
Proof.
  destruct (main_serves no_cluster getenv positive defaults (Ok LogSample.key) inputs
    {| RedisSample.up := true; RedisSample.values := ∅ |} RabbitSample.start eq_refl eq_refl)
    as [(e & E & _)|(srv & s & E & _ & _ & _ & An)].
  - exfalso. apply (f_equal (fun o => match o with Err _ => true | _ => false end)) in E. revert E. vm_compute. discriminate.
  - destruct (An [(env, post 0); (env, page_request "c" 0 10)] ltac:(cbn; lia)) as (vs & s' & A & L & _).
    { constructor; [exact env_answers|]. constructor; [exact env_answers|constructor]. }
    exists srv, s, vs, s'. split; [exact E|]. split; [exact A|exact L].
Defined.

Lemma demo_contract_witness : exists lines l',
  runDemo (Ok LogSample.key) inputs (NewMessenger LogSample.start) = (Ok (lines, false), NewMessenger l') /\
  lines !! 3%nat = Some ("verify: valid=true entries=3 " ++ newline)%string.
Proof.
  destruct (demo_contract LogSample.key inputs LogSample.start eq_refl (fresh_ok _ LogSample.start_fresh)
    (fr_locks _ LogSample.start_fresh)) as (lines & l' & E & _ & _ & _ & _ & V).
  - intros c. change (log_at LogSample.start c) with (@nil LogEntry). cbn. lia.
  - exists lines, l'. split; [exact E|exact V].
Defined.

Lemma upload_fits_witness :
  ServeHTTP (serve ":8080" Handler) env (post 1) (serving 1) = Handler env (post 1) (serving 1).
Proof.
  destruct (encode_message false (LogSample.signed "c" 1)) as [v|] eqn:Ev.
  2:{ exfalso. destruct (encode_message_some false (LogSample.signed "c" 1)) as [v Ev']; [apply JsonSample.signed_readable; reflexivity|].
      rewrite Ev in Ev'. discriminate. }
  apply (upload_fits false (LogSample.signed "c" 1) v ":8080" Handler env (post 1) (serving 1) Ev).
  - unfold post. cbn [r_body]. by rewrite Ev.
  - rewrite (same_SchemaVersion _ _ (proj1 (LogSample.signed_same "c" 1))). unfold int64; cbn; unfold CurrentSchemaVersion; lia.
  - vm_compute. discriminate.
  - apply Nat.leb_le. vm_compute. reflexivity.
  - apply Nat.leb_le. vm_compute. reflexivity.
  - vm_compute. discriminate.
Defined.
End Witnesses.
