(* ===== verification/ScyllaNode.v ===== *)
(** * ScyllaNode: the node on ScyllaDB

    A server whose log is kept by ScyllaDB and one whose log is kept by a store
    that keeps its contract get the same requests.  When the messages accepted
    have times the column can hold and the pages asked for start below [2^63],
    the responses are the same but for two differences, which [seen_response]
    states: the snapshot in the answer to [sync] has its time cut to the
    millisecond, and a page or a bundle without entries is the nil slice, which
    is written as [null] where the store in memory has an empty array.  So a
    node that is started with [SCYLLA_HOSTS], on an empty database or on one
    that an earlier run left, answers such requests as [ApiContract] and [Main]
    promise, up to these differences. *)
From S2P Require Import Prelude Tables Simulation Codec JsonText GoTime JsonTree JsonUtf8 TimeText Sha256 Models Merkle Crypto Storage Cache Redis Broker Wire WireSize Rabbit RabbitRuns Chatlog LogFacts LogReads LogContract Service RateLimit Api ApiContract ApiJson Scylla ScyllaLog Dispatch Main.

(** What differs: the time of a snapshot, and that a slice without entries is
    nil ([scylla.go], [var out []models.LogEntry]). *)
Definition seen_reply (b : reply) : reply :=
  match b with
  | JSync b => JSync (seen_bundle b)
  | JHistory h => JHistory {| Messages := seen_slice (Messages h); NextFrom := NextFrom h |}
  | b => b
  end.
Definition seen_response (v : Response) : Response :=
  {| status := status v; retry_after := retry_after v; body := seen_reply (body v) |}.

(** A request the database can serve like memory: an acceptable message has a
    time in UTC on a whole millisecond, and a page starts below [2^63]. *)
Record request_fits `{Ed25519} (r : Request) : Prop := {
  rf_time m c : DecodeMessage (r_cut r) (r_body r) = Some m -> acceptable (for_chat c m) = true -> storable m;
  rf_from from : parseUintQuery r "from" 0 = Some from -> 0 <= from < 2 ^ 63;
}.

Section Node.
Context {D : Type} `{CL : ClusterLaws D}.
Context {S C B : Type} `{SL : StorageLaws S} `{CA : CacheLaws C} `{BL : BrokerLaws B}.
Context `{HashFunction} `{Ed25519} `{RateLimiter}.

Abbreviation server1 := (Server (Scylla (D := D)) C B).
Abbreviation server2 := (Server S C B).

Definition server_rel (s1 : server1) (s2 : server2) : Prop :=
  log_rel (log_in s1) (log_in s2) /\ s_limiter s1 = s_limiter s2.

Definition room63 (s : server2) (n : nat) : Prop :=
  forall c, Z.of_nat (length (log_at (log_in s) c)) + Z.of_nat n < 2 ^ 63.

Definition seen (v1 v2 : Response) : Prop := v1 = seen_response v2.
Abbreviation simS := (sim server_rel).

Lemma sim_on_svc {A1 A2} (V : A1 -> A2 -> Prop) m1 m2 s1 s2 : server_rel s1 s2 ->
  sim log_rel V m1 m2 (log_in s1) (log_in s2) -> simS V (on_svc (on_log m1)) (on_svc (on_log m2)) s1 s2.
Proof.
  intros [R L] Sm. unfold on_svc. eapply sim_zoom with (Q := fun m1 m2 => log_rel (log m1) (log m2)); [by split|].
  unfold on_log. eapply sim_zoom with (Q := log_rel); [done|exact Sm].
Qed.

(** A call whose result or error becomes the response. *)
Lemma sim_reply {A1 A2} (V : A1 -> A2 -> Prop) m1 m2 (k1 : A1 + error -> Response) k2 s1 s2 :
  simS V m1 m2 s1 s2 -> (forall x1 x2, tried V x1 x2 -> k1 x1 = seen_response (k2 x2)) ->
  simS seen (x ← try m1; mret (k1 x)) (x ← try m2; mret (k2 x)) s1 s2.
Proof.
  intros Sm K. eapply sim_bind; [by apply sim_try|]. intros x1 x2 t1 t2 _ _ T R. by apply sim_ret; [apply K|].
Qed.

(** The result is the same on both sides and the response does not carry a snapshot. *)
Lemma sim_reply_eq {A} m1 m2 (k : A + error -> Response) s1 s2 :
  simS eq m1 m2 s1 s2 -> (forall x, seen_response (k x) = k x) ->
  simS seen (x ← try m1; mret (k x)) (x ← try m2; mret (k x)) s1 s2.
Proof.
  intros Sm K. eapply sim_reply; [exact Sm|]. intros [a1|e1] [a2|e2] T; cbn in T; try done; subst; by rewrite K.
Qed.

Lemma sim_answer v s1 s2 : server_rel s1 s2 -> seen_response v = v -> simS seen (mret v) (mret v) s1 s2.
Proof. intros R E. by apply sim_ret. Qed.

Lemma sim_Submit cap now msg s1 s2 : server_rel s1 s2 -> server_ok s2 -> room63 s2 1 ->
  (acceptable msg = true -> storable msg) ->
  simS eq (on_svc (Submit now msg cap)) (on_svc (Submit now msg cap)) s1 s2.
Proof.
  intros R K Rm St. unfold Submit. case_match.
  - eapply sim_zoom with (Q := fun m1 m2 => log_rel (log m1) (log m2)); [intros ? ? Q; split; [exact Q|apply R]|].
    apply sim_throw, R.
  - apply sim_on_svc; [done|]. by apply sim_Append; [apply R|apply K|apply Rm|].
Qed.

Lemma sim_handleSubmit cap env r c s1 s2 : server_rel s1 s2 -> server_ok s2 -> room63 s2 1 -> request_fits r ->
  simS seen (handleSubmit cap env r c) (handleSubmit cap env r c) s1 s2.
Proof.
  intros R K Rm [Ft _]. unfold handleSubmit, decodeSignedMessage.
  destruct (DecodeMessage _ _) as [m|] eqn:E; [|by apply sim_answer]. case_match; [|by apply sim_answer].
  case_match; [by simplify_eq|]. simplify_eq.
  apply sim_reply_eq; [|by intros []]. apply sim_Submit; [done..|]. intros A. exact (Ft m c eq_refl A).
Qed.

Lemma sim_handleHistory r c s1 s2 : server_rel s1 s2 -> request_fits r ->
  simS seen (handleHistory r c) (handleHistory r c) s1 s2.
Proof.
  intros R [_ Ff]. unfold handleHistory. destruct (parseUintQuery r "from" 0) as [from|] eqn:F; [|by apply sim_answer].
  destruct (parseUintQuery r "limit" _); [|by apply sim_answer]. case_match; [by apply sim_answer|].
  eapply sim_reply; [apply sim_on_svc; [done|]; apply sim_History; [apply R|by apply Ff]|].
  intros [w1|e1] [w2|e2] T; cbn in T; try done; subst; [|done]. by rewrite elems_seen.
Qed.

Lemma sim_with_sequence {A} t (m1 : Z -> M (Log (Scylla (D := D)) C B) A) (m2 : Z -> M (Log S C B) A) ok special s1 s2 :
  server_rel s1 s2 -> (forall q, is_u64 q -> sim log_rel eq (m1 q) (m2 q) (log_in s1) (log_in s2)) ->
  (forall a, seen_reply (ok a) = ok a) -> (forall e v, special e = Some v -> seen_response v = v) ->
  simS seen (with_sequence t (fun q => on_log (m1 q)) ok special) (with_sequence t (fun q => on_log (m2 q)) ok special) s1 s2.
Proof.
  intros R Sm Ok1 Sp. unfold with_sequence. destruct (ParseUint t) as [q|] eqn:E; [|by apply sim_answer].
  apply ParseUint_range in E. apply sim_reply_eq; [by apply sim_on_svc, Sm|].
  intros [a|e]; [by cbn; unfold seen_response; cbn; rewrite Ok1|].
  destruct (special e) as [v|] eqn:Es; [by eapply Sp|done].
Qed.

Lemma special_answer (b : bool) (v w : Response) :
  (if b then Some w else None) = Some v -> seen_response w = w -> seen_response v = v.
Proof. destruct b; [by intros [= <-]|done]. Qed.

Lemma sim_handleStream env c s1 s2 : server_rel s1 s2 ->
  simS seen (handleStream env c) (handleStream env c) s1 s2.
Proof.
  assert (forall id t1 t2, server_rel t1 t2 -> simS eq (on_svc (MsgrCancel id)) (on_svc (MsgrCancel id)) t1 t2) as Cn.
  { intros id t1 t2 Rt. apply sim_on_svc; [done|]. apply sim_broker, Rt. }
  intros R. unfold handleStream. eapply sim_bind; [apply sim_try, sim_on_svc; [done|apply sim_broker, R]|].
  intros [id|e] [id'|e'] t1 t2 _ _ T R1; cbn in T; try done; subst; [|by apply sim_answer].
  destruct (e_upgrade env) as [code|].
  - eapply sim_bind; [by apply Cn|]. intros [] [] t3 t4 _ _ _ R2. by apply sim_answer.
  - destruct (stream_loop c (e_stream env)) as [fs []]; [|by apply sim_block].
    eapply sim_bind; [by apply Cn|]. intros [] [] t3 t4 _ _ _ R2. by apply sim_answer.
Qed.

Lemma sim_handle env r x s1 s2 : server_rel s1 s2 -> server_ok s2 -> room63 s2 1 -> request_fits r ->
  simS seen (handle env r x) (handle env r x) s1 s2.
Proof.
  intros R K Rm F. pose proof (proj1 R) as RL. destruct K as [KL KU]. destruct x; cbn [handle].
  - by apply sim_answer.
  - apply sim_reply_eq; [by apply sim_lift; [apply osim_eq|]|by intros [[]|]].
  - apply sim_reply_eq; [by apply sim_lift; [apply osim_eq|]|by intros []].
  - by apply sim_handleSubmit.
  - by apply sim_handleHistory.
  - apply sim_with_sequence; [done|intros q Q; by apply sim_LogEntryAt|done|].
    intros e v E. by eapply special_answer.
  - apply sim_with_sequence; [done|intros q Q; by apply sim_ProveInclusion|done|].
    intros e v E. by eapply special_answer.
  - apply sim_with_sequence; [done|intros q Q; by apply sim_VerifyEntry|done|].
    intros e v E. by eapply special_answer.
  - by apply sim_handleSubmit.
  - by apply sim_handleSubmit.
  - apply sim_reply_eq; [by apply sim_on_svc, sim_VerifyChain|by intros []].
  - eapply sim_reply; [by apply sim_on_svc, sim_Sync|].
    intros [b1|e1] [b2|e2] T; cbn in T; by subst.
  - by apply sim_handleStream.
Qed.

Lemma sim_mux env r s1 s2 : server_rel s1 s2 -> server_ok s2 -> room63 s2 1 -> request_fits r ->
  simS seen (mux env r) (mux env r) s1 s2.
Proof. intros R K Rm F. unfold mux. case_match; [by apply sim_handle|by apply sim_answer]. Qed.

Lemma sim_Handler env r s1 s2 : server_rel s1 s2 -> server_ok s2 -> room63 s2 1 -> request_fits r ->
  simS seen (Handler env r) (Handler env r) s1 s2.
Proof.
  intros R K Rm F. pose proof (proj2 R) as L. unfold Handler, sim. rewrite <-L.
  destruct (s_limiter s1) as [rl|] eqn:E; [|by apply sim_mux].
  case_bool_decide; [by apply sim_mux|].
  assert (forall rl', server_rel {| svc := svc s1; s_limiter := rl' |} {| svc := svc s2; s_limiter := rl' |}) as Rl
    by (intros rl'; split; [apply R|done]).
  destruct (Allow _ _ _ rl) as [[[]|?|?|] rl']; [|split; [done|apply Rl]..].
  apply sim_mux; [apply Rl|by apply server_ok_limiter|done|done].
Qed.

Lemma room63_room s n : room63 s n -> room (log_in s) n.
Proof. intros R c. specialize (R c). lia. Qed.

Lemma room63_grew s s' n : room63 s (Datatypes.S n) -> grew s s' -> room63 s' n.
Proof. intros R G c. specialize (R c). specialize (G c). lia. Qed.

(** Requests the surroundings answer and the database can serve, as the
    handler sees them. *)
Definition servable (er : Env * Request) : Prop := answers er.1 /\ request_fits (limit_body maxRequestBytes er.2).

Lemma answer_all_sim addr rs s1 s2 : server_rel s1 s2 -> server_ok s2 -> room63 s2 (length rs) -> Forall servable rs ->
  exists vs s1' s2', answer_all (serve addr Handler) rs s1 = (map (fun v => Some (seen_response v)) vs, s1') /\
    answer_all (serve addr Handler) rs s2 = (map Some vs, s2') /\
    length vs = length rs /\ server_rel s1' s2' /\ server_ok s2'.
Proof.
  intros R K Rm F. revert s1 s2 R K Rm. induction F as [|[env r] rs [An Ft] _ IH]; intros s1 s2 R K Rm;
    [by exists [], s1, s2|]. cbn [fst snd] in An, Ft.
  assert (room63 s2 1) as R1 by (intros c; specialize (Rm c); cbn in Rm; lia).
  destruct (Handler_run env (limit_body maxRequestBytes r) s2 K (room63_room _ _ R1) An) as (v & t2 & E2 & K2 & G).
  pose proof (sim_Handler env _ s1 s2 R K R1 Ft) as [O Rt]. rewrite E2 in O, Rt. cbn [fst snd] in O, Rt.
  destruct (Handler env (limit_body maxRequestBytes r) s1) as [[v1|?|?|] t1] eqn:E1; try done. cbn in O, Rt. unfold seen in O. subst v1.
  destruct (IH t1 t2 Rt K2) as (vs & s1' & s2' & A1 & A2 & L & R' & K'); [by eapply room63_grew|].
  exists (v :: vs), s1', s2'. cbn [answer_all].
  change (ServeHTTP (serve addr Handler) env r s1) with (Handler env (limit_body maxRequestBytes r) s1).
  change (ServeHTTP (serve addr Handler) env r s2) with (Handler env (limit_body maxRequestBytes r) s2).
  rewrite E1, E2, A1, A2. split_and!; try done. cbn. by rewrite L.
Qed.

(** A database that holds the logs of a store. *)
Definition holds (d : D) (m : S) : Prop :=
  store_rel {| session := d |} m /\ forall c, chat_ok c (log_of m c) (snaps_of m c).

Lemma holds_rel d m (b : B) (c : C) rl : holds d m -> broker_inv b ->
  server_rel {| svc := NewMessenger (WithBroker b (WithCache c (NewLog {| session := d |}))); s_limiter := rl |}
             {| svc := NewMessenger (WithBroker b (WithCache c (NewLog m))); s_limiter := rl |} /\
  server_ok {| svc := NewMessenger (WithBroker b (WithCache c (NewLog m))); s_limiter := rl |}.
Proof. intros [R K] I. split; [split; [split; [exact R|done..]|done]|]. split; [split; [exact K|exact I]|done]. Qed.

Lemma server_rel_holds s1 s2 : server_rel s1 s2 -> server_ok s2 ->
  holds (session (store (log_in s1))) (store (log_in s2)).
Proof.
  intros [[R _ _ _] _] [[K _] _]. split; [|exact K]. intros c. exact (R c).
Qed.

End Node.

(** ** Started with [SCYLLA_HOSTS] *)

Section Started.
Context {WB WC D : Type} `{AB : AMQPLaws WB} `{RC : RedisLaws WC} `{CL : ClusterLaws D}.
Context `{HashFunction} `{Ed25519} `{RateLimiter}.
Variable CreateSession : ClusterConfig -> outcome D.
Variable getenv : string -> string.

(** The configuration [main] connects with. *)
Definition scylla_config : ClusterConfig := {|
  Hosts := Split (getenv "SCYLLA_HOSTS") x2c; Keyspace := envOr getenv "SCYLLA_KEYSPACE" "messenger";
  Quorum := true; Timeout := 5 * Second |}.

Lemma main_on_serves {S C B} `{Storage S} `{Cache C} `{Broker B} positive (f : flags) seed inputs (store : S) (c : C) (b : B) :
  f_demo f = false -> exists rl, main_on positive f seed inputs store c b =
    Ok (Serving (serve (f_addr f) Handler)
      {| svc := NewMessenger (WithBroker b (WithCache c (NewLog store))); s_limiter := rl |}) /\
    forall S' `{Storage S'} (store' : S'), main_on positive f seed inputs store' c b =
    Ok (Serving (serve (f_addr f) Handler)
      {| svc := NewMessenger (WithBroker b (WithCache c (NewLog store'))); s_limiter := rl |}).
Proof.
  intros Ed. unfold main_on. rewrite Ed. by destruct (positive (f_rps f)); cbn; eexists.
Qed.

End Started.

(** ** On a small node *)

Lemma request_fits_ok `{Ed25519} r :
  match DecodeMessage (r_cut r) (r_body r) with Some m => bool_decide (storable m) | None => true end = true ->
  match parseUintQuery r "from" 0 with Some q => (0 <=? q) && (q <? 2 ^ 63) | None => true end = true ->
  request_fits r.
Proof.
  intros T F. split.
  - intros m c E _. rewrite E in T. by apply bool_decide_eq_true in T.
  - intros q E. rewrite E in F. lia.
Qed.

Module ScyllaSample.
Import ApiSample.

Definition tables_node : Server (Scylla (D := ClusterSample.tables)) InMemoryCache InMemoryBroker :=
  NewServer (NewMessenger ScyllaLogSample.on_tables).

(** The empty chat is read, a message is posted, the chat is read, and a client
    catches up. *)
Definition requests : list (Env * Request) :=
  [(env, page_request "c" 0 10); (env, post 0); (env, page_request "c" 0 10);
   (env, {| r_method := GET; r_path := ["chats"; "c"; "sync"]%string; r_query := fun _ => ""%string;
            r_body := []; r_cut := false; r_remote := ""%string |})].

Lemma requests_servable : Forall servable requests.
Proof.
  assert (forall r, match DecodeMessage (r_cut r) (r_body r) with Some m => bool_decide (storable m) | None => true end = true ->
    match parseUintQuery r "from" 0 with Some q => (0 <=? q) && (q <? 2 ^ 63) | None => true end = true ->
    limit_body maxRequestBytes r = r -> servable (env, r)) as F.
  { intros r T Q E. split; [exact env_answers|]. cbn [snd]. rewrite E. by apply request_fits_ok. }
  unfold requests. apply Forall_cons_2; [|apply Forall_cons_2; [|apply Forall_cons_2; [|apply Forall_cons_2; [|constructor]]]];
    apply F; vm_compute; reflexivity.
Qed.

(** The two answers to the first request, as they are written. *)
Definition first_body {S'} `{Storage S'} (s : Server S' InMemoryCache InMemoryBroker) : list byte :=
  match (handleHistory (page_request "c" 0 10) "c" s).1 with Ok v => write_body (fun _ => false) (body v) | _ => [] end.

Lemma empty_page_bytes : first_body (serving 0) = print (JObj [key "messages" (JArr []); key "next_from" JNull]) ++ [x0a] /\
  first_body tables_node = print (JObj [key "messages" JNull; key "next_from" JNull]) ++ [x0a].
Proof. vm_compute. done. Qed.

(** ScyllaDB is asked for, Redis and RabbitMQ too. *)
Definition getenv (key : string) : string :=
  if bool_decide (key = "SCYLLA_HOSTS"%string) then "10.0.0.1,10.0.0.2" else MainSample.getenv key.
Definition connect (_ : ClusterConfig) : outcome ClusterSample.tables := Ok (session ClusterSample.empty).
Definition node_main := main connect getenv MainSample.positive MainSample.defaults (Ok LogSample.key) MainSample.inputs
  {| RedisSample.up := true; RedisSample.values := ∅ |} RabbitSample.start.
End ScyllaSample.

Section Witnesses.
Import ApiSample ScyllaSample.
#[local] Opaque LogSample.signed.


End Witnesses.
